(* ===== verification/_CoqProject ===== *)
-Q . S2P
Prelude.v
Order.v
Text.v
Codec.v
SimBase.v
RaftTypes.v
RaftLog.v
RaftLogFacts.v
RaftNode.v
RaftNodeFacts.v
RaftNodeInv.v
RaftProps.v
RaftHistory.v
HistorySteps.v
RaftProtocol.v
ProtocolSafety.v
RaftRefine.v
NodeSafety.v
Fs.v
Wal.v
Bloom.v
Memtable.v
SsTable.v
SsTableFacts.v
MergeIter.v
MergeFacts.v
Manifest.v
Db.v
LsmSpec.v
DbRead.v
DbCompact.v
DbTree.v
DbInv.v
DbOps.v
DbEngine.v
DbProps.v
Corruption.v
Kvsm.v
Wgl.v
SimCluster.v
Durability.v
LogStore.v
DbBackend.v
Proto.v
Net.v
Client.v
Bench.v
Zipf.v
Loadgen.v
Kvctl.v
Server.v
ServerRequests.v
ServerDurable.v
GroupCommit.v
Cluster.v
RaftBounds.v
Replica.v
ServerReplica.v
ServerCluster.v
ServerLive.v
Linear.v
Kvd.v
SimLogic.v
SimSafety.v
SimRuns.v
Simulate.v
