(* ===== verification/Prelude.v ===== *)
(** * Verification of raft-kv

    raft-kv is a replicated key-value store: a deterministic Raft core
    (crates/raft), a key-value state machine with client sessions (crates/kvsm),
    an LSM storage engine (crates/storage), a server host that drives the core
    over tokio (crates/server), a client library with a wire protocol
    (crates/client, crates/proto), and a deterministic simulator that runs a whole
    cluster with faults and checks its history for linearizability (crates/sim).
    Around them are the server process, the command line client, a load generator
    (crates/bench) and the driver of the simulator. This library models all of them
    but the sockets, and proves them correct from the file operations up to the
    answers a client gets.

    ** How the parts fit

    A [RaftNode] is a pure object: the host calls [tick], [step], [propose],
    [read_index] and [compact], then takes an [Output] and must write its durable
    part before it sends its messages or applies its committed entries. The
    simulator is one such host: it owns the clock, the network, the disks and
    the clients, draws every decision from one generator, applies committed
    commands to a [StateMachine], and asserts election safety, log matching,
    state machine safety, convergence and linearizability along the way.

    The server is the other host. Its event loop writes the durable part of each
    output to a log store, a table of rows in one instance of the storage engine;
    applies committed commands to a state machine whose backend is another
    instance; compacts; answers the clients that wait; and sends the messages.
    The engine keeps its recent writes in a write-ahead log and a memtable, its
    older ones in levelled tables named by a manifest. The client retries a
    request under one session and sequence number until it has a definitive
    answer.

    ** Files

    Prelude        machine integers, bytes, ranges, sorting, the bounded loop
    Order          comparisons, byte order, sorted views of finite maps
    Text           decimal numbers and pieces of strings, as Rust reads and prints them
    Codec          bincode as a class with its round-trip law
    SimBase        crates/sim/src/rng.rs and history.rs
    RaftTypes      crates/raft/src/types.rs
    RaftLog        crates/raft/src/log.rs; RaftLogFacts holds its lemmas
    RaftNode       crates/raft/src/node.rs, one definition per method
    RaftNodeFacts  what each handler leaves unchanged
    RaftNodeInv    the invariant of one node under every sequence of operations
    RaftProps      functional properties of elections, commit, reads, leases,
                   membership changes, snapshots and flow control
    RaftHistory    the history of a cluster: who led, who voted, what was written
    HistorySteps, RaftProtocol, ProtocolSafety
                   the protocol as moves over that history, and its safety
    RaftRefine, NodeSafety
                   every operation of a node is a sequence of protocol moves
    Fs             directories, file operations and crashes
    Wal, Bloom, Memtable, SsTable, MergeIter, Manifest, Db
                   crates/storage/src, one file per module; SsTableFacts and
                   MergeFacts hold the lemmas of tables and merging
    LsmSpec        what a list of versions answers: the reference for reads
    DbRead, DbCompact, DbTree, DbInv, DbOps, DbEngine
                   the invariant of the engine and that reads, writes, flushes,
                   compactions and recovery keep it, crashes included
    DbProps        the theorems on the engine; Corruption: altered tables
    Kvsm           crates/kvsm/src/lib.rs
    Wgl            crates/sim/src/wgl.rs
    SimCluster     crates/sim/src/cluster.rs
    Durability     the contract of [Output] between a node and its disk
    LogStore       crates/server/src/logstore.rs, as an implementation of it
    DbBackend      crates/server/src/backend.rs, as an implementation of [Backend]
    Proto          crates/proto/src/lib.rs and the peer streams of server/src/net.rs
    Net            crates/server/src/net.rs: pipes to peers, client connections
    Client         crates/client/src/lib.rs
    Bench, Zipf    crates/bench/src/lib.rs; Zipf holds its floating point part
    Loadgen        crates/bench/src/bin/loadgen.rs
    Kvctl          crates/client/src/bin/kvctl.rs
    Server         crates/server/src/core.rs and the counters of metrics.rs
    ServerRequests the accounts of client requests over the steps of the loop
    ServerDurable  one turn of the loop against the durability contract
    GroupCommit    a run of three servers in which one batch breaks agreement
    Cluster        nodes on an asynchronous network, with the theorems on them
    RaftBounds     every number of nodes and messages against the steps of a run
    Replica        what the state machine of a replica is after a log
    ServerReplica  what the event loop answers, in terms of the log
    ServerCluster  servers on an asynchronous network, from the file operations
                   of their log stores up to the answers of clients
    ServerLive     its loops go on, and every client request is settled in time
    Linear         the writes of that cluster as one sequential execution, and
                   what its clients are told
    Kvd            crates/server/src/bin/kvd.rs and the page of metrics.rs
    SimLogic, SimSafety, SimRuns
                   a Hoare logic of the simulator and the proof that its
                   assertions hold
    Simulate       crates/sim/src/bin/simulate.rs

    ** Conventions

    Terms, indices, ticks, stamps and ids are [N]: they only ever grow by one
    and do not reach 2^64, which RaftBounds proves of the raft core. The two random
    generators and the bit masks keep
    their 64-bit wrap-around. A [BTreeMap] or [HashMap] is a [gmap] and its
    ordered iteration is [btree_keys] or [bt_iter]; a [Vec] is a list; bytes are
    [list byte]. A function that can panic returns [option], or a [Result] with
    the reason where the reason matters. bincode is a parameter, the class
    [Bincode] with [BincodeLaws] where the round trip is needed;
    [countable_bincode] is a concrete instance. crc32fast is the class [Crc32],
    of which nothing is assumed but its width.

    A directory is a map from files to bytes of which a prefix is synced. File
    operations are performed in order; a crash keeps a prefix of the operations
    and cuts each file anywhere behind its synced prefix. Creating, renaming and
    removing files is durable at once (the code never syncs a directory), and
    the operating system reports no I/O error of its own. Code over the
    directory is an [IO]: the result and the operations performed.

    The theorems on crashes are about those that leave a manifest to restart from
    ([manifest_kept] and [outage] of Manifest). With [MANIFEST] in place, as it is
    after every flush and compaction, that is every crash. Without it, the temporary file is
    the only copy: left out are a crash that loses it, which takes two crashes in a
    row and is a defect below, and a first manifest whose torn bytes end by chance
    with their own checksum.

    The event loop is a function from the state and the directory to the new
    state, or a panic, and the trace of what was done: file operations, answers,
    dropped answers and messages, in order.

    ** What is proved

    - Safety of Raft (Cluster): for every schedule of ticks, deliveries,
      losses, duplications, reorderings, proposals, reads, compactions and
      crashes with restart from disk, over a fixed voter set: election safety,
      log matching, leader completeness, state machine safety, and that no
      delivered message makes a node panic. The proof goes through a history of
      the cluster (RaftHistory), protocol moves that preserve its invariant
      (ProtocolSafety), and a refinement of every method to those moves
      (RaftRefine). After [k] steps no term, index, read context or tick exceeds
      [k], in nodes and in messages (RaftBounds), so the unbounded numbers of the
      model are those of the code.
    - One node (RaftNodeInv, RaftProps), membership changes included: the log
      stays contiguous, term, vote and commit are monotone, committed entries
      are neither rewritten nor delivered twice; and the exact rule of voting,
      committing, releasing reads, leases, conflict hints, snapshots.
    - The disk (Durability): a host that writes each batch first recovers
      exactly the durable state after a crash at any point.
    - The storage engine (DbProps): with synced appends and room for what is
      written, every acknowledged write survives any number of crashes that leave a
      manifest, and interrupted batches survive whole or not at all; a write is visible to later reads and to no older snapshot;
      compaction changes no answer; scans terminate; the tree of tables stays
      well formed, with disjoint ranges below level 0. Below it: prefix durability
      of the log (Wal), the round trip of tables (SsTableFacts), no false
      negatives (Bloom), atomic rewrites while [MANIFEST] is in place (Manifest);
      beside it: altered tables are detected (Corruption).
    - The server (LogStore, DbBackend, ServerDurable): the log store implements the
      durability contract for outputs whose entries form one run, and the backend
      the trait of the state machine, scans of no rows apart; a turn of the loop on a
      batch that the log store can take keeps the contract wherever a crash cuts it,
      and never lets a message out before its state is on the disk.
    - The whole (ServerCluster): take the runs of servers with fixed voters whose
      turns take batches that the log stores can take, while the engine has room,
      and whose turns and openings crash between any two file operations or in the
      middle of one, leaving a manifest. One growing committed log explains the
      state machine of every server and every answer a client got; no server panics,
      and a server that crashed opens again. While a server is up its loop goes on,
      and every client request is answered or dropped exactly once, within 50 ticks
      (ServerLive). Client commands, the raft node, the protocol, the log
      store, the storage engine and the state machine are all the models above.
    - Linearizability (Linear): over the same runs, if no session uses a sequence
      number for two commands, the commands of that log that take effect are a sequential execution of the writes that clients asked for.
      Each is there at most once and in the order of its session, each answered
      one with the result it was answered with, and before every write that was
      first asked for after that answer. A put or delete that the client library
      reports as done is in it, and a compare-and-swap tells the value it met.
      Reads show the contents at some place of it: the first defect below is why
      no more holds of them.
    - The client (Client, Proto, Net): the verdict of a call; retries never execute
      an operation twice or out of order; a cut connection delivers a prefix; the
      connections to a peer carry disjoint parts of its queue in order; every
      request of a client connection is answered once and in order.
    - The tools (Kvd, Kvctl, Loadgen, Bench): documented command lines are parsed to
      what they say, in any order of their flags; nodes with the same peers start
      with the same voters; the metrics page reads back; the exit code of a command;
      the load generator covers the key space, never repeats an insert, and accounts
      for every operation; percentiles are exact; a zipfian rank can be out of its
      documented range (Zipf).
    - The state machine (Kvsm): exactly-once execution under retries, snapshot
      transfer between replicas over different backends.
    - The checker (Wgl): it accepts exactly the linearizable histories, up to
      its budget.
    - The simulator (SimRuns): for every configuration no run stops on a check of
      the nodes ([violation]: leaders, logs, state machines, panics); a run that
      succeeds has a linearizable history; a sweep (Simulate) reports exactly the
      seeds that fail, and each fails again alone.
    - Defects: a reply to an old leadership can confirm a later read (Cluster,
      [read_misses_committed_write]); one batch that appends and removes entries
      leaves the removed ones on the disk (LogStore,
      [group_commit_keeps_removed_entries]); one batch that appends entries and
      installs a snapshot leaves them behind the snapshot, and two servers then
      commit different entries (GroupCommit, [group_commit_breaks_agreement]); two
      crashes in manifest rewrites lose the manifest (Manifest,
      [second_crash_loses_manifest]); without synced appends a crash in a flush
      makes lookups and scans disagree (DbProps, [unsynced_flush_stale_read]); a scan
      of no rows answers one on the engine and none in memory (DbBackend).

    ** Bounds

    [search_fuel] is 2^35 iterations of the checker's loop: each of the at most
    5,000,000 expansions pushes at most 4,096 states, and every iteration pops
    one. [loop_fuel] is 3,000,001 events, one more than the simulator's own
    budget. Both are proved to be enough, so that running out of fuel is not an
    outcome. [conflict_walk] descends from an index of the log and is
    structural. The compaction loop of the engine takes a number of turns; the
    theorems say that some number is enough and that more change nothing. They
    ask for [room]: the levels stay below a depth, and tables, batches and level
    budgets within their 32 and 64-bit fields. [process_output] takes two rounds,
    since the second one finds no output.

    ** Not modelled

    Sockets, timers and the spawning of tasks are I/O: what they decide (the clock,
    outcomes of dials, where a write fails) is an argument of the models. The texts
    that the tools print for people are left out but for kvctl and the metrics
    page. [powf], whose precision Rust leaves open, is a parameter of the zipfian
    generator, and the theorems on its users hold for every rank. Liveness of
    elections is not stated: it depends on timing the core does not control.
    Membership changes are modelled in the node, but the clusters of the theorems
    have fixed voters, as those of the server and the simulator do. The theorems on turns of the loop are for queues of one event and for queues whose
    batch installs no snapshot and appends one run of entries; other batches can
    break the contract, as the second and third defect show. *)

From stdpp Require Export prelude gmap sorting.
From Stdlib Require Export Strings.Byte ZifyBool ZifyNat ZifyN.
From Stdlib Require Import NArith.

#[global] Arguments N.add : simpl never.
#[global] Arguments N.sub : simpl never.
#[global] Arguments N.mul : simpl never.
#[global] Arguments N.pow : simpl never.

(** ** Results and machine integers *)

(** Rust's [Result]. *)
Inductive Result (A E : Type) : Type :=
| Ok (a : A)
| Err (e : E).
Arguments Ok {A E} a.
Arguments Err {A E} e.

Declare Scope u64_scope.
Delimit Scope u64_scope with u64.

(** The value a [w]-bit register keeps of an unbounded natural. *)
Definition wrap (w x : N) : N := (x mod 2 ^ w)%N.

Definition wrapping_add (w x y : N) : N := wrap w (x + y).
Definition wrapping_sub (w x y : N) : N := wrap w (x + (2 ^ w - wrap w y)).
Definition wrapping_mul (w x y : N) : N := wrap w (x * y).

Notation "x +w y" := (wrapping_add 64 x y) (at level 50, left associativity) : u64_scope.
Notation "x *w y" := (wrapping_mul 64 x y) (at level 40, left associativity) : u64_scope.
Notation "x ^^ y" := (N.lxor x y) (at level 48, left associativity) : u64_scope.
Notation "x <<w k" := (wrap 64 (N.shiftl x k)) (at level 46, left associativity) : u64_scope.
Notation "x >>w k" := (N.shiftr x k) (at level 46, left associativity) : u64_scope.

Lemma wrap_lt w x : (wrap w x < 2 ^ w)%N.
Proof. apply N.mod_lt, N.pow_nonzero. lia. Qed.

Lemma wrap_small w x : (x < 2 ^ w)%N → wrap w x = x.
Proof. apply N.mod_small. Qed.

Lemma wrapping_sub_le w x y : (y ≤ x)%N → (x < 2 ^ w)%N → wrapping_sub w x y = (x - y)%N.
Proof.
  intros Hle Hlt. unfold wrapping_sub. rewrite (wrap_small w y) by lia.
  unfold wrap. replace (x + (2 ^ w - y))%N with ((x - y) + 1 * 2 ^ w)%N by lia.
  rewrite N.Div0.mod_add. apply N.mod_small. lia.
Qed.

Lemma lxor_lt w x y : (x < 2 ^ w)%N → (y < 2 ^ w)%N → (N.lxor x y < 2 ^ w)%N.
Proof.
  intros Hx Hy.
  destruct (decide (N.lxor x y = 0)%N) as [->|Hne].
  { apply N.neq_0_lt_0, N.pow_nonzero. lia. }
  apply N.log2_lt_pow2; [lia|].
  eapply N.le_lt_trans; [apply N.log2_lxor|].
  assert (∀ z, (z < 2 ^ w → z ≠ 0 → N.log2 z < w)%N) as Hlog.
  { intros z ? ?. apply N.log2_lt_pow2; lia. }
  assert (w ≠ 0)%N.
  { intros ->. rewrite N.pow_0_r in *. assert (x = 0%N) by lia. assert (y = 0%N) by lia.
    subst. done. }
  apply N.max_lub_lt.
  - destruct (decide (x = 0)%N) as [->|]; [simpl; lia|auto].
  - destruct (decide (y = 0)%N) as [->|]; [simpl; lia|auto].
Qed.

(** Testing a word against a one-bit mask reads the bit. *)
Lemma land_bit w b : negb (N.land w (N.shiftl 1 b) =? 0)%N = N.testbit w b.
Proof.
  destruct (N.testbit w b) eqn:Hb.
  - apply negb_true_iff, N.eqb_neq. intros H0. apply (f_equal (λ x, N.testbit x b)) in H0.
    rewrite N.land_spec, N.shiftl_1_l, N.pow2_bits_true, Hb, N.bits_0 in H0. done.
  - apply negb_false_iff, N.eqb_eq, N.bits_inj_iff. intros j.
    rewrite N.land_spec, N.shiftl_1_l, N.pow2_bits_eqb, N.bits_0.
    destruct (N.eqb_spec b j) as [<-|]; [by rewrite Hb|by rewrite andb_false_r].
Qed.

(** ** Bytes *)

Abbreviation bytes := (list byte).

#[export] Instance byte_eq_dec : EqDecision byte := Byte.byte_eq_dec.
#[export] Instance byte_countable : Countable byte.
Proof. refine (inj_countable Byte.to_N Byte.of_N _). intros x. apply Byte.of_to_N. Defined.

(** The least significant byte of a number: Rust's [as u8]. *)
Definition byte_of (x : N) : byte := default x00 (Byte.of_N (x mod 256)).

Lemma to_N_byte_of x : Byte.to_N (byte_of x) = (x mod 256)%N.
Proof.
  unfold byte_of. pose proof (N.mod_lt x 256 ltac:(lia)) as Hlt.
  destruct (Byte.of_N (x mod 256)) as [b|] eqn:Hb; simpl; [by apply Byte.to_of_N|].
  apply Byte.of_N_None_iff in Hb. lia.
Qed.

Lemma byte_of_to_N b : byte_of (Byte.to_N b) = b.
Proof.
  unfold byte_of. pose proof (Byte.to_N_bounded b).
  rewrite N.mod_small by lia. by rewrite Byte.of_to_N.
Qed.

(** [n.to_le_bytes()] for an integer of [k] bytes, and [from_le_bytes]. *)
Fixpoint to_le (k : nat) (x : N) : bytes :=
  match k with
  | O => []
  | S k => byte_of x :: to_le k (x / 256)
  end.

Fixpoint from_le (bs : bytes) : N :=
  match bs with
  | [] => 0
  | b :: bs => (Byte.to_N b + 256 * from_le bs)%N
  end.

(** [n.to_be_bytes()]. *)
Definition to_be (k : nat) (x : N) : bytes := reverse (to_le k x).

Lemma length_to_le k x : length (to_le k x) = k.
Proof. revert x. induction k; simpl; auto. Qed.

Lemma from_to_le k x : (x < 256 ^ N.of_nat k)%N → from_le (to_le k x) = x.
Proof.
  revert x. induction k as [|k IH]; intros x Hx; simpl; [simpl in Hx; lia|].
  rewrite to_N_byte_of, IH.
  - pose proof (N.div_mod x 256 ltac:(lia)). lia.
  - apply N.Div0.div_lt_upper_bound.
    rewrite Nat2N.inj_succ, N.pow_succ_r' in Hx. done.
Qed.

Lemma from_le_lt bs : (from_le bs < 256 ^ N.of_nat (length bs))%N.
Proof.
  induction bs as [|b bs IH]; simpl; [lia|].
  pose proof (Byte.to_N_bounded b).
  change (N.pos (Pos.of_succ_nat (length bs))) with (N.of_nat (S (length bs))).
  rewrite Nat2N.inj_succ, N.pow_succ_r'. lia.
Qed.

#[global] Arguments to_le : simpl never.
#[global] Arguments from_le : simpl never.

(** ** Lists *)

(** The half-open and closed integer ranges [a..b] and [a..=b]. *)
Definition range (a b : N) : list N :=
  (λ i, (a + N.of_nat i)%N) <$> seq 0 (N.to_nat (b - a)).
Definition range_incl (a b : N) : list N := range a (b + 1).

Lemma elem_of_range a b x : x ∈ range a b ↔ (a ≤ x ∧ x < b)%N.
Proof.
  unfold range. rewrite list_elem_of_fmap. setoid_rewrite elem_of_seq. split.
  - intros (i & -> & ?). lia.
  - intros ?. exists (N.to_nat (x - a)). lia.
Qed.

Lemma elem_of_range_incl a b x : x ∈ range_incl a b ↔ (a ≤ x ∧ x ≤ b)%N.
Proof. unfold range_incl. rewrite elem_of_range. lia. Qed.

Lemma range_nil a b : (b ≤ a)%N → range a b = [].
Proof. intros. unfold range. by replace (N.to_nat (b - a)) with 0 by lia. Qed.

Lemma range_cons a b : (a < b)%N → range a b = a :: range (a + 1) b.
Proof.
  intros. unfold range. replace (N.to_nat (b - a)) with (S (N.to_nat (b - (a + 1)))) by lia.
  simpl. f_equal; [lia|].
  rewrite <-fmap_S_seq, <-list_fmap_compose. apply list_fmap_ext. intros; simpl; lia.
Qed.

Lemma range_snoc a b : (a ≤ b)%N → range a (b + 1) = range a b ++ [b].
Proof.
  intros. unfold range. replace (N.to_nat (b + 1 - a)) with (S (N.to_nat (b - a))) by lia.
  rewrite seq_S, fmap_app. simpl. repeat f_equal. lia.
Qed.

Lemma range_split a b c : (a ≤ b)%N → (b ≤ c)%N → range a b ++ range b c = range a c.
Proof.
  intros Hab Hbc. unfold range. replace (N.to_nat (c - a)) with (N.to_nat (b - a) + N.to_nat (c - b))%nat by lia.
  rewrite seq_app, fmap_app. apply (f_equal2 app); [done|].
  replace (0 + N.to_nat (b - a))%nat with (N.to_nat (b - a) + 0)%nat by lia.
  rewrite <-fmap_add_seq, <-list_fmap_compose. apply list_fmap_ext. intros i x _. simpl. lia.
Qed.

Lemma sum_list_with_insert {A} (f : A → nat) (l : list A) i x y :
  l !! i = Some x → (sum_list_with f (<[i := y]> l) + f x = sum_list_with f l + f y)%nat.
Proof.
  revert i. induction l as [|z l IH]; intros [|i] Hi; simplify_eq/=; [lia|]. specialize (IH i Hi). lia.
Qed.

(** [v.sort_unstable_by(|a, b| b.cmp(a))]. *)
Definition sort_desc (l : list N) : list N := merge_sort (flip N.le) l.

(** The keys of a [BTreeMap<u64, _>], in iteration order. *)
Definition btree_keys {A} (m : gmap N A) : list N := merge_sort N.le (map_to_list m).*1.

Lemma elem_of_btree_keys {A} (m : gmap N A) k : k ∈ btree_keys m ↔ is_Some (m !! k).
Proof.
  unfold btree_keys. rewrite merge_sort_Permutation, list_elem_of_fmap. split.
  - intros ([k' v] & -> & ?%elem_of_map_to_list). simpl. eauto.
  - intros [v Hv]. exists (k, v). split; [done|]. by apply elem_of_map_to_list.
Qed.

Lemma btree_keys_sorted {A} (m : gmap N A) : StronglySorted N.lt (btree_keys m).
Proof.
  assert (StronglySorted N.le (btree_keys m)) as Hs.
  { apply StronglySorted_merge_sort; intros x y **; lia. }
  assert (NoDup (btree_keys m)) as Hnd.
  { unfold btree_keys. rewrite merge_sort_Permutation. apply NoDup_fst_map_to_list. }
  induction Hs as [|x l Hs IH Hall]; [constructor|]. apply NoDup_cons in Hnd as [Hx Hnd].
  constructor; [by apply IH|]. rewrite Forall_forall in *. intros y Hy. specialize (Hall y Hy).
  assert (x ≠ y) by (by intros ->). lia.
Qed.

(** In a descending list at least [i + 1] elements are no smaller than the one
    at position [i]: the arithmetic behind every quorum index [v[q - 1]]. *)
Lemma sort_desc_sorted l : StronglySorted (flip N.le) (sort_desc l).
Proof. apply StronglySorted_merge_sort; unfold flip; intros x y **; lia. Qed.

Lemma sort_desc_Permutation l : sort_desc l ≡ₚ l.
Proof. apply merge_sort_Permutation. Qed.

Lemma sort_desc_lookup l i c :
  sort_desc l !! i = Some c → i < length (filter (λ x, (c ≤ x)%N) l).
Proof.
  intros Hi. rewrite <-(sort_desc_Permutation l).
  revert i Hi. induction (sort_desc_sorted l) as [|x l' Hs IH Hall]; intros i Hi; [done|].
  destruct i as [|i]; simplify_eq/=.
  - rewrite filter_cons_True by lia. simpl. lia.
  - rewrite Forall_forall in Hall. apply IH in Hi as Hi'.
    apply list_elem_of_lookup_2, Hall in Hi. unfold flip in Hi.
    rewrite filter_cons_True by done. simpl. lia.
Qed.

(** ... and conversely: the element at position [i] is the largest value that
    more than [i] elements reach. *)
Lemma sort_desc_lookup_iff l i x c :
  sort_desc l !! i = Some x → (c ≤ x)%N ↔ i < length (filter (λ y, (c ≤ y)%N) l).
Proof.
  intros Hi. split.
  - intros Hc. apply sort_desc_lookup in Hi. eapply Nat.lt_le_trans; [done|].
    clear Hi. induction l as [|y l IH]; [done|]. rewrite !filter_cons.
    repeat destruct (decide _); simpl; lia.
  - rewrite <-(sort_desc_Permutation l). revert i Hi.
    induction (sort_desc_sorted l) as [|y l' Hs IH Hall]; intros i Hi Hlt; [done|].
    rewrite filter_cons in Hlt. rewrite Forall_forall in Hall.
    destruct i as [|i]; simplify_eq/=.
    + destruct (decide (c ≤ x)%N) as [|Hn]; [done|].
      destruct (filter _ l') as [|z zs] eqn:Hf; simpl in Hlt; [lia|].
      assert (z ∈ filter (λ y, (c ≤ y)%N) l') as Hz by (rewrite Hf; left).
      apply list_elem_of_filter in Hz as [Hz Hin]. apply Hall in Hin. unfold flip in Hin. lia.
    + destruct (decide (c ≤ y)%N) as [|Hn]; simpl in Hlt; [apply (IH i); [done|lia]|].
      destruct (filter _ l') as [|z zs] eqn:Hf; simpl in Hlt; [lia|].
      assert (z ∈ filter (λ y, (c ≤ y)%N) l') as Hz by (rewrite Hf; left).
      apply list_elem_of_filter in Hz as [Hz Hin]. apply Hall in Hin. unfold flip in Hin. lia.
Qed.

Lemma length_sort_desc l : length (sort_desc l) = length l.
Proof. by rewrite sort_desc_Permutation. Qed.

Lemma filter_all {A} (P : A → Prop) `{∀ x, Decision (P x)} (l : list A) :
  (∀ x, x ∈ l → P x) → filter P l = l.
Proof.
  induction l as [|x l IH]; intros HP; [done|]. rewrite filter_cons_True by (apply HP; left).
  f_equal. apply IH. intros y ?. apply HP. by right.
Qed.

Lemma filter_none {A} (P : A → Prop) `{∀ x, Decision (P x)} (l : list A) :
  (∀ x, x ∈ l → ¬ P x) → filter P l = [].
Proof.
  induction l as [|x l IH]; intros HP; [done|]. rewrite filter_cons_False by (apply HP; left).
  apply IH. intros y ?. apply HP. by right.
Qed.


(** Two sub-populations that together outnumber the whole share a member. *)
Lemma quorum_intersect `{Countable A} (V A1 A2 : gset A) :
  A1 ⊆ V → A2 ⊆ V → size V < size A1 + size A2 → ∃ x, x ∈ A1 ∧ x ∈ A2.
Proof.
  intros H1 H2 Hsz.
  destruct (decide (A1 ∩ A2 = ∅)) as [Hd|Hne].
  - assert (size (A1 ∪ A2) = size A1 + size A2) as Hu by (apply size_union; set_solver).
    assert (size (A1 ∪ A2) ≤ size V) by (apply subseteq_size; set_solver). lia.
  - apply set_choose_L in Hne as [x Hx]. exists x. set_solver.
Qed.

(** ** Loops with binary fuel

    [loop p f s] runs [f] up to [p] times, stopping at the first [inr]. The
    fuel is a binary number, so that budgets of millions of iterations can be
    written down and run. *)

Fixpoint loop {S R : Type} (p : positive) (f : S → S + R) (s : S) : S + R :=
  match p with
  | xH => f s
  | xO p => match loop p f s with inl s => loop p f s | r => r end
  | xI p => match f s with
            | inl s => match loop p f s with inl s => loop p f s | r => r end
            | r => r
            end
  end.

(** A property kept by every iteration holds when the loop stops. *)
Lemma loop_inv {S R} (I : S → Prop) (Q : R → Prop) (f : S → S + R) :
  (∀ s, I s → match f s with inl s' => I s' | inr r => Q r end) →
  ∀ p s, I s → match loop p f s with inl s' => I s' | inr r => Q r end.
Proof.
  intros Hf. induction p as [p IH|p IH|]; intros s Hs; simpl; [| |by apply (Hf s)].
  - specialize (Hf s Hs). destruct (f s) as [s1|r]; [|done].
    pose proof (IH s1 Hf) as IH1. destruct (loop p f s1) as [s2|r]; [|done]. by apply IH.
  - pose proof (IH s Hs) as IH1. destruct (loop p f s) as [s2|r]; [|done]. by apply IH.
Qed.

(** Fuel above a measure that every iteration decreases is enough. *)
Lemma loop_enough {S R} (I : S → Prop) (mu : S → N) (f : S → S + R) :
  (∀ s, I s → match f s with inl s' => I s' ∧ (mu s' < mu s)%N | inr _ => True end) →
  ∀ p s, I s → (mu s < N.pos p)%N → ∃ r, loop p f s = inr r.
Proof.
  intros Hf.
  assert (∀ p s, I s →
    match loop p f s with inl s' => I s' ∧ (mu s' + N.pos p ≤ mu s)%N | inr _ => True end) as Hdec.
  { induction p as [p IH|p IH|]; intros s Hs; simpl.
    - specialize (Hf s Hs). destruct (f s) as [s1|r]; [|done]. destruct Hf as [H1 Hm1].
      pose proof (IH s1 H1) as IH1. destruct (loop p f s1) as [s2|r]; [|done].
      destruct IH1 as [H2 Hm2]. pose proof (IH s2 H2) as IH2.
      destruct (loop p f s2) as [s3|r]; [|done]. destruct IH2. split; [done|lia].
    - pose proof (IH s Hs) as IH1. destruct (loop p f s) as [s2|r]; [|done].
      destruct IH1 as [H2 Hm2]. pose proof (IH s2 H2) as IH2.
      destruct (loop p f s2) as [s3|r]; [|done]. destruct IH2. split; [done|lia].
    - specialize (Hf s Hs). destruct (f s) as [s1|r]; [|done]. destruct Hf. split; [done|lia]. }
  intros p s Hs Hlt. specialize (Hdec p s Hs). destruct (loop p f s) as [s'|r]; [|eauto].
  destruct Hdec. lia.
Qed.

(** Elements of an ordered list, by their places. *)
Lemma sorted_lookup {A} (R : relation A) l i j x y :
  StronglySorted R l → l !! i = Some x → l !! j = Some y → (i < j)%nat → R x y.
Proof.
  intros Hs. revert i j. induction Hs as [|z l _ IH Hz]; intros [|i] [|j] Hi Hj Hij; simplify_eq/=; try lia.
  - rewrite Forall_forall in Hz. by eapply Hz, list_elem_of_lookup_2.
  - eapply IH; [done..|lia].
Qed.

(** A strictly ordered list of elements of another is a part of it. *)
Lemma sorted_sublist {A} (R : relation A) `{!Transitive R} `{!Irreflexive R} l1 l2 :
  StronglySorted R l1 → StronglySorted R l2 → (∀ x, x ∈ l1 → x ∈ l2) → l1 `sublist_of` l2.
Proof.
  intros H1 H2. revert l1 H1. induction H2 as [|y l2 H2 IH Hy]; intros l1 H1 Hin.
  { destruct l1 as [|x l1]; [done|]. specialize (Hin x ltac:(left)). by apply elem_of_nil in Hin. }
  rewrite Forall_forall in Hy. destruct H1 as [|x l1 H1 Hx]; [by apply sublist_nil_l|].
  rewrite Forall_forall in Hx. pose proof (Hin x ltac:(left)) as [->|Hxl]%elem_of_cons.
  - apply sublist_skip, IH; [done|]. intros z Hz. specialize (Hin z ltac:(by right)).
    apply elem_of_cons in Hin as [->|]; [|done]. by apply Hx, irreflexivity in Hz.
  - apply sublist_cons, IH; [by constructor; [|apply Forall_forall]|]. intros z Hz.
    specialize (Hin z Hz). apply elem_of_cons in Hin as [->|]; [|done]. exfalso.
    apply elem_of_cons in Hz as [->|Hz]; [by apply Hy, irreflexivity in Hxl|].
    apply (irreflexivity R x). etrans; [by apply Hx|by apply Hy].
Qed.

(** The parts of a list. *)
Fixpoint parts {A} (l : list A) : list (list A) :=
  match l with [] => [[]] | x :: l => parts l ++ (cons x <$> parts l) end.

Lemma elem_of_parts {A} (l1 l2 : list A) : l1 `sublist_of` l2 → l1 ∈ parts l2.
Proof.
  induction 1 as [|x l1 l2 _ IH|x l1 l2 _ IH]; simpl; [by left|..]; apply elem_of_app; [right|by left].
  by apply list_elem_of_fmap_2.
Qed.
