(* ===== verification/Order.v ===== *)
(** * Ordered keys

    The source orders byte strings lexicographically (Rust's [Ord] on
    [Vec<u8>]) and MVCC keys by (key ascending, sequence number descending).
    This file states what a comparison function promises, builds both orders,
    and models the iteration of a [BTreeMap]: a [gmap] listed in key order. *)

From S2P Require Import Prelude.
From stdpp Require Import sorting.
Local Open Scope N_scope.

(** ** Comparison functions *)

Class Comparison {A : Type} (cmp : A → A → comparison) : Prop := {
  cmp_eq_iff : ∀ a b, cmp a b = Eq ↔ a = b;
  cmp_antisym : ∀ a b, cmp b a = CompOpp (cmp a b);
  cmp_lt_trans : ∀ a b c, cmp a b = Lt → cmp b c = Lt → cmp a c = Lt;
}.

Definition cmp_lt {A} (cmp : A → A → comparison) (a b : A) : Prop := cmp a b = Lt.
Definition cmp_le {A} (cmp : A → A → comparison) (a b : A) : Prop := cmp a b ≠ Gt.

#[export] Instance comparison_eq_dec : EqDecision comparison.
Proof. solve_decision. Defined.
#[export] Instance cmp_lt_dec {A} (cmp : A → A → comparison) : RelDecision (cmp_lt cmp).
Proof. intros a b. unfold cmp_lt. apply _. Defined.
#[export] Instance cmp_le_dec {A} (cmp : A → A → comparison) : RelDecision (cmp_le cmp).
Proof. intros a b. unfold cmp_le. apply _. Defined.

Section comparison.
  Context {A : Type} (cmp : A → A → comparison) `{!Comparison cmp}.

Lemma cmp_refl a : cmp a a = Eq.
Proof. by apply (cmp_eq_iff (cmp := cmp)). Qed.

Lemma cmp_gt_iff a b : cmp a b = Gt ↔ cmp_lt cmp b a.
Proof. unfold cmp_lt. rewrite (cmp_antisym (cmp := cmp) a b). by destruct (cmp a b). Qed.

Lemma cmp_lt_irrefl a : ¬ cmp_lt cmp a a.
Proof. unfold cmp_lt. by rewrite cmp_refl. Qed.

Lemma cmp_lt_not_eq a b : cmp_lt cmp a b → a ≠ b.
Proof. intros Hlt ->. by apply cmp_lt_irrefl in Hlt. Qed.

Lemma cmp_le_cases a b : cmp_le cmp a b ↔ cmp_lt cmp a b ∨ a = b.
Proof. unfold cmp_le, cmp_lt. rewrite <-(cmp_eq_iff (cmp := cmp)). destruct (cmp a b); naive_solver. Qed.

Lemma cmp_nle a b : ¬ cmp_le cmp a b ↔ cmp_lt cmp b a.
Proof. unfold cmp_le. rewrite <-cmp_gt_iff. destruct (cmp a b); naive_solver. Qed.

Lemma cmp_nlt a b : ¬ cmp_lt cmp a b ↔ cmp_le cmp b a.
Proof. rewrite <-cmp_nle. destruct (decide (cmp_le cmp b a)); naive_solver. Qed.

Lemma cmp_lt_le a b : cmp_lt cmp a b → cmp_le cmp a b.
Proof. rewrite cmp_le_cases. tauto. Qed.

#[export] Instance cmp_lt_transitive : Transitive (cmp_lt cmp).
Proof. intros a b c. apply cmp_lt_trans. Qed.

#[export] Instance cmp_le_preorder : PreOrder (cmp_le cmp).
Proof.
  split.
  - intros a. unfold cmp_le. by rewrite cmp_refl.
  - intros a b c. rewrite !cmp_le_cases. intros [H1| ->] [H2| ->]; eauto.
    left. by etrans.
Qed.

#[export] Instance cmp_le_total : Total (cmp_le cmp).
Proof.
  intros a b. destruct (decide (cmp_le cmp a b)) as [|H]; [by left|right].
  by apply cmp_lt_le, cmp_nle.
Qed.

Lemma cmp_le_antisym a b : cmp_le cmp a b → cmp_le cmp b a → a = b.
Proof.
  rewrite !cmp_le_cases. intros [H1|] [H2|]; try done.
  exfalso. apply (cmp_lt_irrefl a). by etrans.
Qed.

Lemma cmp_lt_le_trans a b c : cmp_lt cmp a b → cmp_le cmp b c → cmp_lt cmp a c.
Proof. rewrite cmp_le_cases. intros H [H'| <-]; [by etrans|done]. Qed.

Lemma cmp_le_lt_trans a b c : cmp_le cmp a b → cmp_lt cmp b c → cmp_lt cmp a c.
Proof. rewrite cmp_le_cases. intros [H| ->] H'; [by etrans|done]. Qed.
End comparison.

(** ** Byte strings *)

Fixpoint bytes_cmp (a b : bytes) : comparison :=
  match a, b with
  | [], [] => Eq
  | [], _ :: _ => Lt
  | _ :: _, [] => Gt
  | x :: a, y :: b =>
    match N.compare (Byte.to_N x) (Byte.to_N y) with
    | Eq => bytes_cmp a b
    | c => c
    end
  end.

Lemma to_N_inj x y : Byte.to_N x = Byte.to_N y → x = y.
Proof. intros H. by rewrite <-(byte_of_to_N x), <-(byte_of_to_N y), H. Qed.

#[export] Instance bytes_comparison : Comparison bytes_cmp.
Proof.
  split.
  - induction a as [|x a IH]; intros [|y b]; simpl; try done.
    destruct (N.compare_spec (Byte.to_N x) (Byte.to_N y)) as [He|Hlt|Hlt].
    + apply to_N_inj in He as ->. rewrite IH. naive_solver.
    + split; [done|]. intros [= -> ->]. lia.
    + split; [done|]. intros [= -> ->]. lia.
  - induction a as [|x a IH]; intros [|y b]; simpl; try done.
    rewrite (N.compare_antisym (Byte.to_N x)), IH.
    by destruct (N.compare (Byte.to_N x) (Byte.to_N y)).
  - induction a as [|x a IH]; intros [|y b] [|z c]; simpl; try done.
    destruct (N.compare_spec (Byte.to_N x) (Byte.to_N y)) as [He|Hlt|Hlt];
      destruct (N.compare_spec (Byte.to_N y) (Byte.to_N z)) as [He'|Hlt'|Hlt']; try done;
      destruct (N.compare_spec (Byte.to_N x) (Byte.to_N z)); try lia; try done.
    apply IH.
Qed.

Abbreviation bytes_lt := (cmp_lt bytes_cmp).
Abbreviation bytes_le := (cmp_le bytes_cmp).

Lemma bytes_le_nil k : bytes_le [] k.
Proof. by destruct k. Qed.

(** ** MVCC keys: key ascending, sequence number descending *)

Definition ikey_cmp (a b : bytes * N) : comparison :=
  match bytes_cmp a.1 b.1 with
  | Eq => N.compare b.2 a.2
  | c => c
  end.

Lemma ikey_lt_iff a b :
  cmp_lt ikey_cmp a b ↔ bytes_lt a.1 b.1 ∨ (a.1 = b.1 ∧ b.2 < a.2).
Proof.
  unfold cmp_lt, ikey_cmp. rewrite <-(cmp_eq_iff (cmp := bytes_cmp)).
  destruct (bytes_cmp a.1 b.1) eqn:Hc; naive_solver.
Qed.

#[export] Instance ikey_comparison : Comparison ikey_cmp.
Proof.
  split.
  - intros [k s] [k' s']. unfold ikey_cmp. simpl. split.
    + destruct (bytes_cmp k k') eqn:Hc; try done. apply (cmp_eq_iff (cmp := bytes_cmp)) in Hc as ->.
      by intros ->%N.compare_eq_iff.
    + intros [= -> ->]. by rewrite (cmp_refl bytes_cmp), N.compare_refl.
  - intros [k s] [k' s']. unfold ikey_cmp. simpl. rewrite (cmp_antisym (cmp := bytes_cmp) k k').
    destruct (bytes_cmp k k'); simpl; try done. apply N.compare_antisym.
  - intros a b c. change (cmp_lt ikey_cmp a b → cmp_lt ikey_cmp b c → cmp_lt ikey_cmp a c).
    rewrite !ikey_lt_iff.
    intros [H1|[H1 H1']] [H2|[H2 H2']].
    + left. by etrans.
    + left. by rewrite <-H2.
    + left. by rewrite H1.
    + right. split; [congruence|lia].
Qed.

(** ** Strictly sorted association lists *)

Section sorted.
  Context {K V : Type} (cmp : K → K → comparison) `{!Comparison cmp}.
  Implicit Types l : list (K * V).

Definition key_lt (x y : K * V) : Prop := cmp_lt cmp x.1 y.1.

Lemma key_sorted_app l1 l2 :
  StronglySorted key_lt (l1 ++ l2) ↔
  StronglySorted key_lt l1 ∧ StronglySorted key_lt l2
  ∧ ∀ x y, x ∈ l1 → y ∈ l2 → key_lt x y.
Proof.
  induction l1 as [|x l1 IH]; simpl.
  { split; [intros; split_and!; [constructor|done|]|naive_solver].
    intros x y Hx. by apply elem_of_nil in Hx. }
  split.
  - intros [H1 H2]%StronglySorted_inv. apply IH in H1 as (H1 & H3 & H4).
    apply Forall_app in H2 as [H2 H5]. rewrite Forall_forall in H5.
    split_and!; [by constructor|done|].
    intros y z [->|Hy]%elem_of_cons Hz; eauto.
  - intros (H1 & H2 & H3). apply StronglySorted_inv in H1 as [H1 H4]. constructor.
    + apply IH. split_and!; [done|done|]. intros y z Hy Hz. apply H3; [by right|done].
    + apply Forall_app. split; [done|]. apply Forall_forall. intros y Hy.
      apply H3; [by left|done].
Qed.

(** A strictly sorted list has at most one value per key. *)
Lemma key_sorted_unique l k v v' :
  StronglySorted key_lt l → (k, v) ∈ l → (k, v') ∈ l → v = v'.
Proof.
  induction 1 as [|x l Hs IH Hall]; intros H1 H2; [by apply elem_of_nil in H1|].
  rewrite Forall_forall in Hall.
  apply elem_of_cons in H1 as [<-|H1], H2 as [H2|H2].
  - by simplify_eq.
  - apply Hall in H2. by apply (cmp_lt_irrefl cmp) in H2.
  - subst x. apply Hall in H1. by apply (cmp_lt_irrefl cmp) in H1.
  - by apply IH.
Qed.

(** Two strictly sorted lists with the same elements are equal. *)
Lemma key_sorted_ext l1 l2 :
  StronglySorted key_lt l1 → StronglySorted key_lt l2 →
  (∀ x, x ∈ l1 ↔ x ∈ l2) → l1 = l2.
Proof.
  revert l2. induction l1 as [|x l1 IH]; intros [|y l2] H1 H2 He; [done| | |].
  1: specialize (He y). 2: specialize (He x).
  1,2: rewrite elem_of_cons, elem_of_nil in He; naive_solver.
  apply StronglySorted_inv in H1 as [H1 Hx], H2 as [H2 Hy].
  rewrite Forall_forall in Hx, Hy.
  assert (x = y) as ->.
  { pose proof (proj1 (He x) ltac:(left)) as [Hxy|Hxy]%elem_of_cons; [done|].
    pose proof (proj2 (He y) ltac:(left)) as [Hyx|Hyx]%elem_of_cons; [done|].
    apply Hy in Hxy. apply Hx in Hyx. exfalso. apply (cmp_lt_irrefl cmp x.1).
    etrans; [exact Hyx|exact Hxy]. }
  f_equal. apply IH; [done|done|]. intros z. specialize (He z).
  rewrite !elem_of_cons in He. split; intros Hz.
  - destruct (proj1 He (or_intror Hz)) as [->|]; [|done].
    apply Hx in Hz. by apply (cmp_lt_irrefl cmp) in Hz.
  - destruct (proj2 He (or_intror Hz)) as [->|]; [|done].
    apply Hy in Hz. by apply (cmp_lt_irrefl cmp) in Hz.
Qed.

Lemma key_sorted_filter (P : K * V → Prop) `{∀ x, Decision (P x)} l :
  StronglySorted key_lt l → StronglySorted key_lt (filter P l).
Proof.
  induction 1 as [|x l Hs IH Hall]; [constructor|]. rewrite filter_cons.
  destruct (decide (P x)); [|done]. constructor; [done|].
  rewrite Forall_forall in *. intros y [_ Hy]%list_elem_of_filter. by apply Hall.
Qed.
End sorted.

(** ** Iterating a [BTreeMap] *)

Section btree.
  Context {K V : Type} (cmp : K → K → comparison) `{!Comparison cmp} `{Countable K}.
  Implicit Types m : gmap K V.

Definition key_le (x y : K * V) : Prop := cmp_le cmp x.1 y.1.

#[global] Instance key_le_dec : RelDecision key_le.
Proof. intros x y. unfold key_le. apply _. Defined.

#[local] Instance key_le_trans : Transitive key_le.
Proof. intros x y z. unfold key_le. intros. by etrans. Qed.

#[local] Instance key_le_total : Total key_le.
Proof. intros x y. apply (cmp_le_total cmp). Qed.

(** The pairs of the map in ascending key order, as [BTreeMap::iter] yields
    them. *)
Definition bt_iter m : list (K * V) := merge_sort key_le (map_to_list m).

Lemma bt_iter_perm m : bt_iter m ≡ₚ map_to_list m.
Proof. apply merge_sort_Permutation. Qed.

Lemma elem_of_bt_iter m k v : (k, v) ∈ bt_iter m ↔ m !! k = Some v.
Proof. by rewrite bt_iter_perm, elem_of_map_to_list. Qed.

Lemma bt_iter_sorted m : StronglySorted (key_lt cmp) (bt_iter m).
Proof.
  assert (StronglySorted key_le (bt_iter m)) as Hle by apply (StronglySorted_merge_sort _ _).
  assert (NoDup (bt_iter m).*1) as Hnd.
  { rewrite bt_iter_perm. apply NoDup_fst_map_to_list. }
  induction Hle as [|x l Hs IH Hall]; [constructor|]. csimpl in Hnd.
  apply NoDup_cons in Hnd as [Hnin Hnd]. constructor; [by apply IH|].
  rewrite Forall_forall in *. intros y Hy. pose proof (Hall y Hy) as Hc.
  apply (cmp_le_cases cmp) in Hc as [Hc|Hc]; [done|]. exfalso. apply Hnin.
  rewrite Hc. by apply list_elem_of_fmap_2.
Qed.

(** Collecting pairs into a map: a later pair replaces an earlier one. *)
Definition collect_map (kvs : list (K * V)) : gmap K V :=
  foldl (λ m kv, <[kv.1 := kv.2]> m) ∅ kvs.

Lemma collect_map_snoc kvs kv : collect_map (kvs ++ [kv]) = <[kv.1 := kv.2]> (collect_map kvs).
Proof. unfold collect_map. by rewrite foldl_app. Qed.

Lemma collect_map_lookup kvs k v :
  StronglySorted (key_lt cmp) kvs → collect_map kvs !! k = Some v ↔ (k, v) ∈ kvs.
Proof.
  induction kvs as [|[k' v'] kvs IH] using rev_ind; intros Hs.
  { unfold collect_map. simpl. rewrite lookup_empty, elem_of_nil. naive_solver. }
  apply key_sorted_app in Hs as (Hs & _ & Hlt).
  rewrite collect_map_snoc, elem_of_app, list_elem_of_singleton. simpl.
  destruct (decide (k = k')) as [->|Hne].
  - rewrite lookup_insert. rewrite decide_True by done. split; [naive_solver|].
    intros [Hin|]; [|naive_solver]. specialize (Hlt _ (k', v') Hin ltac:(by left)).
    by apply (cmp_lt_irrefl cmp) in Hlt.
  - rewrite lookup_insert_ne, IH by done. naive_solver.
Qed.

(** Collecting what the map iterates gives the map back. *)
Lemma collect_bt_iter m : collect_map (bt_iter m) = m.
Proof.
  apply map_eq. intros k. apply option_eq. intros v.
  rewrite collect_map_lookup by apply bt_iter_sorted. apply elem_of_bt_iter.
Qed.

Lemma bt_iter_collect kvs : StronglySorted (key_lt cmp) kvs → bt_iter (collect_map kvs) = kvs.
Proof.
  intros Hs. apply (key_sorted_ext cmp); [apply bt_iter_sorted|done|].
  intros [k v]. rewrite elem_of_bt_iter. by apply collect_map_lookup.
Qed.
End btree.

(** ** Ranges of keys *)

(** [key < end], with no bound when [end] is absent. *)
Definition below (end_ : option bytes) (k : bytes) : Prop :=
  match end_ with Some e => bytes_lt k e | None => True end.

#[export] Instance below_dec end_ k : Decision (below end_ k).
Proof. unfold below. destruct end_; apply _. Defined.

(** The pairs with [start <= key] and [key < end], in key order. *)
Definition kv_range (m : gmap bytes bytes) (start : bytes) (end_ : option bytes)
    : list (bytes * bytes) :=
  filter (λ kv, bytes_le start kv.1 ∧ below end_ kv.1) (bt_iter bytes_cmp m).
