(* ===== verification/Text.v ===== *)
(** * Text

    What the program uses of Rust's strings: decimal numbers ([{}] and [parse]),
    zero padding, [split], [split_once] and the lines of a text. A string is its
    bytes. *)

From S2P Require Import Prelude Order.
From stdpp Require Import strings pretty.
From Stdlib Require Import Strings.Ascii.
Local Open Scope string_scope.
Local Open Scope N_scope.

(** [s.as_bytes()]. *)
Definition as_bytes (s : string) : bytes := String.list_byte_of_string s.

Definition has_char (c : ascii) : string → bool :=
  fix has_char s := match s with EmptyString => false | String c' s => bool_decide (c' = c) || has_char s end.

(** ** Numbers *)

Definition digit (c : ascii) : option N :=
  let n := N_of_ascii c in
  if (48 <=? n) && (n <=? 57) then Some (n - 48) else None.

(** The digits of a number of [w] bits from the left, with the checks for
    overflow. *)
Fixpoint parse_digits (w acc : N) (s : string) : option N :=
  match s with
  | EmptyString => Some acc
  | String c s =>
    d ← digit c;
    if acc * 10 + d <? 2 ^ w then parse_digits w (acc * 10 + d) s else None
  end.

(** [s.parse::<u64>()] for [w = 64]: an optional plus sign and at least one
    digit. *)
Definition parse_uint (w : N) (s : string) : option N :=
  match s with
  | EmptyString => None
  | String c r =>
    if bool_decide (c = "+"%char) then match r with EmptyString => None | _ => parse_digits w 0 r end
    else parse_digits w 0 s
  end.

(** [format!("{n}")]. *)
Definition show (n : N) : string := pretty n.

(** [format!("{n:0width}")]. *)
Fixpoint zeros (k : nat) (s : string) : string := match k with O => s | S k => String "0" (zeros k s) end.
Definition show_padded (width : nat) (n : N) : string := zeros (width - String.length (show n)) (show n).

(** ** Pieces of a string *)

(** [s.split(c)]: one more piece than there are separators. *)
Fixpoint split_on (c : ascii) (s : string) : list string :=
  match s with
  | EmptyString => [""]
  | String c' s =>
    if bool_decide (c' = c) then "" :: split_on c s
    else match split_on c s with p :: ps => String c' p :: ps | [] => [String c' ""] end
  end.

(** [s.split_once(c)]. *)
Fixpoint split_once (c : ascii) (s : string) : option (string * string) :=
  match s with
  | EmptyString => None
  | String c' s =>
    if bool_decide (c' = c) then Some ("", s)
    else '(a, b) ← split_once c s; Some (String c' a, b)
  end.

(** The pieces with separators between them. *)
Fixpoint join_with (c : ascii) (ps : list string) : string :=
  match ps with
  | [] => ""
  | [p] => p
  | p :: ps => p +:+ String c (join_with c ps)
  end.

(** ** Round trips of numbers *)

Lemma digit_char d : d < 10 → digit (pretty_N_char d) = Some d.
Proof.
  intros Hd. assert (d ∈ range 0 10) as Hin by (apply elem_of_range; lia).
  clear Hd. revert d Hin. apply Forall_forall. repeat constructor.
Qed.

Lemma parse_digits_go w x s : x < 2 ^ w → parse_digits w 0 (pretty_N_go x s) = parse_digits w x s.
Proof.
  revert s. induction (N.lt_wf_0 x) as [x _ IH]. intros s Hx. destruct (decide (x = 0)) as [->|Hne]; [done|].
  rewrite pretty_N_go_step by lia. pose proof (N.div_mod x 10 ltac:(lia)) as Hdm.
  pose proof (N.mod_lt x 10 ltac:(lia)). rewrite IH by lia. cbn [parse_digits].
  rewrite digit_char by lia. simpl. replace (x / 10 * 10 + x mod 10) with x by lia.
  by destruct (N.ltb_spec x (2 ^ w)); [|lia].
Qed.

Lemma pretty_go_head x c s : 0 < x → ∃ d r, d < 10 ∧ pretty_N_go x (String c s) = String (pretty_N_char d) r.
Proof.
  revert c s. induction (N.lt_wf_0 x) as [x _ IH]. intros c s Hx. rewrite pretty_N_go_step by done.
  pose proof (N.mod_lt x 10 ltac:(lia)).
  destruct (decide (x / 10 = 0)) as [->|]; [rewrite pretty_N_go_0; eauto|].
  apply IH; [apply N.div_lt; lia|lia].
Qed.

Lemma show_head n : ∃ d r, d < 10 ∧ show n = String (pretty_N_char d) r.
Proof.
  unfold show, pretty, pretty_N. destruct (decide (n = 0)); [by exists 0, ""|]. rewrite pretty_N_go_step by lia.
  pose proof (N.mod_lt n 10 ltac:(lia)).
  destruct (decide (n / 10 = 0)) as [->|]; [rewrite pretty_N_go_0; eauto|apply pretty_go_head; lia].
Qed.

Lemma parse_digits_show w n : n < 2 ^ w → parse_digits w 0 (show n) = Some n.
Proof.
  intros Hn. unfold show, pretty, pretty_N. destruct (decide (n = 0)) as [->|].
  - change (parse_digits w 0 "0") with (if 0 <? 2 ^ w then Some 0 else None). by rewrite (proj2 (N.ltb_lt _ _) Hn).
  - by rewrite parse_digits_go.
Qed.

(** A number that fits is read back. *)
Lemma parse_show w n : n < 2 ^ w → parse_uint w (show n) = Some n.
Proof.
  intros Hn. destruct (show_head n) as (d & r & Hd & Hs). pose proof (parse_digits_show w n Hn) as Hp.
  unfold parse_uint. rewrite Hs in *. rewrite bool_decide_eq_false_2; [done|]. intros Hc.
  apply (f_equal digit) in Hc. by rewrite digit_char in Hc.
Qed.

Lemma parse_digits_lt w acc s n : acc < 2 ^ w → parse_digits w acc s = Some n → n < 2 ^ w.
Proof.
  revert acc. induction s as [|c s IH]; intros acc Ha; simpl; [by intros [= <-]|].
  intros (d & _ & Hp)%bind_Some. destruct (N.ltb_spec (acc * 10 + d) (2 ^ w)); [by eapply IH|done].
Qed.

(** What [parse] accepts fits. *)
Lemma parse_uint_lt w s n : parse_uint w s = Some n → n < 2 ^ w.
Proof.
  assert (0 < 2 ^ w) by (apply N.neq_0_lt_0, N.pow_nonzero; lia). unfold parse_uint.
  destruct s as [|c s]; [done|]. case_bool_decide; [destruct s; [done|]|]; by apply parse_digits_lt.
Qed.

(** ** Splitting *)

Lemma split_on_nonempty c s : split_on c s ≠ [].
Proof. destruct s as [|c' s]; simpl; [done|]. case_bool_decide; [done|]. by destruct (split_on c s). Qed.

Lemma split_on_plain c s : has_char c s = false → split_on c s = [s].
Proof.
  induction s as [|c' s IH]; simpl; [done|]. intros [Hc Hs]%orb_false_iff. rewrite Hc. by rewrite IH.
Qed.

Lemma split_on_app c p s : has_char c p = false → split_on c (p +:+ String c s) = p :: split_on c s.
Proof.
  induction p as [|c' p IH]; simpl; [by rewrite bool_decide_eq_true_2|].
  intros [Hc Hp]%orb_false_iff. rewrite Hc. by rewrite IH.
Qed.

(** Pieces without the separator are found again. *)
Lemma split_join_with c ps : ps ≠ [] → Forall (λ p, has_char c p = false) ps → split_on c (join_with c ps) = ps.
Proof.
  induction ps as [|p ps IH]; intros Hne Hps; [done|]. apply Forall_cons in Hps as [Hp Hps].
  destruct ps as [|p' ps]; [by apply split_on_plain|]. change (join_with c (p :: p' :: ps)) with (p +:+ String c (join_with c (p' :: ps))).
  rewrite split_on_app by done. by rewrite IH.
Qed.

Lemma split_once_app c a b : has_char c a = false → split_once c (a +:+ String c b) = Some (a, b).
Proof.
  induction a as [|c' a IH]; simpl; [by rewrite bool_decide_eq_true_2|].
  intros [Hc Ha]%orb_false_iff. rewrite Hc. by rewrite IH.
Qed.

Lemma has_char_app c a b : has_char c (a +:+ b) = has_char c a || has_char c b.
Proof. induction a as [|c' a IH]; simpl; [done|]. by rewrite IH, orb_assoc. Qed.

Lemma has_char_cons c x s : has_char c (String x s) = bool_decide (x = c) || has_char c s.
Proof. done. Qed.

(** Decimal numbers consist of digits. *)
Lemma show_plain c n : digit c = None → has_char c (show n) = false.
Proof.
  intros Hc. assert (∀ d, d < 10 → pretty_N_char d ≠ c) as Hd.
  { intros d Hd <-. by rewrite digit_char in Hc. }
  assert (∀ x s, has_char c s = false → has_char c (pretty_N_go x s) = false) as Hgo.
  { intros x. induction (N.lt_wf_0 x) as [x _ IH]. intros s Hs.
    destruct (decide (x = 0)) as [->|]; [done|]. rewrite pretty_N_go_step by lia.
    apply IH; [apply N.div_lt; lia|]. cbn [has_char]. rewrite Hs, bool_decide_eq_false_2; [done|].
    apply Hd, N.mod_lt. lia. }
  unfold show, pretty, pretty_N. destruct (decide (n = 0)); [|by apply Hgo].
  cbn [has_char]. rewrite bool_decide_eq_false_2; [done|]. apply (Hd 0). lia.
Qed.

(** ** The order of padded numbers *)

Lemma digit_byte c d : digit c = Some d → Byte.to_N (byte_of_ascii c) = 48 + d ∧ d < 10.
Proof.
  assert (N_of_ascii c = Byte.to_N (byte_of_ascii c)) as Hc by (by destruct c as [[] [] [] [] [] [] [] []]).
  unfold digit. rewrite Hc.
  destruct (N.leb_spec 48 (Byte.to_N (byte_of_ascii c))), (N.leb_spec (Byte.to_N (byte_of_ascii c)) 57);
    simpl; try done. intros [= <-]. lia.
Qed.

(** The value of digits behind [acc]. *)
Lemma parse_digits_bounds w acc s n :
  parse_digits w acc s = Some n →
  acc * 10 ^ N.of_nat (String.length s) ≤ n ∧ n < (acc + 1) * 10 ^ N.of_nat (String.length s).
Proof.
  revert acc. induction s as [|c s IH]; intros acc; simpl; [intros [= <-]; rewrite N.pow_0_r; lia|].
  intros (d & [_ Hd]%digit_byte & Hp)%bind_Some. destruct (_ <? _); [|done]. apply IH in Hp.
  change (N.pos (Pos.of_succ_nat (String.length s))) with (N.of_nat (S (String.length s))).
  rewrite Nat2N.inj_succ, N.pow_succ_r'. nia.
Qed.

(** Digits of the same length are ordered as bytes the way their values are. *)
Lemma parse_digits_cmp w acc a b x y :
  String.length a = String.length b → parse_digits w acc a = Some x → parse_digits w acc b = Some y →
  bytes_cmp (as_bytes a) (as_bytes b) = (x ?= y).
Proof.
  revert acc b. induction a as [|c a IH]; intros acc [|c' b] Hl; simplify_eq/=.
  { intros [= <-] [= <-]. by rewrite N.compare_refl. }
  intros (d & Hd & Ha)%bind_Some (d' & Hd' & Hb)%bind_Some.
  apply digit_byte in Hd as [Hc Hd], Hd' as [Hc' Hd']. unfold as_bytes in *. simpl. rewrite Hc, Hc'.
  destruct (_ <? _); [|done]. destruct (_ <? _); [|done].
  destruct (N.compare_spec (48 + d) (48 + d')) as [He|Hlt|Hlt].
  - assert (d = d') as <- by lia. by eapply IH.
  - apply parse_digits_bounds in Ha, Hb. rewrite Hl in Ha. symmetry. apply N.compare_lt_iff. nia.
  - apply parse_digits_bounds in Ha, Hb. rewrite Hl in Ha. symmetry. apply N.compare_gt_iff. nia.
Qed.

Lemma parse_digits_zeros w k s : parse_digits w 0 (zeros k s) = parse_digits w 0 s.
Proof.
  induction k as [|k IH]; [done|]. assert (0 < 2 ^ w) by (apply N.neq_0_lt_0, N.pow_nonzero; lia).
  change (parse_digits w 0 (zeros (S k) s)) with (if 0 <? 2 ^ w then parse_digits w 0 (zeros k s) else None).
  by destruct (N.ltb_spec 0 (2 ^ w)); [|lia].
Qed.

Lemma length_zeros k s : String.length (zeros k s) = (k + String.length s)%nat.
Proof. induction k; simpl; auto. Qed.

Lemma length_show n k : n < 10 ^ N.of_nat k → (0 < k)%nat → (String.length (show n) <= k)%nat.
Proof.
  intros Hn Hk. assert (∀ j x s, x < 10 ^ N.of_nat j →
    (String.length (pretty_N_go x s) <= j + String.length s)%nat) as Hgo.
  { induction j as [|j IH]; intros x s Hx.
    - assert (x = 0) as -> by (simpl in Hx; lia). done.
    - destruct (decide (x = 0)) as [->|]; [rewrite pretty_N_go_0; lia|]. rewrite pretty_N_go_step by lia.
      etrans; [apply IH|simpl; lia]. rewrite Nat2N.inj_succ, N.pow_succ_r' in Hx.
      apply N.Div0.div_lt_upper_bound. lia. }
  unfold show, pretty, pretty_N. destruct (decide (n = 0)); [simpl; lia|].
  etrans; [by apply (Hgo k)|simpl; lia].
Qed.

(** Numbers padded to a width they fit in are ordered as bytes. *)
Lemma show_padded_cmp k x y :
  (0 < k)%nat → x < 10 ^ N.of_nat k → y < 10 ^ N.of_nat k →
  bytes_cmp (as_bytes (show_padded k x)) (as_bytes (show_padded k y)) = (x ?= y).
Proof.
  intros Hk Hx Hy. set (w := N.max x y). assert (x < 2 ^ w ∧ y < 2 ^ w) as [Hxw Hyw].
  { assert (∀ z, z ≤ w → z < 2 ^ w) as H; [|split; apply H; subst w; lia].
    intros z Hz. eapply N.le_lt_trans; [done|]. apply N.pow_gt_lin_r. lia. }
  apply (parse_digits_cmp w 0); unfold show_padded; rewrite ?parse_digits_zeros, ?parse_digits_show; [|done..].
  rewrite !length_zeros. pose proof (length_show x k Hx Hk). pose proof (length_show y k Hy Hk). lia.
Qed.
