(* ===== verification/Codec.v ===== *)
(** * Serialization

    The source serializes with bincode, a third-party crate. Its two functions
    are a class of operations here, and what the source relies on (decoding an
    encoded value gives the value back) is a separate class of laws, so that
    every theorem that needs the law says so. *)

From S2P Require Import Prelude.

(** [bincode::serialize] and [bincode::deserialize] at type [A]; [None] is a
    decoding error. *)
Class Bincode (A : Type) := {
  serialize : A → bytes;
  deserialize : bytes → option A;
}.

Class BincodeLaws (A : Type) `{Bincode A} : Prop :=
  deserialize_serialize : ∀ a : A, deserialize (serialize a) = Some a.

Lemma serialize_inj `{BincodeLaws A} (a b : A) : serialize a = serialize b → a = b.
Proof.
  intros He. apply (f_equal deserialize) in He. rewrite !deserialize_serialize in He.
  by simplify_eq.
Qed.

(** ** A codec for every countable type

    One byte per binary digit of the code of a value. It shows that the laws
    can hold, and lets closed examples run. *)

Fixpoint digits (p : positive) : bytes :=
  match p with
  | xH => [x02]
  | xO p => x00 :: digits p
  | xI p => x01 :: digits p
  end.

Fixpoint undigits (bs : bytes) : option positive :=
  match bs with
  | [x02] => Some xH
  | x00 :: bs => xO <$> undigits bs
  | x01 :: bs => xI <$> undigits bs
  | _ => None
  end.

Lemma undigits_digits p : undigits (digits p) = Some p.
Proof. induction p as [p IH|p IH|]; simpl; [by rewrite IH..|done]. Qed.

Definition countable_bincode (A : Type) `{Countable A} : Bincode A := {|
  serialize a := digits (encode a);
  deserialize bs := undigits bs ≫= decode;
|}.

Lemma countable_bincode_laws (A : Type) `{Countable A} :
  @BincodeLaws A (countable_bincode A).
Proof. intros a. simpl. by rewrite undigits_digits; simpl; rewrite decode_encode. Qed.
