(* ===== verification/SimBase.v ===== *)
(** * Randomness and client histories of the simulator

    crates/sim/src/rng.rs (splitmix64) and crates/sim/src/history.rs. *)

From S2P Require Import Prelude.
Local Open Scope N_scope.

(** ** The generator *)

Definition golden : N := 0x9E3779B97F4A7C15.

Definition rng_new (seed : N) : N := wrapping_add 64 seed golden.

(** The new state and the number drawn. *)
Definition next_u64 (state : N) : N * N :=
  let state := (state +w golden)%u64 in
  let z := ((state ^^ (state >>w 30)) *w 0xBF58476D1CE4E5B9)%u64 in
  let z := ((z ^^ (z >>w 27)) *w 0x94D049BB133111EB)%u64 in
  (state, (z ^^ (z >>w 31))%u64).

(** [None]: the remainder by zero panics. *)
Definition rng_below (n : N) (state : N) : option (N * N) :=
  if n =? 0 then None
  else let '(state, z) := next_u64 state in Some (state, z mod n).

(** [None]: the subtraction [hi - lo] overflows. *)
Definition rng_range (lo hi : N) (state : N) : option (N * N) :=
  if hi <? lo then None
  else '(state, z) ← rng_below (hi - lo + 1) state; Some (state, lo + z).

(** A probability is an [f64]: [p_num / 2 ^ p_exp]. *)
Record prob := mkProb { p_num : N; p_exp : N }.

Definition halve (p : prob) : prob := mkProb (p_num p) (p_exp p + 1).

(** [u64 as f64]: rounding to 53 significant bits, ties to even. *)
Definition round_f64 (x : N) : N :=
  if x <? 2 ^ 53 then x
  else
    let e := N.log2 x - 52 in
    let q := N.shiftr x e in
    let r := x - N.shiftl q e in
    let half := 2 ^ (e - 1) in
    let q := if (half <? r) || ((r =? half) && N.odd q) then q + 1 else q in
    N.shiftl q e.

(** [u64::MAX as f64] is [2 ^ 64], so the division is exact. *)
Definition rng_chance (p : prob) (state : N) : N * bool :=
  let '(state, z) := next_u64 state in
  (state, round_f64 z * 2 ^ p_exp p <? p_num p * 2 ^ 64).

Definition rng_pick {A} (items : list A) (state : N) : option (N * A) :=
  '(state, i) ← rng_below (N.of_nat (length items)) state;
  x ← items !! N.to_nat i;
  Some (state, x).

(** ** Client histories *)

Inductive HOp :=
| HRead (key : N)
| HWrite (key val : N)
| HCas (key : N) (expect : option N) (new : N).

Definition hop_key (o : HOp) : N :=
  match o with HRead k | HWrite k _ | HCas k _ _ => k end.

Inductive HRes :=
| ReadOk (v : option N)
| WriteOk
| CasOk (success : bool).

Record HRecord := mkHRecord {
  hr_client : N;
  hr_invoke : N;
  hr_ret : option N;
  hr_op : HOp;
  hr_result : option HRes;
}.

Definition encode_val (v : N) : bytes := to_le 8 v.

(** The first eight bytes, padded with zeros at the most significant end. *)
Definition decode_val (bs : bytes) : N := from_le (take 8 bs).
