(* ===== verification/RaftTypes.v ===== *)
(** * Wire and state types of the consensus core (crates/raft/src/types.rs)

    [u64], [u32] and [usize] counters are naturals [N]: terms, indices and tick
    counters advance by one, so wrap-around would need 2^64 steps; the pseudo
    random generator, which does wrap, is modelled at its width in [RaftNode].
    Record fields carry a short prefix for the struct they belong to. *)

From S2P Require Import Prelude.

Abbreviation NodeId := N.
Abbreviation Term := N.
Abbreviation Index := N.

Inductive ConfChange :=
| AddNode (id : NodeId)
| RemoveNode (id : NodeId).

Inductive EntryPayload :=
| Noop
| Normal (data : bytes)
| ConfChangeP (cc : ConfChange).

Record Entry := mkEntry { e_term : Term; e_index : Index; e_payload : EntryPayload }.

Record HardState := mkHS { hs_term : Term; hs_voted_for : option NodeId }.

Record Snapshot := mkSnap {
  s_last_index : Index;
  s_last_term : Term;
  s_voters : list NodeId;
  s_data : bytes;
}.

Inductive MessageBody :=
| PreVote (last_log_index : Index) (last_log_term : Term)
| PreVoteResp (granted : bool)
| RequestVote (last_log_index : Index) (last_log_term : Term)
| RequestVoteResp (granted : bool)
| AppendEntries (prev_log_index : Index) (prev_log_term : Term) (entries : list Entry)
    (leader_commit : Index) (read_ctx : N)
| AppendEntriesResp (success : bool) (match_index conflict_index : Index) (read_ctx : N)
| InstallSnapshot (snapshot : Snapshot)
| InstallSnapshotResp (last_index : Index).

Record Message := mkMsg {
  m_from : NodeId;
  m_to : NodeId;
  m_term : Term;
  m_body : MessageBody;
}.

Record Output := mkOut {
  o_messages : list Message;
  o_committed : list Entry;
  o_hard_state : option HardState;
  o_append : list Entry;
  o_snapshot : option Snapshot;
  o_read_states : list (N * Index);
}.

(** [HardState::default()], [Output::default()] and [Persisted::default()]. *)
Definition default_hs : HardState := mkHS 0 None.
Definition default_out : Output := mkOut [] [] None [] None [].

(** [Output::is_empty]. *)
Definition out_is_empty (o : Output) : bool :=
  match o_messages o, o_committed o, o_hard_state o, o_append o, o_snapshot o, o_read_states o with
  | [], [], None, [], None, [] => true
  | _, _, _, _, _, _ => false
  end.

Record Persisted := mkPersisted {
  p_hard_state : HardState;
  p_entries : list Entry;
  p_snapshot : option Snapshot;
}.

Definition default_persisted : Persisted := mkPersisted default_hs [] None.

Inductive Role := Follower | PreCandidate | Candidate | Leader.

Inductive ProposeError :=
| NotLeader (hint : option NodeId)
| ConfChangeInFlight
| NotReady.

Record Config := mkConfig {
  c_id : NodeId;
  c_election_tick_min : N;
  c_election_tick_max : N;
  c_heartbeat_tick : N;
  c_max_batch_entries : nat;
  c_max_inflight : N;
  c_pre_vote : bool;
  c_seed : N;
}.

#[export] Instance ConfChange_eq_dec : EqDecision ConfChange.
Proof. solve_decision. Defined.
#[export] Instance EntryPayload_eq_dec : EqDecision EntryPayload.
Proof. solve_decision. Defined.
#[export] Instance Entry_eq_dec : EqDecision Entry.
Proof. solve_decision. Defined.
#[export] Instance HardState_eq_dec : EqDecision HardState.
Proof. solve_decision. Defined.
#[export] Instance Snapshot_eq_dec : EqDecision Snapshot.
Proof. solve_decision. Defined.
#[export] Instance MessageBody_eq_dec : EqDecision MessageBody.
Proof. solve_decision. Defined.
#[export] Instance Message_eq_dec : EqDecision Message.
Proof. solve_decision. Defined.
#[export] Instance Role_eq_dec : EqDecision Role.
Proof. solve_decision. Defined.

#[export] Instance HardState_countable : Countable HardState.
Proof. by apply (inj_countable' (λ h, (hs_term h, hs_voted_for h)) (λ '(t, v), mkHS t v)); intros []. Defined.
#[export] Instance ConfChange_countable : Countable ConfChange.
Proof.
  apply (inj_countable' (λ c, match c with AddNode i => inl i | RemoveNode i => inr i end)
    (λ s, match s with inl i => AddNode i | inr i => RemoveNode i end)). by intros [].
Defined.
#[export] Instance EntryPayload_countable : Countable EntryPayload.
Proof.
  apply (inj_countable'
    (λ p, match p with Noop => inl tt | Normal b => inr (inl b) | ConfChangeP c => inr (inr c) end)
    (λ s, match s with inl _ => Noop | inr (inl b) => Normal b | inr (inr c) => ConfChangeP c end)).
  by intros [].
Defined.
#[export] Instance Entry_countable : Countable Entry.
Proof.
  by apply (inj_countable' (λ e, (e_term e, e_index e, e_payload e)) (λ '(t, i, p), mkEntry t i p)); intros [].
Defined.
#[export] Instance Snapshot_countable : Countable Snapshot.
Proof.
  by apply (inj_countable' (λ s, (s_last_index s, s_last_term s, s_voters s, s_data s))
    (λ '(i, t, v, d), mkSnap i t v d)); intros [].
Defined.

#[export] Instance MessageBody_countable : Countable MessageBody.
Proof.
  refine (inj_countable'
    (λ b, match b with
      | PreVote i t => inl (inl (inl (i, t)))
      | PreVoteResp g => inl (inl (inr g))
      | RequestVote i t => inl (inr (inl (i, t)))
      | RequestVoteResp g => inl (inr (inr g))
      | AppendEntries i t es c r => inr (inl (inl (i, t, es, c, r)))
      | AppendEntriesResp s m c r => inr (inl (inr (s, m, c, r)))
      | InstallSnapshot s => inr (inr (inl s))
      | InstallSnapshotResp i => inr (inr (inr i))
      end)
    (λ s, match s with
      | inl (inl (inl (i, t))) => PreVote i t
      | inl (inl (inr g)) => PreVoteResp g
      | inl (inr (inl (i, t))) => RequestVote i t
      | inl (inr (inr g)) => RequestVoteResp g
      | inr (inl (inl (i, t, es, c, r))) => AppendEntries i t es c r
      | inr (inl (inr (s, m, c, r))) => AppendEntriesResp s m c r
      | inr (inr (inl s)) => InstallSnapshot s
      | inr (inr (inr i)) => InstallSnapshotResp i
      end) _).
  by intros [].
Defined.
#[export] Instance Message_countable : Countable Message.
Proof.
  by apply (inj_countable' (λ m, (m_from m, m_to m, m_term m, m_body m)) (λ '(f, t, e, b), mkMsg f t e b)); intros [].
Defined.

(** [Config::new]. *)
Definition config_new (id seed : N) : Config := mkConfig id 10 20 2 64 10 true seed.
