(* ===== verification/RaftLog.v ===== *)
(** * The in-memory log with a snapshot base (crates/raft/src/log.rs) *)

From S2P Require Import Prelude RaftTypes.
Local Open Scope N_scope.

Record RaftLog := mkLog { snap_index : Index; snap_term : Term; entries : list Entry }.

Module RL.

Definition new (si : Index) (st : Term) (es : list Entry) : RaftLog := mkLog si st es.

(** The condition [assert_contiguous] checks in debug builds. *)
Definition contiguous (l : RaftLog) : Prop :=
  ∀ i e, entries l !! i = Some e → e_index e = snap_index l + 1 + N.of_nat i.

Definition first_index (l : RaftLog) : Index := snap_index l + 1.

Definition last_index (l : RaftLog) : Index := snap_index l + N.of_nat (length (entries l)).

Definition last_term (l : RaftLog) : Term :=
  match last (entries l) with
  | Some e => e_term e
  | None => snap_term l
  end.

(** Position of index [idx] in [entries]. *)
Definition pos (l : RaftLog) (idx : Index) : nat := N.to_nat (idx - snap_index l - 1).

Definition term (l : RaftLog) (idx : Index) : option Term :=
  if idx =? snap_index l then Some (snap_term l)
  else if (idx <? snap_index l) || (last_index l <? idx) then None
  else e_term <$> entries l !! pos l idx.

Definition get (l : RaftLog) (idx : Index) : option Entry :=
  if (idx <=? snap_index l) || (last_index l <? idx) then None
  else entries l !! pos l idx.

Definition slice (l : RaftLog) (from : Index) (max : nat) : list Entry :=
  let from := N.max from (first_index l) in
  if last_index l <? from then []
  else
    let start := pos l from in
    let stop := Nat.min (start + max) (length (entries l)) in
    take (stop - start) (drop start (entries l)).

Definition push (l : RaftLog) (e : Entry) : RaftLog :=
  mkLog (snap_index l) (snap_term l) (entries l ++ [e]).

(** [None] is the panic on an index inside the snapshot. *)
Definition truncate_from (l : RaftLog) (idx : Index) : option RaftLog :=
  if idx <=? snap_index l then None
  else Some (mkLog (snap_index l) (snap_term l)
               (take (Nat.min (pos l idx) (length (entries l))) (entries l))).

Definition compact (l : RaftLog) (idx : Index) (t : Term) : RaftLog :=
  if idx <=? snap_index l then l
  else
    let drop_n := Nat.min (N.to_nat (idx - snap_index l)) (length (entries l)) in
    mkLog idx t (drop drop_n (entries l)).

Definition reset_to_snapshot (l : RaftLog) (idx : Index) (t : Term) : RaftLog :=
  mkLog idx t [].

End RL.
