(* ===== verification/RaftLogFacts.v ===== *)
(** * Laws of the in-memory log

    Shared lemmas about [RaftLog]: lookup by index, the effect of [push],
    [truncate_from], [compact] and [slice] on lookups, and preservation of
    contiguity (the [debug_assert]s of crates/raft/src/log.rs). *)

From S2P Require Import Prelude RaftTypes RaftLog.
Local Open Scope N_scope.

Create HintDb raft discriminated.

Section facts.
Implicit Types (l : RaftLog) (e : Entry) (i : Index).

Lemma get_Some l i e :
  RL.get l i = Some e ↔ snap_index l < i ∧ entries l !! RL.pos l i = Some e.
Proof.
  unfold RL.get, RL.last_index, RL.pos. split.
  - destruct (i <=? snap_index l) eqn:H1; simpl; [done|].
    destruct (_ <? i) eqn:H2; [done|]. intros ->. split; [lia|done].
  - intros [Hlt Hlk]. pose proof (lookup_lt_Some _ _ _ Hlk).
    destruct (i <=? snap_index l) eqn:H1; [lia|].
    destruct (_ <? i) eqn:H2; simpl; [lia|done].
Qed.

Lemma get_None l i : RL.get l i = None ↔ i ≤ snap_index l ∨ RL.last_index l < i.
Proof.
  rewrite eq_None_not_Some. split.
  - intros Hn. destruct (decide (i ≤ snap_index l)) as [|Hlt]; [by left|right].
    apply N.nle_gt. intros Hle. apply Hn. unfold RL.last_index in Hle.
    destruct (lookup_lt_is_Some_2 (entries l) (RL.pos l i)) as [e He].
    { unfold RL.pos. lia. }
    exists e. apply get_Some. split; [lia|done].
  - intros Ho [e [Hlt Hlk%lookup_lt_Some]%get_Some].
    unfold RL.last_index, RL.pos in *. lia.
Qed.

Lemma term_get l i : i ≠ snap_index l → RL.term l i = e_term <$> RL.get l i.
Proof.
  intros Hne. unfold RL.term, RL.get.
  destruct (N.eqb_spec i (snap_index l)); [done|].
  destruct (N.ltb_spec i (snap_index l)), (N.leb_spec i (snap_index l)); simpl; try lia; try done.
  by destruct (_ <? i).
Qed.

Lemma term_snap l : RL.term l (snap_index l) = Some (snap_term l).
Proof. unfold RL.term. by rewrite N.eqb_refl. Qed.

Lemma term_Some l i t :
  RL.term l i = Some t ↔
  (i = snap_index l ∧ t = snap_term l) ∨ (∃ e, RL.get l i = Some e ∧ e_term e = t).
Proof.
  destruct (decide (i = snap_index l)) as [->|Hne].
  - rewrite term_snap. split; [intros [= <-]; by left|].
    intros [[_ ->]|(e & [Hlt _]%get_Some & _)]; [done|lia].
  - rewrite term_get by done. rewrite fmap_Some. split.
    + intros (e & He & ->). right. eauto.
    + intros [[? _]|(e & He & <-)]; [done|eauto].
Qed.

Lemma term_bounds l i t : RL.term l i = Some t → snap_index l ≤ i ≤ RL.last_index l.
Proof.
  intros [[-> _]|(e & He & _)]%term_Some; unfold RL.last_index.
  - lia.
  - apply get_Some in He as [? Hlk%lookup_lt_Some]. unfold RL.pos in *. lia.
Qed.

Lemma term_is_Some l i : snap_index l ≤ i ≤ RL.last_index l → is_Some (RL.term l i).
Proof.
  intros Hi. destruct (decide (i = snap_index l)) as [->|Hne].
  { rewrite term_snap. eauto. }
  rewrite term_get by done. apply fmap_is_Some.
  destruct (RL.get l i) eqn:Hg; [eauto|]. apply get_None in Hg. lia.
Qed.

Lemma get_index l i e : RL.contiguous l → RL.get l i = Some e → e_index e = i.
Proof.
  intros Hc [Hlt Hlk]%get_Some. rewrite (Hc _ _ Hlk). unfold RL.pos. lia.
Qed.

Lemma elem_of_get l e :
  RL.contiguous l → e ∈ entries l ↔ RL.get l (e_index e) = Some e.
Proof.
  intros Hc. split.
  - intros [k Hk]%list_elem_of_lookup_1. apply get_Some.
    rewrite (Hc _ _ Hk). split; [lia|]. unfold RL.pos.
    by replace (N.to_nat _) with k by lia.
  - intros [_ Hlk]%get_Some. by eapply list_elem_of_lookup_2.
Qed.

(** *** Growing the log *)

Lemma last_index_push l e : RL.last_index (RL.push l e) = RL.last_index l + 1.
Proof. unfold RL.last_index. simpl. rewrite length_app. simpl. lia. Qed.

Lemma get_push_old l e i : i ≤ RL.last_index l → RL.get (RL.push l e) i = RL.get l i.
Proof.
  intros Hi. destruct (RL.get l i) as [e'|] eqn:Hg.
  - apply get_Some in Hg as [Hlt Hlk]. apply get_Some. split; [done|].
    change (RL.pos (RL.push l e) i) with (RL.pos l i). simpl.
    rewrite lookup_app_l; [done|]. by eapply lookup_lt_Some.
  - apply get_None in Hg. apply get_None. simpl. rewrite last_index_push. lia.
Qed.

Lemma get_push_new l e : RL.get (RL.push l e) (RL.last_index l + 1) = Some e.
Proof.
  apply get_Some. simpl. unfold RL.last_index, RL.pos. simpl. split; [lia|].
  rewrite lookup_app_r by lia.
  by replace (N.to_nat _ - length (entries l))%nat with 0%nat by lia.
Qed.

Lemma contiguous_push l e :
  RL.contiguous l → e_index e = RL.last_index l + 1 → RL.contiguous (RL.push l e).
Proof.
  intros Hc He i e' Hi. simpl in *. apply lookup_app_Some in Hi as [Hi|[Hge Hi]].
  - by apply Hc.
  - destruct (i - length (entries l))%nat eqn:Hz; simplify_eq/=.
    rewrite He. unfold RL.last_index. lia.
Qed.

(** A run of entries with consecutive indices starting at [i]. *)
Definition consecutive (i : Index) (es : list Entry) : Prop :=
  ∀ k e, es !! k = Some e → e_index e = i + N.of_nat k.

Lemma consecutive_cons i e es :
  consecutive i (e :: es) ↔ e_index e = i ∧ consecutive (i + 1) es.
Proof.
  split.
  - intros H. split; [rewrite (H 0%nat e eq_refl); lia|].
    intros k e' Hk. rewrite (H (S k) e' Hk). lia.
  - intros [He H] [|k] e' Hk; simplify_eq/=; [lia|]. rewrite (H k e' Hk). lia.
Qed.

Lemma consecutive_drop i es k : consecutive i es → consecutive (i + N.of_nat k) (drop k es).
Proof. intros H j e Hj. rewrite lookup_drop in Hj. rewrite (H _ _ Hj). lia. Qed.

Lemma consecutive_take i es k : consecutive i es → consecutive i (take k es).
Proof. intros H j e [Hj _]%lookup_take_Some. eauto. Qed.

Lemma consecutive_app i es1 es2 :
  consecutive i es1 → consecutive (i + N.of_nat (length es1)) es2 → consecutive i (es1 ++ es2).
Proof.
  intros H1 H2 k e [Hk|[Hge Hk]]%lookup_app_Some; [eauto|]. rewrite (H2 _ _ Hk). lia.
Qed.

Lemma contiguous_consecutive l : RL.contiguous l ↔ consecutive (snap_index l + 1) (entries l).
Proof. done. Qed.

Lemma foldl_push l es :
  foldl RL.push l es = mkLog (snap_index l) (snap_term l) (entries l ++ es).
Proof.
  revert l. induction es as [|e es IH]; intros l; simpl.
  - rewrite app_nil_r. by destruct l.
  - rewrite IH. simpl. by rewrite <-app_assoc.
Qed.

Lemma contiguous_foldl_push l es :
  RL.contiguous l → consecutive (RL.last_index l + 1) es → RL.contiguous (foldl RL.push l es).
Proof.
  rewrite foldl_push, !contiguous_consecutive. simpl. intros H1 H2.
  apply consecutive_app; [done|]. unfold RL.last_index in H2.
  by replace (snap_index l + 1 + N.of_nat (length (entries l)))
    with (snap_index l + N.of_nat (length (entries l)) + 1) by lia.
Qed.

(** *** Cutting the log *)

Lemma truncate_from_Some l i l' :
  RL.truncate_from l i = Some l' →
  snap_index l < i ∧ l' = mkLog (snap_index l) (snap_term l) (take (RL.pos l i) (entries l)).
Proof.
  unfold RL.truncate_from. destruct (N.leb_spec i (snap_index l)); [done|].
  intros [= <-]. split; [done|]. f_equal.
  destruct (Nat.min_spec (RL.pos l i) (length (entries l))) as [[? ->]|[? ->]]; [done|].
  rewrite !take_ge by lia. done.
Qed.

Lemma contiguous_truncate l i l' :
  RL.contiguous l → RL.truncate_from l i = Some l' → RL.contiguous l'.
Proof.
  intros Hc [_ ->]%truncate_from_Some. apply contiguous_consecutive. simpl.
  by apply consecutive_take.
Qed.

Lemma last_index_truncate l i l' :
  RL.truncate_from l i = Some l' → i ≤ RL.last_index l + 1 → RL.last_index l' + 1 = i.
Proof.
  intros [? ->]%truncate_from_Some Hi. unfold RL.last_index, RL.pos in *. simpl.
  rewrite length_take. lia.
Qed.

Lemma get_truncate l i l' j :
  RL.truncate_from l i = Some l' → RL.get l' j = if j <? i then RL.get l j else None.
Proof.
  intros [Hi ->]%truncate_from_Some. apply option_eq. intros e.
  rewrite get_Some. change (RL.pos (mkLog _ _ _) j) with (RL.pos l j). simpl.
  rewrite lookup_take_Some. destruct (N.ltb_spec j i); rewrite ?get_Some; unfold RL.pos.
  - split; [intros (?&?&?); done|]. intros [??]. split_and!; [done..|lia].
  - split; [|done]. intros (?&?&?). lia.
Qed.

Lemma last_index_compact l i t :
  snap_index l ≤ i ≤ RL.last_index l → RL.last_index (RL.compact l i t) = RL.last_index l.
Proof.
  intros Hi. unfold RL.compact. destruct (N.leb_spec i (snap_index l)); [done|].
  unfold RL.last_index in *. simpl. rewrite length_drop. lia.
Qed.

Lemma compact_eq l i t :
  snap_index l < i ≤ RL.last_index l →
  RL.compact l i t = mkLog i t (drop (N.to_nat (i - snap_index l)) (entries l)).
Proof.
  intros Hi. unfold RL.compact. destruct (N.leb_spec i (snap_index l)); [lia|].
  unfold RL.last_index in Hi. by rewrite Nat.min_l by lia.
Qed.

Lemma contiguous_compact l i t :
  RL.contiguous l → i ≤ RL.last_index l → RL.contiguous (RL.compact l i t).
Proof.
  intros Hc Hi. destruct (decide (i ≤ snap_index l)).
  { unfold RL.compact. by destruct (N.leb_spec i (snap_index l)); [|lia]. }
  rewrite compact_eq by lia. apply contiguous_consecutive. simpl.
  apply contiguous_consecutive, (consecutive_drop _ _ (N.to_nat (i - snap_index l))) in Hc.
  by replace (i + 1) with (snap_index l + 1 + N.of_nat (N.to_nat (i - snap_index l))) by lia.
Qed.

Lemma get_compact l i t j :
  snap_index l < i ≤ RL.last_index l → i < j → RL.get (RL.compact l i t) j = RL.get l j.
Proof.
  intros Hi Hj. rewrite compact_eq by done. apply option_eq. intros e.
  rewrite !get_Some. unfold RL.pos. simpl. rewrite lookup_drop.
  replace (N.to_nat (i - snap_index l) + N.to_nat (j - i - 1))%nat
    with (N.to_nat (j - snap_index l - 1)) by lia.
  split; intros [??]; split; try done; lia.
Qed.

(** *** Slices *)

Lemma slice_lookup l from max k e :
  snap_index l < from → RL.slice l from max !! k = Some e → RL.get l (from + N.of_nat k) = Some e.
Proof.
  intros Hf. unfold RL.slice. rewrite N.max_l by (unfold RL.first_index; lia).
  destruct (N.ltb_spec (RL.last_index l) from); [done|].
  rewrite lookup_take_Some, lookup_drop. intros [Hlk Hk]. apply get_Some.
  split; [lia|]. rewrite <-Hlk. f_equal. unfold RL.pos. lia.
Qed.

Lemma slice_consecutive l from max :
  RL.contiguous l → snap_index l < from → consecutive from (RL.slice l from max).
Proof.
  intros Hc Hf k e Hk. eapply slice_lookup in Hk; [|done]. by eapply get_index.
Qed.

Lemma length_slice l from max :
  snap_index l < from →
  length (RL.slice l from max) = Nat.min max (N.to_nat (RL.last_index l + 1 - from)).
Proof.
  intros Hf. unfold RL.slice. rewrite N.max_l by (unfold RL.first_index; lia).
  destruct (N.ltb_spec (RL.last_index l) from); simpl; [lia|].
  rewrite length_take, length_drop. unfold RL.last_index, RL.pos in *. lia.
Qed.

End facts.

#[export] Hint Resolve contiguous_push contiguous_foldl_push contiguous_truncate
  contiguous_compact consecutive_drop consecutive_take : raft.
