(* ===== verification/RaftNode.v ===== *)
(** * The Raft node state machine (crates/raft/src/node.rs)

    [RaftNode] is the struct of the same name; every method is a function from
    the node to the node. Methods that return a value return it beside the new
    node. [step] is partial: [None] is a panic of the code, which only
    [handle_append_entries] can raise (its [assert!] on committed entries and
    the panic of [truncate_from]). [BTreeMap]s are [gmap]s iterated in key
    order through [btree_keys]. *)

From S2P Require Import Prelude RaftTypes RaftLog.
Local Open Scope N_scope.

(** ** State *)

Record Progress := mkProgress {
  pr_next : Index;
  pr_matched : Index;
  pr_inflight : N;
  pr_pending_snapshot : bool;
  pr_snapshot_sent_tick : N;
  pr_acked_read_ctx : N;
  pr_last_resp_tick : N;
}.

(** [Progress::new]. *)
Definition progress_new (next : Index) : Progress := mkProgress next 0 0 false 0 0 0.

Definition set_pr_next (v : Index) (p : Progress) : Progress :=
  mkProgress v (pr_matched p) (pr_inflight p) (pr_pending_snapshot p) (pr_snapshot_sent_tick p)
     (pr_acked_read_ctx p) (pr_last_resp_tick p).
Definition set_pr_matched (v : Index) (p : Progress) : Progress :=
  mkProgress (pr_next p) v (pr_inflight p) (pr_pending_snapshot p) (pr_snapshot_sent_tick p)
     (pr_acked_read_ctx p) (pr_last_resp_tick p).
Definition set_pr_inflight (v : N) (p : Progress) : Progress :=
  mkProgress (pr_next p) (pr_matched p) v (pr_pending_snapshot p) (pr_snapshot_sent_tick p)
     (pr_acked_read_ctx p) (pr_last_resp_tick p).
Definition set_pr_pending_snapshot (v : bool) (p : Progress) : Progress :=
  mkProgress (pr_next p) (pr_matched p) (pr_inflight p) v (pr_snapshot_sent_tick p)
     (pr_acked_read_ctx p) (pr_last_resp_tick p).
Definition set_pr_snapshot_sent_tick (v : N) (p : Progress) : Progress :=
  mkProgress (pr_next p) (pr_matched p) (pr_inflight p) (pr_pending_snapshot p) v
     (pr_acked_read_ctx p) (pr_last_resp_tick p).
Definition set_pr_acked_read_ctx (v : N) (p : Progress) : Progress :=
  mkProgress (pr_next p) (pr_matched p) (pr_inflight p) (pr_pending_snapshot p)
     (pr_snapshot_sent_tick p) v (pr_last_resp_tick p).
Definition set_pr_last_resp_tick (v : N) (p : Progress) : Progress :=
  mkProgress (pr_next p) (pr_matched p) (pr_inflight p) (pr_pending_snapshot p)
     (pr_snapshot_sent_tick p) (pr_acked_read_ctx p) v.

Definition set_o_messages (v : list Message) (o : Output) : Output :=
  mkOut v (o_committed o) (o_hard_state o) (o_append o) (o_snapshot o) (o_read_states o).
Definition set_o_committed (v : list Entry) (o : Output) : Output :=
  mkOut (o_messages o) v (o_hard_state o) (o_append o) (o_snapshot o) (o_read_states o).
Definition set_o_hard_state (v : option HardState) (o : Output) : Output :=
  mkOut (o_messages o) (o_committed o) v (o_append o) (o_snapshot o) (o_read_states o).
Definition set_o_append (v : list Entry) (o : Output) : Output :=
  mkOut (o_messages o) (o_committed o) (o_hard_state o) v (o_snapshot o) (o_read_states o).
Definition set_o_snapshot (v : option Snapshot) (o : Output) : Output :=
  mkOut (o_messages o) (o_committed o) (o_hard_state o) (o_append o) v (o_read_states o).
Definition set_o_read_states (v : list (N * Index)) (o : Output) : Output :=
  mkOut (o_messages o) (o_committed o) (o_hard_state o) (o_append o) (o_snapshot o) v.

Record RaftNode := mkNode {
  n_cfg : Config;
  n_log : RaftLog;
  n_hs : HardState;
  n_role : Role;
  n_leader_id : option NodeId;
  n_commit : Index;
  n_snapshot : option Snapshot;
  n_voters_base : list NodeId;
  n_election_elapsed : N;
  n_randomized_timeout : N;
  n_heartbeat_elapsed : N;
  n_tick_counter : N;
  n_votes : gmap NodeId bool;
  n_prs : gmap NodeId Progress;
  n_read_ctx_counter : N;
  n_pending_reads : list (N * N * Index);
  n_out : Output;
  n_rng : N;
}.

Definition set_cfg (v : Config) (n : RaftNode) : RaftNode :=
  mkNode v (n_log n) (n_hs n) (n_role n) (n_leader_id n) (n_commit n) (n_snapshot n)
     (n_voters_base n) (n_election_elapsed n) (n_randomized_timeout n)
     (n_heartbeat_elapsed n) (n_tick_counter n) (n_votes n) (n_prs n)
     (n_read_ctx_counter n) (n_pending_reads n) (n_out n) (n_rng n).
Definition set_log (v : RaftLog) (n : RaftNode) : RaftNode :=
  mkNode (n_cfg n) v (n_hs n) (n_role n) (n_leader_id n) (n_commit n) (n_snapshot n)
     (n_voters_base n) (n_election_elapsed n) (n_randomized_timeout n)
     (n_heartbeat_elapsed n) (n_tick_counter n) (n_votes n) (n_prs n)
     (n_read_ctx_counter n) (n_pending_reads n) (n_out n) (n_rng n).
Definition set_hs (v : HardState) (n : RaftNode) : RaftNode :=
  mkNode (n_cfg n) (n_log n) v (n_role n) (n_leader_id n) (n_commit n) (n_snapshot n)
     (n_voters_base n) (n_election_elapsed n) (n_randomized_timeout n)
     (n_heartbeat_elapsed n) (n_tick_counter n) (n_votes n) (n_prs n)
     (n_read_ctx_counter n) (n_pending_reads n) (n_out n) (n_rng n).
Definition set_role (v : Role) (n : RaftNode) : RaftNode :=
  mkNode (n_cfg n) (n_log n) (n_hs n) v (n_leader_id n) (n_commit n) (n_snapshot n)
     (n_voters_base n) (n_election_elapsed n) (n_randomized_timeout n)
     (n_heartbeat_elapsed n) (n_tick_counter n) (n_votes n) (n_prs n)
     (n_read_ctx_counter n) (n_pending_reads n) (n_out n) (n_rng n).
Definition set_leader_id (v : option NodeId) (n : RaftNode) : RaftNode :=
  mkNode (n_cfg n) (n_log n) (n_hs n) (n_role n) v (n_commit n) (n_snapshot n)
     (n_voters_base n) (n_election_elapsed n) (n_randomized_timeout n)
     (n_heartbeat_elapsed n) (n_tick_counter n) (n_votes n) (n_prs n)
     (n_read_ctx_counter n) (n_pending_reads n) (n_out n) (n_rng n).
Definition set_commit (v : Index) (n : RaftNode) : RaftNode :=
  mkNode (n_cfg n) (n_log n) (n_hs n) (n_role n) (n_leader_id n) v (n_snapshot n)
     (n_voters_base n) (n_election_elapsed n) (n_randomized_timeout n)
     (n_heartbeat_elapsed n) (n_tick_counter n) (n_votes n) (n_prs n)
     (n_read_ctx_counter n) (n_pending_reads n) (n_out n) (n_rng n).
Definition set_snapshot (v : option Snapshot) (n : RaftNode) : RaftNode :=
  mkNode (n_cfg n) (n_log n) (n_hs n) (n_role n) (n_leader_id n) (n_commit n) v
     (n_voters_base n) (n_election_elapsed n) (n_randomized_timeout n)
     (n_heartbeat_elapsed n) (n_tick_counter n) (n_votes n) (n_prs n)
     (n_read_ctx_counter n) (n_pending_reads n) (n_out n) (n_rng n).
Definition set_voters_base (v : list NodeId) (n : RaftNode) : RaftNode :=
  mkNode (n_cfg n) (n_log n) (n_hs n) (n_role n) (n_leader_id n) (n_commit n) (n_snapshot n) v
     (n_election_elapsed n) (n_randomized_timeout n) (n_heartbeat_elapsed n)
     (n_tick_counter n) (n_votes n) (n_prs n) (n_read_ctx_counter n) (n_pending_reads n)
     (n_out n) (n_rng n).
Definition set_election_elapsed (v : N) (n : RaftNode) : RaftNode :=
  mkNode (n_cfg n) (n_log n) (n_hs n) (n_role n) (n_leader_id n) (n_commit n) (n_snapshot n)
     (n_voters_base n) v (n_randomized_timeout n) (n_heartbeat_elapsed n)
     (n_tick_counter n) (n_votes n) (n_prs n) (n_read_ctx_counter n) (n_pending_reads n)
     (n_out n) (n_rng n).
Definition set_randomized_timeout (v : N) (n : RaftNode) : RaftNode :=
  mkNode (n_cfg n) (n_log n) (n_hs n) (n_role n) (n_leader_id n) (n_commit n) (n_snapshot n)
     (n_voters_base n) (n_election_elapsed n) v (n_heartbeat_elapsed n) (n_tick_counter n)
     (n_votes n) (n_prs n) (n_read_ctx_counter n) (n_pending_reads n) (n_out n) (n_rng n).
Definition set_heartbeat_elapsed (v : N) (n : RaftNode) : RaftNode :=
  mkNode (n_cfg n) (n_log n) (n_hs n) (n_role n) (n_leader_id n) (n_commit n) (n_snapshot n)
     (n_voters_base n) (n_election_elapsed n) (n_randomized_timeout n) v
     (n_tick_counter n) (n_votes n) (n_prs n) (n_read_ctx_counter n) (n_pending_reads n)
     (n_out n) (n_rng n).
Definition set_tick_counter (v : N) (n : RaftNode) : RaftNode :=
  mkNode (n_cfg n) (n_log n) (n_hs n) (n_role n) (n_leader_id n) (n_commit n) (n_snapshot n)
     (n_voters_base n) (n_election_elapsed n) (n_randomized_timeout n)
     (n_heartbeat_elapsed n) v (n_votes n) (n_prs n) (n_read_ctx_counter n)
     (n_pending_reads n) (n_out n) (n_rng n).
Definition set_votes (v : gmap NodeId bool) (n : RaftNode) : RaftNode :=
  mkNode (n_cfg n) (n_log n) (n_hs n) (n_role n) (n_leader_id n) (n_commit n) (n_snapshot n)
     (n_voters_base n) (n_election_elapsed n) (n_randomized_timeout n)
     (n_heartbeat_elapsed n) (n_tick_counter n) v (n_prs n) (n_read_ctx_counter n)
     (n_pending_reads n) (n_out n) (n_rng n).
Definition set_prs (v : gmap NodeId Progress) (n : RaftNode) : RaftNode :=
  mkNode (n_cfg n) (n_log n) (n_hs n) (n_role n) (n_leader_id n) (n_commit n) (n_snapshot n)
     (n_voters_base n) (n_election_elapsed n) (n_randomized_timeout n)
     (n_heartbeat_elapsed n) (n_tick_counter n) (n_votes n) v (n_read_ctx_counter n)
     (n_pending_reads n) (n_out n) (n_rng n).
Definition set_read_ctx_counter (v : N) (n : RaftNode) : RaftNode :=
  mkNode (n_cfg n) (n_log n) (n_hs n) (n_role n) (n_leader_id n) (n_commit n) (n_snapshot n)
     (n_voters_base n) (n_election_elapsed n) (n_randomized_timeout n)
     (n_heartbeat_elapsed n) (n_tick_counter n) (n_votes n) (n_prs n) v
     (n_pending_reads n) (n_out n) (n_rng n).
Definition set_pending_reads (v : list (N * N * Index)) (n : RaftNode) : RaftNode :=
  mkNode (n_cfg n) (n_log n) (n_hs n) (n_role n) (n_leader_id n) (n_commit n) (n_snapshot n)
     (n_voters_base n) (n_election_elapsed n) (n_randomized_timeout n)
     (n_heartbeat_elapsed n) (n_tick_counter n) (n_votes n) (n_prs n)
     (n_read_ctx_counter n) v (n_out n) (n_rng n).
Definition set_out (v : Output) (n : RaftNode) : RaftNode :=
  mkNode (n_cfg n) (n_log n) (n_hs n) (n_role n) (n_leader_id n) (n_commit n) (n_snapshot n)
     (n_voters_base n) (n_election_elapsed n) (n_randomized_timeout n)
     (n_heartbeat_elapsed n) (n_tick_counter n) (n_votes n) (n_prs n)
     (n_read_ctx_counter n) (n_pending_reads n) v (n_rng n).
Definition set_rng (v : N) (n : RaftNode) : RaftNode :=
  mkNode (n_cfg n) (n_log n) (n_hs n) (n_role n) (n_leader_id n) (n_commit n) (n_snapshot n)
     (n_voters_base n) (n_election_elapsed n) (n_randomized_timeout n)
     (n_heartbeat_elapsed n) (n_tick_counter n) (n_votes n) (n_prs n)
     (n_read_ctx_counter n) (n_pending_reads n) (n_out n) v.

(** ** Getters *)

Definition node_id (n : RaftNode) : NodeId := c_id (n_cfg n).
Definition node_term (n : RaftNode) : Term := hs_term (n_hs n).
Definition is_leader (n : RaftNode) : bool := bool_decide (n_role n = Leader).

(** One conf-change entry applied to a voter list. *)
Definition apply_conf (v : list NodeId) (p : EntryPayload) : list NodeId :=
  match p with
  | ConfChangeP (AddNode id) => if decide (id ∈ v) then v else v ++ [id]
  | ConfChangeP (RemoveNode id) => filter (λ x, x ≠ id) v
  | _ => v
  end.

Fixpoint voters_fold (idx : Index) (v : list NodeId) (es : list Entry) : list NodeId :=
  match es with
  | [] => v
  | e :: es =>
    if idx <? e_index e then v else voters_fold idx (apply_conf v (e_payload e)) es
  end.

Definition voters_at (n : RaftNode) (idx : Index) : list NodeId :=
  voters_fold idx (n_voters_base n) (entries (n_log n)).

Definition voters (n : RaftNode) : list NodeId := voters_at n (RL.last_index (n_log n)).

Definition quorum (n : RaftNode) : nat := (length (voters n) / 2 + 1)%nat.

Definition lease_valid (n : RaftNode) : bool :=
  if decide (n_role n ≠ Leader) then false
  else
    let ticks := (λ v, if v =? node_id n then n_tick_counter n
                       else from_option pr_last_resp_tick 0 (n_prs n !! v)) <$> voters n in
    match sort_desc ticks !! (quorum n - 1)%nat with
    | None => false
    | Some quorum_tick => n_tick_counter n - quorum_tick <? c_election_tick_min (n_cfg n)
    end.

Definition take_output (n : RaftNode) : RaftNode * Output :=
  (set_out default_out n, n_out n).

(** ** Pseudo-random election timeouts *)

Definition next_rand (n : RaftNode) : RaftNode * N :=
  let x := n_rng n in
  let x := (x ^^ (x >>w 12))%u64 in
  let x := (x ^^ (x <<w 25))%u64 in
  let x := (x ^^ (x >>w 27))%u64 in
  (set_rng x n, (x *w 0x2545F4914F6CDD1D)%u64).

Definition reset_election_timer (n : RaftNode) : RaftNode :=
  let c := n_cfg n in
  let span := N.max (wrapping_sub 32 (c_election_tick_max c) (c_election_tick_min c)) 1 in
  let '(n, r) := next_rand n in
  set_election_elapsed 0
    (set_randomized_timeout (wrapping_add 32 (c_election_tick_min c) (wrap 32 (r mod span))) n).

(** [RaftNode::new]. *)
Definition node_new (cfg : Config) (initial_voters : list NodeId) (p : Persisted) : RaftNode :=
  let '(si, st, vb, snap) :=
    match p_snapshot p with
    | Some s => (s_last_index s, s_last_term s, s_voters s, p_snapshot p)
    | None => (0, 0, initial_voters, None)
    end in
  let seed := N.lxor (c_seed cfg) (wrapping_mul 64 (c_id cfg) 0x9E3779B97F4A7C15) in
  reset_election_timer
    (mkNode cfg (RL.new si st (p_entries p)) (p_hard_state p) Follower None si snap vb
       0 0 0 0 ∅ ∅ 0 [] default_out (N.lor seed 1)).

(** ** Output and hard state *)

Definition push_msg (m : Message) (n : RaftNode) : RaftNode :=
  set_out (set_o_messages (o_messages (n_out n) ++ [m]) (n_out n)) n.

(** A message stamped with this node's id and current term. *)
Definition send (dst : NodeId) (body : MessageBody) (n : RaftNode) : RaftNode :=
  push_msg (mkMsg (node_id n) dst (node_term n) body) n.

Definition record_hs (n : RaftNode) : RaftNode :=
  set_out (set_o_hard_state (Some (n_hs n)) (n_out n)) n.

Definition set_term (t : Term) (n : RaftNode) : RaftNode :=
  if hs_term (n_hs n) =? t then n
  else record_hs (set_hs (mkHS t (hs_voted_for (n_hs n))) n).

Definition set_vote (v : option NodeId) (n : RaftNode) : RaftNode :=
  if decide (hs_voted_for (n_hs n) = v) then n
  else record_hs (set_hs (mkHS (hs_term (n_hs n)) v) n).

Definition become_follower (t : Term) (leader : option NodeId) (n : RaftNode) : RaftNode :=
  let n := if node_term n <? t then set_vote None (set_term t n) else n in
  let n := set_leader_id leader (set_role Follower n) in
  reset_election_timer (set_pending_reads [] (set_prs ∅ n)).

(** ** Replication *)

Definition sync_progress_with_voters (n : RaftNode) : RaftNode :=
  if decide (n_role n ≠ Leader) then n
  else
    let next := RL.last_index (n_log n) + 1 in
    let vs := voters n in
    let prs1 := foldl (λ prs peer,
      if peer =? node_id n then prs
      else match prs !! peer with
           | Some _ => prs
           | None => <[peer := progress_new next]> prs
           end) (n_prs n) vs in
    set_prs (filter (λ kv, kv.1 ∈ vs) prs1) n.

Definition send_append (peer : NodeId) (n : RaftNode) : RaftNode :=
  let tick_now := n_tick_counter n in
  let retry_after := c_election_tick_min (n_cfg n) in
  match n_prs n !! peer with
  | None => n
  | Some pr =>
    if pr_pending_snapshot pr && (tick_now - pr_snapshot_sent_tick pr <? retry_after) then n
    else
      let pr := set_pr_pending_snapshot false pr in
      let put (pr : Progress) (n : RaftNode) := set_prs (<[peer := pr]> (n_prs n)) n in
      if pr_next pr <=? snap_index (n_log n) then
        match n_snapshot n with
        | Some snap =>
          let pr := set_pr_snapshot_sent_tick tick_now (set_pr_pending_snapshot true pr) in
          send peer (InstallSnapshot snap) (put pr n)
        | None => put pr n
        end
      else
        let prev := pr_next pr - 1 in
        match RL.term (n_log n) prev with
        | None => put pr n
        | Some prev_term =>
          let es := RL.slice (n_log n) (pr_next pr) (c_max_batch_entries (n_cfg n)) in
          let '(es, pr) :=
            match es with
            | [] => (es, pr)
            | _ => if c_max_inflight (n_cfg n) <=? pr_inflight pr
                   then ([], set_pr_inflight (pr_inflight pr - 1) pr)
                   else (es, pr)
            end in
          let k := N.of_nat (length es) in
          let pr := if 0 <? k then
                      set_pr_inflight (pr_inflight pr + 1) (set_pr_next (pr_next pr + k) pr)
                    else pr in
          send peer (AppendEntries prev prev_term es (n_commit n) (n_read_ctx_counter n))
            (put pr n)
        end
  end.

Definition broadcast_append (n : RaftNode) : RaftNode :=
  let n := sync_progress_with_voters n in
  foldl (λ n peer, send_append peer n) n (btree_keys (n_prs n)).

(** ** Commit *)

Definition removes (id : NodeId) (p : EntryPayload) : bool :=
  match p with
  | ConfChangeP (RemoveNode id') => id' =? id
  | _ => false
  end.

Definition advance_commit_to (new_commit : Index) (n : RaftNode) : RaftNode :=
  let es := omap (RL.get (n_log n)) (range_incl (n_commit n + 1) new_commit) in
  let stepped_down :=
    existsb (λ e, removes (node_id n) (e_payload e) && is_leader n) es in
  let n := set_commit new_commit n in
  let n := set_out (set_o_committed (o_committed (n_out n) ++ es) (n_out n)) n in
  if stepped_down then become_follower (node_term n) None n else n.

Definition match_vector (n : RaftNode) : list Index :=
  (λ v, if v =? node_id n then RL.last_index (n_log n)
        else from_option pr_matched 0 (n_prs n !! v)) <$> voters n.

Definition maybe_advance_commit (n : RaftNode) : RaftNode :=
  if decide (n_role n ≠ Leader) then n
  else
    match sort_desc (match_vector n) !! (quorum n - 1)%nat with
    | None => n
    | Some candidate =>
      if (n_commit n <? candidate)
         && bool_decide (RL.term (n_log n) candidate = Some (node_term n))
      then advance_commit_to candidate n
      else n
    end.

Definition append_local (payload : EntryPayload) (n : RaftNode) : RaftNode * Index :=
  let idx := RL.last_index (n_log n) + 1 in
  let e := mkEntry (node_term n) idx payload in
  let n := set_log (RL.push (n_log n) e) n in
  let n := set_out (set_o_append (o_append (n_out n) ++ [e]) (n_out n)) n in
  (broadcast_append (maybe_advance_commit n), idx).

(** ** Elections *)

Definition count_granted (n : RaftNode) : nat :=
  size (filter (λ kv : NodeId * bool, kv.2 = true ∧ kv.1 ∈ voters n) (n_votes n)).

Definition log_up_to_date (n : RaftNode) (lli : Index) (llt : Term) : bool :=
  let t := RL.last_term (n_log n) in
  (t <? llt) || ((t =? llt) && (RL.last_index (n_log n) <=? lli)).

Definition become_leader (n : RaftNode) : RaftNode :=
  let n := set_leader_id (Some (node_id n)) (set_role Leader n) in
  let n := set_pending_reads [] (set_prs ∅ (set_heartbeat_elapsed 0 n)) in
  let n := set_read_ctx_counter 0 n in
  let next := RL.last_index (n_log n) + 1 in
  let n := set_prs (foldl (λ prs peer,
    if peer =? node_id n then prs else <[peer := progress_new next]> prs)
    (n_prs n) (voters n)) n in
  let n := (append_local Noop n).1 in
  broadcast_append n.

(** The loop [for peer in self.voters()] of a campaign, skipping the node itself. *)
Definition send_to_voters (t : Term) (body : MessageBody) (n : RaftNode) : RaftNode :=
  foldl (λ n peer, if peer =? node_id n then n
                   else push_msg (mkMsg (node_id n) peer t body) n) n (voters n).

Definition campaign (n : RaftNode) : RaftNode :=
  let n := set_vote (Some (node_id n)) (set_term (node_term n + 1) n) in
  let n := set_leader_id None (set_role Candidate n) in
  let n := set_votes {[node_id n := true]} n in
  if (quorum n <=? count_granted n)%nat then become_leader n
  else send_to_voters (node_term n)
         (RequestVote (RL.last_index (n_log n)) (RL.last_term (n_log n))) n.

Definition campaign_pre (n : RaftNode) : RaftNode :=
  let n := set_votes {[node_id n := true]} (set_role PreCandidate n) in
  if (quorum n <=? count_granted n)%nat then campaign n
  else send_to_voters (node_term n + 1)
         (PreVote (RL.last_index (n_log n)) (RL.last_term (n_log n))) n.

(** ** Logical time *)

Definition tick (n : RaftNode) : RaftNode :=
  let n := set_tick_counter (n_tick_counter n + 1) n in
  match n_role n with
  | Leader =>
    let n := set_heartbeat_elapsed (n_heartbeat_elapsed n + 1) n in
    if c_heartbeat_tick (n_cfg n) <=? n_heartbeat_elapsed n
    then broadcast_append (set_heartbeat_elapsed 0 n)
    else n
  | _ =>
    let n := set_election_elapsed (n_election_elapsed n + 1) n in
    if n_randomized_timeout n <=? n_election_elapsed n then
      let n := reset_election_timer n in
      if decide (node_id n ∈ voters n) then
        if c_pre_vote (n_cfg n) then campaign_pre n else campaign n
      else n
    else n
  end.

(** ** Proposals and reads *)

Definition propose (data : bytes) (n : RaftNode) : RaftNode * Result Index ProposeError :=
  if decide (n_role n ≠ Leader) then (n, Err (NotLeader (n_leader_id n)))
  else let '(n, idx) := append_local (Normal data) n in (n, Ok idx).

Definition is_conf (p : EntryPayload) : bool :=
  match p with ConfChangeP _ => true | _ => false end.

Definition propose_conf_change (cc : ConfChange) (n : RaftNode)
    : RaftNode * Result Index ProposeError :=
  if decide (n_role n ≠ Leader) then (n, Err (NotLeader (n_leader_id n)))
  else if existsb (λ e, (n_commit n <? e_index e) && is_conf (e_payload e))
            (entries (n_log n))
  then (n, Err ConfChangeInFlight)
  else
    let '(n, idx) := append_local (ConfChangeP cc) n in
    (sync_progress_with_voters n, Ok idx).

Definition release_reads (up_to_ctx : N) (n : RaftNode) : RaftNode :=
  let released := filter (λ r : N * N * Index, r.1.1 ≤ up_to_ctx) (n_pending_reads n) in
  let n := set_pending_reads
             (filter (λ r : N * N * Index, ¬ r.1.1 ≤ up_to_ctx) (n_pending_reads n)) n in
  set_out (set_o_read_states
    (o_read_states (n_out n) ++ ((λ r : N * N * Index, (r.1.2, r.2)) <$> released)) (n_out n)) n.

Definition read_index (request_id : N) (n : RaftNode) : RaftNode * Result unit ProposeError :=
  if decide (n_role n ≠ Leader) then (n, Err (NotLeader (n_leader_id n)))
  else if decide (RL.term (n_log n) (n_commit n) ≠ Some (node_term n)) then (n, Err NotReady)
  else
    let n := set_read_ctx_counter (n_read_ctx_counter n + 1) n in
    let n := set_pending_reads
      (n_pending_reads n ++ [(n_read_ctx_counter n, request_id, n_commit n)]) n in
    let n := if decide (quorum n = 1%nat) then release_reads (n_read_ctx_counter n) n
             else broadcast_append n in
    (n, Ok tt).

Definition ack_vector (n : RaftNode) : list N :=
  (λ v, if v =? node_id n then n_read_ctx_counter n
        else from_option pr_acked_read_ctx 0 (n_prs n !! v)) <$> voters n.

Definition process_read_acks (n : RaftNode) : RaftNode :=
  match n_pending_reads n with
  | [] => n
  | _ =>
    match sort_desc (ack_vector n) !! (quorum n - 1)%nat with
    | None => n
    | Some quorum_ctx => if 0 <? quorum_ctx then release_reads quorum_ctx n else n
    end
  end.

(** ** Message handlers *)

Definition handle_pre_vote (from : NodeId) (t : Term) (lli : Index) (llt : Term)
    (n : RaftNode) : RaftNode :=
  let leader_alive := bool_decide (is_Some (n_leader_id n))
                      && (n_election_elapsed n <? c_election_tick_min (n_cfg n)) in
  let granted := (node_term n <? t) && log_up_to_date n lli llt && negb leader_alive in
  push_msg (mkMsg (node_id n) from (if granted then t else node_term n) (PreVoteResp granted)) n.

Definition handle_pre_vote_resp (from : NodeId) (t : Term) (granted : bool)
    (n : RaftNode) : RaftNode :=
  if negb granted then
    if node_term n <? t then become_follower t None n else n
  else if negb (bool_decide (n_role n = PreCandidate) && (t =? node_term n + 1)) then n
  else
    let n := set_votes (<[from := true]> (n_votes n)) n in
    if (quorum n <=? count_granted n)%nat then campaign n else n.

Definition handle_request_vote (from : NodeId) (lli : Index) (llt : Term)
    (n : RaftNode) : RaftNode :=
  let vf := hs_voted_for (n_hs n) in
  let can_vote := bool_decide (vf = None) || bool_decide (vf = Some from) in
  let granted := can_vote && log_up_to_date n lli llt in
  let n := if granted then reset_election_timer (set_vote (Some from) n) else n in
  send from (RequestVoteResp granted) n.

Definition handle_request_vote_resp (from : NodeId) (granted : bool)
    (n : RaftNode) : RaftNode :=
  if decide (n_role n ≠ Candidate) then n
  else
    let n := set_votes (<[from := granted]> (n_votes n)) n in
    if (quorum n <=? count_granted n)%nat then become_leader n else n.

Definition reply_append (dst : NodeId) (success : bool) (match_index conflict_index : Index)
    (read_ctx : N) (n : RaftNode) : RaftNode :=
  send dst (AppendEntriesResp success match_index conflict_index read_ctx) n.

(** The loop that walks back to the first index of the conflicting term; at
    most [fuel] iterations, and [conflict - first_index] of them are enough. *)
Fixpoint conflict_walk (l : RaftLog) (t : Term) (fuel : nat) (conflict : Index) : Index :=
  match fuel with
  | O => conflict
  | S fuel =>
    if (RL.first_index l <? conflict) && bool_decide (RL.term l (conflict - 1) = Some t)
    then conflict_walk l t fuel (conflict - 1)
    else conflict
  end.

Definition conflict_hint (l : RaftLog) (t : Term) (prev : Index) : Index :=
  conflict_walk l t (N.to_nat (prev - RL.first_index l)) prev.

(** The loop that finds the first genuinely new entry: the log, truncated if an
    entry conflicts, and the entries to append. [None]: the [assert!] that a
    committed entry is never overwritten fails, or [truncate_from] panics. *)
Fixpoint find_new (l : RaftLog) (commit : Index) (es : list Entry)
    : option (RaftLog * list Entry) :=
  match es with
  | [] => Some (l, [])
  | e :: es' =>
    match RL.term l (e_index e) with
    | Some t =>
      if t =? e_term e then find_new l commit es'
      else if commit <? e_index e then
        l' ← RL.truncate_from l (e_index e); Some (l', es)
      else None
    | None => Some (l, es)
    end
  end.

Definition handle_append_entries (from : NodeId) (prev_log_index : Index)
    (prev_log_term : Term) (es : list Entry) (leader_commit : Index) (read_ctx : N)
    (n : RaftNode) : option RaftNode :=
  let n := set_election_elapsed 0 (set_leader_id (Some from) (set_role Follower n)) in
  let l := n_log n in
  let covered := N.to_nat (snap_index l - prev_log_index) in
  if (prev_log_index <? snap_index l) && (length es <=? covered)%nat then
    Some (reply_append from true (snap_index l) 0 read_ctx n)
  else
    let '(prev_idx, prev_term, es) :=
      if prev_log_index <? snap_index l
      then (snap_index l, snap_term l, drop covered es)
      else (prev_log_index, prev_log_term, es) in
    match RL.term l prev_idx with
    | None => Some (reply_append from false 0 (RL.last_index l + 1) read_ctx n)
    | Some t =>
      if negb (t =? prev_term) then
        Some (reply_append from false 0 (conflict_hint l t prev_idx) read_ctx n)
      else
        '(l', to_append) ← find_new l (n_commit n) es;
        let n := set_log (foldl RL.push l' to_append) n in
        let n := set_out (set_o_append (o_append (n_out n) ++ to_append) (n_out n)) n in
        let new_last := prev_idx + N.of_nat (length es) in
        let commit_target := N.min leader_commit new_last in
        let n := if n_commit n <? commit_target then advance_commit_to commit_target n else n in
        Some (reply_append from true new_last 0 read_ctx n)
    end.

Definition handle_append_resp (from : NodeId) (success : bool)
    (match_index conflict_index : Index) (read_ctx : N) (n : RaftNode) : RaftNode :=
  if decide (n_role n ≠ Leader) then n
  else
    let last := RL.last_index (n_log n) in
    match n_prs n !! from with
    | None => n
    | Some pr =>
      let pr := set_pr_last_resp_tick (n_tick_counter n) pr in
      let pr := set_pr_acked_read_ctx (N.max (pr_acked_read_ctx pr) read_ctx) pr in
      if success then
        let pr := if pr_matched pr <? match_index then set_pr_matched match_index pr else pr in
        let pr := set_pr_next (N.max (pr_next pr) (match_index + 1)) pr in
        let pr := set_pr_inflight (pr_inflight pr - 1) pr in
        let n := set_prs (<[from := pr]> (n_prs n)) n in
        let n := process_read_acks (maybe_advance_commit n) in
        if from_option (λ p, pr_next p <=? last) false (n_prs n !! from)
        then send_append from n else n
      else if 0 <? conflict_index then
        let pr := set_pr_next (N.min (N.max conflict_index 1) (last + 1)) pr in
        let pr := set_pr_inflight 0 pr in
        send_append from (set_prs (<[from := pr]> (n_prs n)) n)
      else set_prs (<[from := pr]> (n_prs n)) n
    end.

Definition handle_install_snapshot (from : NodeId) (s : Snapshot) (n : RaftNode) : RaftNode :=
  let n := set_election_elapsed 0 (set_leader_id (Some from) (set_role Follower n)) in
  if s_last_index s <=? n_commit n then
    send from (InstallSnapshotResp (n_commit n)) n
  else if bool_decide (RL.term (n_log n) (s_last_index s) = Some (s_last_term s)) then
    send from (InstallSnapshotResp (s_last_index s)) (advance_commit_to (s_last_index s) n)
  else
    let n := set_log (RL.reset_to_snapshot (n_log n) (s_last_index s) (s_last_term s)) n in
    let n := set_voters_base (s_voters s) (set_commit (s_last_index s) n) in
    let n := set_snapshot (Some s) n in
    let n := set_out (set_o_snapshot (Some s) (n_out n)) n in
    send from (InstallSnapshotResp (s_last_index s)) n.

Definition handle_install_snapshot_resp (from : NodeId) (last_index : Index)
    (n : RaftNode) : RaftNode :=
  if decide (n_role n ≠ Leader) then n
  else
    match n_prs n !! from with
    | None => n
    | Some pr =>
      let pr := set_pr_last_resp_tick (n_tick_counter n) (set_pr_pending_snapshot false pr) in
      let pr := if pr_matched pr <? last_index then set_pr_matched last_index pr else pr in
      let pr := set_pr_next (N.max (pr_next pr) (last_index + 1)) pr in
      let pr := set_pr_inflight 0 pr in
      send_append from (maybe_advance_commit (set_prs (<[from := pr]> (n_prs n)) n))
    end.

(** The replies of [step] to a sender with a stale term. *)
Definition answer_stale (m : Message) (n : RaftNode) : RaftNode :=
  match m_body m with
  | AppendEntries _ _ _ _ read_ctx =>
    send (m_from m) (AppendEntriesResp false 0 0 read_ctx) n
  | RequestVote _ _ => send (m_from m) (RequestVoteResp false) n
  | _ => n
  end.

(** The leader a message of a newer term announces. *)
Definition announced_leader (m : Message) : option NodeId :=
  match m_body m with
  | AppendEntries _ _ _ _ _ | InstallSnapshot _ => Some (m_from m)
  | _ => None
  end.

(** The final [match] of [step], once the terms agree. *)
Definition dispatch (m : Message) (n : RaftNode) : option RaftNode :=
  let from := m_from m in
  match m_body m with
  | RequestVote lli llt => Some (handle_request_vote from lli llt n)
  | RequestVoteResp granted => Some (handle_request_vote_resp from granted n)
  | AppendEntries pi pt es lc ctx => handle_append_entries from pi pt es lc ctx n
  | AppendEntriesResp ok mi ci ctx => Some (handle_append_resp from ok mi ci ctx n)
  | InstallSnapshot s => Some (handle_install_snapshot from s n)
  | InstallSnapshotResp li => Some (handle_install_snapshot_resp from li n)
  | PreVote lli llt => Some (handle_pre_vote from (m_term m) lli llt n)
  | PreVoteResp granted => Some (handle_pre_vote_resp from (m_term m) granted n)
  end.

Definition step (m : Message) (n : RaftNode) : option RaftNode :=
  match m_body m with
  | PreVote _ _ | PreVoteResp _ => dispatch m n
  | _ =>
    if node_term n <? m_term m then
      dispatch m (become_follower (m_term m) (announced_leader m) n)
    else if m_term m <? node_term n then Some (answer_stale m n)
    else dispatch m n
  end.

(** ** Local compaction *)

Definition node_compact (applied : Index) (sm_data : bytes) (n : RaftNode)
    : RaftNode * option Snapshot :=
  if (applied <=? snap_index (n_log n)) || (n_commit n <? applied) then (n, None)
  else
    match RL.term (n_log n) applied with
    | None => (n, None)
    | Some t =>
      let vs := voters_at n applied in
      let n := set_log (RL.compact (n_log n) applied t) (set_voters_base vs n) in
      let snap := mkSnap applied t vs sm_data in
      (set_snapshot (Some snap) n, Some snap)
    end.
