(* ===== verification/RaftNodeFacts.v ===== *)
(** * Effects of the node's operations

    Every operation of [RaftNode] that does not install entries from a leader
    is summarised by one relation, [eff es n n']: what it may do to the
    configuration, the hard state, the log, the commit index and the output
    batch. The relation is a preorder, so the effect of a composite operation
    is the composition of the effects of its parts. [quiet] is the finer
    relation for operations that only queue replication messages. *)

From S2P Require Import Prelude RaftTypes RaftLog RaftLogFacts RaftNode.
Local Open Scope N_scope.

(** ** Replication messages *)

Definition push_msgs (ms : list Message) (n : RaftNode) : RaftNode :=
  set_out (set_o_messages (o_messages (n_out n) ++ ms) (n_out n)) n.

(** What a node may put in a replication message: only what its log, snapshot
    and commit index hold. *)
Definition repl_msg (n : RaftNode) (m : Message) : Prop :=
  m_from m = node_id n ∧ m_term m = node_term n ∧
  match m_body m with
  | InstallSnapshot s => n_snapshot n = Some s
  | AppendEntries prev pt es lc ctx =>
    RL.term (n_log n) prev = Some pt
    ∧ (∀ k e, es !! k = Some e → RL.get (n_log n) (prev + 1 + N.of_nat k) = Some e)
    ∧ lc = n_commit n ∧ ctx = n_read_ctx_counter n
  | _ => False
  end.

(** Replication progress survives: a follower's acknowledgements are carried
    over, or its record is a fresh one. *)
Definition prs_kept (P P' : gmap NodeId Progress) : Prop :=
  ∀ v pr', P' !! v = Some pr' →
    (∃ pr, P !! v = Some pr ∧ pr_matched pr' = pr_matched pr
       ∧ pr_acked_read_ctx pr' = pr_acked_read_ctx pr
       ∧ pr_last_resp_tick pr' = pr_last_resp_tick pr)
    ∨ (pr_matched pr' = 0 ∧ pr_acked_read_ctx pr' = 0 ∧ pr_last_resp_tick pr' = 0).

Definition quiet (n n' : RaftNode) : Prop :=
  ∃ P ms, n' = set_prs P (push_msgs ms n) ∧ prs_kept (n_prs n) P ∧ Forall (repl_msg n) ms.

Lemma prs_kept_refl P : prs_kept P P.
Proof. intros v pr' H. left. eauto. Qed.

Lemma prs_kept_trans P1 P2 P3 : prs_kept P1 P2 → prs_kept P2 P3 → prs_kept P1 P3.
Proof.
  intros H12 H23 v pr3 H3. destruct (H23 _ _ H3) as [(pr2 & Hp2 & ?&?&?)|?]; [|by right].
  destruct (H12 _ _ Hp2) as [(pr1 & Hp1 & ?&?&?)|(?&?&?)].
  - left. exists pr1. split_and!; congruence.
  - right. split_and!; congruence.
Qed.

#[export] Instance quiet_preorder : PreOrder quiet.
Proof.
  split.
  - intros n. exists (n_prs n), []. split_and!; [|apply prs_kept_refl|done].
    destruct n as [????????????????[]?]. unfold push_msgs, set_prs, set_out, set_o_messages.
    simpl. by rewrite app_nil_r.
  - intros n1 n2 n3 (P & ms & -> & HP & Hms) (P' & ms' & -> & HP' & Hms').
    exists P', (ms ++ ms'). split_and!.
    + unfold push_msgs, set_prs, set_out, set_o_messages. simpl. by rewrite app_assoc.
    + by eapply prs_kept_trans.
    + apply Forall_app. split; [done|]. eapply Forall_impl; [done|]. intros m Hm. exact Hm.
Qed.

Lemma quiet_prs n P : prs_kept (n_prs n) P → quiet n (set_prs P n).
Proof.
  intros HP. exists P, []. split_and!; [|done|done].
  destruct n as [????????????????[]?]. unfold push_msgs, set_prs, set_out, set_o_messages.
  simpl. by rewrite app_nil_r.
Qed.

Lemma quiet_send n P m :
  prs_kept (n_prs n) P → repl_msg n m → quiet n (push_msg m (set_prs P n)).
Proof. intros HP Hm. exists P, [m]. split_and!; [done|done|by constructor]. Qed.

Lemma prs_kept_insert P v pr pr' :
  P !! v = Some pr → pr_matched pr' = pr_matched pr →
  pr_acked_read_ctx pr' = pr_acked_read_ctx pr →
  pr_last_resp_tick pr' = pr_last_resp_tick pr → prs_kept P (<[v := pr']> P).
Proof.
  intros Hv ??? w pr'' Hw. destruct (decide (v = w)) as [->|Hne]; simplify_map_eq; left; eauto.
Qed.

Lemma prs_kept_fresh P v k : P !! v = None → prs_kept P (<[v := progress_new k]> P).
Proof.
  intros Hv w pr'' Hw. destruct (decide (v = w)) as [->|Hne]; simplify_map_eq; [by right|left; eauto].
Qed.

Lemma send_append_quiet peer n : quiet n (send_append peer n).
Proof.
  unfold send_append. destruct (n_prs n !! peer) as [pr|] eqn:Hpr; [|done].
  destruct (_ && _); [done|].
  destruct (N.leb_spec (pr_next (set_pr_pending_snapshot false pr)) (snap_index (n_log n))) as [Hle|Hlt].
  - destruct (n_snapshot n) as [s|] eqn:Hs.
    + apply quiet_send; [by eapply prs_kept_insert|]. split_and!; done.
    + apply quiet_prs. by eapply prs_kept_insert.
  - destruct (RL.term (n_log n) _) as [pt|] eqn:Hpt.
    2: { apply quiet_prs. by eapply prs_kept_insert. }
    simpl in *. set (es := RL.slice _ _ _).
    assert (∀ k e, es !! k = Some e →
      RL.get (n_log n) (pr_next pr - 1 + 1 + N.of_nat k) = Some e) as Hes.
    { intros k e Hk. eapply slice_lookup in Hk; [|lia].
      by replace (pr_next pr - 1 + 1) with (pr_next pr) by lia. }
    destruct es as [|e0 es]; [|destruct (_ <=? _)]; simpl;
      (apply quiet_send; [by eapply prs_kept_insert|]); by split_and!.
Qed.

Lemma foldl_quiet {A} (f : RaftNode → A → RaftNode) xs n :
  (∀ n x, quiet n (f n x)) → quiet n (foldl f n xs).
Proof.
  intros Hf. revert n. induction xs as [|x xs IH]; intros n; simpl; [done|].
  etrans; [apply Hf|apply IH].
Qed.

Lemma foldl_prs_kept {A} (f : gmap NodeId Progress → A → gmap NodeId Progress) xs P :
  (∀ P x, prs_kept P (f P x)) → prs_kept P (foldl f P xs).
Proof.
  intros Hf. revert P. induction xs as [|x xs IH]; intros P; simpl; [apply prs_kept_refl|].
  eapply prs_kept_trans; [apply Hf|apply IH].
Qed.

Lemma sync_progress_quiet n : quiet n (sync_progress_with_voters n).
Proof.
  unfold sync_progress_with_voters. destruct (decide _) as [_|_]; [done|]. apply quiet_prs.
  eapply prs_kept_trans.
  - apply (foldl_prs_kept (λ prs peer, if peer =? node_id n then prs else
      match prs !! peer with
      | Some _ => prs
      | None => <[peer:=progress_new (RL.last_index (n_log n) + 1)]> prs
      end)).
    intros P x. destruct (x =? _); [apply prs_kept_refl|].
    destruct (P !! x) eqn:?; [apply prs_kept_refl|by apply prs_kept_fresh].
  - intros v pr' [Hv _]%map_lookup_filter_Some. left. eauto.
Qed.

Lemma broadcast_append_quiet n : quiet n (broadcast_append n).
Proof.
  unfold broadcast_append. etrans; [apply sync_progress_quiet|].
  apply foldl_quiet. intros. apply send_append_quiet.
Qed.

(** ** The effect relation *)

(** The hard state is unchanged since the batch was opened, or the batch
    carries its current value: what makes persist-before-send sufficient. *)
Definition hs_tracked (n n' : RaftNode) : Prop :=
  (n_hs n' = n_hs n ∧ o_hard_state (n_out n') = o_hard_state (n_out n))
  ∨ o_hard_state (n_out n') = Some (n_hs n').

Definition vote_kept (n n' : RaftNode) : Prop :=
  node_term n ≤ node_term n' ∧
  (node_term n' = node_term n →
   ∀ c, hs_voted_for (n_hs n) = Some c → hs_voted_for (n_hs n') = Some c).

(** The entries an advance of the commit index from [a] to [b] emits. *)
Definition committed_between (l : RaftLog) (a b : Index) : list Entry :=
  omap (RL.get l) (range_incl (a + 1) b).

(** A well-formed message: the entries of an [AppendEntries] follow [prev]. *)
Definition wf_msg (m : Message) : Prop :=
  match m_body m with
  | AppendEntries prev _ es _ _ => consecutive (prev + 1) es
  | _ => True
  end.

Definition wf_sent (id : NodeId) (m : Message) : Prop := m_from m = id ∧ wf_msg m.

Definition sends (n n' : RaftNode) (ms : list Message) : Prop :=
  o_messages (n_out n') = o_messages (n_out n) ++ ms ∧ Forall (wf_sent (node_id n)) ms.

Record eff (es : list Entry) (n n' : RaftNode) : Prop := {
  eff_cfg : n_cfg n' = n_cfg n;
  eff_vote : vote_kept n n';
  eff_hs : hs_tracked n n';
  eff_log : n_log n' = foldl RL.push (n_log n) es;
  eff_append : o_append (n_out n') = o_append (n_out n) ++ es;
  eff_consecutive : consecutive (RL.last_index (n_log n) + 1) es;
  eff_snapshot : n_snapshot n' = n_snapshot n ∧ n_voters_base n' = n_voters_base n
                 ∧ o_snapshot (n_out n') = o_snapshot (n_out n);
  eff_commit : n_commit n ≤ n_commit n';
  eff_committed :
    n_commit n ≤ RL.last_index (n_log n) →
    n_commit n' ≤ RL.last_index (n_log n')
    ∧ o_committed (n_out n')
      = o_committed (n_out n) ++ committed_between (n_log n') (n_commit n) (n_commit n');
  eff_messages : RL.contiguous (n_log n) → ∃ ms, sends n n' ms;
}.

Lemma vote_kept_trans n1 n2 n3 : vote_kept n1 n2 → vote_kept n2 n3 → vote_kept n1 n3.
Proof.
  intros [H1 Hv1] [H2 Hv2]. split; [lia|]. intros Heq c Hc.
  apply Hv2; [lia|]. apply Hv1; [lia|done].
Qed.

Lemma hs_tracked_trans n1 n2 n3 : hs_tracked n1 n2 → hs_tracked n2 n3 → hs_tracked n1 n3.
Proof.
  intros [[H1 Ho1]|H1] [[H2 Ho2]|H2]; unfold hs_tracked; [|by right|right|by right].
  - left. split; congruence.
  - congruence.
Qed.

Lemma committed_between_nil l a : committed_between l a a = [].
Proof. unfold committed_between, range_incl. by rewrite range_nil by lia. Qed.

Lemma range_app a b c : a ≤ b → b ≤ c → range a b ++ range b c = range a c.
Proof.
  intros Hab Hbc. unfold range.
  replace (N.to_nat (c - a)) with (N.to_nat (b - a) + N.to_nat (c - b))%nat by lia.
  rewrite seq_app, fmap_app. f_equal. simpl.
  rewrite <-(Nat.add_0_r (N.to_nat (b - a))).
  rewrite <-fmap_add_seq, <-list_fmap_compose. apply list_fmap_ext. intros; simpl; lia.
Qed.

Lemma committed_between_app l a b c :
  a ≤ b → b ≤ c →
  committed_between l a b ++ committed_between l b c = committed_between l a c.
Proof.
  intros. unfold committed_between, range_incl. rewrite <-omap_app, range_app by lia. done.
Qed.

Lemma last_index_foldl_push l es :
  RL.last_index (foldl RL.push l es) = RL.last_index l + N.of_nat (length es).
Proof. rewrite foldl_push. unfold RL.last_index. simpl. rewrite length_app. lia. Qed.

Lemma get_foldl_push_old l es i :
  i ≤ RL.last_index l → RL.get (foldl RL.push l es) i = RL.get l i.
Proof.
  revert l. induction es as [|e es IH]; intros l Hi; simpl; [done|].
  rewrite IH by (rewrite last_index_push; lia). by apply get_push_old.
Qed.

Lemma committed_between_push l es a b :
  b ≤ RL.last_index l → committed_between (foldl RL.push l es) a b = committed_between l a b.
Proof.
  intros Hb. unfold committed_between. apply list_omap_ext, Forall_Forall2_diag, Forall_forall.
  intros i Hi%elem_of_range_incl. apply get_foldl_push_old. lia.
Qed.

(** Within the log the emitted segment has no gaps. *)
Lemma committed_between_spec l a b :
  RL.contiguous l → snap_index l ≤ a → a ≤ b → b ≤ RL.last_index l →
  consecutive (a + 1) (committed_between l a b)
  ∧ a + N.of_nat (length (committed_between l a b)) = b
  ∧ ∀ e, e ∈ committed_between l a b → RL.get l (e_index e) = Some e.
Proof.
  intros Hc Hs Hab Hb. unfold committed_between, range_incl.
  remember (N.to_nat (b - a)) as k eqn:Hk. revert a Hs Hab Hk.
  induction k as [|k IH]; intros a Hs Hab Hk.
  { rewrite range_nil by lia. simpl. split_and!; [done|lia|].
    intros e He. by apply elem_of_nil in He. }
  rewrite range_cons by lia. csimpl.
  destruct (RL.get l (a + 1)) as [e|] eqn:He; [|apply get_None in He; lia].
  destruct (IH (a + 1)) as (H1 & H2 & H3); [lia..|]. pose proof (get_index _ _ _ Hc He) as Hi.
  split_and!.
  - apply consecutive_cons. done.
  - rewrite length_cons. lia.
  - intros e' [->|He']%elem_of_cons; [by rewrite Hi|auto].
Qed.

Lemma eff_trans es1 es2 n1 n2 n3 : eff es1 n1 n2 → eff es2 n2 n3 → eff (es1 ++ es2) n1 n3.
Proof.
  intros [] []. split.
  - congruence.
  - by eapply vote_kept_trans.
  - by eapply hs_tracked_trans.
  - rewrite foldl_app. congruence.
  - rewrite app_assoc. congruence.
  - apply consecutive_app; [done|]. rewrite eff_log0, last_index_foldl_push in eff_consecutive1.
    by replace (RL.last_index (n_log n1) + 1 + N.of_nat (length es1))
      with (RL.last_index (n_log n1) + N.of_nat (length es1) + 1) by lia.
  - destruct eff_snapshot0 as (?&?&?), eff_snapshot1 as (?&?&?). split_and!; congruence.
  - lia.
  - intros Hle. destruct (eff_committed0 Hle) as [Hle2 Hc2].
    destruct (eff_committed1 Hle2) as [Hle3 Hc3]. split; [done|].
    rewrite Hc3, Hc2, <-app_assoc. f_equal.
    rewrite <-(committed_between_app (n_log n3) (n_commit n1) (n_commit n2)) by lia. f_equal.
    rewrite eff_log1. by rewrite committed_between_push.
  - intros Hc. destruct (eff_messages0 Hc) as (ms1 & Hm1 & Hw1).
    destruct eff_messages1 as (ms2 & Hm2 & Hw2).
    { rewrite eff_log0. by apply contiguous_foldl_push. }
    exists (ms1 ++ ms2). split; [rewrite app_assoc; congruence|].
    apply Forall_app. split; [done|]. unfold node_id in *. by rewrite <-eff_cfg0.
Qed.

Lemma eff_trans_nil_l es n1 n2 n3 : eff [] n1 n2 → eff es n2 n3 → eff es n1 n3.
Proof. intros H1 H2. exact (eff_trans [] es _ _ _ H1 H2). Qed.

Lemma eff_trans_nil_r es n1 n2 n3 : eff es n1 n2 → eff [] n2 n3 → eff es n1 n3.
Proof. intros H1 H2. rewrite <-(app_nil_r es). exact (eff_trans _ _ _ _ _ H1 H2). Qed.

(** An operation that keeps the log, hard state, commit index and the durable
    part of the batch. *)
Lemma eff_calm n n' :
  n_cfg n' = n_cfg n → n_hs n' = n_hs n → n_log n' = n_log n → n_commit n' = n_commit n →
  n_snapshot n' = n_snapshot n → n_voters_base n' = n_voters_base n →
  o_hard_state (n_out n') = o_hard_state (n_out n) → o_append (n_out n') = o_append (n_out n) →
  o_snapshot (n_out n') = o_snapshot (n_out n) →
  o_committed (n_out n') = o_committed (n_out n) →
  (RL.contiguous (n_log n) → ∃ ms, sends n n' ms) → eff [] n n'.
Proof.
  intros Hcfg Hhs Hlog Hcommit Hsnap Hvb Hohs Hoa Hos Hoc Hom. split; try done.
  - unfold vote_kept, node_term. rewrite Hhs. split; [lia|by intros].
  - by left.
  - by rewrite app_nil_r.
  - lia.
  - intros Hle. split; [by rewrite Hlog, Hcommit|].
    by rewrite Hcommit, committed_between_nil, app_nil_r.
Qed.

Lemma sends_nil n n' : o_messages (n_out n') = o_messages (n_out n) → sends n n' [].
Proof. intros Ho. split; [by rewrite app_nil_r|done]. Qed.

Lemma eff_refl n : eff [] n n.
Proof. apply eff_calm; try done. exists []. by apply sends_nil. Qed.

(** Discharges [eff [] n n'] when [n'] differs from [n] in volatile fields only. *)
Ltac calm := apply eff_calm; try done; try (exists []; by apply sends_nil).

Lemma repl_msg_wf n m : RL.contiguous (n_log n) → repl_msg n m → wf_sent (node_id n) m.
Proof.
  intros Hc (Hf & _ & Hb). split; [done|]. unfold wf_msg.
  destruct (m_body m); try done. destruct Hb as (_ & Hes & _).
  intros k e Hk. by eapply get_index, Hes.
Qed.

Lemma quiet_eff n n' : quiet n n' → eff [] n n'.
Proof.
  intros (P & ms & -> & _ & Hms). calm. intros Hc. exists ms. split; [done|].
  eapply Forall_impl; [done|]. intros m. by apply repl_msg_wf.
Qed.

Lemma reset_timer_eq n : ∃ T R,
  reset_election_timer n = set_election_elapsed 0 (set_randomized_timeout T (set_rng R n)).
Proof. unfold reset_election_timer, next_rand. eauto. Qed.

Lemma reset_timer_eff n : eff [] n (reset_election_timer n).
Proof. destruct (reset_timer_eq n) as (T & R & ->). calm. Qed.

(** [become_follower] on a newer term forgets the vote, on the same term keeps it. *)
Lemma become_follower_eq t l n : ∃ T R hs oh,
  become_follower t l n =
    set_election_elapsed 0 (set_randomized_timeout T (set_rng R (set_pending_reads []
      (set_prs ∅ (set_leader_id l (set_role Follower
        (set_out (set_o_hard_state oh (n_out n)) (set_hs hs n)))))))) ∧
  hs = (if node_term n <? t then mkHS t None else n_hs n) ∧
  (oh = Some hs ∨ (hs = n_hs n ∧ oh = o_hard_state (n_out n))).
Proof.
  unfold become_follower.
  set (n1 := if node_term n <? t then _ else _).
  assert (∃ hs oh, n1 = set_out (set_o_hard_state oh (n_out n)) (set_hs hs n) ∧
    hs = (if node_term n <? t then mkHS t None else n_hs n) ∧
    (oh = Some hs ∨ (hs = n_hs n ∧ oh = o_hard_state (n_out n)))) as (hs & oh & -> & Hhs & Hoh).
  { unfold n1, set_vote, set_term, record_hs, node_term.
    destruct n as [? ? [tm vf] ? ? ? ? ? ? ? ? ? ? ? ? ? [] ?]; simpl.
    destruct (N.ltb_spec tm t).
    - destruct (N.eqb_spec tm t); [lia|]. simpl. exists (mkHS t None), (Some (mkHS t None)).
      destruct (decide (vf = None)) as [->|]; simpl; split_and!; try done; by left.
    - eexists _, _. split_and!; [done|done|by right]. }
  set (n2 := set_pending_reads [] _).
  destruct (reset_timer_eq n2) as (T & R & ->). exists T, R, hs, oh. done.
Qed.

Lemma become_follower_eff t l n : eff [] n (become_follower t l n).
Proof.
  destruct (become_follower_eq t l n) as (T & R & hs & oh & -> & Hhs & Hoh). split; try done.
  - unfold vote_kept, node_term. simpl. subst hs. unfold node_term in *.
    destruct (N.ltb_spec (hs_term (n_hs n)) t); simpl; [split; [lia|intros; lia]|split; [lia|done]].
  - destruct Hoh as [->|[-> ->]]; [by right|by left].
  - simpl. by rewrite app_nil_r.
  - intros Hle. simpl. split; [done|]. by rewrite committed_between_nil, app_nil_r.
  - exists []. by apply sends_nil.
Qed.

Lemma advance_commit_eff c n :
  n_commit n ≤ c → c ≤ RL.last_index (n_log n) → eff [] n (advance_commit_to c n).
Proof.
  intros Hle Hlast. unfold advance_commit_to.
  set (n1 := set_out _ _).
  assert (eff [] n n1) as Heff.
  { split; try done.
    - by left.
    - simpl. by rewrite app_nil_r.
    - exists []. by apply sends_nil. }
  destruct (existsb _ _); [|done].
  eapply eff_trans_nil_l; [done|]. apply become_follower_eff.
Qed.

Lemma maybe_advance_commit_eff n : eff [] n (maybe_advance_commit n).
Proof.
  unfold maybe_advance_commit. destruct (decide _) as [_|_]; [apply eff_refl|].
  destruct (sort_desc _ !! _) as [c|]; [|apply eff_refl].
  destruct (n_commit n <? c) eqn:Hc; simpl; [|apply eff_refl].
  case_bool_decide as Ht; [|apply eff_refl].
  apply term_bounds in Ht. apply advance_commit_eff; lia.
Qed.

Lemma append_local_eff p n :
  let e := mkEntry (node_term n) (RL.last_index (n_log n) + 1) p in
  eff [e] n (append_local p n).1.
Proof.
  intros e. unfold append_local. simpl. set (n1 := set_out _ _).
  assert (eff [e] n n1) as Heff.
  { split; try done.
    - by left.
    - apply consecutive_cons. split; [done|]. intros k e' Hk. done.
    - intros Hle. simpl. rewrite last_index_push. split; [lia|].
      by rewrite committed_between_nil, app_nil_r.
    - exists []. by apply sends_nil. }
  eapply eff_trans_nil_r; [|apply quiet_eff, broadcast_append_quiet].
  eapply eff_trans_nil_r; [done|apply maybe_advance_commit_eff].
Qed.

(** ** Effects of the composite operations *)

(** The candidate right after it bumped its term and voted for itself. *)
Definition campaign_start (n : RaftNode) : RaftNode :=
  let hs := mkHS (node_term n + 1) (Some (node_id n)) in
  set_votes {[node_id n := true]} (set_leader_id None (set_role Candidate
    (set_out (set_o_hard_state (Some hs) (n_out n)) (set_hs hs n)))).

Lemma campaign_unfold n :
  campaign n =
    let n1 := campaign_start n in
    if (quorum n1 <=? count_granted n1)%nat then become_leader n1
    else send_to_voters (node_term n1)
           (RequestVote (RL.last_index (n_log n)) (RL.last_term (n_log n))) n1.
Proof.
  unfold campaign. set (n0 := set_vote _ _).
  assert (n0 = set_out (set_o_hard_state (Some (mkHS (node_term n + 1) (Some (node_id n))))
      (n_out n)) (set_hs (mkHS (node_term n + 1) (Some (node_id n))) n)) as ->; [|done].
  unfold n0, set_vote, set_term, record_hs, node_term, node_id.
  destruct n as [? ? [tm vf] ? ? ? ? ? ? ? ? ? ? ? ? ? [] ?]. cbn -[N.add].
  destruct (N.eqb_spec tm (tm + 1)); [lia|]. cbn -[N.add].
  destruct (decide (vf = Some _)) as [->|]; simpl; done.
Qed.

Lemma campaign_start_eff n : eff [] n (campaign_start n).
Proof.
  split; try done.
  - unfold vote_kept, campaign_start, node_term. simpl. split; [lia|]. intros; lia.
  - by right.
  - simpl. by rewrite app_nil_r.
  - intros Hle. simpl. split; [done|]. by rewrite committed_between_nil, app_nil_r.
  - exists []. by apply sends_nil.
Qed.

(** The messages of a campaign. *)
Lemma send_to_voters_eq t body n : ∃ ms,
  send_to_voters t body n = push_msgs ms n
  ∧ Forall (λ m, m_from m = node_id n ∧ m_term m = t ∧ m_body m = body ∧ m_to m ∈ voters n
             ∧ m_to m ≠ node_id n) ms.
Proof.
  unfold send_to_voters. set (vs := voters n).
  assert (∀ vs' n', (∃ ms, n' = push_msgs ms n ∧ Forall (λ m, m_from m = node_id n ∧ m_term m = t
      ∧ m_body m = body ∧ m_to m ∈ vs ∧ m_to m ≠ node_id n) ms) → vs' ⊆ vs →
    ∃ ms, foldl (λ n peer, if peer =? node_id n then n
      else push_msg (mkMsg (node_id n) peer t body) n) n' vs' = push_msgs ms n
      ∧ Forall (λ m, m_from m = node_id n ∧ m_term m = t
      ∧ m_body m = body ∧ m_to m ∈ vs ∧ m_to m ≠ node_id n) ms) as Hgen.
  { induction vs' as [|v vs' IH]; intros n' (ms & -> & Hms) Hsub; simpl; [eauto|].
    apply IH; [|set_solver].
    change (node_id (push_msgs ms n)) with (node_id n).
    destruct (N.eqb_spec v (node_id n)); [eauto|].
    eexists (ms ++ [_]). split.
    - unfold push_msg, push_msgs, set_out, set_o_messages. simpl. by rewrite app_assoc.
    - apply Forall_app. split; [done|]. constructor; [|done]. simpl. split_and!; try done.
      set_solver. }
  apply Hgen; [|done]. exists []. split; [|done].
  destruct n as [????????????????[]?]. unfold push_msgs, set_out, set_o_messages.
  simpl. by rewrite app_nil_r.
Qed.

(** Messages other than [AppendEntries] are always well formed. *)
Definition not_append (body : MessageBody) : Prop :=
  match body with AppendEntries _ _ _ _ _ => False | _ => True end.

Lemma wf_not_append m : not_append (m_body m) → wf_msg m.
Proof. unfold wf_msg. by destruct (m_body m). Qed.

Lemma push_msgs_eff ms n : Forall (wf_sent (node_id n)) ms → eff [] n (push_msgs ms n).
Proof. intros Hms. calm. by exists ms. Qed.

Lemma send_to_voters_eff t body n : not_append body → eff [] n (send_to_voters t body n).
Proof.
  intros Hb. destruct (send_to_voters_eq t body n) as (ms & -> & Hms). apply push_msgs_eff.
  eapply Forall_impl; [done|]. intros m (?&_&Hm&_). split; [done|].
  apply wf_not_append. by rewrite Hm.
Qed.

Lemma become_leader_eff n : ∃ es, eff es n (become_leader n).
Proof.
  unfold become_leader. set (n1 := set_prs _ (set_read_ctx_counter 0 _)).
  assert (eff [] n n1) as H1 by calm.
  eexists. eapply eff_trans_nil_l; [done|].
  eapply eff_trans_nil_r; [apply append_local_eff|apply quiet_eff, broadcast_append_quiet].
Qed.

Lemma campaign_eff n : ∃ es, eff es n (campaign n).
Proof.
  rewrite campaign_unfold. simpl. pose proof (campaign_start_eff n).
  destruct (_ <=? _)%nat.
  - destruct (become_leader_eff (campaign_start n)) as [es Hes]. exists es.
    by eapply eff_trans_nil_l.
  - exists []. eapply eff_trans_nil_l; [done|]. by apply send_to_voters_eff.
Qed.

Lemma campaign_pre_eff n : ∃ es, eff es n (campaign_pre n).
Proof.
  unfold campaign_pre. set (n1 := set_votes _ _).
  assert (eff [] n n1) as H1 by calm.
  destruct (_ <=? _)%nat.
  - destruct (campaign_eff n1) as [es Hes]. exists es. by eapply eff_trans_nil_l.
  - exists []. eapply eff_trans_nil_l; [done|]. by apply send_to_voters_eff.
Qed.

(** The election branch of [tick]. *)
Lemma election_tick_eff n : ∃ es, eff es n
  (if n_randomized_timeout n <=? n_election_elapsed n then
    let n := reset_election_timer n in
    if decide (node_id n ∈ voters n) then
      if c_pre_vote (n_cfg n) then campaign_pre n else campaign n
    else n
  else n).
Proof.
  destruct (_ <=? _); [|exists []; apply eff_refl].
  pose proof (reset_timer_eff n) as H1. simpl.
  destruct (decide _) as [_|_]; [|eauto].
  destruct (c_pre_vote _).
  - destruct (campaign_pre_eff (reset_election_timer n)) as [es Hes].
    exists es. by eapply eff_trans_nil_l.
  - destruct (campaign_eff (reset_election_timer n)) as [es Hes].
    exists es. by eapply eff_trans_nil_l.
Qed.

Lemma tick_eff n : ∃ es, eff es n (tick n).
Proof.
  unfold tick. set (n1 := set_tick_counter _ _).
  assert (eff [] n n1) as H1 by calm.
  set (n2 := set_election_elapsed _ _).
  assert (eff [] n n2) as H2 by calm.
  assert (∃ es, eff es n (if n_randomized_timeout n2 <=? n_election_elapsed n2 then
    let n := reset_election_timer n2 in
    if decide (node_id n ∈ voters n) then
      if c_pre_vote (n_cfg n) then campaign_pre n else campaign n
    else n else n2)).
  { destruct (election_tick_eff n2) as [es Hes]. exists es. by eapply eff_trans_nil_l. }
  destruct (n_role n1); [done..|].
  exists []. set (n3 := set_heartbeat_elapsed _ n1).
  assert (eff [] n n3) as H3 by calm.
  destruct (c_heartbeat_tick (n_cfg n3) <=? n_heartbeat_elapsed n3); [|exact H3].
  eapply eff_trans_nil_l; [|apply quiet_eff, broadcast_append_quiet]. calm.
Qed.

Lemma propose_eff data n : ∃ es, eff es n (propose data n).1.
Proof.
  unfold propose. destruct (decide _) as [_|_]; simpl; [exists []; apply eff_refl|].
  eexists. exact (append_local_eff (Normal data) n).
Qed.

Lemma propose_conf_change_eff cc n : ∃ es, eff es n (propose_conf_change cc n).1.
Proof.
  unfold propose_conf_change. destruct (decide _) as [_|_]; simpl; [exists []; apply eff_refl|].
  destruct (existsb _ _); simpl; [exists []; apply eff_refl|].
  eexists. eapply eff_trans_nil_r; [exact (append_local_eff (ConfChangeP cc) n)|apply quiet_eff, sync_progress_quiet].
Qed.

Lemma release_reads_eff c n : eff [] n (release_reads c n).
Proof. unfold release_reads. calm. Qed.

Lemma read_index_eff r n : eff [] n (read_index r n).1.
Proof.
  unfold read_index. destruct (decide _) as [_|_]; simpl; [apply eff_refl|].
  destruct (decide _) as [_|_]; simpl; [apply eff_refl|].
  set (n1 := set_pending_reads _ _).
  assert (eff [] n n1) as H1 by calm.
  destruct (decide _) as [_|_]; simpl.
  - eapply eff_trans_nil_l; [done|apply release_reads_eff].
  - eapply eff_trans_nil_l; [done|apply quiet_eff, broadcast_append_quiet].
Qed.

Lemma process_read_acks_eff n : eff [] n (process_read_acks n).
Proof.
  unfold process_read_acks. destruct (n_pending_reads n); [apply eff_refl|].
  destruct (sort_desc _ !! _); [|apply eff_refl].
  destruct (0 <? _); [apply release_reads_eff|apply eff_refl].
Qed.

Lemma handle_append_resp_eff from ok mi ci ctx n :
  eff [] n (handle_append_resp from ok mi ci ctx n).
Proof.
  unfold handle_append_resp. destruct (decide _) as [_|_]; [apply eff_refl|].
  destruct (n_prs n !! from) as [pr|]; [|apply eff_refl].
  destruct ok; [|destruct (0 <? ci)].
  - match goal with |- context [maybe_advance_commit ?x] => set (n1 := x) end.
    assert (eff [] n n1) as H1 by calm.
    assert (eff [] n (process_read_acks (maybe_advance_commit n1))) as H2.
    { eapply eff_trans_nil_l; [|apply process_read_acks_eff].
      eapply eff_trans_nil_l; [done|apply maybe_advance_commit_eff]. }
    destruct (from_option _ _ _); [|done].
    eapply eff_trans_nil_l; [done|apply quiet_eff, send_append_quiet].
  - eapply eff_trans_nil_l; [|apply quiet_eff, send_append_quiet]. calm.
  - calm.
Qed.

Lemma handle_install_snapshot_resp_eff from li n :
  eff [] n (handle_install_snapshot_resp from li n).
Proof.
  unfold handle_install_snapshot_resp. destruct (decide _) as [_|_]; [apply eff_refl|].
  destruct (n_prs n !! from) as [pr|]; [|apply eff_refl].
  eapply eff_trans_nil_l; [|apply quiet_eff, send_append_quiet].
  eapply eff_trans_nil_l; [|apply maybe_advance_commit_eff]. calm.
Qed.

Lemma set_vote_granted_eff from n :
  hs_voted_for (n_hs n) = None ∨ hs_voted_for (n_hs n) = Some from →
  eff [] n (set_vote (Some from) n).
Proof.
  intros Hcan. unfold set_vote. destruct (decide _) as [|Hne]; [apply eff_refl|].
  split; try done.
  - unfold vote_kept, node_term. simpl. split; [lia|]. intros _ c Hc.
    destruct Hcan; congruence.
  - by right.
  - simpl. by rewrite app_nil_r.
  - intros Hle. simpl. split; [done|]. by rewrite committed_between_nil, app_nil_r.
  - exists []. by apply sends_nil.
Qed.

Lemma send_eff dst body n : not_append body → eff [] n (send dst body n).
Proof.
  intros Hb. apply (push_msgs_eff [mkMsg (node_id n) dst (node_term n) body]).
  constructor; [|done]. split; [done|]. by apply wf_not_append.
Qed.

Lemma handle_request_vote_eff from lli llt n :
  eff [] n (handle_request_vote from lli llt n).
Proof.
  unfold handle_request_vote.
  destruct (bool_decide (_ = None) || bool_decide (_ = Some from)) eqn:Hcan; simpl;
    [|by apply send_eff].
  destruct (log_up_to_date n lli llt); [|by apply send_eff].
  eapply eff_trans_nil_l; [|by apply send_eff]. eapply eff_trans_nil_l; [|apply reset_timer_eff].
  apply set_vote_granted_eff. apply orb_true_iff in Hcan as [H|H]; apply bool_decide_eq_true in H; auto.
Qed.

Lemma handle_request_vote_resp_eff from g n :
  ∃ es, eff es n (handle_request_vote_resp from g n).
Proof.
  unfold handle_request_vote_resp. destruct (decide _) as [_|_]; [exists []; apply eff_refl|].
  set (n1 := set_votes _ n). assert (eff [] n n1) as H1 by calm.
  destruct (_ <=? _)%nat; [|eauto].
  destruct (become_leader_eff n1) as [es Hes]. exists es. by eapply eff_trans_nil_l.
Qed.

Lemma handle_pre_vote_resp_eff from t g n :
  ∃ es, eff es n (handle_pre_vote_resp from t g n).
Proof.
  unfold handle_pre_vote_resp. destruct (negb g).
  { exists []. destruct (_ <? _); [apply become_follower_eff|apply eff_refl]. }
  destruct (negb _); [exists []; apply eff_refl|].
  set (n1 := set_votes _ n). assert (eff [] n n1) as H1 by calm.
  destruct (_ <=? _)%nat; [|eauto].
  destruct (campaign_eff n1) as [es Hes]. exists es. by eapply eff_trans_nil_l.
Qed.

Lemma answer_stale_eff m n : eff [] n (answer_stale m n).
Proof. unfold answer_stale. destruct (m_body m); first [apply eff_refl|by apply send_eff]. Qed.

(** ** Entries installed from a leader *)

(** The state in which a follower answers its leader. *)
Definition heard_from (leader : NodeId) (n : RaftNode) : RaftNode :=
  set_election_elapsed 0 (set_leader_id (Some leader) (set_role Follower n)).

Lemma heard_from_eff leader n : eff [] n (heard_from leader n).
Proof. calm. Qed.

(** A follower's node after it took over the log [l'], appended [ta] to it and
    moved its commit index to [c]. *)
Definition installed (l' : RaftLog) (ta : list Entry) (c : Index) (n : RaftNode) : RaftNode :=
  let l := foldl RL.push l' ta in
  set_out (set_o_committed (o_committed (n_out n) ++ committed_between l (n_commit n) c)
    (set_o_append (o_append (n_out n) ++ ta) (n_out n))) (set_commit c (set_log l n)).

Lemma advance_commit_follower c n :
  n_role n ≠ Leader →
  advance_commit_to c n =
    set_out (set_o_committed (o_committed (n_out n) ++ committed_between (n_log n) (n_commit n) c)
      (n_out n)) (set_commit c n).
Proof.
  intros Hrole. unfold advance_commit_to.
  replace (existsb _ _) with false; [done|]. symmetry. apply not_true_iff_false.
  rewrite existsb_exists. intros (e & _ & He). apply andb_true_iff in He as [_ He].
  by apply bool_decide_eq_true in He.
Qed.

(** Where the new entries of a request start: at [prev], or at the snapshot
    base when the request reaches below it. *)
Definition rebase (l : RaftLog) (prev : Index) (pt : Term) (es : list Entry)
    : Index * Term * list Entry :=
  if prev <? snap_index l
  then (snap_index l, snap_term l, drop (N.to_nat (snap_index l - prev)) es)
  else (prev, pt, es).

(** The two ways [handle_append_entries] can end without a panic: an answer
    that leaves the log alone, or the installation of the request. *)
Lemma handle_append_entries_cases from pi pt es lc ctx n n' :
  handle_append_entries from pi pt es lc ctx n = Some n' →
  let n0 := heard_from from n in
  let l := n_log n in
  let '(i, t, es') := rebase l pi pt es in
  (∃ ci, n' = reply_append from false 0 ci ctx n0 ∧ RL.term l i ≠ Some t)
  ∨ (n' = reply_append from true (snap_index l) 0 ctx n0 ∧ pi < snap_index l
     ∧ pi + N.of_nat (length es) ≤ snap_index l)
  ∨ (∃ l' ta, RL.term l i = Some t ∧ find_new l (n_commit n) es' = Some (l', ta)
     ∧ n' = reply_append from true (i + N.of_nat (length es')) 0 ctx
              (installed l' ta (N.max (n_commit n) (N.min lc (i + N.of_nat (length es')))) n0)).
Proof.
  unfold handle_append_entries. fold (heard_from from n). set (n0 := heard_from from n).
  change (n_log n0) with (n_log n). change (n_commit n0) with (n_commit n).
  set (l := n_log n). simpl.
  fold (rebase l pi pt es). destruct (rebase l pi pt es) as [[i t] es'] eqn:Hrb.
  destruct ((pi <? snap_index l) && (length es <=? N.to_nat (snap_index l - pi))%nat) eqn:Hcov.
  { intros [= <-]. right; left. split; [done|]. lia. }
  destruct (RL.term l i) as [t'|] eqn:Ht.
  2: { intros [= <-]. left. eauto. }
  destruct (N.eqb_spec t' t) as [->|Hne]; simpl.
  2: { intros [= <-]. left. eexists. split; [done|]. congruence. }
  destruct (find_new l (n_commit n) es') as [[l' ta]|] eqn:Hfn; simpl; [|done].
  intros [= <-]. right; right. exists l', ta. split_and!; try done. f_equal.
  set (target := N.min lc (i + N.of_nat (length es'))).
  destruct (N.ltb_spec (n_commit n) target) as [Hlt|Hge].
  - rewrite advance_commit_follower by done. rewrite N.max_r by lia. done.
  - rewrite N.max_l by lia. unfold installed. rewrite committed_between_nil, app_nil_r.
    done.
Qed.

Lemma find_new_spec l c i es l' ta :
  RL.contiguous l → consecutive i es → snap_index l < i → i ≤ RL.last_index l + 1 →
  find_new l c es = Some (l', ta) →
  ∃ k, (k ≤ length es)%nat ∧ ta = drop k es ∧
    (∀ j e, (j < k)%nat → es !! j = Some e → RL.term l (i + N.of_nat j) = Some (e_term e)) ∧
    ((k = length es ∧ l' = l) ∨
     ((k < length es)%nat ∧ i + N.of_nat k ≤ RL.last_index l + 1 ∧
      (i + N.of_nat k ≤ RL.last_index l → c < i + N.of_nat k) ∧
      l' = mkLog (snap_index l) (snap_term l) (take (RL.pos l (i + N.of_nat k)) (entries l)))).
Proof.
  intros Hc. revert i. induction es as [|e es IH]; intros i Hes Hsi Hi; simpl.
  { intros [= <- <-]. exists 0%nat. split_and!; [simpl; lia|done|intros; lia|by left]. }
  apply consecutive_cons in Hes as [He Hes]. rewrite He.
  destruct (RL.term l i) as [t|] eqn:Ht.
  - destruct (N.eqb_spec t (e_term e)) as [->|Hne].
    + apply term_bounds in Ht as Hb. intros Hf.
      destruct (IH (i + 1) Hes) as (k & Hk & -> & Hj & Hl'); [lia|lia|done|].
      exists (S k). split_and!; [simpl; lia|done| |].
      * intros [|j] e' Hlt Hlk; simplify_eq/=.
        -- rewrite N.add_0_r. done.
        -- rewrite <-(Hj j e') by (done || lia). f_equal. lia.
      * replace (i + N.of_nat (S k)) with (i + 1 + N.of_nat k) by lia. simpl.
        destruct Hl' as [[-> ->]|(?&?&?&->)]; [by left|right]. split_and!; [lia|done..].
    + destruct (N.ltb_spec c i); [|done].
      destruct (RL.truncate_from l i) as [l1|] eqn:Htr; simpl; [|done].
      intros [= <- <-]. apply truncate_from_Some in Htr as [_ ->]. apply term_bounds in Ht.
      exists 0%nat. replace (i + N.of_nat 0) with i by lia.
      split_and!; [simpl; lia|done|intros; lia|]. right. split_and!; [simpl; lia|lia|done|done].
  - intros [= <- <-]. exists 0%nat. replace (i + N.of_nat 0) with i by lia.
    split_and!; [simpl; lia|done|intros; lia|]. right.
    assert (RL.last_index l < i) as Hgt.
    { destruct (decide (RL.last_index l < i)); [done|].
      destruct (term_is_Some l i) as [? Hs]; [lia|congruence]. }
    split_and!; [simpl; lia|lia|intros; lia|].
    rewrite take_ge; [by destruct l|]. unfold RL.pos, RL.last_index in *. lia.
Qed.
