(* ===== verification/RaftNodeInv.v ===== *)
(** * Invariants of a single Raft node

    [node_ok] is the well-formedness invariant of [RaftNode]: a contiguous log,
    a commit index between the snapshot base and the log's end, and a retained
    snapshot that matches the base. Every entry point of the core preserves it,
    whatever sequence of ticks, messages, proposals, reads and compactions the
    host drives. On top of it: the commit index and term never regress, a vote
    is cast at most once per term, committed entries are never rewritten, and
    the batch of committed entries is exactly the log segment between the old
    and the new commit index. *)

From S2P Require Import Prelude RaftTypes RaftLog RaftLogFacts RaftNode RaftNodeFacts.
Local Open Scope N_scope.

Record node_ok (n : RaftNode) : Prop := {
  ok_contiguous : RL.contiguous (n_log n);
  ok_commit : snap_index (n_log n) ≤ n_commit n ≤ RL.last_index (n_log n);
  ok_snapshot : match n_snapshot n with
                | Some s => s_last_index s = snap_index (n_log n)
                            ∧ s_last_term s = snap_term (n_log n)
                | None => snap_index (n_log n) = 0
                end;
}.

(** The outbox holds only well-formed messages of this node. *)
Definition outbox_ok (n : RaftNode) : Prop :=
  Forall (wf_sent (node_id n)) (o_messages (n_out n)).

(** Committed entries stay where they are, unless a snapshot covers them. *)
Definition committed_kept (n n' : RaftNode) : Prop :=
  ∀ i, snap_index (n_log n') < i → i ≤ n_commit n → RL.get (n_log n') i = RL.get (n_log n) i.

(** What the operation hands to the state machine: the next entries of the log,
    in order and without gaps, up to the new commit index; or a snapshot that
    jumps to it. *)
Definition delivers (n n' : RaftNode) : Prop :=
  (∃ es, o_committed (n_out n') = o_committed (n_out n) ++ es
     ∧ o_snapshot (n_out n') = o_snapshot (n_out n)
     ∧ consecutive (n_commit n + 1) es ∧ n_commit n' = n_commit n + N.of_nat (length es)
     ∧ ∀ e, e ∈ es → RL.get (n_log n') (e_index e) = Some e)
  ∨ (∃ s, o_snapshot (n_out n') = Some s ∧ s_last_index s = n_commit n'
       ∧ n_commit n < n_commit n' ∧ o_committed (n_out n') = o_committed (n_out n)).

(** The one-step guarantee of every operation on a well-formed node. *)
Record guarantee (n n' : RaftNode) : Prop := {
  g_ok : node_ok n';
  g_outbox : outbox_ok n → outbox_ok n';
  g_cfg : n_cfg n' = n_cfg n;
  g_vote : vote_kept n n';
  g_hs : hs_tracked n n';
  g_commit : n_commit n ≤ n_commit n';
  g_snap : snap_index (n_log n) ≤ snap_index (n_log n');
  g_kept : committed_kept n n';
  g_delivers : delivers n n';
}.

Section guarantees.
Implicit Types n : RaftNode.

Lemma eff_guarantee es n n' : node_ok n → eff es n n' → guarantee n n'.
Proof.
  intros [Hc [Hlo Hhi] Hs] Heff. destruct (eff_committed _ _ _ Heff Hhi) as [Hhi' Hcm].
  pose proof (eff_log _ _ _ Heff) as Hlog.
  pose proof (eff_consecutive _ _ _ Heff) as Hcons.
  pose proof (eff_commit _ _ _ Heff) as Hcommit.
  destruct (eff_snapshot _ _ _ Heff) as (Hsn & _ & _).
  split; [split| | | | | | | |].
  - rewrite Hlog. by apply contiguous_foldl_push.
  - split; [|done]. rewrite Hlog, foldl_push. simpl. lia.
  - rewrite Hsn, Hlog, foldl_push. simpl. done.
  - intros Ho. destruct (eff_messages _ _ _ Heff Hc) as (ms & Hm & Hw).
    unfold outbox_ok in *. rewrite Hm. unfold node_id in *.
    rewrite (eff_cfg _ _ _ Heff). by apply Forall_app.
  - by eapply eff_cfg.
  - by eapply eff_vote.
  - by eapply eff_hs.
  - done.
  - rewrite Hlog, foldl_push. simpl. lia.
  - intros i _ Hi. rewrite Hlog. apply get_foldl_push_old. lia.
  - left. destruct (committed_between_spec (n_log n') (n_commit n) (n_commit n'))
      as (H1 & H2 & H3); [|rewrite Hlog, foldl_push; simpl; lia|done..|].
    { rewrite Hlog. by apply contiguous_foldl_push. }
    eexists. split_and!; [exact Hcm|by eapply eff_snapshot|done|lia|done].
Qed.

(** A change of role, leader or hard state that comes before the real work of a
    handler: the log, commit index and the rest of the batch are as they were. *)
Record prelim n1 n2 : Prop := {
  pre_cfg : n_cfg n2 = n_cfg n1;
  pre_log : n_log n2 = n_log n1;
  pre_commit : n_commit n2 = n_commit n1;
  pre_snapshot : n_snapshot n2 = n_snapshot n1;
  pre_out : set_o_hard_state None (n_out n2) = set_o_hard_state None (n_out n1);
  pre_vote : vote_kept n1 n2;
  pre_hs : hs_tracked n1 n2;
}.

Lemma heard_from_prelim leader n : prelim n (heard_from leader n).
Proof. split; try done. by left. Qed.

Lemma become_follower_prelim t l n : prelim n (become_follower t l n).
Proof.
  pose proof (become_follower_eff t l n) as Heff.
  pose proof (eff_vote _ _ _ Heff). pose proof (eff_hs _ _ _ Heff).
  destruct (become_follower_eq t l n) as (T & R & hs & oh & Heq & _).
  rewrite Heq in *. by split.
Qed.

Lemma prelim_ok n1 n2 : prelim n1 n2 → node_ok n1 → node_ok n2.
Proof.
  intros [_ Hl Hc Hs _ _ _] [H1 H2 H3]. split; by rewrite ?Hl, ?Hc, ?Hs.
Qed.

Lemma prelim_guarantee n1 n2 n3 : prelim n1 n2 → guarantee n2 n3 → guarantee n1 n3.
Proof.
  intros [Hcfg Hlog Hc Hs Ho Hv Hh] [Hok3 Hob3 Hcfg3 Hv3 Hh3 Hcm3 Hsn3 Hk3 Hd3].
  assert (o_messages (n_out n2) = o_messages (n_out n1)) as Hm
    by (by apply (f_equal o_messages) in Ho).
  assert (o_committed (n_out n2) = o_committed (n_out n1)) as Hoc
    by (by apply (f_equal o_committed) in Ho).
  assert (o_snapshot (n_out n2) = o_snapshot (n_out n1)) as Hos
    by (by apply (f_equal o_snapshot) in Ho).
  split; [done| |congruence|by eapply vote_kept_trans|by eapply hs_tracked_trans|lia
    |by rewrite <-Hlog| |].
  - intros Hob. apply Hob3. unfold outbox_ok, node_id in *. by rewrite Hm, Hcfg.
  - intros i Hi Hle. rewrite Hk3 by (done || lia). by rewrite Hlog.
  - unfold delivers in *. by rewrite Hc, Hoc, Hos in Hd3.
Qed.

(** ** Handlers that install state from a leader *)

(** The log a follower ends up with when it accepts a request that matches its
    log at [i]: still contiguous, long enough for what it acknowledges, and
    unchanged up to the commit index. *)
Lemma find_new_log i t es l' ta n :
  node_ok n → consecutive (i + 1) es → RL.term (n_log n) i = Some t →
  find_new (n_log n) (n_commit n) es = Some (l', ta) →
  let l2 := foldl RL.push l' ta in
  snap_index l2 = snap_index (n_log n) ∧ snap_term l2 = snap_term (n_log n)
  ∧ RL.contiguous l2
  ∧ i + N.of_nat (length es) ≤ RL.last_index l2 ∧ n_commit n ≤ RL.last_index l2
  ∧ (∀ j, j ≤ n_commit n → RL.get l2 j = RL.get (n_log n) j).
Proof.
  intros [Hc [Hlo Hhi] Hs] Hes Ht Hfn. apply term_bounds in Ht as Hb.
  destruct (find_new_spec _ _ (i + 1) _ _ _ Hc Hes ltac:(lia) ltac:(lia) Hfn)
    as (k & Hk & -> & Hj & [[-> ->]|(Hk' & Hle & Htr & ->)]).
  - rewrite drop_all. simpl. split_and!; try done.
    destruct (decide (length es = 0)%nat); [lia|].
    destruct (lookup_lt_is_Some_2 es (length es - 1)) as [e He]; [lia|].
    apply Hj in He; [|lia]. apply term_bounds in He. lia.
  - assert (RL.last_index (mkLog (snap_index (n_log n)) (snap_term (n_log n))
      (take (RL.pos (n_log n) (i + 1 + N.of_nat k)) (entries (n_log n)))) = i + N.of_nat k) as Hli.
    { unfold RL.last_index, RL.pos in *. simpl. rewrite length_take. lia. }
    intros l2. unfold l2. rewrite last_index_foldl_push, Hli, length_drop.
    assert (n_commit n ≤ i + N.of_nat k) as Hck.
    { destruct (decide (i + 1 + N.of_nat k ≤ RL.last_index (n_log n))); lia. }
    split_and!; [by rewrite foldl_push|by rewrite foldl_push| |lia|lia|].
    + apply contiguous_foldl_push.
      * apply contiguous_consecutive. simpl. by apply consecutive_take.
      * rewrite Hli. apply (consecutive_drop _ _ k) in Hes.
        by replace (i + N.of_nat k + 1) with (i + 1 + N.of_nat k) by lia.
    + intros j Hjc. rewrite get_foldl_push_old by lia.
      apply option_eq. intros e. rewrite !get_Some. simpl.
      change (RL.pos (mkLog _ _ _) j) with (RL.pos (n_log n) j).
      rewrite lookup_take_Some. unfold RL.pos.
      split; [intros (?&?&?); done|]. intros [??]. split_and!; [done..|lia].
Qed.

Lemma installed_guarantee from i t es l' ta lc ctx n :
  node_ok n → consecutive (i + 1) es →
  RL.term (n_log n) i = Some t → find_new (n_log n) (n_commit n) es = Some (l', ta) →
  guarantee n (reply_append from true (i + N.of_nat (length es)) 0 ctx
    (installed l' ta (N.max (n_commit n) (N.min lc (i + N.of_nat (length es)))) n)).
Proof.
  intros Hok Hes Ht Hfn.
  destruct (find_new_log i t es l' ta n Hok Hes Ht Hfn) as (Hsi & Hst & Hc' & Hl1 & Hl2 & Hg).
  destruct Hok as [Hc [Hlo Hhi] Hs].
  split; [split| | | | | | | |]; simpl; try done.
  - rewrite Hsi. lia.
  - by rewrite Hsi, Hst.
  - intros Ho. unfold outbox_ok. simpl. apply Forall_app. split; [done|].
    constructor; [|done]. by split.
  - by left.
  - lia.
  - rewrite Hsi. lia.
  - intros j _ Hj. by apply Hg.
  - left. destruct (committed_between_spec (foldl RL.push l' ta) (n_commit n)
      (N.max (n_commit n) (N.min lc (i + N.of_nat (length es))))) as (H1 & H2 & H3);
      [done|lia|lia|lia|].
    eexists. simpl. split_and!; [done|done|done|lia|done].
Qed.

Lemma rebase_wf l pi pt es i t es' :
  rebase l pi pt es = (i, t, es') → consecutive (pi + 1) es → consecutive (i + 1) es'.
Proof.
  unfold rebase. destruct (N.ltb_spec pi (snap_index l)); intros [= <- <- <-] Hes; [|done].
  apply (consecutive_drop _ _ (N.to_nat (snap_index l - pi))) in Hes.
  by replace (snap_index l + 1) with (pi + 1 + N.of_nat (N.to_nat (snap_index l - pi))) by lia.
Qed.

Lemma handle_append_entries_guarantee from pi pt es lc ctx n n' :
  node_ok n → consecutive (pi + 1) es →
  handle_append_entries from pi pt es lc ctx n = Some n' → guarantee n n'.
Proof.
  intros Hok Hes Hh. apply handle_append_entries_cases in Hh. simpl in Hh.
  destruct (rebase (n_log n) pi pt es) as [[i t] es'] eqn:Hrb.
  pose proof (rebase_wf _ _ _ _ _ _ _ Hrb Hes) as Hes'.
  pose proof (heard_from_prelim from n) as Hpre.
  eapply prelim_guarantee; [done|]. pose proof (prelim_ok _ _ Hpre Hok) as Hok0.
  destruct Hh as [(ci & -> & _)|[(-> & _)|(l' & ta & Ht & Hfn & ->)]].
  - eapply eff_guarantee; [done|]. by apply send_eff.
  - eapply eff_guarantee; [done|]. by apply send_eff.
  - by eapply (installed_guarantee from i t es' l' ta lc ctx (heard_from from n)).
Qed.

Lemma handle_install_snapshot_guarantee from s n :
  node_ok n → guarantee n (handle_install_snapshot from s n).
Proof.
  intros Hok. pose proof (heard_from_prelim from n) as Hpre.
  eapply prelim_guarantee; [done|]. pose proof (prelim_ok _ _ Hpre Hok) as Hok0.
  unfold handle_install_snapshot. fold (heard_from from n). set (n0 := heard_from from n) in *.
  destruct (N.leb_spec (s_last_index s) (n_commit n0)).
  { eapply eff_guarantee; [done|]. by apply send_eff. }
  case_bool_decide as Ht.
  { apply term_bounds in Ht. eapply eff_guarantee; [done|].
    eapply eff_trans_nil_l; [|by apply send_eff]. apply advance_commit_eff; lia. }
  change (n_commit n0) with (n_commit n) in *.
  split; [split| | | | | | | |]; simpl; try done.
  - split; [lia|]. unfold RL.last_index. simpl. lia.
  - intros Ho. unfold outbox_ok. simpl. apply Forall_app. split; [done|].
    constructor; [|done]. by split.
  - by left.
  - lia.
  - destruct Hok as [_ ? _]. lia.
  - intros i Hi Hle. simpl in *. lia.
  - right. exists s. simpl. split_and!; try done.
Qed.

(** ** Every operation *)

Lemma dispatch_guarantee m n n' :
  node_ok n → wf_msg m → dispatch m n = Some n' → guarantee n n'.
Proof.
  intros Hok Hwf. unfold dispatch. unfold wf_msg in Hwf. destruct (m_body m).
  - intros [= <-]. eapply eff_guarantee; [done|]. unfold handle_pre_vote.
    apply (push_msgs_eff [_]). constructor; [|done]. by split.
  - intros [= <-]. edestruct handle_pre_vote_resp_eff. by eapply eff_guarantee.
  - intros [= <-]. eapply eff_guarantee; [done|apply handle_request_vote_eff].
  - intros [= <-]. edestruct handle_request_vote_resp_eff. by eapply eff_guarantee.
  - by apply handle_append_entries_guarantee.
  - intros [= <-]. eapply eff_guarantee; [done|apply handle_append_resp_eff].
  - intros [= <-]. by apply handle_install_snapshot_guarantee.
  - intros [= <-]. eapply eff_guarantee; [done|apply handle_install_snapshot_resp_eff].
Qed.

Lemma step_guarantee m n n' :
  node_ok n → wf_msg m → step m n = Some n' → guarantee n n'.
Proof.
  intros Hok Hwf.
  assert (dispatch m n = Some n' → guarantee n n') as Hdisp by (by apply dispatch_guarantee).
  assert (∀ t l, dispatch m (become_follower t l n) = Some n' → guarantee n n') as Hbf.
  { intros t l Hd. pose proof (become_follower_prelim t l n) as Hpre.
    eapply prelim_guarantee; [done|]. eapply dispatch_guarantee; [|done..].
    by eapply prelim_ok. }
  assert (Some (answer_stale m n) = Some n' → guarantee n n') as Hst.
  { intros [= <-]. eapply eff_guarantee; [done|apply answer_stale_eff]. }
  unfold step. destruct (m_body m); try done;
    (destruct (_ <? _); [apply Hbf|destruct (_ <? _); [done|apply Hdisp]]).
Qed.

End guarantees.

(** ** The operations a host can drive *)

Inductive node_op :=
| OpTick
| OpStep (m : Message)
| OpPropose (data : bytes)
| OpConfChange (cc : ConfChange)
| OpReadIndex (request_id : N)
| OpCompact (applied : Index) (sm_data : bytes)
| OpTakeOutput.

Definition wf_op (op : node_op) : Prop :=
  match op with OpStep m => wf_msg m | _ => True end.

(** [None] when the code panics. *)
Definition run_op (op : node_op) (n : RaftNode) : option RaftNode :=
  match op with
  | OpTick => Some (tick n)
  | OpStep m => step m n
  | OpPropose data => Some (propose data n).1
  | OpConfChange cc => Some (propose_conf_change cc n).1
  | OpReadIndex r => Some (read_index r n).1
  | OpCompact a d => Some (node_compact a d n).1
  | OpTakeOutput => Some (take_output n).1
  end.

Fixpoint run_ops (ops : list node_op) (n : RaftNode) : option RaftNode :=
  match ops with
  | [] => Some n
  | op :: ops => n ← run_op op n; run_ops ops n
  end.

(** A log the host may hand back at restart: contiguous above its snapshot. *)
Definition persisted_ok (p : Persisted) : Prop :=
  consecutive (from_option s_last_index 0 (p_snapshot p) + 1) (p_entries p).

Lemma node_new_ok cfg vs p : persisted_ok p → node_ok (node_new cfg vs p).
Proof.
  intros Hp. unfold node_new, persisted_ok in *.
  destruct (p_snapshot p) as [s|] eqn:Hs; simpl in *;
    match goal with |- node_ok (reset_election_timer ?x) =>
      destruct (reset_timer_eq x) as (T & R & ->) end;
    (split; simpl; [done|unfold RL.last_index; simpl; lia|done]).
Qed.

Lemma compact_guarantee a d n : node_ok n → guarantee n (node_compact a d n).1.
Proof.
  intros Hok. unfold node_compact.
  destruct ((a <=? snap_index (n_log n)) || (n_commit n <? a)) eqn:Hg.
  { eapply eff_guarantee; [done|apply eff_refl]. }
  destruct (RL.term (n_log n) a) as [t|] eqn:Ht.
  2: { eapply eff_guarantee; [done|apply eff_refl]. }
  destruct Hok as [Hc [Hlo Hhi] Hs].
  split; [split| | | | | | | |]; simpl; try done.
  - apply contiguous_compact; [done|lia].
  - rewrite last_index_compact, compact_eq by lia. simpl. lia.
  - rewrite compact_eq by lia. done.
  - by left.
  - rewrite compact_eq by lia. simpl. lia.
  - intros i Hi Hle. simpl in *. rewrite compact_eq in Hi by lia. simpl in Hi.
    apply get_compact; lia.
  - left. exists []. simpl. rewrite app_nil_r. split_and!; try done; [lia|].
    intros e He. by apply elem_of_nil in He.
Qed.

(** The guarantees of an operation that does not drain the batch. *)
Lemma run_op_guarantee op n n' :
  op ≠ OpTakeOutput → node_ok n → wf_op op → run_op op n = Some n' → guarantee n n'.
Proof.
  intros Hop Hok Hwf Hrun. destruct op; simplify_eq/=.
  - edestruct tick_eff. by eapply eff_guarantee.
  - by eapply step_guarantee.
  - edestruct propose_eff. by eapply eff_guarantee.
  - edestruct propose_conf_change_eff. by eapply eff_guarantee.
  - eapply eff_guarantee; [done|apply read_index_eff].
  - by apply compact_guarantee.
Qed.

Lemma take_output_ok n : node_ok n → node_ok (take_output n).1.
Proof. intros []. by split. Qed.

(** What survives any number of operations. *)
Record history_kept (n n' : RaftNode) : Prop := {
  h_ok : node_ok n';
  h_outbox : outbox_ok n → outbox_ok n';
  h_vote : vote_kept n n';
  h_commit : n_commit n ≤ n_commit n';
  h_snap : snap_index (n_log n) ≤ snap_index (n_log n');
  h_kept : committed_kept n n';
}.

Lemma history_kept_trans n1 n2 n3 : history_kept n1 n2 → history_kept n2 n3 → history_kept n1 n3.
Proof.
  intros [H1 Ho1 Hv1 Hc1 Hs1 Hk1] [H2 Ho2 Hv2 Hc2 Hs2 Hk2].
  split; [done|auto|by eapply vote_kept_trans|lia|lia|].
  intros i Hi Hle. rewrite Hk2 by (done || lia). apply Hk1; [lia|done].
Qed.

Lemma run_op_history op n n' :
  node_ok n → wf_op op → run_op op n = Some n' → history_kept n n'.
Proof.
  intros Hok Hwf Hrun.
  assert (op = OpTakeOutput ∨ op ≠ OpTakeOutput) as [->|Hne] by (destruct op; auto).
  - simplify_eq/=. split; try done; [by apply take_output_ok|]. by constructor.
  - destruct (run_op_guarantee _ _ _ Hne Hok Hwf Hrun). by split.
Qed.

Lemma run_ops_history ops n n' :
  node_ok n → Forall wf_op ops → run_ops ops n = Some n' → history_kept n n'.
Proof.
  revert n. induction ops as [|op ops IH]; intros n Hok Hwf Hrun; simplify_eq/=.
  { by split. }
  apply Forall_cons in Hwf as [Hop Hwf].
  apply bind_Some in Hrun as (n1 & Hr1 & Hrun).
  pose proof (run_op_history _ _ _ Hok Hop Hr1) as H1.
  eapply history_kept_trans; [done|]. apply IH; [by destruct H1|done..].
Qed.

(** C31: however the host drives a node that was created from a well-formed
    disk image (ticks, well-formed messages, proposals, membership changes,
    reads, compactions, drains), its log stays contiguous from the snapshot
    base, the commit index stays between the base and the log's end, the
    retained snapshot matches the base, and every message it queues is well
    formed and carries its own id: the [debug_assert]s of log.rs never fire. *)
Theorem node_invariant cfg vs p ops n :
  persisted_ok p → Forall wf_op ops →
  run_ops ops (node_new cfg vs p) = Some n → node_ok n ∧ outbox_ok n.
Proof.
  intros Hp Hwf Hrun. pose proof (node_new_ok cfg vs p Hp) as Hok.
  destruct (run_ops_history _ _ _ Hok Hwf Hrun) as [Hok' Ho _ _ _ _].
  split; [done|]. apply Ho. unfold node_new.
  destruct (p_snapshot p); simpl;
    match goal with |- outbox_ok (reset_election_timer ?x) =>
      destruct (reset_timer_eq x) as (T & R & ->) end; by constructor.
Qed.

(** No operation moves the term or the commit index backwards, and a node
    never changes a vote it has cast within a term. *)
Theorem term_vote_commit_monotone ops n n' :
  node_ok n → Forall wf_op ops → run_ops ops n = Some n' →
  node_term n ≤ node_term n' ∧ n_commit n ≤ n_commit n'
  ∧ (node_term n' = node_term n →
     ∀ c, hs_voted_for (n_hs n) = Some c → hs_voted_for (n_hs n') = Some c).
Proof.
  intros Hok Hwf Hrun. destruct (run_ops_history _ _ _ Hok Hwf Hrun) as [_ _ [Ht Hv] Hc _ _].
  done.
Qed.

(** An entry at or below the commit index is never rewritten or dropped
    while it is above the snapshot base, whatever a leader sends. *)
Theorem committed_entries_never_rewritten ops n n' i :
  node_ok n → Forall wf_op ops → run_ops ops n = Some n' →
  snap_index (n_log n') < i → i ≤ n_commit n →
  RL.get (n_log n') i = RL.get (n_log n) i.
Proof.
  intros Hok Hwf Hrun Hi Hle. by apply (h_kept _ _ (run_ops_history _ _ _ Hok Hwf Hrun)).
Qed.

Lemma run_ops_delivers ops n n' :
  node_ok n → Forall wf_op ops → OpTakeOutput ∉ ops → run_ops ops n = Some n' →
  o_snapshot (n_out n') = None →
  o_snapshot (n_out n) = None ∧
  ∃ es, o_committed (n_out n') = o_committed (n_out n) ++ es
    ∧ consecutive (n_commit n + 1) es ∧ n_commit n' = n_commit n + N.of_nat (length es).
Proof.
  revert n. induction ops as [|op ops IH]; intros n Hok Hwf Hnt Hrun Hns; simplify_eq/=.
  { split; [done|]. exists []. rewrite app_nil_r. split_and!; [done|done|simpl; lia]. }
  apply Forall_cons in Hwf as [Hop Hwf]. apply not_elem_of_cons in Hnt as [Hne Hnt].
  apply bind_Some in Hrun as (n1 & Hr1 & Hrun).
  destruct (run_op_guarantee op n n1) as [Hok1 _ _ _ _ _ _ _ Hd]; [done..|].
  destruct (IH n1 Hok1 Hwf Hnt Hrun Hns) as (Hns1 & es2 & Hc2 & Hcons2 & Hlen2).
  destruct Hd as [(es1 & Hc1 & Hs1 & Hcons1 & Hlen1 & _)|(s & Hs & _)]; [|congruence].
  split; [congruence|]. exists (es1 ++ es2). split_and!.
  - by rewrite Hc2, Hc1, app_assoc.
  - apply consecutive_app; [done|]. rewrite Hlen1 in Hcons2.
    by replace (n_commit n + 1 + N.of_nat (length es1))
      with (n_commit n + N.of_nat (length es1) + 1) by lia.
  - rewrite length_app. lia.
Qed.

(** The committed entries collected in one output batch are handed to the
    host exactly once and in log order: between two drains the batch grows by
    consecutive indices from the old commit index to the new one, with no gap
    and no repetition (unless a leader's snapshot replaced the log). *)
Theorem committed_batch_exactly_once ops n n' :
  node_ok n → Forall wf_op ops → OpTakeOutput ∉ ops →
  run_ops ops (take_output n).1 = Some n' → o_snapshot (n_out n') = None →
  (∀ k e, o_committed (n_out n') !! k = Some e → e_index e = n_commit n + 1 + N.of_nat k)
  ∧ n_commit n' = n_commit n + N.of_nat (length (o_committed (n_out n'))).
Proof.
  intros Hok Hwf Hnt Hrun Hns. apply take_output_ok in Hok.
  destruct (run_ops_delivers _ _ _ Hok Hwf Hnt Hrun Hns) as (_ & es & Hc & Hcons & Hlen).
  simpl in *. subst es. done.
Qed.

(** ** Concrete runs *)

(** A one-node cluster: it elects itself after its randomized timeout and
    commits what it proposes at once. *)
Definition solo : RaftNode := node_new (config_new 1 42) [1] default_persisted.

Definition solo_ops : list node_op :=
  replicate 20 OpTick ++ [OpPropose [x01]; OpTakeOutput; OpPropose [x02]; OpReadIndex 7;
    OpCompact 2 [x00]; OpStep (mkMsg 2 1 9 (AppendEntries 3 1 [mkEntry 9 4 Noop] 4 0))].

Definition solo_end : RaftNode := default solo (run_ops solo_ops solo).

Lemma solo_wf : Forall wf_op solo_ops.
Proof.
  unfold solo_ops. apply Forall_app. split; [by apply Forall_replicate|].
  repeat constructor. simpl. intros [|k] e Hk; simplify_eq/=. done.
Qed.

Lemma solo_run : run_ops solo_ops solo = Some solo_end.
Proof. vm_compute. reflexivity. Qed.

Lemma solo_ok : node_ok solo.
Proof. apply node_new_ok. by intros k e Hk. Qed.

(** The node after its two proposals, and what it does from there. *)
Definition solo_mid : RaftNode := default solo (run_ops (take 23 solo_ops) solo).

Lemma solo_mid_ok : node_ok solo_mid.
Proof.
  assert (Forall wf_op (take 23 solo_ops)) as Hwf by apply Forall_take, solo_wf.
  assert (run_ops (take 23 solo_ops) solo = Some solo_mid) as Hrun by (vm_compute; reflexivity).
  apply (h_ok _ _ (run_ops_history _ _ _ solo_ok Hwf Hrun)).
Qed.

Lemma solo_mid_run : run_ops (drop 23 solo_ops) solo_mid = Some solo_end.
Proof. vm_compute. reflexivity. Qed.

Lemma node_invariant_witness : node_ok solo_end ∧ outbox_ok solo_end.
Proof.
  apply (node_invariant (config_new 1 42) [1] default_persisted solo_ops).
  - by intros k e Hk.
  - exact solo_wf.
  - exact solo_run.
Defined.

Lemma term_vote_commit_monotone_witness :
  node_term solo ≤ node_term solo_end ∧ n_commit solo ≤ n_commit solo_end
  ∧ (node_term solo_end = node_term solo →
     ∀ c, hs_voted_for (n_hs solo) = Some c → hs_voted_for (n_hs solo_end) = Some c).
Proof. apply (term_vote_commit_monotone solo_ops); [exact solo_ok|exact solo_wf|exact solo_run]. Defined.

Lemma committed_entries_never_rewritten_witness :
  RL.get (n_log solo_end) 3 = Some (mkEntry 1 3 (Normal [x02])).
Proof.
  rewrite (committed_entries_never_rewritten (drop 23 solo_ops) solo_mid).
  - vm_compute. reflexivity.
  - exact solo_mid_ok.
  - apply Forall_drop, solo_wf.
  - exact solo_mid_run.
  - vm_compute. reflexivity.
  - vm_compute. discriminate.
Defined.

Lemma committed_batch_exactly_once_witness :
  n_commit solo_end = n_commit solo_mid - 1 + N.of_nat (length (o_committed (n_out solo_end))).
Proof.
  set (n := default solo (run_ops (take 21 solo_ops) solo)).
  assert (node_ok n) as Hok.
  { apply (h_ok solo), (run_ops_history (take 21 solo_ops)).
    - exact solo_ok.
    - apply Forall_take, solo_wf.
    - vm_compute. reflexivity. }
  destruct (committed_batch_exactly_once (drop 22 solo_ops) n solo_end) as [_ H].
  - exact Hok.
  - apply Forall_drop, solo_wf.
  - vm_compute. intros H. repeat (apply elem_of_cons in H as [H|H]; [discriminate|]).
    by apply elem_of_nil in H.
  - vm_compute. reflexivity.
  - vm_compute. reflexivity.
  - rewrite H. vm_compute. reflexivity.
Defined.
