(* ===== verification/RaftProps.v ===== *)
(** * What the node's decisions mean

    Functional properties of the rules in crates/raft/src/node.rs: the commit
    rule, the conflict hint, the election timer, the leader lease, ReadIndex,
    vote granting, membership changes, snapshot installation and the escape
    hatches of the replication flow control. *)

From S2P Require Import Prelude RaftTypes RaftLog RaftLogFacts RaftNode RaftNodeFacts RaftNodeInv.
Local Open Scope N_scope.

(** ** Counting voters *)

Lemma filter_fmap_length {A B} (f : A → B) (P : B → Prop) `{∀ x, Decision (P x)} (l : list A) :
  length (filter P (f <$> l)) = length (filter (λ x, P (f x)) l).
Proof.
  induction l as [|x l IH]; [done|]. csimpl. rewrite !filter_cons.
  destruct (decide (P (f x))); simpl; lia.
Qed.

(** The number of voters whose value under [f] reaches [c]. *)
Definition voters_reaching (n : RaftNode) (f : NodeId → N) (c : N) : nat :=
  length (filter (λ v, c ≤ f v) (voters n)).

Lemma quorum_pos n : (0 < quorum n)%nat.
Proof. unfold quorum. lia. Qed.

(** The element a quorum computation picks out of a descending vector is the
    largest value that a quorum of voters reaches. *)
Lemma quorum_value n f x :
  sort_desc (f <$> voters n) !! (quorum n - 1)%nat = Some x →
  ∀ c, c ≤ x ↔ (quorum n <= voters_reaching n f c)%nat.
Proof.
  intros Hx c. rewrite (sort_desc_lookup_iff _ _ _ c Hx), filter_fmap_length.
  unfold voters_reaching. pose proof (quorum_pos n). lia.
Qed.

Lemma quorum_value_None n f :
  sort_desc (f <$> voters n) !! (quorum n - 1)%nat = None →
  ∀ c, (voters_reaching n f c < quorum n)%nat.
Proof.
  intros Hx c. apply lookup_ge_None in Hx. rewrite length_sort_desc, length_fmap in Hx.
  unfold voters_reaching. pose proof (quorum_pos n).
  pose proof (length_filter (λ v, c ≤ f v) (voters n)). lia.
Qed.

(** ** The commit rule *)

(** The highest index known to be on voter [v]. *)
Definition match_of (n : RaftNode) (v : NodeId) : Index :=
  if v =? node_id n then RL.last_index (n_log n) else from_option pr_matched 0 (n_prs n !! v).

Lemma advance_commit_commit c n : n_commit (advance_commit_to c n) = c.
Proof.
  unfold advance_commit_to. destruct (existsb _ _); [|done].
  edestruct become_follower_eq as (T & R & hs & oh & -> & _). done.
Qed.

(** C32: a leader moves its commit index to [c] exactly when [c] is the largest
    index that a quorum of voters is known to hold, it lies above the current
    commit index, and the entry there is of the leader's own term (section
    5.4.2 of the Raft paper); in every other case the index stays. *)
Theorem commit_rule n c :
  n_role n = Leader → c ≠ n_commit n →
  n_commit (maybe_advance_commit n) = c ↔
    n_commit n < c ∧ RL.term (n_log n) c = Some (node_term n)
    ∧ (quorum n <= voters_reaching n (match_of n) c)%nat
    ∧ ∀ c', c < c' → (voters_reaching n (match_of n) c' < quorum n)%nat.
Proof.
  intros Hrole Hne. unfold maybe_advance_commit. rewrite Hrole, decide_False by naive_solver.
  change (match_vector n) with (match_of n <$> voters n).
  destruct (sort_desc _ !! _) as [x|] eqn:Hx.
  - pose proof (quorum_value _ _ _ Hx) as Hq. split.
    + destruct (N.ltb_spec (n_commit n) x); simpl; [|naive_solver].
      case_bool_decide as Ht; [|naive_solver]. rewrite advance_commit_commit. intros ->.
      split_and!; [done|done|by apply Hq|].
      intros c' Hc'. apply Nat.nle_gt. rewrite <-Hq. lia.
    + intros (Hlt & Ht & Hr & Hmax).
      assert (x = c) as ->.
      { apply Hq in Hr. destruct (decide (c < x)) as [Hcx|]; [|lia].
        apply Hmax in Hcx. assert (x ≤ x) as Hxx by lia. apply Hq in Hxx. lia. }
      destruct (N.ltb_spec (n_commit n) c); [|lia]. simpl.
      rewrite bool_decide_eq_true_2 by done. apply advance_commit_commit.
  - split; [naive_solver|]. intros (_ & _ & Hr & _).
    pose proof (quorum_value_None _ _ Hx c). lia.
Qed.

(** ** The conflict hint *)

Lemma conflict_walk_spec l t fuel c :
  snap_index l < c → (N.to_nat (c - RL.first_index l) <= fuel)%nat →
  (∀ j, c ≤ j → j ≤ c → RL.term l j = Some t) →
  let r := conflict_walk l t fuel c in
  RL.first_index l ≤ r ≤ c ∧ (∀ j, r ≤ j → j ≤ c → RL.term l j = Some t)
  ∧ (r = RL.first_index l ∨ RL.term l (r - 1) ≠ Some t).
Proof.
  revert c. induction fuel as [|fuel IH]; intros c Hs Hf Hj; simpl.
  { unfold RL.first_index in *. split_and!; [lia|lia|done|left; lia]. }
  destruct (N.ltb_spec (RL.first_index l) c) as [Hlt|Hge]; simpl.
  - case_bool_decide as Ht.
    + destruct (IH (c - 1)) as (H1 & H2 & H3).
      * unfold RL.first_index in *. lia.
      * lia.
      * intros j ? ?. by replace j with (c - 1) by lia.
      * split_and!; [lia|lia| |done]. intros j Hr Hjc.
        destruct (decide (j = c)) as [->|]; [apply Hj; lia|apply H2; lia].
    + split_and!; [lia|lia|done|by right].
  - unfold RL.first_index in *. split_and!; [lia|lia|done|left; lia].
Qed.

(** When a follower rejects a request because the term at [prev] differs,
    the loop that computes the hint terminates at the first index of the run of
    entries that carry the conflicting term: every index from the hint to
    [prev] has that term, and the index before the hint does not (or the hint
    is the first index of the log). *)
Theorem conflict_hint_is_run_start l t prev :
  snap_index l < prev → RL.term l prev = Some t →
  let r := conflict_hint l t prev in
  RL.first_index l ≤ r ≤ prev ∧ (∀ j, r ≤ j → j ≤ prev → RL.term l j = Some t)
  ∧ (r = RL.first_index l ∨ RL.term l (r - 1) ≠ Some t).
Proof.
  intros Hs Ht. apply conflict_walk_spec; [done|done|].
  intros j ? ?. by replace j with prev by lia.
Qed.

(** ** Election timer *)

(** The randomized election timeout is always drawn from
    [election_tick_min, election_tick_max), and resetting the timer restarts
    the count: it touches nothing else but the generator state. *)
Theorem election_timeout_in_range n :
  c_election_tick_min (n_cfg n) < c_election_tick_max (n_cfg n) →
  c_election_tick_max (n_cfg n) < 2 ^ 32 →
  let n' := reset_election_timer n in
  c_election_tick_min (n_cfg n) ≤ n_randomized_timeout n' < c_election_tick_max (n_cfg n)
  ∧ n_election_elapsed n' = 0
  ∧ n' = set_rng (n_rng n') (set_randomized_timeout (n_randomized_timeout n')
           (set_election_elapsed 0 n)).
Proof.
  intros Hlt Hmax. simpl. split_and!; [| |done|done]; rewrite wrapping_sub_le by lia;
    set (r := wrapping_mul _ _ _); rewrite N.max_l by lia;
    pose proof (N.mod_lt r (c_election_tick_max (n_cfg n) - c_election_tick_min (n_cfg n))
      ltac:(lia));
    unfold wrapping_add; rewrite (wrap_small 32 (r mod _)) by lia; rewrite wrap_small by lia; lia.
Qed.

(** ** Leader lease *)

(** The tick at which the leader last heard from voter [v]. *)
Definition heard_tick (n : RaftNode) (v : NodeId) : N :=
  if v =? node_id n then n_tick_counter n
  else from_option pr_last_resp_tick 0 (n_prs n !! v).

(** The lease test answers yes exactly when the node is a leader and a
    quorum of voters (itself included) was heard from less than
    [election_tick_min] ticks ago. *)
Theorem lease_valid_iff n :
  0 < c_election_tick_min (n_cfg n) →
  lease_valid n = true ↔
    n_role n = Leader
    ∧ (quorum n <= voters_reaching n (heard_tick n)
         (n_tick_counter n + 1 - c_election_tick_min (n_cfg n)))%nat.
Proof.
  intros Hpos. unfold lease_valid. destruct (decide _) as [Hl|Hl]; [naive_solver|].
  assert (n_role n = Leader) as Hrole by (by apply dec_stable in Hl).
  destruct (sort_desc _ !! _) as [x|] eqn:Hx.
  - rewrite <-(quorum_value _ (heard_tick n) _ Hx). rewrite N.ltb_lt. split; [intros; split; [done|lia]|].
    intros [_ ?]. lia.
  - split; [done|]. intros [_ Hr]. pose proof (quorum_value_None _ (heard_tick n) Hx) as Hn.
    specialize (Hn (n_tick_counter n + 1 - c_election_tick_min (n_cfg n))). lia.
Qed.

(** ** ReadIndex *)

(** The ReadIndex round voter [v] has confirmed. *)
Definition ack_of (n : RaftNode) (v : NodeId) : N :=
  if v =? node_id n then n_read_ctx_counter n
  else from_option pr_acked_read_ctx 0 (n_prs n !! v).

(** [process_read_acks] releases a pending read exactly when a quorum of
    voters has echoed its round or a later one; each released read carries the
    commit index captured when it was requested, released reads keep their
    order, and the others stay pending. *)
Theorem read_release_rule n :
  (∀ r, r ∈ n_pending_reads n → 0 < r.1.1) →
  let n' := process_read_acks n in
  let confirmed := λ r : N * N * Index, (quorum n <= voters_reaching n (ack_of n) r.1.1)%nat in
  n_pending_reads n' = filter (λ r, ¬ confirmed r) (n_pending_reads n)
  ∧ o_read_states (n_out n')
    = o_read_states (n_out n)
      ++ ((λ r : N * N * Index, (r.1.2, r.2)) <$> filter confirmed (n_pending_reads n)).
Proof.
  intros Hpos. simpl. unfold process_read_acks.
  destruct (n_pending_reads n) as [|r0 rs] eqn:Hp; [by rewrite Hp, app_nil_r|].
  rewrite <-Hp in *. clear r0 rs Hp.
  change (ack_vector n) with (ack_of n <$> voters n).
  destruct (sort_desc _ !! _) as [x|] eqn:Hx.
  - assert (∀ r : N * N * Index, (quorum n <= voters_reaching n (ack_of n) r.1.1)%nat ↔ r.1.1 ≤ x)
      as Hiff by (intros r; symmetry; by apply quorum_value).
    destruct (N.ltb_spec 0 x); simpl.
    + split.
      * apply list_filter_iff. intros r. by rewrite Hiff.
      * do 2 f_equal. apply list_filter_iff. intros r. by rewrite Hiff.
    + assert (x = 0) as -> by lia. split.
      * symmetry. apply filter_all. intros r Hr%Hpos.
        rewrite Hiff. lia.
      * rewrite (filter_none (λ r, (quorum n <= _)%nat)), app_nil_r; [done|].
        intros r Hr%Hpos. rewrite Hiff. lia.
  - pose proof (quorum_value_None _ _ Hx) as Hn. split.
    + symmetry. apply filter_all. intros r _. specialize (Hn r.1.1). lia.
    + rewrite (filter_none (λ r, (quorum n <= _)%nat)), app_nil_r; [done|].
      intros r _. specialize (Hn r.1.1). lia.
Qed.

(** ** Votes *)

(** A [RequestVote] of the node's own term is granted exactly when the node
    has not voted for anyone else in this term and the candidate's log is at
    least as up to date; a granted vote is in the hard state (and, if it is
    new, in the batch to persist) of the very node whose reply announces it. *)
Theorem vote_granted_iff from lli llt n :
  let n' := handle_request_vote from lli llt n in
  ∃ granted,
    o_messages (n_out n') = o_messages (n_out n)
      ++ [mkMsg (node_id n) from (node_term n) (RequestVoteResp granted)]
    ∧ (granted = true ↔
         (hs_voted_for (n_hs n) = None ∨ hs_voted_for (n_hs n) = Some from)
         ∧ log_up_to_date n lli llt = true)
    ∧ (granted = true → n_hs n' = mkHS (node_term n) (Some from)
         ∧ (n_hs n' = n_hs n ∨ o_hard_state (n_out n') = Some (n_hs n')))
    ∧ (granted = false → n_hs n' = n_hs n).
Proof.
  intros n'. unfold n', handle_request_vote.
  set (g := (_ || _) && log_up_to_date n lli llt). exists g.
  assert (g = true ↔ (hs_voted_for (n_hs n) = None ∨ hs_voted_for (n_hs n) = Some from)
         ∧ log_up_to_date n lli llt = true) as Hg.
  { unfold g. by rewrite andb_true_iff, orb_true_iff, !bool_decide_eq_true. }
  destruct g.
  - destruct (reset_timer_eq (set_vote (Some from) n)) as (T & R & ->).
    unfold set_vote. destruct (decide _) as [Hv|Hv]; simpl.
    + split_and!; [done|done| |done]. intros _. split; [|by left].
      unfold node_term. destruct (n_hs n); simpl in *. by rewrite Hv.
    + split_and!; [done|done| |done]. intros _. split; [done|by right].
  - done.
Qed.

(** Answering a pre-vote never changes the node: it only queues one reply,
    and a node that heard from a live leader within [election_tick_min] ticks,
    or that knows a term at least as high, refuses. A partitioned node that
    rejoins can therefore not depose a healthy leader. *)
Theorem pre_vote_is_harmless from t lli llt n :
  ∃ granted : bool,
    handle_pre_vote from t lli llt n
      = push_msg (mkMsg (node_id n) from (if granted then t else node_term n)
                    (PreVoteResp granted)) n
    ∧ (granted = true ↔
         node_term n < t ∧ log_up_to_date n lli llt = true
         ∧ ¬ (is_Some (n_leader_id n) ∧ n_election_elapsed n < c_election_tick_min (n_cfg n))).
Proof.
  unfold handle_pre_vote. set (g := _ && _). exists g. split; [done|]. unfold g.
  rewrite !andb_true_iff, negb_true_iff, andb_false_iff, N.ltb_lt, bool_decide_eq_false, N.ltb_ge.
  split.
  - intros [[H1 H2] H3]. split_and!; [done|done|]. intros [H4 H5]. destruct H3; [done|lia].
  - intros (H1 & H2 & H3). split_and!; [done|done|].
    destruct (decide (is_Some (n_leader_id n))); [right|by left].
    apply N.nlt_ge. naive_solver.
Qed.

(** ** Membership changes *)

Lemma voters_fold_app idx v es1 es2 :
  (∀ e, e ∈ es1 → e_index e ≤ idx) →
  voters_fold idx v (es1 ++ es2) = voters_fold idx (voters_fold idx v es1) es2.
Proof.
  revert v. induction es1 as [|e es1 IH]; intros v He; simpl; [done|].
  destruct (N.ltb_spec idx (e_index e)).
  - specialize (He e ltac:(left)). lia.
  - apply IH. intros e' ?. apply He. by right.
Qed.

Lemma voters_fold_cut idx idx' v es :
  (∀ e, e ∈ es → e_index e ≤ idx) → (∀ e, e ∈ es → e_index e ≤ idx') →
  voters_fold idx v es = voters_fold idx' v es.
Proof.
  revert v. induction es as [|e es IH]; intros v H1 H2; simpl; [done|].
  pose proof (H1 e ltac:(left)). pose proof (H2 e ltac:(left)).
  destruct (N.ltb_spec idx (e_index e)), (N.ltb_spec idx' (e_index e)); try lia.
  apply IH; intros e' ?; [apply H1|apply H2]; by right.
Qed.

Lemma voters_fold_stop idx v es :
  (∀ e, e ∈ es → idx < e_index e) → voters_fold idx v es = v.
Proof.
  destruct es as [|e es]; simpl; [done|]. intros He. specialize (He e ltac:(left)).
  by destruct (N.ltb_spec idx (e_index e)); [|lia].
Qed.

(** Folding the configuration changes of a compacted prefix into the base
    leaves the effective voter set of the node as it was. *)
Theorem compact_keeps_voters applied data n :
  node_ok n → voters (node_compact applied data n).1 = voters n.
Proof.
  intros [Hc [Hlo Hhi] _]. unfold node_compact.
  destruct ((applied <=? snap_index (n_log n)) || (n_commit n <? applied)) eqn:Hg; [done|].
  destruct (RL.term (n_log n) applied) as [t|] eqn:Ht; [|done].
  unfold voters, voters_at. simpl. rewrite last_index_compact, compact_eq by lia. simpl.
  set (l := n_log n) in *. set (k := N.to_nat (applied - snap_index l)).
  assert (∀ e, e ∈ take k (entries l) → e_index e ≤ applied) as H1.
  { intros e [j [Hj Hlt]%lookup_take_Some]%list_elem_of_lookup_1. rewrite (Hc _ _ Hj). lia. }
  assert (∀ e, e ∈ drop k (entries l) → applied < e_index e) as H2.
  { intros e [j Hj]%list_elem_of_lookup_1. rewrite lookup_drop in Hj. rewrite (Hc _ _ Hj). lia. }
  assert (∀ e, e ∈ take k (entries l) → e_index e ≤ RL.last_index l) as H3
    by (intros e He%H1; lia).
  pose proof (voters_fold_app _ (n_voters_base n) _ (drop k (entries l)) H3) as Hl.
  pose proof (voters_fold_app _ (n_voters_base n) _ (drop k (entries l)) H1) as Ha.
  rewrite take_drop in Hl, Ha. rewrite Hl, Ha. f_equal.
  rewrite voters_fold_stop by done. by apply voters_fold_cut.
Qed.

(** A set of voters large enough to elect or to commit under the list [vs]. *)
Definition is_quorum (vs : list NodeId) (Q : gset NodeId) : Prop :=
  Q ⊆ list_to_set vs ∧ (length vs / 2 + 1 <= size Q)%nat.

Lemma apply_conf_NoDup v p : NoDup v → NoDup (apply_conf v p).
Proof.
  intros Hv. destruct p as [| |[id|id]]; simpl; try done.
  - destruct (decide (id ∈ v)); [done|]. apply NoDup_app. split_and!; [done| |apply NoDup_singleton].
    intros x Hx ->%list_elem_of_singleton. done.
  - by apply NoDup_filter.
Qed.

(** The single-server rule works because adjacent configurations always
    share a voter: any majority of the configuration before a change and any
    majority of the one after it intersect. *)
Theorem adjacent_configs_intersect v p Q1 Q2 :
  NoDup v → is_quorum v Q1 → is_quorum (apply_conf v p) Q2 → ∃ x, x ∈ Q1 ∧ x ∈ Q2.
Proof.
  intros Hnd [Hs1 Hq1] [Hs2 Hq2].
  pose proof (apply_conf_NoDup v p Hnd) as Hnd'.
  assert (∀ w : list NodeId, NoDup w → size (list_to_set w : gset NodeId) = length w) as Hsz.
  { intros w Hw. by apply size_list_to_set. }
  pose proof (Nat.div_mod_eq (length v) 2). pose proof (Nat.mod_upper_bound (length v) 2).
  set (w := apply_conf v p) in *.
  pose proof (Nat.div_mod_eq (length w) 2). pose proof (Nat.mod_upper_bound (length w) 2).
  subst w. destruct p as [| |[id|id]]; simpl in *.
  1,2: apply (quorum_intersect (list_to_set v)); [done..|rewrite Hsz by done; lia].
  - destruct (decide (id ∈ v)) as [Hin|Hin].
    { apply (quorum_intersect (list_to_set v)); [done..|rewrite Hsz by done; lia]. }
    apply (quorum_intersect (list_to_set (v ++ [id]))); [|done|].
    + set_solver.
    + rewrite Hsz by done. rewrite length_app in *. simpl in *. lia.
  - apply (quorum_intersect (list_to_set v)); [done| |].
    + etrans; [done|]. intros x. rewrite !elem_of_list_to_set, list_elem_of_filter. tauto.
    + rewrite Hsz by done.
      assert (length v <= S (length (filter (λ x, x ≠ id) v)))%nat; [|lia].
      clear -Hnd. induction Hnd as [|x v Hx Hnd IH]; simpl; [lia|].
      rewrite filter_cons. destruct (decide (x ≠ id)) as [|He]; simpl; [lia|].
      apply dec_stable in He. subst x. rewrite filter_all; [done|].
      intros y Hy ->. done.
Qed.

(** A leader accepts a membership change only when none is in flight: the
    change is then the only configuration entry above the commit index, and it
    takes effect at once. *)
Theorem one_conf_change_in_flight cc n n' idx :
  propose_conf_change cc n = (n', Ok idx) →
  n_role n = Leader
  ∧ (∀ e, e ∈ entries (n_log n) → is_conf (e_payload e) = true → e_index e ≤ n_commit n)
  ∧ n_log n' = RL.push (n_log n) (mkEntry (node_term n) idx (ConfChangeP cc))
  ∧ idx = RL.last_index (n_log n) + 1.
Proof.
  unfold propose_conf_change. destruct (decide _) as [|Hl]; [done|]. apply dec_stable in Hl.
  destruct (existsb _ _) eqn:Hex; [done|].
  pose proof (append_local_eff (ConfChangeP cc) n) as Heff.
  destruct (append_local (ConfChangeP cc) n) as [n1 i] eqn:Hal. intros [= <- <-].
  assert (i = RL.last_index (n_log n) + 1) as ->.
  { unfold append_local in Hal. by simplify_eq. }
  split_and!; [done| | |done].
  - intros e He Hc. apply not_true_iff_false in Hex. rewrite existsb_exists in Hex.
    apply N.nlt_ge. intros Hlt. apply Hex. exists e. split; [by apply list_elem_of_In|].
    rewrite Hc, andb_true_r. by apply N.ltb_lt.
  - destruct (sync_progress_quiet n1) as (P & ms & -> & _). simpl.
    unfold append_local in Hal. injection Hal as <-. exact (eff_log _ _ _ Heff).
Qed.

(** ** Snapshot installation *)

(** A snapshot that describes a prefix of the follower's log, or that is
    not ahead of its commit index, never drops an entry: the log is unchanged,
    nothing is handed to the host to install, the commit index moves up to the
    snapshot's at least, and the reply claims no more than the snapshot or the
    commit index proves. *)
Theorem snapshot_prefix_keeps_log from s n :
  s_last_index s ≤ n_commit n
  ∨ RL.term (n_log n) (s_last_index s) = Some (s_last_term s) →
  let n' := handle_install_snapshot from s n in
  n_log n' = n_log n
  ∧ o_snapshot (n_out n') = o_snapshot (n_out n)
  ∧ n_commit n' = N.max (n_commit n) (s_last_index s)
  ∧ o_messages (n_out n') = o_messages (n_out n)
      ++ [mkMsg (node_id n) from (node_term n) (InstallSnapshotResp (n_commit n'))].
Proof.
  intros Hs. simpl. unfold handle_install_snapshot.
  set (n1 := set_election_elapsed 0 _).
  change (n_commit n1) with (n_commit n). change (n_log n1) with (n_log n).
  destruct (N.leb_spec (s_last_index s) (n_commit n)) as [Hle|Hgt].
  - simpl. split_and!; [done|done|lia|done].
  - destruct Hs as [Hs|Hs]; [lia|]. rewrite bool_decide_eq_true_2 by done.
    rewrite advance_commit_follower by done. simpl. split_and!; [done|done|lia|done].
Qed.

(** A snapshot that is ahead and not a prefix replaces the log: afterwards
    the log is empty above the snapshot's index, commit, base and voters are
    the snapshot's, and the batch hands exactly this snapshot to the host. *)
Theorem snapshot_replaces_log from s n :
  n_commit n < s_last_index s →
  RL.term (n_log n) (s_last_index s) ≠ Some (s_last_term s) →
  let n' := handle_install_snapshot from s n in
  n_log n' = mkLog (s_last_index s) (s_last_term s) []
  ∧ n_commit n' = s_last_index s ∧ voters n' = s_voters s
  ∧ o_snapshot (n_out n') = Some s ∧ n_snapshot n' = Some s.
Proof.
  intros Hlt Ht. simpl. unfold handle_install_snapshot.
  set (n1 := set_election_elapsed 0 _).
  change (n_commit n1) with (n_commit n). change (n_log n1) with (n_log n).
  destruct (N.leb_spec (s_last_index s) (n_commit n)) as [Hle|Hgt]; [lia|].
  rewrite bool_decide_eq_false_2 by done. done.
Qed.

(** ** Replication flow control *)

(** Replication to a follower never stalls for good. Whenever the leader
    tries to send to a tracked follower whose position is within the log, it
    queues a message to it, unless a snapshot transfer to it is younger than
    [election_tick_min] ticks; in particular a full pipeline window still
    sends the heartbeat, and gives one window slot back. *)
Theorem send_append_not_wedged peer pr n :
  node_ok n → n_prs n !! peer = Some pr →
  0 < pr_next pr → pr_next pr ≤ RL.last_index (n_log n) + 1 →
  (pr_pending_snapshot pr = true →
     c_election_tick_min (n_cfg n) ≤ n_tick_counter n - pr_snapshot_sent_tick pr) →
  ∃ m, o_messages (n_out (send_append peer n)) = o_messages (n_out n) ++ [m]
       ∧ m_to m = peer ∧ m_from m = node_id n ∧ m_term m = node_term n
       ∧ (∀ p t es c r, m_body m = AppendEntries p t es c r →
            p + 1 = pr_next pr ∧ c = n_commit n ∧ r = n_read_ctx_counter n
            ∧ (es ≠ [] → pr_inflight pr < c_max_inflight (n_cfg n))).
Proof.
  intros Hok Hpr Hpos Hnext Hpend. unfold send_append. rewrite Hpr.
  destruct (pr_pending_snapshot pr && _) eqn:Hw.
  { apply andb_true_iff in Hw as [Hp%Hpend Hw%N.ltb_lt]. lia. }
  simpl. destruct (N.leb_spec (pr_next pr) (snap_index (n_log n))) as [Hle|Hgt].
  - pose proof (ok_snapshot _ Hok). destruct (n_snapshot n) as [s|]; [|lia]. eexists. split_and!; [done..|]. intros. done.
  - destruct (term_is_Some (n_log n) (pr_next pr - 1)) as [pt Hpt].
    { lia. }
    rewrite Hpt. set (es := RL.slice _ _ _).
    destruct es as [|e es'] eqn:He; simpl.
    { eexists. split_and!; [done..|]. intros * [= <- _ <- <- <-]. split_and!; [lia|done..]. }
    destruct (N.leb_spec (c_max_inflight (n_cfg n)) (pr_inflight pr)); simpl;
      (eexists; split_and!; [done..|]; intros * [= <- _ <- <- <-]; split_and!; [lia|done..]).
Qed.

(** ** Concrete runs *)

(** Node 1 of three wins the election of term 1 and proposes one entry. *)
Definition trio : RaftNode := node_new (config_new 1 42) [1; 2; 3] default_persisted.

Definition trio_ops : list node_op :=
  replicate 20 OpTick ++
  [OpStep (mkMsg 2 1 1 (PreVoteResp true)); OpStep (mkMsg 2 1 1 (RequestVoteResp true));
   OpPropose [x01]; OpTakeOutput].

Definition trio_leader : RaftNode := default trio (run_ops trio_ops trio).

(** The leader once follower 2 holds both entries and a read is pending. *)
Definition trio_read : RaftNode :=
  default trio (run_ops [OpStep (mkMsg 2 1 1 (AppendEntriesResp true 2 0 0)); OpReadIndex 5]
    trio_leader).

(** The leader at the moment follower 2's acknowledgement is recorded. *)
Definition trio_acked : RaftNode :=
  set_prs (<[2 := set_pr_matched 2 (progress_new 3)]> (n_prs trio_leader)) trio_leader.

Lemma trio_ok : node_ok trio.
Proof. apply node_new_ok. by intros k e Hk. Qed.

Lemma trio_leader_ok : node_ok trio_leader.
Proof.
  assert (Forall wf_op trio_ops) as Hwf.
  { unfold trio_ops. apply Forall_app. split; [by apply Forall_replicate|]. repeat constructor. }
  assert (run_ops trio_ops trio = Some trio_leader) as Hrun by (vm_compute; reflexivity).
  apply (h_ok _ _ (run_ops_history _ _ _ trio_ok Hwf Hrun)).
Qed.

Lemma commit_rule_witness :
  RL.term (n_log trio_acked) 2 = Some (node_term trio_acked)
  ∧ (quorum trio_acked <= voters_reaching trio_acked (match_of trio_acked) 2)%nat.
Proof.
  destruct (proj1 (commit_rule trio_acked 2 ltac:(vm_compute; reflexivity)
    ltac:(vm_compute; discriminate)))
    as (_ & H1 & H2 & _); [vm_compute; reflexivity|exact (conj H1 H2)].
Defined.

(** A log with a run of term 2 from index 3 to 5. *)
Definition run_log : RaftLog :=
  mkLog 1 1 [mkEntry 1 2 Noop; mkEntry 2 3 Noop; mkEntry 2 4 Noop; mkEntry 2 5 Noop].

Lemma conflict_hint_is_run_start_witness :
  conflict_hint run_log 2 5 = 3 ∧ RL.term run_log 4 = Some 2.
Proof.
  destruct (conflict_hint_is_run_start run_log 2 5) as (_ & H & _).
  - vm_compute. reflexivity.
  - vm_compute. reflexivity.
  - split; [vm_compute; reflexivity|]. apply H; vm_compute; discriminate.
Defined.

Lemma election_timeout_in_range_witness :
  10 ≤ n_randomized_timeout (reset_election_timer trio) < 20.
Proof. apply (election_timeout_in_range trio); vm_compute; reflexivity. Defined.

Lemma lease_valid_iff_witness :
  lease_valid trio_read = true ∧ lease_valid trio_leader = false.
Proof.
  split.
  - apply (lease_valid_iff trio_read); [vm_compute; reflexivity|].
    split; vm_compute; [reflexivity|]. apply le_n.
  - apply not_true_iff_false. intros H.
    apply (lease_valid_iff trio_leader) in H as [_ H]; [|vm_compute; reflexivity].
    vm_compute in H. lia.
Defined.

Lemma read_release_rule_witness :
  o_read_states (n_out (process_read_acks
    (set_prs (<[3 := set_pr_acked_read_ctx 1 (progress_new 3)]> (n_prs trio_read)) trio_read)))
  = [(5, 2)].
Proof.
  destruct (read_release_rule
    (set_prs (<[3 := set_pr_acked_read_ctx 1 (progress_new 3)]> (n_prs trio_read)) trio_read))
    as [_ H].
  - intros r Hr. vm_compute in Hr. apply elem_of_cons in Hr as [->|Hr]; [done|].
    by apply elem_of_nil in Hr.
  - rewrite H. vm_compute. reflexivity.
Defined.

Lemma compact_keeps_voters_witness :
  voters (node_compact 2 [x00] solo_mid).1 = [1].
Proof. rewrite (compact_keeps_voters 2 [x00] solo_mid solo_mid_ok). vm_compute. reflexivity. Defined.

Lemma adjacent_configs_intersect_witness :
  ∃ x, x ∈ ({[1; 2]} : gset NodeId) ∧ x ∈ ({[2; 3; 4]} : gset NodeId).
Proof.
  apply (adjacent_configs_intersect [1; 2; 3] (ConfChangeP (AddNode 4))).
  - apply (bool_decide_unpack _). vm_compute. exact I.
  - split; [apply (bool_decide_unpack _); vm_compute; exact I|]. vm_compute. lia.
  - split; [apply (bool_decide_unpack _); vm_compute; exact I|]. vm_compute. lia.
Defined.

Lemma one_conf_change_in_flight_witness :
  n_log (propose_conf_change (AddNode 4) trio_leader).1
  = RL.push (n_log trio_leader) (mkEntry 1 3 (ConfChangeP (AddNode 4))).
Proof.
  apply (one_conf_change_in_flight (AddNode 4) trio_leader
    (propose_conf_change (AddNode 4) trio_leader).1 3).
  vm_compute. reflexivity.
Defined.

Lemma snapshot_prefix_keeps_log_witness :
  n_log (handle_install_snapshot 2 (mkSnap 1 1 [1; 2; 3] [x00]) trio_leader) = n_log trio_leader.
Proof.
  apply (snapshot_prefix_keeps_log 2 (mkSnap 1 1 [1; 2; 3] [x00]) trio_leader).
  right. vm_compute. reflexivity.
Defined.

Lemma snapshot_replaces_log_witness :
  voters (handle_install_snapshot 2 (mkSnap 7 2 [2; 3] [x00]) trio_leader) = [2; 3].
Proof.
  apply (snapshot_replaces_log 2 (mkSnap 7 2 [2; 3] [x00]) trio_leader);
    vm_compute; [reflexivity|discriminate].
Defined.

Lemma send_append_not_wedged_witness :
  ∃ m, o_messages (n_out (send_append 2 trio_leader)) = o_messages (n_out trio_leader) ++ [m]
       ∧ m_to m = 2.
Proof.
  destruct (send_append_not_wedged 2 (default (progress_new 0) (n_prs trio_leader !! 2))
    trio_leader) as (m & Hm & Hto & _).
  - exact trio_leader_ok.
  - vm_compute. reflexivity.
  - vm_compute. reflexivity.
  - vm_compute. discriminate.
  - vm_compute. discriminate.
  - exists m. split; [exact Hm|exact Hto].
Defined.
