(* ===== verification/RaftHistory.v ===== *)
(** * Raft's safety argument

    The history of a run of the protocol: who voted for whom with which log,
    the log of every candidate when it campaigned, the log of the leader of
    every term, and how much of a leader's log each node has acknowledged.
    Logs are full logs here, with the prefix that compaction dropped. From a
    well-formed history follow, with no reference to steps, log matching,
    leader completeness, and that committed prefixes never disagree. *)

From S2P Require Import Prelude RaftTypes RaftLog RaftNode RaftProps.
Local Open Scope N_scope.

Local Infix "⪯" := prefix (at level 70).

(** ** Prefixes *)

Lemma prefix_take_mono {A} (l : list A) j k : (j <= k)%nat → take j l ⪯ take k l.
Proof. intros Hjk. rewrite <-(Nat.min_l j k), <-take_take by done. apply prefix_take. Qed.

Lemma prefix_eq_take {A} (p l : list A) : p ⪯ l → p = take (length p) l.
Proof. intros [k ->]. by rewrite take_app_length. Qed.

Lemma prefix_take_iff {A} (p l : list A) k :
  (length p <= k)%nat → p ⪯ l → p ⪯ take k l.
Proof. intros Hk Hp. rewrite (prefix_eq_take _ _ Hp). by apply prefix_take_mono. Qed.

Lemma prefix_of_shorter {A} (p q l : list A) :
  p ⪯ l → q ⪯ l → (length p <= length q)%nat → p ⪯ q.
Proof.
  intros Hp Hq Hle. destruct (prefix_weak_total _ _ _ Hp Hq) as [|Hqp]; [done|].
  by rewrite (prefix_length_eq _ _ Hqp Hle).
Qed.

Lemma take_prefix_eq {A} (p l : list A) k : p ⪯ l → (k <= length p)%nat → take k p = take k l.
Proof. intros [q ->] Hk. by rewrite take_app_le. Qed.

(** ** Histories *)

Record history := mkHist {
  h_votes : gmap (NodeId * Term) (NodeId * list Entry);
  h_cands : gmap (NodeId * Term) (list Entry);
  h_leaders : gmap Term (NodeId * list Entry);
  h_acks : gmap (NodeId * Term) nat;
}.

(** The term of the last entry, 0 for the empty log. *)
Definition log_last_term (L : list Entry) : Term := from_option e_term 0 (last L).

(** [cl] is at least as up to date as [L]. *)
Definition up_to_date (cl L : list Entry) : Prop :=
  log_last_term L < log_last_term cl
  ∨ (log_last_term L = log_last_term cl ∧ (length L <= length cl)%nat).

(** The leader of [t1] does not hold [P]. *)
Definition lacks (h : history) (t1 : Term) (P : list Entry) : Prop :=
  ∃ o1 l1, h_leaders h !! t1 = Some (o1, l1) ∧ ¬ P ⪯ l1.

(** Node [u] told the leader of [t] that it holds the first [k] entries of the
    leader's log. *)
Definition acked (h : history) (u : NodeId) (t : Term) (k : nat) : Prop :=
  ∃ k', h_acks h !! (u, t) = Some k' ∧ (k <= k')%nat.

Section history.
  (** The voters, and what a log may carry as payload. *)
  Context (V0 : list NodeId) (pok : EntryPayload → Prop).

(** A log a node may hold: indices count from 1, and the prefix up to an entry
    of term [t] is a prefix of the log of the leader of [t]. *)
Definition log_ok (h : history) (L : list Entry) : Prop :=
  ∀ i e, L !! i = Some e →
    e_index e = N.of_nat (S i) ∧ pok (e_payload e)
    ∧ ∃ o l, h_leaders h !! e_term e = Some (o, l) ∧ take (S i) L ⪯ l.

(** [k] is committed by the leader of [t]: a quorum acknowledged an entry of
    its own term at [k]. *)
Definition committed (h : history) (t : Term) (k : nat) : Prop :=
  (0 < k)%nat
  ∧ (∃ o l e, h_leaders h !! t = Some (o, l) ∧ l !! (k - 1)%nat = Some e ∧ e_term e = t)
  ∧ ∃ Q, is_quorum V0 Q ∧ ∀ u, u ∈ Q → acked h u t k.

(** [P] was committed by the leader of some term up to [T]. *)
Definition committed_prefix (h : history) (T : Term) (P : list Entry) : Prop :=
  P = [] ∨ ∃ t k o l, t ≤ T ∧ committed h t k ∧ h_leaders h !! t = Some (o, l) ∧ P ⪯ take k l.

(** What node [u] acknowledged to the leaders of terms below [T] is in [L],
    unless the leader of a later term below [lim] does not hold it. *)
Definition kept (h : history) (u : NodeId) (T lim : Term) (L : list Entry) : Prop :=
  ∀ t0 k o0 l0, t0 < T → acked h u t0 k → h_leaders h !! t0 = Some (o0, l0) →
    take k l0 ⪯ L ∨ ∃ t1, t0 < t1 ∧ t1 < lim ∧ lacks h t1 (take k l0).

Record history_ok (h : history) : Prop := {
  ho_leader_log : ∀ t o l, h_leaders h !! t = Some (o, l) →
    log_ok h l ∧ (∀ e, e ∈ l → e_term e ≤ t)
    ∧ ∃ cl, h_cands h !! (o, t) = Some cl ∧ cl ⪯ l;
  ho_leader_votes : ∀ t o l, h_leaders h !! t = Some (o, l) →
    ∃ Q, is_quorum V0 Q
      ∧ ∀ u, u ∈ Q → ∃ L, h_votes h !! (u, t) = Some (o, L) ∧ kept h u t t L;
  ho_cand : ∀ x t cl, h_cands h !! (x, t) = Some cl →
    log_ok h cl ∧ (∀ e, e ∈ cl → e_term e < t) ∧ ∃ L, h_votes h !! (x, t) = Some (x, L);
  ho_vote : ∀ u t x L, h_votes h !! (u, t) = Some (x, L) →
    log_ok h L ∧ kept h u t (t + 1) L ∧ ∃ cl, h_cands h !! (x, t) = Some cl ∧ up_to_date cl L;
  ho_ack : ∀ u t k, h_acks h !! (u, t) = Some k →
    ∃ o l, h_leaders h !! t = Some (o, l) ∧ (k <= length l)%nat;
}.

Lemma log_ok_prefix h L P : log_ok h L → P ⪯ L → log_ok h P.
Proof.
  intros HL HP i e Hi. destruct (HL i e) as (Hix & Hp & o & l & Hl & Ht).
  { by eapply prefix_lookup_Some. }
  split_and!; [done|done|]. exists o, l. split; [done|].
  apply lookup_lt_Some in Hi. by rewrite (take_prefix_eq P L) by (done || lia).
Qed.

Lemma quorums_meet Q1 Q2 :
  NoDup V0 → is_quorum V0 Q1 → is_quorum V0 Q2 → ∃ x, x ∈ Q1 ∧ x ∈ Q2.
Proof.
  intros Hnd [H1 Hs1] [H2 Hs2]. apply (quorum_intersect (list_to_set V0)); [done..|].
  rewrite size_list_to_set by done.
  pose proof (Nat.div_mod_eq (length V0) 2). pose proof (Nat.mod_upper_bound (length V0) 2).
  lia.
Qed.

Section consequences.
  Context (h : history) (Hnd : NoDup V0) (Hok : history_ok h).

(** The terms of a log never decrease. *)
Lemma log_terms_sorted L i j ei ej :
  log_ok h L → L !! i = Some ei → L !! j = Some ej → (i <= j)%nat → e_term ei ≤ e_term ej.
Proof.
  intros HL Hi Hj Hij. destruct (HL _ _ Hj) as (_ & _ & o & l & Hl & Hp).
  destruct (ho_leader_log _ Hok _ _ _ Hl) as (_ & Hle & _). apply Hle.
  apply (elem_of_prefix (take (S j) L)); [|done].
  apply list_elem_of_lookup. exists i. by rewrite lookup_take_lt by lia.
Qed.

(** Log matching: two logs with an entry of the same term at the same index
    agree up to there. *)
Lemma log_matching L1 L2 i e1 e2 :
  log_ok h L1 → log_ok h L2 → L1 !! i = Some e1 → L2 !! i = Some e2 → e_term e1 = e_term e2 →
  take (S i) L1 = take (S i) L2.
Proof.
  intros H1 H2 Hi1 Hi2 He.
  destruct (H1 _ _ Hi1) as (_ & _ & o1 & l1 & Hl1 & Hp1).
  destruct (H2 _ _ Hi2) as (_ & _ & o2 & l2 & Hl2 & Hp2).
  rewrite He in Hl1. simplify_eq.
  apply lookup_lt_Some in Hi1, Hi2.
  apply prefix_length_eq; [apply (prefix_of_shorter _ _ l1); [done..|]|]; rewrite !length_take; lia.
Qed.

Lemma log_last L : L ≠ [] → ∃ e, L !! (length L - 1)%nat = Some e ∧ log_last_term L = e_term e.
Proof.
  intros Hne. unfold log_last_term. rewrite last_lookup.
  destruct (lookup_lt_is_Some_2 L (pred (length L))) as [e He].
  { destruct L; [done|simpl; lia]. }
  exists e. rewrite He. simpl. split; [|done]. rewrite <-He. f_equal. lia.
Qed.

(** A non-empty log is a prefix of the log of the leader of its last term. *)
Lemma log_in_last_leader L :
  log_ok h L → L ≠ [] → ∃ o l, h_leaders h !! log_last_term L = Some (o, l) ∧ L ⪯ l.
Proof.
  intros HL Hne. destruct (log_last L Hne) as (e & He & ->).
  destruct (HL _ _ He) as (_ & _ & o & l & Hl & Hp). exists o, l. split; [done|].
  apply lookup_lt_Some in He. by rewrite take_ge in Hp by lia.
Qed.

(** Leader completeness: what the leader of [t] committed is in the log of
    every later leader. *)
Lemma leader_completeness t' : ∀ t k o l o' l',
  committed h t k → h_leaders h !! t = Some (o, l) → h_leaders h !! t' = Some (o', l') →
  t < t' → take k l ⪯ l'.
Proof.
  induction (N.lt_wf_0 t') as [t' _ IH]. intros t k o l o' l' Hcom Hl Hl' Htt.
  destruct Hcom as (Hk & (o2 & l2 & e & Hl2 & He & Het) & Q & HQ & Hack).
  rewrite Hl in Hl2. injection Hl2 as <- <-. subst t.
  destruct (ho_leader_votes _ Hok _ _ _ Hl') as (Q' & HQ' & Hvotes).
  destruct (quorums_meet Q Q' Hnd HQ HQ') as (u & Hu & Hu').
  destruct (Hvotes u Hu') as (L & HvL & Hkept).
  assert (∀ x o1 l1, h_leaders h !! x = Some (o1, l1) → e_term e < x → x < t' →
    take k l ⪯ l1) as IH'.
  { intros x o1 l1 Hx H1 H2. apply (IH x H2 (e_term e) k o l o1 l1); [|done..].
    split_and!; [done|naive_solver|naive_solver]. }
  assert (take k l ⪯ L) as HPL.
  { destruct (Hkept _ _ _ _ Htt (Hack u Hu) Hl) as [|(t1 & H1 & H2 & o1 & l1 & Hl1 & Hno)]; [done|].
    destruct Hno. by eapply IH'. }
  destruct (ho_vote _ Hok _ _ _ _ HvL) as (HLok & _ & cl & Hcl & Hutd).
  destruct (ho_cand _ Hok _ _ _ Hcl) as (Hclok & Hclt & _).
  destruct (ho_leader_log _ Hok _ _ _ Hl') as (_ & _ & cl' & Hcl' & Hclp). simplify_eq.
  trans cl; [|done]. clear Hclp Hcl Hl'.
  assert ((take k l) !! (k - 1)%nat = Some e) as HPe by (by rewrite lookup_take_lt by lia).
  assert (L !! (k - 1)%nat = Some e) as HLe by (by eapply prefix_lookup_Some).
  assert (L ≠ []) as HLne by (by intros ->).
  destruct (log_last L HLne) as (eL & HeL & HltL).
  assert (e_term e ≤ log_last_term L) as Hge.
  { rewrite HltL. apply (log_terms_sorted L _ _ _ _ HLok HLe HeL). apply lookup_lt_Some in HLe. lia. }
  assert (cl ≠ []) as Hclne.
  { intros ->. destruct Hutd as [Hlt|[_ Hlen]]; [unfold log_last_term at 2 in Hlt; simpl in Hlt; lia|].
    destruct L; [done|simpl in Hlen; lia]. }
  destruct (log_in_last_leader cl Hclok Hclne) as (ox & lx & Hlx & Hclx).
  destruct (log_last cl Hclne) as (ec & Hec & Hltc).
  assert (ec ∈ cl) as Hecin by (by eapply list_elem_of_lookup_2).
  assert (log_last_term cl < t') as Hxt by (rewrite Hltc; by apply Hclt).
  destruct Hutd as [Hlt|[Heq Hlen]].
  - assert (take k l ⪯ lx) as HPx by (eapply IH'; [done|lia|done]).
    destruct (prefix_weak_total _ _ _ HPx Hclx) as [|Hrev]; [done|]. exfalso.
    assert (ec ∈ l) as Hin.
    { apply (elem_of_prefix (take k l)); [by eapply elem_of_prefix|apply prefix_take]. }
    destruct (ho_leader_log _ Hok _ _ _ Hl) as (_ & Hle & _). apply Hle in Hin. lia.
  - destruct (log_in_last_leader L HLok HLne) as (oy & ly & Hly & HLy).
    rewrite Heq in Hly. simplify_eq. trans L; [done|]. by eapply prefix_of_shorter.
Qed.

Lemma committed_prefix_nil T : committed_prefix h T [].
Proof. by left. Qed.

Lemma committed_prefix_sub T P P' :
  committed_prefix h T P → P' ⪯ P → committed_prefix h T P'.
Proof.
  intros [->|(t & k & o & l & Ht & Hc & Hl & HP)] Hsub.
  - left. by apply prefix_nil_inv.
  - right. exists t, k, o, l. split_and!; [done..|]. by trans P.
Qed.

Lemma committed_prefix_later T T' P :
  committed_prefix h T P → T ≤ T' → committed_prefix h T' P.
Proof.
  intros [->|(t & k & o & l & Ht & Hc & Hl & HP)] Hle; [by left|].
  right. exists t, k, o, l. split_and!; [lia|done..].
Qed.

(** What was committed up to term [T] is in the log of every leader from [T] on. *)
Lemma committed_in_leader T P t o l :
  committed_prefix h T P → h_leaders h !! t = Some (o, l) → T ≤ t → P ⪯ l.
Proof.
  intros [->|(t0 & k & o0 & l0 & Ht & Hc & Hl0 & HP)] Hl Hle; [apply prefix_nil|].
  destruct (decide (t0 = t)) as [->|Hne].
  - rewrite Hl in Hl0. injection Hl0 as <- <-. trans (take k l); [done|apply prefix_take].
  - trans (take k l0); [done|]. eapply leader_completeness; [done..|]. lia.
Qed.

(** Committed prefixes never disagree. *)
Lemma committed_prefixes_agree T1 T2 P1 P2 :
  committed_prefix h T1 P1 → committed_prefix h T2 P2 → P1 ⪯ P2 ∨ P2 ⪯ P1.
Proof.
  intros H1 H2.
  pose proof H1 as [->|(t1 & k1 & o1 & l1 & Ht1 & Hc1 & Hl1 & HP1)]; [left; apply prefix_nil|].
  pose proof H2 as [->|(t2 & k2 & o2 & l2 & Ht2 & Hc2 & Hl2 & HP2)]; [right; apply prefix_nil|].
  assert (∀ t P k o l, committed h t k → h_leaders h !! t = Some (o, l) → P ⪯ take k l →
    committed_prefix h t P) as Hmk.
  { intros t P k o l ? ? ?. right. exists t, k, o, l. by split_and!. }
  pose proof (Hmk _ _ _ _ _ Hc1 Hl1 HP1) as Hm1. pose proof (Hmk _ _ _ _ _ Hc2 Hl2 HP2) as Hm2.
  destruct (decide (t1 ≤ t2)).
  - apply (prefix_weak_total _ _ l2);
      [apply (committed_in_leader t1 _ t2 o2)|apply (committed_in_leader t2 _ t2 o2)]; done || lia.
  - apply (prefix_weak_total _ _ l1);
      [apply (committed_in_leader t1 _ t1 o1)|apply (committed_in_leader t2 _ t1 o1)]; done || lia.
Qed.
End consequences.

(** ** How a history grows *)

(** [h'] remembers everything [h] does; a leader's log only grows, by entries
    of its own term. *)
Record extends (h h' : history) : Prop := {
  ext_votes : h_votes h ⊆ h_votes h';
  ext_cands : h_cands h ⊆ h_cands h';
  ext_leaders : ∀ t o l, h_leaders h !! t = Some (o, l) →
    ∃ x, h_leaders h' !! t = Some (o, l ++ x) ∧ ∀ e, e ∈ x → e_term e = t;
  ext_acks : ∀ u t k, acked h u t k → acked h' u t k;
}.

(** Only node [v] acted between [h] and [h']. *)
Record only_by (v : NodeId) (h h' : history) : Prop := {
  by_votes : ∀ u t, u ≠ v → h_votes h' !! (u, t) = h_votes h !! (u, t);
  by_leaders : ∀ t o l, h_leaders h' !! t = Some (o, l) → o ≠ v → h_leaders h !! t = Some (o, l);
  by_acks : ∀ u t, u ≠ v → h_acks h' !! (u, t) = h_acks h !! (u, t);
}.

Lemma extends_refl h : extends h h.
Proof.
  split; try done. intros t o l Hl. exists []. rewrite app_nil_r. split; [done|].
  intros e He. by apply elem_of_nil in He.
Qed.

Lemma only_by_refl v h : only_by v h h.
Proof. by split. Qed.

Lemma extends_trans h1 h2 h3 : extends h1 h2 → extends h2 h3 → extends h1 h3.
Proof.
  intros [V1 C1 L1 A1] [V2 C2 L2 A2]. split.
  - by trans (h_votes h2).
  - by trans (h_cands h2).
  - intros t o l Hl. destruct (L1 _ _ _ Hl) as (x & Hx & Htx).
    destruct (L2 _ _ _ Hx) as (y & Hy & Hty). exists (x ++ y). rewrite app_assoc.
    split; [done|]. intros e [He|He]%elem_of_app; auto.
  - auto.
Qed.

Lemma only_by_trans v h1 h2 h3 : only_by v h1 h2 → only_by v h2 h3 → only_by v h1 h3.
Proof.
  intros [V1 L1 A1] [V2 L2 A2]. split.
  - intros u t Hu. by rewrite V2, V1.
  - intros t o l Hl Ho. by apply L1; [apply L2|].
  - intros u t Hu. by rewrite A2, A1.
Qed.

Section extension.
  Context (h h' : history) (Hext : extends h h').

Lemma log_ok_ext L : log_ok h L → log_ok h' L.
Proof.
  intros HL i e Hi. destruct (HL i e Hi) as (Hx & Hp & o & l & Hl & Ht).
  split_and!; [done|done|]. destruct (ext_leaders _ _ Hext _ _ _ Hl) as (x & Hl' & _).
  exists o, (l ++ x). split; [done|]. by apply prefix_app_r.
Qed.

Lemma committed_ext t k : committed h t k → committed h' t k.
Proof.
  intros (Hk & (o & l & e & Hl & He & Het) & Q & HQ & Hack). split_and!; [done| |].
  - destruct (ext_leaders _ _ Hext _ _ _ Hl) as (x & Hl' & _).
    exists o, (l ++ x), e. split_and!; [done| |done]. by apply lookup_app_l_Some.
  - exists Q. split; [done|]. intros u Hu. by apply (ext_acks _ _ Hext), Hack.
Qed.

Lemma committed_prefix_ext T P : committed_prefix h T P → committed_prefix h' T P.
Proof.
  intros [->|(t & k & o & l & Ht & Hc & Hl & HP)]; [by left|]. right.
  destruct (ext_leaders _ _ Hext _ _ _ Hl) as (x & Hl' & _).
  exists t, k, o, (l ++ x). split_and!; [done|by apply committed_ext|done|].
  destruct Hc as (_ & (o2 & l2 & e & Hl2 & He & _) & _). rewrite Hl in Hl2.
  injection Hl2 as <- <-. apply lookup_lt_Some in He. rewrite take_app_le by lia. done.
Qed.

Lemma lacks_ext t1 P : (∀ e, e ∈ P → e_term e < t1) → lacks h t1 P → lacks h' t1 P.
Proof.
  intros HP (o & l & Hl & Hno). destruct (ext_leaders _ _ Hext _ _ _ Hl) as (x & Hl' & Hx).
  exists o, (l ++ x). split; [done|]. intros Hp. apply Hno.
  destruct (decide (length P <= length l)%nat) as [Hle|Hgt].
  - eapply prefix_of_shorter; [done|by apply prefix_app_r|done].
  - exfalso. destruct (lookup_lt_is_Some_2 P (length l)) as [e He]; [lia|].
    pose proof (prefix_lookup_Some _ _ _ _ He Hp) as Hle.
    rewrite lookup_app_r in Hle by done. apply list_elem_of_lookup_2 in Hle, He.
    apply Hx in Hle. apply HP in He. lia.
Qed.

(** What was kept in the shorter history is kept in the longer one, as far as
    the node has acknowledged nothing new. *)
Lemma kept_ext u T lim L :
  history_ok h → (∀ t, t < T → h_acks h' !! (u, t) = h_acks h !! (u, t)) →
  kept h u T lim L → kept h' u T lim L.
Proof.
  intros Hok Hsame Hk t0 k o0 l0' Ht (k' & Hk' & Hle) Hl0'. rewrite Hsame in Hk' by done.
  destruct (ho_ack _ Hok _ _ _ Hk') as (o & l & Hl & Hlen).
  destruct (ext_leaders _ _ Hext _ _ _ Hl) as (x & Hl' & _). rewrite Hl' in Hl0'.
  injection Hl0' as <- <-. rewrite take_app_le by lia.
  destruct (Hk t0 k o l Ht) as [|(t1 & H1 & H2 & H3)]; [by exists k'|done|by left|].
  right. exists t1. split_and!; [done|done|]. apply lacks_ext; [|done].
  intros e He. destruct (ho_leader_log _ Hok _ _ _ Hl) as (_ & Hterm & _).
  assert (e ∈ l) as Hin by (eapply elem_of_prefix; [done|apply prefix_take]).
  apply Hterm in Hin. lia.
Qed.
End extension.
End history.
