(* ===== verification/HistorySteps.v ===== *)
(** * Steps of a history

    The five ways a node writes to the history of the protocol (it campaigns,
    grants a vote, takes office, appends to its log as leader, acknowledges a
    leader's log), each with the conditions under which the history stays
    well formed. *)

From S2P Require Import Prelude RaftTypes RaftLog RaftNode RaftProps RaftHistory.
Local Open Scope N_scope.

Local Infix "⪯" := prefix (at level 70).

Definition add_campaign (v : NodeId) (t : Term) (L : list Entry) (h : history) : history :=
  mkHist (<[(v, t) := (v, L)]> (h_votes h)) (<[(v, t) := L]> (h_cands h)) (h_leaders h) (h_acks h).

Definition add_vote (v : NodeId) (t : Term) (x : NodeId) (L : list Entry) (h : history) : history :=
  mkHist (<[(v, t) := (x, L)]> (h_votes h)) (h_cands h) (h_leaders h) (h_acks h).

Definition add_leader (v : NodeId) (t : Term) (L : list Entry) (h : history) : history :=
  mkHist (h_votes h) (h_cands h) (<[t := (v, L)]> (h_leaders h)) (h_acks h).

Definition add_ack (v : NodeId) (t : Term) (k : nat) (h : history) : history :=
  mkHist (h_votes h) (h_cands h) (h_leaders h)
    (<[(v, t) := (k `max` default 0 (h_acks h !! (v, t)))%nat]> (h_acks h)).

Lemma acked_add_ack v t k h u t0 k0 :
  acked (add_ack v t k h) u t0 k0 ↔
  (u = v ∧ t0 = t ∧ (k0 <= k)%nat) ∨ acked h u t0 k0
  ∨ (u = v ∧ t0 = t ∧ k0 = 0%nat).
Proof.
  unfold acked. simpl. destruct (decide ((u, t0) = (v, t))) as [He|Hne].
  - injection He as -> ->. rewrite lookup_insert, decide_True by done.
    destruct (h_acks h !! (v, t)) as [k1|]; simpl; split.
    + intros (? & [= <-] & Hle). destruct (decide (k0 <= k)%nat); [by left|right; left].
      exists k1. split; [done|lia].
    + intros [(_ & _ & ?)|[(? & [= <-] & ?)|(_ & _ & ->)]]; eexists; (split; [done|lia]).
    + intros (? & [= <-] & Hle). left. split_and!; [done..|lia].
    + intros [(_ & _ & ?)|[(? & ? & ?)|(_ & _ & ->)]]; [|done|]; eexists; (split; [done|lia]).
  - rewrite lookup_insert_ne by done. naive_solver.
Qed.

Section steps.
  Context (V0 : list NodeId) (pok : EntryPayload → Prop).
  Abbreviation hok := (history_ok V0 pok).
  Abbreviation lok := (log_ok pok).

Lemma add_campaign_ok v t L h :
  hok h → h_votes h !! (v, t) = None → lok h L → (∀ e, e ∈ L → e_term e < t) →
  kept h v t t L →
  hok (add_campaign v t L h) ∧ extends h (add_campaign v t L h)
  ∧ only_by v h (add_campaign v t L h).
Proof.
  intros Hok Hv HL Ht Hk. set (h' := add_campaign v t L h).
  assert (h_cands h !! (v, t) = None) as Hc.
  { apply eq_None_not_Some. intros [cl Hcl].
    destruct (ho_cand _ _ _ Hok _ _ _ Hcl) as (_ & _ & ? & ?). congruence. }
  assert (extends h h') as Hext.
  { split; simpl; [by apply insert_subseteq..| |done]. apply (ext_leaders _ _ (extends_refl h)). }
  assert (∀ u T lim L', kept h u T lim L' → kept h' u T lim L') as Hkept.
  { intros u T lim L' HL'. by apply (kept_ext V0 pok h h'). }
  split; [|split; [done|]].
  2: { split; simpl; try done. intros u t' Hu. rewrite lookup_insert_ne by congruence. done. }
  split; simpl.
  - intros t' o l Hl. destruct (ho_leader_log _ _ _ Hok _ _ _ Hl) as (H1 & H2 & cl & Hcl & Hp).
    split_and!; [by apply (log_ok_ext pok h h')|done|]. exists cl. split; [|done].
    by eapply lookup_weaken; [|apply Hext].
  - intros t' o l Hl. destruct (ho_leader_votes _ _ _ Hok _ _ _ Hl) as (Q & HQ & Hvs).
    exists Q. split; [done|]. intros u Hu. destruct (Hvs u Hu) as (L' & HL' & Hk').
    exists L'. split; [|by apply Hkept]. by eapply lookup_weaken; [|apply Hext].
  - intros x t' cl. destruct (decide ((x, t') = (v, t))) as [He|Hne].
    + injection He as -> ->. rewrite !lookup_insert, !decide_True by done. intros [= <-].
      split_and!; [by apply (log_ok_ext pok h h')|done|eauto].
    + rewrite !lookup_insert_ne by done. intros Hcl.
      destruct (ho_cand _ _ _ Hok _ _ _ Hcl) as (H1 & H2 & H3).
      split_and!; [by apply (log_ok_ext pok h h')|done..].
  - intros u t' x L'. destruct (decide ((u, t') = (v, t))) as [He|Hne].
    + injection He as -> ->. rewrite lookup_insert, decide_True by done. intros [= <- <-].
      split_and!; [by apply (log_ok_ext pok h h')| |].
      * intros t0 k o0 l0 H1 H2 H3. destruct (Hk t0 k o0 l0 H1 H2 H3) as [|(t1 & ? & ? & ?)];
          [by left|right]. exists t1. split_and!; [done|lia|done].
      * exists L. rewrite lookup_insert, decide_True by done. split; [done|]. right. lia.
    + rewrite lookup_insert_ne by done. intros Hvt.
      destruct (ho_vote _ _ _ Hok _ _ _ _ Hvt) as (H1 & H2 & cl & Hcl & Hu).
      split_and!; [by apply (log_ok_ext pok h h')|by apply Hkept|]. exists cl. split; [|done].
      by eapply lookup_weaken; [|apply Hext].
  - apply (ho_ack _ _ _ Hok).
Qed.

Lemma add_vote_ok v t x L cl h :
  hok h → h_votes h !! (v, t) = None → lok h L → h_cands h !! (x, t) = Some cl →
  up_to_date cl L → kept h v t (t + 1) L →
  hok (add_vote v t x L h) ∧ extends h (add_vote v t x L h) ∧ only_by v h (add_vote v t x L h).
Proof.
  intros Hok Hv HL Hcl Hu Hk. set (h' := add_vote v t x L h).
  assert (extends h h') as Hext.
  { split; simpl; [by apply insert_subseteq|done| |done].
    apply (ext_leaders _ _ (extends_refl h)). }
  assert (∀ u T lim L', kept h u T lim L' → kept h' u T lim L') as Hkept.
  { intros u T lim L' HL'. by apply (kept_ext V0 pok h h'). }
  split; [|split; [done|]].
  2: { split; simpl; try done. intros u t' Hne. rewrite lookup_insert_ne by congruence. done. }
  split; simpl.
  - apply (ho_leader_log _ _ _ Hok).
  - intros t' o l Hl. destruct (ho_leader_votes _ _ _ Hok _ _ _ Hl) as (Q & HQ & Hvs).
    exists Q. split; [done|]. intros u Hu'. destruct (Hvs u Hu') as (L' & HL' & Hk').
    exists L'. split; [|by apply Hkept]. by eapply lookup_weaken; [|apply Hext].
  - intros y t' cl' Hcl'. destruct (ho_cand _ _ _ Hok _ _ _ Hcl') as (H1 & H2 & L' & H3).
    split_and!; [done..|]. exists L'. by eapply lookup_weaken; [|apply Hext].
  - intros u t' y L'. destruct (decide ((u, t') = (v, t))) as [He|Hne].
    + injection He as -> ->. rewrite lookup_insert, decide_True by done. intros [= <- <-].
      split_and!; [done|by apply Hkept|eauto].
    + rewrite lookup_insert_ne by done. intros Hvt.
      destruct (ho_vote _ _ _ Hok _ _ _ _ Hvt) as (H1 & H2 & H3).
      split_and!; [done|by apply Hkept|done].
  - apply (ho_ack _ _ _ Hok).
Qed.

Lemma add_leader_ok v t L h Q :
  hok h → h_leaders h !! t = None → h_cands h !! (v, t) = Some L →
  is_quorum V0 Q → (∀ u, u ∈ Q → ∃ Lu, h_votes h !! (u, t) = Some (v, Lu)) →
  hok (add_leader v t L h) ∧ extends h (add_leader v t L h) ∧ only_by v h (add_leader v t L h).
Proof.
  intros Hok Hn Hcl HQ Hvs. set (h' := add_leader v t L h).
  assert (extends h h') as Hext.
  { split; simpl; try done. intros t' o l Hl. rewrite lookup_insert_ne by congruence.
    by apply (ext_leaders _ _ (extends_refl h)). }
  assert (∀ u T lim L', kept h u T lim L' → kept h' u T lim L') as Hkept.
  { intros u T lim L' HL'. by apply (kept_ext V0 pok h h'). }
  destruct (ho_cand _ _ _ Hok _ _ _ Hcl) as (HL & Ht & _).
  split; [|split; [done|]].
  2: { split; simpl; try done. intros t' o l. destruct (decide (t' = t)) as [->|Hne].
       - rewrite lookup_insert, decide_True by done. by intros [= <- <-].
       - by rewrite lookup_insert_ne. }
  split; simpl.
  - intros t' o l. destruct (decide (t' = t)) as [->|Hne].
    + rewrite lookup_insert, decide_True by done. intros [= <- <-].
      split_and!; [by apply (log_ok_ext pok h h')| |eauto].
      intros e He%Ht. lia.
    + rewrite lookup_insert_ne by done. intros Hl.
      destruct (ho_leader_log _ _ _ Hok _ _ _ Hl) as (H1 & H2 & H3).
      split_and!; [by apply (log_ok_ext pok h h')|done..].
  - intros t' o l. destruct (decide (t' = t)) as [->|Hne].
    + rewrite lookup_insert, decide_True by done. intros [= <- <-]. exists Q. split; [done|].
      intros u Hu. destruct (Hvs u Hu) as (Lu & HLu). exists Lu. split; [done|].
      destruct (ho_vote _ _ _ Hok _ _ _ _ HLu) as (_ & Hk & _). apply Hkept.
      intros t0 k o0 l0 H1 H2 H3. destruct (Hk t0 k o0 l0 H1 H2 H3) as [|(t1 & ? & ? & Hlk)];
        [by left|right]. exists t1. split_and!; [done| |done].
      destruct (decide (t1 = t)) as [->|]; [|lia]. destruct Hlk as (? & ? & ? & _). congruence.
    + rewrite lookup_insert_ne by done. intros Hl.
      destruct (ho_leader_votes _ _ _ Hok _ _ _ Hl) as (Q' & HQ' & Hvs').
      exists Q'. split; [done|]. intros u Hu. destruct (Hvs' u Hu) as (L' & HL' & Hk').
      exists L'. split; [done|by apply Hkept].
  - intros x t' cl Hx. destruct (ho_cand _ _ _ Hok _ _ _ Hx) as (H1 & H2 & H3).
    split_and!; [by apply (log_ok_ext pok h h')|done..].
  - intros u t' x L' Hvt. destruct (ho_vote _ _ _ Hok _ _ _ _ Hvt) as (H1 & H2 & H3).
    split_and!; [by apply (log_ok_ext pok h h')|by apply Hkept|done].
  - intros u t' k Hk. destruct (ho_ack _ _ _ Hok _ _ _ Hk) as (o & l & Hl & Hlen).
    exists o, l. split; [|done]. by rewrite lookup_insert_ne by congruence.
Qed.

Lemma grow_leader_ok v t l e h :
  hok h → h_leaders h !! t = Some (v, l) →
  e_index e = N.of_nat (S (length l)) → e_term e = t → pok (e_payload e) →
  hok (add_leader v t (l ++ [e]) h) ∧ extends h (add_leader v t (l ++ [e]) h)
  ∧ only_by v h (add_leader v t (l ++ [e]) h).
Proof.
  intros Hok Hl Hix Het Hp. set (h' := add_leader v t (l ++ [e]) h).
  assert (extends h h') as Hext.
  { split; simpl; try done. intros t' o l' Hl'. destruct (decide (t' = t)) as [->|Hne].
    - rewrite Hl in Hl'. injection Hl' as <- <-. exists [e].
      rewrite lookup_insert, decide_True by done. split; [done|].
      by intros e' ->%list_elem_of_singleton.
    - rewrite lookup_insert_ne by done. by apply (ext_leaders _ _ (extends_refl h)). }
  assert (∀ u T lim L', kept h u T lim L' → kept h' u T lim L') as Hkept.
  { intros u T lim L' HL'. by apply (kept_ext V0 pok h h'). }
  assert (∀ t' o l', h_leaders h' !! t' = Some (o, l') →
    (t' = t ∧ o = v ∧ l' = l ++ [e]) ∨ h_leaders h !! t' = Some (o, l')) as Hinv.
  { simpl. intros t' o l'. destruct (decide (t' = t)) as [->|Hne].
    - rewrite lookup_insert, decide_True by done. intros [= <- <-]. by left.
    - rewrite lookup_insert_ne by done. by right. }
  split; [|split; [done|]].
  2: { split; simpl; try done. intros t' o l' [(_ & -> & _)|]%Hinv; done. }
  split.
  - intros t' o l' [(-> & -> & ->)|Hl']%Hinv.
    + destruct (ho_leader_log _ _ _ Hok _ _ _ Hl) as (H1 & H2 & cl & H3 & H4).
      split_and!.
      * intros i e' Hi. destruct (decide (i < length l)%nat) as [Hlt|Hge].
        -- rewrite lookup_app_l in Hi by done.
           destruct (log_ok_ext pok h h' Hext _ H1 _ _ Hi) as (Hx & Hq & o & l2 & Hl2 & Hpre).
           split_and!; [done..|]. exists o, l2. split; [done|]. by rewrite take_app_le by lia.
        -- rewrite lookup_app_r in Hi by lia. apply list_lookup_singleton_Some in Hi as [Hi <-].
           replace i with (length l) by lia. split_and!; [done..|]. exists v, (l ++ [e]).
           split; [|apply prefix_take]. simpl. by rewrite Het, lookup_insert, decide_True.
      * intros e' [He'|He']%elem_of_app; [by apply H2|].
        apply list_elem_of_singleton in He' as ->. lia.
      * exists cl. split; [done|]. by apply prefix_app_r.
    + destruct (ho_leader_log _ _ _ Hok _ _ _ Hl') as (H1 & H2 & H3).
      split_and!; [by apply (log_ok_ext pok h h')|done..].
  - intros t' o l' Hl'.
    assert (∃ l2, h_leaders h !! t' = Some (o, l2)) as [l2 Hl2].
    { apply Hinv in Hl' as [(-> & -> & _)|]; eauto. }
    destruct (ho_leader_votes _ _ _ Hok _ _ _ Hl2) as (Q' & HQ' & Hvs').
    exists Q'. split; [done|]. intros u Hu. destruct (Hvs' u Hu) as (L' & HL' & Hk').
    exists L'. split; [done|by apply Hkept].
  - intros x t' cl Hx. destruct (ho_cand _ _ _ Hok _ _ _ Hx) as (H1 & H2 & H3).
    split_and!; [by apply (log_ok_ext pok h h')|done..].
  - intros u t' x L' Hvt. destruct (ho_vote _ _ _ Hok _ _ _ _ Hvt) as (H1 & H2 & H3).
    split_and!; [by apply (log_ok_ext pok h h')|by apply Hkept|done].
  - intros u t' k Hk. destruct (ho_ack _ _ _ Hok _ _ _ Hk) as (o & l2 & Hl2 & Hlen).
    destruct (ext_leaders _ _ Hext _ _ _ Hl2) as (x & Hl' & _). exists o, (l2 ++ x).
    split; [done|]. rewrite length_app. lia.
Qed.

Lemma add_ack_ok v t k o l h :
  hok h → h_leaders h !! t = Some (o, l) → (k <= length l)%nat →
  (∀ t', t < t' → h_votes h !! (v, t') = None) →
  hok (add_ack v t k h) ∧ extends h (add_ack v t k h) ∧ only_by v h (add_ack v t k h).
Proof.
  intros Hok Hl Hk Hfut. set (h' := add_ack v t k h).
  assert (extends h h') as Hext.
  { split; simpl; try done; [apply (ext_leaders _ _ (extends_refl h))|].
    intros u t' k' Hk'. apply acked_add_ack. tauto. }
  assert (∀ u t' x L lim, h_votes h !! (u, t') = Some (x, L) →
    kept h u t' lim L → kept h' u t' lim L) as Hkept.
  { intros u t' x L lim Hvt HL. apply (kept_ext V0 pok h h'); [done|done| |done].
    intros t0 Ht0. simpl. rewrite lookup_insert_ne; [done|]. intros [= <- <-].
    rewrite Hfut in Hvt by lia. done. }
  split; [|split; [done|]].
  2: { split; simpl; try done. intros u t' Hu. rewrite lookup_insert_ne by congruence. done. }
  split; simpl.
  - apply (ho_leader_log _ _ _ Hok).
  - intros t' o' l' Hl'. destruct (ho_leader_votes _ _ _ Hok _ _ _ Hl') as (Q & HQ & Hvs).
    exists Q. split; [done|]. intros u Hu. destruct (Hvs u Hu) as (L' & HL' & Hk').
    exists L'. split; [done|by eapply Hkept].
  - apply (ho_cand _ _ _ Hok).
  - intros u t' x L Hvt. destruct (ho_vote _ _ _ Hok _ _ _ _ Hvt) as (H1 & H2 & H3).
    split_and!; [done|by eapply Hkept|done].
  - intros u t' k'. destruct (decide ((u, t') = (v, t))) as [He|Hne].
    + injection He as -> ->. rewrite lookup_insert, decide_True by done. intros [= <-].
      exists o, l. split; [done|]. destruct (h_acks h !! (v, t)) as [k1|] eqn:Hk1; simpl; [|lia].
      destruct (ho_ack _ _ _ Hok _ _ _ Hk1) as (? & ? & ? & ?). simplify_eq. lia.
    + rewrite lookup_insert_ne by done. apply (ho_ack _ _ _ Hok).
Qed.
End steps.
