(* ===== verification/RaftProtocol.v ===== *)
(** * The protocol the node implements

    The part of a node's state that safety depends on, and the atomic moves of
    the protocol on it: follow a newer term, campaign, grant a vote, take
    office, append, accept a leader's entries or snapshot, commit, and so on.
    Each move may need a message of the soup (the messages ever sent) and sends
    messages of its own. The invariant ties a node's state and every message
    to the history of the run. *)

From S2P Require Import Prelude RaftTypes RaftLog RaftLogFacts RaftNode RaftNodeFacts.
From S2P Require Import RaftProps RaftHistory.
Local Open Scope N_scope.

Local Infix "⪯" := prefix (at level 70).

(** ** Node cores *)

Record Core := mkCore {
  k_hs : HardState;
  k_role : Role;
  k_votes : gmap NodeId bool;
  k_log : RaftLog;
  k_commit : Index;
  k_vbase : list NodeId;
  k_snap : option Snapshot;
  k_match : gmap NodeId Index;
}.

Definition core (n : RaftNode) : Core :=
  mkCore (n_hs n) (n_role n) (n_votes n) (n_log n) (n_commit n) (n_voters_base n) (n_snapshot n)
    (pr_matched <$> n_prs n).

Definition k_term (c : Core) : Term := hs_term (k_hs c).
Definition k_voters (c : Core) : list NodeId :=
  voters_fold (RL.last_index (k_log c)) (k_vbase c) (entries (k_log c)).
Definition k_quorum (c : Core) : nat := (length (k_voters c) / 2 + 1)%nat.

(** What a leader may put in a replication message. *)
Definition k_repl (id : NodeId) (c : Core) (m : Message) : Prop :=
  m_from m = id ∧ m_term m = k_term c ∧
  match m_body m with
  | InstallSnapshot s => k_snap c = Some s
  | AppendEntries prev pt es lc _ =>
    RL.term (k_log c) prev = Some pt
    ∧ (∀ k e, es !! k = Some e → RL.get (k_log c) (prev + 1 + N.of_nat k) = Some e)
    ∧ lc = k_commit c
  | _ => False
  end.

(** Messages that promise nothing. *)
Definition free_msg (m : Message) : Prop :=
  match m_body m with
  | PreVote _ _ | PreVoteResp _ | RequestVoteResp false | AppendEntriesResp false _ _ _ => True
  | _ => False
  end.

(** ** Moves *)

Inductive move (pok : EntryPayload → Prop) (id : NodeId) (S : Message → Prop) (c : Core)
    : list Message → Core → Prop :=
| mv_follow t r vs M :
    r = Follower ∨ r = PreCandidate →
    move pok id S c [] (mkCore (if k_term c <? t then mkHS t None else k_hs c) r vs
      (k_log c) (k_commit c) (k_vbase c) (k_snap c) M)
| mv_campaign M :
    move pok id S c [] (mkCore (mkHS (k_term c + 1) (Some id)) Candidate {[id := true]}
      (k_log c) (k_commit c) (k_vbase c) (k_snap c) M)
| mv_ask ms :
    k_role c = Candidate →
    Forall (λ m, m_from m = id ∧ m_term m = k_term c
      ∧ m_body m = RequestVote (RL.last_index (k_log c)) (RL.last_term (k_log c))) ms →
    move pok id S c ms c
| mv_grant m lli llt :
    S m → m_term m = k_term c → m_body m = RequestVote lli llt →
    hs_voted_for (k_hs c) = None ∨ hs_voted_for (k_hs c) = Some (m_from m) →
    RL.last_term (k_log c) < llt
      ∨ RL.last_term (k_log c) = llt ∧ RL.last_index (k_log c) ≤ lli →
    move pok id S c [mkMsg id (m_from m) (k_term c) (RequestVoteResp true)]
      (mkCore (mkHS (k_term c) (Some (m_from m))) (k_role c) (k_votes c)
        (k_log c) (k_commit c) (k_vbase c) (k_snap c) (k_match c))
| mv_vote u (g : bool) :
    (k_role c = Candidate → g = true → ∃ m, S m ∧ m_from m = u ∧ m_to m = id
       ∧ m_term m = k_term c ∧ m_body m = RequestVoteResp true) →
    move pok id S c [] (mkCore (k_hs c) (k_role c) (<[u := g]> (k_votes c))
      (k_log c) (k_commit c) (k_vbase c) (k_snap c) (k_match c))
| mv_lead M :
    k_role c = Candidate →
    (k_quorum c <= size (filter (λ kv : NodeId * bool, kv.2 = true ∧ kv.1 ∈ k_voters c)
      (k_votes c)))%nat →
    (∀ u k, M !! u = Some k → k = 0) →
    move pok id S c [] (mkCore (k_hs c) Leader (k_votes c)
      (k_log c) (k_commit c) (k_vbase c) (k_snap c) M)
| mv_append p :
    k_role c = Leader → pok p →
    move pok id S c [] (mkCore (k_hs c) Leader (k_votes c)
      (RL.push (k_log c) (mkEntry (k_term c) (RL.last_index (k_log c) + 1) p))
      (k_commit c) (k_vbase c) (k_snap c) (k_match c))
| mv_match M :
    k_role c = Leader →
    (∀ u k, M !! u = Some k → 0 < k →
       (∃ k0, k_match c !! u = Some k0 ∧ k ≤ k0)
       ∨ ∃ m, S m ∧ m_from m = u ∧ m_term m = k_term c
           ∧ ((∃ ci ctx, m_body m = AppendEntriesResp true k ci ctx)
              ∨ m_body m = InstallSnapshotResp k)) →
    move pok id S c [] (mkCore (k_hs c) Leader (k_votes c)
      (k_log c) (k_commit c) (k_vbase c) (k_snap c) M)
| mv_commit k :
    k_role c = Leader → k_commit c < k → RL.term (k_log c) k = Some (k_term c) →
    (k_quorum c <= length (filter (λ v, (k ≤ if v =? id then RL.last_index (k_log c)
       else default 0 (k_match c !! v))%N) (k_voters c)))%nat →
    move pok id S c [] (mkCore (k_hs c) Leader (k_votes c)
      (k_log c) k (k_vbase c) (k_snap c) (k_match c))
| mv_replicate ms :
    k_role c = Leader → Forall (k_repl id c) ms → move pok id S c ms c
| mv_free ms : Forall free_msg ms → move pok id S c ms c
| mv_covered m pi pt es lc ctx dst :
    S m → m_term m = k_term c → m_body m = AppendEntries pi pt es lc ctx →
    move pok id S c
      [mkMsg id dst (k_term c) (AppendEntriesResp true (snap_index (k_log c)) 0 ctx)] c
| mv_accept m pi pt es lc ctx i t es' l' ta dst :
    k_role c = Follower →
    S m → m_term m = k_term c → m_body m = AppendEntries pi pt es lc ctx →
    rebase (k_log c) pi pt es = (i, t, es') →
    RL.term (k_log c) i = Some t → find_new (k_log c) (k_commit c) es' = Some (l', ta) →
    move pok id S c
      [mkMsg id dst (k_term c) (AppendEntriesResp true (i + N.of_nat (length es')) 0 ctx)]
      (mkCore (k_hs c) Follower (k_votes c) (foldl RL.push l' ta)
        (N.max (k_commit c) (N.min lc (i + N.of_nat (length es'))))
        (k_vbase c) (k_snap c) (k_match c))
| mv_snap_stale m s dst :
    S m → m_term m = k_term c → m_body m = InstallSnapshot s →
    move pok id S c [mkMsg id dst (k_term c) (InstallSnapshotResp (k_commit c))] c
| mv_snap_prefix m s dst :
    k_role c = Follower →
    S m → m_term m = k_term c → m_body m = InstallSnapshot s →
    k_commit c < s_last_index s →
    RL.term (k_log c) (s_last_index s) = Some (s_last_term s) →
    move pok id S c [mkMsg id dst (k_term c) (InstallSnapshotResp (s_last_index s))]
      (mkCore (k_hs c) Follower (k_votes c) (k_log c) (s_last_index s)
        (k_vbase c) (k_snap c) (k_match c))
| mv_snap_install m s dst :
    k_role c = Follower →
    S m → m_term m = k_term c → m_body m = InstallSnapshot s →
    k_commit c < s_last_index s →
    RL.term (k_log c) (s_last_index s) ≠ Some (s_last_term s) →
    move pok id S c [mkMsg id dst (k_term c) (InstallSnapshotResp (s_last_index s))]
      (mkCore (k_hs c) Follower (k_votes c)
        (mkLog (s_last_index s) (s_last_term s) []) (s_last_index s)
        (s_voters s) (Some s) (k_match c)).

(** A sequence of moves, and the messages they send. *)
Inductive moves (pok : EntryPayload → Prop) (id : NodeId) (S : Message → Prop)
    : Core → list Message → Core → Prop :=
| moves_nil c : moves pok id S c [] c
| moves_cons c ms c1 ms' c2 :
    move pok id S c ms c1 → moves pok id S c1 ms' c2 → moves pok id S c (ms ++ ms') c2.

Lemma moves_one pok id S c ms c' : move pok id S c ms c' → moves pok id S c ms c'.
Proof. intros Hm. rewrite <-(app_nil_r ms). by eapply moves_cons, moves_nil. Qed.

Lemma moves_trans pok id S c1 ms c2 ms' c3 :
  moves pok id S c1 ms c2 → moves pok id S c2 ms' c3 → moves pok id S c1 (ms ++ ms') c3.
Proof.
  induction 1 as [|c ms c1 ms1 c2 Hm _ IH]; [done|]. intros H3. rewrite <-app_assoc.
  eapply moves_cons; [done|]. by apply IH.
Qed.

(** ** Full logs *)

Definition term_at (L : list Entry) (i : Index) : option Term :=
  if i =? 0 then Some 0 else e_term <$> L !! (N.to_nat i - 1)%nat.

Abbreviation upto i L := (take (N.to_nat i) L).

(** [l] is the full log [L] with the prefix up to the snapshot base dropped. *)
Definition rep (L : list Entry) (l : RaftLog) : Prop :=
  (N.to_nat (snap_index l) <= length L)%nat
  ∧ entries l = drop (N.to_nat (snap_index l)) L
  ∧ term_at L (snap_index l) = Some (snap_term l).

Lemma rep_last L l : rep L l → RL.last_index l = N.of_nat (length L).
Proof. intros (H1 & H2 & _). unfold RL.last_index. rewrite H2, length_drop. lia. Qed.

Lemma rep_get L l i :
  rep L l → snap_index l < i → RL.get l i = L !! (N.to_nat i - 1)%nat.
Proof.
  intros (H1 & H2 & _) Hi. apply option_eq. intros e. rewrite get_Some, H2, lookup_drop.
  unfold RL.pos. replace (N.to_nat (snap_index l) + _)%nat with (N.to_nat i - 1)%nat by lia.
  tauto.
Qed.

Lemma rep_term L l i : rep L l → snap_index l ≤ i → RL.term l i = term_at L i.
Proof.
  intros Hrep Hi. destruct (decide (i = snap_index l)) as [->|Hne].
  { rewrite term_snap. by destruct Hrep as (_ & _ & ->). }
  rewrite term_get by done. rewrite (rep_get L) by (done || lia). unfold term_at.
  by destruct (N.eqb_spec i 0); [lia|].
Qed.

Lemma term_at_last L : term_at L (N.of_nat (length L)) = Some (log_last_term L).
Proof.
  unfold term_at, log_last_term. rewrite last_lookup.
  destruct L as [|e L]; [done|]. destruct (N.eqb_spec (N.of_nat (length (e :: L))) 0); [simpl in *; lia|].
  rewrite Nat2N.id, Nat.sub_1_r.
  destruct (lookup_lt_is_Some_2 (e :: L) (pred (length (e :: L)))) as [e' ->]; [simpl; lia|done].
Qed.

Lemma rep_last_term L l : rep L l → RL.last_term l = log_last_term L.
Proof.
  intros (H1 & H2 & H3). unfold RL.last_term. rewrite H2.
  destruct (decide (length L = N.to_nat (snap_index l))) as [He|He].
  - rewrite drop_ge by lia. simpl.
    replace (snap_index l) with (N.of_nat (length L)) in H3 by lia.
    rewrite term_at_last in H3. by injection H3.
  - unfold log_last_term. rewrite !last_lookup, lookup_drop, length_drop.
    replace (N.to_nat (snap_index l) + pred _)%nat with (pred (length L)) by lia.
    destruct (lookup_lt_is_Some_2 L (pred (length L))) as [e ->]; [lia|done].
Qed.

Lemma term_at_Some L i t :
  term_at L i = Some t → (N.to_nat i <= length L)%nat
    ∧ (i = 0 ∧ t = 0 ∨ ∃ e, 0 < i ∧ L !! (N.to_nat i - 1)%nat = Some e ∧ e_term e = t).
Proof.
  unfold term_at. destruct (N.eqb_spec i 0) as [->|Hne].
  - intros [= <-]. split; [lia|by left].
  - intros (e & He & ->)%fmap_Some. split; [apply lookup_lt_Some in He; lia|].
    right. exists e. split_and!; [lia|done..].
Qed.

Lemma rep_push L l e : rep L l → rep (L ++ [e]) (RL.push l e).
Proof.
  intros (H1 & H2 & H3). split_and!; simpl.
  - rewrite length_app. lia.
  - by rewrite H2, drop_app_le.
  - rewrite <-H3. unfold term_at. destruct (N.eqb_spec (snap_index l) 0); [done|].
    by rewrite lookup_app_l by lia.
Qed.

(** ** The invariant *)

Section invariant.
  Context (V0 : list NodeId) (pok : EntryPayload → Prop) (dok : list Entry → bytes → Prop).
  Implicit Types h : history.

(** The hard state records the node's vote of its term, and no later vote. *)
Definition hs_inv h (id : NodeId) (hs : HardState) : Prop :=
  (∀ x, hs_voted_for hs = Some x ↔ ∃ L', h_votes h !! (id, hs_term hs) = Some (x, L'))
  ∧ ∀ t, hs_term hs < t → h_votes h !! (id, t) = None.

(** The log is a log of the protocol and holds what the node acknowledged. *)
Record log_inv h (id : NodeId) (t : Term) (l : RaftLog) (L : list Entry) : Prop := {
  li_rep : rep L l;
  li_ok : log_ok pok h L;
  li_terms : ∀ e, e ∈ L → e_term e ≤ t;
  li_kept : kept h id (t + 1) (t + 1) L;
  li_acks : ∀ t0 k, h_acks h !! (id, t0) = Some k → t0 ≤ t;
}.

Definition role_inv h (id : NodeId) (t : Term) (r : Role) (vs : gmap NodeId bool)
    (M : gmap NodeId Index) (L : list Entry) : Prop :=
  match r with
  | Leader => h_leaders h !! t = Some (id, L)
    ∧ ∀ u k, M !! u = Some k → 0 < k → acked h u t (N.to_nat k)
  | Candidate => h_cands h !! (id, t) = Some L ∧ (∀ l, h_leaders h !! t ≠ Some (id, l))
    ∧ ∀ u, vs !! u = Some true → ∃ L', h_votes h !! (u, t) = Some (id, L')
  | _ => True
  end.

Definition commit_inv h (t : Term) (l : RaftLog) (c : Index) (L : list Entry) : Prop :=
  snap_index l ≤ c ∧ (N.to_nat c <= length L)%nat ∧ committed_prefix V0 h t (upto c L).

Definition snap_inv (l : RaftLog) (vb : list NodeId) (s : option Snapshot) (L : list Entry) : Prop :=
  vb = V0 ∧
  match s with
  | Some s => s_last_index s = snap_index l ∧ s_last_term s = snap_term l ∧ s_voters s = V0
              ∧ dok (upto (snap_index l) L) (s_data s)
  | None => snap_index l = 0
  end.

Record node_inv h (id : NodeId) (c : Core) (L : list Entry) : Prop := {
  ni_hs : hs_inv h id (k_hs c);
  ni_log : log_inv h id (k_term c) (k_log c) L;
  ni_role : role_inv h id (k_term c) (k_role c) (k_votes c) (k_match c) L;
  ni_commit : commit_inv h (k_term c) (k_log c) (k_commit c) L;
  ni_snap : snap_inv (k_log c) (k_vbase c) (k_snap c) L;
}.

(** What a message tells about the history. *)
Definition msg_inv h (m : Message) : Prop :=
  match m_body m with
  | RequestVote lli llt => ∃ cl, h_cands h !! (m_from m, m_term m) = Some cl
      ∧ lli = N.of_nat (length cl) ∧ llt = log_last_term cl
  | RequestVoteResp true => ∃ L, h_votes h !! (m_from m, m_term m) = Some (m_to m, L)
  | AppendEntries prev pt es lc _ => ∃ l, h_leaders h !! m_term m = Some (m_from m, l)
      ∧ term_at l prev = Some pt ∧ es ⪯ drop (N.to_nat prev) l
      ∧ (N.to_nat lc <= length l)%nat ∧ committed_prefix V0 h (m_term m) (upto lc l)
  | AppendEntriesResp true k _ _ | InstallSnapshotResp k =>
      0 < k → acked h (m_from m) (m_term m) (N.to_nat k)
  | InstallSnapshot s => ∃ l, h_leaders h !! m_term m = Some (m_from m, l)
      ∧ term_at l (s_last_index s) = Some (s_last_term s)
      ∧ committed_prefix V0 h (m_term m) (upto (s_last_index s) l)
      ∧ s_voters s = V0 ∧ dok (upto (s_last_index s) l) (s_data s)
  | _ => True
  end.

Record world_inv (cs : NodeId → Core) (S : Message → Prop) h (F : NodeId → list Entry) : Prop := {
  wi_history : history_ok V0 pok h;
  wi_nodes : ∀ id, node_inv h id (cs id) (F id);
  wi_msgs : ∀ m, S m → msg_inv h m;
}.
End invariant.

(** What holds with payloads of one kind holds with those of a wider one. *)
Section wider.
  Context (V0 : list NodeId) (pok pok' : EntryPayload → Prop) (dok : list Entry → bytes → Prop).
  Context (Hp : ∀ p, pok p → pok' p).

Lemma log_ok_wider h L : log_ok pok h L → log_ok pok' h L.
Proof. intros HL i e Hi. destruct (HL i e Hi) as (? & ? & ?). auto. Qed.

Lemma history_ok_wider h : history_ok V0 pok h → history_ok V0 pok' h.
Proof.
  intros [H1 H2 H3 H4 H5]. split; [|done| | |done].
  - intros t o l Hl. destruct (H1 t o l Hl) as (? & ? & ?). auto using log_ok_wider.
  - intros x t cl Hx. destruct (H3 x t cl Hx) as (? & ? & ?). auto using log_ok_wider.
  - intros u t x L Hu. destruct (H4 u t x L Hu) as (? & ? & ?). auto using log_ok_wider.
Qed.

Lemma world_inv_wider cs S h F : world_inv V0 pok dok cs S h F → world_inv V0 pok' dok cs S h F.
Proof.
  intros [Hh Hn Hm]. split; [by apply history_ok_wider| |done].
  intros id. destruct (Hn id) as [? [? ? ? ? ?] ? ? ?]. split; try done. split; auto using log_ok_wider.
Qed.
End wider.
