(* ===== verification/ProtocolSafety.v ===== *)
(** * Every move keeps the invariant

    One lemma per move of the protocol: from a node that satisfies the
    invariant and messages that do, the node after the move and the messages it
    sends satisfy the invariant of a longer history. *)

From S2P Require Import Prelude RaftTypes RaftLog RaftLogFacts RaftNode RaftNodeFacts.
From S2P Require Import RaftProps RaftHistory HistorySteps RaftProtocol.
Local Open Scope N_scope.

Local Infix "⪯" := prefix (at level 70).

(** ** Quorums *)

Lemma voters_fold_static idx v es :
  (∀ e, e ∈ es → is_conf (e_payload e) = false) → voters_fold idx v es = v.
Proof.
  revert v. induction es as [|e es IH]; intros v Hes; simpl; [done|].
  destruct (idx <? e_index e); [done|]. rewrite IH by (intros; apply Hes; by right).
  specialize (Hes e ltac:(left)). by destruct (e_payload e) as [| |[]].
Qed.

Lemma quorum_of_votes V0 (vs : gmap NodeId bool) :
  (length V0 / 2 + 1 <= size (filter (λ kv : NodeId * bool, kv.2 = true ∧ kv.1 ∈ V0) vs))%nat →
  ∃ Q, is_quorum V0 Q ∧ ∀ u, u ∈ Q → vs !! u = Some true.
Proof.
  intros Hle. set (m := filter _ vs) in Hle. exists (dom m). split.
  - split; [|by rewrite size_dom]. intros u [b Hb]%elem_of_dom.
    apply map_lookup_filter_Some in Hb as [_ [_ Hin]]. by apply elem_of_list_to_set.
  - intros u [b Hb]%elem_of_dom. apply map_lookup_filter_Some in Hb as [Hb [Ht _]].
    simpl in Ht. by subst b.
Qed.

Lemma quorum_of_list V0 (P : NodeId → Prop) `{∀ v, Decision (P v)} :
  NoDup V0 → (length V0 / 2 + 1 <= length (filter P V0))%nat →
  ∃ Q, is_quorum V0 Q ∧ ∀ u, u ∈ Q → P u.
Proof.
  intros Hnd Hle. exists (list_to_set (filter P V0)). split.
  - split; [|by rewrite size_list_to_set by by apply NoDup_filter].
    intros u. rewrite !elem_of_list_to_set, list_elem_of_filter. tauto.
  - intros u. rewrite elem_of_list_to_set, list_elem_of_filter. tauto.
Qed.

Section safety.
  Context (V0 : list NodeId) (pok : EntryPayload → Prop) (dok : list Entry → bytes → Prop).
  Context (Hnd : NoDup V0) (Hconf : ∀ p, pok p → is_conf p = false).
  Abbreviation hok := (history_ok V0 pok).
  Abbreviation ninv := (node_inv V0 pok dok).
  Abbreviation minv := (msg_inv V0 dok).
  Implicit Types h : history.

(** ** The invariant in a longer history *)

Lemma log_inv_later h id t t' l L : log_inv pok h id t l L → t ≤ t' → log_inv pok h id t' l L.
Proof.
  intros [H1 H2 H3 H4 H5] Hle. split; [done|done| | |].
  - intros e He%H3. lia.
  - intros t0 k o0 l0 Ht Ha Hl. destruct Ha as (k' & Hk' & Hkk).
    pose proof (H5 _ _ Hk') as Ht0. destruct (H4 t0 k o0 l0) as [|(t1 & ? & ? & ?)];
      [lia|by exists k'|done|by left|right]. exists t1. split_and!; [done|lia|done].
  - intros t0 k Hk%H5. lia.
Qed.

Lemma commit_inv_later h t t' l c L :
  commit_inv V0 h t l c L → t ≤ t' → commit_inv V0 h t' l c L.
Proof.
  intros (H1 & H2 & H3) Hle. split_and!; [done..|]. by eapply committed_prefix_later.
Qed.

Section ext.
  Context h h' (Hok : hok h) (Hext : extends h h').

Lemma log_inv_ext id t l L :
  (∀ t0, h_acks h' !! (id, t0) = h_acks h !! (id, t0)) →
  log_inv pok h id t l L → log_inv pok h' id t l L.
Proof.
  intros Ha [H1 H2 H3 H4 H5]. split; [done|by eapply log_ok_ext|done| |].
  - by eapply kept_ext.
  - intros t0 k. rewrite Ha. apply H5.
Qed.

Lemma commit_inv_ext t l c L : commit_inv V0 h t l c L → commit_inv V0 h' t l c L.
Proof. intros (H1 & H2 & H3). split_and!; [done..|]. by eapply committed_prefix_ext. Qed.

Lemma hs_inv_ext id hs :
  (∀ t0, h_votes h' !! (id, t0) = h_votes h !! (id, t0)) → hs_inv h id hs → hs_inv h' id hs.
Proof.
  intros Hv [H1 H2]. split.
  - intros x. by rewrite Hv.
  - intros t Ht. rewrite Hv. by apply H2.
Qed.

Lemma role_inv_ext id t r vs M L :
  h_leaders h' = h_leaders h → role_inv h id t r vs M L → role_inv h' id t r vs M L.
Proof.
  intros Hl. unfold role_inv. rewrite Hl. destruct r; [done|done| |].
  - intros (H1 & H2 & H3). split_and!; [by eapply lookup_weaken; [|apply Hext]|done|].
    intros u [L' HL']%H3. exists L'. by eapply lookup_weaken; [|apply Hext].
  - intros [H1 H2]. split; [done|]. intros u k Hk Hpos. by apply (ext_acks _ _ Hext), (H2 u k).
Qed.

Lemma term_at_app l x i : (N.to_nat i <= length l)%nat → term_at (l ++ x) i = term_at l i.
Proof.
  intros Hi. unfold term_at. destruct (N.eqb_spec i 0); [done|]. by rewrite lookup_app_l by lia.
Qed.

Lemma msg_inv_ext m : minv h m → minv h' m.
Proof.
  unfold msg_inv. destruct (m_body m) as [| | |[]|prev pt es lc ctx|[] k ci ctx|s|k]; try done.
  - intros (cl & Hcl & Hr). exists cl. split; [|done]. by eapply lookup_weaken; [|apply Hext].
  - intros (L & HL). exists L. by eapply lookup_weaken; [|apply Hext].
  - intros (l & Hl & Ht & Hes & Hlc & Hc).
    destruct (ext_leaders _ _ Hext _ _ _ Hl) as (x & Hl' & _). exists (l ++ x).
    apply term_at_Some in Ht as Hb. destruct Hb as [Hb _].
    split_and!; [done|by rewrite term_at_app| |rewrite length_app; lia|].
    + rewrite drop_app_le by done. by apply prefix_app_r.
    + rewrite take_app_le by done. by eapply committed_prefix_ext.
  - intros Ha Hk. by apply (ext_acks _ _ Hext), Ha.
  - intros (l & Hl & Ht & Hc & Hv & Hd).
    destruct (ext_leaders _ _ Hext _ _ _ Hl) as (x & Hl' & _). exists (l ++ x).
    apply term_at_Some in Ht as Hb. destruct Hb as [Hb _].
    rewrite take_app_le by done.
    split_and!; [done|by rewrite term_at_app|by eapply committed_prefix_ext|done|done].
  - intros Ha Hk. by apply (ext_acks _ _ Hext), Ha.
Qed.

(** What another node did leaves a node's part of the invariant alone. *)
Lemma node_inv_other v id c L : id ≠ v → only_by v h h' → ninv h id c L → ninv h' id c L.
Proof.
  intros Hne [Hv Hl Ha] [H1 H2 H3 H4 H5]. split.
  - apply hs_inv_ext; [|done]. intros. by apply Hv.
  - apply log_inv_ext; [|done]. intros. by apply Ha.
  - revert H3. unfold role_inv. destruct (k_role c); [done|done| |].
    + intros (G1 & G2 & G3). split_and!.
      * by eapply lookup_weaken; [|apply Hext].
      * intros l Hl'. apply (G2 l). by apply Hl.
      * intros u [L' HL']%G3. exists L'. by eapply lookup_weaken; [|apply Hext].
    + intros [G1 G2]. destruct (ext_leaders _ _ Hext _ _ _ G1) as (x & Hx & _).
      pose proof (Hl _ _ _ Hx Hne) as Hx'. rewrite G1 in Hx'. injection Hx' as Hx'.
      rewrite Hx' at 1. split; [done|]. intros u k Hk Hpos.
      by apply (ext_acks _ _ Hext), (G2 u k).
  - by apply commit_inv_ext.
  - done.
Qed.
End ext.

(** ** The moves, one by one *)

(** What a move of node [id] leads to. *)
Definition moved h (id : NodeId) (ms : list Message) (c' : Core) : Prop :=
  ∃ h' L', hok h' ∧ extends h h' ∧ only_by id h h' ∧ ninv h' id c' L' ∧ Forall (minv h') ms.

Lemma moved_same h id ms c' L :
  hok h → ninv h id c' L → Forall (minv h) ms → moved h id ms c'.
Proof.
  intros Hok Hn Hm. exists h, L. split_and!; [done|apply extends_refl|apply only_by_refl|done|done].
Qed.

Section moves.
  Context h (Hok : hok h) (id : NodeId) (c : Core) (L : list Entry) (Hn : ninv h id c L).
  Context (S : Message → Prop) (HS : ∀ m, S m → minv h m).

Lemma static_voters : k_voters c = V0.
Proof.
  destruct Hn as [_ [Hrep Hlog _ _ _] _ _ [Hvb _]]. unfold k_voters. rewrite Hvb.
  apply voters_fold_static. intros e He. destruct Hrep as (_ & Hes & _). rewrite Hes in He.
  apply list_elem_of_lookup in He as [i Hi]. rewrite lookup_drop in Hi.
  destruct (Hlog _ _ Hi) as (_ & Hp & _). by apply Hconf.
Qed.

Lemma follow_moved t r vs M :
  r = Follower ∨ r = PreCandidate →
  moved h id [] (mkCore (if k_term c <? t then mkHS t None else k_hs c) r vs
      (k_log c) (k_commit c) (k_vbase c) (k_snap c) M).
Proof.
  intros Hr. destruct Hn as [[Hv Hf] Hlog _ Hc Hs]. apply (moved_same h id _ _ L); [done| |done].
  set (hs := if k_term c <? t then _ else _).
  assert (k_term c ≤ hs_term hs ∧ hs_inv h id hs) as [Hle Hhs].
  { unfold hs. destruct (N.ltb_spec (k_term c) t); [|done]. simpl. split; [lia|]. split; simpl.
    - intros x. rewrite Hf by done. naive_solver.
    - intros t' Ht'. apply Hf. unfold k_term in *. lia. }
  split; unfold k_term; simpl; [done| | | |done].
  - by eapply log_inv_later.
  - by destruct Hr as [->| ->].
  - by eapply commit_inv_later.
Qed.

Lemma campaign_moved M :
  moved h id [] (mkCore (mkHS (k_term c + 1) (Some id)) Candidate {[id := true]}
      (k_log c) (k_commit c) (k_vbase c) (k_snap c) M).
Proof.
  destruct Hn as [[Hv Hf] Hlog _ Hc Hs]. set (t := k_term c + 1).
  assert (h_votes h !! (id, t) = None) as Hnone by (apply Hf; unfold t, k_term; lia).
  destruct (add_campaign_ok V0 pok id t L h) as (Hok' & Hext & Hby).
  { done. } { done. } { apply Hlog. }
  { intros e He%(li_terms _ _ _ _ _ _ Hlog). unfold t. lia. }
  { apply Hlog. }
  exists (add_campaign id t L h), L. split_and!; [done..| |done]. split; unfold k_term; simpl.
  - split; simpl.
    + intros x. rewrite lookup_insert, decide_True by done. naive_solver.
    + intros t' Ht'. rewrite lookup_insert_ne by (intros [= ?]; lia).
      apply Hf. unfold t, k_term in Ht'. lia.
  - apply (log_inv_ext _ _ Hok Hext); [done|]. eapply log_inv_later; [done|unfold t; lia].
  - rewrite lookup_insert, decide_True by done. split_and!; [done| |].
    + intros l Hl. destruct (ho_leader_log _ _ _ Hok _ _ _ Hl) as (_ & _ & cl & Hcl & _).
      destruct (ho_cand _ _ _ Hok _ _ _ Hcl) as (_ & _ & ? & ?). congruence.
    + intros u Hu. apply lookup_singleton_Some in Hu as [<- _]. exists L.
      by rewrite lookup_insert, decide_True.
  - apply (commit_inv_ext _ _ Hext). eapply commit_inv_later; [done|unfold t; lia].
  - done.
Qed.

Lemma ask_moved ms :
  k_role c = Candidate →
  Forall (λ m, m_from m = id ∧ m_term m = k_term c
    ∧ m_body m = RequestVote (RL.last_index (k_log c)) (RL.last_term (k_log c))) ms →
  moved h id ms c.
Proof.
  intros Hr Hms. apply (moved_same h id _ _ L); [done..|]. eapply Forall_impl; [done|].
  intros m (Hf & Ht & Hb). unfold msg_inv. rewrite Hb, Hf, Ht. exists L.
  destruct Hn as [_ [Hrep _ _ _ _] Hrole _ _]. rewrite Hr in Hrole.
  destruct Hrole as (Hcl & _). split_and!; [done|by apply rep_last|by apply rep_last_term].
Qed.

Lemma grant_moved m lli llt :
  S m → m_term m = k_term c → m_body m = RequestVote lli llt →
  hs_voted_for (k_hs c) = None ∨ hs_voted_for (k_hs c) = Some (m_from m) →
  RL.last_term (k_log c) < llt ∨ RL.last_term (k_log c) = llt ∧ RL.last_index (k_log c) ≤ lli →
  moved h id [mkMsg id (m_from m) (k_term c) (RequestVoteResp true)]
    (mkCore (mkHS (k_term c) (Some (m_from m))) (k_role c) (k_votes c)
      (k_log c) (k_commit c) (k_vbase c) (k_snap c) (k_match c)).
Proof.
  intros HSm Ht Hb Hvote Hutd. destruct Hn as [[Hv Hf] Hlog Hr Hc Hs].
  apply HS in HSm. unfold msg_inv in HSm. rewrite Hb, Ht in HSm.
  destruct HSm as (cl & Hcl & -> & ->).
  rewrite (rep_last L), (rep_last_term L) in Hutd by apply Hlog.
  destruct Hvote as [Hvote|Hvote].
  - assert (h_votes h !! (id, k_term c) = None) as Hnone.
    { apply eq_None_not_Some. intros [[x Lx] Hx].
      assert (hs_voted_for (k_hs c) = Some x) by (apply Hv; eauto). congruence. }
    destruct (add_vote_ok V0 pok id (k_term c) (m_from m) L cl h) as (Hok' & Hext & Hby);
      [done|done|apply Hlog|done| | |].
    { destruct Hutd as [?|[? ?]]; [by left|right]. split; [done|lia]. }
    { intros t0 k o0 l0 H1 H2 H3. apply (li_kept _ _ _ _ _ _ Hlog t0 k o0 l0); [lia|done..]. }
    exists (add_vote id (k_term c) (m_from m) L h), L. split_and!; [done..| |].
    + split; simpl; [|by apply (log_inv_ext _ _ Hok Hext)|by apply (role_inv_ext _ _ Hext)
        |by apply (commit_inv_ext _ _ Hext)|done].
      split; simpl.
      * intros x. rewrite lookup_insert, decide_True by done. naive_solver.
      * intros t' Ht'. rewrite lookup_insert_ne by (intros [= ?]; lia). by apply Hf.
    + constructor; [|done]. unfold msg_inv. simpl. exists L.
      by rewrite lookup_insert, decide_True.
  - assert (mkHS (k_term c) (Some (m_from m)) = k_hs c) as ->
      by (rewrite <-Hvote; unfold k_term; by destruct (k_hs c)).
    apply (moved_same h id _ _ L); [done|by split|]. constructor; [|done]. unfold msg_inv. simpl.
    by apply Hv in Hvote.
Qed.

Lemma vote_moved u (g : bool) :
  (k_role c = Candidate → g = true → ∃ m, S m ∧ m_from m = u ∧ m_to m = id
     ∧ m_term m = k_term c ∧ m_body m = RequestVoteResp true) →
  moved h id [] (mkCore (k_hs c) (k_role c) (<[u := g]> (k_votes c))
      (k_log c) (k_commit c) (k_vbase c) (k_snap c) (k_match c)).
Proof.
  intros Hg. destruct Hn as [Hhs Hlog Hr Hc Hs]. apply (moved_same h id _ _ L); [done| |done].
  split; [done|done| |done|done]. revert Hr Hg. unfold role_inv. simpl.
  destruct (k_role c); try done. intros (H1 & H2 & H3) Hg. split_and!; [done..|].
  intros w. destruct (decide (w = u)) as [->|Hne].
  - rewrite lookup_insert, decide_True by done. intros [= ->].
    destruct Hg as (m & HSm & Hf & Hto & Ht & Hb); [done..|]. apply HS in HSm.
    unfold msg_inv in HSm. by rewrite Hb, Hf, Ht, Hto in HSm.
  - rewrite lookup_insert_ne by done. apply H3.
Qed.

Lemma lead_moved M :
  k_role c = Candidate →
  (k_quorum c <= size (filter (λ kv : NodeId * bool, kv.2 = true ∧ kv.1 ∈ k_voters c)
    (k_votes c)))%nat →
  (∀ u k, M !! u = Some k → k = 0) →
  moved h id [] (mkCore (k_hs c) Leader (k_votes c)
      (k_log c) (k_commit c) (k_vbase c) (k_snap c) M).
Proof.
  intros Hrole Hq HM. unfold k_quorum in Hq. rewrite static_voters in Hq.
  destruct (quorum_of_votes _ _ Hq) as (Q & HQ & Hvs).
  destruct Hn as [Hhs Hlog Hr Hc Hs]. rewrite Hrole in Hr. destruct Hr as (Hcl & Hno & Hvts).
  assert (h_leaders h !! k_term c = None) as Hnone.
  { apply eq_None_not_Some. intros [[o l] Hl].
    destruct (ho_leader_votes _ _ _ Hok _ _ _ Hl) as (Q' & HQ' & Hvs').
    destruct (quorums_meet V0 Q Q' Hnd HQ HQ') as (u & Hu & Hu').
    destruct (Hvts u (Hvs u Hu)) as (L1 & H1). destruct (Hvs' u Hu') as (L2 & H2 & _).
    rewrite H1 in H2. injection H2 as <- <-. by apply (Hno l). }
  destruct (add_leader_ok V0 pok id (k_term c) L h Q) as (Hok' & Hext & Hby); [done..| |].
  { intros u Hu. by apply Hvts, Hvs. }
  exists (add_leader id (k_term c) L h), L. split_and!; [done..| |done].
  split; simpl; [done|by apply (log_inv_ext _ _ Hok Hext)| |by apply (commit_inv_ext _ _ Hext)|done].
  unfold k_term at 2. simpl. rewrite lookup_insert, decide_True by done. split; [done|].
  intros u k Hk Hpos. apply HM in Hk. lia.
Qed.

Lemma append_moved p :
  k_role c = Leader → pok p →
  moved h id [] (mkCore (k_hs c) Leader (k_votes c)
      (RL.push (k_log c) (mkEntry (k_term c) (RL.last_index (k_log c) + 1) p))
      (k_commit c) (k_vbase c) (k_snap c) (k_match c)).
Proof.
  intros Hrole Hp. destruct Hn as [Hhs Hlog Hr Hc Hs]. rewrite Hrole in Hr.
  destruct Hr as [Hl HM]. set (e := mkEntry _ _ _).
  destruct (grow_leader_ok V0 pok id (k_term c) L e h) as (Hok' & Hext & Hby); [done..| |done|done|].
  { simpl. rewrite (rep_last L) by apply Hlog. lia. }
  set (h' := add_leader id (k_term c) (L ++ [e]) h) in *.
  assert (h_leaders h' !! k_term c = Some (id, L ++ [e])) as Hl'
    by (simpl; by rewrite lookup_insert, decide_True).
  assert (N.to_nat (k_commit c) <= length L)%nat as Hcl by apply Hc.
  assert (N.to_nat (snap_index (k_log c)) <= length L)%nat as Hsl by apply Hlog.
  exists h', (L ++ [e]). split_and!; [done..| |done]. split.
  - done.
  - destruct (log_inv_ext _ _ Hok Hext id (k_term c) (k_log c) L) as [H1 H2 H3 H4 H5]; [done|done|].
    destruct (ho_leader_log _ _ _ Hok' _ _ _ Hl') as (G1 & G2 & _).
    split; [by apply rep_push|done|done| |done].
    intros t0 k o0 l0 Ht0 Ha Hl0. destruct (H4 t0 k o0 l0 Ht0 Ha Hl0) as [|]; [left|by right].
    by apply prefix_app_r.
  - split; [done|]. intros u k Hk Hpos. by apply (ext_acks _ _ Hext), (HM u k).
  - destruct (commit_inv_ext _ _ Hext _ _ _ _ Hc) as (H1 & H2 & H3).
    split_and!; simpl; [done|rewrite length_app; lia|]. by rewrite take_app_le by lia.
  - destruct Hs as [Hvb Hs]. split; [done|]. simpl. rewrite take_app_le by lia. done.
Qed.

Lemma match_moved M :
  k_role c = Leader →
  (∀ u k, M !! u = Some k → 0 < k →
     (∃ k0, k_match c !! u = Some k0 ∧ k ≤ k0)
     ∨ ∃ m, S m ∧ m_from m = u ∧ m_term m = k_term c
         ∧ ((∃ ci ctx, m_body m = AppendEntriesResp true k ci ctx)
            ∨ m_body m = InstallSnapshotResp k)) →
  moved h id [] (mkCore (k_hs c) Leader (k_votes c)
      (k_log c) (k_commit c) (k_vbase c) (k_snap c) M).
Proof.
  intros Hrole HM. destruct Hn as [Hhs Hlog Hr Hc Hs]. rewrite Hrole in Hr.
  apply (moved_same h id _ _ L); [done| |done]. split; [done|done| |done|done].
  destruct Hr as [Hl Hm]. split; [done|]. intros u k Hk Hpos.
  destruct (HM u k Hk Hpos) as [(k0 & Hk0 & Hle)|(m & HSm & Hf & Ht & Hb)].
  - destruct (Hm u k0 Hk0) as (k' & Hk' & Hle'); [lia|]. exists k'. split; [done|lia].
  - apply HS in HSm. unfold msg_inv in HSm. rewrite Hf, Ht in HSm.
    destruct Hb as [(ci & ctx & Hb)|Hb]; rewrite Hb in HSm; by apply HSm.
Qed.

(** Acknowledging a leader of the node's own term. *)
Lemma log_inv_ack k o l (t := k_term c) :
  h_leaders h !! t = Some (o, l) → (k <= length l)%nat → take k l ⪯ L →
  hok (add_ack id t k h) ∧ extends h (add_ack id t k h) ∧ only_by id h (add_ack id t k h)
  ∧ log_inv pok (add_ack id t k h) id t (k_log c) L.
Proof.
  intros Hl Hk Hpre. destruct Hn as [[_ Hf] Hlog _ _ _].
  destruct (add_ack_ok V0 pok id t k o l h) as (Hok' & Hext & Hby); [done..|].
  split_and!; [done..|]. destruct Hlog as [H1 H2 H3 H4 H5]. split; [done|done|done| |].
  - intros t0 k0 o0 l0 Ht0 Ha Hl0. apply acked_add_ack in Ha as [(_ & -> & Hle)|[Ha|(_ & -> & ->)]].
    + left. simpl in Hl0. rewrite Hl in Hl0. injection Hl0 as <- <-.
      trans (take k l); [by apply prefix_take_mono|done].
    + by apply (H4 t0 k0 o0 l0).
    + left. apply prefix_nil.
  - intros t0 k0. simpl. destruct (decide (t0 = t)) as [->|Hne]; [lia|].
    rewrite lookup_insert_ne by (by intros [= ->]). apply H5.
Qed.

(** A reply that acknowledges [k] entries of the leader's log, from a node whose
    state does not change. *)
Lemma ack_moved k o l m :
  h_leaders h !! k_term c = Some (o, l) → (N.to_nat k <= length l)%nat → upto k l ⪯ L →
  m_from m = id → m_term m = k_term c →
  ((∃ ci ctx, m_body m = AppendEntriesResp true k ci ctx) ∨ m_body m = InstallSnapshotResp k) →
  moved h id [m] c.
Proof.
  intros Hl Hk Hpre Hf Ht Hb.
  destruct (log_inv_ack _ _ _ Hl Hk Hpre) as (Hok' & Hext & Hby & Hlog').
  destruct Hn as [Hhs Hlog Hr Hc Hs].
  exists (add_ack id (k_term c) (N.to_nat k) h), L. split_and!; [done..| |].
  - split; [done|done|by apply (role_inv_ext _ _ Hext)|by apply (commit_inv_ext _ _ Hext)|done].
  - constructor; [|done]. unfold msg_inv. rewrite Hf, Ht.
    assert (acked (add_ack id (k_term c) (N.to_nat k) h) id (k_term c) (N.to_nat k)) as Ha.
    { apply acked_add_ack. left. done. }
    destruct Hb as [(ci & ctx & Hb)|Hb]; by rewrite Hb.
Qed.

Lemma commit_moved k :
  k_role c = Leader → k_commit c < k → RL.term (k_log c) k = Some (k_term c) →
  (k_quorum c <= length (filter (λ v, (k ≤ if v =? id then RL.last_index (k_log c)
     else default 0 (k_match c !! v))%N) (k_voters c)))%nat →
  moved h id [] (mkCore (k_hs c) Leader (k_votes c)
      (k_log c) k (k_vbase c) (k_snap c) (k_match c)).
Proof.
  intros Hrole Hlt Hterm Hq. unfold k_quorum in Hq. rewrite static_voters in Hq.
  destruct (quorum_of_list _ _ Hnd Hq) as (Q & HQ & Hm).
  pose proof Hn as [Hhs Hlog Hr Hc Hs]. rewrite Hrole in Hr. destruct Hr as [Hl HM].
  destruct Hc as (Hc1 & Hc2 & Hc3). rewrite (rep_term L) in Hterm by (apply Hlog || lia).
  apply term_at_Some in Hterm as [Hkl [[? ?]|(e & Hpos & He & Het)]]; [lia|].
  destruct (log_inv_ack (N.to_nat k) id L Hl Hkl (prefix_take _ _)) as (Hok' & Hext & Hby & Hlog').
  set (h' := add_ack id (k_term c) (N.to_nat k) h) in *.
  assert (acked h' id (k_term c) (N.to_nat k)) as Hself by (apply acked_add_ack; by left).
  exists h', L. split_and!; [done..| |done]. split; [done|done| | |done].
  - split; [done|]. intros u k' Hk' Hp. by apply (ext_acks _ _ Hext), (HM u k').
  - split_and!; simpl; [lia|done|]. right. exists (k_term c), (N.to_nat k), id, L.
    split_and!; [unfold k_term; simpl; lia| |done|done]. split_and!; [lia| |].
    + exists id, L, e. done.
    + exists Q. split; [done|]. intros u Hu. specialize (Hm u Hu).
      destruct (N.eqb_spec u id) as [Heq|Hne]; [by rewrite Heq|].
      destruct (k_match c !! u) as [k0|] eqn:Hk0; simpl in Hm; [|lia].
      apply (ext_acks _ _ Hext). destruct (HM u k0 Hk0) as (k' & Hk' & Hle); [lia|].
      exists k'. split; [done|lia].
Qed.

Lemma replicate_moved ms :
  k_role c = Leader → Forall (k_repl id c) ms → moved h id ms c.
Proof.
  intros Hrole Hms. apply (moved_same h id _ _ L); [done..|]. eapply Forall_impl; [done|].
  intros m (Hf & Ht & Hb). destruct Hn as [_ [Hrep Hlok _ _ _] Hr (Hc1 & Hc2 & Hc3) [_ Hs]].
  rewrite Hrole in Hr. destruct Hr as [Hl _]. unfold msg_inv. rewrite Hf, Ht.
  destruct (m_body m) as [| | | |prev pt es lc ctx| |s|]; try done.
  - destruct Hb as (Hpt & Hes & ->). exists L.
    apply term_bounds in Hpt as Hbd. rewrite (rep_term L) in Hpt by (done || lia).
    split_and!; [done|done| |done|done]. apply term_at_Some in Hpt as [Hle _].
    exists (drop (N.to_nat prev + length es) L). rewrite <-drop_drop.
    rewrite <-(take_drop (length es) (drop (N.to_nat prev) L)) at 1. f_equal.
    apply list_eq. intros k. destruct (es !! k) as [e|] eqn:Hk.
    + pose proof (lookup_lt_Some _ _ _ Hk). rewrite lookup_take_lt, lookup_drop by done.
      apply Hes in Hk. rewrite (rep_get L) in Hk by (done || lia). rewrite <-Hk. f_equal. lia.
    + apply lookup_ge_None in Hk. apply lookup_ge_None. rewrite length_take. lia.
  - rewrite Hb in Hs. destruct Hs as (Hs1 & Hs2 & Hs3 & Hs4). exists L.
    rewrite Hs1, Hs2. split_and!; [done|by apply Hrep| |done|done].
    eapply committed_prefix_sub; [done|]. apply prefix_take_mono. lia.
Qed.

Lemma free_moved ms : Forall free_msg ms → moved h id ms c.
Proof.
  intros Hms. apply (moved_same h id _ _ L); [done..|]. eapply Forall_impl; [done|]. intros m.
  unfold free_msg, msg_inv. by destruct (m_body m) as [| | |[]| |[]| |].
Qed.

(** ** Moves that answer a leader *)

(** The node's committed prefix is in the log of the leader of its term. *)
Lemma committed_in_current o l :
  h_leaders h !! k_term c = Some (o, l) → upto (k_commit c) L ⪯ l.
Proof.
  intros Hl. destruct Hn as [_ _ _ (_ & _ & Hc) _].
  eapply (committed_in_leader V0 pok h Hnd Hok); [done|done|lia].
Qed.

Lemma committed_ack o l k :
  h_leaders h !! k_term c = Some (o, l) → k ≤ k_commit c →
  (N.to_nat k <= length l)%nat ∧ upto k l ⪯ L ∧ upto k L ⪯ l.
Proof.
  intros Hl Hk. pose proof (committed_in_current o l Hl) as Hpre.
  destruct Hn as [_ _ _ (_ & Hc & _) _].
  assert (upto k L ⪯ l) as Hp by (trans (upto (k_commit c) L); [apply prefix_take_mono; lia|done]).
  pose proof (prefix_length _ _ Hp) as Hlen. rewrite length_take in Hlen.
  split_and!; [lia| |done].
  rewrite <-(take_prefix_eq _ _ _ Hp) by (rewrite length_take; lia).
  rewrite take_take, Nat.min_id. apply prefix_take.
Qed.

Lemma covered_moved m pi pt es lc ctx dst :
  S m → m_term m = k_term c → m_body m = AppendEntries pi pt es lc ctx →
  moved h id
    [mkMsg id dst (k_term c) (AppendEntriesResp true (snap_index (k_log c)) 0 ctx)] c.
Proof.
  intros HSm Ht Hb. apply HS in HSm. unfold msg_inv in HSm. rewrite Hb, Ht in HSm.
  destruct HSm as (l & Hl & _).
  destruct (committed_ack _ _ (snap_index (k_log c)) Hl) as (H1 & H2 & _); [apply Hn|].
  eapply ack_moved; [done..|by eauto].
Qed.

Lemma snap_stale_moved m s dst :
  S m → m_term m = k_term c → m_body m = InstallSnapshot s →
  moved h id [mkMsg id dst (k_term c) (InstallSnapshotResp (k_commit c))] c.
Proof.
  intros HSm Ht Hb. apply HS in HSm. unfold msg_inv in HSm. rewrite Hb, Ht in HSm.
  destruct HSm as (l & Hl & _).
  destruct (committed_ack _ _ (k_commit c) Hl) as (H1 & H2 & _); [lia|].
  eapply ack_moved; [done..|by right].
Qed.
End moves.

(** ** Moves that change the log on a leader's word *)

Lemma find_new_mismatch l cm es l' e ta :
  find_new l cm es = Some (l', e :: ta) → RL.term l (e_index e) ≠ Some (e_term e).
Proof.
  induction es as [|e0 es IH]; simpl; [done|].
  destruct (RL.term l (e_index e0)) as [t|] eqn:Ht.
  - destruct (N.eqb_spec t (e_term e0)) as [->|Hne]; [done|].
    destruct (cm <? e_index e0); [|done].
    destruct (RL.truncate_from l (e_index e0)); simpl; [|done].
    intros [= <- <- <-]. rewrite Ht. congruence.
  - intros [= <- <- <-]. by rewrite Ht.
Qed.

(** Two logs of the protocol that agree on the term at an index agree up to it. *)
Lemma logs_match_at h L1 L2 i t :
  hok h → log_ok pok h L1 → log_ok pok h L2 →
  term_at L1 i = Some t → term_at L2 i = Some t → upto i L1 = upto i L2.
Proof.
  intros Hok H1 H2 [Hl1 Ht1]%term_at_Some [Hl2 Ht2]%term_at_Some.
  destruct Ht1 as [[-> _]|(e1 & Hp & He1 & Het1)]; [done|].
  destruct Ht2 as [[-> _]|(e2 & _ & He2 & Het2)]; [done|].
  replace (N.to_nat i) with (Datatypes.S (N.to_nat i - 1)) by lia.
  eapply (log_matching pok h); [done..|congruence].
Qed.

(** A node that gives up a log which does not hold the first [m] entries of its
    leader's log for exactly these entries loses nothing it acknowledged. *)
Lemma kept_replaced h id t o l m L :
  kept h id (t + 1) (t + 1) L → h_leaders h !! t = Some (o, l) → ¬ take m l ⪯ L →
  kept h id (t + 1) (t + 1) (take m l).
Proof.
  intros Hk Hl Hno t0 k o0 l0 Ht0 Ha Hl0.
  destruct (Hk t0 k o0 l0 Ht0 Ha Hl0) as [HP|]; [|by right].
  assert (take k l0 ⪯ l → take k l0 ⪯ take m l) as Hin.
  { intros Hp. destruct (decide (length (take k l0) <= m)%nat); [by apply prefix_take_iff|].
    destruct Hno. trans (take k l0); [|done].
    apply (prefix_of_shorter _ _ l); [apply prefix_take|done|]. rewrite length_take. lia. }
  destruct (decide (t0 = t)) as [->|Hne].
  - rewrite Hl in Hl0. injection Hl0 as <- <-. left. apply Hin, prefix_take.
  - destruct (decide (take k l0 ⪯ l)) as [|Hnp]; [left; by apply Hin|right].
    exists t. split_and!; [lia|lia|]. by exists o, l.
Qed.

(** The first entries of the leader's log, put together from a request. *)
Lemma take_request (l : list Entry) i es k :
  es ⪯ drop i l → (k <= length es)%nat →
  take (i + length es) l = take (i + k) l ++ drop k es.
Proof.
  intros Hes Hk. rewrite <-!take_take_drop.
  rewrite <-(take_prefix_eq es (drop i l) k) by done.
  rewrite <-(prefix_eq_take _ _ Hes), <-app_assoc. by rewrite (take_drop k es).
Qed.

(** Truncating after [i + k] and appending the rest of the request. *)
Lemma rep_request L lg l i es k :
  rep L lg → snap_index lg ≤ i → take (N.to_nat i + k) L = take (N.to_nat i + k) l →
  es ⪯ drop (N.to_nat i) l → (N.to_nat i <= length l)%nat → (k <= length es)%nat →
  rep (take (N.to_nat i + length es) l)
    (mkLog (snap_index lg) (snap_term lg)
      (take (RL.pos lg (i + 1 + N.of_nat k)) (entries lg) ++ drop k es)).
Proof.
  intros (H1 & H2 & H3) Hsi Hik Hes Hil Hk.
  assert (length es <= length l - N.to_nat i)%nat
    by (apply prefix_length in Hes; by rewrite length_drop in Hes).
  split_and!; simpl.
  - rewrite length_take. lia.
  - rewrite H2, (take_request l _ es k) by done. unfold RL.pos.
    replace (N.to_nat (i + 1 + N.of_nat k - snap_index lg - 1))
      with (N.to_nat i + k - N.to_nat (snap_index lg))%nat by lia.
    rewrite take_drop_commute.
    replace (N.to_nat (snap_index lg) + (N.to_nat i + k - N.to_nat (snap_index lg)))%nat
      with (N.to_nat i + k)%nat by lia.
    rewrite Hik, drop_app_le; [done|]. rewrite length_take. lia.
  - rewrite <-H3. unfold term_at. destruct (N.eqb_spec (snap_index lg) 0); [done|]. f_equal.
    rewrite lookup_take_lt by lia.
    rewrite <-(lookup_take_lt L (N.to_nat i + k)), Hik, lookup_take_lt by lia. done.
Qed.

(** The entries of a request whose terms the node's log has agree with it. *)
Lemma request_agrees h lg L l i es k :
  hok h → rep L lg → log_ok pok h L → log_ok pok h l → snap_index lg ≤ i →
  upto i L = upto i l → es ⪯ drop (N.to_nat i) l → (k <= length es)%nat →
  (∀ j e, (j < k)%nat → es !! j = Some e → RL.term lg (i + 1 + N.of_nat j) = Some (e_term e)) →
  take (N.to_nat i + k) L = take (N.to_nat i + k) l.
Proof.
  intros Hok Hrep HL Hl Hsi Hi Hes Hk Hj. destruct k as [|x]; [by rewrite Nat.add_0_r|].
  destruct (lookup_lt_is_Some_2 es x) as [e He]; [lia|].
  specialize (Hj x e ltac:(lia) He). rewrite (rep_term L) in Hj by (done || lia).
  replace (N.to_nat i + Datatypes.S x)%nat with (N.to_nat (i + 1 + N.of_nat x)) by lia.
  eapply logs_match_at; [done..|]. unfold term_at.
  destruct (N.eqb_spec (i + 1 + N.of_nat x) 0); [lia|].
  replace (N.to_nat (i + 1 + N.of_nat x) - 1)%nat with (N.to_nat i + x)%nat by lia.
  rewrite <-lookup_drop. by rewrite (prefix_lookup_Some _ _ _ _ He Hes).
Qed.

(** The log after accepting a request that agrees with the node's log at [i]. *)
Lemma accepted_log h id c L o l i t es l' ta :
  hok h → ninv h id c L → h_leaders h !! k_term c = Some (o, l) →
  upto i L = upto i l → snap_index (k_log c) ≤ i → (N.to_nat i <= length l)%nat →
  es ⪯ drop (N.to_nat i) l →
  RL.term (k_log c) i = Some t → find_new (k_log c) (k_commit c) es = Some (l', ta) →
  let m := (N.to_nat i + length es)%nat in
  ∃ L', rep L' (foldl RL.push l' ta)
    ∧ snap_index (foldl RL.push l' ta) = snap_index (k_log c)
    ∧ snap_term (foldl RL.push l' ta) = snap_term (k_log c)
    ∧ take m L' = take m l ∧ (m <= length l)%nat
    ∧ (L' = L ∨ (L' = take m l ∧ ¬ take m l ⪯ L))
    ∧ (N.to_nat (k_commit c) <= length L')%nat.
Proof.
  intros Hok [_ [Hrep Hlok _ _ _] _ (Hc1 & Hc2 & _) _] Hl Hi Hsi Hil Hes Ht Hfn m.
  destruct (ho_leader_log _ _ _ Hok _ _ _ Hl) as (Hllok & _ & _).
  assert (consecutive (i + 1) es) as Hcons.
  { intros j e Hj. pose proof (prefix_lookup_Some _ _ _ _ Hj Hes) as Hd. rewrite lookup_drop in Hd.
    destruct (Hllok _ _ Hd) as (-> & _). lia. }
  assert (m <= length l)%nat as Hml.
  { apply prefix_length in Hes. rewrite length_drop in Hes. unfold m. lia. }
  assert (RL.contiguous (k_log c)) as Hcont.
  { destruct Hrep as (_ & Hents & _). intros j e Hj. rewrite Hents, lookup_drop in Hj.
    destruct (Hlok _ _ Hj) as (-> & _). lia. }
  apply term_bounds in Ht as Hb. pose proof (rep_last _ _ Hrep) as Hlast.
  destruct (find_new_spec _ _ (i + 1) _ _ _ Hcont Hcons ltac:(lia) ltac:(lia) Hfn)
    as (k & Hk & -> & Hj & Hcase).
  pose proof (request_agrees h _ _ l i es k Hok Hrep Hlok Hllok Hsi Hi Hes Hk Hj) as Hik.
  destruct Hcase as [[-> ->]|(Hk' & Hle & Htr & ->)].
  { exists L. rewrite drop_all. split_and!; [done|done|done|done|done|by left|done]. }
  exists (take m l). rewrite foldl_push. simpl.
  split_and!; [by apply (rep_request L)|done|done|by rewrite take_take, Nat.min_id|done| |].
  - right. split; [done|]. intros Hpre.
    destruct (lookup_lt_is_Some_2 es k) as [e He]; [done|].
    rewrite (drop_S _ _ _ He) in Hfn. apply find_new_mismatch in Hfn.
    rewrite (Hcons _ _ He), (rep_term L) in Hfn by (done || lia). apply Hfn.
    unfold term_at. destruct (N.eqb_spec (i + 1 + N.of_nat k) 0); [lia|].
    replace (N.to_nat (i + 1 + N.of_nat k) - 1)%nat with (N.to_nat i + k)%nat by lia.
    pose proof (prefix_lookup_Some _ _ _ _ He Hes) as Hd. rewrite lookup_drop in Hd.
    rewrite (prefix_lookup_Some (take m l) L _ e); [done| |done].
    by rewrite lookup_take_lt by (unfold m; lia).
  - rewrite length_take. destruct (decide (i + 1 + N.of_nat k ≤ RL.last_index (k_log c))); lia.
Qed.

(** A follower that takes over a log which agrees with its leader's up to [m],
    and commits what its leader told it is committed there. *)
Lemma node_inv_accepted h id c L o l lg L' m C :
  hok h → ninv h id c L → h_leaders h !! k_term c = Some (o, l) →
  rep L' lg → snap_index lg = snap_index (k_log c) → snap_term lg = snap_term (k_log c) →
  take m L' = take m l → (m <= length l)%nat →
  L' = L ∨ (L' = take m l ∧ ¬ take m l ⪯ L) → (N.to_nat (k_commit c) <= length L')%nat →
  C = k_commit c ∨ (k_commit c ≤ C ∧ (N.to_nat C <= m)%nat
    ∧ committed_prefix V0 h (k_term c) (upto C l)) →
  ninv h id (mkCore (k_hs c) Follower (k_votes c) lg C (k_vbase c) (k_snap c) (k_match c)) L'.
Proof.
  intros Hok Hn Hl Hrep Hsi Hst Hm Hml HL' Hcl HC.
  pose proof (committed_in_current h Hok id c L Hn o l Hl) as Hcur.
  destruct Hn as [Hhs Hlog Hr (Hc1 & Hc2 & Hc3) [Hvb Hs]].
  destruct (ho_leader_log _ _ _ Hok _ _ _ Hl) as (Hllok & Hlt & _).
  assert (upto (k_commit c) L' = upto (k_commit c) L) as Hsame.
  { destruct HL' as [->|[-> _]]; [done|]. rewrite length_take in Hcl.
    rewrite take_take, Nat.min_l by lia.
    rewrite <-(take_prefix_eq _ _ (N.to_nat (k_commit c)) Hcur) by (rewrite length_take; lia).
    by rewrite take_take, Nat.min_id. }
  split; [done| |done| |].
  - destruct Hlog as [H1 H2 H3 H4 H5]. split; [done| | | |done]; simpl; unfold k_term; simpl.
    + destruct HL' as [->|[-> _]]; [done|]. by eapply log_ok_prefix; [|apply prefix_take].
    + destruct HL' as [->|[-> _]]; [done|]. intros e He. apply Hlt.
      by eapply elem_of_prefix; [|apply prefix_take].
    + destruct HL' as [->|[-> Hno]]; [done|]. by eapply kept_replaced.
  - assert (m <= length L')%nat
      by (apply (f_equal length) in Hm; rewrite !length_take in Hm; lia).
    split_and!; simpl; [rewrite Hsi; destruct HC as [->|(? & ? & ?)]; lia| |].
    + destruct HC as [->|(? & ? & ?)]; [done|lia].
    + destruct HC as [->|(_ & Hle & Hcp)]; [by rewrite Hsame|].
      replace (upto C L') with (upto C l); [done|].
      rewrite <-(Nat.min_l (N.to_nat C) m), <-!take_take, Hm by lia. done.
  - split; [done|]. simpl. rewrite Hsi, Hst.
    replace (upto (snap_index (k_log c)) L') with (upto (snap_index (k_log c)) L); [done|].
    rewrite <-(Nat.min_l (N.to_nat (snap_index (k_log c))) (N.to_nat (k_commit c))) by lia.
    by rewrite <-!take_take, Hsame.
Qed.

Section leader_moves.
  Context h (Hok : hok h) (id : NodeId) (c : Core) (L : list Entry) (Hn : ninv h id c L).
  Context (S : Message → Prop) (HS : ∀ m, S m → minv h m).

(** Where a request starts in the node's log, the two logs agree. *)
Lemma rebase_agrees o l pi pt es i t es' :
  h_leaders h !! k_term c = Some (o, l) → term_at l pi = Some pt →
  es ⪯ drop (N.to_nat pi) l → rebase (k_log c) pi pt es = (i, t, es') →
  RL.term (k_log c) i = Some t →
  upto i L = upto i l ∧ snap_index (k_log c) ≤ i ∧ (N.to_nat i <= length l)%nat
  ∧ es' ⪯ drop (N.to_nat i) l.
Proof.
  intros Hl Hpt Hes Hrb Ht. unfold rebase in Hrb.
  pose proof Hn as [_ [Hrep Hlok _ _ _] _ (Hc1 & Hc2 & _) _].
  destruct (N.ltb_spec pi (snap_index (k_log c))); injection Hrb as <- <- <-.
  - destruct (committed_ack h Hok id c L Hn _ _ (snap_index (k_log c)) Hl) as (H1 & H2 & H3); [done|].
    split_and!; [|lia|done|].
    + apply prefix_length_eq; [|rewrite !length_take; lia].
      apply prefix_take_iff; [rewrite length_take; lia|done].
    + destruct Hes as [x Hx]. exists (drop (N.to_nat (snap_index (k_log c) - pi) - length es) x).
      rewrite <-drop_app, <-Hx, drop_drop. f_equal. lia.
  - rewrite (rep_term L) in Ht by done.
    split_and!; [|done|by apply term_at_Some in Hpt as [? _]|done].
    eapply logs_match_at; [done..| |done|done]. by apply (ho_leader_log _ _ _ Hok _ _ _ Hl).
Qed.

Lemma accept_moved m pi pt es lc ctx i t es' l' ta dst :
  k_role c = Follower →
  S m → m_term m = k_term c → m_body m = AppendEntries pi pt es lc ctx →
  rebase (k_log c) pi pt es = (i, t, es') →
  RL.term (k_log c) i = Some t → find_new (k_log c) (k_commit c) es' = Some (l', ta) →
  moved h id [mkMsg id dst (k_term c) (AppendEntriesResp true (i + N.of_nat (length es')) 0 ctx)]
    (mkCore (k_hs c) Follower (k_votes c) (foldl RL.push l' ta)
      (N.max (k_commit c) (N.min lc (i + N.of_nat (length es'))))
      (k_vbase c) (k_snap c) (k_match c)).
Proof.
  intros Hrole HSm Htm Hb Hrb Ht Hfn. apply HS in HSm. unfold msg_inv in HSm.
  rewrite Hb, Htm in HSm. destruct HSm as (l & Hl & Hpt & Hes & Hlc & Hcp).
  destruct (rebase_agrees _ _ _ _ _ _ _ _ Hl Hpt Hes Hrb Ht) as (Hi & Hsi & Hil & Hes').
  destruct (accepted_log h id c L _ l i t es' l' ta Hok Hn Hl Hi Hsi Hil Hes' Ht Hfn)
    as (L' & Hrep & Hsi' & Hst' & Hm & Hml & HL' & Hcl).
  set (mm := i + N.of_nat (length es')) in *.
  replace (N.to_nat i + length es')%nat with (N.to_nat mm) in * by lia.
  assert (ninv h id (mkCore (k_hs c) Follower (k_votes c) (foldl RL.push l' ta)
    (N.max (k_commit c) (N.min lc mm)) (k_vbase c) (k_snap c) (k_match c)) L') as Hn'.
  { eapply node_inv_accepted; [done..|]. destruct (decide (N.min lc mm ≤ k_commit c)).
    - left. lia.
    - right. split_and!; [lia|lia|]. eapply committed_prefix_sub; [done|].
      apply prefix_take_mono. lia. }
  apply (ack_moved h Hok id _ L' Hn' mm (m_from m) l); [done|done| |done|done|by eauto].
  rewrite <-Hm. apply prefix_take.
Qed.

Lemma snap_prefix_moved m s dst :
  k_role c = Follower →
  S m → m_term m = k_term c → m_body m = InstallSnapshot s →
  k_commit c < s_last_index s →
  RL.term (k_log c) (s_last_index s) = Some (s_last_term s) →
  moved h id [mkMsg id dst (k_term c) (InstallSnapshotResp (s_last_index s))]
    (mkCore (k_hs c) Follower (k_votes c) (k_log c) (s_last_index s)
      (k_vbase c) (k_snap c) (k_match c)).
Proof.
  intros Hrole HSm Htm Hb Hlt Ht. apply HS in HSm. unfold msg_inv in HSm.
  rewrite Hb, Htm in HSm. destruct HSm as (l & Hl & Hpt & Hcp & _ & _).
  pose proof Hn as [_ [Hrep Hlok _ _ _] _ (Hc1 & Hc2 & _) _].
  rewrite (rep_term L) in Ht by (done || lia).
  assert (upto (s_last_index s) L = upto (s_last_index s) l) as Hm.
  { eapply logs_match_at; [done..| |done|done]. by apply (ho_leader_log _ _ _ Hok _ _ _ Hl). }
  apply term_at_Some in Hpt as [Hle _].
  assert (ninv h id (mkCore (k_hs c) Follower (k_votes c) (k_log c) (s_last_index s)
    (k_vbase c) (k_snap c) (k_match c)) L) as Hn'.
  { eapply (node_inv_accepted h id c L _ l _ L (N.to_nat (s_last_index s)));
      [done|done|done|done|done|done|done|done|by left|done|]. right. split_and!; [lia|lia|done]. }
  apply (ack_moved h Hok id _ L Hn' (s_last_index s) (m_from m) l);
    [done|done| |done|done|by right].
  rewrite <-Hm. apply prefix_take.
Qed.

Lemma snap_install_moved m s dst :
  k_role c = Follower →
  S m → m_term m = k_term c → m_body m = InstallSnapshot s →
  k_commit c < s_last_index s →
  RL.term (k_log c) (s_last_index s) ≠ Some (s_last_term s) →
  moved h id [mkMsg id dst (k_term c) (InstallSnapshotResp (s_last_index s))]
    (mkCore (k_hs c) Follower (k_votes c)
      (mkLog (s_last_index s) (s_last_term s) []) (s_last_index s)
      (s_voters s) (Some s) (k_match c)).
Proof.
  intros Hrole HSm Htm Hb Hlt Ht. apply HS in HSm. unfold msg_inv in HSm.
  rewrite Hb, Htm in HSm. destruct HSm as (l & Hl & Hpt & Hcp & Hv & Hd).
  pose proof Hn as [Hhs [Hrep Hlok _ Hk Ha] _ (Hc1 & Hc2 & _) _].
  apply term_at_Some in Hpt as Hb'. destruct Hb' as [Hle _].
  destruct (ho_leader_log _ _ _ Hok _ _ _ Hl) as (Hllok & Hlt' & _).
  set (L' := upto (s_last_index s) l).
  assert (term_at L' (s_last_index s) = Some (s_last_term s)) as Ht'.
  { rewrite <-Hpt. unfold term_at, L'. destruct (N.eqb_spec (s_last_index s) 0); [done|].
    by rewrite lookup_take_lt by lia. }
  assert (¬ L' ⪯ L) as Hno.
  { intros [x Hx]. apply Ht. rewrite (rep_term L) by (done || lia). rewrite Hx.
    rewrite term_at_app; [done|]. unfold L'. rewrite length_take. lia. }
  assert (length L' = N.to_nat (s_last_index s)) as Hlen by (unfold L'; rewrite length_take; lia).
  assert (ninv h id (mkCore (k_hs c) Follower (k_votes c)
    (mkLog (s_last_index s) (s_last_term s) []) (s_last_index s)
    (s_voters s) (Some s) (k_match c)) L') as Hn'.
  { split; [done| |done| |].
    - split; [| | | |done]; simpl.
      + split_and!; simpl; [lia|by rewrite drop_ge by lia|done].
      + eapply log_ok_prefix; [done|apply prefix_take].
      + intros e He. apply Hlt'. by eapply elem_of_prefix; [|apply prefix_take].
      + by eapply kept_replaced.
    - split_and!; simpl; [lia|lia|]. by rewrite take_ge by lia.
    - split; simpl; [done|]. rewrite take_ge by lia. done. }
  apply (ack_moved h Hok id _ L' Hn' (s_last_index s) (m_from m) l);
    [done|done|done|done|done|by right].
Qed.
End leader_moves.

(** ** Any move *)

Lemma move_moved h id c L S ms c' :
  hok h → ninv h id c L → (∀ m, S m → minv h m) → move pok id S c ms c' → moved h id ms c'.
Proof.
  intros Hok Hn HS. destruct 1; eauto using follow_moved, campaign_moved, ask_moved, vote_moved,
    lead_moved, append_moved, match_moved, commit_moved, replicate_moved, free_moved,
    covered_moved, snap_stale_moved, snap_prefix_moved, snap_install_moved.
  - by eapply grant_moved.
  - by eapply accept_moved.
Qed.

Lemma moves_moved h id c L S ms c' :
  hok h → ninv h id c L → (∀ m, S m → minv h m) → moves pok id S c ms c' → moved h id ms c'.
Proof.
  intros Hok Hn HS Hms. revert h L Hok Hn HS.
  induction Hms as [c|c ms c1 ms' c2 Hm _ IH]; intros h L Hok Hn HS.
  { by eapply moved_same. }
  destruct (move_moved _ _ _ _ _ _ _ Hok Hn HS Hm) as (h1 & L1 & Hok1 & Hext1 & Hby1 & Hn1 & Hm1).
  destruct (IH h1 L1) as (h2 & L2 & Hok2 & Hext2 & Hby2 & Hn2 & Hm2); [done|done| |].
  { intros m Hm'%HS. by apply (msg_inv_ext h h1). }
  exists h2, L2. split_and!; [done|by eapply extends_trans|by eapply only_by_trans|done|].
  apply Forall_app. split; [|done]. eapply Forall_impl; [done|]. intros m. by apply (msg_inv_ext h1 h2).
Qed.

(** ** Restart and compaction *)

Lemma restart_inv h id c L :
  ninv h id c L →
  ninv h id (mkCore (k_hs c) Follower ∅ (k_log c) (snap_index (k_log c)) V0 (k_snap c) ∅) L.
Proof.
  intros [Hhs Hlog _ (Hc1 & Hc2 & Hc3) [_ Hs]]. split; [done|done|done| |done].
  split_and!; simpl; [lia|apply Hlog|]. eapply committed_prefix_sub; [done|].
  apply prefix_take_mono. lia.
Qed.

Lemma compact_inv h id c L a t data :
  ninv h id c L → snap_index (k_log c) < a → a ≤ k_commit c → RL.term (k_log c) a = Some t →
  dok (upto a L) data →
  let vs := voters_fold a (k_vbase c) (entries (k_log c)) in
  ninv h id (mkCore (k_hs c) (k_role c) (k_votes c) (RL.compact (k_log c) a t) (k_commit c) vs
    (Some (mkSnap a t vs data)) (k_match c)) L.
Proof.
  intros [Hhs [Hrep Hlok Ht Hk Ha] Hr (Hc1 & Hc2 & Hc3) [Hvb Hs]] Hlo Hhi Hterm Hd vs.
  assert (vs = V0) as Hvs.
  { unfold vs. rewrite Hvb. apply voters_fold_static. intros e He.
    destruct Hrep as (_ & Hes & _). rewrite Hes in He.
    apply list_elem_of_lookup in He as [i Hi]. rewrite lookup_drop in Hi.
    destruct (Hlok _ _ Hi) as (_ & Hp & _). by apply Hconf. }
  apply term_bounds in Hterm as Hb. rewrite (rep_term L) in Hterm by (done || lia).
  rewrite compact_eq by lia. split; simpl; [done| |done| |].
  - split; [|done..]. destruct Hrep as (H1 & H2 & H3). split_and!; simpl; [lia| |done].
    rewrite H2, drop_drop. f_equal. lia.
  - split_and!; simpl; [done..|]. done.
  - split; [done|]. simpl. done.
Qed.

(** ** The cluster *)

Definition update {A} (f : NodeId → A) (id : NodeId) (x : A) : NodeId → A :=
  λ u, if decide (u = id) then x else f u.

Lemma update_same {A} (f : NodeId → A) id x : update f id x id = x.
Proof. unfold update. by rewrite decide_True. Qed.

Lemma update_other {A} (f : NodeId → A) id x u : u ≠ id → update f id x u = f u.
Proof. intros. unfold update. by rewrite decide_False. Qed.

(** When one node moves, the invariant of the cluster survives, with a longer
    history and its messages added to the soup. *)
Lemma world_moves cs S h F id ms c' :
  world_inv V0 pok dok cs S h F → moves pok id S (cs id) ms c' →
  ∃ h' L', extends h h'
    ∧ world_inv V0 pok dok (update cs id c') (λ m, S m ∨ m ∈ ms) h' (update F id L').
Proof.
  intros [Hok Hns HS] Hms.
  destruct (moves_moved _ _ _ _ _ _ _ Hok (Hns id) HS Hms)
    as (h' & L' & Hok' & Hext & Hby & Hn' & Hm').
  exists h', L'. split; [done|]. split; [done| |].
  - intros u. destruct (decide (u = id)) as [->|Hne]; [by rewrite !update_same|].
    rewrite !update_other by done. by eapply (node_inv_other h h').
  - intros m [Hm%HS|Hm]; [by apply (msg_inv_ext h h' Hext)|].
    rewrite Forall_forall in Hm'. by apply Hm'.
Qed.

(** A node that changes without touching the history. *)
Lemma world_local cs S h F id c' :
  world_inv V0 pok dok cs S h F → ninv h id c' (F id) →
  world_inv V0 pok dok (update cs id c') S h F.
Proof.
  intros [Hok Hns HS] Hn'. split; [done| |done]. intros u.
  destruct (decide (u = id)) as [->|Hne]; [by rewrite update_same|by rewrite update_other].
Qed.
End safety.
