(* ===== verification/RaftRefine.v ===== *)
(** * The node refines the protocol

    Every operation of [RaftNode] (except a membership change and a local
    compaction) is a sequence of moves of the protocol on the node's core, and
    the messages it queues are the messages of these moves. *)

From S2P Require Import Prelude RaftTypes RaftLog RaftLogFacts RaftNode RaftNodeFacts.
From S2P Require Import RaftProps RaftHistory RaftProtocol.
Local Open Scope N_scope.

Section refine.
  Context (pok : EntryPayload → Prop) (Hnoop : pok Noop) (S : Message → Prop).
  Implicit Types n : RaftNode.

(** The node goes from [n] to [n'] by moves of the protocol. *)
Definition by_moves n n' : Prop :=
  n_cfg n' = n_cfg n
  ∧ ∃ ms, o_messages (n_out n') = o_messages (n_out n) ++ ms
          ∧ moves pok (node_id n) S (core n) ms (core n').

#[global] Instance by_moves_preorder : PreOrder by_moves.
Proof.
  split.
  - intros n. split; [done|]. exists []. rewrite app_nil_r. split; [done|constructor].
  - intros n1 n2 n3 [H1 (ms1 & Ho1 & Hm1)] [H2 (ms2 & Ho2 & Hm2)]. split; [congruence|].
    exists (ms1 ++ ms2). split; [by rewrite Ho2, Ho1, app_assoc|].
    eapply moves_trans; [done|]. unfold node_id in *. by rewrite <-H1.
Qed.

(** One move, with the node's configuration and the rest as they were. *)
Lemma by_move ms n n' :
  n_cfg n' = n_cfg n → o_messages (n_out n') = o_messages (n_out n) ++ ms →
  move pok (node_id n) S (core n) ms (core n') → by_moves n n'.
Proof. intros Hcfg Ho Hm. split; [done|]. exists ms. split; [done|]. by apply moves_one. Qed.

(** A change of volatile bookkeeping only. *)
Lemma by_same n n' :
  n_cfg n' = n_cfg n → o_messages (n_out n') = o_messages (n_out n) → core n' = core n →
  by_moves n n'.
Proof.
  intros Hcfg Ho Hc. split; [done|]. exists []. rewrite app_nil_r, Hc. split; [done|constructor].
Qed.

Lemma core_matched n v : default 0 (k_match (core n) !! v) = from_option pr_matched 0 (n_prs n !! v).
Proof. simpl. rewrite lookup_fmap. by destruct (n_prs n !! v). Qed.

(** ** Replication *)

Lemma quiet_by n n' : n_role n = Leader → quiet n n' → by_moves n n'.
Proof.
  intros Hl (P & ms & -> & HP & Hms). trans (push_msgs ms n).
  - apply (by_move ms); [done|done|]. replace (core (push_msgs ms n)) with (core n) by done.
    apply mv_replicate; [done|]. eapply Forall_impl; [done|].
    intros m (Hf & Ht & Hb). split_and!; [done|done|].
    destruct (m_body m); try done. simpl. tauto.
  - apply (by_move []); [done|by rewrite app_nil_r|].
    replace (core (set_prs P (push_msgs ms n))) with
      (mkCore (n_hs n) Leader (n_votes n) (n_log n) (n_commit n) (n_voters_base n) (n_snapshot n)
        (pr_matched <$> P)) by (unfold core; simpl; by rewrite Hl).
    apply mv_match; [done|]. intros u k Hk Hpos. left. simpl.
    rewrite lookup_fmap in Hk. apply fmap_Some in Hk as (pr' & Hpr' & ->).
    destruct (HP _ _ Hpr') as [(pr & Hpr & He & _)|(He & _)]; [|lia].
    exists (pr_matched pr). rewrite lookup_fmap. simpl. rewrite Hpr. split; [done|]. lia.
Qed.

Lemma send_append_by peer n :
  n_role n = Leader ∨ n_prs n = ∅ → by_moves n (send_append peer n).
Proof.
  intros [Hl|He]; [by apply quiet_by, send_append_quiet|].
  unfold send_append. by rewrite He, lookup_empty.
Qed.

Lemma broadcast_append_by n :
  n_role n = Leader ∨ n_prs n = ∅ → by_moves n (broadcast_append n).
Proof.
  intros [Hl|He]; [by apply quiet_by, broadcast_append_quiet|].
  destruct (decide (n_role n = Leader)); [by apply quiet_by, broadcast_append_quiet|].
  unfold broadcast_append, sync_progress_with_voters. rewrite decide_True by done.
  rewrite He. replace (btree_keys ∅) with (@nil N) by (vm_compute; reflexivity). done.
Qed.

(** ** Roles and commit *)

Lemma become_follower_by t l n :
  by_moves n (become_follower t l n)
  ∧ n_role (become_follower t l n) = Follower ∧ n_prs (become_follower t l n) = ∅.
Proof.
  destruct (become_follower_eq t l n) as (T & R & hs & oh & -> & -> & _).
  split; [|done]. apply (by_move []); [done|by rewrite app_nil_r|].
  apply (mv_follow pok (node_id n) S (core n) t Follower (n_votes n) _). by left.
Qed.

Lemma maybe_advance_commit_by n :
  n_role n = Leader →
  by_moves n (maybe_advance_commit n)
  ∧ (n_role (maybe_advance_commit n) = Leader ∨ n_prs (maybe_advance_commit n) = ∅).
Proof.
  intros Hl. unfold maybe_advance_commit. rewrite decide_False by (rewrite Hl; naive_solver).
  change (match_vector n) with (match_of n <$> voters n).
  destruct (sort_desc _ !! _) as [k|] eqn:Hk; [|split; [done|by left]].
  destruct (N.ltb_spec (n_commit n) k) as [Hlt|]; simpl; [|split; [done|by left]].
  case_bool_decide as Ht; [|split; [done|by left]].
  unfold advance_commit_to. set (n1 := set_out _ (set_commit k n)).
  assert (by_moves n n1) as H1.
  { apply (by_move []); [done|by rewrite app_nil_r|].
    replace (core n1) with (mkCore (n_hs n) Leader (n_votes n) (n_log n) k (n_voters_base n)
      (n_snapshot n) (pr_matched <$> n_prs n)) by (unfold core, n1; simpl; by rewrite Hl).
    apply mv_commit; [done|done|done|].
    pose proof (proj1 (quorum_value n (match_of n) k Hk k) ltac:(lia)) as Hq.
    unfold voters_reaching in Hq. change (k_quorum (core n)) with (quorum n).
    change (k_voters (core n)) with (voters n).
    rewrite (list_filter_iff _ (λ v, k ≤ match_of n v)); [done|].
    intros v. unfold match_of. by rewrite core_matched. }
  destruct (existsb _ _); [|split; [done|by left]].
  destruct (become_follower_by (node_term n1) None n1) as (H2 & _ & H3).
  split; [by trans n1|by right].
Qed.

Lemma append_local_by p n :
  n_role n = Leader → pok p →
  by_moves n (append_local p n).1
  ∧ (n_role (append_local p n).1 = Leader ∨ n_prs (append_local p n).1 = ∅).
Proof.
  intros Hl Hp. unfold append_local. simpl. set (n1 := set_out _ _).
  assert (by_moves n n1) as H1.
  { apply (by_move []); [done|by rewrite app_nil_r|].
    replace (core n1) with (mkCore (n_hs n) Leader (n_votes n)
      (RL.push (n_log n) (mkEntry (node_term n) (RL.last_index (n_log n) + 1) p))
      (n_commit n) (n_voters_base n) (n_snapshot n) (pr_matched <$> n_prs n))
      by (unfold core, n1; simpl; by rewrite Hl).
    by apply (mv_append pok (node_id n) S (core n) p). }
  destruct (maybe_advance_commit_by n1 Hl) as [H2 Hr].
  split.
  - trans n1; [done|]. etrans; [exact H2|]. by apply broadcast_append_by.
  - destruct Hr as [Hr|Hr].
    + left. destruct (broadcast_append_quiet (maybe_advance_commit n1)) as (P & ms & -> & _). done.
    + destruct (decide (n_role (maybe_advance_commit n1) = Leader)) as [Hr'|Hr'].
      * left. destruct (broadcast_append_quiet (maybe_advance_commit n1)) as (P & ms & -> & _). done.
      * right. unfold broadcast_append, sync_progress_with_voters. rewrite decide_True by done.
        rewrite Hr. by replace (btree_keys ∅) with (@nil N) by (vm_compute; reflexivity).
Qed.

(** ** Elections *)

(** A new leader knows nothing of its followers' logs. *)
Lemma fresh_matched id next vs (P : gmap NodeId Progress) u pr :
  (∀ pr, P !! u = Some pr → pr_matched pr = 0) →
  foldl (λ prs peer, if peer =? id then prs else <[peer := progress_new next]> prs) P vs !! u
    = Some pr → pr_matched pr = 0.
Proof.
  revert P. induction vs as [|v vs IH]; intros P HP; simpl; [apply HP|]. apply IH.
  destruct (v =? id); [done|]. intros pr'. rewrite lookup_insert_Some.
  intros [[_ <-]|[_ Hp]]; [done|by apply HP].
Qed.

Lemma become_leader_by n :
  n_role n = Candidate → (quorum n <= count_granted n)%nat → by_moves n (become_leader n).
Proof.
  intros Hc Hq. unfold become_leader. set (n1 := set_prs _ (set_read_ctx_counter 0 _)).
  assert (by_moves n n1) as H1.
  { apply (by_move []); [done|by rewrite app_nil_r|].
    apply (mv_lead pok (node_id n) S (core n) (pr_matched <$> n_prs n1)); [done|done|].
    unfold n1. simpl. intros u k. rewrite lookup_fmap. intros (pr & Hpr & ->)%fmap_Some.
    eapply fresh_matched; [|exact Hpr]. intros pr'. by rewrite lookup_empty. }
  destruct (append_local_by Noop n1 eq_refl Hnoop) as [H2 Hr].
  trans n1; [done|]. etrans; [exact H2|]. by apply broadcast_append_by.
Qed.

Lemma campaign_by n : by_moves n (campaign n).
Proof.
  rewrite campaign_unfold. simpl. set (n1 := campaign_start n).
  assert (by_moves n n1) as H1.
  { apply (by_move []); [done|by rewrite app_nil_r|]. apply mv_campaign. }
  destruct (Nat.leb_spec (quorum n1) (count_granted n1)) as [Hq|Hq].
  - trans n1; [done|]. by apply become_leader_by.
  - trans n1; [done|].
    destruct (send_to_voters_eq (node_term n1)
      (RequestVote (RL.last_index (n_log n)) (RL.last_term (n_log n))) n1) as (ms & -> & Hms).
    apply (by_move ms); [done|done|]. replace (core (push_msgs ms n1)) with (core n1) by done.
    apply mv_ask; [done|]. eapply Forall_impl; [done|]. by intros m (? & ? & ? & _).
Qed.

Lemma campaign_pre_by n : by_moves n (campaign_pre n).
Proof.
  unfold campaign_pre. set (n1 := set_votes _ _).
  assert (by_moves n n1) as H1.
  { apply (by_move []); [done|by rewrite app_nil_r|].
    pose proof (mv_follow pok (node_id n) S (core n) 0 PreCandidate (n_votes n1)
      (pr_matched <$> n_prs n1)) as Hm.
    destruct (N.ltb_spec (k_term (core n)) 0); [lia|]. apply Hm. by right. }
  destruct (_ <=? _)%nat; (trans n1; [done|]); [apply campaign_by|].
  destruct (send_to_voters_eq (node_term n1 + 1)
    (PreVote (RL.last_index (n_log n1)) (RL.last_term (n_log n1))) n1) as (ms & -> & Hms).
  apply (by_move ms); [done|done|]. replace (core (push_msgs ms n1)) with (core n1) by done.
  apply mv_free. eapply Forall_impl; [done|]. intros m (_ & _ & Hb & _).
  unfold free_msg. by rewrite Hb.
Qed.

(** ** Ticks, proposals and reads *)

Lemma reset_timer_by n : by_moves n (reset_election_timer n).
Proof. destruct (reset_timer_eq n) as (T & R & ->). by apply by_same. Qed.

Lemma tick_by n : by_moves n (tick n).
Proof.
  unfold tick. set (n1 := set_tick_counter _ n).
  assert (by_moves n n1) as H1 by (by apply by_same).
  assert (by_moves n1 (let n := set_election_elapsed (n_election_elapsed n1 + 1) n1 in
    if n_randomized_timeout n <=? n_election_elapsed n then
      let n := reset_election_timer n in
      if decide (node_id n ∈ voters n) then
        if c_pre_vote (n_cfg n) then campaign_pre n else campaign n
      else n
    else n)) as Hel.
  { simpl. set (n2 := set_election_elapsed _ n1).
    assert (by_moves n1 n2) as H2 by (by apply by_same).
    destruct (_ <=? _); [|done]. trans n2; [done|].
    etrans; [apply reset_timer_by|]. destruct (decide _); [|done].
    destruct (c_pre_vote _); [apply campaign_pre_by|apply campaign_by]. }
  trans n1; [done|]. change (n_role n1) with (n_role n).
  destruct (n_role n) eqn:Hr; [done..|]. simpl.
  destruct (_ <=? _); [|by apply by_same].
  trans (set_heartbeat_elapsed 0 (set_heartbeat_elapsed (n_heartbeat_elapsed n + 1) n1));
    [by apply by_same|]. apply broadcast_append_by. by left.
Qed.

Lemma propose_by data n : pok (Normal data) → by_moves n (propose data n).1.
Proof.
  intros Hp. unfold propose. destruct (decide _) as [|Hl]; [done|]. apply dec_stable in Hl.
  pose proof (append_local_by (Normal data) n Hl Hp) as [H1 _].
  by destruct (append_local (Normal data) n).
Qed.

Lemma release_reads_by k n : by_moves n (release_reads k n).
Proof. by apply by_same. Qed.

Lemma read_index_by r n : by_moves n (read_index r n).1.
Proof.
  unfold read_index. destruct (decide _) as [|Hl]; [done|]. apply dec_stable in Hl.
  destruct (decide _) as [_|_]; [done|]. simpl. set (n1 := set_pending_reads _ _).
  assert (by_moves n n1) as H1 by (by apply by_same).
  trans n1; [done|]. destruct (decide _); [apply release_reads_by|].
  apply broadcast_append_by. by left.
Qed.

Lemma process_read_acks_by n : by_moves n (process_read_acks n).
Proof.
  unfold process_read_acks. destruct (n_pending_reads n); [done|].
  destruct (sort_desc _ !! _); [|done]. destruct (_ <? _); [apply release_reads_by|done].
Qed.

(** ** Answers to a leader *)

Lemma set_progress_by from pr pr' n :
  n_role n = Leader → n_prs n !! from = Some pr →
  (pr_matched pr' ≤ pr_matched pr
   ∨ ∃ m, S m ∧ m_from m = from ∧ m_term m = node_term n
       ∧ ((∃ ci ctx, m_body m = AppendEntriesResp true (pr_matched pr') ci ctx)
          ∨ m_body m = InstallSnapshotResp (pr_matched pr'))) →
  by_moves n (set_prs (<[from := pr']> (n_prs n)) n).
Proof.
  intros Hl Hpr Hev. apply (by_move []); [done|by rewrite app_nil_r|].
  replace (core (set_prs _ n)) with (mkCore (n_hs n) Leader (n_votes n) (n_log n) (n_commit n)
    (n_voters_base n) (n_snapshot n) (pr_matched <$> <[from := pr']> (n_prs n)))
    by (unfold core; simpl; by rewrite Hl).
  apply mv_match; [done|]. intros u k. rewrite lookup_fmap. intros (q & Hq & ->)%fmap_Some Hpos.
  apply lookup_insert_Some in Hq as [[<- <-]|[_ Hq]].
  - destruct Hev as [Hle|Hev]; [left|by right]. exists (pr_matched pr). simpl.
    by rewrite lookup_fmap, Hpr.
  - left. exists (pr_matched q). simpl. rewrite lookup_fmap, Hq. split; [done|lia].
Qed.

Lemma process_read_acks_prs n :
  n_prs (process_read_acks n) = n_prs n ∧ n_role (process_read_acks n) = n_role n.
Proof.
  unfold process_read_acks. destruct (n_pending_reads n); [done|].
  destruct (sort_desc _ !! _); [|done]. by destruct (_ <? _).
Qed.

Lemma handle_append_resp_by m ok mi ci ctx n :
  S m → m_term m = node_term n → m_body m = AppendEntriesResp ok mi ci ctx →
  by_moves n (handle_append_resp (m_from m) ok mi ci ctx n).
Proof.
  intros HSm Ht Hb. unfold handle_append_resp. destruct (decide _) as [|Hl]; [done|].
  apply dec_stable in Hl. destruct (n_prs n !! m_from m) as [pr|] eqn:Hpr; [|done].
  set (pr1 := set_pr_acked_read_ctx _ _). destruct ok.
  - set (pr2 := if pr_matched pr1 <? mi then _ else _). set (pr3 := set_pr_inflight _ _).
    set (n1 := set_prs _ n).
    assert (by_moves n n1) as H1.
    { apply (set_progress_by (m_from m) pr pr3); [done|done|].
      change (pr_matched pr3) with (pr_matched pr2). unfold pr2.
      destruct (N.ltb_spec (pr_matched pr1) mi); [|left; simpl; lia].
      right. exists m. split_and!; [done..|]. left. eauto. }
    destruct (maybe_advance_commit_by n1 Hl) as [H2 Hr].
    destruct (process_read_acks_prs (maybe_advance_commit n1)) as [Hp Hr'].
    trans n1; [done|]. etrans; [exact H2|]. etrans; [apply process_read_acks_by|].
    destruct (from_option _ _ _); [|done]. apply send_append_by. by rewrite Hp, Hr'.
  - destruct (0 <? ci).
    + set (n1 := set_prs _ n). trans n1.
      * apply (set_progress_by (m_from m) pr); [done|done|left; simpl; lia].
      * apply send_append_by. by left.
    + apply (set_progress_by (m_from m) pr); [done|done|left; simpl; lia].
Qed.

Lemma handle_install_snapshot_resp_by m li n :
  S m → m_term m = node_term n → m_body m = InstallSnapshotResp li →
  by_moves n (handle_install_snapshot_resp (m_from m) li n).
Proof.
  intros HSm Ht Hb. unfold handle_install_snapshot_resp. destruct (decide _) as [|Hl]; [done|].
  apply dec_stable in Hl. destruct (n_prs n !! m_from m) as [pr|] eqn:Hpr; [|done].
  set (pr1 := set_pr_last_resp_tick _ _). set (pr2 := if pr_matched pr1 <? li then _ else _).
  set (n1 := set_prs _ n).
  assert (by_moves n n1) as H1.
  { apply (set_progress_by (m_from m) pr); [done|done|]. simpl. unfold pr2.
    destruct (N.ltb_spec (pr_matched pr1) li); [|left; simpl; lia].
    right. exists m. split_and!; [done..|]. by right. }
  destruct (maybe_advance_commit_by n1 Hl) as [H2 Hr].
  trans n1; [done|]. etrans; [exact H2|]. by apply send_append_by.
Qed.

(** ** Votes *)

Lemma free_by m n : free_msg m → by_moves n (push_msg m n).
Proof.
  intros Hm. apply (by_move [m]); [done|done|].
  replace (core (push_msg m n)) with (core n) by done. apply mv_free. by constructor.
Qed.

Lemma handle_request_vote_by m lli llt n :
  S m → m_term m = node_term n → m_body m = RequestVote lli llt →
  by_moves n (handle_request_vote (m_from m) lli llt n).
Proof.
  intros HSm Ht Hb. unfold handle_request_vote. set (g := (_ || _) && _).
  destruct g eqn:Hg; [|by apply free_by].
  apply andb_true_iff in Hg as [Hv Hu]. rewrite orb_true_iff, !bool_decide_eq_true in Hv.
  destruct (reset_timer_eq (set_vote (Some (m_from m)) n)) as (T & R & ->).
  set (n' := send _ _ _).
  assert (core n' = mkCore (mkHS (node_term n) (Some (m_from m))) (n_role n) (n_votes n) (n_log n)
    (n_commit n) (n_voters_base n) (n_snapshot n) (pr_matched <$> n_prs n)
    ∧ n_cfg n' = n_cfg n ∧ o_messages (n_out n') = o_messages (n_out n)
        ++ [mkMsg (node_id n) (m_from m) (node_term n) (RequestVoteResp true)]) as (Hc & Hcfg & Ho).
  { unfold n', set_vote. destruct (decide _) as [He|He]; [|done]. split; [|done].
    unfold core, node_term. simpl. destruct n as [? ? [t v] ? ? ? ? ? ? ? ? ? ? ? ? ? ? ?].
    simpl in *. by subst v. }
  apply (by_move _ _ _ Hcfg Ho). rewrite Hc.
  apply (mv_grant pok (node_id n) S (core n) m lli llt); [done..|].
  unfold log_up_to_date in Hu. simpl. lia.
Qed.

Lemma handle_request_vote_resp_by m g n :
  S m → m_to m = node_id n → m_term m = node_term n → m_body m = RequestVoteResp g →
  by_moves n (handle_request_vote_resp (m_from m) g n).
Proof.
  intros HSm Hto Ht Hb. unfold handle_request_vote_resp. destruct (decide _) as [|Hl]; [done|].
  apply dec_stable in Hl. set (n1 := set_votes _ n).
  assert (by_moves n n1) as H1.
  { apply (by_move []); [done|by rewrite app_nil_r|].
    apply (mv_vote pok (node_id n) S (core n) (m_from m) g). intros _ ->. by exists m. }
  destruct (Nat.leb_spec (quorum n1) (count_granted n1)) as [Hq|Hq]; [|done].
  trans n1; [done|]. by apply become_leader_by.
Qed.

Lemma handle_pre_vote_resp_by from t g n : by_moves n (handle_pre_vote_resp from t g n).
Proof.
  unfold handle_pre_vote_resp. destruct (negb g).
  { destruct (_ <? _); [apply become_follower_by|done]. }
  destruct (bool_decide (n_role n = PreCandidate)) eqn:Hr; simpl; [|done].
  apply bool_decide_eq_true in Hr. destruct (_ =? _); simpl; [|done].
  set (n1 := set_votes _ n).
  assert (by_moves n n1) as H1.
  { apply (by_move []); [done|by rewrite app_nil_r|].
    apply (mv_vote pok (node_id n) S (core n) from true). simpl. by rewrite Hr. }
  destruct (_ <=? _)%nat; [|done]. trans n1; [done|]. apply campaign_by.
Qed.

(** ** Entries and snapshots from a leader *)

Lemma heard_from_by leader n : by_moves n (heard_from leader n).
Proof.
  apply (by_move []); [done|by rewrite app_nil_r|].
  pose proof (mv_follow pok (node_id n) S (core n) 0 Follower (n_votes n)
    (pr_matched <$> n_prs n)) as Hm.
  destruct (N.ltb_spec (k_term (core n)) 0); [lia|]. apply Hm. by left.
Qed.

Lemma handle_append_entries_by m pi pt es lc ctx n n' :
  S m → m_term m = node_term n → m_body m = AppendEntries pi pt es lc ctx →
  handle_append_entries (m_from m) pi pt es lc ctx n = Some n' → by_moves n n'.
Proof.
  intros HSm Ht Hb Hh. apply handle_append_entries_cases in Hh. simpl in Hh.
  destruct (rebase (n_log n) pi pt es) as [[i t] es'] eqn:Hrb.
  trans (heard_from (m_from m) n); [apply heard_from_by|].
  destruct Hh as [(ci & -> & _)|[(-> & _)|(l' & ta & Hti & Hfn & ->)]].
  - by apply free_by.
  - eapply by_move; [done|done|].
    by apply (mv_covered pok (node_id n) S (core (heard_from (m_from m) n)) m pi pt es lc ctx).
  - eapply by_move; [done|done|].
    by apply (mv_accept pok (node_id n) S (core (heard_from (m_from m) n)) m pi pt es lc ctx
      i t es' l' ta).
Qed.

Lemma handle_install_snapshot_by m s n :
  S m → m_term m = node_term n → m_body m = InstallSnapshot s →
  by_moves n (handle_install_snapshot (m_from m) s n).
Proof.
  intros HSm Ht Hb. unfold handle_install_snapshot. fold (heard_from (m_from m) n).
  set (n0 := heard_from (m_from m) n). trans n0; [apply heard_from_by|].
  destruct (N.leb_spec (s_last_index s) (n_commit n0)) as [Hle|Hgt].
  - eapply by_move; [done|done|]. by apply (mv_snap_stale pok (node_id n) S (core n0) m s).
  - case_bool_decide as Hterm.
    + rewrite advance_commit_follower by done. eapply by_move; [done|done|].
      by apply (mv_snap_prefix pok (node_id n) S (core n0) m s).
    + eapply by_move; [done|done|].
      by apply (mv_snap_install pok (node_id n) S (core n0) m s).
Qed.

(** ** Messages *)

Lemma dispatch_by m n n' :
  S m → m_to m = node_id n → m_term m = node_term n ∨ (∃ a b, m_body m = PreVote a b)
    ∨ (∃ g, m_body m = PreVoteResp g) →
  dispatch m n = Some n' → by_moves n n'.
Proof.
  intros HSm Hto Ht. unfold dispatch.
  destruct (m_body m) as [lli llt|g|lli llt|g|pi pt es lc ctx|ok mi ci ctx|s|li] eqn:Hb;
    try (intros [= <-]);
    try (destruct Ht as [Ht|[(? & ? & ?)|(? & ?)]]; [|done|done]).
  - by apply free_by.
  - apply handle_pre_vote_resp_by.
  - by apply handle_request_vote_by.
  - by apply handle_request_vote_resp_by.
  - by apply handle_append_entries_by.
  - by apply handle_append_resp_by.
  - by apply handle_install_snapshot_by.
  - by apply handle_install_snapshot_resp_by.
Qed.

Lemma answer_stale_by m n : by_moves n (answer_stale m n).
Proof. unfold answer_stale. destruct (m_body m); try done; by apply free_by. Qed.

Lemma step_by m n n' :
  S m → m_to m = node_id n → step m n = Some n' → by_moves n n'.
Proof.
  intros HSm Hto Hstep. unfold step in Hstep.
  assert (∀ l, node_term n < m_term m → dispatch m (become_follower (m_term m) l n) = Some n' →
    by_moves n n') as Hbf.
  { intros l Hlt Hd. destruct (become_follower_by (m_term m) l n) as [H1 _].
    etrans; [exact H1|]. eapply dispatch_by; [done| | |done].
    - rewrite Hto. unfold node_id. by destruct H1 as [-> _].
    - left. destruct (become_follower_eq (m_term m) l n) as (T & R & hs & oh & -> & -> & _).
      unfold node_term in *. simpl. by destruct (N.ltb_spec (hs_term (n_hs n)) (m_term m)); [|lia]. }
  assert (dispatch m n = Some n' → m_term m = node_term n ∨ (∃ a b, m_body m = PreVote a b)
    ∨ (∃ g, m_body m = PreVoteResp g) → by_moves n n') as Hd.
  { intros. by eapply dispatch_by. }
  destruct (m_body m) eqn:Hb; try (by apply Hd; eauto);
    destruct (N.ltb_spec (node_term n) (m_term m)); try (by eapply Hbf);
    destruct (N.ltb_spec (m_term m) (node_term n));
    try (injection Hstep as <-; apply answer_stale_by);
    apply Hd; [done|left; lia|done|left; lia|done|left; lia|done|left; lia|done|left; lia|done|left; lia].
Qed.
End refine.
