(* ===== verification/NodeSafety.v ===== *)
(** * What the invariant of the protocol means for a node

    A node that satisfies the invariant of [RaftProtocol] is well formed, does
    not hit the [assert!] of [handle_append_entries] on any message of the
    soup, and hands to its host the continuation of its committed log. *)

From S2P Require Import Prelude RaftTypes RaftLog RaftLogFacts RaftNode RaftNodeFacts.
From S2P Require Import RaftNodeInv RaftProps RaftHistory RaftProtocol ProtocolSafety.
From S2P Require Import RaftRefine.
Local Open Scope N_scope.

Local Infix "⪯" := prefix (at level 70).

Lemma find_new_is_Some l c es :
  snap_index l ≤ c →
  (∀ e t, e ∈ es → e_index e ≤ c → RL.term l (e_index e) = Some t → t = e_term e) →
  is_Some (find_new l c es).
Proof.
  intros Hs. induction es as [|e es IH]; intros Hes; simpl; [eauto|].
  destruct (RL.term l (e_index e)) as [t|] eqn:Ht; [|eauto].
  destruct (N.eqb_spec t (e_term e)) as [|Hne]; [apply IH; intros; apply Hes; [by right|done..]|].
  destruct (N.ltb_spec c (e_index e)).
  - unfold RL.truncate_from. destruct (N.leb_spec (e_index e) (snap_index l)); [lia|].
    simpl. eauto.
  - destruct Hne. by apply Hes; [left|..].
Qed.

Section node.
  Context (V0 : list NodeId) (pok : EntryPayload → Prop) (dok : list Entry → bytes → Prop).
  Context (Hnd : NoDup V0) (Hconf : ∀ p, pok p → is_conf p = false).
  Abbreviation hok := (history_ok V0 pok).
  Abbreviation ninv := (node_inv V0 pok dok).
  Abbreviation minv := (msg_inv V0 dok).
  Implicit Types h : history.

(** ** Well-formedness *)

Lemma log_ok_consecutive h L k :
  log_ok pok h L → consecutive (N.of_nat k + 1) (drop k L).
Proof.
  intros HL j e Hj. rewrite lookup_drop in Hj. destruct (HL _ _ Hj) as (-> & _). lia.
Qed.

Lemma node_inv_ok h id n L : ninv h id (core n) L → node_ok n.
Proof.
  intros [_ [Hrep Hlok _ _ _] _ (Hc1 & Hc2 & _) [_ Hs]]. simpl in *. split.
  - pose proof Hrep as (H1 & H2 & _). apply contiguous_consecutive. rewrite H2.
    pose proof (log_ok_consecutive h L (N.to_nat (snap_index (n_log n))) Hlok) as Hc.
    by rewrite N2Nat.id in Hc.
  - split; [done|]. rewrite (rep_last L) by done. lia.
  - destruct (n_snapshot n); [|done]. by destruct Hs as (? & ? & _).
Qed.

Lemma msg_inv_wf h m : hok h → minv h m → wf_msg m.
Proof.
  intros Hok. unfold msg_inv, wf_msg. destruct (m_body m); try done.
  intros (l & Hl & _ & Hes & _). destruct (ho_leader_log _ _ _ Hok _ _ _ Hl) as (Hlok & _ & _).
  intros k e Hk. pose proof (prefix_lookup_Some _ _ _ _ Hk Hes) as Hd.
  apply (log_ok_consecutive h l _ Hlok) in Hd. rewrite Hd. lia.
Qed.

(** ** The assertion never fails *)

Lemma find_new_total h id c L o l i es :
  hok h → ninv h id c L → h_leaders h !! k_term c = Some (o, l) →
  snap_index (k_log c) ≤ i → es ⪯ drop (N.to_nat i) l →
  is_Some (find_new (k_log c) (k_commit c) es).
Proof.
  intros Hok Hn Hl Hsi Hes.
  pose proof (committed_in_current V0 pok dok Hnd h Hok id c L Hn o l Hl) as Hcur.
  destruct Hn as [_ [Hrep Hlok _ _ _] _ (Hc1 & Hc2 & _) _].
  destruct (ho_leader_log _ _ _ Hok _ _ _ Hl) as (Hllok & _ & _).
  apply find_new_is_Some; [done|]. intros e t He Hle Ht.
  apply list_elem_of_lookup in He as [k Hk].
  pose proof (prefix_lookup_Some _ _ _ _ Hk Hes) as Hd. rewrite lookup_drop in Hd.
  destruct (Hllok _ _ Hd) as (Hidx & _). rewrite (rep_term L) in Ht by (done || lia).
  unfold term_at in Ht. destruct (N.eqb_spec (e_index e) 0); [lia|].
  apply fmap_Some in Ht as (e' & He' & ->).
  assert (l !! (N.to_nat (e_index e) - 1)%nat = Some e') as Hl'.
  { eapply prefix_lookup_Some; [|exact Hcur]. by rewrite lookup_take_lt by lia. }
  replace (N.to_nat (e_index e) - 1)%nat with (N.to_nat i + k)%nat in Hl' by lia. congruence.
Qed.

Section total.
  Context h (Hok : hok h) (id : NodeId) (L : list Entry).
  Context (S : Message → Prop) (HS : ∀ m, S m → minv h m).

Lemma append_total n m pi pt es lc ctx :
  ninv h id (core n) L → node_id n = id → S m → m_term m = node_term n →
  m_body m = AppendEntries pi pt es lc ctx →
  is_Some (handle_append_entries (m_from m) pi pt es lc ctx n).
Proof.
  intros Hn Hid HSm Ht Hb.
  destruct (heard_from_by pok S (m_from m) n) as [_ (ms & _ & Hms)]. rewrite Hid in Hms.
  destruct (moves_moved V0 pok dok Hnd Hconf h id _ L S ms _ Hok Hn HS Hms)
    as (h1 & L1 & Hok1 & Hext & _ & Hn1 & _).
  pose proof (msg_inv_ext V0 dok h h1 Hext m (HS m HSm)) as Hm. unfold msg_inv in Hm.
  rewrite Hb, Ht in Hm. destruct Hm as (l & Hl & Hpt & Hes & _).
  unfold handle_append_entries. fold (heard_from (m_from m) n).
  set (n0 := heard_from (m_from m) n) in *. simpl.
  change (n_log n0) with (n_log n). destruct (_ && _); [eauto|].
  fold (rebase (n_log n) pi pt es).
  destruct (rebase (n_log n) pi pt es) as [[i t] es'] eqn:Hrb.
  destruct (RL.term (n_log n) i) as [t'|] eqn:Hti; [|eauto].
  destruct (N.eqb_spec t' t) as [->|]; simpl; [|eauto].
  destruct (rebase_agrees V0 pok dok Hnd h1 Hok1 id (core n0) L1 Hn1 _ _ _ _ _ _ _ _ Hl Hpt Hes Hrb Hti)
    as (_ & Hsi & _ & Hes').
  destruct (find_new_total h1 id (core n0) L1 _ _ i es' Hok1 Hn1 Hl Hsi Hes') as [[l' ta] Hfn].
  simpl in Hfn. rewrite Hfn. simpl. eauto.
Qed.
End total.

(** No message of the soup makes a node panic. *)
Lemma step_total h id n L (S : Message → Prop) m :
  hok h → ninv h id (core n) L → node_id n = id → (∀ m, S m → minv h m) → S m →
  is_Some (step m n).
Proof.
  intros Hok Hn Hid HS HSm.
  assert (∀ n', m_term m = node_term n' → (∃ h' L', hok h' ∧ ninv h' id (core n') L'
    ∧ node_id n' = id ∧ ∀ m, S m → minv h' m) → is_Some (dispatch m n')) as Hd.
  { intros n' Ht (h' & L' & Hok' & Hn' & Hid' & HS'). unfold dispatch.
    destruct (m_body m) eqn:Hb; eauto. by apply (append_total h' Hok' id L' S HS'). }
  unfold step. destruct (m_body m) eqn:Hb; try (unfold dispatch; rewrite Hb; by eauto).
  all: destruct (N.ltb_spec (node_term n) (m_term m));
    [|destruct (N.ltb_spec (m_term m) (node_term n)); [by eauto|apply Hd; [lia|by eauto 10]]].
  all: apply Hd; [destruct (become_follower_eq (m_term m) (announced_leader m) n)
      as (T & R & hs & oh & -> & -> & _); unfold node_term in *; simpl;
      by destruct (N.ltb_spec (hs_term (n_hs n)) (m_term m)); [|lia]|].
  all: destruct (become_follower_by pok S (m_term m) (announced_leader m) n)
    as [[Hcfg (ms & _ & Hms)] _]; rewrite Hid in Hms;
    destruct (moves_moved V0 pok dok Hnd Hconf h id _ L S ms _ Hok Hn HS Hms)
      as (h1 & L1 & Hok1 & Hext & _ & Hn1 & _);
    exists h1, L1; split_and!; [done|done|by unfold node_id in *; rewrite Hcfg|];
    intros m' Hm'; by apply (msg_inv_ext V0 dok h h1 Hext), HS.
Qed.

(** ** Deliveries *)

(** Two committed prefixes of different lengths. *)
Lemma committed_longer h T1 T2 P1 P2 :
  hok h → committed_prefix V0 h T1 P1 → committed_prefix V0 h T2 P2 →
  (length P1 <= length P2)%nat → P1 ⪯ P2.
Proof.
  intros Hok H1 H2 Hle. destruct (committed_prefixes_agree V0 pok h Hnd Hok _ _ _ _ H1 H2) as [|Hp];
    [done|]. by rewrite (prefix_length_eq _ _ Hp Hle).
Qed.

(** The entries an operation hands to the host continue the committed log. *)
Lemma delivered_log h h' id c n' L L' es :
  hok h' → extends h h' → ninv h id c L → ninv h' id (core n') L' →
  consecutive (k_commit c + 1) es → n_commit n' = k_commit c + N.of_nat (length es) →
  (∀ e, e ∈ es → RL.get (n_log n') (e_index e) = Some e) →
  upto (n_commit n') L' = upto (k_commit c) L ++ es.
Proof.
  intros Hok' Hext [_ _ _ (_ & Hl & Hcp) _] [_ [Hrep _ _ _ _] _ (_ & Hl' & Hcp') _] Hes Hlen Hget.
  simpl in *. apply (committed_prefix_ext V0 h h' Hext) in Hcp.
  assert (upto (k_commit c) L ⪯ upto (n_commit n') L') as [x Hx].
  { eapply committed_longer; [done..|]. rewrite !length_take. lia. }
  rewrite Hx. f_equal.
  assert (length x = length es) as Hxl.
  { apply (f_equal length) in Hx. rewrite length_app, !length_take in Hx. lia. }
  apply list_eq. intros k. destruct (es !! k) as [e|] eqn:Hk.
  - pose proof (Hget e (list_elem_of_lookup_2 _ _ _ Hk)) as Hg.
    apply get_Some in Hg as Hb. destruct Hb as [Hb _].
    rewrite (rep_get L') in Hg by (done || lia). rewrite (Hes _ _ Hk) in Hg.
    apply lookup_lt_Some in Hk as Hklt.
    assert (upto (n_commit n') L' !! (N.to_nat (k_commit c) + k)%nat = Some e) as Hu.
    { rewrite lookup_take_lt by lia. rewrite <-Hg. f_equal. lia. }
    rewrite Hx, lookup_app_r in Hu by (rewrite length_take; lia).
    rewrite <-Hu. f_equal. rewrite length_take. lia.
  - apply lookup_ge_None in Hk. apply lookup_ge_None. lia.
Qed.

(** ** The beginning *)

Definition init_history : history := mkHist ∅ ∅ ∅ ∅.
Definition init_core : Core := mkCore default_hs Follower ∅ (mkLog 0 0 []) 0 V0 None ∅.

Lemma init_world :
  world_inv V0 pok dok (λ _, init_core) (λ _, False) init_history (λ _, []).
Proof.
  split; [| |done].
  - split; try done; intros *; by rewrite lookup_empty.
  - intros id. split; simpl.
    + split; [|intros t _; apply lookup_empty]. intros x. split; [done|].
      intros (L' & HL'). simpl in HL'. by rewrite lookup_empty in HL'.
    + split; try done. intros e He. by apply elem_of_nil in He.
    + done.
    + split_and!; simpl; [lia|lia|]. left. done.
    + done.
Qed.
End node.
