(* ===== verification/Fs.v ===== *)
(** * Files, crashes and storage errors

    The storage engine keeps one directory: a write-ahead log, a manifest with
    its temporary copy, and one file per table. This file models that directory,
    the file operations the engine uses, and what a crash leaves of it: the
    operations take effect in order, a crash may happen between any two of them,
    and a file keeps at least the bytes that were synced and at most the bytes
    that were written. crates/storage/src/error.rs is the error type. *)

From S2P Require Import Prelude.

(** ** Errors *)

Inductive io_kind := NotFound | UnexpectedEof.

(** [error.rs], with [Panic] for an [unwrap], an [expect] or an index that is out
    of range, and [NoFuel] for a loop of the model that was given too few turns.
    Messages are dropped. *)
Inductive Error :=
| Io (k : io_kind)
| Corruption
| Panic
| NoFuel.

(** [storage::Result]. *)
Definition Res (A : Type) : Type := Result A Error.

#[export] Instance Res_ret : MRet Res := λ A a, Ok a.
#[export] Instance Res_bind : MBind Res := λ A B k r,
  match r with Ok a => k a | Err e => Err e end.

Definition fail {A} (e : Error) : Res A := Err e.

(** ** Files *)

(** [wal], [MANIFEST], [MANIFEST.tmp] and [{id:08}.sst]. *)
Inductive file := FWal | FManifest | FTmp | FTable (id : N).

#[export] Instance file_eq_dec : EqDecision file.
Proof. solve_decision. Defined.
#[export] Instance file_countable : Countable file.
Proof.
  apply (inj_countable'
    (λ f, match f with FWal => inl 0%N | FManifest => inl 1%N | FTmp => inl 2%N
          | FTable i => inr i end)
    (λ s, match s with inl 0%N => FWal | inl 1%N => FManifest | inl _ => FTmp
          | inr i => FTable i end)).
  by intros [].
Defined.

(** The bytes of a file, of which the first [f_synced] are on the disk. *)
Record File := mkFile { f_data : bytes; f_synced : nat }.

Abbreviation Dir := (gmap file File).

Inductive fs_op :=
| Create (f : file)
| Touch (f : file)
| Append (f : file) (bs : bytes)
| SetLen (f : file) (n : nat)
| Sync (f : file)
| Remove (f : file)
| Rename (f g : file).

Definition apply_op (d : Dir) (op : fs_op) : Dir :=
  match op with
  | Create f => <[f := mkFile [] 0]> d
  | Touch f => match d !! f with Some _ => d | None => <[f := mkFile [] 0]> d end
  | Append f bs => alter (λ x, mkFile (f_data x ++ bs) (f_synced x)) f d
  | SetLen f n => alter (λ x, mkFile (resize n x00 (f_data x)) (Nat.min n (f_synced x))) f d
  | Sync f => alter (λ x, mkFile (f_data x) (length (f_data x))) f d
  | Remove f => delete f d
  | Rename f g => match d !! f with Some x => <[g := x]> (delete f d) | None => d end
  end.

Definition apply_ops (d : Dir) (ops : list fs_op) : Dir := foldl apply_op d ops.

(** ** Crashes *)

(** What may be left of a file: a prefix that contains everything synced. *)
Definition cut_file (x y : File) : Prop :=
  ∃ n, (f_synced x <= n)%nat ∧ y = mkFile (take n (f_data x)) (length (take n (f_data x))).

Definition cut (d d' : Dir) : Prop :=
  ∀ f, option_relation cut_file (λ _, False) (λ _, False) (d !! f) (d' !! f).

(** The directories a crash during [ops] can leave. *)
Definition crashes (d : Dir) (ops : list fs_op) (d' : Dir) : Prop :=
  ∃ ops1 ops2, ops = ops1 ++ ops2 ∧ cut (apply_ops d ops1) d'.

(** ** Computations over a directory

    The answer and the file operations performed, failed or not. *)

Definition IO (A : Type) : Type := Dir → Res A * list fs_op.

#[export] Instance IO_ret : MRet IO := λ A a _, (Ok a, []).
#[export] Instance IO_bind : MBind IO := λ A B k m d,
  match m d with
  | (Ok a, ops) => let '(r, ops') := k a (apply_ops d ops) in (r, ops ++ ops')
  | (Err e, ops) => (Err e, ops)
  end.

Definition perform (op : fs_op) : IO unit := λ _, (Ok tt, [op]).
Definition throw {A} (e : Error) : IO A := λ _, (Err e, []).
Definition reads {A} (f : Dir → Res A) : IO A := λ d, (f d, []).
Definition exists_file (f : file) : IO bool := λ d, (Ok (bool_decide (is_Some (d !! f))), []).

(** The directory after a computation. *)
Definition after {A} (m : IO A) (d : Dir) : Dir := apply_ops d (m d).2.

Definition read_file (f : file) (d : Dir) : Res bytes :=
  match d !! f with Some x => Ok (f_data x) | None => Err (Io NotFound) end.

(** ** Lemmas *)

Lemma apply_ops_app d ops1 ops2 : apply_ops d (ops1 ++ ops2) = apply_ops (apply_ops d ops1) ops2.
Proof. apply foldl_app. Qed.

(** A computation that answers runs its first part, then the rest. *)
Lemma io_bind_ok {A B} (m : IO A) (k : A → IO B) d a ops :
  m d = (Ok a, ops) →
  (m ≫= k) d = ((k a (apply_ops d ops)).1, ops ++ (k a (apply_ops d ops)).2).
Proof. intros Hm. unfold mbind, IO_bind. rewrite Hm. by destruct (k a _). Qed.

Lemma io_bind_intro {A B} (m : IO A) (k : A → IO B) d a ops1 r ops2 :
  m d = (Ok a, ops1) → k a (apply_ops d ops1) = (r, ops2) → (m ≫= k) d = (r, ops1 ++ ops2).
Proof. intros Hm Hk. by rewrite (io_bind_ok _ _ _ _ _ Hm), Hk. Qed.

Lemma reads_bind {A B} (f : Dir → Res A) (k : A → IO B) d a : f d = Ok a → (reads f ≫= k) d = k a d.
Proof. intros Hf. unfold mbind, IO_bind, reads. rewrite Hf. simpl. by destruct (k a d). Qed.

Lemma io_bind_assoc {A B C} (m : IO A) (f : A → IO B) (g : B → IO C) d :
  ((m ≫= f) ≫= g) d = (m ≫= λ a, f a ≫= g) d.
Proof.
  unfold mbind, IO_bind. destruct (m d) as [[a|e] ops]; [|done].
  destruct (f a (apply_ops d ops)) as [[b|e] ops']; [|done]. rewrite apply_ops_app.
  destruct (g b _). by rewrite app_assoc.
Qed.

Lemma io_bind_inv {A B} (m : IO A) (k : A → IO B) d b ops :
  (m ≫= k) d = (Ok b, ops) →
  ∃ a ops1 ops2, m d = (Ok a, ops1) ∧ k a (apply_ops d ops1) = (Ok b, ops2) ∧ ops = ops1 ++ ops2.
Proof.
  unfold mbind, IO_bind. destruct (m d) as [[a|e] ops1]; [|done].
  destruct (k a (apply_ops d ops1)) as [r ops2] eqn:Hk. intros [= -> <-].
  by exists a, ops1, ops2.
Qed.

Lemma cut_refl_synced d :
  (∀ f x, d !! f = Some x → f_synced x = length (f_data x)) → cut d d.
Proof.
  intros Hs f. destruct (d !! f) as [x|] eqn:Hf; [|done]. simpl.
  exists (length (f_data x)). rewrite firstn_all, (Hs _ _ Hf). split; [done|].
  rewrite <-(Hs _ _ Hf). by destruct x.
Qed.

(** A crash may also lose nothing. *)
Definition sync_all (d : Dir) : Dir := (λ x, mkFile (f_data x) (length (f_data x))) <$> d.

Lemma cut_sync_all d : cut d (sync_all d).
Proof.
  intros f. unfold sync_all. rewrite lookup_fmap. destruct (d !! f) as [x|]; [|done]. simpl.
  exists (length (f_data x) `max` f_synced x)%nat. split; [lia|]. by rewrite take_ge by lia.
Qed.

(** A crash may lose unsynced bytes of one file only. *)
Lemma cut_one d f x y : d !! f = Some x → cut_file x y → cut d (<[f := y]> (sync_all d)).
Proof.
  intros Hx Hy g. destruct (decide (g = f)) as [->|Hne].
  - by rewrite lookup_insert_eq, Hx.
  - rewrite lookup_insert_ne by done. apply cut_sync_all.
Qed.

(** [cut_refl_synced] as a test, for a concrete directory. *)
Definition all_synced (d : Dir) : bool :=
  forallb (λ p : file * File, f_synced p.2 =? length (f_data p.2))%nat (map_to_list d).

Lemma all_synced_cut d : all_synced d = true → cut d d.
Proof.
  intros Hs. apply cut_refl_synced. intros f x Hf. unfold all_synced in Hs.
  rewrite forallb_forall in Hs. apply elem_of_map_to_list, list_elem_of_In in Hf.
  apply Nat.eqb_eq, (Hs _ Hf).
Qed.

Lemma cut_lookup d d' f :
  cut d d' → match d !! f with
             | Some x => ∃ y, d' !! f = Some y ∧ cut_file x y
             | None => d' !! f = None
             end.
Proof.
  intros Hc. specialize (Hc f). destruct (d !! f) as [x|], (d' !! f) as [y|]; simpl in Hc; by eauto.
Qed.

(** A file whose bytes are all on the disk survives. *)
Lemma cut_synced d d' f x :
  cut d d' → d !! f = Some x → f_synced x = length (f_data x) →
  d' !! f = Some x.
Proof.
  intros Hc Hf Hs. pose proof (cut_lookup _ _ f Hc) as Hl. rewrite Hf in Hl.
  destruct Hl as (y & -> & n & Hn & ->). rewrite take_ge by lia. rewrite <-Hs. by destruct x.
Qed.

Lemma crashes_app d ops1 ops2 d' :
  crashes d (ops1 ++ ops2) d' ↔ crashes d ops1 d' ∨ crashes (apply_ops d ops1) ops2 d'.
Proof.
  split.
  - intros (o1 & o2 & Heq & Hc). apply app_eq_inv in Heq as [(k & -> & ->)|(k & -> & ->)].
    + left. by exists o1, k.
    + right. exists k, o2. split; [done|]. by rewrite <-apply_ops_app.
  - intros [(o1 & o2 & -> & Hc)|(o1 & o2 & -> & Hc)].
    + exists o1, (o2 ++ ops2). by rewrite app_assoc.
    + exists (ops1 ++ o1), o2. by rewrite app_assoc, apply_ops_app.
Qed.

Lemma crashes_cons d op ops d' :
  crashes d (op :: ops) d' ↔ cut d d' ∨ crashes (apply_op d op) ops d'.
Proof.
  split.
  - intros ([|o o1] & o2 & Heq & Hc); [by left|]. simplify_eq/=. right. by exists o1, o2.
  - intros [Hc|(o1 & o2 & -> & Hc)]; [by exists [], (op :: ops)|by exists (op :: o1), o2].
Qed.

Lemma crashes_nil d d' : crashes d [] d' ↔ cut d d'.
Proof.
  split; [|by exists [], []]. intros (o1 & o2 & Heq & Hc).
  symmetry in Heq. apply app_eq_nil in Heq as [-> ->]. done.
Qed.

(** ** Operations on some files only *)

Definition within (P : file → Prop) (op : fs_op) : Prop :=
  match op with
  | Create f | Touch f | Append f _ | SetLen f _ | Sync f | Remove f => P f
  | Rename f g => P f ∧ P g
  end.

Lemma within_impl (P Q : file → Prop) ops :
  (∀ f, P f → Q f) → Forall (within P) ops → Forall (within Q) ops.
Proof. intros HPQ Hops. eapply Forall_impl; [exact Hops|]. intros []; simpl; intuition. Qed.

Lemma within_other P ops d g : Forall (within P) ops → ¬ P g → apply_ops d ops !! g = d !! g.
Proof.
  intros Hops Hg. revert d. induction Hops as [|op ops Hop _ IH]; intros d; [done|].
  change (apply_ops d (op :: ops)) with (apply_ops (apply_op d op) ops). rewrite IH.
  assert (∀ f, P f → f ≠ g) as Hne by (by intros f Hf ->).
  destruct op as [f|f|f bs|f n|f|f|f g']; simpl in *.
  - rewrite lookup_insert_ne by auto. done.
  - destruct (d !! f); [done|]. rewrite lookup_insert_ne by auto. done.
  - rewrite lookup_alter_ne by auto. done.
  - rewrite lookup_alter_ne by auto. done.
  - rewrite lookup_alter_ne by auto. done.
  - rewrite lookup_delete_ne by auto. done.
  - destruct Hop. destruct (d !! f); [|done].
    rewrite lookup_insert_ne, lookup_delete_ne by auto. done.
Qed.

(** A synced file the operations leave alone survives a crash among them. *)
Lemma crashes_within P ops d d' g x :
  crashes d ops d' → Forall (within P) ops → ¬ P g →
  d !! g = Some x → f_synced x = length (f_data x) → d' !! g = Some x.
Proof.
  intros (ops1 & ops2 & -> & Hc) [Hops _]%Forall_app Hg Hx Hs.
  eapply cut_synced; [exact Hc| |done]. by rewrite (within_other P).
Qed.

Lemma crashes_within_None P ops d d' g :
  crashes d ops d' → Forall (within P) ops → ¬ P g → d !! g = None → d' !! g = None.
Proof.
  intros (ops1 & ops2 & -> & Hc) [Hops _]%Forall_app Hg Hx.
  pose proof (cut_lookup _ _ g Hc) as Hl. by rewrite (within_other P), Hx in Hl by done.
Qed.
