(* ===== verification/Wal.v ===== *)
(** * Write-ahead log

    crates/storage/src/wal.rs: frames of a length, a checksum and a serialized
    batch; appending with or without an fsync; replay of the valid prefix with
    truncation of a torn tail. The checksum (crc32fast) and the serializer
    (bincode) are parameters. *)

From S2P Require Import Prelude Codec Fs.
Local Open Scope N_scope.

(** [crc32fast::hash], a 32-bit number. *)
Class Crc32 := { crc32 : bytes → N; crc32_u32 : ∀ bs, crc32 bs < 2 ^ 32 }.

Inductive SyncPolicy := Always | Never.

#[export] Instance SyncPolicy_eq_dec : EqDecision SyncPolicy.
Proof. solve_decision. Defined.

Record WalBatch := mkBatch {
  wb_first_seq : N;
  wb_ops : list (bytes * option bytes);
}.

#[export] Instance WalBatch_eq_dec : EqDecision WalBatch.
Proof. solve_decision. Defined.
#[export] Instance WalBatch_countable : Countable WalBatch.
Proof. by apply (inj_countable' (λ b, (wb_first_seq b, wb_ops b)) (λ '(s, o), mkBatch s o)); intros []. Defined.

(** [x.len() as u32] followed by [to_le_bytes], and the checksum alike. *)
Definition u32_le (x : N) : bytes := to_le 4 x.
#[global] Arguments u32_le : simpl never.

Section wal.
  Context `{Crc32} `{Bincode WalBatch}.

Definition frame (b : WalBatch) : bytes :=
  let payload := serialize b in
  u32_le (N.of_nat (length payload)) ++ u32_le (crc32 payload) ++ payload.

Definition wal_open : IO unit := perform (Touch FWal).

Definition wal_append (policy : SyncPolicy) (b : WalBatch) : IO unit :=
  perform (Append FWal (frame b));;
  if decide (policy = Always) then perform (Sync FWal) else mret tt.

Definition wal_sync : IO unit := perform (Sync FWal).

Definition wal_reset : IO unit := perform (SetLen FWal 0);; perform (Sync FWal).

(** One turn of the loop of [replay]: the batch at the head of the remaining
    bytes and the length of its frame. [None] is a [break]. *)
Definition next_frame (data : bytes) : option (WalBatch * nat) :=
  if (length data <? 8)%nat then None
  else
    let len := from_le (take 4 data) in
    let crc := from_le (take 4 (drop 4 data)) in
    if N.of_nat (length data) <? 8 + len then None
    else
      let payload := take (N.to_nat len) (drop 8 data) in
      if crc32 payload =? crc then
        match deserialize payload with
        | Some b => Some (b, (8 + N.to_nat len)%nat)
        | None => None
        end
      else None.

Fixpoint replay_loop (fuel : nat) (data : bytes) (off : nat) : list WalBatch * nat :=
  match fuel with
  | O => ([], off)
  | S fuel =>
    match next_frame (drop off data) with
    | None => ([], off)
    | Some (b, n) =>
      let '(bs, off) := replay_loop fuel data (off + n) in
      (b :: bs, off)
    end
  end.

Definition replay_data (data : bytes) : list WalBatch * nat := replay_loop (length data) data 0.

Definition replay : IO (list WalBatch) :=
  ex ← exists_file FWal;
  if negb ex then mret []
  else
    data ← reads (read_file FWal);
    let '(batches, off) := replay_data data in
    (if (off <? length data)%nat then perform (SetLen FWal off);; perform (Sync FWal)
     else mret tt);;
    mret batches.

(** ** Frames *)

(** A batch whose frame records its length exactly. *)
Definition fits (b : WalBatch) : Prop := N.of_nat (length (serialize b)) < 2 ^ 32.

Definition frames (bs : list WalBatch) : bytes := concat (frame <$> bs).

Lemma length_frame b : length (frame b) = (8 + length (serialize b))%nat.
Proof. unfold frame, u32_le. rewrite !length_app, !length_to_le. lia. Qed.

Lemma frames_app bs1 bs2 : frames (bs1 ++ bs2) = frames bs1 ++ frames bs2.
Proof. unfold frames. by rewrite fmap_app, concat_app. Qed.

Lemma from_u32_le x : x < 2 ^ 32 → from_le (u32_le x) = x.
Proof. intros Hx. apply from_to_le. exact Hx. Qed.

(** The header of a frame, read back from data that starts with it. *)
Lemma frame_header b rest :
  fits b →
  from_le (take 4 (frame b ++ rest)) = N.of_nat (length (serialize b)) ∧
  from_le (take 4 (drop 4 (frame b ++ rest))) = crc32 (serialize b) ∧
  drop 8 (frame b ++ rest) = serialize b ++ rest.
Proof.
  intros Hb. unfold frame. rewrite <-!app_assoc.
  assert (∀ x, 4%nat = length (u32_le x)) as Hl by (intros; symmetry; apply length_to_le).
  rewrite take_app_length' by apply Hl. rewrite from_u32_le by apply Hb.
  rewrite drop_app_length' by apply Hl. rewrite take_app_length' by apply Hl.
  rewrite from_u32_le by apply crc32_u32. split_and!; [done..|].
  rewrite app_assoc. apply drop_app_length'. by rewrite length_app, <-!Hl.
Qed.

Lemma next_frame_consumes data b n : next_frame data = Some (b, n) → (8 <= n <= length data)%nat.
Proof.
  unfold next_frame. destruct (Nat.ltb_spec (length data) 8); [done|].
  destruct (N.ltb_spec (N.of_nat (length data)) (8 + from_le (take 4 data))); [done|].
  destruct (_ =? _); [|done]. destruct (deserialize _); [|done]. intros [= _ <-]. lia.
Qed.

(** The loop ends on a [break], never on its fuel. *)
Lemma replay_loop_stops fuel data off :
  (off <= length data)%nat → (length data - off <= fuel)%nat →
  let r := replay_loop fuel data off in
  next_frame (drop r.2 data) = None ∧ (off <= r.2 <= length data)%nat.
Proof.
  revert off. induction fuel as [|fuel IH]; intros off Hoff Hf; simpl.
  { split; [|lia]. unfold next_frame. rewrite length_drop.
    by replace (length data - off)%nat with 0%nat by lia. }
  destruct (next_frame (drop off data)) as [[b n]|] eqn:Hn; [|simpl; split; [done|lia]].
  apply next_frame_consumes in Hn as Hc. rewrite length_drop in Hc.
  destruct (IH (off + n)%nat) as [H1 H2]; [lia..|].
  destruct (replay_loop fuel data (off + n)). simpl in *. split; [done|lia].
Qed.

Context `{!BincodeLaws WalBatch}.

Lemma next_frame_frame b rest : fits b → next_frame (frame b ++ rest) = Some (b, length (frame b)).
Proof.
  intros Hb. unfold next_frame. destruct (frame_header b rest Hb) as (-> & -> & ->).
  rewrite length_app, length_frame.
  destruct (Nat.ltb_spec (8 + length (serialize b) + length rest) 8); [lia|].
  destruct (N.ltb_spec (N.of_nat (8 + length (serialize b) + length rest))
    (8 + N.of_nat (length (serialize b)))); [lia|].
  rewrite Nat2N.id, take_app_length, N.eqb_refl, deserialize_serialize. done.
Qed.

(** A frame that was cut short is not read. *)
Lemma next_frame_torn b n : fits b → (n < length (frame b))%nat → next_frame (take n (frame b)) = None.
Proof.
  intros Hb Hn. unfold next_frame. rewrite length_take, Nat.min_l by lia.
  destruct (Nat.ltb_spec n 8) as [|H8]; [done|].
  destruct (frame_header b [] Hb) as (Hh & _). rewrite app_nil_r in Hh.
  rewrite take_take, Nat.min_l by lia. rewrite Hh. rewrite length_frame in Hn.
  destruct (N.ltb_spec (N.of_nat n) (8 + N.of_nat (length (serialize b)))); [done|lia].
Qed.

(** Replay of whole frames followed by bytes that do not start with one. *)
Lemma replay_loop_frames fuel pre bs tail :
  Forall fits bs → next_frame tail = None → (length (frames bs) <= fuel)%nat →
  replay_loop fuel (pre ++ frames bs ++ tail) (length pre) = (bs, length (pre ++ frames bs)).
Proof.
  intros Hbs Ht. revert fuel pre. induction Hbs as [|b bs Hb Hbs IH]; intros fuel pre Hf.
  { rewrite app_nil_r. destruct fuel as [|fuel]; [done|]. simpl.
    by rewrite drop_app_length, Ht. }
  change (frames (b :: bs)) with (frame b ++ frames bs) in *.
  rewrite length_app, length_frame in Hf. destruct fuel as [|fuel]; [lia|]. cbn [replay_loop].
  rewrite drop_app_length, <-(app_assoc (frame b)), next_frame_frame by done.
  specialize (IH fuel (pre ++ frame b)). rewrite <-app_assoc in IH. rewrite <-length_app, IH by lia.
  by rewrite <-app_assoc.
Qed.

Lemma replay_data_frames bs tail :
  Forall fits bs → next_frame tail = None →
  replay_data (frames bs ++ tail) = (bs, length (frames bs)).
Proof.
  intros Hbs Ht. apply (replay_loop_frames _ [] bs tail Hbs Ht). rewrite length_app. lia.
Qed.

(** Cutting a log at any byte leaves whole frames and at most one torn one. *)
Lemma cut_frames bs n :
  Forall fits bs →
  ∃ j tail, take n (frames bs) = frames (take j bs) ++ tail ∧ next_frame tail = None
    ∧ ∀ i, (length (frames (take i bs)) <= n)%nat → (i <= length bs)%nat → (i <= j)%nat.
Proof.
  intros Hbs. revert n. induction Hbs as [|b bs Hb Hbs IH]; intros n.
  { exists 0%nat, []. split_and!; [apply take_nil|done|simpl; lia]. }
  change (frames (b :: bs)) with (frame b ++ frames bs). rewrite take_app.
  destruct (decide (n < length (frame b))%nat) as [Hlt|Hge].
  - exists 0%nat, (take n (frame b)). split_and!.
    + replace (n - length (frame b))%nat with 0%nat by lia. by rewrite take_0, app_nil_r.
    + by apply next_frame_torn.
    + intros [|i] Hi _; [lia|]. exfalso. cbn [take] in Hi.
      change (frames (b :: ?l)) with (frame b ++ frames l) in Hi.
      rewrite length_app in Hi. lia.
  - destruct (IH (n - length (frame b))%nat) as (j & tail & Heq & Ht & Hj).
    exists (S j), tail. split_and!; [|done|].
    + rewrite Heq, take_ge by lia. cbn [take].
      change (frames (b :: ?l)) with (frame b ++ frames l). by rewrite app_assoc.
    + intros [|i] Hi Hle; [lia|]. cbn [take] in Hi.
      change (frames (b :: ?l)) with (frame b ++ frames l) in Hi.
      rewrite length_app in Hi. simpl in Hle. specialize (Hj i ltac:(lia) ltac:(lia)). lia.
Qed.

(** ** Replay of a file *)

Lemma alter_insert_same (d : Dir) f x g : d !! f = Some x → alter g f d = <[f := g x]> d.
Proof. intros Hx. by rewrite <-(insert_id d f x Hx) at 1; rewrite alter_insert_eq. Qed.

(** A log found on the disk: replay returns the whole frames and leaves exactly
    them in the file. *)
Lemma replay_spec d data bs tail :
  d !! FWal = Some (mkFile data (length data)) → data = frames bs ++ tail →
  Forall fits bs → next_frame tail = None →
  (replay d).1 = Ok bs ∧
  after replay d = <[FWal := mkFile (frames bs) (length (frames bs))]> d.
Proof.
  intros Hf Hd Hbs Ht. unfold after, replay, mbind, IO_bind, exists_file. simpl.
  rewrite bool_decide_true by (rewrite Hf; eauto). simpl. unfold read_file. rewrite Hf. simpl.
  rewrite Hd, replay_data_frames by done. rewrite length_app.
  destruct (Nat.ltb_spec (length (frames bs)) (length (frames bs) + length tail)) as [Hlt|Hge]; simpl.
  - split; [done|]. rewrite (alter_insert_same d FWal _ _ Hf). simpl.
    rewrite (alter_insert_same _ FWal _ _ (lookup_insert_eq _ _ _)), insert_insert_eq. simpl.
    rewrite Hd, resize_le by (rewrite length_app; lia). by rewrite take_app_length.
  - split; [done|]. assert (tail = []) as -> by (apply nil_length_inv; lia).
    rewrite app_nil_r in Hd. subst data. by rewrite insert_id.
Qed.

Lemma replay_missing d : d !! FWal = None → replay d = (Ok [], []).
Proof.
  intros Hf. unfold replay, mbind, IO_bind, exists_file. simpl.
  rewrite bool_decide_false; [done|]. rewrite Hf. by intros [].
Qed.

(** The same, whatever part of the log is on the disk. *)
Lemma replay_io d x bs tail :
  d !! FWal = Some x → f_data x = frames bs ++ tail → Forall fits bs → next_frame tail = None →
  ∃ ops n, replay d = (Ok bs, ops) ∧ (ops = [] ∨ ops = [SetLen FWal (length (frames bs)); Sync FWal])
    ∧ apply_ops d ops !! FWal = Some (mkFile (frames bs) n)
    ∧ (f_synced x = length (f_data x) → n = length (frames bs)).
Proof.
  intros Hf Hd Hbs Ht. unfold replay, mbind, IO_bind, exists_file. simpl.
  rewrite bool_decide_true by (rewrite Hf; eauto). simpl. unfold read_file. rewrite Hf. simpl.
  rewrite Hd, replay_data_frames by done. rewrite length_app.
  destruct (Nat.ltb_spec (length (frames bs)) (length (frames bs) + length tail)) as [Hlt|Hge]; simpl.
  - eexists _, _. split; [done|]. split; [by right|]. simpl.
    rewrite lookup_alter_eq, lookup_alter_eq, Hf. simpl.
    rewrite Hd, resize_le, take_app_length by (rewrite length_app; lia). done.
  - assert (tail = []) as -> by (apply nil_length_inv; lia). rewrite app_nil_r in Hd.
    exists [], (f_synced x). split; [done|]. split; [by left|]. rewrite Nat.add_0_r, <-Hd. simpl. by destruct x.
Qed.

(** What a crash leaves of a log is replayed up to a frame boundary, and no
    frame that was synced is lost. *)
Lemma replay_cut d d' bs s :
  cut d d' → d !! FWal = Some (mkFile (frames bs) s) → Forall fits bs →
  ∃ j, (∀ i, (length (frames (take i bs)) <= s)%nat → (i <= length bs)%nat → (i <= j)%nat) ∧
    (replay d').1 = Ok (take j bs) ∧
    after replay d' = <[FWal := mkFile (frames (take j bs)) (length (frames (take j bs)))]> d'.
Proof.
  intros Hc Hf Hbs. pose proof (cut_lookup _ _ FWal Hc) as Hl. rewrite Hf in Hl.
  destruct Hl as (y & Hy & n & Hn & ->). simpl in *.
  destruct (cut_frames bs n Hbs) as (j & tail & Heq & Ht & Hj).
  exists j. split; [intros i ? ?; apply Hj; lia|].
  by apply (replay_spec d' _ _ tail Hy Heq); [apply Forall_take|].
Qed.

(** ** Appending *)

Fixpoint wal_appends (policy : SyncPolicy) (bs : list WalBatch) : IO unit :=
  match bs with
  | [] => mret tt
  | b :: bs => wal_append policy b;; wal_appends policy bs
  end.

(** The bytes of [bs] are in the file, on the disk if the policy says so. *)
Definition wal_holds (policy : SyncPolicy) (d : Dir) (bs : list WalBatch) : Prop :=
  ∃ s, d !! FWal = Some (mkFile (frames bs) s)
    ∧ (policy = Always → s = length (frames bs)) ∧ (s <= length (frames bs))%nat.

Lemma wal_append_ok policy b d : (wal_append policy b d).1 = Ok tt.
Proof. unfold wal_append, mbind, IO_bind. simpl. by destruct (decide _). Qed.

Lemma wal_append_holds policy b bs d :
  wal_holds policy d bs → wal_holds policy (after (wal_append policy b) d) (bs ++ [b]).
Proof.
  intros (s & Hf & Hs & Hle). unfold after, wal_append, mbind, IO_bind. simpl.
  assert (frames (bs ++ [b]) = frames bs ++ frame b) as Hfr
    by (rewrite frames_app; unfold frames at 2; simpl; by rewrite app_nil_r).
  destruct (decide (policy = Always)) as [Hp|Hp]; simpl; rewrite (alter_insert_same _ _ _ _ Hf);
    rewrite ?(alter_insert_same _ FWal _ _ (lookup_insert_eq _ _ _)), ?insert_insert_eq; simpl.
  - exists (length (frames (bs ++ [b]))). by rewrite lookup_insert_eq, Hfr.
  - exists s. rewrite lookup_insert_eq, Hfr, length_app. split_and!; [done|done|lia].
Qed.

(** A crash while one batch is appended keeps the log, with or without it. *)
Lemma wal_append_crash policy b bs d d' :
  wal_holds policy d bs → crashes d (wal_append policy b d).2 d' →
  ∃ d0 bs' s, cut d0 d' ∧ d0 !! FWal = Some (mkFile (frames bs') s) ∧ (bs' = bs ∨ bs' = bs ++ [b])
    ∧ (policy = Always → (length (frames bs) <= s)%nat)
    ∧ (∀ f, f ≠ FWal → d0 !! f = d !! f).
Proof.
  intros (s & Hf & Hs & Hle) Hc. pose proof (wal_append_holds policy b bs d) as Ha.
  assert (frames (bs ++ [b]) = frames bs ++ frame b) as Hfr
    by (rewrite frames_app; unfold frames at 2; simpl; by rewrite app_nil_r).
  assert (cut d d' → ∃ d0 bs' s, cut d0 d' ∧ d0 !! FWal = Some (mkFile (frames bs') s)
    ∧ (bs' = bs ∨ bs' = bs ++ [b]) ∧ (policy = Always → (length (frames bs) <= s)%nat)
    ∧ (∀ f, f ≠ FWal → d0 !! f = d !! f)) as Hkeep.
  { intros. exists d, bs, s. split_and!; [done|done|by left| |done]. intros Hp. by rewrite <-Hs. }
  unfold wal_append, mbind, IO_bind in Hc. simpl in Hc.
  destruct (decide (policy = Always)) as [Hp|Hp]; simpl in Hc;
    rewrite ?crashes_cons, crashes_nil in Hc; simpl in Hc; rewrite (alter_insert_same _ _ _ _ Hf) in Hc;
    rewrite ?(alter_insert_same _ FWal _ _ (lookup_insert_eq _ _ _)), ?insert_insert_eq in Hc; simpl in Hc.
  - destruct Hc as [Hc|[Hc|Hc]]; [by apply Hkeep|..];
      (eexists _, (bs ++ [b]), _; split; [exact Hc|]; rewrite lookup_insert_eq, Hfr;
       split_and!; [done|by right|intros; rewrite ?length_app, ?Hs by done; lia
         |intros; by rewrite lookup_insert_ne]).
  - destruct Hc as [Hc|Hc]; [by apply Hkeep|].
    eexists _, (bs ++ [b]), _. split; [exact Hc|]. rewrite lookup_insert_eq, Hfr.
    split_and!; [done|by right|done|]. intros. by rewrite lookup_insert_ne.
Qed.

(** C18: Prefix durability. Let the log hold the batches [acked], and let a crash
    happen at any moment while more batches are appended: replay returns a prefix
    of all batches, cut at a batch boundary, leaves exactly that prefix in the
    file, and, if every append was synced, has lost none of the acknowledged ones. *)
Theorem wal_prefix_durable policy acked pending d d' :
  Forall fits (acked ++ pending) → wal_holds policy d acked →
  crashes d (wal_appends policy pending d).2 d' →
  ∃ j, (replay d').1 = Ok (take j (acked ++ pending)) ∧
    read_file FWal (after replay d') = Ok (frames (take j (acked ++ pending))) ∧
    (policy = Always → (length acked <= j)%nat).
Proof.
  revert acked d. induction pending as [|b pending IH]; intros acked d Hfit Hh Hc.
  - destruct Hh as (s & Hf & Hs & _). rewrite app_nil_r in *. apply crashes_nil in Hc.
    destruct (replay_cut _ _ _ _ Hc Hf Hfit) as (j & Hj & -> & ->).
    exists j. unfold read_file. rewrite lookup_insert_eq. split_and!; [done..|].
    intros Hp. apply Hj; [|done]. by rewrite firstn_all, Hs.
  - cbn [wal_appends] in Hc. rewrite (io_bind_ok _ _ _ tt (wal_append policy b d).2) in Hc
      by (rewrite <-wal_append_ok with policy b d; by destruct (wal_append policy b d)).
    simpl in Hc. apply crashes_app in Hc as [Hc|Hc].
    + destruct (wal_append_crash _ _ _ _ _ Hh Hc) as (d0 & bs' & s & Hcut & Hf & Hbs' & Hs & _).
      assert (∃ k, bs' = take k (acked ++ b :: pending) ∧ (length acked <= k)%nat) as (k & -> & Hk).
      { destruct Hbs' as [-> | ->].
        - exists (length acked). by rewrite take_app_length.
        - exists (length acked + 1)%nat. split; [|lia].
          rewrite take_app_ge by lia. by replace (length acked + 1 - length acked)%nat with 1%nat by lia. }
      destruct (replay_cut _ _ _ _ Hcut Hf (Forall_take _ _ _ Hfit)) as (j & Hj & -> & ->).
      exists (Nat.min j k). rewrite <-take_take. unfold read_file. rewrite lookup_insert_eq.
      split_and!; [done..|]. intros Hp. specialize (Hj (length acked)).
      rewrite take_take, Nat.min_l, take_app_length in Hj by lia.
      rewrite length_take, length_app in Hj. specialize (Hj (Hs Hp) ltac:(simpl; lia)). lia.
    + apply (IH (acked ++ [b])) in Hc as (j & Hj1 & Hj2 & Hj3);
        [|by rewrite <-app_assoc|by apply wal_append_holds].
      rewrite <-app_assoc in *. exists j. split_and!; [done..|].
      intros Hp. specialize (Hj3 Hp). rewrite length_app in Hj3. simpl in Hj3. lia.
Qed.
End wal.

(** ** A concrete log *)

Definition sum_crc : Crc32.
Proof. refine {| crc32 bs := wrap 32 (from_le bs) |}. intros bs. apply wrap_lt. Defined.

Section concrete.
  #[local] Existing Instance sum_crc.
#[local] Instance demo_batch_codec : Bincode WalBatch := countable_bincode WalBatch.
#[local] Instance demo_batch_laws : BincodeLaws WalBatch := countable_bincode_laws WalBatch.

Definition demo_b1 : WalBatch := mkBatch 1 [([x61], Some [x01])].
Definition demo_b2 : WalBatch := mkBatch 2 [([x62], None)].

Definition demo_log : Dir := {[FWal := mkFile (frames [demo_b1]) (length (frames [demo_b1]))]}.

(** The second frame has lost its last byte. *)
Definition demo_torn : Dir :=
  let data := take (length (frames [demo_b1; demo_b2]) - 1) (frames [demo_b1; demo_b2]) in
  {[FWal := mkFile data (length data)]}.

Lemma wal_prefix_durable_witness :
  (replay demo_torn).1 = Ok [demo_b1] ∧
  ∃ j, (replay demo_torn).1 = Ok (take j [demo_b1; demo_b2]) ∧
    read_file FWal (after replay demo_torn) = Ok (frames (take j [demo_b1; demo_b2])) ∧
    (Always = Always → (length [demo_b1] <= j)%nat).
Proof.
  split; [vm_compute; reflexivity|].
  apply (wal_prefix_durable Always [demo_b1] [demo_b2] demo_log).
  - repeat constructor; vm_compute; reflexivity.
  - exists (length (frames [demo_b1])). split_and!; [vm_compute; reflexivity|done|lia].
  - exists [Append FWal (frame demo_b2)], [Sync FWal]. split; [vm_compute; reflexivity|].
    intros f. destruct (decide (f = FWal)) as [->|Hf].
    + exists (length (frames [demo_b1; demo_b2]) - 1)%nat.
      split; [vm_compute; lia|vm_compute; reflexivity].
    + unfold demo_torn, demo_log. cbn [apply_ops foldl apply_op].
      by rewrite lookup_alter_ne, !lookup_singleton_ne by done.
Defined.
End concrete.
