(* ===== verification/Bloom.v ===== *)
(** * Bloom filters

    crates/storage/src/bloom.rs: the FNV-1a hash, double hashing over a bit
    vector, and the encoding kept in a table's index. *)

From S2P Require Import Prelude SimBase Fs Wal.
Local Open Scope N_scope.

Definition fnv1a (data : bytes) : N :=
  foldl (λ h b, ((h ^^ Byte.to_N b) *w 0x100000001b3)%u64) 0xcbf29ce484222325 data.

(** The finalizer of splitmix64. *)
Definition mix (x : N) : N :=
  let x := ((x ^^ (x >>w 30)) *w 0xbf58476d1ce4e5b9)%u64 in
  let x := ((x ^^ (x >>w 27)) *w 0x94d049bb133111eb)%u64 in
  (x ^^ (x >>w 31))%u64.

Record BloomFilter := mkBloom { bf_k : N; bf_bits : list N }.

Definition nbits (f : BloomFilter) : N := N.of_nat (length (bf_bits f)) * 8.

(** The probes of a hash: [k] positions from [pos], [h2] apart. *)
Fixpoint probes (k : nat) (pos h2 nbits : N) : list N :=
  match k with
  | O => []
  | S k => pos mod nbits :: probes k (pos +w h2)%u64 h2 nbits
  end.

Definition probes_of (f : BloomFilter) (h1 : N) : list N :=
  probes (N.to_nat (bf_k f)) h1 (N.lor (mix h1) 1) (nbits f).

Definition set_bit (bits : list N) (bit : N) : list N :=
  alter (λ b, N.lor b (N.shiftl 1 (bit mod 8))) (N.to_nat (bit / 8)) bits.

Definition test_bit (bits : list N) (bit : N) : bool :=
  match bits !! N.to_nat (bit / 8) with
  | Some b => negb (N.land b (N.shiftl 1 (bit mod 8)) =? 0)
  | None => false
  end.

Definition add_hash (f : BloomFilter) (h1 : N) : BloomFilter :=
  mkBloom (bf_k f) (foldl set_bit (bf_bits f) (probes_of f h1)).

(** [(bits_per_key as f64 * 0.69) as u32], where [0.69] is the double
    1553741871442821 / 2 ^ 51 and the product is rounded to 53 bits. *)
Definition bloom_k (bits_per_key : N) : N :=
  N.max 1 (N.min 30 (N.shiftr (round_f64 (round_f64 bits_per_key * 1553741871442821)) 51)).

Definition from_hashes (hashes : list N) (bits_per_key : N) : BloomFilter :=
  let nbits := N.max (N.of_nat (length hashes) * bits_per_key) 64 in
  let nbits := (nbits + 7) / 8 * 8 in
  foldl add_hash (mkBloom (bloom_k bits_per_key) (replicate (N.to_nat (nbits / 8)) 0)) hashes.

Definition may_contain (f : BloomFilter) (key : bytes) : bool :=
  forallb (test_bit (bf_bits f)) (probes_of f (fnv1a key)).

Definition bloom_encode (f : BloomFilter) : bytes := u32_le (bf_k f) ++ (byte_of <$> bf_bits f).

Definition bloom_decode (data : bytes) : Res BloomFilter :=
  if (length data <? 5)%nat then fail Corruption
  else Ok (mkBloom (from_le (take 4 data)) (Byte.to_N <$> drop 4 data)).

(** ** No false negatives *)

Lemma length_set_bit bits b : length (set_bit bits b) = length bits.
Proof. apply length_alter. Qed.

Lemma length_set_bits bits bs : length (foldl set_bit bits bs) = length bits.
Proof.
  revert bits. induction bs as [|b bs IH]; intros bits; simpl; [done|].
  by rewrite IH, length_set_bit.
Qed.

Lemma test_bit_spec bits b :
  test_bit bits b = true ↔ ∃ x, bits !! N.to_nat (b / 8) = Some x ∧ N.testbit x (b mod 8) = true.
Proof.
  unfold test_bit. destruct (bits !! _) as [x|]; [|naive_solver].
  rewrite land_bit. naive_solver.
Qed.

Lemma set_bit_keeps bits b b' : test_bit bits b = true → test_bit (set_bit bits b') b = true.
Proof.
  rewrite !test_bit_spec. intros (x & Hx & Hb). unfold set_bit.
  destruct (decide (N.to_nat (b' / 8) = N.to_nat (b / 8))) as [He|He].
  - rewrite He, list_lookup_alter_eq, Hx. eexists. split; [done|]. by rewrite N.lor_spec, Hb.
  - rewrite list_lookup_alter_ne by done. eauto.
Qed.

Lemma set_bit_sets bits b : b < N.of_nat (length bits) * 8 → test_bit (set_bit bits b) b = true.
Proof.
  intros Hb. rewrite test_bit_spec. unfold set_bit. rewrite list_lookup_alter_eq.
  destruct (lookup_lt_is_Some_2 bits (N.to_nat (b / 8))) as [x ->].
  { assert (b / 8 < N.of_nat (length bits)) by (apply N.Div0.div_lt_upper_bound; lia). lia. }
  eexists. split; [done|]. rewrite N.lor_spec, N.shiftl_1_l, N.pow2_bits_true. apply orb_true_r.
Qed.

Lemma set_bits_keeps bits bs b : test_bit bits b = true → test_bit (foldl set_bit bits bs) b = true.
Proof. revert bits. induction bs; intros; simpl; [done|]. auto using set_bit_keeps. Qed.

Lemma set_bits_sets bits bs b :
  Forall (λ b, b < N.of_nat (length bits) * 8) bs → b ∈ bs →
  test_bit (foldl set_bit bits bs) b = true.
Proof.
  intros Hbs. revert bits Hbs. induction bs as [|b' bs IH]; intros bits Hbs Hin.
  { by apply elem_of_nil in Hin. }
  apply Forall_cons in Hbs as [Hb' Hbs]. apply elem_of_cons in Hin as [->|Hin]; simpl.
  - by apply set_bits_keeps, set_bit_sets.
  - apply IH; [|done]. by rewrite length_set_bit.
Qed.

Lemma probes_lt k pos h2 n : 0 < n → Forall (λ b, b < n) (probes k pos h2 n).
Proof. intros Hn. revert pos. induction k; constructor; [apply N.mod_lt; lia|auto]. Qed.

(** Two filters of one shape probe the same positions. *)
Definition same_shape (f g : BloomFilter) : Prop :=
  bf_k f = bf_k g ∧ length (bf_bits f) = length (bf_bits g).

Lemma same_shape_probes f g h : same_shape f g → probes_of f h = probes_of g h.
Proof. intros [Hk Hl]. unfold probes_of, nbits. by rewrite Hk, Hl. Qed.

Lemma add_hash_shape f h : same_shape (add_hash f h) f.
Proof. split; [done|]. apply length_set_bits. Qed.

Lemma add_hashes_shape f hs : same_shape (foldl add_hash f hs) f.
Proof.
  revert f. induction hs as [|h hs IH]; intros f; simpl; [done|].
  destruct (IH (add_hash f h)) as [H1 H2], (add_hash_shape f h) as [H3 H4]. split; congruence.
Qed.

Lemma add_hashes_keeps f hs b :
  test_bit (bf_bits f) b = true → test_bit (bf_bits (foldl add_hash f hs)) b = true.
Proof.
  revert f. induction hs as [|h hs IH]; intros f Hb; simpl; [done|].
  by apply IH, set_bits_keeps.
Qed.

Lemma add_hashes_sets f hs h b :
  (0 < length (bf_bits f))%nat → h ∈ hs → b ∈ probes_of f h →
  test_bit (bf_bits (foldl add_hash f hs)) b = true.
Proof.
  revert f. induction hs as [|h' hs IH]; intros f Hl Hin Hb; [by apply elem_of_nil in Hin|].
  apply elem_of_cons in Hin as [->|Hin]; simpl.
  - apply add_hashes_keeps, set_bits_sets; [|done]. apply probes_lt. unfold nbits. lia.
  - pose proof (add_hash_shape f h') as Hs. apply IH; [by rewrite (proj2 Hs)|done|].
    by rewrite (same_shape_probes _ _ _ Hs).
Qed.

Lemma from_hashes_size hashes bpk : (8 <= length (bf_bits (from_hashes hashes bpk)))%nat.
Proof.
  unfold from_hashes. destruct (add_hashes_shape
    (mkBloom (bloom_k bpk) (replicate (N.to_nat ((N.max (N.of_nat (length hashes) * bpk) 64 + 7) / 8 * 8 / 8)) 0))
    hashes) as [_ ->]. simpl. rewrite length_replicate, N.div_mul by done.
  assert (8 <= (N.max (N.of_nat (length hashes) * bpk) 64 + 7) / 8); [|lia].
  apply N.div_le_lower_bound; lia.
Qed.

Lemma from_hashes_contains hashes bpk key :
  fnv1a key ∈ hashes → may_contain (from_hashes hashes bpk) key = true.
Proof.
  intros Hin. apply forallb_forall. intros b Hb%list_elem_of_In.
  pose proof (from_hashes_size hashes bpk) as Hsz. unfold from_hashes in *.
  set (f0 := mkBloom _ _) in *. pose proof (add_hashes_shape f0 hashes) as Hs.
  apply (add_hashes_sets f0 hashes (fnv1a key)); [rewrite <-(proj2 Hs); lia|done|].
  by rewrite <-(same_shape_probes _ _ _ Hs).
Qed.

(** ** Encoding *)

Definition bloom_ok (f : BloomFilter) : Prop :=
  bf_k f < 2 ^ 32 ∧ Forall (λ b, b < 256) (bf_bits f) ∧ (0 < length (bf_bits f))%nat.

Lemma bloom_decode_encode f : bloom_ok f → bloom_decode (bloom_encode f) = Ok f.
Proof.
  intros (Hk & Hb & Hl). unfold bloom_decode, bloom_encode.
  assert (4%nat = length (u32_le (bf_k f))) as H4 by (symmetry; apply length_to_le).
  rewrite length_app, <-H4, length_fmap.
  destruct (Nat.ltb_spec (4 + length (bf_bits f)) 5) as [|_]; [lia|].
  rewrite take_app_length', drop_app_length', from_u32_le by done.
  rewrite <-list_fmap_compose. destruct f as [k bits]. simpl in *. do 2 f_equal.
  rewrite <-(list_fmap_id bits) at 2. apply list_fmap_ext. intros i b Hi. simpl.
  rewrite to_N_byte_of. apply N.mod_small. by eapply (Forall_lookup_1 _ _ _ _ Hb).
Qed.

Lemma set_bit_byte bits b : Forall (λ x, x < 256) bits → Forall (λ x, x < 256) (set_bit bits b).
Proof.
  intros Hb. apply Forall_alter; [done|]. intros x _ Hx.
  change 256 with (2 ^ 8). destruct (decide (N.lor x (N.shiftl 1 (b mod 8)) = 0)) as [->|]; [done|].
  apply N.log2_lt_pow2; [lia|]. rewrite N.log2_lor. apply N.max_lub_lt.
  - destruct (decide (x = 0)) as [->|]; [done|]. apply N.log2_lt_pow2; [lia|done].
  - rewrite N.shiftl_1_l, N.log2_pow2 by lia. apply N.mod_lt. done.
Qed.

Lemma set_bits_byte bits bs : Forall (λ x, x < 256) bits → Forall (λ x, x < 256) (foldl set_bit bits bs).
Proof. revert bits. induction bs; intros; simpl; [done|]. auto using set_bit_byte. Qed.

Lemma add_hashes_byte f hs :
  Forall (λ x, x < 256) (bf_bits f) → Forall (λ x, x < 256) (bf_bits (foldl add_hash f hs)).
Proof. revert f. induction hs as [|h hs IH]; intros f Hf; simpl; [done|]. by apply IH, set_bits_byte. Qed.

Lemma from_hashes_ok hashes bpk : bloom_ok (from_hashes hashes bpk).
Proof.
  pose proof (from_hashes_size hashes bpk) as Hsz. split_and!; [| |lia]; unfold from_hashes.
  - destruct (add_hashes_shape (mkBloom (bloom_k bpk) (replicate (N.to_nat
      ((N.max (N.of_nat (length hashes) * bpk) 64 + 7) / 8 * 8 / 8)) 0)) hashes) as [-> _].
    simpl. unfold bloom_k. lia.
  - by apply add_hashes_byte, Forall_replicate.
Qed.

(** A table's filter never hides a key: a filter built from the hashes of the
    table's keys, written to the index and read back, accepts each of the keys. *)
Theorem bloom_no_false_negatives keys bits_per_key key :
  key ∈ keys →
  ∃ f, bloom_decode (bloom_encode (from_hashes (fnv1a <$> keys) bits_per_key)) = Ok f
    ∧ may_contain f key = true.
Proof.
  intros Hin. eexists. split; [apply bloom_decode_encode, from_hashes_ok|].
  apply from_hashes_contains. by apply list_elem_of_fmap_2.
Qed.

Lemma bloom_no_false_negatives_witness :
  may_contain (from_hashes (fnv1a <$> [[x61]; [x62]]) 10) [x63] = false ∧
  ∃ f, bloom_decode (bloom_encode (from_hashes (fnv1a <$> [[x61]; [x62]]) 10)) = Ok f
    ∧ may_contain f [x62] = true.
Proof.
  split; [vm_compute; reflexivity|].
  apply (bloom_no_false_negatives [[x61]; [x62]] 10 [x62]). right. left.
Defined.
