(* ===== verification/Memtable.v ===== *)
(** * Versions and the memtable

    crates/storage/src/memtable.rs: versions of keys, ordered by key ascending
    and sequence number descending, in a [BTreeMap]. [find_version] is the
    reference read: the newest version of a key at a snapshot; the memtable, the
    tables and the merged streams are all compared with it. *)

From S2P Require Import Prelude Order.
Local Open Scope N_scope.

(** (user key, sequence number, value); no value is a tombstone. *)
Abbreviation Entry := (bytes * N * option bytes)%type.

Record MemTable := mkMemTable {
  mt_map : gmap (bytes * N) (option bytes);
  mt_bytes : N;
}.

Definition mt_new : MemTable := mkMemTable ∅ 0.

Definition len (bs : bytes) : N := N.of_nat (length bs).

Lemma len_app a b : len (a ++ b) = len a + len b.
Proof. unfold len. rewrite length_app. lia. Qed.

Definition mt_insert (key : bytes) (seq : N) (value : option bytes) (m : MemTable) : MemTable :=
  mkMemTable (<[(key, seq) := value]> (mt_map m))
    (mt_bytes m + (len key + from_option len 0 value + 24)).

(** The pairs of the range [start..=end], and the first of them. *)
Definition mt_get (m : MemTable) (key : bytes) (snapshot : N) : option (option bytes) :=
  snd <$> head (filter (λ e : Entry, cmp_le ikey_cmp (key, snapshot) e.1 ∧ cmp_le ikey_cmp e.1 (key, 0))
    (bt_iter ikey_cmp (mt_map m))).

Definition mt_is_empty (m : MemTable) : bool := bool_decide (mt_map m = ∅).

Definition mt_iter (m : MemTable) : list Entry := bt_iter ikey_cmp (mt_map m).

(** ** The reference read *)

(** Strictly ordered versions: every source of the engine is one. *)
Abbreviation sorted := (StronglySorted (key_lt (V := option bytes) ikey_cmp)).

Definition find_version (es : list Entry) (key : bytes) (snapshot : N)
    : option (N * option bytes) :=
  (λ e, (e.1.2, e.2)) <$> head (filter (λ e : Entry, e.1.1 = key ∧ e.1.2 ≤ snapshot) es).

(** [(s, v)] is the newest version of [key] at [snapshot] among those of [P]. *)
Definition newest (P : Entry → Prop) (key : bytes) (snapshot : N) (s : N) (v : option bytes) : Prop :=
  P (key, s, v) ∧ s ≤ snapshot ∧ ∀ s' v', P (key, s', v') → s' ≤ snapshot → s' ≤ s.

Lemma find_version_Some es key t s v :
  sorted es → find_version es key t = Some (s, v) ↔ newest (.∈ es) key t s v.
Proof.
  intros Hs. unfold find_version, newest.
  pose proof (key_sorted_filter ikey_cmp (λ e, e.1.1 = key ∧ e.1.2 ≤ t) es Hs) as Hf.
  assert (∀ e, e ∈ filter (λ e : Entry, e.1.1 = key ∧ e.1.2 ≤ t) es ↔
    (e.1.1 = key ∧ e.1.2 ≤ t) ∧ e ∈ es) as Hin by (intros; by rewrite list_elem_of_filter).
  destruct (filter _ es) as [|[[k s0] v0] l]; simpl.
  { split; [done|]. intros (H1 & H2 & _). specialize (Hin (key, s, v)).
    rewrite elem_of_nil in Hin. exfalso. by apply Hin. }
  apply StronglySorted_inv in Hf as [_ Hall]. rewrite Forall_forall in Hall.
  destruct (proj1 (Hin (k, s0, v0)) ltac:(left)) as [[Hk Hle] H0]. simpl in *. subst k.
  assert (∀ s' v', (key, s', v') ∈ es → s' ≤ t → (s', v') = (s0, v0) ∨ s' < s0) as Hmax.
  { intros s' v' H1 H2. pose proof (proj2 (Hin (key, s', v')) (conj (conj eq_refl H2) H1))
      as [?|Hl]%elem_of_cons; [left; by simplify_eq|right].
    apply Hall in Hl. unfold key_lt in Hl. apply ikey_lt_iff in Hl as [Hl|[_ Hl]]; [|done].
    by apply (cmp_lt_irrefl bytes_cmp) in Hl. }
  split.
  - intros [= <- <-]. split_and!; [done..|]. intros s' v' H1 H2.
    destruct (Hmax s' v' H1 H2) as [[= -> _]|]; lia.
  - intros (H1 & H2 & H3). destruct (Hmax s v H1 H2) as [[= -> ->]|Hlt]; [done|].
    specialize (H3 s0 v0 H0 Hle). lia.
Qed.

Lemma find_version_None es key t :
  find_version es key t = None ↔ ∀ s v, (key, s, v) ∈ es → t < s.
Proof.
  unfold find_version. rewrite fmap_None. split.
  - intros Hh s v Hin. destruct (decide (s ≤ t)) as [Hle|]; [|lia].
    assert ((key, s, v) ∈ filter (λ e : Entry, e.1.1 = key ∧ e.1.2 ≤ t) es) as Hf
      by by apply list_elem_of_filter.
    destruct (filter _ _); [by apply elem_of_nil in Hf|done].
  - intros Hall. rewrite filter_none; [done|]. intros [[k s] v] Hin [Hk Hle]. simpl in *. subst k.
    specialize (Hall s v Hin). lia.
Qed.

Lemma newest_unique P key t s v s' v' :
  (∀ s v v', P (key, s, v) → P (key, s, v') → v = v') →
  newest P key t s v → newest P key t s' v' → s = s' ∧ v = v'.
Proof.
  intros HP (H1 & H2 & H3) (H1' & H2' & H3'). assert (s = s') as <-.
  { specialize (H3 s' v' H1' H2'). specialize (H3' s v H1 H2). lia. }
  split; [done|]. by eapply HP.
Qed.

(** ** The memtable answers like the reference *)

Lemma mt_iter_sorted m : sorted (mt_iter m).
Proof. apply bt_iter_sorted, _. Qed.

Lemma elem_of_mt_iter m k s v : (k, s, v) ∈ mt_iter m ↔ mt_map m !! (k, s) = Some v.
Proof. apply elem_of_bt_iter. Qed.

Lemma range_iff key t (e : bytes * N) :
  cmp_le ikey_cmp (key, t) e ∧ cmp_le ikey_cmp e (key, 0) ↔ e.1 = key ∧ e.2 ≤ t.
Proof.
  destruct e as [k s]. rewrite !(cmp_le_cases ikey_cmp), !ikey_lt_iff. simpl. split.
  - assert (∀ a b, bytes_lt a b → bytes_lt b a → False) as Hasym.
    { intros a b H1 H2. apply (cmp_lt_irrefl bytes_cmp a). by etrans. }
    intros [[[H1|[H1 H1']]|H1] [[H2|[H2 H2']]|H2]]; simplify_eq; try (by exfalso; eauto);
      split; done || lia.
  - intros [-> Hle]. split.
    + destruct (decide (s = t)) as [->|]; [by right|]. left. right. split; [done|lia].
    + destruct (decide (s = 0)) as [->|]; [by right|]. left. right. split; [done|lia].
Qed.

Lemma mt_get_find m key t : mt_get m key t = snd <$> find_version (mt_iter m) key t.
Proof.
  unfold mt_get, find_version. rewrite <-option_fmap_compose. f_equal. f_equal.
  apply list_filter_iff. intros e. apply range_iff.
Qed.

Lemma mt_get_Some m key t v :
  mt_get m key t = Some v ↔ ∃ s, newest (λ e, mt_map m !! e.1 = Some e.2) key t s v.
Proof.
  rewrite mt_get_find, fmap_Some. split.
  - intros ([s v'] & Hf & ->). apply find_version_Some in Hf as (H1 & H2 & H3); [|apply mt_iter_sorted].
    exists s. split_and!; [by apply elem_of_mt_iter|done|]. intros s' v'' H. apply (H3 s' v'').
    by apply elem_of_mt_iter.
  - intros (s & H1 & H2 & H3). exists (s, v). split; [|done].
    apply find_version_Some; [apply mt_iter_sorted|]. split_and!; [by apply elem_of_mt_iter|done|].
    intros s' v' H. apply (H3 s' v'). by apply elem_of_mt_iter.
Qed.
