(* ===== verification/SsTable.v ===== *)
(** * Sorted tables

    crates/storage/src/sstable.rs: the builder that writes blocks of entries, an
    index and a footer; opening a table; reading a block, a key, and all
    entries. The file of table [id] is [FTable id] of the directory. *)

From S2P Require Import Prelude Order Codec Fs Wal Bloom Memtable.
Local Open Scope N_scope.

Definition MAGIC : N := 0x7266744b56535354.

Record BlockMeta := mkBlockMeta {
  bm_first_key : bytes;
  bm_offset : N;
  bm_len : N;
  bm_crc : N;
}.

Record TableIndex := mkIndex {
  ix_blocks : list BlockMeta;
  ix_bloom : bytes;
  ix_entry_count : N;
  ix_min_key : bytes;
  ix_max_key : bytes;
  ix_max_seq : N;
}.

#[export] Instance BlockMeta_eq_dec : EqDecision BlockMeta.
Proof. solve_decision. Defined.
#[export] Instance BlockMeta_countable : Countable BlockMeta.
Proof.
  by apply (inj_countable' (λ b, (bm_first_key b, bm_offset b, bm_len b, bm_crc b))
    (λ '(k, o, l, c), mkBlockMeta k o l c)); intros [].
Defined.
#[export] Instance TableIndex_eq_dec : EqDecision TableIndex.
Proof. solve_decision. Defined.
#[export] Instance TableIndex_countable : Countable TableIndex.
Proof.
  by apply (inj_countable' (λ i, (ix_blocks i, ix_bloom i, ix_entry_count i, ix_min_key i,
      ix_max_key i, ix_max_seq i))
    (λ '(b, f, c, mn, mx, s), mkIndex b f c mn mx s)); intros [].
Defined.

Record SsTable := mkTable { st_id : N; st_index : TableIndex; st_bloom : BloomFilter }.

Definition min_key (t : SsTable) : bytes := ix_min_key (st_index t).
Definition max_key (t : SsTable) : bytes := ix_max_key (st_index t).

(** ** Entries in a block *)

Definition encode_entry (e : Entry) : bytes :=
  let '(key, seq, value) := e in
  u32_le (len key) ++ key ++ to_le 8 seq ++
  match value with
  | Some v => x01 :: u32_le (len v) ++ v
  | None => x00 :: u32_le 0
  end.

Definition encode_block (es : list Entry) : bytes := concat (encode_entry <$> es).

(** [need(n, off)?] on the bytes from [off] on. *)
Definition need (n : N) (buf : bytes) : Res unit :=
  if len buf <? n then fail Corruption else Ok tt.

(** One turn of the loop of [decode_block]: an entry and the bytes after it. *)
Definition decode_entry (buf : bytes) : Res (Entry * bytes) :=
  need 4 buf;;
  let klen := from_le (take 4 buf) in
  let buf := drop 4 buf in
  need (klen + 9) buf;;
  let key := take (N.to_nat klen) buf in
  let buf := drop (N.to_nat klen) buf in
  let seq := from_le (take 8 buf) in
  let buf := drop 8 buf in
  let kind := take 1 buf in
  let buf := drop 1 buf in
  need 4 buf;;
  let vlen := from_le (take 4 buf) in
  let buf := drop 4 buf in
  if decide (kind = [x01]) then
    need vlen buf;;
    Ok ((key, seq, Some (take (N.to_nat vlen) buf)), drop (N.to_nat vlen) buf)
  else Ok ((key, seq, None), buf).

Fixpoint decode_loop (fuel : nat) (buf : bytes) : Res (list Entry) :=
  match fuel with
  | O => fail NoFuel
  | S fuel =>
    match buf with
    | [] => Ok []
    | _ =>
      '(e, rest) ← decode_entry buf;
      es ← decode_loop fuel rest;
      Ok (e :: es)
    end
  end.

Definition decode_block (buf : bytes) : Res (list Entry) := decode_loop (S (length buf)) buf.

(** ** The builder *)

Record TableBuilder := mkBuilder {
  tb_id : N;
  tb_block : bytes;
  tb_block_first_key : option bytes;
  tb_blocks : list BlockMeta;
  tb_offset : N;
  tb_key_hashes : list N;
  tb_last_user_key : option bytes;
  tb_entry_count : N;
  tb_min_key : option bytes;
  tb_max_key : option bytes;
  tb_max_seq : N;
  tb_block_bytes : N;
  tb_bits_per_key : N;
}.

Section table.
  Context `{Crc32} `{Bincode TableIndex}.

Definition builder_create (id block_bytes bits_per_key : N) : IO TableBuilder :=
  perform (Create (FTable id));;
  mret (mkBuilder id [] None [] 0 [] None 0 None None 0 block_bytes bits_per_key).

Definition flush_block (b : TableBuilder) : IO TableBuilder :=
  match tb_block b with
  | [] => mret b
  | block =>
    let crc := crc32 block in
    perform (Append (FTable (tb_id b)) block);;
    match tb_block_first_key b with
    | None => throw Panic
    | Some first_key =>
      mret (mkBuilder (tb_id b) [] None
        (tb_blocks b ++ [mkBlockMeta first_key (tb_offset b) (wrap 32 (len block)) crc])
        (tb_offset b + len block) (tb_key_hashes b) (tb_last_user_key b) (tb_entry_count b)
        (tb_min_key b) (tb_max_key b) (tb_max_seq b) (tb_block_bytes b) (tb_bits_per_key b))
    end
  end.

(** [add] up to the test of the block's size. *)
Definition push_entry (e : Entry) (b : TableBuilder) : TableBuilder :=
  let '(key, seq, value) := e in
  let new_key := bool_decide (tb_last_user_key b ≠ Some key) in
  mkBuilder (tb_id b)
    (tb_block b ++ encode_entry e)
    (Some (default key (tb_block_first_key b)))
    (tb_blocks b) (tb_offset b)
    (if new_key then tb_key_hashes b ++ [fnv1a key] else tb_key_hashes b)
    (if new_key then Some key else tb_last_user_key b)
    (tb_entry_count b + 1)
    (Some (default key (tb_min_key b))) (Some key)
    (N.max (tb_max_seq b) seq) (tb_block_bytes b) (tb_bits_per_key b).

Definition builder_add (e : Entry) (b : TableBuilder) : IO TableBuilder :=
  let b := push_entry e b in
  if tb_block_bytes b <=? len (tb_block b) then flush_block b else mret b.

(** [for (k, s, v) in ... { b.add(&k, s, v.as_deref())?; }] *)
Fixpoint add_all (es : list Entry) (b : TableBuilder) : IO TableBuilder :=
  match es with
  | [] => mret b
  | e :: es => b ← builder_add e b; add_all es b
  end.

Definition index_of (b : TableBuilder) : TableIndex :=
  mkIndex (tb_blocks b)
    (bloom_encode (from_hashes (tb_key_hashes b) (tb_bits_per_key b)))
    (tb_entry_count b) (default [] (tb_min_key b)) (default [] (tb_max_key b)) (tb_max_seq b).

Definition footer (index_off : N) (payload : bytes) : bytes :=
  to_le 8 index_off ++ u32_le (len payload) ++ u32_le (crc32 payload) ++ to_le 8 MAGIC.

(** The entry count, the size of the file, and the smallest and largest key. *)
Definition builder_finish (b : TableBuilder) : IO (N * N * bytes * bytes) :=
  b ← flush_block b;
  let index := index_of b in
  let payload := serialize index in
  let index_off := tb_offset b in
  perform (Append (FTable (tb_id b)) payload);;
  perform (Append (FTable (tb_id b)) (footer index_off payload));;
  perform (Sync (FTable (tb_id b)));;
  mret (tb_entry_count b, index_off + len payload + 24, ix_min_key index, ix_max_key index).

(** A table from a list of entries, as [flush] writes one. *)
Definition build_table (id block_bytes bits_per_key : N) (es : list Entry)
    : IO (N * N * bytes * bytes) :=
  b ← builder_create id block_bytes bits_per_key;
  b ← add_all es b;
  builder_finish b.

(** ** The reader *)

(** Seeking to [off] and [read_exact] of [n] bytes. *)
Definition read_at (data : bytes) (off n : N) : Res bytes :=
  if n =? 0 then Ok []
  else if len data <? off + n then fail (Io UnexpectedEof)
  else Ok (take (N.to_nat n) (drop (N.to_nat off) data)).

Definition open_data (data : bytes) (id : N) : Res SsTable :=
  if len data <? 24 then fail Corruption
  else
    let footer := drop (length data - 24) data in
    let magic := from_le (take 8 (drop 16 footer)) in
    if negb (magic =? MAGIC) then fail Corruption
    else
      let index_off := from_le (take 8 footer) in
      let index_len := from_le (take 4 (drop 8 footer)) in
      let index_crc := from_le (take 4 (drop 12 footer)) in
      payload ← read_at data index_off index_len;
      if negb (crc32 payload =? index_crc) then fail Corruption
      else
        match deserialize payload with
        | None => fail Corruption
        | Some index =>
          bloom ← bloom_decode (ix_bloom index);
          Ok (mkTable id index bloom)
        end.

Definition table_open (id : N) (d : Dir) : Res SsTable :=
  data ← read_file (FTable id) d;
  open_data data id.

(** [read_block(i)], given the metadata of block [i]. *)
Definition read_block (d : Dir) (t : SsTable) (meta : BlockMeta) : Res (list Entry) :=
  data ← read_file (FTable (st_id t)) d;
  buf ← read_at data (bm_offset meta) (bm_len meta);
  if negb (crc32 buf =? bm_crc meta) then fail Corruption
  else decode_block buf.

(** The loop over the entries of one block: [Some] is a [return]. *)
Fixpoint scan_block (key : bytes) (snapshot : N) (es : list Entry)
    : option (option (N * option bytes)) :=
  match es with
  | [] => None
  | (k, seq, v) :: es =>
    match bytes_cmp k key with
    | Lt => scan_block key snapshot es
    | Eq => if seq <=? snapshot then Some (Some (seq, v)) else scan_block key snapshot es
    | Gt => Some None
    end
  end.

(** The loop over the blocks from [idx] on. *)
Fixpoint get_loop (d : Dir) (t : SsTable) (key : bytes) (snapshot : N) (blocks : list BlockMeta)
    : Res (option (N * option bytes)) :=
  match blocks with
  | [] => fail Panic
  | meta :: blocks =>
    es ← read_block d t meta;
    match scan_block key snapshot es with
    | Some r => Ok r
    | None =>
      match blocks with
      | [] => Ok None
      | next :: _ =>
        if decide (bytes_lt key (bm_first_key next)) then Ok None
        else get_loop d t key snapshot blocks
      end
    end
  end.

(** [partition_point]: the length of the prefix that satisfies the test, on a
    list in which only a prefix does. *)
Fixpoint partition_point {A} (P : A → bool) (l : list A) : nat :=
  match l with
  | [] => 0
  | x :: l => if P x then S (partition_point P l) else 0
  end.

Definition table_get (d : Dir) (t : SsTable) (key : bytes) (snapshot : N)
    : Res (option (N * option bytes)) :=
  if bool_decide (bytes_lt key (min_key t)) || bool_decide (bytes_lt (max_key t) key) then Ok None
  else if negb (may_contain (st_bloom t) key) then Ok None
  else
    let blocks := ix_blocks (st_index t) in
    let idx := partition_point (λ b, bool_decide (bytes_lt (bm_first_key b) key)) blocks in
    get_loop d t key snapshot (drop (idx - 1) blocks).

(** ** Iteration *)

(** A [TableIter]: the entries left of the current block, and the blocks after
    it. *)
Record TableIter := mkTableIter {
  it_table : SsTable;
  it_blocks : list BlockMeta;
  it_entries : list Entry;
}.

Definition table_iter (t : SsTable) : TableIter := mkTableIter t (ix_blocks (st_index t)) [].

(** The blocks left to read are read until one has an entry; a block that cannot
    be read is a panic. *)
Fixpoint iter_blocks (d : Dir) (t : SsTable) (blocks : list BlockMeta)
    : Res (option (Entry * TableIter)) :=
  match blocks with
  | [] => Ok None
  | meta :: blocks =>
    match read_block d t meta with
    | Err _ => fail Panic
    | Ok (e :: es) => Ok (Some (e, mkTableIter t blocks es))
    | Ok [] => iter_blocks d t blocks
    end
  end.

Definition iter_next (d : Dir) (it : TableIter) : Res (option (Entry * TableIter)) :=
  match it_entries it with
  | e :: es => Ok (Some (e, mkTableIter (it_table it) (it_blocks it) es))
  | [] => iter_blocks d (it_table it) (it_blocks it)
  end.
End table.
