(* ===== verification/SsTableFacts.v ===== *)
(** * Sorted tables: what is written is read back

    The encoding of entries is inverted by [decode_block]; the builder's file,
    opened again, holds the entries that were added; and a table that holds a
    sorted list of entries answers [table_get] and iterates like that list. *)

From S2P Require Import Prelude Order Codec Fs Wal Bloom Memtable SsTable.
Local Open Scope N_scope.

(** ** Entries *)

(** Lengths and sequence numbers within the width the format gives them. *)
Definition entry_fits (e : Entry) : Prop :=
  len e.1.1 < 2 ^ 32 ∧ e.1.2 < 2 ^ 64 ∧ from_option len 0 e.2 < 2 ^ 32.

Lemma need_app n (a b : bytes) : N.of_nat (length a) = n → need n (a ++ b) = Ok tt.
Proof.
  intros Hn. unfold need, len. rewrite length_app.
  destruct (N.ltb_spec (N.of_nat (length a + length b)) n); [lia|done].
Qed.

Lemma take_app_exact {A} n (a b : list A) : length a = n → take n (a ++ b) = a.
Proof. intros <-. apply take_app_length. Qed.

Lemma drop_app_exact {A} n (a b : list A) : length a = n → drop n (a ++ b) = b.
Proof. intros <-. apply drop_app_length. Qed.

Lemma from_u64_le x : x < 2 ^ 64 → from_le (to_le 8 x) = x.
Proof. intros Hx. apply from_to_le. exact Hx. Qed.

Lemma decode_entry_encode e rest :
  entry_fits e → decode_entry (encode_entry e ++ rest) = Ok (e, rest).
Proof.
  destruct e as [[k s] v]. intros (Hk & Hs & Hv). simpl in Hk, Hs, Hv. unfold encode_entry.
  set (kind := match v with Some _ => x01 | None => x00 end).
  set (body := match v with Some v => v | None => [] end).
  assert (match v with Some v => x01 :: u32_le (len v) ++ v | None => x00 :: u32_le 0 end
    = [kind] ++ u32_le (len body) ++ body) as -> by (by destruct v; simpl; rewrite ?app_nil_r).
  unfold decode_entry. rewrite <-!app_assoc.
  assert (∀ x, length (u32_le x) = 4%nat) as H4 by (intros; apply length_to_le).
  assert (length (to_le 8 s) = 8%nat) as H8 by apply length_to_le.
  assert (len body < 2 ^ 32) as Hb by (by destruct v).
  unfold mbind, Res_bind. rewrite need_app by (by rewrite H4).
  rewrite (take_app_exact 4 (u32_le (len k))), (drop_app_exact 4 (u32_le (len k))) by apply H4.
  rewrite from_u32_le by done.
  assert (need (len k + 9) (k ++ to_le 8 s ++ [kind] ++ u32_le (len body) ++ body ++ rest) = Ok tt) as ->.
  { unfold need, len. rewrite !length_app, H8. cbn [length].
    by match goal with |- context [?a <? ?b] => destruct (N.ltb_spec a b); [lia|] end. }
  assert (N.to_nat (len k) = length k) as -> by (unfold len; lia).
  rewrite take_app_length, drop_app_length.
  rewrite (take_app_exact 8 (to_le 8 s)), (drop_app_exact 8 (to_le 8 s)) by apply H8.
  rewrite from_u64_le by done. cbn [firstn skipn app]. rewrite !drop_0, take_0, need_app by (by rewrite H4).
  rewrite (take_app_exact 4 (u32_le (len body))), (drop_app_exact 4 (u32_le (len body))) by apply H4.
  rewrite from_u32_le by done. destruct v as [v|]; unfold kind, body in *.
  - rewrite decide_True by done. rewrite need_app by done.
    by rewrite take_app_exact, drop_app_exact by (unfold len; lia).
  - by rewrite decide_False.
Qed.

Lemma length_encode_entry e : (17 <= length (encode_entry e))%nat.
Proof.
  destruct e as [[k s] [v|]]; unfold encode_entry, u32_le;
    rewrite !length_app, !length_to_le; simpl; rewrite ?length_app, ?length_to_le; lia.
Qed.

Lemma encode_entry_cons e rest : ∃ b bs, encode_entry e ++ rest = b :: bs.
Proof.
  pose proof (length_encode_entry e) as Hl. destruct (encode_entry e) as [|b bs]; simpl in *; [lia|].
  eauto.
Qed.

Lemma decode_loop_encode fuel es :
  Forall entry_fits es → (length es < fuel)%nat → decode_loop fuel (encode_block es) = Ok es.
Proof.
  intros Hes. revert fuel. induction Hes as [|e es He Hes IH]; intros fuel Hf.
  { by destruct fuel; [lia|]. }
  destruct fuel as [|fuel]; [simpl in Hf; lia|].
  change (encode_block (e :: es)) with (encode_entry e ++ encode_block es). cbn [decode_loop].
  destruct (encode_entry_cons e (encode_block es)) as (b & bs & Hb). rewrite Hb, <-Hb.
  rewrite decode_entry_encode by done. unfold mbind, Res_bind.
  rewrite IH by (simpl in Hf; lia). done.
Qed.

Lemma length_encode_block es : (17 * length es <= length (encode_block es))%nat.
Proof.
  induction es as [|e es IH]; [done|].
  change (encode_block (e :: es)) with (encode_entry e ++ encode_block es).
  rewrite length_app. pose proof (length_encode_entry e). simpl. lia.
Qed.

Lemma encode_block_app es es' : encode_block (es ++ es') = encode_block es ++ encode_block es'.
Proof. unfold encode_block. by rewrite fmap_app, concat_app. Qed.

Lemma decode_encode_block es : Forall entry_fits es → decode_block (encode_block es) = Ok es.
Proof.
  intros Hes. apply decode_loop_encode; [done|]. pose proof (length_encode_block es). lia.
Qed.

(** A block never decodes to more entries than it has bytes. *)
Lemma need_inv n buf : need n buf = Ok tt → n ≤ len buf.
Proof. unfold need. destruct (N.ltb_spec (len buf) n); [done|]. lia. Qed.

Lemma decode_entry_shorter buf e rest :
  decode_entry buf = Ok (e, rest) → (length rest < length buf)%nat.
Proof.
  unfold decode_entry, mbind, Res_bind.
  destruct (need 4 buf) as [[]|] eqn:H1; [|done]. apply need_inv in H1. unfold len in H1.
  destruct (need _ _) as [[]|] eqn:H2; [|done].
  set (b1 := drop 1 _). destruct (need 4 b1) as [[]|] eqn:H3; [|done].
  assert (length (drop 4 b1) < length buf)%nat as Hlt.
  { apply need_inv in H3. unfold b1, len in *. rewrite !length_drop in *. lia. }
  destruct (decide _); [|by intros [= _ <-]].
  destruct (need _ (drop 4 b1)) as [[]|]; [|done]. intros [= _ <-]. rewrite length_drop. lia.
Qed.

Lemma decode_loop_total fuel buf : (length buf < fuel)%nat → decode_loop fuel buf ≠ fail NoFuel.
Proof.
  revert buf. induction fuel as [|fuel IH]; intros buf Hf; [lia|]. cbn [decode_loop].
  destruct buf as [|b bs]; [done|]. unfold mbind, Res_bind.
  destruct (decode_entry (b :: bs)) as [[e rest]|er] eqn:Hd.
  - apply decode_entry_shorter in Hd. specialize (IH rest ltac:(lia)).
    destruct (decode_loop fuel rest) as [es|er]; [done|]. by intros [= ->].
  - intros [= ->]. unfold decode_entry, need, mbind, Res_bind in Hd.
    repeat case_decide || destruct (_ <? _) || done; done.
Qed.

Lemma decode_loop_length fuel buf es : decode_loop fuel buf = Ok es → (length es <= length buf)%nat.
Proof.
  revert buf es. induction fuel as [|fuel IH]; intros buf es; [done|]. cbn [decode_loop].
  destruct buf as [|b bs]; [intros [= <-]; done|]. unfold mbind, Res_bind.
  destruct (decode_entry (b :: bs)) as [[e rest]|er] eqn:Hd; [|done].
  apply decode_entry_shorter in Hd.
  destruct (decode_loop fuel rest) as [es'|er] eqn:Hl; [|done]. intros [= <-].
  apply IH in Hl. simpl in *. lia.
Qed.

(** ** Building *)

(** What [flush_block] and [builder_add] make of the builder, apart from the
    bytes they write. *)
Definition flushed `{Crc32} (b : TableBuilder) : TableBuilder :=
  match tb_block b with
  | [] => b
  | block =>
    mkBuilder (tb_id b) [] None
      (tb_blocks b ++ [mkBlockMeta (default [] (tb_block_first_key b)) (tb_offset b)
                         (wrap 32 (len block)) (crc32 block)])
      (tb_offset b + len block) (tb_key_hashes b) (tb_last_user_key b) (tb_entry_count b)
      (tb_min_key b) (tb_max_key b) (tb_max_seq b) (tb_block_bytes b) (tb_bits_per_key b)
  end.

Definition added `{Crc32} (e : Entry) (b : TableBuilder) : TableBuilder :=
  let b := push_entry e b in
  if tb_block_bytes b <=? len (tb_block b) then flushed b else b.

Definition new_builder (id block_bytes bits_per_key : N) : TableBuilder :=
  mkBuilder id [] None [] 0 [] None 0 None None 0 block_bytes bits_per_key.

(** The index of the table of [es]. *)
Definition index_for `{Crc32} (block_bytes bits_per_key : N) (es : list Entry) : TableIndex :=
  index_of (flushed (foldl (flip added) (new_builder 0 block_bytes bits_per_key) es)).

Definition key_of (e : Entry) : bytes := e.1.1.
Definition block_key (es : list Entry) : bytes := default [] (key_of <$> head es).

Definition entry_small (e : Entry) : Prop := len (encode_entry e) ≤ 2 ^ 31 ∧ e.1.2 < 2 ^ 64.

Lemma entry_small_fits e : entry_small e → entry_fits e.
Proof.
  destruct e as [[k s] v]. intros [Hl Hs]. unfold encode_entry, len in Hl.
  rewrite !length_app in Hl. split_and!; unfold len; simpl; [lia|done|].
  destruct v as [v|]; [|done]. cbn [length] in Hl. rewrite length_app in Hl. simpl. lia.
Qed.

Section build.
  Context `{Crc32}.

(** The metadata of consecutive blocks that start at [off]. *)
Fixpoint metas_of (off : N) (blks : list (list Entry)) : list BlockMeta :=
  match blks with
  | [] => []
  | blk :: blks =>
    mkBlockMeta (block_key blk) off (len (encode_block blk)) (crc32 (encode_block blk))
    :: metas_of (off + len (encode_block blk)) blks
  end.

Definition block_data (blks : list (list Entry)) : bytes := concat (encode_block <$> blks).

Lemma metas_of_snoc off blks blk :
  metas_of off (blks ++ [blk]) = metas_of off blks ++
    [mkBlockMeta (block_key blk) (off + len (block_data blks)) (len (encode_block blk))
       (crc32 (encode_block blk))].
Proof.
  revert off. induction blks as [|blk' blks IH]; intros off; simpl.
  { by rewrite N.add_0_r. }
  rewrite IH. do 4 f_equal.
  change (block_data (blk' :: blks)) with (encode_block blk' ++ block_data blks).
  rewrite len_app. lia.
Qed.

Lemma block_data_snoc blks blk : block_data (blks ++ [blk]) = block_data blks ++ encode_block blk.
Proof. unfold block_data. rewrite fmap_app, concat_app. simpl. by rewrite app_nil_r. Qed.

(** The state of a builder to which [es] was added: the blocks in the file and
    the one in memory. *)
Record building (b : TableBuilder) (es : list Entry) (blks : list (list Entry)) (cur : list Entry)
    : Prop := {
  bu_entries : es = concat blks ++ cur;
  bu_full : Forall (λ blk, blk ≠ [] ∧ len (encode_block blk) < 2 ^ 32) blks;
  bu_blocks : tb_blocks b = metas_of 0 blks;
  bu_offset : tb_offset b = len (block_data blks);
  bu_block : tb_block b = encode_block cur;
  bu_first : tb_block_first_key b = key_of <$> head cur;
  bu_min : tb_min_key b = key_of <$> head es;
  bu_max : tb_max_key b = key_of <$> last es;
  bu_last : tb_last_user_key b = key_of <$> last es;
  bu_hashes : ∀ e, e ∈ es → fnv1a (key_of e) ∈ tb_key_hashes b;
  bu_size : tb_block_bytes b ≤ 2 ^ 31;
}.

(** The block in memory is below the limit between two entries. *)
Definition below_limit (b : TableBuilder) (cur : list Entry) : Prop :=
  cur = [] ∨ len (encode_block cur) < tb_block_bytes b.

Lemma encode_block_nil es : encode_block es = [] ↔ es = [].
Proof.
  split; [|by intros ->]. intros Hn. pose proof (length_encode_block es) as Hl. rewrite Hn in Hl.
  apply nil_length_inv. simpl in Hl. lia.
Qed.

Lemma building_new id bb bpk : bb ≤ 2 ^ 31 → building (new_builder id bb bpk) [] [] [].
Proof. intros Hbb. split; try done. by intros e ?%elem_of_nil. Qed.

Lemma push_building e b es blks cur :
  building b es blks cur → building (push_entry e b) (es ++ [e]) blks (cur ++ [e]).
Proof.
  intros [He Hf Hb Ho Hbl Hfi Hmi Hma Hla Hh Hs]. destruct e as [[k sq] v].
  split; simpl; try done.
  - by rewrite He, app_assoc.
  - rewrite Hbl, encode_block_app. f_equal. unfold encode_block. simpl. by rewrite app_nil_r.
  - rewrite Hfi. by destruct cur.
  - rewrite Hmi. by destruct es.
  - by rewrite last_snoc.
  - rewrite last_snoc. case_bool_decide as Hk; [done|]. simpl.
    destruct (decide (tb_last_user_key b = Some k)) as [->|]; [done|]. by destruct Hk.
  - intros e [He'|He']%elem_of_app.
    + apply Hh in He'. case_bool_decide; [|done]. apply elem_of_app. by left.
    + apply list_elem_of_singleton in He' as ->. unfold key_of. simpl.
      case_bool_decide as Hk; [apply elem_of_app; right; by apply list_elem_of_singleton|].
      destruct (decide (tb_last_user_key b = Some k)) as [Hl|]; [|by destruct Hk].
      rewrite Hla in Hl. apply fmap_Some in Hl as (e & Hl & ->).
      apply last_Some_elem_of in Hl. by apply Hh.
Qed.

Lemma flushed_building b es blks cur :
  building b es blks cur → len (encode_block cur) < 2 ^ 32 →
  ∃ blks', building (flushed b) es blks' [] ∧ block_data blks' = block_data blks ++ encode_block cur.
Proof.
  intros Hb Hlt. pose proof Hb as [He Hf Hbs Ho Hbl Hfi Hmi Hma Hla Hh Hs]. unfold flushed.
  destruct (decide (cur = [])) as [->|Hne].
  { rewrite Hbl. simpl. exists blks. by rewrite app_nil_r. }
  assert (encode_block cur ≠ []) as Hnil by by rewrite encode_block_nil.
  rewrite <-Hbl in Hnil, Hlt. exists (blks ++ [cur]). rewrite block_data_snoc.
  split; [|done]. destruct (tb_block b) as [|x xs] eqn:Hx; [done|]. rewrite <-Hx in *.
  split; simpl; try done.
  - rewrite He, concat_app. simpl. by rewrite !app_nil_r.
  - apply Forall_app. split; [done|]. constructor; [|done]. by rewrite <-Hbl.
  - rewrite Hbs, metas_of_snoc, Ho, <-Hbl, wrap_small by done. do 3 f_equal.
    unfold block_key. by rewrite Hfi.
  - rewrite Ho, block_data_snoc, <-Hbl. by rewrite len_app.
Qed.

Lemma len_encode_snoc cur e : len (encode_block (cur ++ [e])) = len (encode_block cur) + len (encode_entry e).
Proof.
  rewrite encode_block_app, len_app. f_equal. unfold encode_block. simpl. by rewrite app_nil_r.
Qed.

Lemma added_building e b es blks cur :
  building b es blks cur → below_limit b cur → entry_small e →
  ∃ blks' cur' w, building (added e b) (es ++ [e]) blks' cur' ∧ below_limit (added e b) cur'
    ∧ block_data blks' = block_data blks ++ w
    ∧ (if tb_block_bytes b <=? len (encode_block (cur ++ [e]))
       then w = encode_block (cur ++ [e]) else w = []).
Proof.
  intros Hb Hlim [He _]. pose proof (push_building e _ _ _ _ Hb) as Hp. unfold added.
  assert (tb_block_bytes (push_entry e b) = tb_block_bytes b) as Hbb by (by destruct e as [[]]).
  rewrite (bu_block _ _ _ _ Hp), Hbb.
  assert (len (encode_block (cur ++ [e])) < 2 ^ 32) as Hlt.
  { rewrite len_encode_snoc. pose proof (bu_size _ _ _ _ Hb).
    destruct Hlim as [->|Hlim]; [unfold encode_block, len at 1; simpl|]; lia. }
  destruct (N.leb_spec (tb_block_bytes b) (len (encode_block (cur ++ [e])))) as [Hle|Hgt].
  - destruct (flushed_building _ _ _ _ Hp Hlt) as (blks' & Hf & Hd).
    exists blks', [], (encode_block (cur ++ [e])). split_and!; [done|by left|done|done].
  - exists blks, (cur ++ [e]), []. split_and!; [done| |by rewrite app_nil_r|done].
    right. by rewrite Hbb.
Qed.
End build.

(** ** Writing a table file *)

Section write.
  Context `{Crc32} `{Bincode TableIndex}.

Definition with_id (id : N) (b : TableBuilder) : TableBuilder :=
  mkBuilder id (tb_block b) (tb_block_first_key b) (tb_blocks b) (tb_offset b) (tb_key_hashes b)
    (tb_last_user_key b) (tb_entry_count b) (tb_min_key b) (tb_max_key b) (tb_max_seq b)
    (tb_block_bytes b) (tb_bits_per_key b).

Lemma flushed_with_id id b : flushed (with_id id b) = with_id id (flushed b).
Proof. unfold flushed. simpl. by destruct (tb_block b). Qed.

Lemma added_with_id id e b : added e (with_id id b) = with_id id (added e b).
Proof.
  unfold added. assert (push_entry e (with_id id b) = with_id id (push_entry e b)) as ->
    by (by destruct e as [[]]).
  simpl. destruct (_ <=? _); [apply flushed_with_id|done].
Qed.

Definition builder_of (id bb bpk : N) (es : list Entry) : TableBuilder :=
  foldl (flip added) (new_builder id bb bpk) es.

Lemma builder_of_with_id id bb bpk es : builder_of id bb bpk es = with_id id (builder_of 0 bb bpk es).
Proof.
  induction es as [|e es IH] using rev_ind; [done|]. unfold builder_of in *.
  rewrite !foldl_app. simpl. rewrite IH. apply added_with_id.
Qed.

Lemma index_for_builder id bb bpk es : index_of (flushed (builder_of id bb bpk es)) = index_for bb bpk es.
Proof. rewrite builder_of_with_id, flushed_with_id. done. Qed.

Lemma builder_of_snoc id bb bpk es e :
  builder_of id bb bpk (es ++ [e]) = added e (builder_of id bb bpk es).
Proof. unfold builder_of. by rewrite foldl_app. Qed.

Lemma builder_of_id id bb bpk es : tb_id (builder_of id bb bpk es) = id.
Proof. by rewrite builder_of_with_id. Qed.

(** The file of the builder of [es] holds the blocks flushed so far. *)
Definition writing (d : Dir) (id bb bpk : N) (es : list Entry) : Prop :=
  ∃ blks cur, building (builder_of id bb bpk es) es blks cur
    ∧ below_limit (builder_of id bb bpk es) cur
    ∧ d !! FTable id = Some (mkFile (block_data blks) 0).

Lemma builder_create_io id bb bpk d :
  bb ≤ 2 ^ 31 →
  builder_create id bb bpk d = (Ok (builder_of id bb bpk []), [Create (FTable id)]) ∧
  writing (apply_op d (Create (FTable id))) id bb bpk [].
Proof.
  intros Hbb. split; [done|]. exists [], []. split_and!; [by apply building_new|by left|].
  simpl. by rewrite lookup_insert_eq.
Qed.

Lemma flush_block_io b es blks cur d :
  building b es blks cur →
  flush_block b d = (Ok (flushed b), match cur with [] => [] | _ => [Append (FTable (tb_id b)) (encode_block cur)] end).
Proof.
  intros Hb. unfold flush_block, flushed. rewrite (bu_block _ _ _ _ Hb).
  rewrite (bu_first _ _ _ _ Hb). destruct cur as [|e cur]; [done|].
  assert (encode_block (e :: cur) ≠ []) as Hne by by rewrite encode_block_nil.
  by destruct (encode_block (e :: cur)).
Qed.

Lemma builder_add_io e d id bb bpk es :
  writing d id bb bpk es → entry_small e →
  ∃ ops, builder_add e (builder_of id bb bpk es) d = (Ok (builder_of id bb bpk (es ++ [e])), ops)
    ∧ Forall (within (.= FTable id)) ops ∧ writing (apply_ops d ops) id bb bpk (es ++ [e]).
Proof.
  intros (blks & cur & Hb & Hlim & Hd) He. rewrite builder_of_snoc.
  set (b := builder_of id bb bpk es) in *.
  destruct (added_building e b es blks cur Hb Hlim He) as (blks' & cur' & w & Hb' & Hlim' & Hdata & Hw).
  pose proof (push_building e _ _ _ _ Hb) as Hp.
  assert (tb_block_bytes (push_entry e b) = tb_block_bytes b) as Hbb by (by destruct e as [[]]).
  assert (tb_id (push_entry e b) = id) as Hid.
  { unfold b. rewrite <-(builder_of_id id bb bpk es) at 2. by destruct e as [[]]. }
  unfold builder_add. rewrite (bu_block _ _ _ _ Hp), Hbb.
  unfold writing. rewrite builder_of_snoc. fold b.
  destruct (tb_block_bytes b <=? len (encode_block (cur ++ [e]))) eqn:Hc.
  - rewrite (flush_block_io _ _ _ _ _ Hp), Hid.
    destruct (cur ++ [e]) as [|e0 l] eqn:Hl; [by destruct cur|]. eexists. split_and!.
    + unfold added. rewrite (bu_block _ _ _ _ Hp), Hbb. by rewrite Hc.
    + by constructor.
    + exists blks', cur'. split_and!; [done..|]. simpl.
      rewrite (alter_insert_same _ _ _ _ Hd), lookup_insert_eq, Hdata. by rewrite Hw.
  - exists []. split_and!.
    + unfold added. by rewrite (bu_block _ _ _ _ Hp), Hbb, Hc.
    + constructor.
    + exists blks', cur'. split_and!; [done..|]. by rewrite Hdata, Hw, app_nil_r.
Qed.

Lemma add_all_io es d id bb bpk es0 :
  writing d id bb bpk es0 → Forall entry_small es →
  ∃ ops, add_all es (builder_of id bb bpk es0) d = (Ok (builder_of id bb bpk (es0 ++ es)), ops)
    ∧ Forall (within (.= FTable id)) ops ∧ writing (apply_ops d ops) id bb bpk (es0 ++ es).
Proof.
  intros Hw Hes. revert d es0 Hw. induction Hes as [|e es He Hes IH]; intros d es0 Hw; simpl.
  { exists []. rewrite app_nil_r. by split_and!. }
  destruct (builder_add_io e _ _ _ _ _ Hw He) as (ops1 & Ha & Ho1 & Hw1).
  destruct (IH _ _ Hw1) as (ops2 & Hb & Ho2 & Hw2). rewrite <-app_assoc in Hb, Hw2.
  exists (ops1 ++ ops2). rewrite (io_bind_ok _ _ _ _ _ Ha), Hb, apply_ops_app.
  split_and!; [done|by apply Forall_app|done].
Qed.

(** A table that the format can describe: its index has a 32-bit length and its
    blocks a 64-bit one. *)
Definition table_fits (bb bpk : N) (es : list Entry) : Prop :=
  len (serialize (index_for bb bpk es)) < 2 ^ 32 ∧ len (encode_block es) < 2 ^ 64.

(** The size of its file. *)
Definition table_size (bb bpk : N) (es : list Entry) : N :=
  len (encode_block es) + len (serialize (index_for bb bpk es)) + 24.

(** The table's blocks hold [es], in order, and its summary is right. *)
Record holds (d : Dir) (t : SsTable) (es : list Entry) : Prop := {
  ho_blocks : ∃ blks, es = concat blks ∧
    Forall2 (λ meta blk, read_block d t meta = Ok blk ∧ blk ≠ [] ∧ bm_first_key meta = block_key blk)
      (ix_blocks (st_index t)) blks;
  ho_bloom : ∀ e, e ∈ es → may_contain (st_bloom t) (key_of e) = true;
  ho_min : key_of <$> head es = Some (min_key t);
  ho_max : key_of <$> last es = Some (max_key t);
}.

Lemma read_at_app a b c off n :
  len a = off → len b = n → read_at (a ++ b ++ c) off n = Ok b.
Proof.
  intros <- <-. unfold read_at. destruct (N.eqb_spec (len b) 0) as [Hz|_].
  { unfold len in Hz. destruct b; [done|simpl in Hz; lia]. }
  rewrite !len_app. destruct (N.ltb_spec (len a + (len b + len c)) (len a + len b)); [lia|].
  unfold len. rewrite !Nat2N.id, drop_app_length. by rewrite take_app_length.
Qed.

Lemma blocks_read d t x blks a rest :
  d !! FTable (st_id t) = Some x → f_data x = a ++ block_data blks ++ rest →
  Forall (λ blk, blk ≠ [] ∧ len (encode_block blk) < 2 ^ 32) blks → Forall (Forall entry_fits) blks →
  Forall2 (λ meta blk, read_block d t meta = Ok blk ∧ blk ≠ [] ∧ bm_first_key meta = block_key blk)
    (metas_of (len a) blks) blks.
Proof.
  intros Hd Hx Hf. revert a Hx. induction Hf as [|blk blks [Hne Hlt] Hf IH]; intros a Hx Hfit;
    simpl; [constructor|].
  apply Forall_cons in Hfit as [Hb Hfit].
  change (block_data (blk :: blks)) with (encode_block blk ++ block_data blks) in Hx.
  constructor.
  - split_and!; [|done|done]. unfold read_block, read_file. rewrite Hd, Hx. simpl.
    rewrite <-app_assoc, read_at_app by done. simpl. rewrite N.eqb_refl. simpl.
    by apply decode_encode_block.
  - rewrite <-len_app. apply IH; [|done]. by rewrite Hx, !app_assoc.
Qed.

Context `{!BincodeLaws TableIndex}.

Lemma encode_block_concat blks : encode_block (concat blks) = block_data blks.
Proof.
  induction blks as [|blk blks IH]; [done|]. simpl. rewrite encode_block_app, IH. done.
Qed.

Lemma footer_fields data off payload :
  off < 2 ^ 64 → len payload < 2 ^ 32 →
  let file := data ++ footer off payload in
  let f := drop (length file - 24) file in
  (24 <= length file)%nat ∧ from_le (take 8 (drop 16 f)) = MAGIC ∧ from_le (take 8 f) = off
  ∧ from_le (take 4 (drop 8 f)) = len payload ∧ from_le (take 4 (drop 12 f)) = crc32 payload.
Proof.
  intros Hoff Hlen file f.
  assert (∀ x, length (u32_le x) = 4%nat) as H4 by (intros; apply length_to_le).
  assert (∀ x, length (to_le 8 x) = 8%nat) as H8 by (intros; apply length_to_le).
  assert (length (footer off payload) = 24%nat) as H24
    by (unfold footer; rewrite !length_app, !H4, !H8; done).
  assert (f = footer off payload) as ->.
  { unfold f, file. rewrite length_app, H24. apply drop_app_exact. lia. }
  unfold file. rewrite length_app, H24. unfold footer. split_and!; [lia|..].
  - rewrite !app_assoc, drop_app_exact by (rewrite !length_app, !H4, !H8; done).
    rewrite take_ge by (by rewrite H8). by rewrite from_u64_le.
  - rewrite take_app_exact by apply H8. by apply from_u64_le.
  - rewrite drop_app_exact by apply H8. rewrite take_app_exact by apply H4. by apply from_u32_le.
  - rewrite app_assoc, drop_app_exact by (by rewrite length_app, H4, H8).
    rewrite take_app_exact by apply H4. apply from_u32_le, crc32_u32.
Qed.

Lemma open_data_finished data off payload index bloom id :
  off = len data → off < 2 ^ 64 → len payload < 2 ^ 32 → deserialize payload = Some index →
  bloom_decode (ix_bloom index) = Ok bloom →
  open_data (data ++ payload ++ footer off payload) id = Ok (mkTable id index bloom).
Proof.
  intros Hoff H64 H32 Hdes Hbl. unfold open_data.
  destruct (footer_fields (data ++ payload) off payload H64 H32) as (Hl & Hm & Ho & Hn & Hc).
  rewrite <-app_assoc in *. set (file := data ++ payload ++ footer off payload) in *.
  destruct (N.ltb_spec (len file) 24) as [Hlt|_]; [unfold len in Hlt; lia|].
  rewrite Hm, Ho, Hn, Hc, N.eqb_refl. simpl. unfold file. rewrite read_at_app by done. simpl.
  rewrite N.eqb_refl. simpl. rewrite Hdes. simpl. by rewrite Hbl.
Qed.

(** Finishing the builder of [es] leaves, fully on the disk, a table that opens
    and holds [es]. *)
Lemma builder_finish_io d id bb bpk es :
  writing d id bb bpk es → es ≠ [] → Forall entry_small es → table_fits bb bpk es →
  ∃ ops n t, builder_finish (builder_of id bb bpk es) d
      = (Ok (n, table_size bb bpk es, min_key t, max_key t), ops)
    ∧ Forall (within (.= FTable id)) ops
    ∧ table_open id (apply_ops d ops) = Ok t ∧ st_id t = id ∧ holds (apply_ops d ops) t es
    ∧ (∃ data, apply_ops d ops !! FTable id = Some (mkFile data (length data))).
Proof.
  intros (blks & cur & Hb & Hlim & Hd) Hne Hsm [Hidx Hoff].
  pose proof (builder_of_id id bb bpk es) as Hid.
  pose proof (index_for_builder id bb bpk es) as Hix. set (b := builder_of id bb bpk es) in *.
  assert (len (encode_block cur) < 2 ^ 32) as Hcur.
  { destruct Hlim as [->|Hl]; [done|]. pose proof (bu_size _ _ _ _ Hb). lia. }
  destruct (flushed_building _ _ _ _ Hb Hcur) as (blks' & Hb' & Hdata).
  assert (tb_id (flushed b) = id) as Hid' by (rewrite <-Hid; unfold flushed; by destruct (tb_block b)).
  set (payload := serialize (index_of (flushed b))). set (off := tb_offset (flushed b)).
  set (data := block_data blks' ++ payload ++ footer off payload).
  assert (∃ ops1, flush_block b d = (Ok (flushed b), ops1) ∧ Forall (within (.= FTable id)) ops1
    ∧ apply_ops d ops1 !! FTable id = Some (mkFile (block_data blks') 0)) as (ops1 & Hfl & Hon & Hd1).
  { rewrite (flush_block_io _ _ _ _ _ Hb). eexists. split; [done|].
    rewrite Hid. destruct cur as [|e cur].
    - split; [constructor|]. simpl. by rewrite Hd, Hdata, app_nil_r.
    - split; [by constructor|]. simpl. by rewrite (alter_insert_same _ _ _ _ Hd), lookup_insert_eq, Hdata. }
  set (ops2 := [Append (FTable id) payload; Append (FTable id) (footer off payload); Sync (FTable id)]).
  assert (apply_ops (apply_ops d ops1) ops2 !! FTable id = Some (mkFile data (length data))) as Hfin.
  { simpl. rewrite (alter_insert_same _ _ _ _ Hd1), !(alter_insert_same _ _ _ _ (lookup_insert_eq _ _ _)).
    simpl. by rewrite lookup_insert_eq, <-app_assoc. }
  set (bloom := from_hashes (tb_key_hashes (flushed b)) (tb_bits_per_key (flushed b))).
  set (t := mkTable id (index_of (flushed b)) bloom).
  assert (off = len (block_data blks')) as Ho by apply (bu_offset _ _ _ _ Hb').
  assert (es = concat blks') as Hes.
  { pose proof (bu_entries _ _ _ _ Hb') as He. by rewrite app_nil_r in He. }
  assert (off + len payload + 24 = table_size bb bpk es) as Hsz.
  { unfold table_size, payload. by rewrite Hix, Hes, encode_block_concat, Ho. }
  exists (ops1 ++ ops2), (tb_entry_count (flushed b)), t. rewrite <-Hsz. split_and!.
  - unfold builder_finish. rewrite (io_bind_ok _ _ _ _ _ Hfl). unfold mbind, IO_bind. simpl.
    by rewrite Hid'.
  - apply Forall_app. split; [done|]. by repeat constructor.
  - rewrite apply_ops_app. unfold table_open, read_file. rewrite Hfin. simpl. unfold data.
    apply open_data_finished; [done| |by unfold payload; rewrite Hix
      |apply deserialize_serialize|apply bloom_decode_encode, from_hashes_ok].
    by rewrite Ho, <-encode_block_concat, <-Hes.
  - done.
  - rewrite apply_ops_app. split.
    + exists blks'. split; [done|]. simpl. rewrite (bu_blocks _ _ _ _ Hb').
      apply (blocks_read _ t _ blks' [] (payload ++ footer off payload) Hfin); [done| |].
      * apply (bu_full _ _ _ _ Hb').
      * apply Forall_concat. rewrite <-Hes. eapply Forall_impl; [exact Hsm|apply entry_small_fits].
    + intros e He. apply from_hashes_contains. by apply (bu_hashes _ _ _ _ Hb').
    + unfold min_key. simpl. rewrite (bu_min _ _ _ _ Hb'). by destruct es.
    + unfold max_key. simpl. rewrite (bu_max _ _ _ _ Hb').
      destruct es as [|e es _] using rev_ind; [done|]. by rewrite last_snoc.
  - exists data. by rewrite apply_ops_app.
Qed.

(** Creating a table, adding [es] and finishing it. *)
Lemma build_io d id bb bpk es :
  bb ≤ 2 ^ 31 → es ≠ [] → Forall entry_small es → table_fits bb bpk es →
  ∃ ops n t,
    build_table id bb bpk es d = (Ok (n, table_size bb bpk es, min_key t, max_key t), ops)
    ∧ Forall (within (.= FTable id)) ops
    ∧ table_open id (apply_ops d ops) = Ok t ∧ st_id t = id ∧ holds (apply_ops d ops) t es
    ∧ (∃ data, apply_ops d ops !! FTable id = Some (mkFile data (length data))).
Proof.
  intros Hbb Hne Hsm Hfit. destruct (builder_create_io id bb bpk d Hbb) as [Hc Hw].
  destruct (add_all_io es _ _ _ _ _ Hw Hsm) as (ops1 & Ha & Ho1 & Hw1).
  destruct (builder_finish_io _ _ _ _ _ Hw1 Hne Hsm Hfit) as (ops2 & n & t & Hf & Ho2 & Hr).
  exists (Create (FTable id) :: ops1 ++ ops2), n, t. unfold build_table.
  rewrite (io_bind_ok _ _ _ _ _ Hc).
  change (apply_ops d [Create (FTable id)]) with (apply_op d (Create (FTable id))).
  rewrite (io_bind_ok _ _ _ _ _ Ha), Hf. simpl. rewrite apply_ops_app. split_and!; [done| |apply Hr..].
  constructor; [done|]. by apply Forall_app.
Qed.
End write.

(** ** Reading a table *)

Lemma find_version_app es1 es2 key t :
  find_version (es1 ++ es2) key t =
  match find_version es1 key t with Some r => Some r | None => find_version es2 key t end.
Proof.
  unfold find_version. rewrite filter_app. by destruct (filter _ es1).
Qed.

Lemma find_version_absent es key t : (∀ e, e ∈ es → key_of e ≠ key) → find_version es key t = None.
Proof. intros Hk. apply find_version_None. intros s v Hin. by apply Hk in Hin. Qed.

Lemma find_version_cons k s v es key t :
  find_version ((k, s, v) :: es) key t =
  if decide (k = key ∧ s ≤ t) then Some (s, v) else find_version es key t.
Proof.
  unfold find_version. rewrite filter_cons. cbn [fst snd]. by destruct (decide _).
Qed.

(** The scan of a block answers as the reference on the block and, when it
    returns early, on everything after it too. *)
Lemma scan_block_spec key t es rest :
  sorted (es ++ rest) →
  match scan_block key t es with
  | Some r => r = find_version (es ++ rest) key t
  | None => find_version es key t = None ∧ ∀ e, e ∈ es → bytes_le (key_of e) key
  end.
Proof.
  induction es as [|[[k s] v] es IH]; intros Hs; cbn [scan_block].
  { split; [done|]. by intros e ?%elem_of_nil. }
  apply StronglySorted_inv in Hs as [Hs Hall]. specialize (IH Hs). rewrite Forall_forall in Hall.
  cbn [app]. rewrite !find_version_cons. destruct (bytes_cmp k key) eqn:Hc.
  - apply (cmp_eq_iff (cmp := bytes_cmp)) in Hc as ->.
    destruct (N.leb_spec s t) as [Hle|Hgt]; [by rewrite decide_True|].
    rewrite !decide_False by lia. destruct (scan_block key t es) as [r|]; [done|].
    destruct IH as [IH1 IH2]. split; [done|].
    intros e [->|He]%elem_of_cons; [|by apply IH2]. unfold key_of. simpl. reflexivity.
  - assert (k ≠ key) as Hne by (by apply (cmp_lt_not_eq bytes_cmp)).
    rewrite !decide_False by tauto. destruct (scan_block key t es) as [r|]; [done|].
    destruct IH as [IH1 IH2]. split; [done|].
    intros e [->|He]%elem_of_cons; [by apply (cmp_lt_le bytes_cmp)|by apply IH2].
  - apply (cmp_gt_iff bytes_cmp) in Hc. rewrite decide_False.
    2: { intros [-> _]. by apply (cmp_lt_irrefl bytes_cmp) in Hc. }
    symmetry. apply find_version_absent. intros [[k' s'] v'] He Hk. unfold key_of in Hk.
    simpl in Hk. subst k'. apply Hall in He. apply ikey_lt_iff in He as [He|[He _]]; simpl in He.
    + apply (cmp_lt_irrefl bytes_cmp key). exact (cmp_lt_trans key k key Hc He).
    + subst k. by apply (cmp_lt_irrefl bytes_cmp) in Hc.
Qed.

Lemma sorted_app es1 es2 :
  sorted (es1 ++ es2) ↔ sorted es1 ∧ sorted es2 ∧ ∀ x y, x ∈ es1 → y ∈ es2 → key_lt ikey_cmp x y.
Proof. apply key_sorted_app. Qed.

Lemma key_lt_le (x y : Entry) : key_lt ikey_cmp x y → bytes_le (key_of x) (key_of y).
Proof.
  unfold key_lt. rewrite ikey_lt_iff. unfold key_of. intros [Hlt|[-> _]]; [|reflexivity].
  by apply (cmp_lt_le bytes_cmp).
Qed.

(** The keys of a sorted list lie between those of its first and last entry. *)
Lemma sorted_head es e k : sorted es → key_of <$> head es = Some k → e ∈ es → bytes_le k (key_of e).
Proof.
  destruct es as [|e0 es]; [done|]. intros [_ Hall]%StronglySorted_inv [= <-] [->|He]%elem_of_cons.
  - reflexivity.
  - rewrite Forall_forall in Hall. by apply key_lt_le, Hall.
Qed.

Lemma sorted_last es e k : sorted es → key_of <$> last es = Some k → e ∈ es → bytes_le (key_of e) k.
Proof.
  destruct es as [|e0 es _] using rev_ind; [done|]. rewrite last_snoc.
  intros (_ & _ & Hlt)%sorted_app [= <-] [He|He%list_elem_of_singleton]%elem_of_app.
  - apply key_lt_le, Hlt; [done|]. by apply list_elem_of_singleton.
  - subst e. reflexivity.
Qed.

Section read.
  Context `{Crc32} `{Bincode TableIndex} (d : Dir) (t : SsTable).

Definition stores (meta : BlockMeta) (blk : list Entry) : Prop :=
  read_block d t meta = Ok blk ∧ blk ≠ [] ∧ bm_first_key meta = block_key blk.

Lemma block_key_head blk : blk ≠ [] → key_of <$> head blk = Some (block_key blk).
Proof. by destruct blk. Qed.

Lemma get_loop_spec key snap metas blks :
  Forall2 stores metas blks → sorted (concat blks) → metas ≠ [] →
  get_loop d t key snap metas = Ok (find_version (concat blks) key snap).
Proof.
  induction 1 as [|meta blk metas blks (Hr & _ & _) Hf IH]; intros Hs Hne; [done|].
  cbn [get_loop concat]. unfold mbind, Res_bind. rewrite Hr. simpl in Hs.
  pose proof (scan_block_spec key snap blk (concat blks) Hs) as Hsc.
  destruct (scan_block key snap blk) as [r|]; [by rewrite Hsc|]. destruct Hsc as [Hnone _].
  apply sorted_app in Hs as (_ & Hs & _).
  rewrite find_version_app, Hnone. inversion Hf as [|next blk' metas' blks' (_ & Hn & Hk) Hf' He1 He2]; subst.
  { done. }
  rewrite Hk. destruct (decide (bytes_lt key (block_key blk'))) as [Hlt|Hge]; [|by apply IH].
  f_equal. symmetry. apply find_version_absent. intros e He <-.
  assert (key_of <$> head (concat (blk' :: blks')) = Some (block_key blk')) as Hh
    by (by destruct blk').
  pose proof (sorted_head _ _ _ Hs Hh He) as Hle. by apply (cmp_nlt bytes_cmp) in Hle.
Qed.

(** The blocks the search skips hold smaller keys only. *)
Lemma skipped_blocks key metas blks :
  Forall2 stores metas blks → sorted (concat blks) →
  let idx := partition_point (λ b, bool_decide (bytes_lt (bm_first_key b) key)) metas in
  (idx <= length metas)%nat ∧
  ∀ e, e ∈ concat (take (idx - 1) blks) → bytes_lt (key_of e) key.
Proof.
  induction 1 as [|meta blk metas blks (_ & Hn & Hk) Hf IH]; intros Hs; cbn [partition_point].
  { split; [done|]. by intros e ?%elem_of_nil. }
  simpl in Hs. apply sorted_app in Hs as (_ & Hs & Hlt). specialize (IH Hs) as [IH1 IH2].
  case_bool_decide as Hfirst; [|split; [lia|by intros e ?%elem_of_nil]].
  split; [simpl; lia|]. rewrite Nat.sub_succ, Nat.sub_0_r.
  inversion Hf as [|meta' blk' metas' blks' (_ & Hn' & Hk') Hf' He1 He2]; subst; cbn [partition_point] in *.
  { by intros e ?%elem_of_nil. }
  case_bool_decide as Hfirst'; [|by intros e ?%elem_of_nil].
  cbn [take concat]. rewrite Nat.sub_succ, Nat.sub_0_r in IH2.
  intros e [He|He]%elem_of_app; [|by apply IH2].
  destruct blk' as [|e' blk'']; [done|]. rewrite Hk' in Hfirst'. unfold block_key in Hfirst'. simpl in *.
  eapply (cmp_le_lt_trans bytes_cmp); [|exact Hfirst']. apply key_lt_le, Hlt; [done|]. by left.
Qed.

Lemma table_get_spec es key snap :
  holds d t es → sorted es → table_get d t key snap = Ok (find_version es key snap).
Proof.
  intros [(blks & -> & Hf) Hbl Hmin Hmax] Hs. unfold table_get.
  destruct (bool_decide (bytes_lt key (min_key t)) || bool_decide (bytes_lt (max_key t) key)) eqn:Hr.
  { f_equal. symmetry. apply find_version_absent. intros e He <-. apply orb_true_iff in Hr as [Hr|Hr].
    - apply bool_decide_eq_true, (cmp_nle bytes_cmp) in Hr. apply Hr. by eapply sorted_head.
    - apply bool_decide_eq_true, (cmp_nle bytes_cmp) in Hr. apply Hr. by eapply sorted_last. }
  destruct (may_contain (st_bloom t) key) eqn:Hm; simpl.
  2: { f_equal. symmetry. apply find_version_absent. intros e He <-. apply Hbl in He. congruence. }
  pose proof (skipped_blocks key _ _ Hf Hs) as [Hle Hskip].
  set (idx := partition_point _ _) in *.
  rewrite (get_loop_spec key snap _ (drop (idx - 1) blks)).
  - f_equal. rewrite <-(take_drop (idx - 1) blks) at 2. rewrite concat_app, find_version_app.
    rewrite (find_version_absent (concat (take _ _))); [done|].
    intros e He. by apply (cmp_lt_not_eq bytes_cmp), Hskip.
  - by apply Forall2_drop.
  - rewrite <-(take_drop (idx - 1) blks), concat_app in Hs. by apply sorted_app in Hs as (_ & ? & _).
  - intros Hd. apply (f_equal length) in Hd. rewrite length_drop in Hd. simpl in Hd.
    assert (ix_blocks (st_index t) = []) as Hnil by (apply nil_length_inv; lia).
    rewrite Hnil in Hf. inversion Hf; subst. done.
Qed.
End read.

(** ** Iterating over a table *)

Section iterate.
  Context `{Crc32}.

(** [it] has the entries [es] left to give. *)
Definition it_yields (d : Dir) (it : TableIter) (es : list Entry) : Prop :=
  ∃ blks, Forall2 (stores d (it_table it)) (it_blocks it) blks ∧ es = it_entries it ++ concat blks.

Lemma table_iter_yields d t es : holds d t es → it_yields d (table_iter t) es.
Proof. intros [(blks & -> & Hf) _ _ _]. by exists blks. Qed.

Lemma iter_next_yields d it es :
  it_yields d it es →
  match es with
  | [] => iter_next d it = Ok None
  | e :: es => ∃ it', iter_next d it = Ok (Some (e, it')) ∧ it_table it' = it_table it ∧ it_yields d it' es
  end.
Proof.
  intros (blks & Hf & ->). unfold iter_next. destruct (it_entries it) as [|e es]; simpl.
  - destruct Hf as [|meta blk metas blks (Hr & Hn & _) Hf]; [done|]. simpl. rewrite Hr.
    destruct blk as [|e es]; [done|]. simpl. eexists. split_and!; [done..|]. by exists blks.
  - eexists. split_and!; [done..|]. by exists blks.
Qed.

Lemma sum_list_cons n l : sum_list (n :: l) = (n + sum_list l)%nat.
Proof. done. Qed.

(** The entries an iterator can still give, counted without reading: an entry
    takes at least a byte of its block. *)
Definition it_size (it : TableIter) : nat :=
  length (it_entries it) + sum_list (N.to_nat ∘ bm_len <$> it_blocks it).

Lemma read_at_length data off n bs : read_at data off n = Ok bs → (length bs <= N.to_nat n)%nat.
Proof.
  unfold read_at. destruct (N.eqb_spec n 0) as [->|]; [by intros [= <-]|].
  destruct (_ <? _); [done|]. intros [= <-]. rewrite length_take. lia.
Qed.

Lemma read_block_length d t meta es :
  read_block d t meta = Ok es → (length es <= N.to_nat (bm_len meta))%nat.
Proof.
  unfold read_block, mbind, Res_bind. destruct (read_file _ d) as [data|]; [|done].
  destruct (read_at data _ _) as [buf|] eqn:Hr; [|done]. apply read_at_length in Hr.
  destruct (negb _); [done|]. intros Hd%decode_loop_length. lia.
Qed.

Lemma iter_next_error d it err : iter_next d it = Err err → err = Panic.
Proof.
  unfold iter_next. destruct (it_entries it); [|done].
  generalize (it_table it). intros t. induction (it_blocks it) as [|meta metas IH]; [done|]. simpl.
  destruct (read_block d t meta) as [[|e es]|]; [done|done|]. by intros [= <-].
Qed.

Lemma iter_next_smaller d it e it' : iter_next d it = Ok (Some (e, it')) → (it_size it' < it_size it)%nat.
Proof.
  unfold iter_next, it_size. destruct (it_entries it) as [|e0 es].
  2: { intros [= <- <-]. simpl. lia. }
  simpl. generalize (it_table it). intros t. induction (it_blocks it) as [|meta metas IH]; [done|].
  rewrite fmap_cons, sum_list_cons. cbn [iter_blocks compose].
  destruct (read_block d t meta) as [[|e' es]|] eqn:Hr; [|..|done].
  - intros Hi%IH. lia.
  - intros [= <- <-]. simpl. apply read_block_length in Hr. simpl in Hr. lia.
Qed.

(** What a table gives depends on its own file only. *)
Lemma stores_other d d' t meta blk :
  d' !! FTable (st_id t) = d !! FTable (st_id t) → stores d t meta blk → stores d' t meta blk.
Proof. intros Hd. unfold stores, read_block, read_file. by rewrite Hd. Qed.

Lemma holds_other d d' t es :
  d' !! FTable (st_id t) = d !! FTable (st_id t) → holds d t es → holds d' t es.
Proof.
  intros Hd [(blks & -> & Hf) ? ? ?]. split; [|done..]. exists blks. split; [done|].
  eapply Forall2_impl; [exact Hf|]. intros meta blk. by apply stores_other.
Qed.

Lemma it_yields_other d d' it es :
  d' !! FTable (st_id (it_table it)) = d !! FTable (st_id (it_table it)) →
  it_yields d it es → it_yields d' it es.
Proof.
  intros Hd (blks & Hf & ->). exists blks. split; [|done].
  eapply Forall2_impl; [exact Hf|]. intros meta blk. by apply stores_other.
Qed.
End iterate.

(** ** Building and reading *)

Section roundtrip.
  Context `{Crc32} `{Bincode TableIndex} `{!BincodeLaws TableIndex}.

Lemma table_open_same d d' id : d' !! FTable id = d !! FTable id → table_open id d' = table_open id d.
Proof. intros Hd. unfold table_open, read_file. by rewrite Hd. Qed.

(** C24: A table that was built from a strictly ordered list of versions, finished
    and then hit by a crash opens again; at every key and snapshot it answers the
    newest version of the list at the snapshot (deletions included), with its
    filter and its block index in use; and its iterator gives the whole list, in
    order. *)
Theorem table_roundtrip d d' id block_bytes bits_per_key es :
  block_bytes ≤ 2 ^ 31 → es ≠ [] → Forall entry_small es →
  table_fits block_bytes bits_per_key es → sorted es →
  let build := build_table id block_bytes bits_per_key es in
  cut (after build d) d' →
  ∃ summary t, (build d).1 = Ok summary ∧ table_open id d' = Ok t
    ∧ (∀ key snapshot, table_get d' t key snapshot = Ok (find_version es key snapshot))
    ∧ it_yields d' (table_iter t) es.
Proof.
  intros Hbb Hne Hsm Hfit Hs build Hcut.
  destruct (build_io d id _ _ _ Hbb Hne Hsm Hfit) as (ops & n & t & Hb & _ & Ho & Hid & Hh & data & Hd).
  fold build in Hb. unfold after in Hcut. rewrite Hb in Hcut. simpl in Hcut.
  pose proof (cut_synced _ _ _ _ Hcut Hd eq_refl) as Hd'.
  rewrite <-Hd in Hd'.
  assert (d' !! FTable (st_id t) = apply_ops d ops !! FTable (st_id t)) as Ht by by rewrite Hid.
  exists (n, table_size block_bytes bits_per_key es, min_key t, max_key t), t. rewrite Hb. split_and!; [done|..].
  - by rewrite (table_open_same _ _ _ Hd').
  - intros key snapshot. apply table_get_spec; [|done]. by eapply holds_other.
  - apply table_iter_yields. by eapply holds_other.
Qed.
End roundtrip.

Section concrete_table.
  #[local] Existing Instance sum_crc.
#[local] Instance demo_index_codec : Bincode TableIndex := countable_bincode TableIndex.
#[local] Instance demo_index_laws : BincodeLaws TableIndex := countable_bincode_laws TableIndex.

(** Two versions of a key and a deletion; each entry fills a block. *)
Definition demo_entries : list Entry :=
  [([x61], 3, Some [x01]); ([x61], 1, Some [x02]); ([x62], 2, None)].

#[local] Abbreviation demo_dir := (after (build_table 7 16 10 demo_entries) ∅).

Lemma table_roundtrip_witness :
  (t ← table_open 7 demo_dir; table_get demo_dir t [x61] 2) = Ok (Some (1, Some [x02])) ∧
  ∃ summary t, (build_table 7 16 10 demo_entries ∅).1 = Ok summary ∧ table_open 7 demo_dir = Ok t
    ∧ (∀ key snapshot, table_get demo_dir t key snapshot
        = Ok (find_version demo_entries key snapshot))
    ∧ it_yields demo_dir (table_iter t) demo_entries.
Proof.
  split; [vm_compute; reflexivity|].
  apply (table_roundtrip ∅ demo_dir 7 16 10 demo_entries).
  - done.
  - done.
  - repeat constructor; vm_compute; discriminate || reflexivity.
  - split; vm_compute; reflexivity.
  - repeat constructor; vm_compute; reflexivity.
  - apply (all_synced_cut demo_dir). vm_compute. reflexivity.
Defined.
End concrete_table.
