(* ===== verification/MergeIter.v ===== *)
(** * Merging sources

    crates/storage/src/iter.rs: [MergeIter], which repeatedly takes the smallest
    head of its peekable sources, and [VisibleIter], which keeps the newest
    visible version of each key. A source is the iterator of the memtable or of a
    table; reading a table's block can fail, so every step answers a [Res]. *)

From S2P Require Import Prelude Order Codec Fs Wal Bloom Memtable SsTable SsTableFacts.
From stdpp Require Import sorting.
Local Open Scope N_scope.

(** [Box<dyn Iterator<Item = Entry>>], as the engine builds them. *)
Inductive Source := SMem (es : list Entry) | STable (it : TableIter).

(** [std::iter::Peekable]: the answer of the last [peek], if it was not taken. *)
Record Peekable := mkPeekable { pk_peeked : option (option Entry); pk_iter : Source }.

Definition peekable (s : Source) : Peekable := mkPeekable None s.

Section merge.
  Context `{Crc32}.

Definition src_next (d : Dir) (s : Source) : Res (option Entry * Source) :=
  match s with
  | SMem [] => Ok (None, s)
  | SMem (e :: es) => Ok (Some e, SMem es)
  | STable it =>
    r ← iter_next d it;
    match r with
    | None => Ok (None, s)
    | Some (e, it) => Ok (Some e, STable it)
    end
  end.

Definition peek (d : Dir) (p : Peekable) : Res (option Entry * Peekable) :=
  match pk_peeked p with
  | Some r => Ok (r, p)
  | None => '(r, s) ← src_next d (pk_iter p); Ok (r, mkPeekable (Some r) s)
  end.

Definition pk_next (d : Dir) (p : Peekable) : Res (option Entry * Peekable) :=
  match pk_peeked p with
  | Some r => Ok (r, mkPeekable None (pk_iter p))
  | None => '(r, s) ← src_next d (pk_iter p); Ok (r, mkPeekable None s)
  end.

(** ** MergeIter *)

(** Whether a head replaces the best one seen so far. *)
Definition takes (head : bytes * N) (best : option (nat * (bytes * N))) : bool :=
  match best with
  | None => true
  | Some (_, (bk, bs)) =>
    match bytes_cmp head.1 bk with
    | Lt => true
    | Eq => bs <? head.2
    | Gt => false
    end
  end.

(** The loop over the sources from index [i] on: the index and the head of the
    best one, and the sources with their heads peeked. *)
Fixpoint scan_heads (d : Dir) (i : nat) (best : option (nat * (bytes * N))) (srcs : list Peekable)
    : Res (option (nat * (bytes * N)) * list Peekable) :=
  match srcs with
  | [] => Ok (best, [])
  | p :: srcs =>
    '(h, p) ← peek d p;
    let best :=
      match h with
      | None => best
      | Some (k, s, _) => if takes (k, s) best then Some (i, (k, s)) else best
      end in
    '(best, srcs) ← scan_heads d (S i) best srcs;
    Ok (best, p :: srcs)
  end.

Definition merge_new (sources : list Source) : list Peekable := peekable <$> sources.

Definition merge_next (d : Dir) (srcs : list Peekable) : Res (option Entry * list Peekable) :=
  '(best, srcs) ← scan_heads d 0 None srcs;
  match best with
  | None => Ok (None, srcs)
  | Some (i, _) =>
    match srcs !! i with
    | None => fail Panic
    | Some p => '(r, p) ← pk_next d p; Ok (r, <[i := p]> srcs)
    end
  end.

(** ** VisibleIter *)

Record VisibleIter := mkVisible {
  vi_inner : list Peekable;
  vi_snapshot : N;
  vi_current_key : option bytes;
}.

Definition visible_new (inner : list Peekable) (snapshot : N) : VisibleIter :=
  mkVisible inner snapshot None.

Fixpoint visible_next (fuel : nat) (d : Dir) (it : VisibleIter)
    : Res (option (bytes * option bytes) * VisibleIter) :=
  match fuel with
  | O => fail NoFuel
  | S fuel =>
    '(r, inner) ← merge_next d (vi_inner it);
    match r with
    | None => Ok (None, mkVisible inner (vi_snapshot it) (vi_current_key it))
    | Some (k, s, v) =>
      if decide (vi_current_key it = Some k) then
        visible_next fuel d (mkVisible inner (vi_snapshot it) (vi_current_key it))
      else if vi_snapshot it <? s then
        visible_next fuel d (mkVisible inner (vi_snapshot it) (vi_current_key it))
      else Ok (Some (k, v), mkVisible inner (vi_snapshot it) (Some k))
    end
  end.

(** ** Turns

    A bound on the entries left, known without reading a block. *)

Definition src_size (s : Source) : nat :=
  match s with SMem es => length es | STable it => it_size it end.

Definition pk_size (p : Peekable) : nat :=
  (match pk_peeked p with Some (Some _) => 1 | _ => 0 end + src_size (pk_iter p))%nat.

Definition merge_size (srcs : list Peekable) : nat := sum_list (pk_size <$> srcs).
End merge.
