(* ===== verification/MergeFacts.v ===== *)
(** * Merging sources: correctness

    The merged stream of sources that give sorted lists is a sorted rearrangement
    of all their entries ([merged], an executable reference); the visible stream
    has, for each key, the newest version at the snapshot; both end after a
    number of steps that is known beforehand. *)

From S2P Require Import Prelude Order Codec Fs Wal Bloom Memtable SsTable SsTableFacts MergeIter.
Local Open Scope N_scope.

(** ** The reference merge *)

Abbreviation ikey_le := (cmp_le ikey_cmp).

(** [scan_heads] on lists. *)
Fixpoint best_of (i : nat) (best : option (nat * (bytes * N))) (ess : list (list Entry))
    : option (nat * (bytes * N)) :=
  match ess with
  | [] => best
  | es :: ess =>
    best_of (S i)
      match head es with
      | None => best
      | Some (k, s, _) => if takes (k, s) best then Some (i, (k, s)) else best
      end ess
  end.

Fixpoint merge_lists (fuel : nat) (ess : list (list Entry)) : list Entry :=
  match fuel with
  | O => []
  | S fuel =>
    match best_of 0 None ess with
    | None => []
    | Some (i, _) =>
      match ess !! i with
      | Some (e :: es) => e :: merge_lists fuel (<[i := es]> ess)
      | _ => []
      end
    end
  end.

Definition merged (ess : list (list Entry)) : list Entry := merge_lists (length (concat ess)) ess.

Lemma takes_iff h b : takes h (Some b) = bool_decide (cmp_lt ikey_cmp h b.2).
Proof.
  destruct b as [i [bk bs]]. apply eq_bool_prop_intro. rewrite !Is_true_true. rewrite bool_decide_eq_true. simpl.
  unfold cmp_lt, ikey_cmp. simpl. destruct (bytes_cmp h.1 bk); [|done..].
  by rewrite N.compare_lt_iff, N.ltb_lt.
Qed.

Lemma best_of_spec i best ess :
  match best_of i best ess with
  | None => best = None ∧ Forall (.= []) ess
  | Some (j, h) =>
    (best = Some (j, h) ∨ ∃ m e es, j = (i + m)%nat ∧ ess !! m = Some (e :: es) ∧ e.1 = h)
    ∧ (∀ b, best = Some b → ikey_le h b.2)
    ∧ (∀ e es, e :: es ∈ ess → ikey_le h e.1)
  end.
Proof.
  revert i best. induction ess as [|es ess IH]; intros i best; simpl.
  { destruct best as [[j h]|]; [|by split]. split_and!; [by left| |by intros ?? ?%elem_of_nil].
    intros b [= <-]. reflexivity. }
  destruct es as [|[[k s] v] es]; simpl.
  { specialize (IH (S i) best). destruct (best_of _ _ _) as [[j h]|].
    - destruct IH as ([->|(m & e & es & -> & Hm & He)] & H1 & H2).
      + split_and!; [by left|done|]. intros e es [?|?]%elem_of_cons; [done|eauto].
      + split_and!; [|done|].
        * right. exists (S m), e, es. split_and!; [lia|done..].
        * intros e' es' [?|?]%elem_of_cons; [done|eauto].
    - destruct IH as [-> Hf]. split; [done|]. by constructor. }
  specialize (IH (S i) (if takes (k, s) best then Some (i, (k, s)) else best)).
  assert (∀ b, best = Some b → takes (k, s) best = false → ikey_le b.2 (k, s)) as Hnot.
  { intros b -> Ht. rewrite takes_iff, bool_decide_eq_false in Ht. by apply (cmp_nlt ikey_cmp). }
  destruct (best_of _ _ _) as [[j h]|].
  2: { destruct IH as [Hb _]. destruct (takes (k, s) best) eqn:Ht; [done|]. by subst best. }
  destruct IH as (Hor & H1 & H2). destruct (takes (k, s) best) eqn:Ht.
  - specialize (H1 _ eq_refl) as Hh. simpl in Hh. split_and!.
    + right. destruct Hor as [[= <- <-]|(m & e & es' & -> & Hm & He)].
      * exists 0%nat, (k, s, v), es. split_and!; [lia|done..].
      * exists (S m), e, es'. split_and!; [lia|done..].
    + intros b ->. rewrite takes_iff, bool_decide_eq_true in Ht.
      etrans; [exact Hh|]. by apply (cmp_lt_le ikey_cmp).
    + intros e es' [[= -> _]|?]%elem_of_cons; [done|eauto].
  - split_and!; [|done|].
    + destruct Hor as [->|(m & e & es' & -> & Hm & He)]; [by left|right].
      exists (S m), e, es'. split_and!; [lia|done..].
    + intros e es' [[= -> _]|?]%elem_of_cons; [|eauto]. simpl.
      destruct best as [b|]; [|done]. etrans; [by apply H1|]. by apply Hnot.
Qed.

Lemma concat_nils (ess : list (list Entry)) : Forall (.= []) ess → concat ess = [].
Proof. by induction 1 as [|? ? -> _ IH]. Qed.

Lemma concat_take_one (ess : list (list Entry)) i e es :
  ess !! i = Some (e :: es) → concat ess ≡ₚ e :: concat (<[i := es]> ess).
Proof.
  revert i. induction ess as [|es0 ess IH]; intros [|i] Hi; simplify_eq/=; [done|].
  rewrite (IH _ Hi). by rewrite Permutation_middle.
Qed.

Lemma merged_cons ess i h e es :
  best_of 0 None ess = Some (i, h) → ess !! i = Some (e :: es) →
  merged ess = e :: merged (<[i := es]> ess).
Proof.
  intros Hb Hi. unfold merged. pose proof (concat_take_one _ _ _ _ Hi) as Hp.
  apply Permutation_length in Hp. simpl in Hp. rewrite Hp. cbn [merge_lists]. by rewrite Hb, Hi.
Qed.

(** The head that [best_of] finds, and what is left without it. *)
Lemma best_of_cases ess :
  (best_of 0 None ess = None ∧ Forall (.= []) ess ∧ merged ess = []) ∨
  ∃ i e es, best_of 0 None ess = Some (i, e.1) ∧ ess !! i = Some (e :: es)
    ∧ merged ess = e :: merged (<[i := es]> ess)
    ∧ ∀ e' es', e' :: es' ∈ ess → ikey_le e.1 e'.1.
Proof.
  pose proof (best_of_spec 0 None ess) as Hs. destruct (best_of 0 None ess) as [[i h]|] eqn:Hb.
  - right. destruct Hs as ([?|(m & e & es & -> & Hm & <-)] & _ & Hle); [done|].
    exists m, e, es. split_and!; [done..| |done]. by eapply merged_cons.
  - left. destruct Hs as [_ Hf]. split_and!; [done..|]. unfold merged.
    by rewrite concat_nils.
Qed.

Lemma merged_perm ess : merged ess ≡ₚ concat ess.
Proof.
  remember (length (concat ess)) as n eqn:Hn. revert ess Hn.
  induction n as [|n IH]; intros ess Hn; destruct (best_of_cases ess) as [(_ & Hf & ->)|(i & e & es & _ & Hi & -> & _)].
  - symmetry in Hn. by apply nil_length_inv in Hn as ->.
  - rewrite (concat_take_one _ _ _ _ Hi) in Hn. done.
  - exfalso. by rewrite concat_nils in Hn.
  - pose proof (concat_take_one _ _ _ _ Hi) as Hp. rewrite Hp in Hn |- *. simpl in Hn.
    f_equiv. apply IH. lia.
Qed.

Lemma elem_of_concat {A} (l : list (list A)) x : x ∈ concat l ↔ ∃ y, y ∈ l ∧ x ∈ y.
Proof. rewrite list_elem_of_In, in_concat. by setoid_rewrite list_elem_of_In. Qed.

Lemma elem_of_merged ess e : e ∈ merged ess ↔ ∃ es, es ∈ ess ∧ e ∈ es.
Proof. by rewrite merged_perm, elem_of_concat. Qed.

Lemma insert_tail_sorted ess i e es :
  Forall sorted ess → ess !! i = Some (e :: es) → Forall sorted (<[i := es]> ess).
Proof.
  intros Hs Hi. apply Forall_insert; [done|].
  by apply (Forall_lookup_1 _ _ _ _ Hs), StronglySorted_inv in Hi as [? _].
Qed.

Lemma merged_head_least ess (e : Entry) : Forall sorted ess →
  (∀ e' es', e' :: es' ∈ ess → ikey_le e.1 e'.1) → ∀ e', e' ∈ merged ess → ikey_le e.1 e'.1.
Proof.
  intros Hs Hle e' ([|e0 es] & Hin & He')%elem_of_merged; [by apply elem_of_nil in He'|].
  specialize (Hle _ _ Hin). rewrite Forall_forall in Hs. specialize (Hs _ Hin).
  apply StronglySorted_inv in Hs as [_ Hall]. apply elem_of_cons in He' as [->|He']; [done|].
  rewrite Forall_forall in Hall. etrans; [exact Hle|]. by apply (cmp_lt_le ikey_cmp), Hall.
Qed.

Lemma merged_sorted ess : Forall sorted ess → StronglySorted (key_le ikey_cmp) (merged ess).
Proof.
  remember (length (concat ess)) as n eqn:Hn. revert ess Hn.
  induction n as [|n IH]; intros ess Hn Hs;
    destruct (best_of_cases ess) as [(_ & Hf & ->)|(i & e & es & _ & Hi & Hm & Hle)]; try constructor.
  - rewrite (concat_take_one _ _ _ _ Hi) in Hn. done.
  - rewrite (concat_take_one _ _ _ _ Hi) in Hn. simpl in Hn. rewrite Hm.
    constructor; [apply IH; [lia|by eapply insert_tail_sorted]|].
    apply Forall_forall. intros e' He'. apply (merged_head_least ess); [done..|].
    rewrite Hm. by right.
Qed.

(** ** [merge_next] follows the reference *)

Section next.
  Context `{Crc32}.

(** The sources give these entries; the tables they read are among [Q]. *)
  Context (Q : N → Prop).

Definition src_yields (d : Dir) (s : Source) (es : list Entry) : Prop :=
  match s with SMem es' => es = es' | STable it => Q (st_id (it_table it)) ∧ it_yields d it es end.

Definition pk_yields (d : Dir) (p : Peekable) (es : list Entry) : Prop :=
  match pk_peeked p with
  | None => src_yields d (pk_iter p) es
  | Some None => es = []
  | Some (Some e) => ∃ es', es = e :: es' ∧ src_yields d (pk_iter p) es'
  end.

Definition sources_yield (d : Dir) (srcs : list Peekable) (ess : list (list Entry)) : Prop :=
  Forall2 (pk_yields d) srcs ess.

Lemma src_next_yields d s es :
  src_yields d s es → ∃ s', src_next d s = Ok (head es, s') ∧ src_yields d s' (tail es).
Proof.
  destruct s as [es'|it]; simpl.
  - intros ->. destruct es' as [|e es']; eexists; (split; [done|]); done.
  - intros [HQ Hy]. pose proof (iter_next_yields _ _ _ Hy) as Hn. destruct es as [|e es].
    + rewrite Hn. simpl. eexists. by split; [done|].
    + destruct Hn as (it' & -> & Ht & Hy'). simpl. eexists. split; [done|]. simpl. by rewrite Ht.
Qed.

Lemma peek_yields d p es :
  pk_yields d p es →
  ∃ p', peek d p = Ok (head es, p') ∧ pk_yields d p' es ∧ pk_peeked p' = Some (head es).
Proof.
  unfold pk_yields, peek. destruct p as [[[e|]|] s]; simpl.
  - intros (es' & -> & Hs). eexists. simpl. split_and!; [done| |done]. simpl. by eauto.
  - intros ->. eexists. by split_and!.
  - intros Hs. destruct (src_next_yields _ _ _ Hs) as (s' & -> & Hs'). simpl.
    eexists. split_and!; [done| |done]. simpl. destruct es as [|e es]; [done|]. simpl. by eauto.
Qed.

Lemma scan_heads_yields d i best srcs ess :
  sources_yield d srcs ess →
  ∃ srcs', scan_heads d i best srcs = Ok (best_of i best ess, srcs')
    ∧ Forall2 (λ p es, pk_yields d p es ∧ pk_peeked p = Some (head es)) srcs' ess.
Proof.
  intros Hf. revert i best. induction Hf as [|p es srcs ess Hp Hf IH]; intros i best; simpl.
  { eexists. by split; [|constructor]. }
  destruct (peek_yields _ _ _ Hp) as (p' & -> & Hp' & Hpk). simpl.
  destruct (IH (S i) match head es with
    | None => best
    | Some (k, s, _) => if takes (k, s) best then Some (i, (k, s)) else best
    end) as (srcs' & -> & Hs'). simpl.
  eexists. split; [done|]. by constructor.
Qed.

Lemma merge_next_yields d srcs ess :
  sources_yield d srcs ess →
  match merged ess with
  | [] => ∃ srcs', merge_next d srcs = Ok (None, srcs')
  | e :: ms => ∃ i es srcs', merge_next d srcs = Ok (Some e, srcs')
      ∧ ess !! i = Some (e :: es) ∧ sources_yield d srcs' (<[i := es]> ess)
      ∧ ms = merged (<[i := es]> ess)
  end.
Proof.
  intros Hf. destruct (scan_heads_yields d 0 None srcs ess Hf) as (srcs' & Hs & Hf').
  unfold merge_next. rewrite Hs. simpl.
  destruct (best_of_cases ess) as [(-> & _ & ->)|(i & e & es & -> & Hi & -> & _)]; [by eexists|].
  destruct (Forall2_lookup_r _ _ _ _ _ Hf' Hi) as (p & Hp & Hy & Hpk). rewrite Hp.
  unfold pk_yields in Hy. unfold pk_next. rewrite Hpk in Hy |- *. simpl in *.
  destruct Hy as (es' & [= <-] & Hy).
  exists i, es. eexists. split_and!; [done|done| |done]. apply Forall2_insert; [|done].
  eapply Forall2_impl; [exact Hf'|]. by intros ? ? [? _].
Qed.

Lemma sources_yield_new d sources ess :
  Forall2 (src_yields d) sources ess → sources_yield d (merge_new sources) ess.
Proof. intros Hf. apply Forall2_fmap_l. eapply Forall2_impl; [exact Hf|]. done. Qed.

(** Files the sources do not read may change. *)
Lemma sources_yield_other d d' srcs ess :
  (∀ id, Q id → d' !! FTable id = d !! FTable id) → sources_yield d srcs ess → sources_yield d' srcs ess.
Proof.
  intros Hd Hy. eapply Forall2_impl; [exact Hy|]. intros p es.
  assert (∀ s es, src_yields d s es → src_yields d' s es) as Hs.
  { intros [es'|it] es0; [done|]. intros [HQ Hi]. split; [done|]. eapply it_yields_other; [|exact Hi]. by apply Hd. }
  unfold pk_yields. destruct (pk_peeked p) as [[e|]|]; [|done|by apply Hs].
  intros (es' & -> & He). eauto.
Qed.

End next.

(** ** Steps *)

Section steps.
  Context `{Crc32}.

Lemma src_next_size d s r s' :
  src_next d s = Ok (r, s') →
  (match r with Some _ => 1 | None => 0 end + src_size s' <= src_size s)%nat.
Proof.
  destruct s as [[|e es]|it]; simpl; [by intros [= <- <-]; simpl; lia..|].
  destruct (iter_next d it) as [[[e it']|]|] eqn:Hi; simpl; [..|done].
  - apply iter_next_smaller in Hi. intros [= <- <-]. simpl. lia.
  - intros [= <- <-]. simpl. lia.
Qed.

Lemma peek_size d p r p' : peek d p = Ok (r, p') →
  pk_peeked p' = Some r ∧ (pk_size p' <= pk_size p)%nat.
Proof.
  unfold peek, pk_size. destruct (pk_peeked p) as [r0|] eqn:Hp.
  - intros [= <- <-]. by rewrite Hp.
  - unfold mbind, Res_bind. destruct (src_next d (pk_iter p)) as [[r0 s]|] eqn:Hn; [|done].
    intros [= <- <-]. simpl. apply src_next_size in Hn. by destruct r0; split; lia || done.
Qed.

Lemma scan_heads_size d i best srcs r srcs' :
  scan_heads d i best srcs = Ok (r, srcs') → (merge_size srcs' <= merge_size srcs)%nat
    ∧ (∀ j h, r = Some (j, h) → best = r ∨ ∃ m e, j = (i + m)%nat ∧ pk_peeked <$> srcs' !! m = Some (Some (Some e))).
Proof.
  unfold merge_size. revert i best r srcs'. induction srcs as [|p srcs IH]; intros i best r srcs'; cbn [scan_heads].
  { intros [= <- <-]. split; [done|]. intros j h. by left. }
  unfold mbind, Res_bind. destruct (peek d p) as [[h p']|] eqn:Hp; [|done].
  apply peek_size in Hp as [Hpk Hp]. set (best' := match h with None => _ | _ => _ end).
  destruct (scan_heads d (S i) best' srcs) as [[r' s']|] eqn:Hs; [|done]. intros [= <- <-].
  apply IH in Hs as [Hsz Hr]. rewrite !fmap_cons. split; [unfold sum_list in *; simpl; unfold id in *; lia|].
  intros j hd Hj. destruct (Hr j hd Hj) as [Hb|(m & e & -> & Hm)].
  2: { right. exists (S m), e. split; [lia|done]. }
  subst r'. unfold best' in Hb. destruct h as [[[k s] v]|]; [|by left].
  destruct (takes (k, s) best); [|by left]. right. exists 0%nat, (k, s, v).
  injection Hb as <- <-. split; [lia|]. simpl. by rewrite Hpk.
Qed.

(** Each entry given leaves a smaller bound. *)
Lemma merge_next_smaller d srcs e srcs' :
  merge_next d srcs = Ok (Some e, srcs') → (merge_size srcs' < merge_size srcs)%nat.
Proof.
  unfold merge_next, mbind, Res_bind. destruct (scan_heads d 0 None srcs) as [[r s']|] eqn:Hs; [|done].
  apply scan_heads_size in Hs as [Hsz Hr]. destruct r as [[i h]|]; [|done].
  destruct (Hr _ _ eq_refl) as [?|(m & e' & -> & Hm)]; [done|]. simpl.
  destruct (s' !! m) as [p|] eqn:Hp; [|done]. simplify_eq/=. unfold pk_next. rewrite Hm. intros [= <- <-].
  unfold merge_size in *. rewrite list_fmap_insert.
  assert ((pk_size <$> s') !! m = Some (pk_size p)) as Hl by by rewrite list_lookup_fmap, Hp.
  pose proof (sum_list_with_insert id _ _ _ (pk_size (mkPeekable None (pk_iter p))) Hl) as Hi.
  assert (pk_size (mkPeekable None (pk_iter p)) < pk_size p)%nat by (unfold pk_size; rewrite Hm; simpl; lia).
  unfold sum_list, id in *. lia.
Qed.
End steps.

(** ** Visibility *)

(** [VisibleIter] on a list. *)
Fixpoint visible (t : N) (cur : option bytes) (ms : list Entry) : list (bytes * option bytes) :=
  match ms with
  | [] => []
  | (k, s, v) :: ms =>
    if decide (cur = Some k) then visible t cur ms
    else if t <? s then visible t cur ms
    else (k, v) :: visible t (Some k) ms
  end.

Abbreviation merge_sorted := (StronglySorted (key_le (V := option bytes) ikey_cmp)).

(** A version has one value, wherever it is stored. *)
Definition functional (es : list Entry) : Prop :=
  ∀ k s v v', (k, s, v) ∈ es → (k, s, v') ∈ es → v = v'.

Definition from_key (cur : option bytes) (ms : list Entry) : Prop :=
  ∀ c e, cur = Some c → e ∈ ms → bytes_le c (key_of e).

Lemma ikey_le_iff (a b : bytes * N) :
  ikey_le a b ↔ bytes_lt a.1 b.1 ∨ (a.1 = b.1 ∧ b.2 ≤ a.2).
Proof.
  rewrite (cmp_le_cases ikey_cmp), ikey_lt_iff. destruct a as [k s], b as [k' s']. simpl. split.
  - intros [[?|[-> ?]]|[= -> ->]]; [by left|right..]; split; done || lia.
  - intros [?|[-> Hle]]; [by left; left|].
    destruct (decide (s' = s)) as [->|]; [by right|]. left. right. split; [done|lia].
Qed.

Lemma merge_sorted_head k s v ms e :
  merge_sorted ((k, s, v) :: ms) → e ∈ ms → bytes_le k (key_of e) ∧ (key_of e = k → e.1.2 ≤ s).
Proof.
  intros [_ Hall]%StronglySorted_inv He. rewrite Forall_forall in Hall.
  specialize (Hall _ He). unfold key_le in Hall. simpl in Hall.
  apply ikey_le_iff in Hall as [Hlt|[Heq Hle]]; simpl in *.
  - split; [by apply (cmp_lt_le bytes_cmp)|]. intros Heq. unfold key_of in Heq. rewrite Heq in Hlt.
    by apply (cmp_lt_irrefl bytes_cmp) in Hlt.
  - split; [|done]. unfold key_of. rewrite <-Heq. reflexivity.
Qed.

Lemma from_key_tail cur e ms : from_key cur (e :: ms) → from_key cur ms.
Proof. intros Hf c e' Hc He'. apply (Hf c e' Hc). by right. Qed.

Lemma from_key_next k s v ms : merge_sorted ((k, s, v) :: ms) → from_key (Some k) ms.
Proof. intros Hs c e [= <-] He. by apply (merge_sorted_head _ _ _ _ _ Hs). Qed.

Lemma functional_tail e es : functional (e :: es) → functional es.
Proof. intros Hf k s v v' H1 H2. apply (Hf k s v v'); by right. Qed.

Lemma newest_cons_other e ms k t s v :
  (key_of e = k → t < e.1.2) → newest (.∈ e :: ms) k t s v ↔ newest (.∈ ms) k t s v.
Proof.
  destruct e as [[k0 s0] v0]. unfold key_of. simpl. intros Hne. unfold newest. split.
  - intros ([[= -> -> ->]|H1]%elem_of_cons & H2 & H3).
    { specialize (Hne eq_refl). lia. }
    split_and!; [done..|]. intros s' v' Hin. apply (H3 s' v'). by right.
  - intros (H1 & H2 & H3). split_and!; [by right|done|].
    intros s' v' [[= -> -> ->]|Hin]%elem_of_cons Hle; [specialize (Hne eq_refl); lia|eauto].
Qed.

Lemma newest_cons_key k s0 v0 ms t s v :
  merge_sorted ((k, s0, v0) :: ms) → functional ((k, s0, v0) :: ms) → s0 ≤ t →
  newest (.∈ (k, s0, v0) :: ms) k t s v ↔ s = s0 ∧ v = v0.
Proof.
  intros Hs Hf Hle. split.
  - intros (H1 & H2 & H3). assert (s = s0) as ->.
    { specialize (H3 s0 v0 ltac:(left) Hle). apply elem_of_cons in H1 as [[= -> _]|H1]; [done|].
      pose proof (proj2 (merge_sorted_head _ _ _ _ _ Hs H1) eq_refl). simpl in *. lia. }
    split; [done|]. apply (Hf k s0); [done|left].
  - intros [-> ->]. split_and!; [left|done|].
    intros s' v' [[= -> _]|Hin]%elem_of_cons _; [done|].
    apply (proj2 (merge_sorted_head _ _ _ _ _ Hs Hin) eq_refl).
Qed.

Lemma elem_of_visible t cur ms k v :
  merge_sorted ms → functional ms → from_key cur ms →
  (k, v) ∈ visible t cur ms ↔ cur ≠ Some k ∧ ∃ s, newest (.∈ ms) k t s v.
Proof.
  revert cur. induction ms as [|[[k0 s0] v0] ms IH]; intros cur Hs Hf Hc; simpl.
  { rewrite elem_of_nil. split; [done|]. by intros (_ & s & ?%elem_of_nil & _). }
  pose proof (StronglySorted_inv Hs) as [Hs' _].
  pose proof (functional_tail _ _ Hf) as Hf'. pose proof (from_key_tail _ _ _ Hc) as Hc'.
  destruct (decide (cur = Some k0)) as [->|Hcur].
  { rewrite IH by done. split; intros (Hne & s & Hn); (split; [done|]); exists s;
      [apply newest_cons_other|apply newest_cons_other in Hn]; done || by intros <-. }
  destruct (N.ltb_spec t s0) as [Hlt|Hge].
  { rewrite IH by done. split; intros (Hne & s & Hn); (split; [done|]); exists s;
      [apply newest_cons_other|apply newest_cons_other in Hn]; done. }
  rewrite elem_of_cons, IH by (done || by eapply from_key_next). split.
  - intros [[= -> ->]|(Hne & s & Hn)].
    + split; [done|]. exists s0. by apply newest_cons_key.
    + split.
      * intros ->. assert (bytes_le k k0) as Hle by (apply (Hc k (k0, s0, v0) eq_refl); left).
        destruct Hn as (Hin & _). apply (merge_sorted_head _ _ _ _ _ Hs) in Hin as [Hle' _].
        apply Hne. f_equal. by apply (cmp_le_antisym bytes_cmp).
      * exists s. apply newest_cons_other; [|done]. by intros <-.
  - intros (Hne & s & Hn). destruct (decide (k = k0)) as [->|Hk].
    + left. apply newest_cons_key in Hn as [-> ->]; done.
    + right. split; [by intros [= ->]|]. exists s. apply newest_cons_other in Hn; [done|]. by intros <-.
Qed.

Lemma visible_sorted t cur ms :
  merge_sorted ms → functional ms → from_key cur ms →
  StronglySorted (key_lt bytes_cmp) (visible t cur ms).
Proof.
  revert cur. induction ms as [|[[k0 s0] v0] ms IH]; intros cur Hs Hf Hc; simpl; [constructor|].
  pose proof (StronglySorted_inv Hs) as [Hs' _].
  pose proof (functional_tail _ _ Hf) as Hf'. pose proof (from_key_tail _ _ _ Hc) as Hc'.
  pose proof (from_key_next _ _ _ _ Hs) as Hk.
  destruct (decide (cur = Some k0)); [by apply IH|]. destruct (t <? s0); [by apply IH|].
  constructor; [by apply IH|]. apply Forall_forall. intros [k v] Hin.
  apply elem_of_visible in Hin as (Hne & s & Hn & _); [|done..].
  apply (Hk k0) in Hn; [|done]. unfold key_of in Hn. simpl in Hn.
  apply (cmp_le_cases bytes_cmp) in Hn as [Hlt| ->]; [done|]. done.
Qed.

Section visible.
  Context `{Crc32} (Q : N → Prop).

Lemma visible_next_yields fuel d it ess :
  sources_yield Q d (vi_inner it) ess → (length (merged ess) < fuel)%nat →
  match visible (vi_snapshot it) (vi_current_key it) (merged ess) with
  | [] => ∃ it', visible_next fuel d it = Ok (None, it')
  | kv :: r => ∃ it' ess', visible_next fuel d it = Ok (Some kv, it')
      ∧ vi_snapshot it' = vi_snapshot it ∧ sources_yield Q d (vi_inner it') ess'
      ∧ r = visible (vi_snapshot it) (vi_current_key it') (merged ess')
      ∧ (length (merged ess') < length (merged ess))%nat
  end.
Proof.
  revert it ess. induction fuel as [|fuel IH]; intros [srcs t cur] ess Hy Hf; [lia|]. simpl in *.
  pose proof (merge_next_yields _ _ _ _ Hy) as Hm.
  destruct (merged ess) as [|[[k s] v] ms] eqn:Hms; simpl.
  { destruct Hm as (srcs' & ->). simpl. by eexists. }
  destruct Hm as (i & es & srcs' & -> & Hi & Hy' & ->). simpl in *.
  specialize (IH (mkVisible srcs' t cur) _ Hy' ltac:(lia)). simpl in IH.
  assert (∀ kv r, (∃ it' ess', visible_next fuel d (mkVisible srcs' t cur) = Ok (Some kv, it')
      ∧ vi_snapshot it' = t ∧ sources_yield Q d (vi_inner it') ess'
      ∧ r = visible t (vi_current_key it') (merged ess')
      ∧ (length (merged ess') < length (merged (<[i:=es]> ess)))%nat) →
    ∃ it' ess', visible_next fuel d (mkVisible srcs' t cur) = Ok (Some kv, it')
      ∧ vi_snapshot it' = t ∧ sources_yield Q d (vi_inner it') ess'
      ∧ r = visible t (vi_current_key it') (merged ess')
      ∧ (length (merged ess') < S (length (merged (<[i:=es]> ess))))%nat) as Hmono.
  { intros kv r (it' & ess' & H1 & H2 & H3 & H4 & H5). exists it', ess'. split_and!; [done..|lia]. }
  destruct (decide (cur = Some k)); [by destruct (visible t cur _); [|apply Hmono]|].
  destruct (t <? s); [by destruct (visible t cur _); [|apply Hmono]|].
  eexists _, _. split_and!; [done|done|exact Hy'|done|lia].
Qed.

Lemma src_yields_size d s es : src_yields Q d s es → (length es <= src_size s)%nat.
Proof.
  destruct s as [es'|it]; simpl; [by intros ->|]. intros (_ & blks & Hf & ->). unfold it_size.
  rewrite length_app. enough (length (concat blks) <= sum_list (N.to_nat ∘ bm_len <$> it_blocks it))%nat by lia.
  induction Hf as [|meta blk metas blks (Hr & _ & _) Hf IH]; [done|].
  apply read_block_length in Hr. rewrite fmap_cons, sum_list_cons. cbn [concat]. rewrite length_app.
  change ((N.to_nat ∘ bm_len) meta) with (N.to_nat (bm_len meta)). lia.
Qed.

Lemma sources_yield_size d srcs ess : sources_yield Q d srcs ess → (length (merged ess) <= merge_size srcs)%nat.
Proof.
  intros Hy. rewrite merged_perm. unfold merge_size.
  induction Hy as [|p es srcs ess Hp Hy IH]; [done|]. rewrite fmap_cons, sum_list_cons. cbn [concat]. rewrite length_app.
  assert (length es <= pk_size p)%nat.
  { unfold pk_yields in Hp. unfold pk_size. destruct (pk_peeked p) as [[e|]|].
    - destruct Hp as (es' & -> & Hp). apply src_yields_size in Hp. simpl. lia.
    - subst es. simpl. lia.
    - by apply src_yields_size in Hp. }
  lia.
Qed.

End visible.

Section errors.
  Context `{Crc32}.

(** Whatever the sources are, the loops end before their fuel does: the only
    error is the panic of a block that cannot be read. *)
Lemma src_next_error d s err : src_next d s = Err err → err = Panic.
Proof.
  destruct s as [[|e es]|it]; [done..|]. simpl. unfold mbind, Res_bind.
  destruct (iter_next d it) as [[[e it']|]|err'] eqn:Hi; [done..|].
  apply iter_next_error in Hi. by intros [= <-].
Qed.

Lemma peek_error d p err : peek d p = Err err → err = Panic.
Proof.
  unfold peek, mbind, Res_bind. destruct (pk_peeked p); [done|].
  destruct (src_next d (pk_iter p)) as [[]|] eqn:Hs; [done|]. intros [= <-]. by eapply src_next_error.
Qed.

Lemma scan_heads_error d i best srcs err : scan_heads d i best srcs = Err err → err = Panic.
Proof.
  revert i best. induction srcs as [|p srcs IH]; intros i best; [done|]. simpl. unfold mbind, Res_bind.
  destruct (peek d p) as [[h p']|] eqn:Hp; [|intros [= <-]; by eapply peek_error].
  set (best' := match h with None => _ | _ => _ end).
  destruct (scan_heads d (S i) best' srcs) as [[]|] eqn:Hs; [done|]. intros [= <-]. by eapply IH.
Qed.

Lemma merge_next_error d srcs err : merge_next d srcs = Err err → err = Panic.
Proof.
  unfold merge_next, mbind, Res_bind.
  destruct (scan_heads d 0 None srcs) as [[[[i h]|] srcs']|] eqn:Hs; [|done|].
  2: { intros [= <-]. by eapply scan_heads_error. }
  destruct (srcs' !! i) as [p|]; [|by intros [= <-]].
  unfold pk_next, mbind, Res_bind. destruct (pk_peeked p); [done|].
  destruct (src_next d (pk_iter p)) as [[]|] eqn:Hn; [done|]. intros [= <-]. by eapply src_next_error.
Qed.

Lemma visible_next_fuel fuel d it :
  (merge_size (vi_inner it) < fuel)%nat →
  match visible_next fuel d it with
  | Ok (r, it') => is_Some r → (merge_size (vi_inner it') < merge_size (vi_inner it))%nat
  | Err err => err = Panic
  end.
Proof.
  revert it. induction fuel as [|fuel IH]; intros [srcs t cur] Hf; [lia|]. simpl in *.
  unfold mbind, Res_bind. destruct (merge_next d srcs) as [[[[[k s] v]|] srcs']|err] eqn:Hm.
  - apply merge_next_smaller in Hm. specialize (IH (mkVisible srcs' t cur) ltac:(simpl; lia)). simpl in IH.
    assert (match visible_next fuel d (mkVisible srcs' t cur) with
      | Ok (r, it') => is_Some r → (merge_size (vi_inner it') < merge_size srcs)%nat
      | Err err => err = Panic
      end) as IH'.
    { destruct (visible_next _ _ _) as [[r it']|]; [|done]. intros Hr. specialize (IH Hr). lia. }
    destruct (decide _); [done|]. by destruct (t <? s).
  - simpl. by intros [? ?].
  - by eapply merge_next_error.
Qed.
End errors.
