(* ===== verification/Manifest.v ===== *)
(** * The manifest

    crates/storage/src/manifest.rs: the catalogue of tables, rewritten whole on
    every change through a temporary file, and what a crash during a rewrite
    leaves. *)

From S2P Require Import Prelude Codec Fs Wal Memtable.
Local Open Scope N_scope.

Record TableMeta := mkMeta {
  tm_id : N;
  tm_min_key : bytes;
  tm_max_key : bytes;
  tm_entries : N;
  tm_bytes : N;
}.

Record Manifest := mkManifest {
  mf_levels : list (list TableMeta);
  mf_next_table_id : N;
  mf_last_seq : N;
}.

#[export] Instance TableMeta_eq_dec : EqDecision TableMeta.
Proof. solve_decision. Defined.
#[export] Instance TableMeta_countable : Countable TableMeta.
Proof.
  by apply (inj_countable' (λ m, (tm_id m, tm_min_key m, tm_max_key m, tm_entries m, tm_bytes m))
    (λ '(i, mn, mx, n, b), mkMeta i mn mx n b)); intros [].
Defined.
#[export] Instance Manifest_eq_dec : EqDecision Manifest.
Proof. solve_decision. Defined.
#[export] Instance Manifest_countable : Countable Manifest.
Proof.
  by apply (inj_countable' (λ m, (mf_levels m, mf_next_table_id m, mf_last_seq m))
    (λ '(l, n, s), mkManifest l n s)); intros [].
Defined.

Definition manifest_default : Manifest := mkManifest [] 0 0.

Section manifest.
  Context `{Crc32} `{Bincode Manifest}.

(** The body of the loop of [load] on the bytes of a file; [None] is a
    [continue]. *)
Definition load_bytes (data : bytes) : Res (option Manifest) :=
  if (length data <? 4)%nat then Ok None
  else
    let payload := take (length data - 4) data in
    let crc := from_le (drop (length data - 4) data) in
    if negb (crc32 payload =? crc) then Ok None
    else
      match deserialize payload with
      | None => fail Corruption
      | Some m => Ok (Some m)
      end.

Fixpoint load_first (paths : list file) (d : Dir) : Res (option Manifest) :=
  match paths with
  | [] => Ok None
  | path :: paths =>
    match d !! path with
    | None => load_first paths d
    | Some _ =>
      data ← read_file path d;
      r ← load_bytes data;
      match r with
      | None => load_first paths d
      | Some m => Ok (Some m)
      end
    end
  end.

Definition load (d : Dir) : Res (option Manifest) := load_first [FManifest; FTmp] d.

Definition manifest_bytes (m : Manifest) : bytes :=
  let payload := serialize m in payload ++ u32_le (crc32 payload).

Definition save (m : Manifest) : IO unit :=
  perform (Create FTmp);;
  perform (Append FTmp (manifest_bytes m));;
  perform (Sync FTmp);;
  ex ← exists_file FManifest;
  (if (ex : bool) then perform (Remove FManifest) else mret tt);;
  perform (Rename FTmp FManifest).

(** ** What is on the disk *)

(** [f] is wholly on the disk and holds [m]. *)
Definition manifest_at (d : Dir) (f : file) (m : Manifest) : Prop :=
  d !! f = Some (mkFile (manifest_bytes m) (length (manifest_bytes m))).

(** There is no manifest, and the temporary file, if any, is one that [load]
    passes over. *)
Definition no_manifest (d : Dir) : Prop :=
  d !! FManifest = None ∧
  match d !! FTmp with
  | None => True
  | Some x => f_synced x = length (f_data x) ∧ load_bytes (f_data x) = Ok None
  end.

(** The directory's catalogue is [m], installed. *)
Definition installed (d : Dir) (m : Manifest) : Prop :=
  manifest_at d FManifest m ∨ (m = manifest_default ∧ no_manifest d).

(** ... or complete in the temporary file only. *)
Definition catalog (d : Dir) (m : Manifest) : Prop :=
  installed d m ∨ (d !! FManifest = None ∧ manifest_at d FTmp m).

(** ** Crashes that leave a manifest

    A restart reads [MANIFEST], or [MANIFEST.tmp] when the former is not there.
    An operation began in [d], had written [dv] when it crashed, and the crash
    left [d']. If [MANIFEST] was there when it began, or when it crashed, there is
    nothing to ask for. Otherwise the temporary file is all there is: it survives
    whole, or there was no manifest before and what is left of it is not taken for
    one. What this leaves out is the second of two crashes, which
    [second_crash_loses_manifest] describes, and a first manifest whose torn bytes
    end by chance with their own checksum. *)
Definition manifest_kept (d dv d' : Dir) : Prop :=
  is_Some (d !! FManifest) ∨ is_Some (dv !! FManifest)
  ∨ (∃ x m, dv !! FTmp = Some x ∧ load_bytes (f_data x) = Ok (Some m)
      ∧ f_data <$> d' !! FTmp = Some (f_data x))
  ∨ (load d = Ok None ∧ load d' = Ok None).

(** The directories that such a crash during [ops] can leave. *)
Definition outage (d : Dir) (ops : list fs_op) (d' : Dir) : Prop :=
  ∃ ops1 ops2, ops = ops1 ++ ops2 ∧ cut (apply_ops d ops1) d' ∧ manifest_kept d (apply_ops d ops1) d'.

(** Done operations leave a manifest in place, or did not touch its files. *)
Definition same_manifest (d d' : Dir) : Prop :=
  d' !! FManifest = d !! FManifest ∧ d' !! FTmp = d !! FTmp.

Definition rests (d d' : Dir) : Prop := is_Some (d' !! FManifest) ∨ same_manifest d d'.
End manifest.

#[global] Arguments load_bytes : simpl never.
#[global] Arguments manifest_bytes : simpl never.

Section facts.
  Context `{Crc32} `{Bincode Manifest} `{!BincodeLaws Manifest}.

Lemma load_bytes_ok m : load_bytes (manifest_bytes m) = Ok (Some m).
Proof.
  unfold load_bytes, manifest_bytes. assert (length (u32_le (crc32 (serialize m))) = 4%nat) as H4
    by apply length_to_le.
  rewrite length_app, H4. destruct (Nat.ltb_spec (length (serialize m) + 4) 4); [lia|].
  rewrite Nat.add_sub, take_app_length, drop_app_length, from_u32_le, N.eqb_refl by apply crc32_u32.
  simpl. by rewrite deserialize_serialize.
Qed.

Lemma load_first_none f fs d : d !! f = None → load_first (f :: fs) d = load_first fs d.
Proof. intros Hf. cbn [load_first]. by rewrite Hf. Qed.

Lemma load_first_some f fs d x r :
  d !! f = Some x → load_bytes (f_data x) = Ok r →
  load_first (f :: fs) d = match r with Some m => Ok (Some m) | None => load_first fs d end.
Proof.
  intros Hf Hr. cbn [load_first]. unfold read_file, mbind, Res_bind. rewrite Hf, Hr. by destruct r.
Qed.

Lemma load_catalog d m : catalog d m →
  load d = Ok (Some m) ∨ (m = manifest_default ∧ load d = Ok None).
Proof.
  unfold load. intros [[Hm|(-> & Hn & Ht)]|[Hn Hm]].
  - left. by rewrite (load_first_some _ _ _ _ _ Hm (load_bytes_ok m)).
  - right. split; [done|]. rewrite load_first_none by done. destruct (d !! FTmp) as [x|] eqn:Hx.
    + by rewrite (load_first_some _ _ _ _ None Hx (proj2 Ht)).
    + by rewrite load_first_none.
  - left. rewrite load_first_none by done. by rewrite (load_first_some _ _ _ _ _ Hm (load_bytes_ok m)).
Qed.

(** The file operations of [save]. *)
Definition save_ops (present : bool) (m : Manifest) : list fs_op :=
  [Create FTmp; Append FTmp (manifest_bytes m); Sync FTmp]
  ++ (if present then [Remove FManifest] else []) ++ [Rename FTmp FManifest].

Lemma save_io m d :
  save m d = (Ok tt, save_ops (bool_decide (is_Some (d !! FManifest))) m).
Proof.
  unfold save, save_ops, mbind, IO_bind. cbn -[manifest_bytes bool_decide].
  rewrite lookup_alter_ne, lookup_alter_ne, lookup_insert_ne by done.
  by destruct (bool_decide _).
Qed.

Lemma save_within m d : Forall (within (λ f, f = FTmp ∨ f = FManifest)) (save m d).2.
Proof. rewrite save_io. unfold save_ops. simpl. destruct (bool_decide _); simpl;
  rewrite !Forall_cons; simpl; auto 10. Qed.

(** Once [save] is done, its manifest is installed, whatever was there. *)
Lemma save_installs m d : manifest_at (after (save m) d) FManifest m.
Proof.
  unfold after, manifest_at. rewrite save_io. unfold save_ops. simpl.
  rewrite !alter_insert_eq. simpl.
  destruct (bool_decide _); simpl; [rewrite lookup_delete_ne by done|]; by simplify_map_eq.
Qed.

(** ** Crashes *)

Lemma cut_manifest_at d d' f m : cut d d' → manifest_at d f m → manifest_at d' f m.
Proof. intros Hc Hm. by eapply cut_synced. Qed.

Lemma cut_None d d' f : cut d d' → d !! f = None → d' !! f = None.
Proof. intros Hc Hf. pose proof (cut_lookup _ _ f Hc) as Hl. by rewrite Hf in Hl. Qed.

Lemma cut_no_manifest d d' : cut d d' → no_manifest d → no_manifest d'.
Proof.
  intros Hc [Hn Ht]. split; [by eapply cut_None|]. destruct (d !! FTmp) as [x|] eqn:Hx.
  - rewrite (cut_synced _ _ _ _ Hc Hx); [done|]. apply Ht.
  - by rewrite (cut_None _ _ _ Hc Hx).
Qed.

Lemma cut_installed d d' m : cut d d' → installed d m → installed d' m.
Proof.
  intros Hc [Hm|[-> Hn]]; [left|right]; [by eapply cut_manifest_at|]. split; [done|].
  by eapply cut_no_manifest.
Qed.

Lemma cut_catalog d d' m : cut d d' → catalog d m → catalog d' m.
Proof.
  intros Hc [Hi|[Hn Hm]]; [left|right]; [by eapply cut_installed|].
  split; [by eapply cut_None|by eapply cut_manifest_at].
Qed.

(** ** Crashes that leave a manifest *)

Lemma same_manifest_load d d' : same_manifest d d' → load d' = load d.
Proof. intros [H1 H2]. unfold load. cbn [load_first]. unfold read_file. by rewrite H1, H2. Qed.

Lemma rests_refl d : rests d d.
Proof. by right. Qed.

Lemma rests_trans d1 d2 d3 : rests d1 d2 → rests d2 d3 → rests d1 d3.
Proof.
  intros H1 [H2|[H2 H3]]; [by left|]. destruct H1 as [H1|[H4 H5]]; [left; by rewrite H2|].
  right. split; congruence.
Qed.

Lemma rests_within P d ops : Forall (within P) ops → ¬ P FManifest → ¬ P FTmp → rests d (apply_ops d ops).
Proof. intros Hw H1 H2. right. split; by apply (within_other _ _ _ _ Hw). Qed.

Lemma manifest_kept_later d d1 dv d' : rests d d1 → manifest_kept d dv d' → manifest_kept d1 dv d'.
Proof.
  intros [Hm|Hs] Hk; [by left|]. unfold manifest_kept in *. by rewrite (same_manifest_load _ _ Hs), (proj1 Hs).
Qed.

Lemma outage_crashes d ops d' : outage d ops d' → crashes d ops d'.
Proof. intros (ops1 & ops2 & ? & ? & _). by exists ops1, ops2. Qed.

Lemma outage_app d ops1 ops2 d' :
  rests d (apply_ops d ops1) → outage d (ops1 ++ ops2) d' → outage d ops1 d' ∨ outage (apply_ops d ops1) ops2 d'.
Proof.
  intros Hr (o1 & o2 & Heq & Hc & Hk). apply app_eq_inv in Heq as [(k & -> & ->)|(k & -> & ->)].
  - left. by exists o1, k.
  - right. rewrite apply_ops_app in Hc, Hk. exists k, o2. split; [done|]. split; [done|].
    by eapply manifest_kept_later.
Qed.

(** A crash while the manifest is in place is one of these. *)
Lemma crashes_outage d ops d' m : manifest_at d FManifest m → crashes d ops d' → outage d ops d'.
Proof. intros Hm (ops1 & ops2 & ? & ?). exists ops1, ops2. split_and!; [done..|]. left. by rewrite Hm. Qed.

Lemma catalog_in_place d m : catalog d m → is_Some (d !! FManifest) → manifest_at d FManifest m.
Proof. intros [[Hm|(_ & Hn & _)]|[Hn _]] [x Hx]; [done|congruence..]. Qed.

Lemma load_tmp_none d x :
  d !! FManifest = None → d !! FTmp = Some x → load d = Ok None → load_bytes (f_data x) = Ok None.
Proof.
  intros Hn Hx. unfold load. rewrite load_first_none by done. cbn [load_first]. unfold read_file, mbind, Res_bind.
  rewrite Hx. by destruct (load_bytes (f_data x)) as [[m|]|].
Qed.

(** The temporary file holds none or all of the new manifest. *)
Lemma partial_save_crash d d' m m' data n :
  let dv := <[FTmp := mkFile data n]> d in
  catalog d m → data = [] ∨ data = manifest_bytes m' → cut dv d' → manifest_kept d dv d' →
  catalog d' m ∨ catalog d' m'.
Proof.
  intros dv Hcat Hdata Hc Hk. assert (dv !! FManifest = d !! FManifest) as Hsame by (by apply lookup_insert_ne).
  destruct (d !! FManifest) as [y|] eqn:Hm.
  { left. left. left. eapply cut_manifest_at; [exact Hc|]. unfold manifest_at. rewrite Hsame, <-Hm.
    by apply catalog_in_place. }
  pose proof (cut_None _ _ _ Hc Hsame) as Hn'. pose proof (cut_lookup _ _ FTmp Hc) as Ht.
  unfold dv in Ht. rewrite lookup_insert_eq in Ht. destruct Ht as (y & Hy & k & _ & ->). simpl in Hy.
  destruct Hk as [[? ?]|[[? ?]|[(x & m1 & Hx & Hl & Hd)|[Hl Hl']]]]; [congruence..| |].
  - unfold dv in Hx. rewrite lookup_insert_eq in Hx. injection Hx as <-. simpl in Hl, Hd.
    destruct Hdata as [-> | ->]; [done|]. rewrite Hy in Hd. simpl in Hd. injection Hd as Hd.
    right. right. split; [done|]. unfold manifest_at. by rewrite Hy, Hd.
  - destruct (load_catalog _ _ Hcat) as [?|[-> _]]; [congruence|]. left. left. right. split; [done|]. split; [done|].
    rewrite Hy. split; [done|]. by eapply load_tmp_none in Hl'.
Qed.

(** The manifest is whole in one of its files. *)
Definition whole_manifest (d : Dir) (m : Manifest) : Prop :=
  manifest_at d FManifest m ∨ (d !! FManifest = None ∧ manifest_at d FTmp m).

Lemma whole_manifest_load d m : whole_manifest d m → load d = Ok (Some m).
Proof.
  unfold load. intros [Hm|[Hn Hm]]; [|rewrite load_first_none by done];
    by rewrite (load_first_some _ _ _ _ _ Hm (load_bytes_ok m)).
Qed.

(** Where a crash cuts [save]: before it, while it writes the temporary file, or
    once that file is on the disk. *)
Lemma save_cut d d' m' ops1 ops2 :
  (save m' d).2 = ops1 ++ ops2 → cut (apply_ops d ops1) d' →
  ops1 = [] ∨ (∃ data n, (data = [] ∨ data = manifest_bytes m') ∧ apply_ops d ops1 = <[FTmp := mkFile data n]> d)
  ∨ whole_manifest d' m'.
Proof.
  rewrite save_io. unfold save_ops. intros Hops Hc. cbn [snd] in Hops.
  destruct ops1 as [|o1 ops1]; [by left|right]. injection Hops as <- Hops.
  destruct ops1 as [|o2 ops1]; [left; exists [], 0%nat; auto|]. injection Hops as <- Hops.
  destruct ops1 as [|o3 ops1].
  { left. eexists _, _. split; [by right|]. unfold apply_ops. simpl. by rewrite alter_insert_eq. }
  injection Hops as <- Hops. destruct ops1 as [|o4 ops1].
  { left. eexists _, _. split; [by right|]. unfold apply_ops. simpl. by rewrite !alter_insert_eq. }
  right. case_bool_decide; cbn [app] in Hops; injection Hops as <- Hops.
  - destruct ops1 as [|o5 ops1].
    + right. split; [eapply cut_None|eapply cut_manifest_at]; [exact Hc| |exact Hc|];
        unfold apply_ops, manifest_at; simpl; rewrite !alter_insert_eq; by simplify_map_eq.
    + injection Hops as <- Hops. symmetry in Hops. apply app_eq_nil in Hops as [-> _]. left.
      eapply cut_manifest_at; [exact Hc|]. unfold apply_ops, manifest_at. simpl. rewrite !alter_insert_eq. simpl.
      rewrite lookup_delete_ne by done. by simplify_map_eq.
  - symmetry in Hops. apply app_eq_nil in Hops as [-> _]. left. eapply cut_manifest_at; [exact Hc|].
    unfold apply_ops, manifest_at. simpl. rewrite !alter_insert_eq. by simplify_map_eq.
Qed.

Lemma save_crash d d' m m' :
  catalog d m → outage d (save m' d).2 d' → catalog d' m ∨ catalog d' m'.
Proof.
  intros Hcat (ops1 & ops2 & Hops & Hc & Hk).
  destruct (save_cut _ _ _ _ _ Hops Hc) as [->|[(data & n & Hd & Heq)|[?|?]]].
  - left. by eapply cut_catalog.
  - rewrite Heq in Hc, Hk. by eapply partial_save_crash.
  - right. left. by left.
  - right. by right.
Qed.

(** C35: a rewrite of the manifest is atomic while [MANIFEST] is in place. Whatever
    temporary file an earlier crash left behind, [save] ends with the new manifest
    installed, and a crash between any two of its file operations, with unsynced
    bytes lost, leaves a directory on which [load] answers the old manifest or the
    new one. *)
Theorem manifest_rewrite_atomic d m m' :
  manifest_at d FManifest m →
  (save m' d).1 = Ok tt ∧ load (after (save m') d) = Ok (Some m') ∧
  ∀ d', crashes d (save m' d).2 d' → load d' = Ok (Some m) ∨ load d' = Ok (Some m').
Proof.
  intros Hm. split; [by rewrite save_io|]. split.
  { apply whole_manifest_load. left. apply save_installs. }
  intros d' (ops1 & ops2 & Hops & Hc).
  assert (manifest_at (apply_ops d ops1) FManifest m → load d' = Ok (Some m)) as Hold.
  { intros Hat. apply whole_manifest_load. left. by eapply cut_manifest_at. }
  destruct (save_cut _ _ _ _ _ Hops Hc) as [->|[(data & n & _ & Heq)|Hw]].
  - left. by apply Hold.
  - left. apply Hold. rewrite Heq. unfold manifest_at. by rewrite lookup_insert_ne.
  - right. by apply whole_manifest_load.
Qed.

(** C37: The fallback to the temporary file covers one crash, not two. From any
    directory with an installed manifest, a rewrite can crash after the old file
    is removed, which [load] heals by reading the temporary file; the next
    rewrite starts by truncating that file, and a crash there leaves no manifest
    at all: [load] answers that there is none, and every table is forgotten. *)
Theorem second_crash_loses_manifest d m0 m1 m2 :
  manifest_at d FManifest m0 →
  ∃ d1 d2, crashes d (save m1 d).2 d1 ∧ load d1 = Ok (Some m1)
    ∧ crashes d1 (save m2 d1).2 d2 ∧ load d2 = Ok None.
Proof.
  intros Hm0.
  set (ops1 := [Create FTmp; Append FTmp (manifest_bytes m1); Sync FTmp; Remove FManifest]).
  set (d1 := sync_all (apply_ops d ops1)). set (d2 := sync_all (apply_ops d1 [Create FTmp])).
  assert (d1 !! FManifest = None) as Hn1.
  { unfold d1, sync_all, ops1. rewrite lookup_fmap. simpl. by rewrite lookup_delete_eq. }
  assert (manifest_at d1 FTmp m1) as Ht1.
  { unfold manifest_at, d1, sync_all, ops1. rewrite lookup_fmap. simpl. rewrite !alter_insert_eq.
    rewrite lookup_delete_ne by done. by simplify_map_eq. }
  assert (d2 !! FManifest = None) as Hn2.
  { unfold d2, sync_all. rewrite lookup_fmap. simpl. rewrite lookup_insert_ne by done. by rewrite Hn1. }
  assert (d2 !! FTmp = Some (mkFile [] 0)) as Ht2.
  { unfold d2, sync_all. rewrite lookup_fmap. simpl. by rewrite lookup_insert_eq. }
  exists d1, d2. rewrite !save_io. split_and!.
  - exists ops1, [Rename FTmp FManifest]. split; [|apply cut_sync_all].
    rewrite bool_decide_true; [done|]. by rewrite Hm0.
  - destruct (load_catalog d1 m1) as [?|[_ Hl]]; [by right|done|].
    unfold load in Hl. rewrite load_first_none in Hl by done.
    by rewrite (load_first_some _ _ _ _ _ Ht1 (load_bytes_ok m1)) in Hl.
  - eexists [Create FTmp], _. split; [done|]. apply cut_sync_all.
  - unfold load. rewrite load_first_none by done. by rewrite (load_first_some _ _ _ _ None Ht2).
Qed.
End facts.

(** ** A concrete checksum *)

Definition end_crc : Crc32.
Proof.
  refine {| crc32 bs := if decide (last bs = Some x02) then 0x03030303 else 0x04040404 |}.
  intros bs. by destruct (decide _).
Defined.

Section concrete_manifest.
  #[local] Existing Instance end_crc.
#[local] Instance demo_manifest_codec : Bincode Manifest := countable_bincode Manifest.
#[local] Instance demo_manifest_laws : BincodeLaws Manifest := countable_bincode_laws Manifest.

Definition demo_manifest (n : N) : Manifest := mkManifest [[]] n 0.

Definition demo_installed : Dir :=
  {[FManifest := mkFile (manifest_bytes (demo_manifest 1)) (length (manifest_bytes (demo_manifest 1)))]}.

(** With the rest of an earlier temporary file beside it. *)
Lemma manifest_rewrite_atomic_witness :
  let d := <[FTmp := mkFile [x61] 1]> demo_installed in
  load (after (save (demo_manifest 2)) d) = Ok (Some (demo_manifest 2)) ∧
  ∀ d', crashes d (save (demo_manifest 2) d).2 d' →
    load d' = Ok (Some (demo_manifest 1)) ∨ load d' = Ok (Some (demo_manifest 2)).
Proof.
  intros d. apply (manifest_rewrite_atomic d (demo_manifest 1) (demo_manifest 2)). vm_compute. reflexivity.
Defined.

Lemma second_crash_loses_manifest_witness :
  load demo_installed = Ok (Some (demo_manifest 1)) ∧
  ∃ d1 d2, crashes demo_installed (save (demo_manifest 2) demo_installed).2 d1
    ∧ load d1 = Ok (Some (demo_manifest 2))
    ∧ crashes d1 (save (demo_manifest 3) d1).2 d2 ∧ load d2 = Ok None.
Proof.
  split; [vm_compute; reflexivity|].
  apply (second_crash_loses_manifest demo_installed (demo_manifest 1)).
  vm_compute. reflexivity.
Defined.
End concrete_manifest.
