(* ===== verification/Db.v ===== *)
(** * The storage engine

    crates/storage/src/db.rs: opening with recovery, batched writes, reads and
    scans at a snapshot, flush, levelled compaction and the snapshot registry.
    The values of the engine are explicit: an operation that changes the engine
    answers the new one. [&mut self] operations that read or write files are
    computations of [IO]. *)

From S2P Require Import Prelude Order Codec Fs Wal Bloom Memtable SsTable MergeIter Manifest.
Local Open Scope N_scope.

Record Options := mkOptions {
  o_memtable_bytes : N;
  o_sync : SyncPolicy;
  o_l0_trigger : N;
  o_level_base_bytes : N;
  o_level_multiplier : N;
  o_target_table_bytes : N;
  o_block_bytes : N;
  o_bits_per_key : N;
}.

Definition options_default : Options := {|
  o_memtable_bytes := N.shiftl 4 20;
  o_sync := Always;
  o_l0_trigger := 4;
  o_level_base_bytes := N.shiftl 32 20;
  o_level_multiplier := 10;
  o_target_table_bytes := N.shiftl 4 20;
  o_block_bytes := 4096;
  o_bits_per_key := 10;
|}.

(** [usize::MAX]. *)
Definition usize_max : N := 2 ^ 64 - 1.

(** The registry counts the live snapshots of each sequence number. *)
Record Db := mkDb {
  db_opts : Options;
  db_mem : MemTable;
  db_levels : list (list SsTable);
  db_manifest : Manifest;
  db_seq : N;
  db_snapshots : gmap N N;
}.

Definition set_mem (m : MemTable) (seq : N) (db : Db) : Db :=
  mkDb (db_opts db) m (db_levels db) (db_manifest db) seq (db_snapshots db).
Definition set_tables (levels : list (list SsTable)) (m : Manifest) (db : Db) : Db :=
  mkDb (db_opts db) (db_mem db) levels m (db_seq db) (db_snapshots db).
Definition set_snapshots (s : gmap N N) (db : Db) : Db :=
  mkDb (db_opts db) (db_mem db) (db_levels db) (db_manifest db) (db_seq db) s.

(** [Iterator::min], and the first key of a [BTreeMap] with integer keys. *)
Definition min_of (l : list N) : option N :=
  foldr (λ x acc, Some (from_option (N.min x) x acc)) None l.

(** ** Snapshots *)

Definition snapshot (db : Db) : N * Db :=
  (db_seq db, set_snapshots (<[db_seq db := default 0 (db_snapshots db !! db_seq db) + 1]> (db_snapshots db)) db).

Definition drop_snapshot (seq : N) (db : Db) : Db :=
  match db_snapshots db !! seq with
  | None => db
  | Some c =>
    set_snapshots (if c - 1 =? 0 then delete seq (db_snapshots db)
                   else <[seq := c - 1]> (db_snapshots db)) db
  end.

Definition min_snapshot (db : Db) : N :=
  default (db_seq db) (min_of (fst <$> map_to_list (db_snapshots db))).

Section db.
  Context `{Crc32} `{Bincode WalBatch} `{Bincode TableIndex} `{Bincode Manifest}.

(** ** Reads *)

(** The tables of level 0 overlap: the newest version found wins. *)
Definition better (best r : option (N * option bytes)) : option (N * option bytes) :=
  match r with
  | None => best
  | Some (s, v) =>
    match best with
    | Some (bs, _) => if bs <? s then Some (s, v) else best
    | None => Some (s, v)
    end
  end.

Fixpoint get_l0 (d : Dir) (key : bytes) (snapshot : N) (level : list SsTable)
    (best : option (N * option bytes)) : Res (option (N * option bytes)) :=
  match level with
  | [] => Ok best
  | t :: level =>
    r ← table_get d t key snapshot;
    get_l0 d key snapshot level (better best r)
  end.

Definition get_level (d : Dir) (key : bytes) (snapshot : N) (level : list SsTable)
    : Res (option (N * option bytes)) :=
  let idx := partition_point (λ t, bool_decide (bytes_lt (max_key t) key)) level in
  match level !! idx with
  | Some t => if decide (bytes_le (min_key t) key) then table_get d t key snapshot else Ok None
  | None => Ok None
  end.

Fixpoint get_levels (d : Dir) (key : bytes) (snapshot : N) (li : nat) (levels : list (list SsTable))
    : Res (option bytes) :=
  match levels with
  | [] => Ok None
  | level :: levels =>
    best ← match li with
           | O => get_l0 d key snapshot level None
           | S _ => get_level d key snapshot level
           end;
    match best with
    | Some (_, v) => Ok v
    | None => get_levels d key snapshot (S li) levels
    end
  end.

Definition get_at (db : Db) (key : bytes) (snapshot : N) (d : Dir) : Res (option bytes) :=
  match mt_get (db_mem db) key snapshot with
  | Some v => Ok v
  | None => get_levels d key snapshot 0 (db_levels db)
  end.

Definition db_get (db : Db) (key : bytes) (d : Dir) : Res (option bytes) :=
  get_at db key (db_seq db) d.

Definition past_end (end_ : option bytes) (k : bytes) : bool :=
  match end_ with Some e => bool_decide (bytes_le e k) | None => false end.

(** The loop of [scan_at]. *)
Fixpoint scan_loop (fuel : nat) (d : Dir) (start : bytes) (end_ : option bytes) (limit : N)
    (it : VisibleIter) (out : list (bytes * bytes)) : Res (list (bytes * bytes)) :=
  match fuel with
  | O => fail NoFuel
  | S fuel' =>
    '(r, it) ← visible_next fuel d it;
    match r with
    | None => Ok out
    | Some (k, v) =>
      if decide (bytes_lt k start) then scan_loop fuel' d start end_ limit it out
      else if past_end end_ k then Ok out
      else
        match v with
        | None => scan_loop fuel' d start end_ limit it out
        | Some v =>
          let out := out ++ [(k, v)] in
          if limit <=? N.of_nat (length out) then Ok out
          else scan_loop fuel' d start end_ limit it out
        end
    end
  end.

Definition scan_sources (db : Db) : list Source :=
  SMem (mt_iter (db_mem db)) :: (STable ∘ table_iter <$> concat (db_levels db)).

Definition scan_at (db : Db) (start : bytes) (end_ : option bytes) (limit snapshot : N) (d : Dir)
    : Res (list (bytes * bytes)) :=
  let inner := merge_new (scan_sources db) in
  scan_loop (S (merge_size inner)) d start end_ limit (visible_new inner snapshot) [].

Definition db_scan (db : Db) (start : bytes) (end_ : option bytes) (limit : N) (d : Dir)
    : Res (list (bytes * bytes)) :=
  scan_at db start end_ limit (db_seq db) d.

(** ** Flush *)

Definition db_flush (db : Db) : IO Db :=
  if mt_is_empty (db_mem db) then mret db
  else
    let m := db_manifest db in
    let id := mf_next_table_id m in
    '(entries, bytes, min_key, max_key) ←
      build_table id (o_block_bytes (db_opts db)) (o_bits_per_key (db_opts db)) (mt_iter (db_mem db));
    table ← reads (table_open id);
    let levels := match mf_levels m with [] => [[]] | l => l end in
    let m := mkManifest
      (alter (.++ [mkMeta id min_key max_key entries bytes]) 0%nat levels) (id + 1) (db_seq db) in
    save m;;
    match db_levels db with
    | [] => throw Panic
    | l0 :: ls =>
      wal_reset;;
      mret (set_mem mt_new (db_seq db) (set_tables ((l0 ++ [table]) :: ls) m db))
    end.

Definition level_bytes (db : Db) (i : nat) : N :=
  match mf_levels (db_manifest db) !! i with
  | Some l => foldr N.add 0 (tm_bytes <$> l)
  | None => 0
  end.

Definition level_limit (opts : Options) (i : nat) : N :=
  wrap 64 (o_level_base_bytes opts * wrap 64 (o_level_multiplier opts ^ N.of_nat (i - 1))).

(** ** Compaction *)

(** The locals of the merge loop of [compact_level]. *)
Record Compaction := mkCompaction {
  cp_builder : option TableBuilder;
  cp_builder_id : N;
  cp_next_id : N;
  cp_out_bytes : N;
  cp_cur_key : option bytes;
  cp_kept_baseline : bool;
  cp_last_written : option (bytes * N);
  cp_outputs : list TableMeta;
}.

(** [if let Some(b) = builder.take()]: finish the table and record it. *)
Definition finish_output (c : Compaction) : IO Compaction :=
  match cp_builder c with
  | None => mret c
  | Some b =>
    '(entries, bytes, mn, mx) ← builder_finish b;
    mret (mkCompaction None (cp_builder_id c) (cp_next_id c) (cp_out_bytes c) (cp_cur_key c)
      (cp_kept_baseline c) (cp_last_written c)
      (cp_outputs c ++ [mkMeta (cp_builder_id c) mn mx entries bytes]))
  end.

(** The first part of the loop's body: a new key, and with it a new table when
    the current one is large enough. *)
Definition compact_key (opts : Options) (k : bytes) (c : Compaction) : IO Compaction :=
  if decide (cp_cur_key c = Some k) then mret c
  else
    let c := mkCompaction (cp_builder c) (cp_builder_id c) (cp_next_id c) (cp_out_bytes c) (Some k)
      false (cp_last_written c) (cp_outputs c) in
    if o_target_table_bytes opts <=? cp_out_bytes c then
      c ← finish_output c;
      mret (mkCompaction (cp_builder c) (cp_builder_id c) (cp_next_id c) 0 (cp_cur_key c)
        (cp_kept_baseline c) (cp_last_written c) (cp_outputs c))
    else mret c.

(** The last part: the version is written to the current table, or to a new one. *)
Definition compact_write (opts : Options) (e : Entry) (c : Compaction) : IO Compaction :=
  let '(k, s, v) := e in
  '(b, id, next_id) ←
    match cp_builder c with
    | Some b => mret (b, cp_builder_id c, cp_next_id c)
    | None =>
      b ← builder_create (cp_next_id c) (o_block_bytes opts) (o_bits_per_key opts);
      mret (b, cp_next_id c, cp_next_id c + 1)
    end;
  let out_bytes := cp_out_bytes c + (len k + from_option len 0 v + 17) in
  b ← builder_add e b;
  mret (mkCompaction (Some b) id next_id out_bytes (cp_cur_key c) (cp_kept_baseline c)
    (Some (k, s)) (cp_outputs c)).

Definition compact_entry (opts : Options) (min_snap : N) (bottom : bool) (e : Entry) (c : Compaction)
    : IO Compaction :=
  let '(k, s, v) := e in
  c ← compact_key opts k c;
  if decide (cp_last_written c = Some (k, s)) then mret c
  else if s <=? min_snap then
    if cp_kept_baseline c then mret c
    else
      let c := mkCompaction (cp_builder c) (cp_builder_id c) (cp_next_id c) (cp_out_bytes c)
        (cp_cur_key c) true (cp_last_written c) (cp_outputs c) in
      if bool_decide (v = None) && bottom then mret c else compact_write opts e c
  else compact_write opts e c.

(** [for (k, s, v) in merged] with a body that works on files. *)
Fixpoint for_merged {A} (fuel : nat) (body : Entry → A → IO A) (srcs : list Peekable) (a : A) : IO A :=
  match fuel with
  | O => throw NoFuel
  | S fuel =>
    '(r, srcs) ← reads (λ d, merge_next d srcs);
    match r with
    | None => mret a
    | Some e => a ← body e a; for_merged fuel body srcs a
    end
  end.

(** The smallest and the largest key of the tables to compact. *)
Definition widen (src_ids : list N) (range : option bytes * option bytes) (t : SsTable)
    : option bytes * option bytes :=
  let '(min_k, max_k) := range in
  if bool_decide (st_id t ∈ src_ids) then
    (match min_k with
     | Some m => if decide (bytes_lt (min_key t) m) then Some (min_key t) else min_k
     | None => Some (min_key t)
     end,
     match max_k with
     | Some m => if decide (bytes_lt m (max_key t)) then Some (max_key t) else max_k
     | None => Some (max_key t)
     end)
  else (min_k, max_k).

Definition input_range (src_ids : list N) (level : list SsTable) : option bytes * option bytes :=
  foldl (widen src_ids) (None, None) level.

Definition pad {A} (n : nat) (levels : list (list A)) : list (list A) :=
  levels ++ replicate (n - length levels) [].

Definition level_at {A} (levels : list (list A)) (i : nat) : list A := default [] (levels !! i).

Definition picked (ids : list N) (level : list SsTable) : list SsTable :=
  filter (λ t, st_id t ∈ ids) level.

Definition source_ids (level : nat) (tables : list SsTable) : list N :=
  match level with
  | O => st_id <$> tables
  | S _ => option_list (min_of (st_id <$> tables))
  end.

Definition overlapping (min_k max_k : bytes) (tables : list SsTable) : list N :=
  st_id <$> filter (λ t, ¬ (bytes_lt (max_key t) min_k ∨ bytes_lt max_k (min_key t))) tables.

Fixpoint open_level (d : Dir) (level : list TableMeta) : Res (list SsTable) :=
  match level with
  | [] => Ok []
  | meta :: level =>
    t ← table_open (tm_id meta) d;
    ts ← open_level d level;
    Ok (t :: ts)
  end.

(** [sort_by], a stable sort by [key]. *)
Fixpoint insert_by {A} (key : A → bytes) (x : A) (l : list A) : list A :=
  match l with
  | [] => [x]
  | y :: l' => if decide (bytes_le (key y) (key x)) then y :: insert_by key x l' else x :: l
  end.

Definition sort_by {A} (key : A → bytes) (l : list A) : list A :=
  foldl (λ acc x, insert_by key x acc) [] l.

(** The tables of [level] without [src_ids], and those of the next level without
    [dst_ids] and with [outputs], in the order of [key]. *)
Definition replace_tables {A} (id : A → N) (key : A → bytes) (level : nat) (src_ids dst_ids : list N)
    (outputs : list A) (levels : list (list A)) : list (list A) :=
  alter (λ l, sort_by key (filter (λ t, id t ∉ dst_ids) l ++ outputs))
    (level + 1)%nat (alter (filter (λ t, id t ∉ src_ids)) level levels).

Fixpoint remove_tables (ids : list N) : IO unit :=
  match ids with
  | [] => mret tt
  | id :: ids => perform (Remove (FTable id));; remove_tables ids
  end.

Definition compact_level (level : nat) (db : Db) : IO Db :=
  let levels := pad (level + 2) (db_levels db) in
  let mlevels := pad (level + 2) (mf_levels (db_manifest db)) in
  let m := mkManifest mlevels (mf_next_table_id (db_manifest db)) (mf_last_seq (db_manifest db)) in
  let src := level_at levels level in
  let dst := level_at levels (level + 1) in
  let src_ids := source_ids level src in
  match src_ids with
  | [] => mret (set_tables levels m db)
  | _ =>
    match input_range src_ids src with
    | (Some min_k, Some max_k) =>
      let dst_ids := overlapping min_k max_k dst in
      let min_snap := min_snapshot db in
      let bottom := forallb (λ l, bool_decide (length l = 0%nat)) (drop (level + 2) levels) in
      let sources := STable ∘ table_iter <$> picked src_ids src ++ picked dst_ids dst in
      let merged := merge_new sources in
      c ← for_merged (S (merge_size merged)) (compact_entry (db_opts db) min_snap bottom) merged
            (mkCompaction None 0 (mf_next_table_id m) 0 None false None []);
      c ← finish_output c;
      let outputs := cp_outputs c in
      let m := mkManifest (replace_tables tm_id tm_min_key level src_ids dst_ids outputs mlevels)
        (cp_next_id c) (mf_last_seq m) in
      save m;;
      opened ← reads (λ d, open_level d outputs);
      remove_tables (src_ids ++ dst_ids);;
      mret (set_tables (replace_tables st_id min_key level src_ids dst_ids opened levels) m db)
    | _ => throw Panic
    end
  end.

(** The first level over its budget, from level [i] on. *)
Fixpoint over_limit (db : Db) (i n : nat) : option nat :=
  match n with
  | O => None
  | S n => if level_limit (db_opts db) i <? level_bytes db i then Some i else over_limit db (S i) n
  end.

Fixpoint maybe_compact (fuel : nat) (db : Db) : IO Db :=
  match fuel with
  | O => throw NoFuel
  | S fuel =>
    match db_levels db with
    | [] => throw Panic
    | l0 :: ls =>
      if o_l0_trigger (db_opts db) <=? N.of_nat (length l0) then
        db ← compact_level 0 db; maybe_compact fuel db
      else
        match over_limit db 1 (length ls) with
        | Some i => db ← compact_level i db; maybe_compact fuel db
        | None => mret db
        end
    end
  end.

Definition maybe_flush (fuel : nat) (db : Db) : IO Db :=
  if o_memtable_bytes (db_opts db) <=? mt_bytes (db_mem db) then
    db ← db_flush db; maybe_compact fuel db
  else mret db.

(** ** Writes *)

(** The loop that inserts the operations of a batch, from sequence number [s]. *)
Fixpoint insert_ops (s : N) (ops : list (bytes * option bytes)) (m : MemTable) : MemTable :=
  match ops with
  | [] => m
  | (k, v) :: ops => insert_ops (s + 1) ops (mt_insert k s v m)
  end.

Definition write_batch (fuel : nat) (ops : list (bytes * option bytes)) (db : Db) : IO (N * Db) :=
  match ops with
  | [] => mret (db_seq db, db)
  | _ =>
    let n := N.of_nat (length ops) in
    let first_seq := db_seq db + 1 in
    wal_append (o_sync (db_opts db)) (mkBatch first_seq ops);;
    let db := set_mem (insert_ops first_seq ops (db_mem db)) (first_seq + n - 1) db in
    db ← maybe_flush fuel db;
    mret (db_seq db, db)
  end.

Definition db_put (fuel : nat) (key value : bytes) : Db → IO (N * Db) :=
  write_batch fuel [(key, Some value)].
Definition db_delete (fuel : nat) (key : bytes) : Db → IO (N * Db) :=
  write_batch fuel [(key, None)].

(** ** Opening *)

Fixpoint open_levels (d : Dir) (levels : list (list TableMeta)) : Res (list (list SsTable)) :=
  match levels with
  | [] => Ok []
  | level :: levels =>
    ts ← open_level d level;
    tss ← open_levels d levels;
    Ok (ts :: tss)
  end.

(** The operations of one batch, replayed from sequence number [s]. *)
Fixpoint replay_ops (s : N) (ops : list (bytes * option bytes)) (st : MemTable * N) : MemTable * N :=
  match ops with
  | [] => st
  | (k, v) :: ops => replay_ops (s + 1) ops (mt_insert k s v st.1, N.max st.2 s)
  end.

Definition replay_batches (batches : list WalBatch) (st : MemTable * N) : MemTable * N :=
  foldl (λ st b, replay_ops (wb_first_seq b) (wb_ops b) st) st batches.

Definition db_open (fuel : nat) (opts : Options) : IO Db :=
  m ← reads load;
  let manifest := default manifest_default m in
  levels ← reads (λ d, open_levels d (mf_levels manifest));
  let levels := match levels with [] => [[]] | _ => levels end in
  batches ← replay;
  let '(mem, seq) := replay_batches batches (mt_new, mf_last_seq manifest) in
  wal_open;;
  let db := mkDb opts mem levels manifest seq ∅ in
  if o_memtable_bytes opts <=? mt_bytes mem then
    db ← db_flush db; maybe_compact fuel db
  else mret db.

Definition level_table_counts (db : Db) : list (nat * nat) :=
  imap (λ i l, (i, length l)) (db_levels db).
End db.
