(* ===== verification/LsmSpec.v ===== *)
(** * What the engine stores and answers

    The reference of the storage engine is the list of all operations ever
    written: operation [i] has sequence number [i + 1], and the engine's content
    at a sequence number is the map that the operations up to it leave ([view]).
    The engine keeps versions in layers (the memtable, then the levels); this file
    states what the layers have to satisfy for reads to agree with [view], and
    that compaction, as a change of what the layers contain, keeps it. *)

From S2P Require Import Prelude Order Memtable.
Local Open Scope N_scope.

(** ** The reference *)

Abbreviation write := (bytes * option bytes)%type.

Definition version (ws : list write) (e : Entry) : Prop :=
  ∃ i, ws !! i = Some (e.1.1, e.2) ∧ e.1.2 = N.of_nat (S i).

Definition apply_write (m : gmap bytes bytes) (w : write) : gmap bytes bytes :=
  match w.2 with Some v => <[w.1 := v]> m | None => delete w.1 m end.

Definition view (ws : list write) (t : N) : gmap bytes bytes :=
  foldl apply_write ∅ (take (N.to_nat t) ws).

Lemma apply_write_lookup m w k :
  apply_write m w !! k = if decide (w.1 = k) then w.2 else m !! k.
Proof.
  destruct w as [k' [v|]]; unfold apply_write; simpl; case_decide; subst; by simplify_map_eq.
Qed.

(** Deletions of a list of keys. *)
Lemma deletes_lookup m ks k :
  foldl apply_write m ((λ k, (k, None)) <$> ks) !! k = if decide (k ∈ ks) then None else m !! k.
Proof.
  revert m. induction ks as [|k' ks IH]; intros m; csimpl; [done|].
  rewrite IH. unfold apply_write. simpl. destruct (decide (k ∈ ks)) as [Hin|Hin].
  - by rewrite decide_True by (by right).
  - destruct (decide (k = k')) as [->|Hne].
    + rewrite lookup_delete_eq, decide_True by left. done.
    + rewrite lookup_delete_ne by done. by rewrite decide_False by set_solver.
Qed.

Lemma foldl_apply_write l k :
  (foldl apply_write ∅ l !! k = None ∧ ∀ i v, l !! i ≠ Some (k, v)) ∨
  ∃ i v, l !! i = Some (k, v) ∧ foldl apply_write ∅ l !! k = v
    ∧ ∀ j v', l !! j = Some (k, v') → (j <= i)%nat.
Proof.
  induction l as [|w l IH] using rev_ind; [by left|]. rewrite foldl_app. simpl.
  rewrite apply_write_lookup. destruct (decide (w.1 = k)) as [<-|Hne].
  - right. exists (length l), w.2. split_and!.
    + rewrite lookup_app_r, Nat.sub_diag by lia. simpl. by destruct w.
    + done.
    + intros j v' Hj. apply lookup_lt_Some in Hj. rewrite length_app in Hj. simpl in Hj. lia.
  - assert (∀ j v', (l ++ [w]) !! j = Some (k, v') → l !! j = Some (k, v')) as Hl.
    { intros j v' [?|[_ Hj]]%lookup_app_Some; [done|].
      apply list_lookup_singleton_Some in Hj as [_ ->]. done. }
    destruct IH as [[Hn Hall]|(i & v & Hi & Hv & Hmax)]; [left|right].
    + split; [done|]. intros i v Hi%Hl. by eapply Hall.
    + exists i, v. split_and!; [by apply lookup_app_l_Some|done|]. intros j v' Hj%Hl. by eapply Hmax.
Qed.

(** The content after all the operations. *)
Abbreviation content ws := (view ws (N.of_nat (length ws))).

Lemma content_app ws ops : content (ws ++ ops) = foldl apply_write (content ws) ops.
Proof. unfold view. by rewrite !Nat2N.id, !firstn_all, foldl_app. Qed.

Lemma version_take ws n e : version (take n ws) e ↔ version ws e ∧ e.1.2 ≤ N.of_nat n.
Proof.
  unfold version. split.
  - intros (i & [Hi Hlt]%lookup_take_Some & Hs). split; [by exists i|lia].
  - intros ((i & Hi & Hs) & Hle). exists i. split; [|done]. apply lookup_take_Some. split; [done|lia].
Qed.

Lemma version_app_l ws ops e : version ws e → version (ws ++ ops) e.
Proof. intros (i & Hi & Hs). exists i. split; [by apply lookup_app_l_Some|done]. Qed.

Lemma version_app ws ops e :
  version (ws ++ ops) e ↔ version ws e ∨ (version (ws ++ ops) e ∧ N.of_nat (length ws) < e.1.2).
Proof.
  split.
  - intros (i & Hi & Hs). destruct (decide (i < length ws)%nat) as [Hlt|Hge].
    + left. exists i. by rewrite lookup_app_l in Hi.
    + right. split; [by exists i|lia].
  - intros [Hv|[Hv _]]; [by apply version_app_l|done].
Qed.

Lemma version_bounds ws e : version ws e → 0 < e.1.2 ≤ N.of_nat (length ws).
Proof. intros (i & Hi%lookup_lt_Some & Hs). lia. Qed.

Lemma version_functional ws k s v v' : version ws (k, s, v) → version ws (k, s, v') → v = v'.
Proof.
  intros (i & Hi & Hs) (j & Hj & Hs'). simpl in *. assert (i = j) as -> by lia. congruence.
Qed.

(** Every key has a newest version at a snapshot, or none. *)
Lemma newest_or_none ws k t :
  (∃ s v, newest (version ws) k t s v ∧ view ws t !! k = v) ∨
  ((∀ s v, version ws (k, s, v) → t < s) ∧ view ws t !! k = None).
Proof.
  unfold view. destruct (foldl_apply_write (take (N.to_nat t) ws) k)
    as [[Hn Hall]|(i & v & [Hi Hlt]%lookup_take_Some & Hv & Hmax)]; [right|left].
  - split; [|done]. intros s v (i & Hi & Hs). simpl in *.
    destruct (decide (s ≤ t)) as [Hle|]; [|lia]. exfalso. apply (Hall i v).
    apply lookup_take_Some. split; [done|lia].
  - exists (N.of_nat (S i)), v. split; [|done]. split_and!; [by exists i|lia|].
    intros s' v' (j & Hj & Hs') Hle. simpl in *.
    assert (j <= i)%nat; [|lia]. apply (Hmax j v'), lookup_take_Some. split; [done|lia].
Qed.

Lemma view_newest ws k t s v : newest (version ws) k t s v → view ws t !! k = v.
Proof.
  intros Hn. destruct (newest_or_none ws k t) as [(s' & v' & Hn' & <-)|[Hno _]].
  - symmetry. eapply newest_unique; [|exact Hn|exact Hn']. apply version_functional.
  - destruct Hn as (Hv & Hle & _). apply Hno in Hv. lia.
Qed.

Lemma view_app ws ops t : t ≤ N.of_nat (length ws) → view (ws ++ ops) t = view ws t.
Proof. intros Ht. unfold view. by rewrite take_app_le by lia. Qed.

(** ** Layers *)

(** Reads at [floor] or later find what they need in [P]: the newest version when
    it is a value, and also when [P] has any older one. *)
Definition complete (ws : list write) (floor : N) (P : Entry → Prop) : Prop :=
  ∀ k t s v, floor ≤ t → newest (version ws) k t s v →
    (is_Some v → P (k, s, v)) ∧ (∀ s' v', P (k, s', v') → s' ≤ t → P (k, s, v)).

(** A layer that has a version of a key has every newer one that [Q] has. *)
Definition covers (P Q : Entry → Prop) : Prop :=
  ∀ k s v s' v', P (k, s, v) → Q (k, s', v') → s < s' → P (k, s', v').

(** What a search of one layer answers. *)
Definition layer_read (P : Entry → Prop) (k : bytes) (t : N) (r : option (N * option bytes)) : Prop :=
  match r with
  | Some (s, v) => newest P k t s v
  | None => ∀ s v, P (k, s, v) → t < s
  end.

(** A search of a complete set of versions agrees with the reference. *)
Lemma complete_read ws floor P k t r :
  (∀ e, P e → version ws e) → complete ws floor P → floor ≤ t →
  layer_read P k t r → view ws t !! k = r ≫= snd.
Proof.
  intros HP Hc Ht Hr. destruct (newest_or_none ws k t) as [(s & v & Hn & ->)|[Hno ->]].
  - destruct (Hc k t s v Ht Hn) as [Hv Hold]. destruct r as [[s' v']|]; simpl in *.
    + destruct Hr as (H1 & H2 & H3). destruct Hn as (H1' & H2' & H3').
      specialize (H3 _ _ (Hold _ _ H1 H2) H2'). specialize (H3' _ _ (HP _ H1) H2).
      assert (s = s') as -> by lia. by eapply version_functional; [exact H1'|apply HP].
    + destruct v as [v|]; [|done]. destruct Hn as (_ & Hle & _).
      specialize (Hr _ _ (Hv (mk_is_Some _ _ eq_refl))). lia.
  - destruct r as [[s v]|]; [|done]. destruct Hr as (H1 & H2 & _). apply HP, Hno in H1. lia.
Qed.

(** The first layer that answers has the newest version of all. *)
Lemma first_layer_read (P Q : Entry → Prop) k t r :
  covers P Q → layer_read P k t (Some r) → layer_read (λ e, P e ∨ Q e) k t (Some r).
Proof.
  destruct r as [s v]. intros Hc (H1 & H2 & H3). split_and!; [by left|done|].
  intros s' v' [Hp|Hq] Hle; [by eapply H3|]. destruct (decide (s' ≤ s)) as [|Hgt]; [done|].
  apply (H3 s' v'); [|done]. eapply Hc; [exact H1|exact Hq|lia].
Qed.

Lemma next_layer_read (P Q : Entry → Prop) k t r :
  layer_read P k t None → layer_read Q k t r → layer_read (λ e, P e ∨ Q e) k t r.
Proof.
  intros Hp. destruct r as [[s v]|]; simpl in *.
  - intros (H1 & H2 & H3). split_and!; [by right|done|]. intros s' v' [H|H] Hle; [|by eapply H3].
    apply Hp in H. lia.
  - intros Hq s v [H|H]; eauto.
Qed.

(** ** Compaction of level [l] into the next

    [L i] is what level [i] holds. The versions of the keys [Kl] in level [l] and
    of the keys [Kd] in the next are merged; of them, [kept] are written back to
    the next level. *)

Definition kept (input : Entry → Prop) (min_snap : N) (bottom : bool) (e : Entry) : Prop :=
  input e ∧ (min_snap < e.1.2 ∨
    (newest input e.1.1 min_snap e.1.2 e.2 ∧ ¬ (e.2 = None ∧ bottom = true))).

Section compaction.
  Context (ws : list write) (l : nat) (L L' : nat → Entry → Prop) (Kl Kd : bytes → Prop).
  Context (min_snap : N) (bottom : bool).
  Context `{!∀ k, Decision (Kl k)} `{!∀ k, Decision (Kd k)}.

Definition input (e : Entry) : Prop := (L l e ∧ Kl e.1.1) ∨ (L (S l) e ∧ Kd e.1.1).

  Hypothesis Hlow : ∀ e, L' l e ↔ L l e ∧ ¬ Kl e.1.1.
  Hypothesis Hnext : ∀ e, L' (S l) e ↔ (L (S l) e ∧ ¬ Kd e.1.1) ∨ kept input min_snap bottom e.
  Hypothesis Hother : ∀ i e, i ≠ l → i ≠ S l → L' i e ↔ L i e.
  Hypothesis Hkeys : ∀ e, L (S l) e → Kl e.1.1 → Kd e.1.1.
  Hypothesis Hbottom : bottom = true → ∀ j e, (S l < j)%nat → ¬ L j e.

Lemma input_level e : input e → L l e ∨ L (S l) e.
Proof. intros [[? _]|[? _]]; auto. Qed.

(** What a level holds after the compaction, by the level's position. *)
Lemma compacted_cases i e : L' i e →
  (i = l ∧ L l e ∧ ¬ Kl e.1.1) ∨ (i = S l ∧ L (S l) e ∧ ¬ Kd e.1.1) ∨
  (i = S l ∧ kept input min_snap bottom e) ∨ (i ≠ l ∧ i ≠ S l ∧ L i e).
Proof.
  destruct (decide (i = l)) as [->|]; [rewrite Hlow; tauto|].
  destruct (decide (i = S l)) as [->|]; [rewrite Hnext; tauto|]. rewrite Hother by done. auto 6.
Qed.

Lemma compacted_from i e : L' i e → ∃ j, L j e.
Proof.
  intros [(_ & ? & _)|[(_ & ? & _)|[(_ & Hk & _)|(_ & _ & ?)]]]%compacted_cases; eauto.
  apply input_level in Hk as [|]; eauto.
Qed.

(** A version of the two levels is still there, or it is an input. *)
Lemma compacted_or_input i e : L i e → (∃ j, L' j e) ∨ input e.
Proof.
  intros He. destruct (decide (i = l)) as [->|Hl].
  { destruct (decide (Kl e.1.1)); [by right; left|left]. exists l. by apply Hlow. }
  destruct (decide (i = S l)) as [->|Hn].
  { destruct (decide (Kd e.1.1)); [by right; right|left]. exists (S l). apply Hnext. by left. }
  left. exists i. by apply Hother.
Qed.

Lemma kept_newer k s v s' v' :
  kept input min_snap bottom (k, s, v) → input (k, s', v') → s < s' → kept input min_snap bottom (k, s', v').
Proof.
  intros (Hin & [Hgt|[(_ & Hle & Hmax) _]]) Hin' Hlt; simpl in *.
  - split; [done|]. left. simpl. lia.
  - split; [done|]. left. simpl. destruct (decide (s' ≤ min_snap)) as [Hs|]; [|lia].
    specialize (Hmax _ _ Hin' Hs). lia.
Qed.

Lemma compaction_covers :
  (∀ i j, (i < j)%nat → covers (L i) (L j)) → ∀ i j, (i < j)%nat → covers (L' i) (L' j).
Proof.
  intros Hc i j Hij k s v s' v' Hi Hj Hlt.
  destruct (compacted_cases _ _ Hi) as [(-> & H1 & Hk)|[(-> & H1 & Hk)|[(-> & H1)|(Hil & Hin & H1)]]].
  - apply Hlow. split; [|done]. destruct (decide (j = S l)) as [->|Hne].
    + apply (Hc l (S l)) with s v; [lia|done| |done]. apply Hnext in Hj as [[? _]|[[[_ ?]|[? _]] _]]; done.
    + apply (Hc l j) with s v; [lia|done| |done]. apply Hother; [lia|done|done].
  - apply Hnext. left. split; [|done]. apply (Hc (S l) j) with s v; [lia|done| |done].
    apply Hother; [lia..|done].
  - apply Hother in Hj; [|lia..]. apply Hnext. right. eapply kept_newer; [exact H1| |done].
    destruct H1 as [[[H1 H2]|[H1 H2]] _]; [left|right]; (split; [|done]);
      (eapply Hc; [|exact H1|exact Hj|done]); lia.
  - apply Hother; [done..|]. destruct (compacted_cases _ _ Hj)
      as [(-> & H2 & _)|[(-> & H2 & _)|[(-> & [[[H2 _]|[H2 _]] _])|(_ & _ & H2)]]];
      (eapply Hc; [|exact H1|exact H2|done]); lia.
Qed.

(** The newest version at a snapshot that is not older than [min_snap] is kept,
    unless it is a deletion at the bottom, at or below [min_snap]. *)
Lemma newest_kept t k s v :
  (∀ i e, L i e → version ws e) → min_snap ≤ t → newest (version ws) k t s v → input (k, s, v) →
  ¬ (s ≤ min_snap ∧ v = None ∧ bottom = true) → L' (S l) (k, s, v).
Proof.
  intros HL Ht (Hv & Hle & Hmax) Hin Hnd. apply Hnext. right. split; [done|]. simpl.
  destruct (decide (s ≤ min_snap)) as [Hs|]; [right|left; lia]. split; [|tauto].
  split_and!; [done..|]. intros s' v' Hin' Hle'. apply (Hmax s' v'); [|lia].
  apply input_level in Hin' as [?|?]; eauto.
Qed.

(** A deletion that was dropped left no older version behind. *)
Lemma dropped_hides k s i s' v' :
  (∀ i j, (i < j)%nat → covers (L i) (L j)) →
  input (k, s, None) → s ≤ min_snap → bottom = true → L' i (k, s', v') → s' < s →
  ∃ j, L' j (k, s, None).
Proof.
  intros Hc Hin Hs Hb Hi Hlt.
  destruct (compacted_cases _ _ Hi) as [(-> & H1 & Hk)|[(-> & H1 & Hk)|[(-> & H1)|(Hil & Hin' & H1)]]].
  - exists l. apply Hlow. split; [|done]. destruct Hin as [[_ ?]|[H2 _]]; [done|].
    eapply (Hc l (S l)); [lia|exact H1|exact H2|done].
  - exfalso. destruct Hin as [[_ H2]|[_ H2]]; [|done]. apply Hk. by apply (Hkeys _ H1).
  - exfalso. destruct H1 as (_ & [Hgt|[(_ & _ & Hmax) _]]); simpl in *; [lia|].
    specialize (Hmax _ _ Hin Hs). lia.
  - destruct (decide (S l < i)%nat) as [Hgt|]; [by destruct (Hbottom Hb i _ Hgt H1)|].
    exists i. apply Hother; [done..|].
    apply input_level in Hin as [H2|H2]; (eapply Hc; [|exact H1|exact H2|done]); lia.
Qed.

Lemma compaction_complete floor :
  (∀ i e, L i e → version ws e) → (∀ i j, (i < j)%nat → covers (L i) (L j)) →
  complete ws floor (λ e, ∃ i, L i e) → complete ws (N.max floor min_snap) (λ e, ∃ i, L' i e).
Proof.
  intros HL Hcov Hc k t s v Ht Hn. destruct (Hc k t s v ltac:(lia) Hn) as [Hv Hold]. split.
  - intros Hs. destruct (Hv Hs) as [i Hi]. destruct (compacted_or_input _ _ Hi) as [|Hin]; [done|].
    exists (S l). apply (newest_kept t); [done|lia|done..|]. intros (_ & -> & _). by destruct Hs.
  - intros s' v' [i Hi] Hle. destruct (compacted_from _ _ Hi) as [j Hj].
    destruct (Hold s' v' (ex_intro _ _ Hj) Hle) as [i0 Hi0].
    destruct (compacted_or_input _ _ Hi0) as [|Hin]; [done|].
    destruct (decide (s ≤ min_snap ∧ v = None ∧ bottom = true)) as [(Hs & -> & Hb)|Hnd].
    2: { exists (S l). apply (newest_kept t); [done|lia|done..]. }
    destruct Hn as (Hn & _ & Hmax). specialize (Hmax s' v' (HL _ _ Hj) Hle).
    destruct (decide (s' = s)) as [->|Hne].
    + exists i. rewrite (version_functional ws k s None v'); [done|done|by eapply HL].
    + eapply dropped_hides; [done|exact Hin|done..|exact Hi|lia].
Qed.
End compaction.
