(* ===== verification/DbRead.v ===== *)
(** * Reads of the storage engine

    The tables of the engine's levels, as they are stored, and what reading them
    answers: a level gives the newest version it has, the search through the
    levels stops at the newest of all, and a scan lists the reference map. *)

From S2P Require Import Prelude Order Codec Fs Wal Bloom Memtable SsTable SsTableFacts.
From S2P Require Import MergeIter MergeFacts Manifest Db LsmSpec.
Local Open Scope N_scope.

(** ** Stored tables *)

(** A table: open, its versions, and the counts of its entry in the manifest. *)
Record stored := mkStored {
  sd_table : SsTable;
  sd_entries : list Entry;
  sd_count : N;
  sd_bytes : N;
}.

Definition sd_meta (g : stored) : TableMeta :=
  mkMeta (st_id (sd_table g)) (min_key (sd_table g)) (max_key (sd_table g)) (sd_count g) (sd_bytes g).

Abbreviation tree := (list (list stored)).

Definition sd_id (g : stored) : N := st_id (sd_table g).

Definition in_tables (gs : list stored) (e : Entry) : Prop := ∃ g, g ∈ gs ∧ e ∈ sd_entries g.
Definition in_level (G : tree) (i : nat) (e : Entry) : Prop := ∃ l, G !! i = Some l ∧ in_tables l e.

(** All keys of one table are below all keys of the other. *)
Definition before (g h : stored) : Prop :=
  ∀ e e', e ∈ sd_entries g → e' ∈ sd_entries h → bytes_lt (key_of e) (key_of e').

Section read.
  Context `{Crc32} `{Bincode TableIndex}.

Record stored_ok (d : Dir) (g : stored) : Prop := {
  so_open : table_open (sd_id g) d = Ok (sd_table g);
  so_holds : holds d (sd_table g) (sd_entries g);
  so_sorted : sorted (sd_entries g);
  so_synced : ∃ data, d !! FTable (sd_id g) = Some (mkFile data (length data));
}.

Lemma stored_ok_other d d' g :
  d' !! FTable (sd_id g) = d !! FTable (sd_id g) → stored_ok d g → stored_ok d' g.
Proof.
  intros Hd [H1 H2 H3 [data H4]]. split; [| |done|].
  - by rewrite (table_open_same _ _ _ Hd).
  - by eapply holds_other.
  - exists data. by rewrite Hd.
Qed.

Lemma stored_nonempty d g : stored_ok d g → sd_entries g ≠ [].
Proof. intros Hg He. pose proof (ho_min _ _ _ (so_holds _ _ Hg)) as Hm. by rewrite He in Hm. Qed.

(** The smallest and the largest key belong to entries. *)
Lemma stored_min d g : stored_ok d g →
  (∃ e, e ∈ sd_entries g ∧ key_of e = min_key (sd_table g)) ∧
  ∀ e, e ∈ sd_entries g → bytes_le (min_key (sd_table g)) (key_of e).
Proof.
  intros Hg. pose proof (ho_min _ _ _ (so_holds _ _ Hg)) as Hm. split.
  - apply fmap_Some in Hm as (e & He & ->). exists e. split; [|done]. by apply head_Some_elem_of.
  - intros e He. eapply sorted_head; [apply (so_sorted _ _ Hg)|done|done].
Qed.

Lemma stored_max d g : stored_ok d g →
  (∃ e, e ∈ sd_entries g ∧ key_of e = max_key (sd_table g)) ∧
  ∀ e, e ∈ sd_entries g → bytes_le (key_of e) (max_key (sd_table g)).
Proof.
  intros Hg. pose proof (ho_max _ _ _ (so_holds _ _ Hg)) as Hm. split.
  - apply fmap_Some in Hm as (e & He & ->). exists e. split; [|done]. by apply last_Some_elem_of.
  - intros e He. eapply sorted_last; [apply (so_sorted _ _ Hg)|done|done].
Qed.

(** ** One level *)

Lemma find_version_read es key t : sorted es → layer_read (.∈ es) key t (find_version es key t).
Proof.
  intros Hs. destruct (find_version es key t) as [[s v]|] eqn:Hf; simpl.
  - by apply find_version_Some.
  - by apply find_version_None.
Qed.

Lemma table_get_read d g key t :
  stored_ok d g → ∃ r, table_get d (sd_table g) key t = Ok r ∧ layer_read (.∈ sd_entries g) key t r.
Proof.
  intros Hg. exists (find_version (sd_entries g) key t). split.
  - apply table_get_spec; [apply (so_holds _ _ Hg)|apply (so_sorted _ _ Hg)].
  - apply find_version_read, (so_sorted _ _ Hg).
Qed.

Lemma layer_read_iff (P Q : Entry → Prop) k t r :
  (∀ s v, P (k, s, v) ↔ Q (k, s, v)) → layer_read P k t r → layer_read Q k t r.
Proof.
  intros HPQ. destruct r as [[s v]|]; simpl; unfold newest.
  - intros (H1 & H2 & H3). split_and!; [by apply HPQ|done|]. intros s' v' ?%HPQ. by eapply H3.
  - intros Hr s v ?%HPQ. by eapply Hr.
Qed.

Lemma better_read (P Q : Entry → Prop) k t best r :
  layer_read P k t best → layer_read Q k t r → layer_read (λ e, P e ∨ Q e) k t (better best r).
Proof.
  destruct r as [[s v]|], best as [[bs bv]|]; simpl; unfold newest.
  - intros (H1 & H2 & H3) (H1' & H2' & H3'). destruct (N.ltb_spec bs s) as [Hlt|Hge]; simpl; unfold newest.
    + split_and!; [by right|done|]. intros s' v' [Hp|Hq] Hle; [|by eapply H3']. specialize (H3 _ _ Hp Hle). lia.
    + split_and!; [by left|done|]. intros s' v' [Hp|Hq] Hle; [by eapply H3|]. specialize (H3' _ _ Hq Hle). lia.
  - intros Hb (H1 & H2 & H3). split_and!; [by right|done|]. intros s' v' [Hp|Hq] Hle; [|by eapply H3].
    apply Hb in Hp. lia.
  - intros (H1 & H2 & H3) Hr. split_and!; [by left|done|]. intros s' v' [Hp|Hq] Hle; [by eapply H3|].
    apply Hr in Hq. lia.
  - intros Hb Hr s v [Hp|Hq]; eauto.
Qed.

Lemma in_tables_cons g gs e : in_tables (g :: gs) e ↔ e ∈ sd_entries g ∨ in_tables gs e.
Proof. unfold in_tables. setoid_rewrite elem_of_cons. naive_solver. Qed.

Lemma in_tables_nil e : ¬ in_tables [] e.
Proof. by intros (g & ?%elem_of_nil & _). Qed.

Lemma in_tables_app gs hs e : in_tables (gs ++ hs) e ↔ in_tables gs e ∨ in_tables hs e.
Proof. unfold in_tables. setoid_rewrite elem_of_app. naive_solver. Qed.

Lemma get_l0_read d key t gs best P :
  Forall (stored_ok d) gs → layer_read P key t best →
  ∃ r, get_l0 d key t (sd_table <$> gs) best = Ok r ∧ layer_read (λ e, P e ∨ in_tables gs e) key t r.
Proof.
  intros Hgs. revert P best. induction Hgs as [|g gs Hg Hgs IH]; intros P best Hb.
  { exists best. split; [done|]. eapply layer_read_iff; [|exact Hb].
    intros s v. split; [by left|]. intros [?|?%in_tables_nil]; done. }
  rewrite fmap_cons. cbn [get_l0]. destruct (table_get_read d g key t Hg) as (r & -> & Hr).
  destruct (IH _ _ (better_read _ _ _ _ _ _ Hb Hr)) as (r' & Hr' & Hl). exists r'. split; [done|].
  eapply layer_read_iff; [|exact Hl]. intros s v. rewrite in_tables_cons. tauto.
Qed.

(** The tables of a deeper level lie one after the other: at most one is read. *)
Lemma get_level_read d key t gs :
  Forall (stored_ok d) gs → StronglySorted before gs →
  ∃ r, get_level d key t (sd_table <$> gs) = Ok r ∧ layer_read (in_tables gs) key t r.
Proof.
  unfold get_level. induction gs as [|g gs IH]; intros Hgs Hs.
  { exists None. split; [done|]. by intros s v ?%in_tables_nil. }
  apply Forall_cons in Hgs as [Hg Hgs]. apply StronglySorted_inv in Hs as [Hs Hb].
  destruct (stored_max _ _ Hg) as [(em & Hem & Hkm) Hmax]. destruct (stored_min _ _ Hg) as [_ Hmin].
  rewrite fmap_cons. cbn [partition_point]. case_bool_decide as Hlt.
  - destruct (IH Hgs Hs) as (r & Hr & Hl). exists r. split; [exact Hr|].
    eapply layer_read_iff; [|exact Hl]. intros s v. rewrite in_tables_cons. split; [by right|].
    intros [Hin|?]; [|done]. exfalso. specialize (Hmax _ Hin). by apply (cmp_nle bytes_cmp) in Hlt.
  - cbn [lookup list_lookup].
    assert (∀ s v, ¬ in_tables gs (key, s, v)) as Hafter.
    { intros s v (h & Hh & Hin). rewrite Forall_forall in Hb. specialize (Hb _ Hh _ _ Hem Hin).
      by rewrite Hkm in Hb. }
    destruct (decide (bytes_le (min_key (sd_table g)) key)) as [Hle|Hgt].
    + destruct (table_get_read d g key t Hg) as (r & -> & Hr). exists r. split; [done|].
      eapply layer_read_iff; [|exact Hr]. intros s v. rewrite in_tables_cons. split; [by left|].
      intros [?|Hin]; [done|]. by apply Hafter in Hin.
    + exists None. split; [done|]. intros s v [Hin|Hin]%in_tables_cons; [|by apply Hafter in Hin].
      by apply Hmin in Hin.
Qed.

(** ** The levels *)

(** What the levels of a tree satisfy, apart from what is on the disk. *)
Record shape (ws : list write) (floor : N) (G : tree) : Prop := {
  sh_nonempty : G ≠ [];
  sh_version : ∀ i e, in_level G i e → version ws e;
  sh_disjoint : ∀ i l, G !! S i = Some l → StronglySorted before l;
  sh_covers : ∀ i j, (i < j)%nat → covers (in_level G i) (in_level G j);
  sh_complete : complete ws floor (λ e, ∃ i, in_level G i e);
  sh_ids : NoDup (sd_id <$> concat G);
}.

Definition on_disk (d : Dir) (G : tree) : Prop := Forall (Forall (stored_ok d)) G.

Definition tables (G : tree) : list (list SsTable) :=
  fmap (M := list) (fmap (M := list) sd_table) G.

Lemma in_level_drop G i e :
  (∃ j, (i <= j)%nat ∧ in_level G j e) ↔ (∃ l, G !! i = Some l ∧ in_tables l e) ∨
    (∃ j, (S i <= j)%nat ∧ in_level G j e).
Proof.
  split.
  - intros (j & Hle & Hj). destruct (decide (j = i)) as [->|]; [by left|right].
    exists j. split; [lia|done].
  - intros [Hl|(j & Hle & Hj)]; [by exists i|]. exists j. split; [lia|done].
Qed.

Lemma get_levels_read d key t ws floor G i :
  on_disk d G → shape ws floor G →
  ∃ r, get_levels d key t i (drop i (tables G)) = Ok (r ≫= snd)
    ∧ layer_read (λ e, ∃ j, (i <= j)%nat ∧ in_level G j e) key t r.
Proof.
  intros Hd Hsh. remember (length G - i)%nat as n eqn:Hn. revert i Hn.
  induction n as [|n IH]; intros i Hn.
  { rewrite drop_ge by (unfold tables; rewrite length_fmap; lia). exists None. split; [done|].
    intros s v (j & Hj & l & Hl%lookup_lt_Some & _). lia. }
  destruct (G !! i) as [gs|] eqn:Hi; [|apply lookup_ge_None in Hi; lia].
  assert (tables G !! i = Some (sd_table <$> gs)) as Ht
    by (unfold tables; by rewrite list_lookup_fmap, Hi).
  rewrite (drop_S _ _ _ Ht). cbn [get_levels].
  pose proof (Forall_lookup_1 _ _ _ _ Hd Hi) as Hgs.
  assert (∃ r, match i with O => get_l0 d key t (sd_table <$> gs) None
    | S _ => get_level d key t (sd_table <$> gs) end = Ok r ∧ layer_read (in_tables gs) key t r)
    as (r & -> & Hr).
  { destruct i as [|i].
    - destruct (get_l0_read d key t gs None (λ _, False) Hgs) as (r & Hr & Hl); [by intros ??|].
      exists r. split; [done|]. eapply layer_read_iff; [|exact Hl]. naive_solver.
    - apply get_level_read; [done|]. by eapply sh_disjoint. }
  simpl. destruct r as [[s v]|].
  - exists (Some (s, v)). split; [done|].
    eapply (layer_read_iff (λ e, in_tables gs e ∨ ∃ j, (S i <= j)%nat ∧ in_level G j e)).
    { intros s' v'. rewrite (in_level_drop G i), Hi. naive_solver. }
    apply first_layer_read; [|done]. intros k s1 v1 s2 v2 H1 (j & Hj & H2) Hlt.
    destruct (sh_covers _ _ _ Hsh i j ltac:(lia) k s1 v1 s2 v2) as (l & Hl & Hin); [by eexists|done..|].
    by simplify_eq.
  - destruct (IH (S i) ltac:(lia)) as (r' & -> & Hl). exists r'. split; [done|].
    eapply (layer_read_iff (λ e, in_tables gs e ∨ ∃ j, (S i <= j)%nat ∧ in_level G j e)).
    { intros s' v'. rewrite (in_level_drop G i), Hi. naive_solver. }
    by apply next_layer_read.
Qed.

(** ** The memtable and the levels *)

Definition in_mem (m : MemTable) (e : Entry) : Prop := mt_map m !! e.1 = Some e.2.

(** The engine's memory and tables hold what reads of [ws] from [floor] on need. *)
Record answers (ws : list write) (floor : N) (db : Db) (d : Dir) (G : tree) : Prop := {
  an_levels : db_levels db = tables G;
  an_disk : on_disk d G;
  an_shape : ∃ ws0 floor0, shape ws0 floor0 G;
  an_version : ∀ e, in_mem (db_mem db) e ∨ (∃ i, in_level G i e) → version ws e;
  an_covers : covers (in_mem (db_mem db)) (λ e, ∃ i, in_level G i e);
  an_complete : complete ws floor (λ e, in_mem (db_mem db) e ∨ ∃ i, in_level G i e);
}.

Lemma mt_get_read m key t :
  ∃ r, mt_get m key t = snd <$> r ∧ layer_read (in_mem m) key t r.
Proof.
  exists (find_version (mt_iter m) key t). split; [apply mt_get_find|].
  eapply layer_read_iff; [|apply find_version_read, mt_iter_sorted].
  intros s v. apply elem_of_mt_iter.
Qed.

Lemma get_at_view ws floor db d G key t :
  answers ws floor db d G → floor ≤ t → get_at db key t d = Ok (view ws t !! key).
Proof.
  intros [Hl Hd (ws0 & floor0 & Hsh) Hv Hc Hcom] Ht. unfold get_at. rewrite Hl.
  destruct (get_levels_read d key t ws0 floor0 G 0 Hd Hsh) as (r & Hr & Hlr).
  rewrite drop_0 in Hr. rewrite Hr.
  assert (layer_read (λ e, ∃ i, in_level G i e) key t r) as Hlr'.
  { eapply layer_read_iff; [|exact Hlr]. intros s v. split; [naive_solver|].
    intros [j Hj]. exists j. split; [lia|done]. }
  destruct (mt_get_read (db_mem db) key t) as (rm & -> & Hrm). destruct rm as [[s v]|]; simpl.
  - rewrite (complete_read ws floor _ key t (Some (s, v)) Hv Hcom Ht); [done|].
    by apply first_layer_read.
  - rewrite (complete_read ws floor _ key t r Hv Hcom Ht); [done|]. by apply next_layer_read.
Qed.

(** ** Scans *)

(** The live pairs of a range, from a list with deletions. *)
Definition live (start : bytes) (end_ : option bytes) (vl : list (bytes * option bytes))
    : list (bytes * bytes) :=
  filter (λ kv, bytes_le start kv.1 ∧ below end_ kv.1) (omap (λ kv, (kv.1,.) <$> kv.2) vl).

Lemma live_cons start end_ k v vl :
  live start end_ ((k, v) :: vl) =
  if decide (bytes_le start k ∧ below end_ k) then option_list ((k,.) <$> v) ++ live start end_ vl
  else live start end_ vl.
Proof.
  unfold live. destruct v as [v|]; simpl.
  - rewrite filter_cons. simpl. by destruct (decide _).
  - by destruct (decide _).
Qed.

Lemma live_past start end_ k v vl :
  past_end end_ k = true → StronglySorted (key_lt bytes_cmp) ((k, v) :: vl) →
  live start end_ ((k, v) :: vl) = [].
Proof.
  destruct end_ as [e|]; [|done]. simpl. rewrite bool_decide_eq_true. intros Hle Hs.
  assert (∀ kv, kv ∈ (k, v) :: vl → ¬ bytes_lt kv.1 e) as Hall.
  { intros kv Hin. apply (cmp_nlt bytes_cmp). etrans; [exact Hle|].
    apply elem_of_cons in Hin as [->|Hin]; [reflexivity|].
    apply StronglySorted_inv in Hs as [_ Hs]. rewrite Forall_forall in Hs.
    apply (cmp_lt_le bytes_cmp). exact (Hs _ Hin). }
  unfold live. apply filter_none. intros [k' v'] Hin [_ Hb]. simpl in Hb.
  apply list_elem_of_omap in Hin as ([k0 v0] & Hin & Hv). apply Hall in Hin.
  destruct v0; simplify_eq/=. done.
Qed.

Lemma not_past_end end_ k : past_end end_ k = false → below end_ k.
Proof. destruct end_; [|done]. simpl. rewrite bool_decide_eq_false. apply (cmp_nle bytes_cmp). Qed.

Lemma scan_loop_live Q fuel d start end_ limit it out ess :
  sources_yield Q d (vi_inner it) ess → (length (merged ess) < fuel)%nat →
  N.of_nat (length out) < limit →
  let vl := visible (vi_snapshot it) (vi_current_key it) (merged ess) in
  StronglySorted (key_lt bytes_cmp) vl →
  scan_loop fuel d start end_ limit it out
    = Ok (out ++ take (N.to_nat limit - length out) (live start end_ vl)).
Proof.
  revert it out ess. induction fuel as [|fuel IH]; intros it out ess Hy Hf Hlim vl Hs; [lia|]. subst vl.
  pose proof (visible_next_yields Q (S fuel) d it ess Hy Hf) as Hn. cbn [scan_loop].
  destruct (visible _ _ (merged ess)) as [|[k v] vl'].
  { destruct Hn as (it' & ->). change (live start end_ []) with (@nil (bytes * bytes)).
    by rewrite take_nil, app_nil_r. }
  destruct Hn as (it' & ess' & -> & Hsn & Hy' & Hr & Hlen). cbn [mbind Res_bind].
  specialize (IH it'). rewrite Hsn, live_cons in *. apply StronglySorted_inv in Hs as Hs'.
  destruct Hs' as [Hs' _]. subst vl'.
  destruct (decide (bytes_lt k start)) as [Hlt|Hge].
  { rewrite (decide_False (P := bytes_le start k ∧ _)).
    - apply IH; [done|lia|done|done].
    - intros [Hle _]. by apply (cmp_nle bytes_cmp) in Hlt. }
  apply (cmp_nlt bytes_cmp) in Hge.
  destruct (past_end end_ k) eqn:Hend.
  { rewrite <-live_cons, live_past by done. by rewrite take_nil, app_nil_r. }
  rewrite (decide_True (P := bytes_le start k ∧ _)) by (split; [done|by apply not_past_end]).
  destruct v as [v|]; [|by apply IH; [|lia|..]]. cbn [fmap option_fmap option_map option_list app].
  destruct (N.leb_spec limit (N.of_nat (length (out ++ [(k, v)])))) as [Hle|Hgt];
    rewrite length_app in *; simpl in *.
  - replace (N.to_nat limit - length out)%nat with 1%nat by lia. done.
  - rewrite (IH (out ++ [(k, v)]) ess'); [|done|lia|rewrite length_app; simpl; lia|done].
    rewrite <-app_assoc, length_app. simpl.
    replace (N.to_nat limit - length out)%nat with (S (N.to_nat limit - (length out + 1)))%nat by lia.
    done.
Qed.

(** The sources of a scan give the memtable's versions and those of the tables. *)
Lemma scan_sources_yield d db G :
  db_levels db = tables G → on_disk d G →
  Forall2 (src_yields (λ _, True) d) (scan_sources db)
    (mt_iter (db_mem db) :: (sd_entries <$> concat G)).
Proof.
  intros Hl Hd. unfold scan_sources. constructor; [done|]. rewrite Hl. unfold tables.
  assert (concat (fmap (M := list) (fmap (M := list) sd_table) G) = sd_table <$> concat G) as ->.
  { clear. induction G as [|gs G IH]; [done|]. csimpl. by rewrite fmap_app, IH. }
  rewrite Forall2_fmap, Forall2_fmap_l. apply Forall_Forall2_diag.
  apply Forall_concat. eapply Forall_impl; [exact Hd|]. intros gs Hgs.
  eapply Forall_impl; [exact Hgs|]. intros g Hg. split; [done|]. apply table_iter_yields, (so_holds _ _ Hg).
Qed.

Lemma elem_of_scan db (G : tree) e :
  e ∈ merged (mt_iter (db_mem db) :: (sd_entries <$> concat G)) ↔
  in_mem (db_mem db) e ∨ ∃ i, in_level G i e.
Proof.
  destruct e as [[k s] v]. rewrite elem_of_merged. setoid_rewrite elem_of_cons.
  setoid_rewrite list_elem_of_fmap. setoid_rewrite elem_of_concat. split.
  - intros (es & [->|(g & -> & gs & Hgs & Hg)] & He); [left; by apply elem_of_mt_iter|right].
    apply list_elem_of_lookup in Hgs as [i Hi]. exists i, gs. split; [done|]. by exists g.
  - intros [Hm|(i & gs & Hi & g & Hg & He)].
    + eexists. split; [by left|]. by apply elem_of_mt_iter.
    + exists (sd_entries g). split; [right|done]. exists g. split; [done|]. exists gs.
      split; [by eapply list_elem_of_lookup_2|done].
Qed.

(** A list has a newest version of a key at a snapshot, or none. *)
Lemma layer_read_total (es : list Entry) k t : ∃ r, layer_read (.∈ es) k t r.
Proof.
  induction es as [|[[k0 s0] v0] es [r Hr]].
  { exists None. by intros s v ?%elem_of_nil. }
  exists (better r (if decide (k0 = k ∧ s0 ≤ t) then Some (s0, v0) else None)).
  eapply (layer_read_iff (λ e, e ∈ es ∨ e = (k0, s0, v0))).
  { intros s v. rewrite elem_of_cons. tauto. }
  apply better_read; [done|]. case_decide as Hd; simpl.
  - destruct Hd as [-> Hle]. split_and!; [done..|]. by intros s' v' [= -> ->].
  - intros s v [= -> -> ->]. apply N.nle_gt. intros Hle. by apply Hd.
Qed.

Lemma omap_sorted (vl : list (bytes * option bytes)) :
  StronglySorted (key_lt bytes_cmp) vl →
  StronglySorted (key_lt bytes_cmp) (omap (λ kv, (kv.1,.) <$> kv.2) vl : list (bytes * bytes)).
Proof.
  induction 1 as [|[k v] vl Hs IH Hall]; [constructor|]. simpl.
  destruct v as [v|]; [|done]. simpl. constructor; [done|]. apply Forall_forall.
  intros [k' v'] ([k0 v0] & Hin & Hv)%list_elem_of_omap. destruct v0; simplify_eq/=.
  rewrite Forall_forall in Hall. exact (Hall _ Hin).
Qed.

Lemma scan_functional ws floor db d G :
  answers ws floor db d G → functional (merged (mt_iter (db_mem db) :: (sd_entries <$> concat G))).
Proof.
  intros Ha k s v v' H1 H2. apply (version_functional ws k s);
    apply (an_version _ _ _ _ _ Ha); by apply (elem_of_scan db G).
Qed.

Lemma scan_at_view ws floor db d G start end_ limit t :
  answers ws floor db d G → floor ≤ t → 0 < limit →
  scan_at db start end_ limit t d = Ok (take (N.to_nat limit) (kv_range (view ws t) start end_)).
Proof.
  intros Ha Ht Hlim. unfold scan_at. pose proof (an_disk _ _ _ _ _ Ha) as Hd.
  pose proof (scan_sources_yield d db G (an_levels _ _ _ _ _ Ha) Hd) as Hy.
  apply sources_yield_new in Hy. pose proof (sources_yield_size _ _ _ _ Hy) as Hsz.
  set (ess := mt_iter (db_mem db) :: (sd_entries <$> concat G)) in *.
  pose proof (scan_functional _ _ _ _ _ Ha) as Hfun. fold ess in Hfun.
  assert (merge_sorted (merged ess)) as Hms.
  { apply merged_sorted. constructor; [apply mt_iter_sorted|]. apply Forall_fmap, Forall_concat.
    eapply Forall_impl; [exact Hd|]. intros gs Hgs. eapply Forall_impl; [exact Hgs|]. by intros g []. }
  assert (from_key None (merged ess)) as Hfk by by intros ??.
  rewrite (scan_loop_live (λ _, True) _ d start end_ limit _ [] ess);
    [|done|lia|simpl; lia|by apply visible_sorted].
  simpl. rewrite Nat.sub_0_r. do 2 f_equal. unfold live, kv_range.
  f_equal. apply (key_sorted_ext bytes_cmp).
  - apply omap_sorted. by apply visible_sorted.
  - apply bt_iter_sorted. apply _.
  - intros [k v]. rewrite elem_of_bt_iter, list_elem_of_omap. split.
    + intros ([k0 v0] & Hin & Hv). destruct v0 as [v0|]; simplify_eq/=.
      apply elem_of_visible in Hin as (_ & s & Hn); [|done..].
      rewrite (complete_read ws floor _ k t (Some (s, Some v)) (an_version _ _ _ _ _ Ha)
        (an_complete _ _ _ _ _ Ha) Ht); [done|].
      eapply (layer_read_iff (.∈ merged ess)); [|exact Hn]. intros s' v'. apply (elem_of_scan db G).
    + intros Hv. exists (k, Some v). split; [|done]. apply elem_of_visible; [done..|]. split; [done|].
      destruct (layer_read_total (merged ess) k t) as [r Hr].
      rewrite (complete_read ws floor _ k t r (an_version _ _ _ _ _ Ha) (an_complete _ _ _ _ _ Ha) Ht) in Hv.
      * destruct r as [[s v']|]; simplify_eq/=. by exists s.
      * eapply (layer_read_iff (.∈ merged ess)); [|exact Hr]. intros s' v'. apply (elem_of_scan db G).
Qed.
End read.
