(* ===== verification/DbCompact.v ===== *)
(** * The merge loop of a compaction

    What the loop of [compact_level] writes: of the merged versions, every one
    newer than the oldest live snapshot and the newest at or below it, without
    duplicates ([gc]); split at key boundaries into tables that are complete on
    the disk. *)

From S2P Require Import Prelude Order Codec Fs Wal Bloom Memtable SsTable SsTableFacts.
From S2P Require Import MergeIter MergeFacts Manifest Db LsmSpec DbRead.
Local Open Scope N_scope.

(** ** Which versions are written *)

(** The current key, whether its baseline was seen, and the versions written. *)
Record GC := mkGC { gc_key : option bytes; gc_kept : bool; gc_out : list Entry }.

Section gc.
  Context (min_snap : N) (bottom : bool).

Definition gc_last (g : GC) : option (bytes * N) := fst <$> last (gc_out g).

Definition gc_step (g : GC) (e : Entry) : GC :=
  let '(k, s, v) := e in
  let kept := if decide (gc_key g = Some k) then gc_kept g else false in
  if decide (gc_last g = Some (k, s)) then mkGC (Some k) kept (gc_out g)
  else if s <=? min_snap then
    if (kept : bool) then mkGC (Some k) true (gc_out g)
    else if bool_decide (v = None) && bottom then mkGC (Some k) true (gc_out g)
    else mkGC (Some k) true (gc_out g ++ [e])
  else mkGC (Some k) kept (gc_out g ++ [e]).

Definition gc (pre : list Entry) : GC := foldl gc_step (mkGC None false []) pre.

Lemma gc_snoc pre e : gc (pre ++ [e]) = gc_step (gc pre) e.
Proof. unfold gc. by rewrite foldl_app. Qed.

(** The invariant of the loop over [pre]. *)
Record gc_ok (pre : list Entry) (g : GC) : Prop := {
  go_key : gc_key g = key_of <$> last pre;
  go_kept : gc_kept g = true ↔ ∃ k s v, gc_key g = Some k ∧ (k, s, v) ∈ pre ∧ s ≤ min_snap;
  go_sorted : sorted (gc_out g);
  go_out : ∀ e, e ∈ gc_out g ↔ kept (.∈ pre) min_snap bottom e;
}.

Lemma sorted_snoc es e : sorted es → (∀ x, x ∈ es → key_lt ikey_cmp x e) → sorted (es ++ [e]).
Proof.
  intros Hs Hlt. apply sorted_app. split_and!; [done|by repeat constructor|].
  intros x y Hx ->%list_elem_of_singleton. by apply Hlt.
Qed.

(** The largest entry of a sorted list is its last. *)
Lemma sorted_max_last es e : sorted es → e ∈ es → (∀ x, x ∈ es → ikey_le x.1 e.1) → last es = Some e.
Proof.
  destruct es as [|e' es _] using rev_ind; [by intros _ ?%elem_of_nil|].
  rewrite last_snoc. intros (_ & _ & Hlt)%sorted_app Hin Hle.
  apply elem_of_app in Hin as [Hin| ->%list_elem_of_singleton]; [|done].
  specialize (Hlt e e' Hin ltac:(by apply list_elem_of_singleton)).
  specialize (Hle e' ltac:(by apply elem_of_app; right; apply list_elem_of_singleton)).
  exfalso. by apply (cmp_nle ikey_cmp) in Hlt.
Qed.

(** Adding [e] after the smaller or equal entries [pre]. *)
Section snoc.
  Context (pre : list Entry) (k : bytes) (s : N) (v : option bytes).
  Hypothesis Hle : ∀ x, x ∈ pre → ikey_le x.1 (k, s).
  Hypothesis Hfun : functional (pre ++ [(k, s, v)]).
  Hypothesis Hsorted : merge_sorted pre.

Lemma snoc_seq s' v' : (k, s', v') ∈ pre → s ≤ s'.
Proof.
  intros Hin%Hle. apply ikey_le_iff in Hin as [Hlt|[_ ?]]; [|done]. simpl in Hlt.
  by apply (cmp_lt_irrefl bytes_cmp) in Hlt.
Qed.

Lemma elem_of_snoc x : x ∈ pre ++ [(k, s, v)] ↔ x ∈ pre ∨ x = (k, s, v).
Proof. by rewrite elem_of_app, list_elem_of_singleton. Qed.

Lemma kept_snoc x : x ∈ pre → kept (.∈ pre) min_snap bottom x ↔ kept (.∈ pre ++ [(k, s, v)]) min_snap bottom x.
Proof.
  destruct x as [[k' s'] v']. intros Hx. unfold kept. rewrite elem_of_snoc. simpl.
  enough (newest (.∈ pre) k' min_snap s' v' ↔ newest (.∈ pre ++ [(k, s, v)]) k' min_snap s' v') by tauto.
  unfold newest. split; intros (H1 & H2 & H3); split_and!; try done.
  - apply elem_of_snoc. by left.
  - intros s0 v0 [Hin|[= -> -> ->]]%elem_of_snoc Hs; [by eapply H3|]. by eapply snoc_seq.
  - intros s0 v0 Hin. apply (H3 s0 v0). apply elem_of_snoc. by left.
Qed.

Lemma snoc_dup v' : (k, s, v') ∈ pre → v' = v.
Proof. intros Hin. apply (Hfun k s); apply elem_of_snoc; auto. Qed.

Section step.
  Context (g : GC) (Hg : gc_ok pre g).

Lemma out_pre x : x ∈ gc_out g → x ∈ pre.
Proof. intros Hx. by apply (go_out _ _ Hg) in Hx as [? _]. Qed.

(** The keys seen before are below [k], unless [k] is the current one. *)
Lemma other_key : gc_key g ≠ Some k → ∀ s' v', (k, s', v') ∉ pre.
Proof.
  rewrite (go_key _ _ Hg). intros Hne s' v' Hin. clear Hg Hfun.
  destruct pre as [|e' pre' _] using rev_ind; [by apply elem_of_nil in Hin|].
  rewrite last_snoc in Hne. simpl in Hne. apply Hne. f_equal.
  apply elem_of_app in Hin as [Hin| <-%list_elem_of_singleton]; [|done].
  assert (ikey_le (k, s') e'.1) as H1.
  { change (key_le ikey_cmp (k, s', v') e'). eapply StronglySorted_app_1_elem_of; [exact Hsorted|done|].
    by apply list_elem_of_singleton. }
  assert (ikey_le e'.1 (k, s)) as H2 by (apply Hle, elem_of_app; right; by apply list_elem_of_singleton).
  unfold key_of. apply (cmp_le_antisym bytes_cmp).
  - apply ikey_le_iff in H2 as [H2|[-> _]]; [by apply (cmp_lt_le bytes_cmp)|reflexivity].
  - apply ikey_le_iff in H1 as [H1|[<- _]]; [by apply (cmp_lt_le bytes_cmp)|reflexivity].
Qed.

(** Whether the baseline of [k] was seen. *)
Lemma kept_flag :
  (if decide (gc_key g = Some k) then gc_kept g else false) = true ↔
  ∃ s' v', (k, s', v') ∈ pre ∧ s' ≤ min_snap.
Proof.
  destruct (decide (gc_key g = Some k)) as [Hk|Hk].
  - rewrite (go_kept _ _ Hg), Hk. naive_solver.
  - split; [done|]. intros (s' & v' & Hin & _). by apply (other_key Hk) in Hin.
Qed.

Lemma not_last x : gc_last g ≠ Some (k, s) → x ∈ gc_out g → key_lt ikey_cmp x (k, s, v).
Proof.
  intros Hl Hx. pose proof (Hle x (out_pre _ Hx)) as Hx'. unfold key_lt. simpl.
  apply (cmp_le_cases ikey_cmp) in Hx' as [?|Heq]; [done|]. exfalso. apply Hl.
  unfold gc_last. rewrite (sorted_max_last _ x (go_sorted _ _ Hg) Hx); [by rewrite <-Heq|].
  intros y Hy. rewrite Heq. by apply Hle, out_pre.
Qed.

(** A version that is a duplicate, shadowed or dropped. *)
Lemma gc_skip b :
  ¬ kept (.∈ pre ++ [(k, s, v)]) min_snap bottom (k, s, v) ∨ (k, s, v) ∈ pre →
  (b = true ↔ ∃ s' v', (k, s', v') ∈ pre ++ [(k, s, v)] ∧ s' ≤ min_snap) →
  gc_ok (pre ++ [(k, s, v)]) (mkGC (Some k) b (gc_out g)).
Proof.
  intros Hskip Hb. split; simpl.
  - by rewrite last_snoc.
  - rewrite Hb. naive_solver.
  - apply (go_sorted _ _ Hg).
  - intros x. rewrite (go_out _ _ Hg). split; intros Hx.
    + apply kept_snoc; [|done]. apply Hx.
    + pose proof Hx as [[Hin| ->]%elem_of_snoc _]; [by apply kept_snoc|].
      destruct Hskip as [?|Hin]; [done|by apply kept_snoc].
Qed.

Lemma gc_write b :
  kept (.∈ pre ++ [(k, s, v)]) min_snap bottom (k, s, v) → gc_last g ≠ Some (k, s) →
  (b = true ↔ ∃ s' v', (k, s', v') ∈ pre ++ [(k, s, v)] ∧ s' ≤ min_snap) →
  gc_ok (pre ++ [(k, s, v)]) (mkGC (Some k) b (gc_out g ++ [(k, s, v)])).
Proof.
  intros Hk Hl Hb. split; simpl.
  - by rewrite last_snoc.
  - rewrite Hb. naive_solver.
  - apply sorted_snoc; [apply (go_sorted _ _ Hg)|]. intros x. by apply not_last.
  - intros x. rewrite elem_of_app, list_elem_of_singleton, (go_out _ _ Hg). split.
    + intros [Hx| ->]; [|done]. apply kept_snoc; [|done]. apply Hx.
    + intros Hx. pose proof Hx as [[Hin| ->]%elem_of_snoc _]; [left; by apply kept_snoc|by right].
Qed.
End step.
End snoc.

Lemma gc_step_ok pre g k s v :
  merge_sorted (pre ++ [(k, s, v)]) → functional (pre ++ [(k, s, v)]) → gc_ok pre g →
  gc_ok (pre ++ [(k, s, v)]) (gc_step g (k, s, v)).
Proof.
  intros Hs Hf Hg. apply StronglySorted_app in Hs as (Hle & Hs & _).
  assert (∀ x, x ∈ pre → ikey_le x.1 (k, s)) as Hle'.
  { intros x Hx. apply (Hle x (k, s, v) Hx). by apply list_elem_of_singleton. }
  pose proof (kept_flag pre k s v Hle' Hf Hs g Hg) as Hflag. unfold gc_step.
  set (b := if decide (gc_key g = Some k) then _ else _) in *.
  assert (∀ b', b' = true ↔ (∃ s' v', (k, s', v') ∈ pre ∧ s' ≤ min_snap) ∨ s ≤ min_snap →
    b' = true ↔ ∃ s' v', (k, s', v') ∈ pre ++ [(k, s, v)] ∧ s' ≤ min_snap) as Hb'.
  { intros b' ->. setoid_rewrite elem_of_snoc. naive_solver. }
  destruct (decide (gc_last g = Some (k, s))) as [Hl|Hl].
  { assert ((k, s, v) ∈ pre) as Hin.
    { unfold gc_last in Hl. apply fmap_Some in Hl as ([[k' s'] v'] & Hl & [= <- <-]).
      apply last_Some_elem_of, (out_pre pre g Hg) in Hl.
      by rewrite <-(snoc_dup pre _ _ v Hf v' Hl). }
    apply gc_skip; [done..|by right|]. apply Hb'. rewrite Hflag. naive_solver. }
  destruct (N.leb_spec s min_snap) as [Hle0|Hgt].
  2: { apply gc_write; [done..| | |].
       - split; [by apply elem_of_snoc; right|by left].
       - done.
       - apply Hb'. rewrite Hflag. split; [by left|]. intros [?|?]; [done|lia]. }
  destruct b eqn:Hbv.
  { destruct (proj1 Hflag eq_refl) as (s' & v' & Hin & Hs').
    apply gc_skip; [done..| |].
    - destruct (decide ((k, s, v) ∈ pre)) as [|Hnin]; [by right|left].
      intros (_ & [Hgt|[(_ & _ & Hmax) _]]); simpl in *; [lia|].
      specialize (Hmax s' v' ltac:(apply elem_of_snoc; by left) Hs').
      pose proof (snoc_seq pre k s Hle' s' v' Hin). assert (s' = s) as -> by lia.
      apply Hnin. by rewrite <-(snoc_dup pre _ _ v Hf v' Hin).
    - apply Hb'. naive_solver. }
  assert (¬ ∃ s' v', (k, s', v') ∈ pre ∧ s' ≤ min_snap) as Hnone by (by rewrite <-Hflag).
  assert (∀ b', b' = true → b' = true ↔ ∃ s' v', (k, s', v') ∈ pre ++ [(k, s, v)] ∧ s' ≤ min_snap) as Ht.
  { intros b' Hb''. apply Hb'. naive_solver. }
  destruct (bool_decide (v = None) && bottom) eqn:Hdrop.
  - apply andb_true_iff in Hdrop as [Hv%bool_decide_eq_true Hbot]. apply gc_skip; [done..| |by apply Ht].
    left. intros (_ & [Hgt|[_ Hnd]]); simpl in *; [lia|by apply Hnd].
  - apply gc_write; [done..| |done|by apply Ht]. split; [by apply elem_of_snoc; right|right]. simpl. split.
    + split_and!; [by apply elem_of_snoc; right|done|].
      intros s' v' [Hin|[= -> _]]%elem_of_snoc Hs'; [|done]. exfalso. apply Hnone. eauto.
    + intros [-> ->]. by rewrite bool_decide_true in Hdrop.
Qed.

Lemma gc_spec pre : merge_sorted pre → functional pre → gc_ok pre (gc pre).
Proof.
  induction pre as [|[[k s] v] pre IH] using rev_ind; intros Hs Hf.
  { split; simpl; [done| |constructor|].
    - split; [done|]. by intros (k & s & v & ? & _).
    - intros e. rewrite elem_of_nil. split; [done|]. by intros [?%elem_of_nil _]. }
  rewrite gc_snoc. apply gc_step_ok; [done..|]. apply IH.
  - by apply StronglySorted_app in Hs as (_ & ? & _).
  - intros k' s' v1 v2 H1 H2. apply (Hf k' s'); apply elem_of_app; by left.
Qed.

(** No more versions are written than were read. *)
Lemma gc_length pre : (length (gc_out (gc pre)) <= length pre)%nat.
Proof.
  induction pre as [|[[k s] v] pre IH] using rev_ind; [done|]. rewrite gc_snoc, length_app. unfold gc_step.
  repeat case_match; simpl; rewrite ?length_app; simpl; lia.
Qed.
End gc.

(** ** The tables it writes *)

Definition new_table (base : N) (f : file) : Prop := ∃ id, f = FTable id ∧ base ≤ id.

Section loop.
  Context `{Crc32} `{Bincode TableIndex} `{!BincodeLaws TableIndex} (opts : Options).

Abbreviation bb := (o_block_bytes opts).
Abbreviation bpk := (o_bits_per_key opts).

(** Tables of the versions [P] are within the widths of the format. *)
Record roomy (P : Entry → Prop) : Prop := {
  ro_block : bb ≤ 2 ^ 31;
  ro_small : ∀ e, P e → entry_small e;
  ro_fits : ∀ es, es ≠ [] → sorted es → (∀ e, e ∈ es → P e) → table_fits bb bpk es;
}.

Definition sized (g : stored) : Prop := sd_bytes g = table_size bb bpk (sd_entries g).

(** The state of the loop after [g]: the tables finished, and the entries of the
    one being written. *)
Record loop_ok (base : N) (c : Compaction) (d : Dir) (outs : list stored) (cur : list Entry) (g : GC)
    : Prop := {
  lk_key : cp_cur_key c = gc_key g;
  lk_kept : cp_kept_baseline c = gc_kept g;
  lk_last : cp_last_written c = gc_last g;
  lk_out : concat (sd_entries <$> outs) ++ cur = gc_out g;
  lk_outputs : cp_outputs c = sd_meta <$> outs;
  lk_stored : Forall (stored_ok d) outs;
  lk_sized : Forall sized outs;
  lk_builder : match cp_builder c with
               | None => cur = []
               | Some b => cur ≠ [] ∧ b = builder_of (cp_builder_id c) bb bpk cur
                   ∧ writing d (cp_builder_id c) bb bpk cur
                   ∧ base ≤ cp_builder_id c < cp_next_id c
                   ∧ cp_builder_id c ∉ sd_id <$> outs
               end;
  lk_base : base ≤ cp_next_id c;
  lk_nodup : NoDup (sd_id <$> outs);
  lk_ids : ∀ o, o ∈ outs → base ≤ sd_id o < cp_next_id c;
  lk_before : StronglySorted before outs;
  lk_cur : ∀ o e e', o ∈ outs → e ∈ sd_entries o → e' ∈ cur → bytes_lt (key_of e) (key_of e');
}.

(** The finished tables end before the current key. *)
Definition below_key (outs : list stored) (key : option bytes) : Prop :=
  ∀ k o e, key = Some k → o ∈ outs → e ∈ sd_entries o → bytes_lt (key_of e) k.

Lemma stored_other_table d ops id outs :
  Forall (within (.= FTable id)) ops → id ∉ sd_id <$> outs →
  Forall (stored_ok d) outs → Forall (stored_ok (apply_ops d ops)) outs.
Proof.
  intros Hops Hid Ho. rewrite Forall_forall in Ho. apply Forall_forall. intros o Hin.
  eapply stored_ok_other; [|by apply Ho]. apply (within_other _ _ _ _ Hops). intros [= He]. apply Hid.
  rewrite <-He. by apply list_elem_of_fmap_2.
Qed.

Lemma new_within base id ops : base ≤ id → Forall (within (.= FTable id)) ops → Forall (within (new_table base)) ops.
Proof. intros Hb. apply within_impl. intros f ->. by exists id. Qed.

Lemma finish_output_io base c d outs cur g P :
  loop_ok base c d outs cur g → roomy P → sorted (gc_out g) → (∀ e, e ∈ gc_out g → P e) →
  ∃ ops outs', let c' := mkCompaction None (cp_builder_id c) (cp_next_id c) (cp_out_bytes c) (cp_cur_key c)
      (cp_kept_baseline c) (cp_last_written c) (sd_meta <$> outs') in
    finish_output c d = (Ok c', ops) ∧ Forall (within (new_table base)) ops
    ∧ loop_ok base c' (apply_ops d ops) outs' [] g.
Proof.
  intros Hl Hr Hs HP. unfold finish_output. pose proof (lk_builder _ _ _ _ _ _ Hl) as Hb.
  destruct (cp_builder c) as [b|] eqn:Hcb.
  2: { exists [], outs. subst cur. destruct c. destruct Hl. simpl in *. subst. split_and!; [done|constructor|].
       by split. }
  destruct Hb as (Hne & -> & Hw & Hid & Hnin). set (id := cp_builder_id c) in *.
  assert (Hcur : sorted cur ∧ ∀ e, e ∈ cur → P e).
  { rewrite <-(lk_out _ _ _ _ _ _ Hl) in Hs, HP. apply sorted_app in Hs as (_ & ? & _).
    split; [done|]. intros e He. apply HP, elem_of_app. by right. }
  destruct Hcur as [Hscur HPcur].
  assert (Forall entry_small cur) as Hsm by (apply Forall_forall; intros e He; apply (ro_small _ Hr); auto).
  destruct (builder_finish_io d id bb bpk cur Hw Hne Hsm (ro_fits _ Hr _ Hne Hscur HPcur))
    as (ops & n & t & Hf & Hw' & Ho & Htid & Hh & Hsyn).
  set (o := mkStored t cur n (table_size bb bpk cur)).
  assert (sd_id o = id) as Hoid by done.
  exists ops, (outs ++ [o]). rewrite (io_bind_ok _ _ _ _ _ Hf). cbn zeta.
  rewrite (lk_outputs _ _ _ _ _ _ Hl), fmap_app. split_and!.
  - simpl. unfold sd_meta at 3. simpl. by rewrite app_nil_r, Htid.
  - eapply new_within; [|exact Hw']. lia.
  - destruct Hl. split; simpl; try done.
    + rewrite fmap_app, concat_app. simpl. by rewrite !app_nil_r.
    + by rewrite fmap_app.
    + apply Forall_app. split; [by eapply stored_other_table|]. constructor; [|done].
      split; simpl; try done; by rewrite ?Hoid.
    + apply Forall_app. split; [done|]. by repeat constructor.
    + rewrite fmap_app. apply NoDup_app. split_and!; [done| |apply NoDup_singleton].
      intros x Hx ->%list_elem_of_singleton. by rewrite Hoid in Hx.
    + intros o' [?| ->%list_elem_of_singleton]%elem_of_app; [by auto|]. by rewrite Hoid.
    + apply StronglySorted_app. split_and!; [|done|by repeat constructor].
      intros o1 o2 Ho1 ->%list_elem_of_singleton e e' He He'. by eapply lk_cur0.
    + by intros ? ? ? _ _ ?%elem_of_nil.
Qed.

(** The state at key [k], before its version is looked at. *)
Definition at_key (k : bytes) (g : GC) : GC :=
  mkGC (Some k) (if decide (gc_key g = Some k) then gc_kept g else false) (gc_out g).

Lemma compact_key_io base c d outs cur g P k :
  loop_ok base c d outs cur g → below_key outs (gc_key g) → roomy P →
  sorted (gc_out g) → (∀ e, e ∈ gc_out g → P e) →
  (gc_key g ≠ Some k → ∀ e, e ∈ gc_out g → bytes_lt (key_of e) k) →
  ∃ ops c' outs' cur', compact_key opts k c d = (Ok c', ops) ∧ Forall (within (new_table base)) ops
    ∧ loop_ok base c' (apply_ops d ops) outs' cur' (at_key k g) ∧ below_key outs' (Some k).
Proof.
  intros Hl Hbelow Hr Hs HP Hnew. unfold compact_key, at_key. rewrite (lk_key _ _ _ _ _ _ Hl).
  destruct (decide (gc_key g = Some k)) as [Hk|Hk].
  { exists [], c, outs, cur. split_and!; [done|constructor| |by rewrite <-Hk].
    destruct g, Hl; simpl in *; subst; by split. }
  set (c1 := mkCompaction _ _ _ _ _ _ _ _).
  assert (loop_ok base c1 d outs cur (mkGC (Some k) false (gc_out g))) as Hl1 by (destruct Hl; by split).
  assert (∀ outs' cur' d' c', loop_ok base c' d' outs' cur' (mkGC (Some k) false (gc_out g)) →
    below_key outs' (Some k)) as Hb'.
  { intros outs' cur' d' c' Hl' k' o e [= <-] Ho He. apply (Hnew Hk).
    change (gc_out g) with (gc_out (mkGC (Some k) false (gc_out g))).
    rewrite <-(lk_out _ _ _ _ _ _ Hl'). apply elem_of_app. left. apply elem_of_concat.
    exists (sd_entries o). split; [by apply list_elem_of_fmap_2|done]. }
  destruct (_ <=? _).
  - destruct (finish_output_io _ _ _ _ _ _ P Hl1 Hr Hs HP) as (ops & outs' & Hf & Hw & Hl2).
    eexists ops, _, outs', []. rewrite (io_bind_ok _ _ _ _ _ Hf). cbn [mret IO_ret fst snd].
    rewrite app_nil_r. split_and!; [done|done| |].
    + destruct Hl2; split; done.
    + by eapply Hb'.
  - exists [], c1, outs, cur. split_and!; [done|constructor|done|by eapply Hb'].
Qed.

Lemma below_cur base c d outs cur g k s v :
  loop_ok base c d outs cur g → below_key outs (Some k) →
  ∀ o e e', o ∈ outs → e ∈ sd_entries o → e' ∈ cur ++ [(k, s, v)] → bytes_lt (key_of e) (key_of e').
Proof.
  intros Hl Hb o e e' Ho He [He'| ->%list_elem_of_singleton]%elem_of_app; [by eapply lk_cur|].
  by eapply Hb.
Qed.

(** The builder to write to, as [compact_write] finds or creates it. *)
Lemma compact_builder_io base c d outs cur g P :
  loop_ok base c d outs cur g → roomy P →
  ∃ ops id next, match cp_builder c with
      | Some b => mret (b, cp_builder_id c, cp_next_id c)
      | None =>
        b ← builder_create (cp_next_id c) bb bpk;
        mret (b, cp_next_id c, cp_next_id c + 1)
      end d = (Ok (builder_of id bb bpk cur, id, next), ops)
    ∧ Forall (within (.= FTable id)) ops ∧ writing (apply_ops d ops) id bb bpk cur
    ∧ base ≤ id < next ∧ cp_next_id c ≤ next ∧ id ∉ sd_id <$> outs.
Proof.
  intros Hl Hr. pose proof (lk_builder _ _ _ _ _ _ Hl) as Hb. pose proof (lk_base _ _ _ _ _ _ Hl) as Hbase.
  destruct (cp_builder c) as [b|].
  - destruct Hb as (Hne & -> & Hw & Hid & Hnin). exists [], (cp_builder_id c), (cp_next_id c).
    split_and!; try done; lia.
  - subst cur. destruct (builder_create_io (cp_next_id c) bb bpk d (ro_block _ Hr)) as [Hc Hw].
    exists [Create (FTable (cp_next_id c))], (cp_next_id c), (cp_next_id c + 1).
    rewrite (io_bind_ok _ _ _ _ _ Hc). split_and!; [done|by repeat constructor|done|lia..|].
    intros (o & He & Ho)%list_elem_of_fmap. apply (lk_ids _ _ _ _ _ _ Hl) in Ho. rewrite <-He in Ho. lia.
Qed.

Lemma compact_write_io base c d outs cur g P k s v :
  loop_ok base c d outs cur g → gc_key g = Some k → below_key outs (Some k) → roomy P → P (k, s, v) →
  ∃ ops c', compact_write opts (k, s, v) c d = (Ok c', ops) ∧ Forall (within (new_table base)) ops
    ∧ loop_ok base c' (apply_ops d ops) outs (cur ++ [(k, s, v)])
        (mkGC (Some k) (gc_kept g) (gc_out g ++ [(k, s, v)])).
Proof.
  intros Hl Hk Hb Hr HP. pose proof (below_cur _ _ _ _ _ _ _ s v Hl Hb) as Hcur.
  destruct (compact_builder_io _ _ _ _ _ _ _ Hl Hr) as (ops1 & id & next & Hc & Hw1 & Hwr & Hid & Hnext & Hnin).
  destruct (builder_add_io (k, s, v) _ _ _ _ _ Hwr (ro_small _ Hr _ HP)) as (ops2 & Ha & Hw2 & Hwr2).
  unfold compact_write. rewrite (io_bind_ok _ _ _ _ _ Hc).
  rewrite (io_bind_ok _ _ _ _ _ Ha). cbn [mret IO_ret fst snd].
  assert (Forall (within (.= FTable id)) (ops1 ++ ops2 ++ [])) as Hw.
  { rewrite app_nil_r. by apply Forall_app. }
  eexists _, _. split; [done|]. split; [eapply new_within; [|exact Hw]; lia|].
  destruct Hl. split; simpl; try done.
  - by rewrite lk_key0.
  - unfold gc_last. simpl. by rewrite last_snoc.
  - by rewrite app_assoc, lk_out0.
  - by eapply stored_other_table.
  - rewrite app_nil_r, apply_ops_app. split_and!; [by destruct cur|done|done|lia..|done].
  - lia.
  - intros o Ho. specialize (lk_ids0 _ Ho). lia.
Qed.

Lemma compact_entry_io base c d outs cur g P min_snap bottom k s v :
  loop_ok base c d outs cur g → below_key outs (gc_key g) → roomy P →
  sorted (gc_out g) → (∀ e, e ∈ gc_out g → P e) →
  (gc_key g ≠ Some k → ∀ e, e ∈ gc_out g → bytes_lt (key_of e) k) → P (k, s, v) →
  ∃ ops c' outs' cur', let g' := gc_step min_snap bottom g (k, s, v) in
    compact_entry opts min_snap bottom (k, s, v) c d = (Ok c', ops)
    ∧ Forall (within (new_table base)) ops
    ∧ loop_ok base c' (apply_ops d ops) outs' cur' g' ∧ below_key outs' (gc_key g').
Proof.
  intros Hl Hbelow Hr Hs HPg Hnew HP.
  destruct (compact_key_io _ _ _ _ _ _ P k Hl Hbelow Hr Hs HPg Hnew)
    as (ops1 & c1 & outs1 & cur1 & Hk & Hw1 & Hl1 & Hb1).
  unfold compact_entry. rewrite (io_bind_ok _ _ _ _ _ Hk). cbv zeta.
  rewrite (lk_last _ _ _ _ _ _ Hl1), (lk_kept _ _ _ _ _ _ Hl1). unfold gc_step. cbn [at_key gc_kept].
  change (gc_last (at_key k g)) with (gc_last g).
  set (kp := if decide (gc_key g = Some k) then gc_kept g else false) in *.
  change (at_key k g) with (mkGC (Some k) kp (gc_out g)) in Hl1. clearbody kp.
  assert (∀ b, loop_ok base (mkCompaction (cp_builder c1) (cp_builder_id c1) (cp_next_id c1)
      (cp_out_bytes c1) (cp_cur_key c1) b (gc_last g) (cp_outputs c1))
      (apply_ops d ops1) outs1 cur1 (mkGC (Some k) b (gc_out g))) as Hset
    by (intros b; destruct Hl1; by split).
  destruct (decide (gc_last g = Some (k, s))).
  { exists ops1, c1, outs1, cur1. cbn. rewrite app_nil_r. by split_and!. }
  destruct (s <=? min_snap).
  - destruct kp.
    { exists ops1, c1, outs1, cur1. cbn. rewrite app_nil_r. by split_and!. }
    destruct (bool_decide (v = None) && bottom).
    + eexists ops1, _, outs1, cur1. cbn. rewrite app_nil_r.
      split; [done|]. split; [done|]. split; [apply Hset|done].
    + edestruct (compact_write_io _ _ _ _ _ _ P k s v (Hset true)) as (ops2 & c2 & Hwr & Hw2 & Hl2); [done..|].
      rewrite Hwr. cbn [fst snd]. exists (ops1 ++ ops2), c2, outs1, (cur1 ++ [(k, s, v)]).
      rewrite apply_ops_app. split_and!; [done|by apply Forall_app|done|done].
  - edestruct (compact_write_io _ _ _ _ _ _ P k s v Hl1) as (ops2 & c2 & Hwr & Hw2 & Hl2); [done..|].
    rewrite Hwr. cbn [fst snd]. exists (ops1 ++ ops2), c2, outs1, (cur1 ++ [(k, s, v)]).
    rewrite apply_ops_app. split_and!; [done|by apply Forall_app|done|done].
Qed.

(** ** The whole loop *)

(** A rule for loops over merged sources whose body changes other files only. *)
Lemma for_merged_rule {A} Q W (body : Entry → A → IO A) (I : list Entry → A → Dir → Prop)
    fuel srcs ess pre a d :
  (∀ id, Q id → ¬ W (FTable id)) → sources_yield Q d srcs ess → (length (merged ess) < fuel)%nat →
  (∀ pre' e post a d, pre ++ merged ess = pre' ++ e :: post → I pre' a d →
     ∃ ops a', body e a d = (Ok a', ops) ∧ Forall (within W) ops ∧ I (pre' ++ [e]) a' (apply_ops d ops)) →
  I pre a d →
  ∃ ops a', for_merged fuel body srcs a d = (Ok a', ops) ∧ Forall (within W) ops
    ∧ I (pre ++ merged ess) a' (apply_ops d ops).
Proof.
  intros HQ. revert srcs ess pre a d. induction fuel as [|fuel IH]; intros srcs ess pre a d Hy Hf Hbody HI; [lia|].
  pose proof (merge_next_yields _ _ _ _ Hy) as Hm. cbn [for_merged].
  destruct (merged ess) as [|e ms] eqn:Hms.
  { destruct Hm as (srcs' & Hm). exists [], a. rewrite app_nil_r. split_and!; [|constructor|done].
    unfold reads. unfold mbind at 1, IO_bind at 1. by rewrite Hm. }
  destruct Hm as (i & es & srcs' & Hm & Hi & Hy' & ->). simpl in Hf.
  destruct (Hbody pre e _ a d eq_refl HI) as (ops1 & a1 & Hb & Hw1 & HI1).
  edestruct (IH srcs' (<[i:=es]> ess) (pre ++ [e]) a1 (apply_ops d ops1)) as (ops2 & a2 & Hf2 & Hw2 & HI2).
  - eapply sources_yield_other; [|exact Hy']. intros id Hid. apply (within_other W); [done|]. by apply HQ.
  - lia.
  - intros pre' e' post a' d' Heq. apply (Hbody pre' e' post). by rewrite <-Heq, <-app_assoc.
  - done.
  - exists (ops1 ++ ops2), a2. rewrite <-app_assoc in HI2. rewrite apply_ops_app.
    split_and!; [|by apply Forall_app|done]. unfold reads. unfold mbind at 1, IO_bind at 1. rewrite Hm.
    cbn [apply_ops foldl app]. rewrite (io_bind_ok _ _ _ _ _ Hb). by rewrite Hf2.
Qed.

Lemma loop_start base d :
  loop_ok base (mkCompaction None 0 base 0 None false None []) d [] [] (mkGC None false []).
Proof.
  split; simpl; try done.
  - apply NoDup_nil_2.
  - by intros o ?%elem_of_nil.
  - constructor.
  - by intros o e e' ?%elem_of_nil.
Qed.

Lemma compact_loop_io Q base min_snap bottom P srcs ess d fuel :
  (∀ id, Q id → id < base) → sources_yield Q d srcs ess → (length (merged ess) < fuel)%nat →
  Forall sorted ess → functional (merged ess) → (∀ e, e ∈ merged ess → P e) → roomy P →
  ∃ ops c outs,
    (c ← for_merged fuel (compact_entry opts min_snap bottom) srcs
           (mkCompaction None 0 base 0 None false None []);
     finish_output c) d = (Ok c, ops)
    ∧ Forall (within (new_table base)) ops
    ∧ loop_ok base c (apply_ops d ops) outs [] (gc min_snap bottom (merged ess)).
Proof.
  intros HQ Hy Hf Hs Hfun HP Hr. pose proof (merged_sorted _ Hs) as Hms.
  set (I := λ pre c d, ∃ outs cur, loop_ok base c d outs cur (gc min_snap bottom pre)
    ∧ below_key outs (gc_key (gc min_snap bottom pre))).
  destruct (for_merged_rule Q (new_table base) (compact_entry opts min_snap bottom) I fuel srcs ess []
    (mkCompaction None 0 base 0 None false None []) d) as (ops1 & c1 & Hfm & Hw1 & outs1 & cur1 & Hl1 & _).
  - intros id Hid (id' & [= <-] & Hle). apply HQ in Hid. lia.
  - done.
  - done.
  - intros pre [[k s] v] post c d' Heq (outs & cur & Hl & Hb). simpl in Heq. rewrite Heq in Hms, Hfun, HP.
    pose proof (StronglySorted_app_1_l _ _ _ Hms) as Hmpre.
    assert (functional pre) as Hfpre.
    { intros k' s' v1 v2 H1 H2. apply (Hfun k' s'); apply elem_of_app; by left. }
    pose proof (gc_spec min_snap bottom pre Hmpre Hfpre) as Hg.
    assert (∀ e, e ∈ gc_out (gc min_snap bottom pre) → e ∈ pre) as Hout
      by (intros e He; by apply (go_out _ _ _ _ Hg) in He as [? _]).
    assert (∀ x, x ∈ pre → ikey_le x.1 (k, s)) as Hle.
    { intros x Hx. change (key_le ikey_cmp x (k, s, v)).
      apply (StronglySorted_app_1_elem_of _ _ _ _ _ Hms Hx). left. }
    edestruct (compact_entry_io base c d' outs cur _ P min_snap bottom k s v Hl Hb Hr)
      as (ops & c' & outs' & cur' & He & Hw & Hl' & Hb').
    + apply (go_sorted _ _ _ _ Hg).
    + intros e He. apply HP, elem_of_app. left. by apply Hout.
    + intros Hk e He. specialize (Hout _ He). pose proof (Hle _ Hout) as Hle'.
      apply ikey_le_iff in Hle' as [?|[Heq' _]]; [done|]. exfalso. simpl in Heq'.
      destruct e as [[k' s'] v']. simpl in Heq'. subst k'.
      exact (other_key min_snap bottom pre k s Hle Hmpre _ Hg Hk _ _ Hout).
    + apply HP, elem_of_app. right. left.
    + exists ops, c'. split_and!; [done..|]. exists outs', cur'. rewrite gc_snoc. done.
  - exists [], []. split; [|by intros ??? ? ?%elem_of_nil].
    apply loop_start.
  - simpl in Hl1. pose proof (gc_spec min_snap bottom _ Hms Hfun) as Hg.
    destruct (finish_output_io _ _ _ _ _ _ P Hl1 Hr) as (ops2 & outs & Hfin & Hw2 & Hl2).
    + apply (go_sorted _ _ _ _ Hg).
    + intros e [He _]%(go_out _ _ _ _ Hg). by apply HP.
    + eexists (ops1 ++ ops2), _, outs. rewrite (io_bind_ok _ _ _ _ _ Hfm), Hfin. cbn [fst snd].
      rewrite apply_ops_app. split_and!; [done|by apply Forall_app|done].
Qed.
End loop.
