(* ===== verification/DbTree.v ===== *)
(** * Levels under compaction

    What [replace_tables] does to the levels: the same to the open tables and to
    their entries in the manifest, and, when the new tables hold what a compaction
    keeps, a tree with the same answers. *)

From S2P Require Import Prelude Order Codec Fs Wal Bloom Memtable SsTable SsTableFacts.
From S2P Require Import MergeIter MergeFacts Manifest Db LsmSpec DbRead DbCompact.
Local Open Scope N_scope.

(** ** Sorting *)

Lemma insert_by_fmap {A B} (f : A → B) (key : B → bytes) x l :
  insert_by key (f x) (f <$> l) = f <$> insert_by (key ∘ f) x l.
Proof. induction l as [|y l IH]; [done|]. csimpl. destruct (decide _); [by rewrite IH|done]. Qed.

Lemma sort_by_fmap {A B} (f : A → B) (key : B → bytes) l :
  sort_by key (f <$> l) = f <$> sort_by (key ∘ f) l.
Proof.
  unfold sort_by. change (@nil B) with (f <$> @nil A) at 1. generalize (@nil A).
  induction l as [|x l IH]; intros acc; [done|]. csimpl. by rewrite insert_by_fmap, IH.
Qed.

Lemma insert_by_perm {A} (key : A → bytes) x l : insert_by key x l ≡ₚ x :: l.
Proof.
  induction l as [|y l IH]; [done|]. simpl. destruct (decide _); [|done]. rewrite IH. apply Permutation_swap.
Qed.

Lemma sort_by_perm {A} (key : A → bytes) l : sort_by key l ≡ₚ l.
Proof.
  unfold sort_by. enough (∀ acc, foldl (λ acc x, insert_by key x acc) acc l ≡ₚ acc ++ l) as He by apply He.
  induction l as [|x l IH]; intros acc; simpl; [by rewrite app_nil_r|].
  rewrite IH, insert_by_perm. by rewrite <-Permutation_middle.
Qed.

Lemma insert_by_sorted {A} (key : A → bytes) x l :
  StronglySorted (λ a b, bytes_le (key a) (key b)) l →
  StronglySorted (λ a b, bytes_le (key a) (key b)) (insert_by key x l).
Proof.
  induction 1 as [|y l Hs IH Hall]; simpl; [by repeat constructor|].
  destruct (decide (bytes_le (key y) (key x))) as [Hle|Hgt].
  - constructor; [done|]. rewrite insert_by_perm. by constructor.
  - apply (cmp_nle bytes_cmp), (cmp_lt_le bytes_cmp) in Hgt.
    constructor; [by constructor|]. constructor; [done|].
    eapply Forall_impl; [exact Hall|]. intros z Hz. simpl in Hz. by etrans.
Qed.

Lemma sort_by_sorted {A} (key : A → bytes) l :
  StronglySorted (λ a b, bytes_le (key a) (key b)) (sort_by key l).
Proof.
  unfold sort_by. assert (StronglySorted (λ a b, bytes_le (key a) (key b)) (@nil A)) as Hn by constructor.
  revert Hn. generalize (@nil A). induction l as [|x l IH]; intros acc Hacc; [done|].
  simpl. by apply IH, insert_by_sorted.
Qed.

(** ** One change to tables and manifest *)

Lemma filter_fmap {A B} (f : A → B) (P : B → Prop) `{!∀ x, Decision (P x)} (l : list A) :
  filter P (f <$> l) = f <$> filter (λ x, P (f x)) l.
Proof.
  induction l as [|x l IH]; [done|]. rewrite fmap_cons, !filter_cons.
  destruct (decide (P (f x))); csimpl; by rewrite IH.
Qed.

Lemma fmap_alter {A B} (f : A → B) (g : A → A) (h : B → B) i (l : list A) :
  (∀ x, h (f x) = f (g x)) → alter h i (f <$> l) = f <$> alter g i l.
Proof. intros Hc. revert i. induction l as [|x l IH]; intros [|i]; csimpl; [done..| |]; by rewrite ?Hc, ?IH. Qed.

Lemma replace_tables_fmap {A B} (f : A → B) (id : B → N) (key : B → bytes) level src dst outs levels :
  replace_tables id key level src dst (f <$> outs) (fmap (M := list) (fmap (M := list) f) levels)
  = fmap (M := list) (fmap (M := list) f) (replace_tables (id ∘ f) (key ∘ f) level src dst outs levels).
Proof.
  unfold replace_tables. rewrite <-(fmap_alter (fmap (M := list) f)
    (λ l, sort_by (key ∘ f) (filter (λ t, (id ∘ f) t ∉ dst) l ++ outs))
    (λ l, sort_by key (filter (λ t, id t ∉ dst) l ++ (f <$> outs)))).
  - f_equal. apply fmap_alter. intros x. exact (filter_fmap f (λ t, id t ∉ src) x).
  - intros x. by rewrite (filter_fmap f (λ t, id t ∉ dst)), <-fmap_app, sort_by_fmap.
Qed.

Lemma pad_fmap {A B} (f : A → B) n (levels : list (list A)) :
  pad n (fmap (M := list) (fmap (M := list) f) levels) = fmap (M := list) (fmap (M := list) f) (pad n levels).
Proof. unfold pad. by rewrite fmap_app, length_fmap, fmap_replicate. Qed.

Lemma level_at_fmap {A B} (f : A → B) (levels : list (list A)) i :
  level_at (fmap (M := list) (fmap (M := list) f) levels) i = f <$> level_at levels i.
Proof. unfold level_at. rewrite list_lookup_fmap. by destruct (levels !! i). Qed.

Lemma level_at_pad {A} n (levels : list (list A)) i : level_at (pad n levels) i = level_at levels i.
Proof.
  unfold level_at, pad. destruct (decide (i < length levels)%nat) as [Hlt|Hge].
  - by rewrite lookup_app_l.
  - rewrite lookup_app_r, (lookup_ge_None_2 levels i) by lia.
    destruct (replicate _ _ !! _) eqn:He; [|done]. by apply lookup_replicate in He as [-> _].
Qed.

Lemma length_pad {A} n (levels : list (list A)) : length (pad n levels) = (length levels `max` n)%nat.
Proof. unfold pad. rewrite length_app, length_replicate. lia. Qed.

Lemma level_at_lookup {A} (levels : list (list A)) i l : levels !! i = Some l → level_at levels i = l.
Proof. intros Hl. unfold level_at. by rewrite Hl. Qed.

(** The level [i] of a changed list of levels. *)
Lemma level_at_alter {A} f (levels : list (list A)) i j :
  (i < length levels)%nat →
  level_at (alter f i levels) j = if decide (i = j) then f (level_at levels i) else level_at levels j.
Proof.
  intros Hlt. unfold level_at. destruct (decide (i = j)) as [<-|Hne].
  - apply lookup_lt_is_Some_2 in Hlt as [l Hl]. by rewrite list_lookup_alter_eq, Hl.
  - by rewrite list_lookup_alter_ne.
Qed.

Lemma in_level_at (G : tree) i e : in_level G i e ↔ in_tables (level_at G i) e.
Proof.
  unfold in_level, level_at. destruct (G !! i) as [l|]; simpl.
  - naive_solver.
  - split; [naive_solver|]. by intros ?%in_tables_nil.
Qed.

(** ** The inputs of a compaction *)

Lemma disjoint_same gs g g' e e' :
  StronglySorted before gs → g ∈ gs → g' ∈ gs → e ∈ sd_entries g → e' ∈ sd_entries g' →
  key_of e = key_of e' → g = g'.
Proof.
  induction 1 as [|h gs Hs IH Hall]; intros Hg Hg' He He' Hk; [by apply elem_of_nil in Hg|].
  rewrite Forall_forall in Hall.
  apply elem_of_cons in Hg as [->|Hg], Hg' as [->|Hg']; [done| | |by apply IH].
  - specialize (Hall _ Hg' _ _ He He'). rewrite Hk in Hall. by apply (cmp_lt_irrefl bytes_cmp) in Hall.
  - specialize (Hall _ Hg _ _ He' He). rewrite Hk in Hall. by apply (cmp_lt_irrefl bytes_cmp) in Hall.
Qed.

(** Two tables of a deeper level lie one after the other. *)
Lemma disjoint_cases gs g h : StronglySorted before gs → g ∈ gs → h ∈ gs → g ≠ h → before g h ∨ before h g.
Proof.
  induction 1 as [|x gs Hs IH Hall]; intros Hg Hh Hne; [by apply elem_of_nil in Hg|].
  rewrite Forall_forall in Hall.
  apply elem_of_cons in Hg as [->|Hg], Hh as [->|Hh]; [done|left; auto|right; auto|by apply IH].
Qed.

Lemma sorted_filter {A} (R : A → A → Prop) (P : A → Prop) `{!∀ x, Decision (P x)} (l : list A) :
  StronglySorted R l → StronglySorted R (filter P l).
Proof.
  induction 1 as [|x l Hs IH Hall]; [constructor|]. rewrite filter_cons.
  destruct (decide (P x)); [|done]. constructor; [done|]. rewrite Forall_forall in *.
  intros y [_ Hy]%list_elem_of_filter. by apply Hall.
Qed.

Lemma sort_before gs (key : stored → bytes) :
  NoDup gs → (∀ g h, g ∈ gs → h ∈ gs → g ≠ h → before g h ∨ before h g) →
  (∀ g h, g ∈ gs → h ∈ gs → before h g → bytes_lt (key h) (key g)) →
  StronglySorted before (sort_by key gs).
Proof.
  intros Hnd Hcmp Hkey. pose proof (sort_by_perm key gs) as Hp. rewrite <-Hp in Hnd.
  setoid_rewrite <-Hp in Hcmp. setoid_rewrite <-Hp in Hkey. clear Hp.
  induction (sort_by_sorted key gs) as [|g l Hs IH Hall]; [constructor|].
  apply NoDup_cons in Hnd as [Hnin Hnd]. rewrite Forall_forall in Hall. constructor.
  - apply IH; [done|..]; intros x y Hx Hy; [apply Hcmp|apply Hkey]; by right.
  - apply Forall_forall. intros h Hh. destruct (Hcmp g h) as [|Hb]; [left|by right|by intros ->|done|].
    specialize (Hkey g h ltac:(left) ltac:(by right) Hb). specialize (Hall _ Hh). simpl in Hall.
    by apply (cmp_nle bytes_cmp) in Hkey.
Qed.

Lemma widen_spec (ids : list N) ts acc r :
  foldl (widen ids) acc ts = r →
  (is_Some acc.1 → is_Some r.1) ∧ (is_Some acc.2 → is_Some r.2)
  ∧ (∀ m m', acc.1 = Some m → r.1 = Some m' → bytes_le m' m)
  ∧ (∀ m m', acc.2 = Some m → r.2 = Some m' → bytes_le m m')
  ∧ ∀ t, t ∈ ts → st_id t ∈ ids → ∃ mn mx, r = (Some mn, Some mx)
      ∧ bytes_le mn (min_key t) ∧ bytes_le (max_key t) mx.
Proof.
  revert acc. induction ts as [|t ts IH]; intros acc; simpl.
  { intros <-. split_and!; [done..| | |by intros t ?%elem_of_nil].
    - intros m m' -> [= <-]. reflexivity.
    - intros m m' -> [= <-]. reflexivity. }
  intros Hr. apply IH in Hr as (H1 & H2 & H3 & H4 & H5). destruct acc as [mn mx]. unfold widen in *.
  case_bool_decide as Hid; simpl in *.
  2: { split_and!; [done..|]. intros t' [->|Ht']%elem_of_cons Hid'; [done|by apply H5]. }
  set (mn' := match mn with None => _ | _ => _ end) in *. set (mx' := match mx with None => _ | _ => _ end) in *.
  assert (∃ a, mn' = Some a ∧ bytes_le a (min_key t) ∧ ∀ m, mn = Some m → bytes_le a m) as (a & Ha & Ha1 & Ha2).
  { unfold mn'. destruct mn as [m|]; [|exists (min_key t); by split_and!].
    destruct (decide _) as [Hlt|Hge].
    - exists (min_key t). split_and!; [done..|]. intros ? [= <-]. by apply (cmp_lt_le bytes_cmp).
    - exists m. split_and!; [done|by apply (cmp_nlt bytes_cmp)|]. by intros ? [= <-]. }
  assert (∃ a, mx' = Some a ∧ bytes_le (max_key t) a ∧ ∀ m, mx = Some m → bytes_le m a) as (b & Hb & Hb1 & Hb2).
  { unfold mx'. destruct mx as [m|]; [|exists (max_key t); by split_and!].
    destruct (decide _) as [Hlt|Hge].
    - exists (max_key t). split_and!; [done..|]. intros ? [= <-]. by apply (cmp_lt_le bytes_cmp).
    - exists m. split_and!; [done|by apply (cmp_nlt bytes_cmp)|]. by intros ? [= <-]. }
  rewrite Ha, Hb in *. destruct (H1 ltac:(done)) as [rn Hrn], (H2 ltac:(done)) as [rx Hrx]. split_and!.
  - intros _. by rewrite Hrn.
  - intros _. by rewrite Hrx.
  - intros m m' Hm Hm'. etrans; [by eapply H3|]. by apply Ha2.
  - intros m m' Hm Hm'. etrans; [by eapply Hb2|]. by eapply H4.
  - intros t' [->|Ht']%elem_of_cons Hid'; [|by apply H5]. exists rn, rx.
    split_and!; [destruct r; simpl in *; congruence| |].
    + etrans; [by eapply H3|done].
    + etrans; [done|]. by eapply H4.
Qed.

Lemma nodup_fmap_inj {A B} (f : A → B) l x y : NoDup (f <$> l) → x ∈ l → y ∈ l → f x = f y → x = y.
Proof.
  induction l as [|z l IH]; csimpl; [by intros _ ?%elem_of_nil|].
  intros [Hnin Hnd]%NoDup_cons Hx Hy Hf.
  apply elem_of_cons in Hx as [->|Hx], Hy as [->|Hy]; [done| | |by apply IH].
  - exfalso. apply Hnin. rewrite Hf. by apply list_elem_of_fmap_2.
  - exfalso. apply Hnin. rewrite <-Hf. by apply list_elem_of_fmap_2.
Qed.

Lemma concat_sublist {A} (l : list (list A)) i x : l !! i = Some x → x `sublist_of` concat l.
Proof.
  revert i. induction l as [|y l IH]; intros [|i] Hi; simplify_eq/=.
  - apply sublist_inserts_r. done.
  - apply sublist_inserts_l. by eapply IH.
Qed.

Definition sd_min (g : stored) : bytes := min_key (sd_table g).

Definition picked_tables (ids : list N) (gs : list stored) : list stored :=
  filter (λ g, sd_id g ∈ ids) gs.

(** [replace_tables] on a tree. *)
Definition replaced (l : nat) (src_ids dst_ids : list N) (outs : list stored) (G : tree) : tree :=
  replace_tables sd_id sd_min l src_ids dst_ids outs G.

Lemma picked_fmap ids gs : picked ids (sd_table <$> gs) = sd_table <$> picked_tables ids gs.
Proof. exact (filter_fmap sd_table (λ t, st_id t ∈ ids) gs). Qed.

Lemma kept_iff (P Q : Entry → Prop) min_snap bottom e :
  (∀ x, P x ↔ Q x) → kept P min_snap bottom e ↔ kept Q min_snap bottom e.
Proof.
  intros HPQ. unfold kept, newest. rewrite (HPQ e). setoid_rewrite HPQ. done.
Qed.

Section compact_tree.
  Context `{Crc32} `{Bincode TableIndex} (d d' : Dir) (ws : list write) (floor : N) (G : tree) (l : nat).
  Context (min_k max_k : bytes) (outs : list stored) (base min_snap : N) (bottom : bool).

Abbreviation src := (level_at G l).
Abbreviation dst := (level_at G (S l)).
Abbreviation src_ids := (source_ids l (sd_table <$> src)).
Abbreviation dst_ids := (overlapping min_k max_k (sd_table <$> dst)).
Abbreviation psrc := (picked_tables src_ids src).
Abbreviation pdst := (picked_tables dst_ids dst).

  Hypothesis Hdisk : on_disk d G.
  Hypothesis Hshape : shape ws floor G.
  Hypothesis Hlen : (S l < length G)%nat.
  Hypothesis Hrange : input_range src_ids (sd_table <$> src) = (Some min_k, Some max_k).
  Hypothesis Hbase : ∀ g, g ∈ concat G → sd_id g < base.
  Hypothesis Hout_stored : Forall (stored_ok d') outs.
  Hypothesis Hout_before : StronglySorted before outs.
  Hypothesis Hout_nodup : NoDup (sd_id <$> outs).
  Hypothesis Hout_ids : ∀ o, o ∈ outs → base ≤ sd_id o.
  Hypothesis Hout : ∀ e, in_tables outs e ↔
    kept (λ e, in_tables psrc e ∨ in_tables pdst e) min_snap bottom e.
  Hypothesis Hbottom : bottom = true → ∀ j, (S l < j)%nat → level_at G j = [].

Abbreviation G' := (replaced l src_ids dst_ids outs G).

Lemma level_elem i g : g ∈ level_at G i → g ∈ concat G.
Proof.
  intros Hg. unfold level_at in Hg. destruct (G !! i) as [gs|] eqn:Hi; [|by apply elem_of_nil in Hg].
  apply elem_of_concat. exists gs. split; [by eapply list_elem_of_lookup_2|done].
Qed.

Lemma level_stored i g : g ∈ level_at G i → stored_ok d g.
Proof.
  intros (gs & Hgs & Hg)%level_elem%elem_of_concat. unfold on_disk in Hdisk.
  rewrite Forall_forall in Hdisk. specialize (Hdisk _ Hgs). rewrite Forall_forall in Hdisk. auto.
Qed.

Lemma level_disjoint i : StronglySorted before (level_at G (S i)).
Proof.
  unfold level_at. destruct (G !! S i) as [gs|] eqn:Hi; [|constructor]. by eapply sh_disjoint.
Qed.

Lemma level_same_id i g h : g ∈ level_at G i → h ∈ level_at G i → sd_id g = sd_id h → g = h.
Proof. intros Hg%level_elem Hh%level_elem. by apply (nodup_fmap_inj sd_id _ _ _ (sh_ids _ _ _ Hshape)). Qed.

Lemma elem_of_psrc g : g ∈ psrc ↔ sd_id g ∈ src_ids ∧ g ∈ src.
Proof. unfold picked_tables. by rewrite list_elem_of_filter. Qed.

(** The next level's tables that overlap the inputs' range. *)
Lemma elem_of_pdst g : g ∈ pdst ↔ g ∈ dst ∧
  ¬ (bytes_lt (max_key (sd_table g)) min_k ∨ bytes_lt max_k (min_key (sd_table g))).
Proof.
  unfold picked_tables. rewrite list_elem_of_filter. unfold overlapping.
  rewrite list_elem_of_fmap. setoid_rewrite list_elem_of_filter. setoid_rewrite list_elem_of_fmap. split.
  - intros [(t & Hid & Ht & h & -> & Hh) Hg]. split; [done|].
    by rewrite (level_same_id (S l) g h).
  - intros [Hg Ho]. split; [|done]. exists (sd_table g). eauto.
Qed.

Lemma psrc_range g : g ∈ psrc → bytes_le min_k (min_key (sd_table g)) ∧ bytes_le (max_key (sd_table g)) max_k.
Proof.
  intros [Hid Hg]%elem_of_psrc. destruct (widen_spec src_ids _ _ _ Hrange) as (_ & _ & _ & _ & Hw).
  destruct (Hw (sd_table g)) as (mn & mx & [= <- <-] & ? & ?); [by apply list_elem_of_fmap_2|done|done].
Qed.

(** The versions of an input's key in its level are inputs too. *)
Lemma psrc_closed g g' e e' :
  g ∈ src → g' ∈ psrc → e ∈ sd_entries g → e' ∈ sd_entries g' → key_of e = key_of e' → g ∈ psrc.
Proof.
  intros Hg [Hid Hg']%elem_of_psrc He He' Hk. apply elem_of_psrc. split; [|done].
  clear Hrange. destruct l as [|l'].
  - unfold source_ids. rewrite <-list_fmap_compose. by apply (list_elem_of_fmap_2 sd_id).
  - by rewrite (disjoint_same _ g g' e e' (level_disjoint l') Hg Hg' He He' Hk).
Qed.

Lemma pdst_of_src g g' e e' :
  g ∈ dst → g' ∈ psrc → e ∈ sd_entries g → e' ∈ sd_entries g' → key_of e = key_of e' → g ∈ pdst.
Proof.
  intros Hg Hg' He He' Hk. apply elem_of_pdst. split; [done|].
  pose proof (psrc_range _ Hg') as [Hmin Hmax]. apply elem_of_psrc in Hg' as [_ Hg'].
  pose proof (level_stored _ _ Hg) as Hs. pose proof (level_stored _ _ Hg') as Hs'.
  destruct (stored_min _ _ Hs) as [_ H1], (stored_max _ _ Hs) as [_ H2].
  destruct (stored_min _ _ Hs') as [_ H1'], (stored_max _ _ Hs') as [_ H2'].
  specialize (H1 _ He). specialize (H2 _ He). specialize (H1' _ He'). specialize (H2' _ He').
  rewrite Hk in H1, H2. intros [Hlt|Hlt]; apply (cmp_nle bytes_cmp) in Hlt; apply Hlt.
  - etrans; [exact Hmin|]. by etrans.
  - etrans; [exact H1|]. by etrans.
Qed.

Lemma pdst_closed g g' e e' :
  g ∈ dst → g' ∈ pdst → e ∈ sd_entries g → e' ∈ sd_entries g' → key_of e = key_of e' → g ∈ pdst.
Proof.
  intros Hg Hg' He He' Hk. pose proof Hg' as [Hd _]%elem_of_pdst.
  by rewrite (disjoint_same _ g g' e e' (level_disjoint l) Hg Hd He He' Hk).
Qed.

(** A table of the next level that is not an input lies outside of all inputs. *)
Lemma rest_outside g : g ∈ dst → g ∉ pdst →
  (∀ h e e', h ∈ psrc ∨ h ∈ pdst → e ∈ sd_entries g → e' ∈ sd_entries h → bytes_lt (key_of e) (key_of e')) ∨
  (∀ h e e', h ∈ psrc ∨ h ∈ pdst → e ∈ sd_entries g → e' ∈ sd_entries h → bytes_lt (key_of e') (key_of e)).
Proof.
  intros Hg Hnin. pose proof (level_stored _ _ Hg) as Hs.
  destruct (stored_min _ _ Hs) as [(e0 & He0 & Hk0) Hmin], (stored_max _ _ Hs) as [(e1 & He1 & Hk1) Hmax].
  assert (∀ h, h ∈ pdst → before g h ∨ before h g) as Hcmp.
  { intros h Hh. apply (disjoint_cases dst); [apply level_disjoint|done|by apply elem_of_pdst in Hh as [? _]|].
    by intros ->. }
  destruct (decide (bytes_lt (max_key (sd_table g)) min_k)) as [Hlow|Hlow]; [left|right].
  - intros h e e' [Hh|Hh] He He'.
    + eapply (cmp_le_lt_trans bytes_cmp); [by apply Hmax|]. eapply (cmp_lt_le_trans bytes_cmp); [exact Hlow|].
      pose proof (psrc_range _ Hh) as [Hm _]. etrans; [exact Hm|].
      apply elem_of_psrc in Hh as [_ Hh]. by apply (stored_min _ _ (level_stored _ _ Hh)).
    + destruct (Hcmp h Hh) as [Hb|Hb]; [by apply Hb|]. exfalso. apply elem_of_pdst in Hh as [Hh Hov].
      apply Hov. left. destruct (stored_max _ _ (level_stored _ _ Hh)) as [(e2 & He2 & <-) _].
      eapply (cmp_lt_trans (cmp := bytes_cmp)); [|exact Hlow]. rewrite <-Hk1. by apply Hb.
  - assert (bytes_lt max_k (min_key (sd_table g))) as Hhigh.
    { destruct (decide (bytes_lt max_k (min_key (sd_table g)))); [done|].
      exfalso. apply Hnin, elem_of_pdst. tauto. }
    intros h e e' [Hh|Hh] He He'.
    + eapply (cmp_le_lt_trans bytes_cmp); [|eapply (cmp_lt_le_trans bytes_cmp); [exact Hhigh|by apply Hmin]].
      pose proof (psrc_range _ Hh) as [_ Hm]. etrans; [|exact Hm].
      apply elem_of_psrc in Hh as [_ Hh]. by apply (stored_max _ _ (level_stored _ _ Hh)).
    + destruct (Hcmp h Hh) as [Hb|Hb]; [|by apply Hb]. exfalso. apply elem_of_pdst in Hh as [Hh Hov].
      apply Hov. right. destruct (stored_min _ _ (level_stored _ _ Hh)) as [(e2 & He2 & <-) _].
      eapply (cmp_lt_trans (cmp := bytes_cmp)); [exact Hhigh|]. rewrite <-Hk0. by apply Hb.
Qed.

(** ** The levels afterwards *)

Lemma replaced_at i : level_at G' i =
  if decide (i = l) then filter (λ g, sd_id g ∉ src_ids) src
  else if decide (i = S l) then sort_by sd_min (filter (λ g, sd_id g ∉ dst_ids) dst ++ outs)
  else level_at G i.
Proof.
  unfold replaced, replace_tables. rewrite Nat.add_1_r, level_at_alter by (rewrite length_alter; lia).
  rewrite !level_at_alter by lia. destruct (decide (S l = i)) as [<-|].
  - rewrite (decide_False (P := S l = l)), (decide_True (P := S l = S l)) by lia.
    by rewrite (decide_False (P := l = S l)) by lia.
  - rewrite (decide_False (P := i = S l)) by lia. destruct (decide (l = i)) as [<-|].
    + by rewrite (decide_True (P := l = l)).
    + by rewrite (decide_False (P := i = l)) by lia.
Qed.

Definition keys_in (gs : list stored) (k : bytes) : Prop := k ∈ key_of <$> concat (sd_entries <$> gs).

#[local] Instance keys_in_dec gs k : Decision (keys_in gs k).
Proof. unfold keys_in. apply _. Defined.

Lemma keys_in_iff gs k : keys_in gs k ↔ ∃ g e, g ∈ gs ∧ e ∈ sd_entries g ∧ key_of e = k.
Proof.
  unfold keys_in. rewrite list_elem_of_fmap. setoid_rewrite elem_of_concat.
  setoid_rewrite list_elem_of_fmap. naive_solver.
Qed.

Lemma in_tables_filter (P : stored → Prop) `{!∀ g, Decision (P g)} gs e :
  in_tables (filter P gs) e ↔ ∃ g, g ∈ gs ∧ P g ∧ e ∈ sd_entries g.
Proof. unfold in_tables. setoid_rewrite list_elem_of_filter. naive_solver. Qed.

Lemma low_level e : in_level G' l e ↔ in_level G l e ∧ ¬ keys_in psrc e.1.1.
Proof.
  rewrite !in_level_at, replaced_at, decide_True, in_tables_filter, keys_in_iff by done. split.
  - intros (g & Hg & Hid & He). split; [by exists g|]. intros (g' & e' & Hg' & He' & Hk).
    apply Hid. by apply elem_of_psrc, (psrc_closed g g' e e' Hg Hg' He He' (eq_sym Hk)).
  - intros [(g & Hg & He) Hk]. exists g. split_and!; [done| |done]. intros Hid. apply Hk.
    exists g, e. split; [|done]. by apply elem_of_psrc.
Qed.

Lemma input_psrc e : in_level G l e ∧ keys_in psrc e.1.1 ↔ in_tables psrc e.
Proof.
  rewrite in_level_at, keys_in_iff. unfold in_tables. split.
  - intros [(g & Hg & He) (g' & e' & Hg' & He' & Hk)]. exists g. split; [|done]. by apply (psrc_closed g g' e e' Hg Hg' He He' (eq_sym Hk)).
  - intros (g & Hg & He). split; [|by exists g, e]. exists g. by apply elem_of_psrc in Hg as [_ ?].
Qed.

Lemma input_pdst e : in_level G (S l) e ∧ keys_in pdst e.1.1 ↔ in_tables pdst e.
Proof.
  rewrite in_level_at, keys_in_iff. unfold in_tables. split.
  - intros [(g & Hg & He) (g' & e' & Hg' & He' & Hk)]. exists g. split; [|done]. by apply (pdst_closed g g' e e' Hg Hg' He He' (eq_sym Hk)).
  - intros (g & Hg & He). split; [|by exists g, e]. exists g. by apply elem_of_pdst in Hg as [? _].
Qed.

Lemma inputs_iff e : input l (in_level G) (keys_in psrc) (keys_in pdst) e ↔ in_tables psrc e ∨ in_tables pdst e.
Proof. unfold input. by rewrite input_psrc, input_pdst. Qed.

Lemma next_level e :
  in_level G' (S l) e ↔ (in_level G (S l) e ∧ ¬ keys_in pdst e.1.1) ∨
    kept (input l (in_level G) (keys_in psrc) (keys_in pdst)) min_snap bottom e.
Proof.
  rewrite (kept_iff _ _ _ _ _ inputs_iff), <-Hout.
  rewrite !in_level_at, replaced_at, decide_False, decide_True by lia.
  assert (∀ e, in_tables (sort_by sd_min (filter (λ g, sd_id g ∉ dst_ids) dst ++ outs)) e ↔
    in_tables (filter (λ g, sd_id g ∉ dst_ids) dst) e ∨ in_tables outs e) as ->.
  { intros x. rewrite <-in_tables_app. unfold in_tables. by setoid_rewrite sort_by_perm. }
  enough (in_tables (filter (λ g, sd_id g ∉ dst_ids) dst) e ↔ in_tables dst e ∧ ¬ keys_in pdst e.1.1) as ->
    by done.
  rewrite in_tables_filter, keys_in_iff. split.
  - intros (g & Hg & Hid & He). split; [by exists g|]. intros (g' & e' & Hg' & He' & Hk).
    pose proof (pdst_closed g g' e e' Hg Hg' He He' (eq_sym Hk)) as Hp.
    unfold picked_tables in Hp. by apply list_elem_of_filter in Hp as [? _].
  - intros [(g & Hg & He) Hk]. exists g. split_and!; [done| |done]. intros Hid. apply Hk.
    exists g, e. split; [|done]. unfold picked_tables. by apply list_elem_of_filter.
Qed.

Lemma other_level i e : i ≠ l → i ≠ S l → in_level G' i e ↔ in_level G i e.
Proof. intros H1 H2. by rewrite !in_level_at, replaced_at, !decide_False. Qed.

(** The tables of the next level are disjoint again. *)
Lemma next_disjoint : StronglySorted before (sort_by sd_min (filter (λ g, sd_id g ∉ dst_ids) dst ++ outs)).
Proof.
  assert (∀ o e, o ∈ outs → e ∈ sd_entries o → ∃ h, (h ∈ psrc ∨ h ∈ pdst) ∧ e ∈ sd_entries h) as Hfrom.
  { intros o e Ho He. assert (in_tables outs e) as Hin by (by exists o).
    apply Hout in Hin as [[(h & Hh & Hin)|(h & Hh & Hin)] _]; eauto. }
  assert (∀ g o, g ∈ dst → sd_id g ∉ dst_ids → o ∈ outs → before g o ∨ before o g) as Hmix.
  { intros g o Hg Hid Ho. destruct (rest_outside g Hg) as [Hr|Hr].
    - unfold picked_tables. by intros [? _]%list_elem_of_filter.
    - left. intros e e' He He'. destruct (Hfrom _ _ Ho He') as (h & Hh & Hin). by eapply Hr.
    - right. intros e e' He He'. destruct (Hfrom _ _ Ho He) as (h & Hh & Hin). by eapply Hr. }
  assert (∀ g, g ∈ filter (λ g, sd_id g ∉ dst_ids) dst ++ outs → ∃ dd, stored_ok dd g) as Hst.
  { intros g [[_ Hg]%list_elem_of_filter|Ho]%elem_of_app; [exists d; by eapply level_stored|exists d'].
    rewrite Forall_forall in Hout_stored. auto. }
  apply sort_before.
  - apply NoDup_app. split_and!.
    + apply NoDup_filter. apply (NoDup_fmap_1 sd_id). eapply sublist_NoDup; [apply (sh_ids _ _ _ Hshape)|].
      apply fmap_sublist. unfold level_at. destruct (G !! S l) as [gs|] eqn:Hi; [|apply sublist_nil_l].
      by apply (concat_sublist _ _ _ Hi).
    + intros g [_ Hg]%list_elem_of_filter Ho. apply level_elem, Hbase in Hg. apply Hout_ids in Ho. lia.
    + by apply (NoDup_fmap_1 sd_id).
  - intros g h Hg Hh Hne. apply elem_of_app in Hg as [[Hi Hg]%list_elem_of_filter|Hg],
      Hh as [[Hi' Hh]%list_elem_of_filter|Hh].
    + apply (disjoint_cases dst); [apply level_disjoint|done..].
    + by apply Hmix.
    + destruct (Hmix h g); auto.
    + by apply (disjoint_cases outs).
  - intros g h [dg Hg]%Hst [dh Hh]%Hst Hb. unfold sd_min.
    destruct (stored_min _ _ Hg) as [(e & He & <-) _], (stored_min _ _ Hh) as [(e' & He' & <-) _]. by apply Hb.
Qed.

Lemma concat_alter_sublist {A} (f : list A → list A) i (L : list (list A)) :
  (∀ x, f x `sublist_of` x) → concat (alter f i L) `sublist_of` concat L.
Proof.
  intros Hf. revert i. induction L as [|x L IH]; intros [|i]; simpl; [done..| |].
  - apply sublist_app; [apply Hf|done].
  - apply sublist_app; [done|apply IH].
Qed.

Lemma replaced_tables :
  concat G' ≡ₚ outs ++ concat (alter (filter (λ g, sd_id g ∉ dst_ids)) (S l)
    (alter (filter (λ g, sd_id g ∉ src_ids)) l G)).
Proof.
  unfold replaced, replace_tables. rewrite Nat.add_1_r.
  assert (S l < length (alter (filter (λ g, sd_id g ∉ src_ids)) l G))%nat as Hl by by rewrite length_alter.
  revert Hl. generalize (alter (filter (λ g, sd_id g ∉ src_ids)) l G) as L.
  generalize (overlapping min_k max_k (sd_table <$> level_at G (S l))) as ids.
  generalize (S l) as i. clear. intros i ids L. revert i. induction L as [|x L IH]; intros [|i] Hl; simpl in *; [lia..| |].
  - rewrite sort_by_perm. rewrite (Permutation_app_comm _ outs). by rewrite <-app_assoc.
  - rewrite (IH i) by lia. by rewrite !app_assoc, (Permutation_app_comm x).
Qed.

(** The tables left over from before. *)
Lemma rest_sublist :
  concat (alter (filter (λ g, sd_id g ∉ dst_ids)) (S l) (alter (filter (λ g, sd_id g ∉ src_ids)) l G))
    `sublist_of` concat G.
Proof.
  etrans; apply concat_alter_sublist; intros x; apply sublist_filter.
Qed.

Lemma compact_shape : shape ws (N.max floor min_snap) G'.
Proof.
  assert (∀ e, in_level G (S l) e → keys_in psrc e.1.1 → keys_in pdst e.1.1) as Hkeys.
  { intros e (g & Hg & He)%in_level_at (g' & e' & Hg' & He' & Hk)%keys_in_iff. apply keys_in_iff.
    exists g, e. split; [|done]. by apply (pdst_of_src g g' e e'). }
  assert (bottom = true → ∀ j e, (S l < j)%nat → ¬ in_level G j e) as Hbot.
  { intros Hb j e Hj. rewrite in_level_at, (Hbottom Hb j Hj). apply in_tables_nil. }
  split.
  - intros He. apply (f_equal length) in He. unfold replaced, replace_tables in He.
    rewrite !length_alter in He. simpl in He. lia.
  - intros i e Hi. destruct (compacted_from l (in_level G) (in_level G') (keys_in psrc) (keys_in pdst)
      min_snap bottom low_level next_level other_level i e Hi) as [j Hj]. by eapply sh_version.
  - intros i gs Hi. apply level_at_lookup in Hi. rewrite replaced_at in Hi.
    destruct (decide (S i = l)) as [Hl|].
    { subst gs. apply sorted_filter. rewrite <-Hl. apply level_disjoint. }
    destruct (decide (S i = S l)); [subst gs; apply next_disjoint|]. subst gs. apply level_disjoint.
  - exact (compaction_covers l (in_level G) _ (keys_in psrc) (keys_in pdst) min_snap bottom
      low_level next_level other_level Hbot (sh_covers _ _ _ Hshape)).
  - apply (compaction_complete ws l (in_level G) _ (keys_in psrc) (keys_in pdst) min_snap bottom
      low_level next_level other_level Hkeys Hbot);
      [apply (sh_version _ _ _ Hshape)|apply (sh_covers _ _ _ Hshape)|apply (sh_complete _ _ _ Hshape)].
  - rewrite replaced_tables, fmap_app. apply NoDup_app. split_and!; [done| |].
    + intros x (o & -> & Ho)%list_elem_of_fmap (g & Hid & Hg)%list_elem_of_fmap.
      eapply elem_of_sublist in Hg; [|apply rest_sublist]. apply Hbase in Hg. apply Hout_ids in Ho. lia.
    + eapply sublist_NoDup; [apply (sh_ids _ _ _ Hshape)|]. apply fmap_sublist, rest_sublist.
Qed.
End compact_tree.
