(* ===== verification/DbInv.v ===== *)
(** * The engine's invariant

    What the engine's memory and its directory satisfy between operations, for
    the list [ws] of operations written so far; what is left of it by a crash; and
    that flush keeps it. *)

From S2P Require Import Prelude Order Codec Fs Wal Bloom Memtable SsTable SsTableFacts.
From S2P Require Import MergeIter MergeFacts Manifest Db LsmSpec DbRead DbCompact DbTree.
Local Open Scope N_scope.

Definition metas (G : tree) : list (list TableMeta) := fmap (M := list) (fmap (M := list) sd_meta) G.

(** The manifest lists the tables of the tree; a new one lists no level yet. *)
Definition catalogues (m : Manifest) (G : tree) : Prop :=
  mf_levels m = metas G ∨ (mf_levels m = [] ∧ G = [[]]).

(** The versions after the first [w0] operations. *)
Definition recent (ws : list write) (w0 : nat) (e : Entry) : Prop := version ws e ∧ N.of_nat w0 < e.1.2.

(** The batches [bs] hold [ops], numbered from [s] on. *)
Fixpoint logged (s : N) (bs : list WalBatch) (ops : list write) : Prop :=
  match bs with
  | [] => ops = []
  | b :: bs => wb_first_seq b = s ∧ ∃ rest, ops = wb_ops b ++ rest
      ∧ logged (s + N.of_nat (length (wb_ops b))) bs rest
  end.

Section inv.
  Context {crc : Crc32} {cw : Bincode WalBatch} {ci : Bincode TableIndex} {cm : Bincode Manifest}.
  Context {lw : BincodeLaws WalBatch} {li : BincodeLaws TableIndex} {lm : BincodeLaws Manifest}.
  Context (opts : Options) (D : nat).

(** The tables hold the first [last] operations. *)
Record tree_ok (ws : list write) (d : Dir) (G : tree) (floor last next : N) : Prop := {
  tr_disk : on_disk d G;
  tr_sized : Forall (Forall (sized opts)) G;
  tr_depth : (length G <= S D)%nat;
  tr_shape : shape (take (N.to_nat last) ws) floor G;
  tr_next : ∀ g, g ∈ concat G → sd_id g < next;
}.

(** The log holds the operations after the first [w0], and perhaps a torn frame. *)
Record wal_ok (ws : list write) (d : Dir) (w0 : nat) (bs : list WalBatch) (tail : bytes) : Prop := {
  wk_logged : logged (N.of_nat w0 + 1) bs (drop w0 ws);
  wk_fits : Forall fits bs;
  wk_file : match d !! FWal with
            | None => bs = [] ∧ tail = []
            | Some x => f_data x = frames bs ++ tail ∧ next_frame tail = None
                ∧ (o_sync opts = Always → f_synced x = length (f_data x))
            end;
}.

Record disk_ok (ws : list write) (d : Dir) (m : Manifest) (G : tree) (floor : N) (w0 : nat)
    (bs : list WalBatch) (tail : bytes) : Prop := {
  dk_catalog : catalog d m;
  dk_levels : catalogues m G;
  dk_tree : tree_ok ws d G floor (mf_last_seq m) (mf_next_table_id m);
  dk_wal : wal_ok ws d w0 bs tail;
  dk_last : N.of_nat w0 ≤ mf_last_seq m ≤ N.of_nat (length ws);
  dk_floor : floor ≤ N.of_nat (length ws);
}.

(** A directory from which [db_open] recovers [ws]. *)
Definition recoverable (ws : list write) (d : Dir) : Prop :=
  ∃ m G floor w0 bs tail, disk_ok ws d m G floor w0 bs tail.

Record db_ok (ws : list write) (db : Db) (d : Dir) (G : tree) (floor : N) (w0 : nat)
    (bs : list WalBatch) : Prop := {
  ok_disk : disk_ok ws d (db_manifest db) G floor w0 bs [];
  ok_synced : ∃ n, d !! FWal = Some (mkFile (frames bs) n) ∧ (o_sync opts = Always → n = length (frames bs));
  ok_opts : db_opts db = opts;
  ok_seq : db_seq db = N.of_nat (length ws);
  ok_snaps : ∀ s c, db_snapshots db !! s = Some c → floor ≤ s ≤ db_seq db ∧ 0 < c;
  ok_mem : ∀ e, in_mem (db_mem db) e ↔ recent ws w0 e;
  ok_levels : db_levels db = tables G;
}.

(** The engine [db] over [d] stores [ws]. *)
Definition stores_writes (ws : list write) (db : Db) (d : Dir) : Prop :=
  ∃ G floor w0 bs, db_ok ws db d G floor w0 bs.

(** ** Reads *)

Lemma newest_take ws last k t s v :
  newest (version ws) k t s v → s ≤ N.of_nat last → newest (version (take last ws)) k t s v.
Proof.
  intros (H1 & H2 & H3) Hs. split_and!; [by apply version_take|done|].
  intros s' v' [Hv _]%version_take. by eapply H3.
Qed.

Lemma tree_version ws last floor G i e :
  shape (take last ws) floor G → in_level G i e → version ws e.
Proof. intros Hsh Hi. by apply (sh_version _ _ _ Hsh), version_take in Hi as [? _]. Qed.

Lemma recent_covers ws last floor G w0 :
  shape (take last ws) floor G → covers (recent ws w0) (λ e, ∃ i, in_level G i e).
Proof.
  intros Hsh k s v s' v' [Hv Hs] [i Hi] Hlt. split; [by eapply tree_version|]. simpl in *. lia.
Qed.

Lemma recent_complete ws last floor G w0 :
  shape (take last ws) floor G → (w0 <= last)%nat →
  complete ws floor (λ e, recent ws w0 e ∨ ∃ i, in_level G i e).
Proof.
  intros Hsh Hw k t s v Ht Hn. destruct (decide (N.of_nat w0 < s)) as [Hgt|Hle].
  - assert (recent ws w0 (k, s, v)) by (split; [apply Hn|done]). split; by left.
  - destruct (sh_complete _ _ _ Hsh k t s v Ht) as [H1 H2]; [apply newest_take; [done|lia]|].
    split; [by right; apply H1|]. intros s' v' [[Hv Hs]|Hi] Hle'.
    + exfalso. destruct Hn as (_ & _ & Hmax). specialize (Hmax _ _ Hv Hle'). simpl in *. lia.
    + right. by eapply H2.
Qed.

Lemma complete_iff ws floor (P Q : Entry → Prop) :
  (∀ e, P e ↔ Q e) → complete ws floor P → complete ws floor Q.
Proof.
  intros HPQ Hc k t s v Ht Hn. destruct (Hc k t s v Ht Hn) as [H1 H2]. split.
  - intros Hv. by apply HPQ, H1.
  - intros s' v' Hq Hle. apply HPQ. apply (H2 s' v'); [by apply HPQ|done].
Qed.

Lemma db_ok_answers ws db d G floor w0 bs : db_ok ws db d G floor w0 bs → answers ws floor db d G.
Proof.
  intros Hok. destruct (ok_disk _ _ _ _ _ _ _ Hok) as [_ _ [Hd _ _ Hsh _] _ Hlast _].
  pose proof (ok_mem _ _ _ _ _ _ _ Hok) as Hm.
  split; [apply (ok_levels _ _ _ _ _ _ _ Hok)|done|by eexists _, _|..].
  - intros e [[Hv _]%Hm|[i Hi]]; [done|by eapply tree_version].
  - intros k s v s' v' Hin Hi Hlt. apply Hm. apply Hm in Hin.
    by eapply (recent_covers _ _ _ _ _ Hsh).
  - eapply complete_iff; [|apply (recent_complete _ _ _ _ w0 Hsh); lia].
    intros e. by rewrite (Hm e).
Qed.

(** ** Files that do not change *)

Lemma tree_ok_files ws d d' G floor last next :
  (∀ g, g ∈ concat G → d' !! FTable (sd_id g) = d !! FTable (sd_id g)) →
  tree_ok ws d G floor last next → tree_ok ws d' G floor last next.
Proof.
  intros Hf [Hd ? ? ? ?]. split; [|done..]. unfold on_disk in *. rewrite Forall_forall in *.
  intros gs Hgs. specialize (Hd _ Hgs). rewrite Forall_forall in *. intros g Hg.
  eapply stored_ok_other; [|by apply Hd]. apply Hf, elem_of_concat. eauto.
Qed.

Lemma wal_ok_files ws d d' w0 bs tail :
  d' !! FWal = d !! FWal → wal_ok ws d w0 bs tail → wal_ok ws d' w0 bs tail.
Proof. intros Hf [? ? Hw]. split; [done..|]. by rewrite Hf. Qed.

Lemma table_synced ws d G floor last next g :
  tree_ok ws d G floor last next → g ∈ concat G →
  ∃ data, d !! FTable (sd_id g) = Some (mkFile data (length data)).
Proof.
  intros [Hd _ _ _ _] (gs & Hgs & Hg)%elem_of_concat. unfold on_disk in Hd. rewrite Forall_forall in Hd.
  specialize (Hd _ Hgs). rewrite Forall_forall in Hd. apply (so_synced _ _ (Hd _ Hg)).
Qed.

(** The tables of a tree survive a crash among operations on other files. *)
Lemma tree_ok_crash ws d d' G floor last next W ops :
  crashes d ops d' → Forall (within W) ops → (∀ g, g ∈ concat G → ¬ W (FTable (sd_id g))) →
  tree_ok ws d G floor last next → tree_ok ws d' G floor last next.
Proof.
  intros Hc Hw HW Ht. eapply tree_ok_files; [|exact Ht]. intros g Hg.
  destruct (table_synced _ _ _ _ _ _ _ Ht Hg) as [data Hd]. rewrite Hd.
  eapply crashes_within; [exact Hc|exact Hw|by apply HW|exact Hd|done].
Qed.

Lemma catalog_files d d' m :
  d' !! FManifest = d !! FManifest → d' !! FTmp = d !! FTmp → catalog d m → catalog d' m.
Proof.
  intros H1 H2. unfold catalog, installed, manifest_at, no_manifest. by rewrite H1, H2.
Qed.

(** The catalogue survives a crash among operations on other files. *)
Lemma catalog_crash d d' m W ops :
  crashes d ops d' → Forall (within W) ops → ¬ W FManifest → ¬ W FTmp → catalog d m → catalog d' m.
Proof.
  intros (ops1 & ops2 & -> & Hc) [Hw _]%Forall_app H1 H2 Hcat. eapply cut_catalog; [exact Hc|].
  eapply catalog_files; [..|exact Hcat]; by apply (within_other _ _ _ _ Hw).
Qed.

(** ** Flush *)

Lemma in_level_push l0 ls g i e :
  in_level ((l0 ++ [g]) :: ls) i e ↔ in_level (l0 :: ls) i e ∨ (i = 0%nat ∧ e ∈ sd_entries g).
Proof.
  rewrite !in_level_at. destruct i as [|i]; unfold level_at; simpl.
  - rewrite in_tables_app, in_tables_cons. assert (¬ in_tables [] e) by apply in_tables_nil. tauto.
  - naive_solver.
Qed.

Lemma push_shape ws last floor l0 ls g w0 :
  shape (take last ws) floor (l0 :: ls) → (w0 <= last)%nat →
  (∀ e, e ∈ sd_entries g ↔ recent ws w0 e) → sd_id g ∉ sd_id <$> concat (l0 :: ls) →
  shape ws floor ((l0 ++ [g]) :: ls).
Proof.
  intros Hsh Hw Hg Hid. set (G := l0 :: ls) in *. split.
  - done.
  - intros i e [Hi|[_ He]]%in_level_push; [by eapply tree_version|]. by apply Hg.
  - intros i l Hi. by apply (sh_disjoint _ _ _ Hsh i).
  - intros i j Hij k s v s' v' Hi Hj Hlt. apply in_level_push in Hj as [Hj|[-> _]]; [|lia].
    apply in_level_push. apply in_level_push in Hi as [Hi|[-> He]].
    + left. by eapply (sh_covers _ _ _ Hsh i j).
    + right. split; [done|]. apply Hg. apply Hg in He.
      eapply (recent_covers _ _ _ _ _ Hsh); [exact He| |done]. by exists j.
  - eapply complete_iff; [|exact (recent_complete _ _ _ _ w0 Hsh Hw)]. intros e.
    setoid_rewrite in_level_push. rewrite <-Hg. split; [|naive_solver].
    intros [He|[i Hi]]; [exists 0%nat; by right|exists i; by left].
  - pose proof (sh_ids _ _ _ Hsh) as Hnd. unfold G in *. simpl in *.
    rewrite <-app_assoc. rewrite (Permutation_app_comm l0). simpl. rewrite <-Permutation_app_comm in Hnd.
    constructor; [|].
    + rewrite fmap_app. rewrite fmap_app in Hid. rewrite Permutation_app_comm. done.
    + rewrite Permutation_app_comm. by rewrite Permutation_app_comm in Hnd.
Qed.

Lemma stored_files d d' g :
  (∀ id, id = sd_id g → d' !! FTable id = d !! FTable id) → stored_ok d g → stored_ok d' g.
Proof. intros Hf. apply stored_ok_other. by apply Hf. Qed.

Lemma push_tree ws d G floor last next l0 ls g w0 :
  tree_ok ws d G floor last next → G = l0 :: ls → (w0 <= N.to_nat last)%nat →
  stored_ok d g → sized opts g → sd_id g = next → (∀ e, e ∈ sd_entries g ↔ recent ws w0 e) →
  tree_ok ws d ((l0 ++ [g]) :: ls) floor (N.of_nat (length ws)) (next + 1).
Proof.
  intros [Hd Hsz Hdep Hsh Hnext] -> Hw Hg Hgs Hid He. apply Forall_cons in Hd as [Hd0 Hd], Hsz as [Hs0 Hsz].
  split.
  - constructor; [|done]. apply Forall_app. by split; [|constructor].
  - constructor; [|done]. apply Forall_app. by split; [|constructor].
  - done.
  - rewrite Nat2N.id, firstn_all. eapply push_shape; [exact Hsh|done|done|].
    intros (h & Heq & Hh)%list_elem_of_fmap. apply Hnext in Hh. lia.
  - intros h Hh. simpl in Hh. rewrite <-app_assoc in Hh. rewrite elem_of_app, elem_of_app in Hh.
    destruct Hh as [Hh|[->%list_elem_of_singleton|Hh]]; [|lia|].
    + specialize (Hnext h ltac:(simpl; apply elem_of_app; by left)). lia.
    + specialize (Hnext h ltac:(simpl; apply elem_of_app; by right)). lia.
Qed.

(** The manifest after a flush lists the new table. *)
Lemma push_metas m l0 ls g :
  catalogues m (l0 :: ls) →
  alter (.++ [sd_meta g]) 0%nat match mf_levels m with [] => [[]] | l => l end = metas ((l0 ++ [g]) :: ls).
Proof.
  intros [->|[-> [= -> ->]]]; [|done]. unfold metas. csimpl. by rewrite fmap_app.
Qed.

Lemma wal_reset_crash d d' data n :
  crashes d [SetLen FWal 0; Sync FWal] d' → d !! FWal = Some (mkFile data n) → n = length data →
  d' !! FWal = Some (mkFile data n) ∨ d' !! FWal = Some (mkFile [] 0).
Proof.
  rewrite !crashes_cons, crashes_nil. intros Hc Hd ->. destruct Hc as [Hc|Hc].
  { left. by eapply cut_synced. }
  right. assert (apply_op d (SetLen FWal 0) !! FWal = Some (mkFile [] 0)) as H1.
  { simpl. rewrite lookup_alter_eq, Hd. simpl. by rewrite resize_0. }
  destruct Hc as [Hc|Hc]; (eapply cut_synced; [exact Hc| |done]); [done|].
  simpl in *. by rewrite lookup_alter_eq, H1.
Qed.

Lemma wal_reset_lookup d x :
  d !! FWal = Some x → apply_ops d [SetLen FWal 0; Sync FWal] !! FWal = Some (mkFile [] 0).
Proof. intros Hx. simpl. rewrite lookup_alter_eq, lookup_alter_eq, Hx. simpl. by rewrite resize_0. Qed.

Lemma wal_ok_reset ws d : d !! FWal = Some (mkFile [] 0) → wal_ok ws d (length ws) [] [].
Proof.
  intros Hd. split; [|constructor|by rewrite Hd]. simpl. by rewrite drop_all.
Qed.

(** The manifest that a flush saves, for the tree with the new table. *)
Definition flushed_manifest (db : Db) (G : tree) : Manifest :=
  mkManifest (metas G) (mf_next_table_id (db_manifest db) + 1) (db_seq db).

Definition flushed_db (db : Db) (G : tree) : Db :=
  set_mem mt_new (db_seq db) (set_tables (tables G) (flushed_manifest db G) db).

Lemma mem_entries ws db d G floor w0 bs e :
  db_ok ws db d G floor w0 bs → e ∈ mt_iter (db_mem db) ↔ recent ws w0 e.
Proof. intros Hok. rewrite <-(ok_mem _ _ _ _ _ _ _ Hok). destruct e as [[k s] v]. apply elem_of_mt_iter. Qed.

Lemma mem_nonempty m : mt_is_empty m = false → mt_iter m ≠ [].
Proof.
  unfold mt_is_empty. rewrite bool_decide_eq_false. intros Hne He. apply Hne, map_eq. intros [k s].
  rewrite lookup_empty. destruct (mt_map m !! (k, s)) as [v|] eqn:Hv; [|done].
  apply elem_of_mt_iter in Hv. rewrite He in Hv. by apply elem_of_nil in Hv.
Qed.

Lemma flush_io ws db d G floor w0 bs :
  db_ok ws db d G floor w0 bs → roomy opts (version ws) → mt_is_empty (db_mem db) = false →
  ∃ ops1 G', let m' := flushed_manifest db G' in
    let d1 := apply_ops d ops1 in
    db_flush db d = (Ok (flushed_db db G'), ops1 ++ (save m' d1).2 ++ [SetLen FWal 0; Sync FWal])
    ∧ Forall (within (.= FTable (mf_next_table_id (db_manifest db)))) ops1
    ∧ tree_ok ws d1 G' floor (db_seq db) (mf_next_table_id m')
    ∧ tree_ok ws d1 G floor (mf_last_seq (db_manifest db)) (mf_next_table_id (db_manifest db))
    ∧ G' ≠ [].
Proof.
  intros Hok Hr Hne. destruct (ok_disk _ _ _ _ _ _ _ Hok) as [_ Hcat Htree _ Hlast _].
  set (id := mf_next_table_id (db_manifest db)) in *. set (es := mt_iter (db_mem db)).
  assert (∀ e, e ∈ es ↔ recent ws w0 e) as Hes by (intros e; eapply mem_entries; exact Hok).
  assert (Forall entry_small es) as Hsm.
  { apply Forall_forall. intros e [He _]%Hes. by apply (ro_small _ _ Hr). }
  assert (table_fits (o_block_bytes opts) (o_bits_per_key opts) es) as Hfit.
  { apply (ro_fits _ _ Hr); [by apply mem_nonempty|apply mt_iter_sorted|]. by intros e [He _]%Hes. }
  destruct (build_io d id (o_block_bytes opts) (o_bits_per_key opts) es (ro_block _ _ Hr)
    (mem_nonempty _ Hne) Hsm Hfit) as (ops1 & n & t & Hb & Hw & Ho & Hid & Hh & Hsyn).
  destruct G as [|l0 ls]; [by destruct (sh_nonempty _ _ _ (tr_shape _ _ _ _ _ _ Htree))|].
  set (g := mkStored t es n (table_size (o_block_bytes opts) (o_bits_per_key opts) es)).
  assert (tree_ok ws (apply_ops d ops1) (l0 :: ls) floor (mf_last_seq (db_manifest db)) id) as Htree1.
  { eapply tree_ok_files; [|exact Htree]. intros h Hh'. apply (within_other _ _ _ _ Hw).
    intros [= He]. apply (tr_next _ _ _ _ _ _ Htree) in Hh'. lia. }
  exists ops1, ((l0 ++ [g]) :: ls). cbv zeta. split_and!.
  - unfold db_flush. rewrite Hne, (ok_opts _ _ _ _ _ _ _ Hok). eapply io_bind_intro; [exact Hb|].
    cbv beta iota. fold id. rewrite (reads_bind _ _ _ _ Ho).
    assert (mkMeta id (min_key t) (max_key t) n
      (table_size (o_block_bytes opts) (o_bits_per_key opts) es) = sd_meta g) as ->
      by (unfold sd_meta, g; simpl; by rewrite Hid).
    rewrite (push_metas _ _ _ _ Hcat), (ok_levels _ _ _ _ _ _ _ Hok).
    change (mkManifest _ (id + 1) (db_seq db)) with (flushed_manifest db ((l0 ++ [g]) :: ls)).
    eapply io_bind_intro; [rewrite save_io; done|]. unfold flushed_db, tables. csimpl. by rewrite fmap_app.
  - done.
  - rewrite (ok_seq _ _ _ _ _ _ _ Hok). apply (push_tree _ _ _ _ _ _ _ _ _ w0 Htree1); [done|lia| |done|done|done].
    split; [by rewrite <-Hid in Ho; unfold sd_id; simpl; rewrite Hid in *|done|apply mt_iter_sorted|].
    unfold sd_id. simpl. by rewrite Hid.
  - done.
  - done.
Qed.

(** A crash at any point of [ops] that leaves a manifest loses nothing of [ws]. *)
Definition crash_safe (ws : list write) (d : Dir) (ops : list fs_op) : Prop :=
  ∀ d', outage d ops d' → recoverable ws d'.

Definition manifest_files (f : file) : Prop := f = FTmp ∨ f = FManifest.

Lemma save_files m d : Forall (within manifest_files) (save m d).2.
Proof. apply save_within. Qed.

Lemma reset_files : Forall (within (.= FWal)) [SetLen FWal 0; Sync FWal].
Proof. by repeat constructor. Qed.

Lemma wal_synced ws db d G floor w0 bs :
  db_ok ws db d G floor w0 bs → o_sync opts = Always →
  d !! FWal = Some (mkFile (frames bs) (length (frames bs))).
Proof. intros Hok Ha. destruct (ok_synced _ _ _ _ _ _ _ Hok) as (n & Hn & Hs). by rewrite <-Hs. Qed.

(** The log is whole after a crash among operations on other files. *)
Lemma wal_crash ws d d' w0 bs W ops x :
  crashes d ops d' → Forall (within W) ops → ¬ W FWal →
  d !! FWal = Some x → f_synced x = length (f_data x) →
  wal_ok ws d w0 bs [] → wal_ok ws d' w0 bs [] ∧ d' !! FWal = Some x.
Proof.
  intros Hc Hw HW Hx Hs Hwal. assert (d' !! FWal = Some x) as Hx' by by eapply crashes_within.
  split; [|done]. eapply wal_ok_files; [|exact Hwal]. by rewrite Hx, Hx'.
Qed.

#[local] Arguments apply_ops : simpl never.

Section flush.
  Context (ws : list write) (db : Db) (d : Dir) (G : tree) (floor : N) (w0 : nat) (bs : list WalBatch).
  Context (Hok : db_ok ws db d G floor w0 bs).
  Context (ops1 : list fs_op) (G' : tree).

Abbreviation m := (db_manifest db).
Abbreviation m' := (flushed_manifest db G').
Abbreviation d1 := (apply_ops d ops1).
Abbreviation ops2 := (save m' d1).2.
Abbreviation d2 := (apply_ops d1 ops2).
Abbreviation d3 := (apply_ops d2 [SetLen FWal 0; Sync FWal]).

  Hypothesis Hw1 : Forall (within (.= FTable (mf_next_table_id m))) ops1.
  Hypothesis Ht' : tree_ok ws d1 G' floor (db_seq db) (mf_next_table_id m').
  Hypothesis Ht : tree_ok ws d1 G floor (mf_last_seq m) (mf_next_table_id m).
  Hypothesis HG' : G' ≠ [].

Lemma flush_wal_unchanged : d2 !! FWal = d !! FWal.
Proof.
  rewrite (within_other _ _ _ _ (save_files m' d1)) by (by intros [|]).
  by rewrite (within_other _ _ _ _ Hw1).
Qed.

Lemma flush_db_ok : db_ok ws (flushed_db db G') d3 G' floor (length ws) [].
Proof.
  destruct (ok_disk _ _ _ _ _ _ _ Hok) as [_ _ _ _ Hlast Hfloor].
  assert (d3 !! FWal = Some (mkFile [] 0)) as Hwal.
  { destruct (ok_synced _ _ _ _ _ _ _ Hok) as (n & Hn & _). rewrite <-flush_wal_unchanged in Hn.
    by eapply wal_reset_lookup. }
  split; simpl; try (apply Hok).
  - split; simpl.
    + left. left. unfold manifest_at. rewrite (within_other _ _ _ _ reset_files) by done.
      apply (save_installs m' d1).
    + by left.
    + eapply tree_ok_files; [|exact Ht']. intros g Hg.
      rewrite (within_other _ _ _ _ reset_files) by done.
      by rewrite (within_other _ _ _ _ (save_files m' d1)) by (by intros [|]).
    + by eapply wal_ok_reset.
    + rewrite (ok_seq _ _ _ _ _ _ _ Hok). lia.
    + done.
  - exists 0%nat. split; [done|]. done.
  - intros e. split; [by intros Hm|]. intros [Hv%version_bounds Hs]. lia.
  - done.
Qed.

Lemma flush_crash_safe :
  o_sync opts = Always → crash_safe ws d (ops1 ++ ops2 ++ [SetLen FWal 0; Sync FWal]).
Proof.
  intros Ha d' Hc. pose proof (wal_synced _ _ _ _ _ _ _ Hok Ha) as Hwal.
  destruct (ok_disk _ _ _ _ _ _ _ Hok) as [Hcat0 Hlev Ht0 Hw Hlast Hfloor].
  assert (wal_ok ws d2 w0 bs [] ∧ wal_ok ws d1 w0 bs []) as [Hw2 Hwd1].
  { split; (eapply wal_ok_files; [|exact Hw]); [apply flush_wal_unchanged|].
    by apply (within_other _ _ _ _ Hw1). }
  assert (d1 !! FWal = d !! FWal) as Hd1 by (by apply (within_other _ _ _ _ Hw1)).
  assert (catalog d1 m) as Hcat1
    by (eapply catalog_files; [..|exact Hcat0]; by apply (within_other _ _ _ _ Hw1)).
  pose proof (ok_seq _ _ _ _ _ _ _ Hok) as Hseq.
  apply outage_app in Hc as [Hc%outage_crashes|Hc]; [|apply outage_app in Hc as [Ho|Hc%outage_crashes]|].
  - exists m, G, floor, w0, bs, []. split; [|done| | |done..].
    + eapply catalog_crash; [exact Hc|exact Hw1|done..].
    + eapply tree_ok_crash; [exact Hc|exact Hw1| |exact Ht0]. intros g Hg [= He].
      apply (tr_next _ _ _ _ _ _ Ht0) in Hg. lia.
    + eapply wal_crash; [exact Hc|exact Hw1|done|exact Hwal|done|exact Hw].
  - pose proof (outage_crashes _ _ _ Ho) as Hc.
    assert (∀ G0 l n, tree_ok ws d1 G0 floor l n → tree_ok ws d' G0 floor l n) as Htc.
    { intros G0 l n. eapply tree_ok_crash; [exact Hc|apply save_files|]. by intros g _ [|]. }
    assert (wal_ok ws d' w0 bs []) as Hwd'.
    { eapply wal_crash; [exact Hc|apply save_files|by intros [|]|by rewrite Hd1|done|done]. }
    destruct (save_crash d1 d' m m' Hcat1 Ho) as [Hcat|Hcat].
    + exists m, G, floor, w0, bs, []. split; [done|done|by apply Htc|done|done|done].
    + exists m', G', floor, w0, bs, []. split; [done|by left|by apply Htc|done| |done]. simpl. lia.
  - assert (catalog d' m') as Hcat.
    { eapply catalog_crash; [exact Hc|apply reset_files|done..|]. left. left. apply (save_installs m' d1). }
    assert (tree_ok ws d' G' floor (db_seq db) (mf_next_table_id m')) as Htd'.
    { eapply tree_ok_crash; [exact Hc|apply reset_files|done|]. eapply tree_ok_files; [|exact Ht'].
      intros g _. by apply (within_other _ _ _ _ (save_files m' d1)); intros [|]. }
    destruct (wal_reset_crash _ _ _ _ Hc (eq_trans flush_wal_unchanged Hwal) eq_refl) as [Hd'|Hd'].
    + exists m', G', floor, w0, bs, []. split; [done|by left|done| |simpl; lia|done].
      eapply wal_ok_files; [|exact Hw]. by rewrite Hd', Hwal.
    + exists m', G', floor, (length ws), [], []. split; [done|by left|done| |simpl; lia|done].
      by eapply wal_ok_reset.
  - left. apply mk_is_Some with (1 := save_installs m' d1).
  - by eapply rests_within.
Qed.
End flush.
End inv.
