(* ===== verification/DbOps.v ===== *)
(** * Compaction of the engine

    A compaction of one level keeps the engine's invariant, is safe against a
    crash at any of its file operations, and moves entries down; so
    [maybe_compact] ends, with an engine that stores the same operations. *)

From S2P Require Import Prelude Order Codec Fs Wal Bloom Memtable SsTable SsTableFacts.
From S2P Require Import MergeIter MergeFacts Manifest Db LsmSpec DbRead DbCompact DbTree DbInv.
Local Open Scope N_scope.

(** ** Padding *)

Lemma in_level_pad n G i e : in_level (pad n G) i e ↔ in_level G i e.
Proof. by rewrite !in_level_at, level_at_pad. Qed.

Lemma concat_pad {A} n (L : list (list A)) : concat (pad n L) = concat L.
Proof.
  unfold pad. rewrite concat_app. assert (∀ k, concat (replicate k (@nil A)) = []) as -> by (by induction k).
  by rewrite app_nil_r.
Qed.

Lemma pad_shape ws floor n G : shape ws floor G → shape ws floor (pad n G).
Proof.
  intros Hs. split.
  - intros He. apply (f_equal length) in He. rewrite length_pad in He. simpl in He.
    apply (sh_nonempty _ _ _ Hs). apply nil_length_inv. lia.
  - intros i e Hi%in_level_pad. by eapply sh_version.
  - intros i l Hi. apply level_at_lookup in Hi. rewrite level_at_pad in Hi. unfold level_at in Hi.
    destruct (G !! S i) as [gs|] eqn:Hg; simpl in Hi; subst l; [by eapply sh_disjoint|constructor].
  - intros i j Hij k s v s' v' Hi%in_level_pad Hj%in_level_pad Hlt. apply in_level_pad.
    by eapply (sh_covers _ _ _ Hs i j).
  - eapply complete_iff; [|apply (sh_complete _ _ _ Hs)]. intros e. by setoid_rewrite in_level_pad.
  - rewrite concat_pad. apply (sh_ids _ _ _ Hs).
Qed.

Lemma pad_metas m n G : (0 < n)%nat → catalogues m G → pad n (mf_levels m) = metas (pad n G).
Proof.
  intros Hn [->|[-> ->]]; [apply pad_fmap|]. unfold pad, metas. simpl.
  destruct n as [|n]; [lia|]. simpl. rewrite Nat.sub_0_r. by rewrite fmap_replicate.
Qed.

(** A table is in one level, and no other has its id. *)
Lemma level_unique (G : tree) i j g h :
  NoDup (sd_id <$> concat G) → g ∈ level_at G i → h ∈ level_at G j → sd_id g = sd_id h → i = j ∧ g = h.
Proof.
  intros Hnd Hg Hh Hid. assert (g = h) as <-.
  { eapply (nodup_fmap_inj sd_id); [exact Hnd| | |done]; by eapply level_elem. }
  split; [|done]. apply NoDup_fmap_1 in Hnd. clear Hid. revert i j Hg Hh.
  induction G as [|l G IH]; intros i j Hg Hh; [by apply elem_of_nil in Hg|]. simpl in Hnd.
  apply NoDup_app in Hnd as (_ & Hdis & Hnd). destruct i as [|i], j as [|j]; [done| | |].
  - exfalso. apply (Hdis g Hg). by apply (level_elem G j).
  - exfalso. apply (Hdis g Hh). by apply (level_elem G i).
  - f_equal. by apply IH.
Qed.

(** ** What a compaction reads *)

Lemma min_of_Some l : l ≠ [] → ∃ x, min_of l = Some x ∧ x ∈ l.
Proof.
  induction l as [|x l IH]; [done|]. intros _. unfold min_of in *. simpl.
  destruct l as [|y l]; [exists x; split; [done|left]|].
  destruct (IH ltac:(done)) as (z & -> & Hz). simpl. eexists. split; [done|].
  destruct (N.min_spec x z) as [[_ ->]|[_ ->]]; [left|by right].
Qed.

Lemma source_ids_elem l (ts : list SsTable) :
  ts ≠ [] → ∃ t, t ∈ ts ∧ st_id t ∈ source_ids l ts.
Proof.
  intros Hne. destruct l as [|l]; simpl.
  - destruct ts as [|t ts]; [done|]. exists t. split; [left|]. csimpl. left.
  - destruct (min_of_Some (st_id <$> ts)) as (x & -> & Hx); [by destruct ts|].
    apply list_elem_of_fmap in Hx as (t & -> & Ht). exists t. split; [done|]. simpl. left.
Qed.

(** Every id that is compacted away belongs to a table of the level. *)
Lemma source_ids_table l (ts : list SsTable) id : id ∈ source_ids l ts → ∃ t, t ∈ ts ∧ st_id t = id.
Proof.
  destruct l as [|l]; simpl.
  - intros (t & -> & Ht)%list_elem_of_fmap. eauto.
  - destruct ts as [|t ts]; [by intros ?%elem_of_nil|].
    destruct (min_of_Some (st_id <$> t :: ts)) as (x & -> & Hx); [done|]. simpl.
    intros ->%list_elem_of_singleton. apply list_elem_of_fmap in Hx as (t' & -> & Ht'). eauto.
Qed.

Lemma input_range_Some l (ts : list SsTable) :
  ts ≠ [] → ∃ mn mx, input_range (source_ids l ts) ts = (Some mn, Some mx).
Proof.
  intros Hne. destruct (source_ids_elem l ts Hne) as (t & Ht & Hid).
  destruct (widen_spec (source_ids l ts) ts (None, None) _ eq_refl) as (_ & _ & _ & _ & Hw).
  destruct (Hw t Ht Hid) as (mn & mx & Hr & _). eauto.
Qed.

(** The number of entries, each counted once for every level below it. *)
Definition entries_of (gs : list stored) : nat := length (concat (sd_entries <$> gs)).

Fixpoint weight (n : nat) (G : tree) : nat :=
  match G with
  | [] => 0
  | gs :: G => n * entries_of gs + weight (n - 1) G
  end.

Lemma entries_of_app gs hs : entries_of (gs ++ hs) = (entries_of gs + entries_of hs)%nat.
Proof. unfold entries_of. by rewrite fmap_app, concat_app, length_app. Qed.

Lemma entries_of_pos gs g : g ∈ gs → sd_entries g ≠ [] → (0 < entries_of gs)%nat.
Proof.
  intros (gs1 & gs2 & ->)%list_elem_of_split Hne. rewrite entries_of_app. unfold entries_of at 2. csimpl.
  rewrite length_app. destruct (sd_entries g); [done|simpl; lia].
Qed.

Lemma entries_of_perm gs hs : gs ≡ₚ hs → entries_of gs = entries_of hs.
Proof.
  intros Hp. unfold entries_of. induction Hp as [|g gs hs _ IH|g h gs|gs hs ks _ IH1 _ IH2]; [done| | |congruence].
  - csimpl. rewrite !length_app. lia.
  - csimpl. rewrite !length_app. lia.
Qed.

Lemma entries_of_filter (P : stored → Prop) `{!∀ g, Decision (P g)} gs :
  (entries_of (filter (λ g, ¬ P g) gs) + entries_of (filter P gs) = entries_of gs)%nat.
Proof.
  rewrite <-entries_of_app. apply entries_of_perm. induction gs as [|g gs IH]; [done|].
  rewrite !filter_cons. destruct (decide (P g)) as [HP|HP]; simpl.
  - rewrite decide_False by tauto. by rewrite <-Permutation_middle, IH.
  - rewrite decide_True by tauto. simpl. by rewrite IH.
Qed.

Lemma weight_alter n f i G : (i < length G)%nat →
  (weight n (alter f i G) + (n - i) * entries_of (level_at G i)
    = weight n G + (n - i) * entries_of (f (level_at G i)))%nat.
Proof.
  revert n i. induction G as [|gs G IH]; intros n [|i] Hi; simpl in *; [lia..| |].
  - unfold level_at. simpl. rewrite Nat.sub_0_r. lia.
  - specialize (IH (n - 1)%nat i ltac:(lia)). replace (n - 1 - i)%nat with (n - S i)%nat in IH by lia.
    change (level_at (gs :: G) (S i)) with (level_at G i). unfold alter in IH. lia.
Qed.

Lemma weight_pad n k G : weight n (pad k G) = weight n G.
Proof.
  unfold pad. generalize (k - length G)%nat as j. revert n. induction G as [|gs G IH]; intros n j; simpl.
  - revert n. induction j as [|j IHj]; intros n; [done|]. simpl. rewrite IHj. unfold entries_of. simpl. lia.
  - by rewrite IH.
Qed.

(** A compaction moves its inputs one level down. *)
Lemma weight_replaced n l src_ids dst_ids outs G :
  let src := level_at G l in let dst := level_at G (S l) in
  let psrc := picked_tables src_ids src in let pdst := picked_tables dst_ids dst in
  (S l < length G)%nat → (l < n)%nat → (0 < entries_of psrc)%nat →
  (entries_of outs <= entries_of psrc + entries_of pdst)%nat →
  (weight n (replaced l src_ids dst_ids outs G) < weight n G)%nat.
Proof.
  intros src dst psrc pdst Hlen Hn Ha Ho. unfold replaced, replace_tables. rewrite Nat.add_1_r.
  set (G1 := alter (filter (λ t, sd_id t ∉ src_ids)) l G).
  pose proof (weight_alter n (filter (λ t, sd_id t ∉ src_ids)) l G ltac:(lia)) as H1. fold G1 src in H1.
  pose proof (weight_alter n (λ l, sort_by sd_min (filter (λ t, sd_id t ∉ dst_ids) l ++ outs)) (S l) G1) as H2.
  assert (level_at G1 (S l) = dst) as Hd.
  { unfold G1. rewrite level_at_alter by lia. by rewrite decide_False by lia. }
  rewrite Hd in H2. specialize (H2 ltac:(unfold G1; by rewrite length_alter)).
  rewrite (entries_of_perm _ _ (sort_by_perm sd_min _)), entries_of_app in H2.
  pose proof (entries_of_filter (λ g, sd_id g ∈ src_ids) src) as H3.
  pose proof (entries_of_filter (λ g, sd_id g ∈ dst_ids) dst) as H4.
  change (filter (λ g, sd_id g ∈ src_ids) src) with psrc in H3.
  change (filter (λ g, sd_id g ∈ dst_ids) dst) with pdst in H4.
  set (w := weight n (alter _ (S l) G1)) in *. clearbody w. clearbody G1.
  set (f1 := entries_of (filter (λ g, ¬ sd_id g ∈ src_ids) src)) in *.
  set (f2 := entries_of (filter (λ g, ¬ sd_id g ∈ dst_ids) dst)) in *.
  change (entries_of (filter (λ t, sd_id t ∉ src_ids) src)) with f1 in H1.
  change (entries_of (filter (λ t, sd_id t ∉ dst_ids) dst)) with f2 in H2.
  rewrite <-H3 in H1. rewrite <-H4 in H2. replace (n - l)%nat with (S (n - S l))%nat in H1 by lia.
  generalize dependent (n - S l)%nat. intros x H1 H2. nia.
Qed.

Section compact.
  Context {crc : Crc32} {cw : Bincode WalBatch} {ci : Bincode TableIndex} {cm : Bincode Manifest}.
  Context {lw : BincodeLaws WalBatch} {li : BincodeLaws TableIndex} {lm : BincodeLaws Manifest}.
  Context (opts : Options) (D : nat).

Abbreviation db_ok := (db_ok opts D).
Abbreviation tree_ok := (tree_ok opts D).

Lemma open_level_ok d gs : Forall (stored_ok d) gs → open_level d (sd_meta <$> gs) = Ok (sd_table <$> gs).
Proof.
  induction 1 as [|g gs Hg Hgs IH]; [done|]. csimpl. simpl.
  pose proof (so_open _ _ Hg) as Ho. unfold sd_id in Ho. rewrite Ho. simpl. by rewrite IH.
Qed.

Lemma remove_tables_io ids d : remove_tables ids d = (Ok tt, Remove ∘ FTable <$> ids).
Proof.
  revert d. induction ids as [|id ids IH]; intros d; [done|]. simpl.
  erewrite io_bind_intro; [|done|apply IH]. done.
Qed.

Lemma min_of_le l s : s ∈ l → ∃ x, min_of l = Some x ∧ x ≤ s.
Proof.
  unfold min_of. induction l as [|k l IH]; [by intros ?%elem_of_nil|]. simpl.
  intros [->|Hin]%elem_of_cons; (eexists; split; [done|]).
  - destruct (foldr _ None l); simpl; lia.
  - destruct (IH Hin) as (x & -> & Hx). simpl. lia.
Qed.

Lemma min_snapshot_le db s c : db_snapshots db !! s = Some c → min_snapshot db ≤ s.
Proof.
  intros Hs%elem_of_map_to_list. unfold min_snapshot.
  destruct (min_of_le (fst <$> map_to_list (db_snapshots db)) s) as (x & -> & Hx); [|done].
  apply list_elem_of_fmap. by exists (s, c).
Qed.

Lemma min_snapshot_bound db b :
  db_seq db ≤ b → (∀ s c, db_snapshots db !! s = Some c → s ≤ b) → min_snapshot db ≤ b.
Proof.
  intros Hq Hb. unfold min_snapshot. destruct (fst <$> map_to_list (db_snapshots db)) as [|k ks] eqn:Hks; [done|].
  destruct (min_of_Some (k :: ks)) as (x & -> & Hx); [done|]. simpl. rewrite <-Hks in Hx.
  apply list_elem_of_fmap in Hx as ([s c] & -> & Hin). apply elem_of_map_to_list in Hin. by eapply Hb.
Qed.

Section level.
  Context (ws : list write) (db : Db) (d : Dir) (G : tree) (floor : N) (w0 : nat) (bs : list WalBatch).
  Context (Hok : db_ok ws db d G floor w0 bs) (Hr : roomy opts (version ws)).
  Context (l : nat) (Hl : (S l <= D)%nat) (Hne : level_at G l ≠ []).

Abbreviation m := (db_manifest db).
Abbreviation Gp := (pad (l + 2) G).
Abbreviation src := (level_at Gp l).
Abbreviation dst := (level_at Gp (S l)).
Abbreviation src_ids := (source_ids l (sd_table <$> src)).
Abbreviation next := (mf_next_table_id m).

Lemma padded_tree : tree_ok ws d Gp floor (mf_last_seq m) next.
Proof.
  destruct (dk_tree _ _ _ _ _ _ _ _ _ _ (ok_disk _ _ _ _ _ _ _ _ _ Hok)) as [Hd Hs Hdep Hsh Hn]. split.
  - unfold on_disk in *. by rewrite <-Forall_concat, concat_pad, Forall_concat.
  - by rewrite <-Forall_concat, concat_pad, Forall_concat.
  - rewrite length_pad. lia.
  - by apply pad_shape.
  - by rewrite concat_pad.
Qed.

Lemma padded_stored g : g ∈ concat Gp → stored_ok d g.
Proof.
  pose proof (tr_disk _ _ _ _ _ _ _ _ padded_tree) as Hd. unfold on_disk in Hd.
  rewrite <-Forall_concat, Forall_forall in Hd. auto.
Qed.

Lemma padded_version g e : g ∈ concat Gp → e ∈ sd_entries g → version ws e.
Proof.
  intros (gs & Hgs & Hg)%elem_of_concat He. apply list_elem_of_lookup in Hgs as [i Hi].
  apply (tree_version ws (N.to_nat (mf_last_seq m)) floor Gp i); [apply padded_tree|].
  exists gs. split; [done|]. by exists g.
Qed.

(** The loop over tables of the tree. *)
Lemma compact_inputs_io (inputs : list stored) min_snap bottom :
  (∀ g, g ∈ inputs → g ∈ concat Gp) →
  let srcs := merge_new (STable ∘ table_iter <$> (sd_table <$> inputs)) in
  ∃ ops c outs,
    (c ← for_merged (S (merge_size srcs)) (compact_entry opts min_snap bottom) srcs
           (mkCompaction None 0 next 0 None false None []);
     finish_output c) d = (Ok c, ops)
    ∧ Forall (within (new_table next)) ops
    ∧ (∃ g, loop_ok opts next c (apply_ops d ops) outs [] g)
    ∧ (∀ e, in_tables outs e ↔ kept (in_tables inputs) min_snap bottom e)
    ∧ (entries_of outs <= entries_of inputs)%nat.
Proof.
  intros Hin srcs. set (ess := sd_entries <$> inputs).
  assert (sources_yield (λ id, id < next) d srcs ess) as Hy.
  { apply sources_yield_new. unfold ess. rewrite <-list_fmap_compose, Forall2_fmap. apply Forall_Forall2_diag.
    apply Forall_forall. intros g Hg%Hin. split; [by apply (tr_next _ _ _ _ _ _ _ _ padded_tree)|].
    apply table_iter_yields, (so_holds _ _ (padded_stored _ Hg)). }
  assert (∀ e, e ∈ merged ess ↔ in_tables inputs e) as Hmem.
  { intros e. rewrite elem_of_merged. unfold ess, in_tables. setoid_rewrite list_elem_of_fmap. naive_solver. }
  assert (∀ e, e ∈ merged ess → version ws e) as Hv.
  { intros e (g & Hg%Hin & He)%Hmem. by eapply padded_version. }
  assert (Forall sorted ess) as Hs.
  { apply Forall_fmap, Forall_forall. intros g Hg%Hin. apply (so_sorted _ _ (padded_stored _ Hg)). }
  assert (functional (merged ess)) as Hf.
  { intros k s v v' H1 H2. by eapply (version_functional ws); apply Hv. }
  destruct (compact_loop_io opts (λ id, id < next) next min_snap bottom (version ws) srcs ess d
    (S (merge_size srcs))) as (ops & c & outs & Hio & Hw & Hlk); [done|done| |done..|].
  { pose proof (sources_yield_size _ _ _ _ Hy). lia. }
  exists ops, c, outs. split_and!; [done|done|by eexists| |].
  - intros e. pose proof (lk_out _ _ _ _ _ _ _ Hlk) as Ho. rewrite app_nil_r in Ho.
    rewrite (kept_iff _ (.∈ merged ess)) by (intros; by rewrite Hmem).
    rewrite <-(go_out _ _ _ _ (gc_spec min_snap bottom _ (merged_sorted _ Hs) Hf)), <-Ho, elem_of_concat.
    unfold in_tables. setoid_rewrite list_elem_of_fmap. naive_solver.
  - pose proof (lk_out _ _ _ _ _ _ _ Hlk) as Ho. rewrite app_nil_r in Ho.
    unfold entries_of. rewrite Ho. etrans; [apply gc_length|]. by rewrite merged_perm.
Qed.

Lemma tables_fold G0 : fmap (M := list) (fmap (M := list) sd_table) G0 = tables G0.
Proof. done. Qed.

(** The inputs: the tables of [src_ids], and those of the next level they overlap. *)
Lemma inputs_elem ids1 ids2 g :
  g ∈ picked_tables ids1 src ++ picked_tables ids2 dst → g ∈ concat Gp.
Proof.
  unfold picked_tables. intros [[_ Hg]%list_elem_of_filter|[_ Hg]%list_elem_of_filter]%elem_of_app;
    by eapply level_elem.
Qed.

Lemma bottom_empty j : (S l < j)%nat →
  forallb (λ t, bool_decide (length t = 0%nat)) (drop (l + 2) (tables Gp)) = true → level_at Gp j = [].
Proof.
  intros Hj Hb. unfold level_at. destruct (Gp !! j) as [gs|] eqn:Hg; [|done]. simpl.
  rewrite forallb_forall in Hb. specialize (Hb (sd_table <$> gs)). rewrite bool_decide_eq_true, length_fmap in Hb.
  apply nil_length_inv, Hb, list_elem_of_In, list_elem_of_lookup. exists (j - (l + 2))%nat.
  rewrite lookup_drop. unfold tables. replace (l + 2 + (j - (l + 2)))%nat with j by lia.
  by rewrite list_lookup_fmap, Hg.
Qed.

(** No table of the new tree has the id of a table that was compacted away. *)
Lemma dead_ids mn mx outs g :
  let dst_ids := overlapping mn mx (sd_table <$> dst) in
  (∀ o, o ∈ outs → next ≤ sd_id o) → g ∈ concat (replaced l src_ids dst_ids outs Gp) →
  sd_id g ∉ src_ids ++ dst_ids.
Proof.
  intros dst_ids Hout Hg Hin. pose proof (tr_shape _ _ _ _ _ _ _ _ padded_tree) as Hsh.
  assert (∃ j h, (j = l ∧ sd_id h ∈ src_ids ∨ j = S l ∧ sd_id h ∈ dst_ids) ∧ h ∈ level_at Gp j ∧ sd_id h = sd_id g)
    as (j & h & Hj & Hh & Hid).
  { apply elem_of_app in Hin as [Hin|Hin].
    - pose proof Hin as (t & Ht & Hid)%source_ids_table. apply list_elem_of_fmap in Ht as (h & -> & Hh).
      exists l, h. split_and!; [left; split; [done|by unfold sd_id; rewrite Hid]|done|done].
    - unfold dst_ids, overlapping in Hin. pose proof Hin as (t & Hid & Ht)%list_elem_of_fmap.
      apply list_elem_of_filter in Ht as [_ Ht]. apply list_elem_of_fmap in Ht as (h & -> & Hh).
      exists (S l), h. split_and!; [right; split; [done|by unfold sd_id; rewrite <-Hid]|done|done]. }
  assert (sd_id g < next) as Hlt.
  { rewrite <-Hid. apply (tr_next _ _ _ _ _ _ _ _ padded_tree). by eapply level_elem. }
  unfold dst_ids in Hg. rewrite replaced_tables in Hg by (rewrite length_pad; lia). fold dst_ids in Hg.
  apply elem_of_app in Hg as [Hg|Hg]; [apply Hout in Hg; lia|].
  apply elem_of_concat in Hg as (gs & Hgs & Hg). apply list_elem_of_lookup in Hgs as [i Hi].
  apply level_at_lookup in Hi. rewrite !level_at_alter in Hi by (rewrite ?length_alter, length_pad; lia).
  assert (g ∈ level_at Gp i ∧ (i = l → sd_id g ∉ src_ids) ∧ (i = S l → sd_id g ∉ dst_ids)) as (Hg' & H1 & H2).
  { subst gs. destruct (decide (S l = i)) as [<-|Hne1].
    - rewrite (decide_False (P := l = S l)) in Hg by lia.
      apply list_elem_of_filter in Hg as [Hx Hg]. split_and!; [done|lia|done].
    - destruct (decide (l = i)) as [<-|Hne2]; [|by split_and!].
      apply list_elem_of_filter in Hg as [Hx Hg]. split_and!; [done|done|lia]. }
  destruct (level_unique _ _ _ _ _ (sh_ids _ _ _ Hsh) Hh Hg' Hid) as [<- <-].
  destruct Hj as [[-> Hx]|[-> Hx]]; [by apply H1|by apply H2].
Qed.

(** The tree after the compaction, when the new tables hold what is kept. *)
Lemma compacted_tree mn mx d1 outs min_snap bottom next' :
  let dst_ids := overlapping mn mx (sd_table <$> dst) in
  let psrc := picked_tables src_ids src in let pdst := picked_tables dst_ids dst in
  let G' := replaced l src_ids dst_ids outs Gp in
  input_range src_ids (sd_table <$> src) = (Some mn, Some mx) →
  (bottom = true → ∀ j, (S l < j)%nat → level_at Gp j = []) →
  (∀ h, h ∈ concat Gp → d1 !! FTable (sd_id h) = d !! FTable (sd_id h)) →
  Forall (stored_ok d1) outs → Forall (sized opts) outs → StronglySorted before outs →
  NoDup (sd_id <$> outs) → (∀ o, o ∈ outs → next ≤ sd_id o < next') → next ≤ next' →
  (∀ e, in_tables outs e ↔ kept (in_tables (psrc ++ pdst)) min_snap bottom e) →
  tree_ok ws d1 G' (N.max floor min_snap) (mf_last_seq m) next'.
Proof.
  intros dst_ids psrc pdst G' Hrange Hbot Hfiles Hst Hsz Hbef Hnd Hids Hnext Hout.
  pose proof (tree_ok_files _ _ _ _ _ _ _ _ _ Hfiles padded_tree) as Ht1.
  destruct padded_tree as [Hd Hs Hdep Hsh Hn].
  assert (S l < length Gp)%nat as Hlen by (rewrite length_pad; lia).
  assert (∀ h, h ∈ concat G' → h ∈ outs ∨ h ∈ concat Gp) as Hfrom.
  { intros h. unfold G', dst_ids. rewrite replaced_tables by done. intros [?|Hh]%elem_of_app; [by left|right].
    eapply elem_of_sublist; [exact Hh|]. apply rest_sublist. }
  rewrite Forall_forall in Hst, Hsz.
  assert (∀ h, h ∈ concat Gp → stored_ok d1 h ∧ sized opts h) as Hold.
  { intros h Hh. pose proof (tr_disk _ _ _ _ _ _ _ _ Ht1) as Hd1. unfold on_disk in Hd1.
    rewrite <-Forall_concat, Forall_forall in Hd1, Hs. auto. }
  split.
  - unfold on_disk. rewrite <-Forall_concat. apply Forall_forall. intros h [Hh|Hh]%Hfrom; [auto|by apply Hold].
  - rewrite <-Forall_concat. apply Forall_forall. intros h [Hh|Hh]%Hfrom; [auto|by apply Hold].
  - unfold G', replaced, replace_tables. by rewrite !length_alter.
  - eapply (compact_shape d d1 _ floor Gp l mn mx outs next min_snap bottom); try done.
    + by apply Forall_forall.
    + intros o Ho. by apply Hids.
    + intros e. rewrite Hout. apply kept_iff. intros x. apply in_tables_app.
  - intros h [Hh|Hh]%Hfrom; [by apply Hids|]. specialize (Hn _ Hh). lia.
Qed.

Definition compacted_manifest (G' : tree) (next' : N) : Manifest := mkManifest (metas G') next' (mf_last_seq m).

(** [compact_level] around its loop. *)
Lemma compact_level_run mn mx ops1 c outs :
  let dst_ids := overlapping mn mx (sd_table <$> dst) in
  let bottom := forallb (λ t, bool_decide (length t = 0%nat)) (drop (l + 2) (tables Gp)) in
  let srcs := merge_new (STable ∘ table_iter <$>
    (sd_table <$> picked_tables src_ids src ++ picked_tables dst_ids dst)) in
  let G' := replaced l src_ids dst_ids outs Gp in
  let m' := compacted_manifest G' (cp_next_id c) in
  src ≠ [] → input_range src_ids (sd_table <$> src) = (Some mn, Some mx) →
  (c ← for_merged (S (merge_size srcs)) (compact_entry opts (min_snapshot db) bottom) srcs
         (mkCompaction None 0 next 0 None false None []);
   finish_output c) d = (Ok c, ops1) →
  cp_outputs c = sd_meta <$> outs → Forall (stored_ok (apply_ops d ops1)) outs →
  compact_level l db d
    = (Ok (set_tables (tables G') m' db),
       ops1 ++ (save m' (apply_ops d ops1)).2 ++ (Remove ∘ FTable <$> src_ids ++ dst_ids)).
Proof.
  intros dst_ids bottom srcs G' m' Hsrc Hrange Hio Houts Hst. unfold compact_level.
  rewrite (ok_levels _ _ _ _ _ _ _ _ _ Hok), (ok_opts _ _ _ _ _ _ _ _ _ Hok).
  assert (pad (l + 2) (tables G) = tables Gp) as -> by apply pad_fmap.
  rewrite (pad_metas m (l + 2) G) by (lia || apply Hok).
  assert (level_at (tables Gp) l = sd_table <$> src) as -> by apply level_at_fmap.
  assert (level_at (tables Gp) (l + 1) = sd_table <$> dst) as -> by (rewrite Nat.add_1_r; apply level_at_fmap).
  assert (∀ (x y : IO Db), match src_ids with [] => x | _ => y end = y) as Hmatch.
  { destruct (source_ids_elem l (sd_table <$> src)) as (t & _ & Ht); [by destruct src|].
    intros x y. destruct src_ids; [by apply elem_of_nil in Ht|done]. }
  cbv zeta. rewrite Hmatch, Hrange. rewrite !picked_fmap, <-fmap_app. rewrite <-io_bind_assoc.
  cbn [mf_next_table_id]. eapply io_bind_intro; [exact Hio|]. cbv beta. rewrite Houts.
  cbn [mf_last_seq]. fold dst_ids.
  assert (replace_tables tm_id tm_min_key l src_ids dst_ids (sd_meta <$> outs) (metas Gp) = metas G') as ->
    by apply (replace_tables_fmap sd_meta).
  change (mkManifest (metas G') (cp_next_id c) (mf_last_seq m)) with m'.
  eapply io_bind_intro; [rewrite save_io; done|]. rewrite save_io. cbv beta. cbn [snd].
  assert (open_level (apply_ops (apply_ops d ops1) (save_ops (bool_decide (is_Some (apply_ops d ops1 !! FManifest))) m'))
    (sd_meta <$> outs) = Ok (sd_table <$> outs)) as Hop.
  { apply open_level_ok. rewrite Forall_forall in *. intros o Ho. eapply stored_ok_other; [|by apply Hst].
    pose proof (save_files m' (apply_ops d ops1)) as Hw. rewrite save_io in Hw. cbn [snd] in Hw.
    apply (within_other _ _ _ _ Hw). by intros [|]. }
  rewrite (reads_bind _ _ _ _ Hop).
  assert (replace_tables st_id min_key l src_ids dst_ids (sd_table <$> outs) (tables Gp) = tables G') as ->
    by apply (replace_tables_fmap sd_table).
  rewrite (io_bind_ok _ _ _ _ _ (remove_tables_io _ _)). cbn. by rewrite app_nil_r.
Qed.

Lemma compact_level_io :
  ∃ ops1 G' next' dead, let m' := compacted_manifest G' next' in let d1 := apply_ops d ops1 in
    compact_level l db d
      = (Ok (set_tables (tables G') m' db), ops1 ++ (save m' d1).2 ++ (Remove ∘ FTable <$> dead))
    ∧ Forall (within (new_table next)) ops1
    ∧ tree_ok ws d1 G' (N.max floor (min_snapshot db)) (mf_last_seq m) next'
    ∧ tree_ok ws d1 G floor (mf_last_seq m) next
    ∧ G' ≠ [] ∧ (∀ g, g ∈ concat G' → sd_id g ∉ dead)
    ∧ (weight (S D) G' < weight (S D) G)%nat.
Proof.
  assert (sd_table <$> src ≠ []) as Hts by (rewrite level_at_pad; by destruct (level_at G l)).
  destruct (input_range_Some l (sd_table <$> src) Hts) as (mn & mx & Hrange).
  destruct (source_ids_elem l (sd_table <$> src) Hts) as (t0 & Ht0 & Hid0).
  set (dst_ids := overlapping mn mx (sd_table <$> dst)).
  set (psrc := picked_tables src_ids src). set (pdst := picked_tables dst_ids dst).
  set (bottom := forallb (λ t, bool_decide (length t = 0%nat)) (drop (l + 2) (tables Gp))).
  destruct (compact_inputs_io (psrc ++ pdst) (min_snapshot db) bottom) as (ops1 & c & outs & Hio & Hw1 & (gc0 & Hlk) & Hout & Hcnt).
  { intros g. apply inputs_elem. }
  set (G' := replaced l src_ids dst_ids outs Gp).
  assert (∀ h, h ∈ concat Gp → apply_ops d ops1 !! FTable (sd_id h) = d !! FTable (sd_id h)) as Hfiles.
  { intros h Hh. apply (within_other _ _ _ _ Hw1). intros (id & [= <-] & Hle).
    apply (tr_next _ _ _ _ _ _ _ _ padded_tree) in Hh. lia. }
  assert (tree_ok ws (apply_ops d ops1) G' (N.max floor (min_snapshot db)) (mf_last_seq m) (cp_next_id c)) as Ht'.
  { destruct Hlk. eapply (compacted_tree mn mx _ outs _ bottom); try done.
    intros Hb j Hj. by apply bottom_empty. }
  exists ops1, G', (cp_next_id c), (src_ids ++ dst_ids). cbv zeta. split_and!.
  - apply (compact_level_run mn mx ops1 c outs); [|done|done|apply Hlk..]. by destruct src.
  - done.
  - done.
  - eapply tree_ok_files; [|apply (dk_tree _ _ _ _ _ _ _ _ _ _ (ok_disk _ _ _ _ _ _ _ _ _ Hok))].
    intros h Hh. apply Hfiles. by rewrite concat_pad.
  - apply (sh_nonempty _ _ _ (tr_shape _ _ _ _ _ _ _ _ Ht')).
  - intros g Hg. eapply dead_ids; [|exact Hg]. intros o Ho. by apply (lk_ids _ _ _ _ _ _ _ Hlk).
  - rewrite <-(weight_pad (S D) (l + 2) G). apply weight_replaced; [rewrite length_pad; lia|lia| |].
    + apply list_elem_of_fmap in Ht0 as (g & -> & Hg). apply (entries_of_pos _ g).
      * unfold picked_tables. by apply list_elem_of_filter.
      * eapply stored_nonempty, padded_stored, level_elem. exact Hg.
    + by rewrite entries_of_app in Hcnt.
Qed.

(** ** After the compaction, and after a crash in it *)

Definition dead_file (dead : list N) (f : file) : Prop := ∃ id, id ∈ dead ∧ f = FTable id.

Lemma remove_files dead : Forall (within (dead_file dead)) (Remove ∘ FTable <$> dead).
Proof. apply Forall_fmap, Forall_forall. intros id Hid. by exists id. Qed.

#[local] Arguments apply_ops : simpl never.

Section swap.
  Context (ops1 : list fs_op) (G' : tree) (next' : N) (dead : list N).

Abbreviation m' := (compacted_manifest G' next').
Abbreviation floor' := (N.max floor (min_snapshot db)).
Abbreviation d1 := (apply_ops d ops1).
Abbreviation d2 := (apply_ops d1 (save m' d1).2).
Abbreviation ops3 := (Remove ∘ FTable <$> dead).
Abbreviation d3 := (apply_ops d2 ops3).

  Hypothesis Hw1 : Forall (within (new_table next)) ops1.
  Hypothesis Ht' : tree_ok ws d1 G' floor' (mf_last_seq m) next'.
  Hypothesis Ht : tree_ok ws d1 G floor (mf_last_seq m) next.
  Hypothesis HG' : G' ≠ [].
  Hypothesis Hdead : ∀ g, g ∈ concat G' → sd_id g ∉ dead.

Lemma new_table_other f : (∀ id, f ≠ FTable id) → ¬ new_table next f.
Proof. intros Hf (id & -> & _). by apply (Hf id). Qed.

Lemma compact_floor : floor' ≤ N.of_nat (length ws).
Proof.
  pose proof (dk_floor _ _ _ _ _ _ _ _ _ _ (ok_disk _ _ _ _ _ _ _ _ _ Hok)).
  assert (min_snapshot db ≤ N.of_nat (length ws)); [|lia].
  rewrite <-(ok_seq _ _ _ _ _ _ _ _ _ Hok). apply min_snapshot_bound; [done|].
  intros s c Hs. by apply (ok_snaps _ _ _ _ _ _ _ _ _ Hok) in Hs as [[_ ?] _].
Qed.

Lemma swap_table id : id ∉ dead → d3 !! FTable id = d1 !! FTable id.
Proof.
  intros Hid. rewrite (within_other _ _ _ _ (remove_files dead)) by (by intros (id' & ? & [= <-])).
  apply (within_other _ _ _ _ (save_files m' d1)). by intros [|].
Qed.

Lemma swap_wal : d3 !! FWal = d !! FWal.
Proof.
  rewrite (within_other _ _ _ _ (remove_files dead)) by (by intros (id' & ? & ?)).
  rewrite (within_other _ _ _ _ (save_files m' d1)) by (by intros [|]).
  apply (within_other _ _ _ _ Hw1). by apply new_table_other.
Qed.

Lemma swap_installed : manifest_at d3 FManifest m'.
Proof.
  unfold manifest_at. rewrite (within_other _ _ _ _ (remove_files dead)) by (by intros (id' & ? & ?)).
  apply (save_installs m' d1).
Qed.

Lemma swap_db_ok : db_ok ws (set_tables (tables G') m' db) d3 G' floor' w0 bs.
Proof.
  destruct (ok_disk _ _ _ _ _ _ _ _ _ Hok) as [_ _ _ Hwal Hlast _].
  split; simpl; try apply Hok; [| |intros s c Hs|done].
  - split; simpl; [left; left; apply swap_installed|by left| | |done|apply compact_floor].
    + eapply tree_ok_files; [|exact Ht']. intros g Hg. by apply swap_table, Hdead.
    + eapply wal_ok_files; [apply swap_wal|done].
  - rewrite swap_wal. apply Hok.
  - pose proof (min_snapshot_le _ _ _ Hs). apply (ok_snaps _ _ _ _ _ _ _ _ _ Hok) in Hs. split; [lia|apply Hs].
Qed.

Lemma swap_crash_safe :
  o_sync opts = Always → crash_safe opts D ws d (ops1 ++ (save m' d1).2 ++ ops3).
Proof.
  intros Ha d' Hc. pose proof (wal_synced _ _ _ _ _ _ _ _ _ Hok Ha) as Hwal.
  destruct (ok_disk _ _ _ _ _ _ _ _ _ Hok) as [Hcat0 Hlev Ht0 Hw Hlast Hfloor].
  assert (∀ f, (∀ id, f ≠ FTable id) → d1 !! f = d !! f) as Hd1.
  { intros f Hf. apply (within_other _ _ _ _ Hw1). by apply new_table_other. }
  assert (catalog d1 m) as Hcat1 by (eapply catalog_files; [..|exact Hcat0]; by apply Hd1).
  apply outage_app in Hc as [Hc%outage_crashes|Hc]; [|apply outage_app in Hc as [Ho|Hc%outage_crashes]|].
  - exists m, G, floor, w0, bs, []. split; [|done| | |done..].
    + eapply catalog_crash; [exact Hc|exact Hw1|by apply new_table_other..|done].
    + eapply tree_ok_crash; [exact Hc|exact Hw1| |exact Ht0]. intros g Hg (id & [= <-] & Hle).
      apply (tr_next _ _ _ _ _ _ _ _ Ht0) in Hg. lia.
    + eapply wal_crash; [exact Hc|exact Hw1|by apply new_table_other|exact Hwal|done|exact Hw].
  - pose proof (outage_crashes _ _ _ Ho) as Hc.
    assert (∀ G0 fl l n, tree_ok ws d1 G0 fl l n → tree_ok ws d' G0 fl l n) as Htc.
    { intros G0 fl l0 n. eapply tree_ok_crash; [exact Hc|apply save_files|]. by intros g _ [|]. }
    assert (wal_ok opts ws d' w0 bs []) as Hwd'.
    { eapply wal_crash; [exact Hc|apply save_files|by intros [|]|by rewrite Hd1|done|].
      eapply wal_ok_files; [|exact Hw]. by apply Hd1. }
    destruct (save_crash d1 d' m m' Hcat1 Ho) as [Hcat|Hcat].
    + exists m, G, floor, w0, bs, []. split; [done|done|by apply Htc|done|done|done].
    + exists m', G', floor', w0, bs, []. split; [done|by left|by apply Htc|done|done|apply compact_floor].
  - assert (d2 !! FWal = d !! FWal) as Hd2.
    { rewrite (within_other _ _ _ _ (save_files m' d1)) by (by intros [|]). by apply Hd1. }
    exists m', G', floor', w0, bs, []. split; [|by left| | |done|apply compact_floor].
    + eapply catalog_crash; [exact Hc|apply remove_files|by intros (? & ? & ?)..|].
      left. left. apply (save_installs m' d1).
    + eapply tree_ok_crash; [exact Hc|apply remove_files| |].
      * intros g Hg (id & Hid & [= <-]). by eapply Hdead.
      * eapply tree_ok_files; [|exact Ht']. intros g _.
        apply (within_other _ _ _ _ (save_files m' d1)). by intros [|].
    + eapply wal_crash; [exact Hc|apply remove_files|by intros (? & ? & ?)|by rewrite Hd2|done|].
      eapply wal_ok_files; [exact Hd2|done].
  - left. apply mk_is_Some with (1 := save_installs m' d1).
  - eapply rests_within; [exact Hw1|by apply new_table_other..].
Qed.
End swap.
End level.

(** ** Repeated compaction *)

(** Options and operations for which tables fit their format, and level [D] is
    large enough for tables of all the operations. *)
Record room (ws : list write) : Prop := {
  rm_roomy : roomy opts (version ws);
  rm_trigger : 1 ≤ o_l0_trigger opts;
  rm_depth : (1 <= D)%nat;
  rm_level : ∀ ess : list (list Entry),
    Forall (λ es, es ≠ [] ∧ sorted es ∧ ∀ e, e ∈ es → version ws e) ess →
    StronglySorted (λ es es', ∀ e e', e ∈ es → e' ∈ es' → bytes_lt (key_of e) (key_of e')) ess →
    foldr N.add 0 (table_size (o_block_bytes opts) (o_bits_per_key opts) <$> ess) ≤ level_limit opts D;
}.

Lemma over_limit_Some db i n j :
  over_limit db i n = Some j → (i <= j < i + n)%nat ∧ level_limit (db_opts db) j < level_bytes db j.
Proof.
  revert i. induction n as [|n IH]; intros i; simpl; [done|].
  destruct (N.ltb_spec (level_limit (db_opts db) i) (level_bytes db i)) as [Hlt|_].
  - intros [= <-]. split; [lia|done].
  - intros [? ?]%IH. split; [lia|done].
Qed.

Lemma level_bytes_at ws db d G floor w0 bs i :
  db_ok ws db d G floor w0 bs →
  level_bytes db i = foldr N.add 0 (table_size (o_block_bytes opts) (o_bits_per_key opts) <$>
    (sd_entries <$> level_at G i)).
Proof.
  intros Hok. destruct (ok_disk _ _ _ _ _ _ _ _ _ Hok) as [_ Hlev [_ Hs _ _ _] _ _ _].
  unfold level_bytes. assert (default [] (mf_levels (db_manifest db) !! i) = sd_meta <$> level_at G i) as He.
  { destruct Hlev as [->|[-> ->]]; [apply level_at_fmap|]. destruct i as [|i]; done. }
  assert (Forall (sized opts) (level_at G i)) as Hsz.
  { unfold level_at. destruct (G !! i) as [gs|] eqn:Hi; [|constructor]. by apply (Forall_lookup_1 _ _ _ _ Hs Hi). }
  destruct (mf_levels (db_manifest db) !! i) as [ms|]; simpl in He.
  - subst ms. rewrite <-!list_fmap_compose. f_equal. apply list_fmap_ext.
    intros j g Hg. apply (Forall_lookup_1 _ _ _ _ Hsz Hg).
  - by destruct (level_at G i).
Qed.

Lemma bottom_within_limit ws db d G floor w0 bs :
  db_ok ws db d G floor w0 bs → room ws → level_bytes db D ≤ level_limit opts D.
Proof.
  intros Hok Hroom. rewrite (level_bytes_at _ _ _ _ _ _ _ _ Hok).
  destruct (ok_disk _ _ _ _ _ _ _ _ _ Hok) as [_ _ [Hd _ _ Hsh _] _ _ _].
  apply (rm_level _ Hroom).
  - apply Forall_fmap, Forall_forall. intros g Hg. pose proof (level_stored d G Hd _ _ Hg) as Hst. split_and!.
    + by eapply stored_nonempty.
    + apply (so_sorted _ _ Hst).
    + intros e He. eapply (tree_version _ _ _ _ D); [exact Hsh|]. apply in_level_at. by exists g.
  - pose proof (rm_depth _ Hroom). destruct D as [|D']; [lia|].
    pose proof (level_disjoint _ _ _ Hsh D') as Hdis.
    induction Hdis as [|g gs Hs IH Hall]; csimpl; constructor; [done|]. by apply Forall_fmap.
Qed.

Lemma level_at_bytes ws db d G floor w0 bs i :
  db_ok ws db d G floor w0 bs → 0 < level_bytes db i → level_at G i ≠ [].
Proof. intros Hok Hb He. rewrite (level_bytes_at _ _ _ _ _ _ _ _ Hok), He in Hb. simpl in Hb. lia. Qed.

(** What flush and compaction leave of the engine. *)
Record kept_db (db db' : Db) (d d' : Dir) : Prop := {
  kd_seq : db_seq db' = db_seq db;
  kd_snaps : db_snapshots db' = db_snapshots db;
  kd_rests : rests d d';
}.

Lemma kept_db_refl db d : kept_db db db d d.
Proof. split; [done..|apply rests_refl]. Qed.

Lemma kept_db_trans db db1 db2 d d1 d2 :
  kept_db db db1 d d1 → kept_db db1 db2 d1 d2 → kept_db db db2 d d2.
Proof. intros [? ? ?] [? ? ?]. split; [congruence..|by eapply rests_trans]. Qed.

Lemma crash_safe_app ws d ops1 ops2 :
  crash_safe opts D ws d ops1 → rests d (apply_ops d ops1) → crash_safe opts D ws (apply_ops d ops1) ops2 →
  crash_safe opts D ws d (ops1 ++ ops2).
Proof. intros H1 Hr H2 d' [Hc|Hc]%outage_app; auto. Qed.

(** One compaction, on the engine. *)
Lemma compact_level_ok ws db d G floor w0 bs l :
  db_ok ws db d G floor w0 bs → roomy opts (version ws) → (S l <= D)%nat → level_at G l ≠ [] →
  ∃ db' ops G' floor', compact_level l db d = (Ok db', ops)
    ∧ db_ok ws db' (apply_ops d ops) G' floor' w0 bs ∧ kept_db db db' d (apply_ops d ops)
    ∧ (weight (S D) G' < weight (S D) G)%nat
    ∧ (o_sync opts = Always → crash_safe opts D ws d ops).
Proof.
  intros Hok Hr Hl Hne.
  destruct (compact_level_io ws db d G floor w0 bs Hok Hr l Hl Hne)
    as (ops1 & G' & next' & dead & Hc & Hw1 & Ht' & Ht & HG' & Hdead & Hwt).
  eexists _, _, G', (N.max floor (min_snapshot db)). split; [exact Hc|]. rewrite !apply_ops_app. split_and!.
  - eapply swap_db_ok; eassumption.
  - split; [done|done|]. left. eapply mk_is_Some, swap_installed; eassumption.
  - done.
  - intros Ha. eapply swap_crash_safe; eassumption.
Qed.
End compact.
