(* ===== verification/DbEngine.v ===== *)
(** * The engine's operations

    Every operation of [Db] on an engine that stores [ws]: flush, repeated
    compaction, writes, opening after a crash, snapshots. *)

From S2P Require Import Prelude Order Codec Fs Wal Bloom Memtable SsTable SsTableFacts.
From S2P Require Import MergeIter MergeFacts Manifest Db LsmSpec DbRead DbCompact DbTree DbInv DbOps.
Local Open Scope N_scope.

#[local] Arguments apply_ops : simpl never.

Section engine.
  Context {crc : Crc32} {cw : Bincode WalBatch} {ci : Bincode TableIndex} {cm : Bincode Manifest}.
  Context {lw : BincodeLaws WalBatch} {li : BincodeLaws TableIndex} {lm : BincodeLaws Manifest}.
  Context (opts : Options) (D : nat).

Abbreviation db_ok := (db_ok opts D).
Abbreviation crash_safe := (crash_safe opts D).
Abbreviation room := (room opts D).

(** ** Flush and compaction *)

(** A computation that reorganizes the tables: it answers with an engine that
    stores the same operations, and a crash during it loses none of them. *)
Definition keeps (ws : list write) (db : Db) (d : Dir) (r : Res Db * list fs_op) : Prop :=
  let d' := apply_ops d r.2 in
  ∃ db', r.1 = Ok db' ∧ stores_writes opts D ws db' d' ∧ kept_db db db' d d'
    ∧ (o_sync opts = Always → crash_safe ws d r.2).

Lemma keeps_bind ws db d (m : IO Db) (k : Db → IO Db) :
  keeps ws db d (m d) →
  (∀ db' ops, m d = (Ok db', ops) → keeps ws db' (apply_ops d ops) (k db' (apply_ops d ops))) →
  keeps ws db d ((m ≫= k) d).
Proof.
  intros (db' & Hm & Hs & Hk & Hc) Hnext. destruct (m d) as [r ops] eqn:Hmd. simpl in *. subst r.
  destruct (Hnext _ _ eq_refl) as (db2 & Hk2 & Hs2 & Hkd2 & Hc2).
  unfold keeps. rewrite (io_bind_ok _ _ _ _ _ Hmd). cbn [fst snd]. rewrite apply_ops_app.
  exists db2. split_and!; [done|done|by eapply kept_db_trans|].
  intros Ha. apply crash_safe_app; [by apply Hc|apply Hk|by apply Hc2].
Qed.

(** An engine at rest survives a crash. *)
Lemma rest_crash_safe ws db d G floor w0 bs :
  db_ok ws db d G floor w0 bs → o_sync opts = Always → ∀ d', cut d d' → recoverable opts D ws d'.
Proof.
  intros Hok Ha d' Hc%crashes_nil. pose proof (wal_synced _ _ _ _ _ _ _ _ _ Hok Ha) as Hwal.
  destruct (ok_disk _ _ _ _ _ _ _ _ _ Hok) as [Hcat Hlev Ht Hw Hlast Hfloor].
  assert (Forall (within (λ _, False)) []) as Hnone by constructor.
  exists (db_manifest db), G, floor, w0, bs, []. split; [|done| | |done..].
  - eapply catalog_crash; [exact Hc|exact Hnone|auto|auto|done].
  - eapply tree_ok_crash; [exact Hc|exact Hnone|auto|done].
  - eapply wal_crash; [exact Hc|exact Hnone|auto|exact Hwal|done|done].
Qed.

Lemma keeps_rest ws db d : stores_writes opts D ws db d → keeps ws db d (Ok db, []).
Proof.
  intros Hs. exists db. split_and!; [done|done|apply kept_db_refl|].
  intros Ha d' Hc%outage_crashes%crashes_nil. destruct Hs as (G & floor & w0 & bs & Hok). by eapply rest_crash_safe.
Qed.

Lemma flush_keeps ws db d :
  stores_writes opts D ws db d → roomy opts (version ws) → keeps ws db d (db_flush db d).
Proof.
  intros Hs Hr. destruct (mt_is_empty (db_mem db)) eqn:He.
  { unfold db_flush. rewrite He. by apply keeps_rest. }
  destruct Hs as (G & floor & w0 & bs & Hok).
  destruct (flush_io _ _ _ _ _ _ _ _ _ Hok Hr He) as (ops1 & G' & Hf & Hw1 & Ht' & Ht & HG').
  unfold keeps. rewrite Hf. cbn [fst snd]. rewrite !apply_ops_app. eexists. split_and!; [done|..].
  - eexists G', floor, _, []. eapply flush_db_ok; eassumption.
  - split; [done|done|]. left. rewrite (within_other _ _ _ _ reset_files) by done.
    eapply mk_is_Some, (save_installs (flushed_manifest db G')).
  - intros Ha. eapply flush_crash_safe; eassumption.
Qed.

(** [maybe_compact] is done after at most one compaction per entry and level. *)
Lemma maybe_compact_keeps fuel ws db d G floor w0 bs :
  db_ok ws db d G floor w0 bs → room ws → (weight (S D) G < fuel)%nat →
  keeps ws db d (maybe_compact fuel db d).
Proof.
  revert db d G floor. induction fuel as [|fuel IH]; intros db d G floor Hok Hroom Hf; [lia|].
  assert (∀ l, (S l <= D)%nat → level_at G l ≠ [] →
    keeps ws db d ((compact_level l db ≫= maybe_compact fuel) d)) as Hstep.
  { intros l Hl Hne. destruct (compact_level_ok _ _ _ _ _ _ _ _ _ l Hok (rm_roomy _ _ _ Hroom) Hl Hne)
      as (db' & ops & G' & floor' & Hc & Hok' & Hk & Hw & Hcr).
    apply keeps_bind.
    - rewrite Hc. exists db'. split_and!; [done|by eexists _, _, _, _|done|done].
    - intros db'' ops'. rewrite Hc. intros [= <- <-]. eapply IH; [exact Hok'|done|lia]. }
  cbn [maybe_compact]. destruct (ok_disk _ _ _ _ _ _ _ _ _ Hok) as [_ _ [_ _ Hdep Hsh _] _ _ _].
  rewrite (ok_levels _ _ _ _ _ _ _ _ _ Hok). destruct G as [|l0 ls]; [by destruct (sh_nonempty _ _ _ Hsh)|].
  cbn. rewrite (ok_opts _ _ _ _ _ _ _ _ _ Hok), !length_fmap.
  destruct (N.leb_spec (o_l0_trigger opts) (N.of_nat (length l0))) as [Hge|_].
  { apply Hstep; [apply Hroom|]. pose proof (rm_trigger _ _ _ Hroom). unfold level_at. simpl.
    destruct l0; simpl in *; [lia|done]. }
  destruct (over_limit db 1 (length ls)) as [i|] eqn:Ho; [|apply keeps_rest; by eexists _, _, _, _].
  apply over_limit_Some in Ho as [Hi Hlim]. rewrite (ok_opts _ _ _ _ _ _ _ _ _ Hok) in Hlim.
  simpl in Hdep. apply Hstep.
  - destruct (decide (i = D)) as [->|]; [|lia].
    pose proof (bottom_within_limit _ _ _ _ _ _ _ _ _ Hok Hroom). lia.
  - eapply level_at_bytes; [exact Hok|]. lia.
Qed.

Lemma maybe_flush_keeps ws db d :
  stores_writes opts D ws db d → room ws →
  ∃ n, ∀ fuel, (n <= fuel)%nat → keeps ws db d (maybe_flush fuel db d).
Proof.
  intros Hs Hroom. pose proof (flush_keeps _ _ _ Hs (rm_roomy _ _ _ Hroom)) as Hfl.
  destruct (db_flush db d) as [r ops] eqn:Hf. unfold maybe_flush.
  destruct (o_memtable_bytes (db_opts db) <=? mt_bytes (db_mem db)).
  - assert (∃ db', r = Ok db' ∧ stores_writes opts D ws db' (apply_ops d ops)) as
      (db' & -> & G & floor & w0 & bs & Hok) by (destruct Hfl as (db' & ? & ? & _); eauto).
    exists (S (weight (S D) G)). intros fuel Hn. apply keeps_bind; [by rewrite Hf|].
    intros db'' ops'. rewrite Hf. intros [= <- <-]. eapply maybe_compact_keeps; [exact Hok|done|lia].
  - exists 0%nat. intros fuel _. by apply keeps_rest.
Qed.

(** ** Writes *)

Lemma insert_recent ws w0 k v m :
  (w0 <= length ws)%nat → (∀ e, in_mem m e ↔ recent ws w0 e) →
  ∀ e, in_mem (mt_insert k (N.of_nat (length ws) + 1) v m) e ↔ recent (ws ++ [(k, v)]) w0 e.
Proof.
  intros Hw Hm [[k' s] v']. unfold recent. rewrite version_app. specialize (Hm (k', s, v')).
  unfold in_mem, recent in *. simpl in *. rewrite lookup_insert_Some, Hm.
  assert (version (ws ++ [(k, v)]) (k', s, v') ∧ N.of_nat (length ws) < s ↔
    (k, N.of_nat (length ws) + 1) = (k', s) ∧ v = v') as ->.
  { split.
    - intros [(i & Hi & Hs) Hlt]. simpl in *. apply lookup_app_Some in Hi as [Hi%lookup_lt_Some|[_ Hi]]; [lia|].
      apply list_lookup_singleton_Some in Hi as [Hi [= -> ->]]. split; [|done]. f_equal. lia.
    - intros [[= <- <-] <-]. split; [|lia]. exists (length ws). simpl. split; [|lia].
      rewrite lookup_app_r, Nat.sub_diag by lia. done. }
  split.
  - intros [[[= <- <-] <-]|(_ & Hv & Hlt)]; [|by split; [left|]]. split; [by right|lia].
  - intros [[Hv|Heq] Hlt]; [right|by left]. split_and!; [|done|done].
    intros [= <- <-]. apply version_bounds in Hv. simpl in Hv. lia.
Qed.

Lemma insert_ops_recent ws w0 ops m :
  (w0 <= length ws)%nat → (∀ e, in_mem m e ↔ recent ws w0 e) →
  ∀ e, in_mem (insert_ops (N.of_nat (length ws) + 1) ops m) e ↔ recent (ws ++ ops) w0 e.
Proof.
  revert ws m. induction ops as [|[k v] ops IH]; intros ws m Hw Hm e; simpl; [by rewrite app_nil_r|].
  rewrite cons_middle, app_assoc, <-IH.
  - by rewrite length_app, Nat2N.inj_add.
  - rewrite length_app. lia.
  - by apply insert_recent.
Qed.

Lemma logged_snoc s bs ops b :
  logged s bs ops → wb_first_seq b = s + N.of_nat (length ops) → logged s (bs ++ [b]) (ops ++ wb_ops b).
Proof.
  revert s ops. induction bs as [|b0 bs IH]; intros s ops; simpl.
  - intros -> Hb. rewrite N.add_0_r in Hb. split; [done|]. exists []. by rewrite app_nil_r.
  - intros (H0 & rest & -> & Hl) Hb. split; [done|]. exists (rest ++ wb_ops b). rewrite app_assoc. split; [done|].
    apply IH; [done|]. rewrite Hb, length_app. lia.
Qed.

(** The file of the log after an append, and what a crash leaves of it. *)
Lemma wal_append_io b d data n :
  d !! FWal = Some (mkFile data n) → (o_sync opts = Always → n = length data) →
  ∃ ops, wal_append (o_sync opts) b d = (Ok tt, ops) ∧ Forall (within (.= FWal)) ops
    ∧ (∃ n', apply_ops d ops !! FWal = Some (mkFile (data ++ frame b) n')
        ∧ (o_sync opts = Always → n' = length (data ++ frame b)))
    ∧ (o_sync opts = Always → ∀ d', crashes d ops d' → ∃ j,
        let data' := data ++ take j (frame b) in d' !! FWal = Some (mkFile data' (length data'))).
Proof.
  intros Hd Hn. unfold wal_append, mbind, IO_bind. simpl.
  assert (apply_op d (Append FWal (frame b)) !! FWal = Some (mkFile (data ++ frame b) n)) as H1.
  { simpl. by rewrite lookup_alter_eq, Hd. }
  destruct (decide (o_sync opts = Always)) as [Ha|Hnever]; simpl.
  - assert (apply_ops d [Append FWal (frame b); Sync FWal] !! FWal
      = Some (mkFile (data ++ frame b) (length (data ++ frame b)))) as H2.
    { change (apply_ops d _) with (apply_op (apply_op d (Append FWal (frame b))) (Sync FWal)).
      simpl in *. by rewrite lookup_alter_eq, H1. }
    eexists. split; [done|]. split; [by repeat constructor|]. split; [by eauto|].
    intros _ d'. rewrite !crashes_cons, crashes_nil. intros [Hc|[Hc|Hc]].
    + exists 0%nat. rewrite take_0, app_nil_r. eapply cut_synced; [exact Hc| |done]. by rewrite Hd, Hn.
    + pose proof (cut_lookup _ _ FWal Hc) as Hl. rewrite H1 in Hl. destruct Hl as (y & -> & j & Hj & ->).
      simpl in *. exists (j - length data)%nat. specialize (Hn Ha). by rewrite take_app, take_ge by lia.
    + exists (length (frame b)). rewrite firstn_all. by eapply cut_synced.
  - eexists. split; [done|]. split; [by repeat constructor|]. split; [|done]. by eexists.
Qed.

Lemma tree_ok_append ws ops d G floor last next :
  tree_ok opts D ws d G floor last next → last ≤ N.of_nat (length ws) →
  tree_ok opts D (ws ++ ops) d G floor last next.
Proof. intros [? ? ? Hsh ?] Hle. split; [done..| |done]. by rewrite take_app_le by lia. Qed.

Lemma room_app ws ops : room (ws ++ ops) → room ws.
Proof.
  intros [[? Hsm Hfit] ? ? Hlev]. split; [split|done|done|].
  - done.
  - intros e He. by apply Hsm, version_app_l.
  - intros es Hne Hs He. apply Hfit; [done..|]. intros e Hin. by apply version_app_l, He.
  - intros ess Hess. apply Hlev. eapply Forall_impl; [exact Hess|]. simpl.
    intros es (? & ? & He). split_and!; [done..|]. intros e Hin. by apply version_app_l, He.
Qed.

Section write.
  Context (ws : list write) (db : Db) (d : Dir) (G : tree) (floor : N) (w0 : nat) (bs : list WalBatch).
  Context (Hok : db_ok ws db d G floor w0 bs) (ops : list write).

Abbreviation batch := (mkBatch (db_seq db + 1) ops).

  Hypothesis Hfits : fits batch.

Lemma wal_ok_append d' n :
  d' !! FWal = Some (mkFile (frames (bs ++ [batch])) n) →
  (o_sync opts = Always → n = length (frames (bs ++ [batch]))) →
  wal_ok opts (ws ++ ops) d' w0 (bs ++ [batch]) [].
Proof.
  intros Hd' Hn. destruct (ok_disk _ _ _ _ _ _ _ _ _ Hok) as [_ _ _ [Hl Hf _] Hlast _]. split.
  - rewrite drop_app_le by lia. apply (logged_snoc _ _ _ batch Hl). simpl.
    rewrite length_drop, (ok_seq _ _ _ _ _ _ _ _ _ Hok). lia.
  - apply Forall_app. by repeat constructor.
  - rewrite Hd'. simpl. by rewrite app_nil_r.
Qed.

Lemma frames_snoc b : frames (bs ++ [b]) = frames bs ++ frame b.
Proof. rewrite frames_app. unfold frames at 2. simpl. by rewrite app_nil_r. Qed.

(** The engine once the batch is in the log and in the memtable. *)
Abbreviation written := (set_mem (insert_ops (db_seq db + 1) ops (db_mem db))
  (db_seq db + 1 + N.of_nat (length ops) - 1) db).

Lemma written_ok d1 n :
  (∀ f, f ≠ FWal → d1 !! f = d !! f) → d1 !! FWal = Some (mkFile (frames (bs ++ [batch])) n) →
  (o_sync opts = Always → n = length (frames (bs ++ [batch]))) →
  db_ok (ws ++ ops) written d1 G floor w0 (bs ++ [batch]).
Proof.
  intros Ho Hd1 Hn. pose proof (ok_seq _ _ _ _ _ _ _ _ _ Hok) as Hseq.
  destruct (ok_disk _ _ _ _ _ _ _ _ _ Hok) as [Hcat Hlev Ht Hw Hlast Hfloor].
  split; simpl; try apply Hok.
  - split; simpl; [| |eapply tree_ok_files; [|apply tree_ok_append; [exact Ht|lia]]|by eapply wal_ok_append|..].
    + eapply catalog_files; [..|exact Hcat]; by apply Ho.
    + done.
    + intros g _. by apply Ho.
    + rewrite length_app. lia.
    + rewrite length_app. lia.
  - by exists n.
  - rewrite length_app, Hseq. lia.
  - intros s c Hs. apply (ok_snaps _ _ _ _ _ _ _ _ _ Hok) in Hs. split; [lia|apply Hs].
  - intros e. rewrite Hseq. apply insert_ops_recent; [lia|apply Hok].
Qed.

(** A crash while the batch is appended to the log: it is lost or it is stored. *)
Lemma append_crash fs d' :
  o_sync opts = Always → Forall (within (.= FWal)) fs →
  crashes d fs d' →
  (∃ j, let data := frames bs ++ take j (frame batch) in d' !! FWal = Some (mkFile data (length data))) →
  recoverable opts D ws d' ∨ recoverable opts D (ws ++ ops) d'.
Proof.
  intros Ha Hw Hc [j Hd']. simpl in Hd'.
  destruct (ok_disk _ _ _ _ _ _ _ _ _ Hok) as [Hcat Hlev Ht [Hlog Hf _] Hlast Hfloor].
  assert (catalog d' (db_manifest db)) by by eapply catalog_crash.
  assert (tree_ok opts D ws d' G floor (mf_last_seq (db_manifest db)) (mf_next_table_id (db_manifest db)))
    as Ht' by by eapply tree_ok_crash.
  destruct (decide (j < length (frame batch))%nat) as [Hlt|Hge].
  - left. exists (db_manifest db), G, floor, w0, bs, (take j (frame batch)). split; [done..| |done|done].
    split; [done..|]. rewrite Hd'. simpl. split_and!; [done| |done]. by apply next_frame_torn.
  - right. rewrite take_ge, <-frames_snoc in Hd' by lia.
    exists (db_manifest db), G, floor, w0, (bs ++ [batch]), [].
    split; [done|done|apply tree_ok_append; [done|lia]|by eapply wal_ok_append|rewrite length_app; lia..].
Qed.
End write.

Lemma write_batch_spec ws db d ops :
  stores_writes opts D ws db d → room (ws ++ ops) → fits (mkBatch (db_seq db + 1) ops) →
  ∃ n, ∀ fuel, (n <= fuel)%nat → ∃ db' fs, let d' := apply_ops d fs in
    write_batch fuel ops db d = (Ok (N.of_nat (length (ws ++ ops)), db'), fs)
    ∧ stores_writes opts D (ws ++ ops) db' d' ∧ db_snapshots db' = db_snapshots db
    ∧ rests d d'
    ∧ (o_sync opts = Always →
       ∀ d1, outage d fs d1 → recoverable opts D ws d1 ∨ recoverable opts D (ws ++ ops) d1).
Proof.
  intros (G & floor & w0 & bs & Hok) Hroom Hfit. destruct ops as [|w ops'].
  { exists 0%nat. intros fuel _. rewrite app_nil_r in *. exists db, []. simpl.
    rewrite (ok_seq _ _ _ _ _ _ _ _ _ Hok). split_and!; [done|by eexists _, _, _, _|done|apply rests_refl|].
    intros Ha d1 Hc%outage_crashes%crashes_nil. left. by eapply rest_crash_safe. }
  set (ops := w :: ops') in *. destruct (ok_synced _ _ _ _ _ _ _ _ _ Hok) as (n & Hwal & Hn).
  destruct (wal_append_io (mkBatch (db_seq db + 1) ops) d _ _ Hwal Hn)
    as (fs & Hap & Hw & (n' & Hwal' & Hn') & Hcrash).
  rewrite <-frames_snoc in Hwal', Hn'.
  assert (∀ f, f ≠ FWal → apply_ops d fs !! f = d !! f) as Ho.
  { intros f Hf. by apply (within_other _ _ _ _ Hw). }
  pose proof (written_ok _ _ _ _ _ _ _ Hok ops Hfit _ _ Ho Hwal' Hn') as Hok'.
  destruct (maybe_flush_keeps _ _ _ ltac:(by eexists _, _, _, _) Hroom) as [n0 Hflush].
  exists n0. intros fuel Hfuel. destruct (Hflush fuel Hfuel) as (db' & Hr & Hst & Hk & Hcs).
  destruct (maybe_flush fuel _ _) as [r fs'] eqn:Hmf. cbn [fst snd] in *. subst r.
  exists db', (fs ++ fs'). cbv zeta. rewrite apply_ops_app. split_and!.
  - unfold write_batch. change (w :: ops') with ops. rewrite (ok_opts _ _ _ _ _ _ _ _ _ Hok).
    eapply io_bind_intro; [exact Hap|]. rewrite <-(app_nil_r fs'). eapply io_bind_intro; [exact Hmf|].
    destruct Hst as (? & ? & ? & ? & Hst). by rewrite <-(ok_seq _ _ _ _ _ _ _ _ _ Hst).
  - done.
  - by rewrite (kd_snaps _ _ _ _ Hk).
  - eapply rests_trans; [by eapply rests_within|apply Hk].
  - intros Ha d1 [Hc%outage_crashes|Hc]%outage_app; [| |by eapply rests_within].
    + eapply append_crash; try eassumption. by apply Hcrash.
    + right. by apply Hcs.
Qed.

(** ** Opening *)

Lemma open_levels_ok d G : on_disk d G → open_levels d (metas G) = Ok (tables G).
Proof.
  intros Hd. induction Hd as [|gs G Hgs HG IH]; [done|]. cbn. rewrite (open_level_ok _ _ Hgs). cbn.
  unfold metas, tables in IH. by rewrite IH.
Qed.

Lemma replay_ops_insert s ops m q :
  0 < s → s - 1 ≤ q →
  replay_ops s ops (m, q) = (insert_ops s ops m, N.max q (s - 1 + N.of_nat (length ops))).
Proof.
  revert s m q. induction ops as [|[k v] ops IH]; intros s m q Hs Hq; simpl.
  - f_equal. lia.
  - rewrite IH by lia. f_equal. lia.
Qed.

Lemma replay_batches_ok bs pre ops w0 m q :
  logged (N.of_nat (length pre) + 1) bs ops → (w0 <= length pre)%nat → N.of_nat (length pre) ≤ q →
  (∀ e, in_mem m e ↔ recent pre w0 e) →
  let st := replay_batches bs (m, q) in
  (∀ e, in_mem st.1 e ↔ recent (pre ++ ops) w0 e) ∧ st.2 = N.max q (N.of_nat (length (pre ++ ops))).
Proof.
  revert pre ops m q. induction bs as [|b bs IH]; intros pre ops m q; simpl.
  - intros -> Hw Hq Hm. rewrite app_nil_r. split; [done|lia].
  - intros (Hb & rest & -> & Hl) Hw Hq Hm. rewrite Hb, replay_ops_insert by lia.
    replace (N.of_nat (length pre) + 1 - 1 + N.of_nat (length (wb_ops b)))
      with (N.of_nat (length (pre ++ wb_ops b))) by (rewrite length_app; lia).
    destruct (IH (pre ++ wb_ops b) rest (insert_ops (N.of_nat (length pre) + 1) (wb_ops b) m)
      (N.max q (N.of_nat (length (pre ++ wb_ops b))))) as [H1 H2].
    + by rewrite length_app, Nat2N.inj_add, <-N.add_assoc, (N.add_comm _ 1), N.add_assoc.
    + rewrite length_app. lia.
    + lia.
    + by apply insert_ops_recent.
    + rewrite <-app_assoc in H1, H2. split; [done|]. rewrite !length_app in *. lia.
Qed.

(** The log after [replay] and [wal_open]. *)
Lemma wal_reopen ws d w0 bs tail :
  wal_ok opts ws d w0 bs tail →
  ∃ ops1 ops2, replay d = (Ok bs, ops1) ∧ wal_open (apply_ops d ops1) = (Ok tt, ops2)
    ∧ Forall (within (.= FWal)) (ops1 ++ ops2)
    ∧ (∃ n, apply_ops d (ops1 ++ ops2) !! FWal = Some (mkFile (frames bs) n)
        ∧ (o_sync opts = Always → n = length (frames bs)))
    ∧ (o_sync opts = Always → ∀ d', crashes d (ops1 ++ ops2) d' → ∃ tail', wal_ok opts ws d' w0 bs tail').
Proof.
  intros Hw. pose proof Hw as [Hl Hf Hfile]. destruct (d !! FWal) as [x|] eqn:Hx.
  - destruct Hfile as (Hd & Ht & Hs). destruct (replay_io _ _ _ _ Hx Hd Hf Ht) as (ops1 & n & Hr & Ho & Hn & Hsy).
    exists ops1, [Touch FWal]. split_and!; [done|done|..].
    + destruct Ho as [-> | ->]; by repeat constructor.
    + exists n. rewrite apply_ops_app. unfold apply_ops at 1. simpl. rewrite Hn. split; [done|]. auto.
    + intros Ha d' Hc. specialize (Hs Ha). rewrite Hsy in Hn by done.
      assert (∀ t, next_frame t = None → d' !! FWal = Some (mkFile (frames bs ++ t) (length (frames bs ++ t))) →
        ∃ tail', wal_ok opts ws d' w0 bs tail') as Hdone.
      { intros t Hnt Hd'. exists t. split; [done..|]. by rewrite Hd'. }
      assert (cut d d' → ∃ tail', wal_ok opts ws d' w0 bs tail') as Hcut.
      { intros Hc'. apply (Hdone tail Ht). rewrite <-Hd. rewrite (cut_synced _ _ _ _ Hc' Hx Hs).
        f_equal. destruct x; simpl in *; congruence. }
      assert (∀ d0, cut d0 d' → d0 !! FWal = Some (mkFile (frames bs) (length (frames bs))) →
        ∃ tail', wal_ok opts ws d' w0 bs tail') as Hfr.
      { intros d0 Hc' Hd0. apply (Hdone []); [done|]. rewrite app_nil_r. by eapply cut_synced. }
      apply crashes_app in Hc as [Hc|Hc].
      * destruct Ho as [-> | ->]; rewrite ?crashes_cons, crashes_nil in Hc; [by apply Hcut|].
        destruct Hc as [Hc|[Hc|Hc]]; [by apply Hcut|eapply Hfr; [exact Hc|]..].
        -- simpl. rewrite lookup_alter_eq, Hx. simpl. rewrite Hs, Hd, resize_le, take_app_length
             by (rewrite length_app; lia). by rewrite Nat.min_l by (rewrite length_app; lia).
        -- done.
      * rewrite crashes_cons, crashes_nil in Hc. destruct Hc as [Hc|Hc]; (eapply Hfr; [exact Hc|]); [done|].
        simpl. by rewrite Hn.
  - destruct Hfile as [-> ->]. exists [], [Touch FWal]. split_and!; [by apply replay_missing|done|..].
    + by repeat constructor.
    + exists 0%nat. unfold apply_ops. simpl. rewrite Hx, lookup_insert_eq. done.
    + intros Ha d'. simpl. rewrite crashes_cons, crashes_nil. simpl. rewrite Hx. intros Hc. exists [].
      split; [done..|]. destruct Hc as [Hc|Hc].
      * by rewrite (cut_None _ _ _ Hc Hx).
      * by rewrite (cut_synced _ _ _ _ Hc (lookup_insert_eq _ _ _) eq_refl).
Qed.

(** The engine that [db_open] builds before it flushes. *)
Lemma opened_ok ws d d1 m G floor w0 bs tail n :
  disk_ok opts D ws d m G floor w0 bs tail → (∀ f, f ≠ FWal → d1 !! f = d !! f) →
  d1 !! FWal = Some (mkFile (frames bs) n) → (o_sync opts = Always → n = length (frames bs)) →
  let st := replay_batches bs (mt_new, mf_last_seq m) in
  db_ok ws (mkDb opts st.1 (tables G) m st.2 ∅) d1 G floor w0 bs.
Proof.
  intros [Hcat Hlev Ht Hw Hlast Hfloor] Ho Hd1 Hn.
  destruct (replay_batches_ok bs (take w0 ws) (drop w0 ws) w0 mt_new (mf_last_seq m)) as [Hmem Hseq].
  { rewrite length_take, Nat.min_l by lia. apply Hw. }
  { rewrite length_take. lia. }
  { rewrite length_take. lia. }
  { intros e. split; [by intros Hm|]. intros [Hv%version_bounds Hs]. rewrite length_take in Hv. lia. }
  rewrite take_drop in Hmem, Hseq. cbv zeta. split; simpl; [|by exists n|done|lia|done|done|done].
  split; [|done| | |done|done].
  - eapply catalog_files; [..|exact Hcat]; by apply Ho.
  - eapply tree_ok_files; [|exact Ht]. intros g _. by apply Ho.
  - destruct Hw as [Hl Hf _]. split; [done..|]. rewrite Hd1. simpl. by rewrite app_nil_r.
Qed.

(** The run of [db_open] up to the flush. *)
Lemma db_open_run fuel d m G bs ops1 ops2 r fs :
  catalog d m → catalogues m G → on_disk d G → G ≠ [] →
  replay d = (Ok bs, ops1) → wal_open (apply_ops d ops1) = (Ok tt, ops2) →
  (let st := replay_batches bs (mt_new, mf_last_seq m) in
   maybe_flush fuel (mkDb opts st.1 (tables G) m st.2 ∅) (apply_ops d (ops1 ++ ops2)) = (r, fs)) →
  db_open fuel opts d = (r, (ops1 ++ ops2) ++ fs).
Proof.
  intros Hcat Hlev Hd HG Hr Hwo Hmf. rewrite apply_ops_app in Hmf. rewrite <-app_assoc. unfold db_open.
  assert (∃ lm, load d = Ok lm ∧ default manifest_default lm = m) as (lm0 & Hload & Hm).
  { destruct (load_catalog _ _ Hcat) as [?|[-> ?]]; eauto. }
  rewrite (reads_bind _ _ _ _ Hload). cbv beta. rewrite Hm.
  assert (∃ L, open_levels d (mf_levels m) = Ok L ∧ match L with [] => [[]] | _ => L end = tables G)
    as (L & HL & HLG).
  { destruct Hlev as [->|[-> ->]].
    - exists (tables G). split; [by apply open_levels_ok|]. by destruct G.
    - by exists []. }
  rewrite (reads_bind _ _ _ _ HL). cbv beta zeta. rewrite HLG. eapply io_bind_intro; [exact Hr|].
  destruct (replay_batches bs _) as [mem seq] eqn:Hst. eapply io_bind_intro; [exact Hwo|].
  rewrite <-Hmf. unfold maybe_flush. simpl. done.
Qed.

Lemma db_open_spec ws d :
  recoverable opts D ws d → room ws →
  ∃ n, ∀ fuel, (n <= fuel)%nat → ∃ db fs, let d' := apply_ops d fs in
    db_open fuel opts d = (Ok db, fs) ∧ stores_writes opts D ws db d' ∧ db_snapshots db = ∅
    ∧ rests d d' ∧ (o_sync opts = Always → crash_safe ws d fs).
Proof.
  intros (m & G & floor & w0 & bs & tail & Hdk) Hroom. pose proof Hdk as [Hcat Hlev Ht Hw Hlast Hfloor].
  destruct (wal_reopen _ _ _ _ _ Hw) as (ops1 & ops2 & Hr & Hwo & Hwi & (n & Hwal & Hn) & Hwc).
  assert (∀ f, f ≠ FWal → apply_ops d (ops1 ++ ops2) !! f = d !! f) as Ho.
  { intros f Hf. by apply (within_other _ _ _ _ Hwi). }
  pose proof (opened_ok _ _ _ _ _ _ _ _ _ _ Hdk Ho Hwal Hn) as Hok. cbv zeta in Hok.
  destruct (maybe_flush_keeps _ _ _ ltac:(by eexists _, _, _, _) Hroom) as [n0 Hflush].
  exists n0. intros fuel Hfuel. destruct (Hflush fuel Hfuel) as (db & Hres & Hst & Hk & Hcs).
  destruct (maybe_flush fuel _ _) as [r fs'] eqn:Hmf. cbn [fst snd] in *. subst r.
  exists db, ((ops1 ++ ops2) ++ fs'). cbv zeta. rewrite (apply_ops_app _ (ops1 ++ ops2)). split_and!.
  - eapply db_open_run; [exact Hcat|exact Hlev|apply Ht|exact (sh_nonempty _ _ _ (tr_shape _ _ _ _ _ _ _ _ Ht))|exact Hr|exact Hwo|exact Hmf].
  - done.
  - by rewrite (kd_snaps _ _ _ _ Hk).
  - eapply rests_trans; [by eapply rests_within|apply Hk].
  - intros Ha d' [Hc%outage_crashes|Hc]%outage_app; [|by apply Hcs|by eapply rests_within].
    destruct (Hwc Ha _ Hc) as [tail' Hw']. exists m, G, floor, w0, bs, tail'. split; [|done| |done..].
    + by eapply catalog_crash.
    + by eapply tree_ok_crash.
Qed.
End engine.
