(* ===== verification/DbProps.v ===== *)
(** * What the storage engine promises

    The theorems about [Db]: reads agree with the list of operations written, at
    the current state and at every live snapshot; compaction terminates and is
    invisible to reads; a batch is written atomically and, with [Always], survives
    a crash at any point of any operation; opening recovers. *)

From S2P Require Import Prelude Order Codec Fs Wal Bloom Memtable SsTable SsTableFacts.
From S2P Require Import MergeIter MergeFacts Manifest Db LsmSpec DbRead DbCompact DbTree DbInv DbOps DbEngine.
Local Open Scope N_scope.

#[local] Arguments apply_ops : simpl never.

Section props.
  Context {crc : Crc32} {cw : Bincode WalBatch} {ci : Bincode TableIndex} {cm : Bincode Manifest}.

(** ** Fuel *)

Lemma maybe_compact_mono fuel fuel' db d db' fs :
  maybe_compact fuel db d = (Ok db', fs) → (fuel <= fuel')%nat → maybe_compact fuel' db d = (Ok db', fs).
Proof.
  revert fuel' db d fs. induction fuel as [|fuel IH]; intros [|fuel'] db d fs Hc Hle; [done|done|lia|].
  cbn [maybe_compact] in *.
  assert (∀ l, (compact_level l db ≫= maybe_compact fuel) d = (Ok db', fs) →
    (compact_level l db ≫= maybe_compact fuel') d = (Ok db', fs)) as Hbind.
  { intros l (db1 & fs1 & fs2 & H1 & H2 & ->)%io_bind_inv. eapply io_bind_intro; [exact H1|].
    apply IH; [done|lia]. }
  destruct (db_levels db) as [|l0 ls]; [done|].
  destruct (_ <=? _); [by apply Hbind|]. destruct (over_limit _ _ _); [by apply Hbind|done].
Qed.

Lemma maybe_flush_mono fuel fuel' db d db' fs :
  maybe_flush fuel db d = (Ok db', fs) → (fuel <= fuel')%nat → maybe_flush fuel' db d = (Ok db', fs).
Proof.
  unfold maybe_flush. destruct (_ <=? _); [|done].
  intros (db1 & fs1 & fs2 & H1 & H2 & ->)%io_bind_inv Hle. eapply io_bind_intro; [exact H1|].
  by eapply maybe_compact_mono.
Qed.

Lemma write_batch_mono fuel fuel' ops db d r fs :
  write_batch fuel ops db d = (Ok r, fs) → (fuel <= fuel')%nat → write_batch fuel' ops db d = (Ok r, fs).
Proof.
  unfold write_batch. destruct ops as [|w ops]; [done|].
  intros (u & fs1 & fs2 & H1 & (db1 & fs3 & fs4 & H2 & H3 & ->)%io_bind_inv & ->)%io_bind_inv Hle.
  eapply io_bind_intro; [exact H1|]. eapply io_bind_intro; [|exact H3]. by eapply maybe_flush_mono.
Qed.

Lemma db_open_mono fuel fuel' opts d db fs :
  db_open fuel opts d = (Ok db, fs) → (fuel <= fuel')%nat → db_open fuel' opts d = (Ok db, fs).
Proof.
  unfold db_open.
  intros (m & fs1 & fs2 & H1 & (L & fs3 & fs4 & H2 & (bs & fs5 & fs6 & H3 & H4 & ->)%io_bind_inv & ->)%io_bind_inv
    & ->)%io_bind_inv Hle.
  eapply io_bind_intro; [exact H1|]. eapply io_bind_intro; [exact H2|]. eapply io_bind_intro; [exact H3|].
  destruct (replay_batches _ _) as [mem seq].
  apply io_bind_inv in H4 as (u & fs7 & fs8 & H4 & H5 & ->). eapply io_bind_intro; [exact H4|].
  destruct (_ <=? _); [|done].
  apply io_bind_inv in H5 as (db1 & fs9 & fs10 & H5 & H6 & ->). eapply io_bind_intro; [exact H5|].
  by eapply maybe_compact_mono.
Qed.

Lemma scan_loop_fuel fuel d start end_ limit it out :
  (merge_size (vi_inner it) < fuel)%nat → scan_loop fuel d start end_ limit it out ≠ Err NoFuel.
Proof.
  revert it out. induction fuel as [|fuel IH]; intros it out Hf; [lia|]. cbn [scan_loop].
  pose proof (visible_next_fuel (S fuel) d it Hf) as Hn. unfold mbind, Res_bind.
  destruct (visible_next (S fuel) d it) as [[[e|] it']|err]; [|done|by subst].
  specialize (Hn ltac:(eauto)). repeat case_match; try done; apply IH; lia.
Qed.

(** C34: A scan terminates on every engine and every directory, whatever the
    tables hold: the loop over the merged versions never runs out of turns. *)
Theorem scan_terminates db start end_ limit t d : scan_at db start end_ limit t d ≠ Err NoFuel.
Proof. apply scan_loop_fuel. unfold visible_new. simpl. lia. Qed.

(** ** Snapshots *)

  Context {lw : BincodeLaws WalBatch} {li : BincodeLaws TableIndex} {lm : BincodeLaws Manifest}.
  Context (opts : Options) (D : nat).

Lemma db_ok_snapshots ws db d G floor w0 bs snaps :
  db_ok opts D ws db d G floor w0 bs →
  (∀ s c, snaps !! s = Some c → floor ≤ s ≤ db_seq db ∧ 0 < c) →
  db_ok opts D ws (set_snapshots snaps db) d G floor w0 bs.
Proof. intros [? ? ? ? ? ? ?] Hs. by split. Qed.

Lemma snapshot_ok ws db d : stores_writes opts D ws db d → stores_writes opts D ws (snapshot db).2 d.
Proof.
  intros (G & floor & w0 & bs & Hok). exists G, floor, w0, bs. apply db_ok_snapshots; [done|].
  intros s c [[<- <-]|[_ Hs]]%lookup_insert_Some; [|by apply (ok_snaps _ _ _ _ _ _ _ _ _ Hok) in Hs].
  pose proof (dk_floor _ _ _ _ _ _ _ _ _ _ (ok_disk _ _ _ _ _ _ _ _ _ Hok)).
  rewrite (ok_seq _ _ _ _ _ _ _ _ _ Hok). split; lia.
Qed.

Lemma drop_snapshot_ok ws db d seq :
  stores_writes opts D ws db d → stores_writes opts D ws (drop_snapshot seq db) d.
Proof.
  intros (G & floor & w0 & bs & Hok). exists G, floor, w0, bs. unfold drop_snapshot.
  destruct (db_snapshots db !! seq) as [c|] eqn:Hc; [|done]. apply db_ok_snapshots; [done|].
  intros s c'. destruct (N.eqb_spec (c - 1) 0) as [He|Hne].
  - intros [_ Hs]%lookup_delete_Some. by apply (ok_snaps _ _ _ _ _ _ _ _ _ Hok) in Hs.
  - intros [[<- <-]|[_ Hs]]%lookup_insert_Some; [|by apply (ok_snaps _ _ _ _ _ _ _ _ _ Hok) in Hs].
    apply (ok_snaps _ _ _ _ _ _ _ _ _ Hok) in Hc. split; [apply Hc|lia].
Qed.

(** ** Reads *)

(** The sequence numbers the engine promises to read at: the current one and those
    of the live snapshots. *)
Definition readable (db : Db) (t : N) : Prop := t = db_seq db ∨ is_Some (db_snapshots db !! t).

Lemma stores_reads ws db d t :
  stores_writes opts D ws db d → readable db t →
  (∀ key, get_at db key t d = Ok (view ws t !! key)) ∧
  (∀ start end_ limit, 0 < limit →
    scan_at db start end_ limit t d = Ok (take (N.to_nat limit) (kv_range (view ws t) start end_))).
Proof.
  intros (G & floor & w0 & bs & Hok) Ht. pose proof (db_ok_answers _ _ _ _ _ _ _ _ _ Hok) as Ha.
  assert (floor ≤ t).
  { destruct Ht as [->|[c Hc]]; [|by apply (ok_snaps _ _ _ _ _ _ _ _ _ Hok) in Hc as [[? _] _]].
    rewrite (ok_seq _ _ _ _ _ _ _ _ _ Hok). apply (ok_disk _ _ _ _ _ _ _ _ _ Hok). }
  split; intros; [by eapply get_at_view|by eapply scan_at_view].
Qed.

(** The engine answers every read it promises with the operations [ws]. *)
Definition serves (ws : list write) (db : Db) (d : Dir) : Prop :=
  db_seq db = N.of_nat (length ws) ∧
  ∀ t, readable db t →
    (∀ key, get_at db key t d = Ok (view ws t !! key)) ∧
    (∀ start end_ limit, 0 < limit →
      scan_at db start end_ limit t d = Ok (take (N.to_nat limit) (kv_range (view ws t) start end_))).

Lemma stores_serves ws db d : stores_writes opts D ws db d → serves ws db d.
Proof.
  intros Hs. split; [|intros t; by apply stores_reads].
  destruct Hs as (G & floor & w0 & bs & Hok). apply (ok_seq _ _ _ _ _ _ _ _ _ Hok).
Qed.

Lemma view_app_le ws ops t : t ≤ N.of_nat (length ws) → view (ws ++ ops) t = view ws t.
Proof. intros Ht. unfold view. by rewrite take_app_le by lia. Qed.

Lemma snapshot_bound ws db d t :
  stores_writes opts D ws db d → is_Some (db_snapshots db !! t) → t ≤ N.of_nat (length ws).
Proof.
  intros (G & floor & w0 & bs & Hok) [c Hc]. rewrite <-(ok_seq _ _ _ _ _ _ _ _ _ Hok).
  by apply (ok_snaps _ _ _ _ _ _ _ _ _ Hok) in Hc as [[_ ?] _].
Qed.

(** C17: Compaction terminates and is invisible. Given enough turns, the loop of
    [maybe_compact] answers with an engine that reads, at the current sequence
    number and at every live snapshot, exactly what the engine read before, point
    lookups and range scans alike. *)
Theorem compaction_invisible ws db d :
  stores_writes opts D ws db d → room opts D ws →
  ∃ n, ∀ fuel, (n <= fuel)%nat → ∃ db' fs, maybe_compact fuel db d = (Ok db', fs) ∧
    ∀ t, readable db t → readable db' t ∧
      (∀ key, get_at db' key t (apply_ops d fs) = get_at db key t d) ∧
      (∀ start end_ limit, 0 < limit →
        scan_at db' start end_ limit t (apply_ops d fs) = scan_at db start end_ limit t d).
Proof.
  intros Hs Hroom. pose proof Hs as (G & floor & w0 & bs & Hok).
  exists (S (weight (S D) G)). intros fuel Hn.
  destruct (maybe_compact_keeps _ _ fuel _ _ _ _ _ _ _ Hok Hroom Hn) as (db' & Hr & Hs' & Hk & _).
  destruct (maybe_compact fuel db d) as [r fs]. simpl in *. subst r. exists db', fs. split; [done|].
  intros t Ht. assert (readable db' t) as Ht'.
  { unfold readable. by rewrite (kd_seq _ _ _ _ Hk), (kd_snaps _ _ _ _ Hk). }
  destruct (stores_reads _ _ _ _ Hs Ht) as [Hg Hsc], (stores_reads _ _ _ _ Hs' Ht') as [Hg' Hsc'].
  split_and!; [done| |]; intros; [by rewrite Hg, Hg'|by rewrite Hsc, Hsc'].
Qed.

(** C22: A write returns and is visible. Given enough turns for the compactions it
    triggers, [write_batch] answers the sequence number of its last operation,
    the engine then reads the old content followed by the batch, and every live
    snapshot still reads what it read before. *)
Theorem write_batch_visible ws db d ops :
  stores_writes opts D ws db d → room opts D (ws ++ ops) → fits (mkBatch (db_seq db + 1) ops) →
  ∃ n, ∀ fuel, (n <= fuel)%nat → ∃ db' fs,
    write_batch fuel ops db d = (Ok (N.of_nat (length (ws ++ ops)), db'), fs) ∧
    serves (ws ++ ops) db' (apply_ops d fs) ∧
    ∀ t key, is_Some (db_snapshots db !! t) → get_at db' key t (apply_ops d fs) = get_at db key t d.
Proof.
  intros Hs Hroom Hfit. destruct (write_batch_spec _ _ _ _ _ _ Hs Hroom Hfit) as [n Hn].
  exists n. intros fuel Hf. destruct (Hn fuel Hf) as (db' & fs & Hw & Hs' & Hsn & _). exists db', fs.
  split_and!; [done|by apply stores_serves|]. intros t key Ht.
  rewrite (proj1 (stores_reads _ _ _ t Hs (or_intror Ht))).
  rewrite (proj1 (stores_reads _ _ _ t Hs' ltac:(right; by rewrite Hsn))).
  by rewrite view_app_le by by eapply snapshot_bound.
Qed.

(** ** Histories with crashes *)

(** The batches given to [write_batch], and whether the call returned. *)
Abbreviation call := (list write * bool)%type.

(** What may be stored: every batch that returned and, of those a crash
    interrupted, all of it or nothing. *)
Inductive outcome : list call → list write → Prop :=
| out_none : outcome [] []
| out_stored cs ws ops acked : outcome cs ws → outcome (cs ++ [(ops, acked)]) (ws ++ ops)
| out_lost cs ws ops : outcome cs ws → outcome (cs ++ [(ops, false)]) ws.

Lemma outcome_single ops ws : outcome [(ops, true)] ws → ws = ops.
Proof.
  assert (∀ cs ws, outcome cs ws → cs = [] → ws = []) as Hnil.
  { intros cs ws' [|cs' ? ? ? ?|cs' ? ? ?] He; [done|by destruct cs'..]. }
  intros Ho. remember [(ops, true)] as cs eqn:Hcs. destruct Ho as [|cs ws ops' a Ho|cs ws ops' Ho]; [done|..];
    apply (app_inj_2 cs [] _ [_]) in Hcs as [-> [= -> ?]]; [|done..]. by rewrite (Hnil _ _ Ho).
Qed.

Inductive engine := Up (db : Db) (d : Dir) | Down (d : Dir).

(** The runs of an engine over a directory that starts empty. A crash is possible
    at rest, and between any two file operations of a call provided that it leaves
    a manifest ([outage]): that is every crash once [MANIFEST] is in place. *)
Inductive reach : list call → engine → Prop :=
| reach_start : reach [] (Down ∅)
| reach_open cs d fuel db fs :
    reach cs (Down d) → db_open fuel opts d = (Ok db, fs) → reach cs (Up db (apply_ops d fs))
| reach_open_crash cs d fuel db fs d' :
    reach cs (Down d) → db_open fuel opts d = (Ok db, fs) → outage d fs d' →
    reach cs (Down d')
| reach_write cs db d fuel ops s db' fs :
    reach cs (Up db d) → fits (mkBatch (db_seq db + 1) ops) →
    write_batch fuel ops db d = (Ok (s, db'), fs) → reach (cs ++ [(ops, true)]) (Up db' (apply_ops d fs))
| reach_write_crash cs db d fuel ops s db' fs d' :
    reach cs (Up db d) → fits (mkBatch (db_seq db + 1) ops) →
    write_batch fuel ops db d = (Ok (s, db'), fs) → outage d fs d' →
    reach (cs ++ [(ops, false)]) (Down d')
| reach_flush cs db d db' fs :
    reach cs (Up db d) → db_flush db d = (Ok db', fs) → reach cs (Up db' (apply_ops d fs))
| reach_flush_crash cs db d db' fs d' :
    reach cs (Up db d) → db_flush db d = (Ok db', fs) → outage d fs d' →
    reach cs (Down d')
| reach_snapshot cs db d : reach cs (Up db d) → reach cs (Up (snapshot db).2 d)
| reach_drop cs db d seq : reach cs (Up db d) → reach cs (Up (drop_snapshot seq db) d)
| reach_crash cs db d d' :
    reach cs (Up db d) → cut d d' → reach cs (Down d').

Definition holds (ws : list write) (st : engine) : Prop :=
  match st with
  | Up db d => stores_writes opts D ws db d
  | Down d => recoverable opts D ws d
  end.

Lemma empty_disk_ok : disk_ok opts D [] ∅ manifest_default [[]] 0 0 [] [].
Proof.
  split; simpl; [|by right| | |lia|lia].
  - left. right. done.
  - split; simpl; [by repeat constructor|by repeat constructor|lia| |by intros g ?%elem_of_nil].
    split; [done|..].
    + intros i e Hi%in_level_at. destruct Hi as (g & Hg & _).
      destruct i as [|[]]; by apply elem_of_nil in Hg.
    + intros i l Hl. destruct i as [|[]]; simplify_eq/=; constructor.
    + intros i j _ k s v s' v' Hi _. apply in_level_at in Hi as (g & Hg & _).
      destruct i as [|[]]; by apply elem_of_nil in Hg.
    + intros k t s v _ (Hv & _). by apply version_bounds in Hv as [? ?]; simpl in *; lia.
    + constructor.
  - split; [done|constructor|done].
Qed.

(** Every run leaves the engine with one of the possible contents. *)
Lemma reach_holds cs st :
  o_sync opts = Always → reach cs st →
  (∀ ws, outcome cs ws → room opts D ws) → ∃ ws, outcome cs ws ∧ holds ws st.
Proof.
  intros Ha Hreach. induction Hreach as
    [|cs d fuel db fs _ IH Ho|cs d fuel db fs d' _ IH Ho Hc
    |cs db d fuel ops s db' fs _ IH Hfit Hw|cs db d fuel ops s db' fs d' _ IH Hfit Hw Hc
    |cs db d db' fs _ IH Hf|cs db d db' fs d' _ IH Hf Hc|cs db d _ IH|cs db d seq _ IH
    |cs db d d' _ IH Hc]; intros Hroom.
  1: exists []; split; [constructor|by eexists _, _, _, _, _, _; apply empty_disk_ok].
  3-4: destruct IH as (ws & Hws & Hst);
    [intros ws Hws; eapply (room_app _ _ _ ops), Hroom; by constructor|].
  3-4: destruct (write_batch_spec _ _ ws db d ops Hst) as [n Hn]; [apply Hroom; by constructor|done|].
  3-4: destruct (Hn (Nat.max n fuel) ltac:(lia)) as (db1 & fs1 & Hw1 & Hst1 & Hsn & Hi1 & Hcr).
  3-4: rewrite (write_batch_mono _ (Nat.max n fuel) _ _ _ _ _ Hw) in Hw1 by lia; simplify_eq.
  3: exists (ws ++ ops); split; [by constructor|done].
  3: destruct (Hcr Ha _ Hc); [exists ws; split; [by apply out_lost|done]|
      exists (ws ++ ops); split; [by apply out_stored|done]].
  all: destruct (IH Hroom) as (ws & Hws & Hst); exists ws; (split; [done|]); simpl in *.
  1-2: destruct (db_open_spec _ _ ws d Hst) as [n Hn]; [by apply Hroom|];
    destruct (Hn (Nat.max n fuel) ltac:(lia)) as (db1 & fs1 & Ho1 & Hst1 & Hsn & Hi1);
    rewrite (db_open_mono _ (Nat.max n fuel) _ _ _ _ Ho) in Ho1 by lia; simplify_eq.
  - done.
  - by apply (proj2 Hi1).
  - destruct (flush_keeps _ _ _ _ _ Hst (rm_roomy _ _ _ (Hroom _ Hws))) as (db1 & H1 & H2 & _).
    rewrite Hf in H1, H2. simpl in *. by simplify_eq.
  - destruct (flush_keeps _ _ _ _ _ Hst (rm_roomy _ _ _ (Hroom _ Hws))) as (db1 & _ & _ & _ & H1).
    rewrite Hf in H1. by apply H1.
  - by apply snapshot_ok.
  - by apply drop_snapshot_ok.
  - destruct Hst as (G & floor & w0 & bs & Hok). by eapply rest_crash_safe.
Qed.

(** C6: Acknowledged writes survive. In every run of the engine with synced
    appends over a directory that starts empty, while there is room for what is
    written, with crashes at rest and between any two file operations of an
    opening, a write or a flush, except those that leave no manifest to restart
    from ([outage]; with [MANIFEST] in place there is no exception), there is one
    content [ws], made of every batch that was
    acknowledged and of all or nothing of each batch that a crash interrupted, in
    the order they were written: a running engine serves it, and on the directory
    that a crash left [db_open] answers, given enough turns, with an engine that
    serves it. *)
Theorem acked_writes_survive cs st :
  o_sync opts = Always → reach cs st →
  (∀ ws, outcome cs ws → room opts D ws) →
  ∃ ws, outcome cs ws ∧
    match st with
    | Up db d => serves ws db d
    | Down d => ∃ n, ∀ fuel, (n <= fuel)%nat → ∃ db fs,
        db_open fuel opts d = (Ok db, fs) ∧ serves ws db (apply_ops d fs)
    end.
Proof.
  intros Ha Hr Hroom. destruct (reach_holds _ _ Ha Hr Hroom) as (ws & Hws & Hst).
  exists ws. split; [done|]. destruct st as [db d|d]; [by apply stores_serves|].
  destruct (db_open_spec _ _ ws d Hst (Hroom _ Hws)) as [n Hn]. exists n. intros fuel Hf.
  destruct (Hn fuel Hf) as (db & fs & Ho & Hs & _). exists db, fs. split; [done|]. by apply stores_serves.
Qed.
(** ** The tree of tables *)

(** What a table and its row in the manifest both say. *)
Definition table_row (t : SsTable) : N * bytes * bytes := (st_id t, min_key t, max_key t).
Definition meta_row (m : TableMeta) : N * bytes * bytes := (tm_id m, tm_min_key m, tm_max_key m).

(** A well-formed tree of tables: the manifest lists the open tables, level by
    level; each opens from its file to the table in memory; ids are unique and below
    the next one; and below level 0 the tables of a level cover disjoint ranges of
    keys, in order. *)
Record tree_well_formed (db : Db) (d : Dir) : Prop := {
  tw_catalogue : ∀ i, table_row <$> default [] (db_levels db !! i) = meta_row <$> default [] (mf_levels (db_manifest db) !! i);
  tw_open : ∀ t, t ∈ concat (db_levels db) → table_open (st_id t) d = Ok t;
  tw_unique : NoDup (st_id <$> concat (db_levels db));
  tw_next : ∀ t, t ∈ concat (db_levels db) → st_id t < mf_next_table_id (db_manifest db);
  tw_ranges : ∀ i l, db_levels db !! S i = Some l →
    Forall (λ t, bytes_le (min_key t) (max_key t)) l ∧ StronglySorted (λ t u, bytes_lt (max_key t) (min_key u)) l;
  tw_seq : mf_last_seq (db_manifest db) ≤ db_seq db;
}.

Lemma tables_concat G : concat (tables G) = sd_table <$> concat G.
Proof. unfold tables. induction G as [|l G IH]; csimpl; [done|]. by rewrite fmap_app, IH. Qed.

Lemma catalogue_rows m G i :
  catalogues m G → table_row <$> default [] (tables G !! i) = meta_row <$> default [] (mf_levels m !! i).
Proof.
  unfold tables. rewrite list_lookup_fmap. intros [->|[-> ->]].
  - unfold metas. rewrite list_lookup_fmap. destruct (G !! i) as [l|]; csimpl; [|done]. by rewrite <-!list_fmap_compose.
  - by destruct i.
Qed.

(** Tables whose entries are apart have ranges that are. *)
Lemma before_ranges d l :
  Forall (stored_ok d) l → StronglySorted before l →
  Forall (λ t, bytes_le (min_key t) (max_key t)) (sd_table <$> l)
  ∧ StronglySorted (λ t u, bytes_lt (max_key t) (min_key u)) (sd_table <$> l).
Proof.
  intros Hok Hs. split.
  - apply Forall_fmap. eapply Forall_impl; [exact Hok|]. intros g Hg. simpl.
    destruct (stored_min _ _ Hg) as [(e & He & <-) _]. by apply (stored_max _ _ Hg).
  - induction Hs as [|g l _ IH Hg]; csimpl; [constructor|]. apply Forall_cons in Hok as [Hok1 Hok].
    constructor; [by apply IH|]. apply Forall_fmap. rewrite Forall_forall in Hg, Hok |- *. intros h Hh. simpl.
    destruct (stored_max _ _ Hok1) as [(e & He & <-) _]. destruct (stored_min _ _ (Hok _ Hh)) as [(e' & He' & <-) _].
    by apply (Hg h Hh).
Qed.

Lemma stores_well_formed ws db d : stores_writes opts D ws db d → tree_well_formed db d.
Proof.
  intros (G & floor & w0 & bs & Hok). pose proof Hok as [Hdk _ _ Hseq _ _ Hlv].
  pose proof Hdk as [_ Hcat [Hdisk _ _ Hshape Hnext] _ Hlast _]. split; rewrite ?Hlv, ?tables_concat.
  - intros i. by apply catalogue_rows.
  - intros t (g & -> & Hg)%list_elem_of_fmap. unfold on_disk in Hdisk. rewrite <-Forall_concat, Forall_forall in Hdisk.
    apply (so_open _ _ (Hdisk g Hg)).
  - rewrite <-list_fmap_compose. apply (sh_ids _ _ _ Hshape).
  - intros t (g & -> & Hg)%list_elem_of_fmap. by apply Hnext.
  - intros i l Hl. unfold tables in Hl. rewrite list_lookup_fmap in Hl. apply fmap_Some in Hl as (gs & Hgs & ->).
    apply (before_ranges d); [|by eapply sh_disjoint]. unfold on_disk in Hdisk. rewrite Forall_forall in Hdisk.
    by eapply Hdisk, list_elem_of_lookup_2.
  - rewrite Hseq. apply Hlast.
Qed.

(** C30: the tree of tables stays well formed. Take any run of the engine with synced
    appends over a directory that starts empty, while there is room for what is
    written, with crashes at rest and between any two file operations, except those
    that leave no manifest to restart from ([outage]). Whatever was flushed and
    compacted, of a running engine: the manifest lists exactly the open tables with
    their key ranges, level by level; every table opens from its file; no two tables
    share an id, and all ids are below the one given next; below level 0 the ranges
    of a level are disjoint and in order, on which point reads rely; and the last
    sequence number on record is not ahead of the engine's. *)
Theorem lsm_tree_well_formed cs db d :
  o_sync opts = Always → reach cs (Up db d) → (∀ ws, outcome cs ws → room opts D ws) →
  tree_well_formed db d.
Proof.
  intros Ha Hr Hroom. destruct (reach_holds _ _ Ha Hr Hroom) as (ws & _ & Hst).
  by eapply stores_well_formed.
Qed.
End props.

(** ** A new engine *)

Definition new_db (opts : Options) : Db := mkDb opts mt_new [[]] manifest_default 0 ∅.
Definition new_dir : Dir := {[FWal := mkFile [] 0]}.

Lemma new_db_ok {crc : Crc32} {cw : Bincode WalBatch} {ci : Bincode TableIndex} {cm : Bincode Manifest} opts D :
  db_ok opts D [] (new_db opts) new_dir [[]] 0 0 [].
Proof.
  apply (opened_ok opts D [] ∅ new_dir manifest_default [[]] 0 0 [] [] 0).
  - apply empty_disk_ok.
  - intros f Hf. unfold new_dir. by rewrite lookup_singleton_ne.
  - done.
  - done.
Qed.

(** ** A concrete engine *)

Definition heads (ess : list (list Entry)) : list Entry := omap head ess.

Lemma length_heads ess : Forall (λ es, es ≠ []) ess → length (heads ess) = length ess.
Proof. induction 1 as [|es ess Hne _ IH]; [done|]. destruct es; [done|]. csimpl. by f_equal. Qed.

Lemma heads_nodup ess :
  StronglySorted (λ es es', ∀ e e', e ∈ es → e' ∈ es' → bytes_lt (key_of e) (key_of e')) ess → NoDup (heads ess).
Proof.
  induction 1 as [|es ess _ IH Hall]; [constructor|]. destruct es as [|e es]; csimpl; [done|].
  apply NoDup_cons. split; [|done]. intros (es' & He & Hh)%list_elem_of_omap. rewrite Forall_forall in Hall.
  destruct es' as [|e' es']; [done|]. injection Hh as ->. specialize (Hall _ He e e ltac:(left) ltac:(left)).
  by apply (cmp_lt_irrefl bytes_cmp) in Hall.
Qed.

(** Room for the writes whose versions are [vs], in order, is a computation: every
    part of them makes a table that fits. *)
Definition part_fits (opts : Options) {crc : Crc32} {ci : Bincode TableIndex} (size : N) (es : list Entry) : bool :=
  let bb := o_block_bytes opts in
  let bpk := o_bits_per_key opts in
  bool_decide (es = [] ∨ Forall entry_small es ∧ table_fits bb bpk es ∧ table_size bb bpk es ≤ size).

Lemma room_listing {crc : Crc32} {ci : Bincode TableIndex} opts D ws vs size :
  o_block_bytes opts ≤ 2 ^ 31 → 1 ≤ o_l0_trigger opts → (1 <= D)%nat →
  sorted vs → (∀ e, version ws e → e ∈ vs) → forallb (part_fits opts size) (parts vs) = true →
  N.of_nat (length vs) * size ≤ level_limit opts D → room opts D ws.
Proof.
  intros Hbb Htr HD Hvs Hin Hall Hlim. apply Is_true_true in Hall.
  rewrite forallb_True, Forall_forall in Hall.
  assert (∀ es : list Entry, es ≠ [] → sorted es → (∀ e, e ∈ es → version ws e) →
    Forall entry_small es ∧ table_fits (o_block_bytes opts) (o_bits_per_key opts) es
    ∧ table_size (o_block_bytes opts) (o_bits_per_key opts) es ≤ size) as Hes.
  { intros es Hne Hs He. assert (es ∈ parts vs) as Hp; [|by destruct (bool_decide_unpack _ (Hall es Hp))].
    assert (Transitive (key_lt (V := option bytes) ikey_cmp)) by (intros x y z; unfold key_lt; apply transitivity).
    assert (Irreflexive (key_lt (V := option bytes) ikey_cmp)) by (intros x; apply (cmp_lt_irrefl ikey_cmp)).
    apply elem_of_parts, (sorted_sublist (key_lt ikey_cmp)); auto. }
  split; [split|done|done|]; [done| |by intros es Hne Hs He; destruct (Hes es Hne Hs He) as (_ & ? & _)|].
  - intros e He. destruct (Hes [e]) as ([? _]%Forall_cons & _); [done|repeat constructor| |done].
    by intros e' ->%list_elem_of_singleton.
  - intros ess Hess Hord. etrans; [|exact Hlim].
    assert (length ess <= length vs)%nat as Hlen.
    { rewrite <-(length_heads ess) by (eapply Forall_impl; [exact Hess|by intros es (? & _)]).
      apply submseteq_length, NoDup_submseteq.
      - by apply heads_nodup.
      - intros e (es & He & Hh)%list_elem_of_omap. rewrite Forall_forall in Hess. destruct (Hess es He) as (_ & _ & Hv).
        apply Hin, Hv. destruct es; [done|]. injection Hh as <-. left. }
    trans (N.of_nat (length ess) * size); [|nia]. clear Hord Hlen.
    induction Hess as [|es ess (Hne & Hs & Hv) _ IH]; csimpl; [lia|]. destruct (Hes es Hne Hs Hv) as (_ & _ & ?).
    rewrite Nat2N.inj_succ, N.mul_succ_l. lia.
Qed.

(** There is room for nothing. *)
Lemma room_nil {crc : Crc32} {ci : Bincode TableIndex} opts D :
  o_block_bytes opts ≤ 2 ^ 31 → 1 ≤ o_l0_trigger opts → (1 <= D)%nat → room opts D [].
Proof.
  intros Hbb Htr HD. assert (∀ e, ¬ version [] e) as Hv by (by intros e ?%version_bounds; simpl in *; lia).
  split; [split|done|done|]; [done|by intros e ?%Hv| |].
  - intros es Hne _ He. destruct es as [|e es]; [done|]. exfalso. apply (Hv e), He. left.
  - intros ess Hess _. destruct Hess as [|es ess (Hne & _ & He) _]; [simpl; lia|].
    destruct es as [|e es]; [done|]. exfalso. apply (Hv e), He. left.
Qed.

(** Room for one operation. *)
Lemma room_single {crc : Crc32} {ci : Bincode TableIndex} opts D w :
  let e := (w.1, 1, w.2) : Entry in
  let bb := o_block_bytes opts in
  let bpk := o_bits_per_key opts in
  bb ≤ 2 ^ 31 → entry_small e → table_fits bb bpk [e] → 1 ≤ o_l0_trigger opts → (1 <= D)%nat →
  table_size bb bpk [e] ≤ level_limit opts D → room opts D [w].
Proof.
  intros e bb bpk Hbb Hsm Hfit Htr HD Hlev. apply (room_listing _ _ _ [e] (table_size bb bpk [e])); try done.
  - repeat constructor.
  - intros [[k s] v] ([|i] & Hi & Hs); simplify_eq/=. by left.
  - apply Is_true_true, forallb_True. apply Forall_cons. split; [apply bool_decide_pack; by left|].
    apply Forall_singleton, bool_decide_pack. right. split_and!; [by apply Forall_singleton|done|done].
  - change (N.of_nat (length [e])) with 1. lia.
Qed.

Section concrete_engine.
  #[local] Existing Instance end_crc.
#[local] Instance demo_wal_codec : Bincode WalBatch := countable_bincode WalBatch.
#[local] Instance demo_wal_laws : BincodeLaws WalBatch := countable_bincode_laws WalBatch.
#[local] Instance demo_table_codec : Bincode TableIndex := countable_bincode TableIndex.
#[local] Instance demo_table_laws : BincodeLaws TableIndex := countable_bincode_laws TableIndex.
#[local] Instance demo_catalog_codec : Bincode Manifest := countable_bincode Manifest.
#[local] Instance demo_catalog_laws : BincodeLaws Manifest := countable_bincode_laws Manifest.

(** Every write is flushed and compacted. *)
Definition demo_opts : Options := mkOptions 1 Always 1 1000000 10 1000 64 10.

Definition demo_write : write := ([x61], Some [x01]).

Lemma demo_room : room demo_opts 1 [demo_write].
Proof. apply room_single; vm_compute; try done; repeat constructor. Qed.

Definition demo_new : Db := new_db demo_opts.

Lemma demo_new_ok : db_ok demo_opts 1 [] demo_new new_dir [[]] 0 0 [].
Proof. apply new_db_ok. Qed.

Lemma demo_fits : fits (mkBatch 1 [demo_write]).
Proof. vm_compute. reflexivity. Qed.

Lemma write_batch_visible_witness :
  ∃ n, ∀ fuel, (n <= fuel)%nat → ∃ db' fs,
    write_batch fuel [demo_write] demo_new new_dir = (Ok (1, db'), fs) ∧
    serves [demo_write] db' (apply_ops new_dir fs) ∧
    ∀ t key, is_Some (db_snapshots demo_new !! t) →
      get_at db' key t (apply_ops new_dir fs) = get_at demo_new key t new_dir.
Proof.
  apply (write_batch_visible demo_opts 1 [] demo_new new_dir [demo_write]).
  - eexists _, _, _, _. exact demo_new_ok.
  - exact demo_room.
  - exact demo_fits.
Defined.

(** One operation in the memtable, then in a table of level 0. *)
Definition demo_mem : Db := set_mem (mt_insert [x61] 1 (Some [x01]) mt_new) 1 demo_new.
Definition demo_mem_dir : Dir :=
  let data := frames [mkBatch 1 [demo_write]] in {[FWal := mkFile data (length data)]}.

Lemma demo_mem_ok : stores_writes demo_opts 1 [demo_write] demo_mem demo_mem_dir.
Proof.
  eexists _, _, _, _. eapply (written_ok _ _ _ _ _ _ _ _ _ demo_new_ok [demo_write] demo_fits demo_mem_dir).
  - intros f Hf. unfold demo_mem_dir, new_dir. by rewrite !lookup_singleton_ne.
  - apply lookup_singleton_eq.
  - done.
Qed.

Lemma compaction_invisible_witness :
  ∃ db d, level_table_counts db = [(0, 1)]%nat ∧
  ∃ n, ∀ fuel, (n <= fuel)%nat → ∃ db' fs, maybe_compact fuel db d = (Ok db', fs) ∧
    ∀ t, readable db t → readable db' t ∧
      (∀ key, get_at db' key t (apply_ops d fs) = get_at db key t d) ∧
      (∀ start end_ limit, 0 < limit →
        scan_at db' start end_ limit t (apply_ops d fs) = scan_at db start end_ limit t d).
Proof.
  destruct (flush_keeps demo_opts 1 _ _ _ demo_mem_ok (rm_roomy _ _ _ demo_room)) as (db & Hr & Hs & _).
  exists db. eexists. split; [|exact (compaction_invisible demo_opts 1 [demo_write] db _ Hs demo_room)].
  assert (match (db_flush demo_mem demo_mem_dir).1 with
          | Ok db => level_table_counts db = [(0, 1)]%nat | Err _ => False end) as Hc
    by (vm_compute; reflexivity).
  by rewrite Hr in Hc.
Defined.

(** Five operations, each flushed and compacted, with a snapshot after the second;
    the answers at the snapshot, at the end, and after opening again. *)
Definition demo_run : IO (list (option bytes) * list (bytes * bytes)) :=
  db ← db_open 10 demo_opts;
  '(_, db) ← db_put 10 [x61] [x01] db;
  '(_, db) ← db_put 10 [x62] [x02] db;
  let '(s, db) := snapshot db in
  '(_, db) ← db_put 10 [x61] [x03] db;
  '(_, db) ← db_delete 10 [x62] db;
  '(_, db) ← db_put 10 [x63] [x04] db;
  old_a ← reads (get_at db [x61] s);
  old_b ← reads (get_at db [x62] s);
  now_b ← reads (db_get db [x62]);
  db ← db_open 10 demo_opts;
  now ← reads (db_scan db [] None 10);
  mret ([old_a; old_b; now_b], now).

Example demo_run_answers :
  (demo_run ∅).1 = Ok ([Some [x01]; Some [x02]; None], [([x61], [x03]); ([x63], [x04])]).
Proof. vm_compute. reflexivity. Qed.

(** Two writes of one key to an engine that does not sync its log, then a flush. *)
Definition unsynced_opts : Options := mkOptions 1000 Never 4 1000000 10 1000 64 10.

Definition two_writes : IO Db :=
  db ← db_open 10 unsynced_opts;
  '(_, db) ← db_put 10 [x61] [x01] db;
  '(_, db) ← db_put 10 [x61] [x02] db;
  mret db.

Definition first_frame : bytes := frames [mkBatch 1 [([x61], Some [x01])]].

(** What [db_get] and [db_scan] answer on a directory once it is opened. *)
Definition reopened (d : Dir) : Res (option bytes * list (bytes * bytes)) :=
  match db_open 10 unsynced_opts d with
  | (Ok db, fs) =>
    v ← db_get db [x61] (apply_ops d fs);
    kvs ← db_scan db [] None 10 (apply_ops d fs);
    Ok (v, kvs)
  | (Err e, _) => Err e
  end.

(** The manifest is saved, the log not yet reset, and its second frame is lost. *)
Definition before_reset (db : Db) (d : Dir) : Dir :=
  let fs := (db_flush db d).2 in apply_ops d (take (length fs - 2) fs).

Definition second_lost (db : Db) (d : Dir) : Dir :=
  <[FWal := mkFile first_frame (length first_frame)]> (sync_all (before_reset db d)).

Definition log_before_reset (db : Db) (d : Dir) : option (nat * bytes) :=
  (λ x, (f_synced x, take (length first_frame) (f_data x))) <$> before_reset db d !! FWal.

Definition two_writes_then {A} (f : Db → Dir → A) : option A :=
  match two_writes ∅ with (Ok db, fs) => Some (f db (apply_ops ∅ fs)) | (Err _, _) => None end.

(** C39: With [Never], a crash between two steps of a flush can do more than
    duplicate data. The table and the manifest are on the disk with the second
    write of a key, the log still holds the first write but has lost the second:
    after opening, a lookup answers the first value, which the engine never
    answered since the second write, while a scan answers the second. *)
Theorem unsynced_flush_stale_read :
  ∃ db fs d', two_writes ∅ = (Ok db, fs) ∧
    let d := apply_ops ∅ fs in
    db_get db [x61] d = Ok (Some [x02]) ∧
    crashes d (db_flush db d).2 d' ∧
    reopened d' = Ok (Some [x01], [([x61], [x02])]).
Proof.
  assert (two_writes_then (λ db d, db_get db [x61] d) = Some (Ok (Some [x02]))) as Hget
    by (vm_compute; reflexivity).
  assert (two_writes_then (λ db d, reopened (second_lost db d)) = Some (Ok (Some [x01], [([x61], [x02])])))
    as Hre by (vm_compute; reflexivity).
  assert (two_writes_then log_before_reset = Some (Some (0%nat, first_frame))) as Hlog
    by (vm_compute; reflexivity).
  unfold two_writes_then in *. destruct (two_writes ∅) as [[db|] fs]; [|done].
  injection Hget as Hget. injection Hre as Hre. injection Hlog as Hlog.
  exists db, fs, (second_lost db (apply_ops ∅ fs)). split_and!; [done..| |done].
  eexists (take _ _), (drop _ _). split; [by rewrite take_drop|].
  unfold log_before_reset in Hlog. apply fmap_Some in Hlog as (x & Hx & [Hsy Hdata]%pair_equal_spec).
  eapply cut_one; [exact Hx|]. exists (length first_frame). split; [lia|]. by rewrite <-!Hdata.
Qed.

(** The first write is acknowledged; then the machine crashes. *)
Lemma demo_written :
  ∃ db d, reach demo_opts [([demo_write], true)] (Up db d).
Proof.
  destruct (write_batch_spec demo_opts 1 [] demo_new new_dir [demo_write]) as [n Hn];
    [by eexists _, _, _, _; exact demo_new_ok|exact demo_room|exact demo_fits|].
  destruct (Hn n (le_n n)) as (db & fs & Hw & _). exists db, (apply_ops new_dir fs).
  apply (reach_write demo_opts [] demo_new new_dir n [demo_write] 1 db fs); [|exact demo_fits|exact Hw].
  assert (new_dir = apply_ops ∅ [Touch FWal]) as -> by (vm_compute; reflexivity).
  apply (reach_open demo_opts [] ∅ 1 demo_new [Touch FWal]); [constructor|vm_compute; reflexivity].
Qed.

Lemma acked_writes_survive_witness :
  ∃ d, reach demo_opts [([demo_write], true)] (Down d) ∧
  ∃ ws, outcome [([demo_write], true)] ws ∧
    ∃ n, ∀ fuel, (n <= fuel)%nat → ∃ db fs,
      db_open fuel demo_opts d = (Ok db, fs) ∧ serves ws db (apply_ops d fs).
Proof.
  assert (∃ d, reach demo_opts [([demo_write], true)] (Down d)) as [d Hd].
  { destruct demo_written as (db & d & Hr). eexists. eapply reach_crash; [exact Hr|apply cut_sync_all]. }
  exists d. split; [exact Hd|].
  apply (acked_writes_survive demo_opts 1 [([demo_write], true)] (Down d)).
  - reflexivity.
  - exact Hd.
  - intros ws ->%outcome_single. exact demo_room.
Defined.

Lemma lsm_tree_well_formed_witness : ∃ db d, reach demo_opts [([demo_write], true)] (Up db d) ∧ tree_well_formed db d.
Proof.
  destruct demo_written as (db & d & Hr). exists db, d. split; [exact Hr|].
  apply (lsm_tree_well_formed demo_opts 1 [([demo_write], true)] db d).
  - reflexivity.
  - exact Hr.
  - intros ws ->%outcome_single. exact demo_room.
Defined.
End concrete_engine.
