(* ===== verification/Corruption.v ===== *)
(** * Corrupted tables

    crates/storage/src/error.rs: corruption is detected rather than served. The
    tables of an engine may change on the disk in any way, as long as the checksum
    tells the new bytes from the old: every read of the engine then answers what
    it answered before, or fails. *)

From S2P Require Import Prelude Order Codec Fs Wal Bloom Memtable SsTable SsTableFacts.
From S2P Require Import MergeIter MergeFacts Manifest Db.
Local Open Scope N_scope.

(** An answer is kept, or replaced by an error of [E]. *)
Definition degraded {A} (E : Error → Prop) (r r' : Res A) : Prop :=
  ∀ a, r = Ok a → r' = Ok a ∨ ∃ e, r' = Err e ∧ E e.

Lemma degraded_refl {A} E (r : Res A) : degraded E r r.
Proof. intros a ->. by left. Qed.

Lemma degraded_fail {A} E e (r' : Res A) : degraded E (fail e) r'.
Proof. by intros a. Qed.

Lemma degraded_bind {A B} E (r r' : Res A) (k k' : A → Res B) :
  degraded E r r' → (∀ a, degraded E (k a) (k' a)) → degraded E (r ≫= k) (r' ≫= k').
Proof.
  intros Hr Hk b. destruct r as [a|]; [|done]. simpl. intros Hb.
  destruct (Hr a eq_refl) as [->|(e & -> & He)]; simpl; [by apply Hk|eauto].
Qed.

Create HintDb degraded.
#[local] Hint Resolve degraded_refl degraded_fail : degraded.

(** Follows both runs of one program. *)
Ltac degrade :=
  repeat match goal with
  | |- degraded _ (_ ≫= _) (_ ≫= _) => apply degraded_bind; [|intros ?]
  | |- degraded _ (match ?x with _ => _ end) _ => destruct x
  | |- degraded _ (let '(_, _) := ?x in _) _ => destruct x
  end; eauto with degraded.

(** Errors that a read reports. *)
Definition media (e : Error) : Prop := e = Corruption ∨ ∃ k, e = Io k.

Section corruption.
  Context {crc : Crc32}.

Definition bytes_at (d : Dir) (id off n : N) : Res bytes :=
  data ← read_file (FTable id) d; read_at data off n.

(** The checksum tells the bytes of [d'] from those of [d]. *)
Definition detected (d d' : Dir) : Prop :=
  ∀ id off n b b', bytes_at d id off n = Ok b → bytes_at d' id off n = Ok b' →
    crc32 b' = crc32 b → b' = b.

  Context (d d' : Dir) (Hdet : detected d d').

Lemma bytes_at_error id off n e : bytes_at d' id off n = Err e → media e.
Proof.
  unfold bytes_at, read_file, read_at. destruct (d' !! FTable id); simpl.
  - repeat case_match; intros [= <-]. right. eauto.
  - intros [= <-]. right. eauto.
Qed.

Lemma read_block_degraded t meta : degraded media (read_block d t meta) (read_block d' t meta).
Proof.
  unfold read_block. intros es. specialize (Hdet (st_id t) (bm_offset meta) (bm_len meta)).
  pose proof (bytes_at_error (st_id t) (bm_offset meta) (bm_len meta)) as Herr.
  unfold bytes_at in *. destruct (read_file (FTable (st_id t)) d) as [data|]; [|done]. simpl in *.
  destruct (read_at data _ _) as [b|]; [|done]. simpl.
  destruct (N.eqb_spec (crc32 b) (bm_crc meta)) as [Hc|]; [|done]. simpl. intros He.
  destruct (read_file (FTable (st_id t)) d') as [data'|e]; simpl in *; [|right; eauto].
  destruct (read_at data' _ _) as [b'|e]; simpl in *; [|right; eauto].
  destruct (N.eqb_spec (crc32 b') (bm_crc meta)) as [Hc'|]; simpl.
  - rewrite (Hdet b b' eq_refl eq_refl) by congruence. by left.
  - right. exists Corruption. split; [done|by left].
Qed.
#[local] Hint Resolve read_block_degraded : degraded.

(** ** Point reads *)

Lemma get_loop_degraded t key s blocks :
  degraded media (get_loop d t key s blocks) (get_loop d' t key s blocks).
Proof. induction blocks as [|meta blocks IH]; simpl; degrade. Qed.
#[local] Hint Resolve get_loop_degraded : degraded.

Lemma table_get_degraded t key s : degraded media (table_get d t key s) (table_get d' t key s).
Proof. unfold table_get. degrade. Qed.
#[local] Hint Resolve table_get_degraded : degraded.

Lemma get_l0_degraded key s level best :
  degraded media (get_l0 d key s level best) (get_l0 d' key s level best).
Proof. revert best. induction level as [|t level IH]; intros best; simpl; degrade. Qed.
#[local] Hint Resolve get_l0_degraded : degraded.

Lemma get_levels_degraded key s li levels :
  degraded media (get_levels d key s li levels) (get_levels d' key s li levels).
Proof.
  revert li. induction levels as [|level levels IH]; intros li; simpl; [degrade|].
  apply degraded_bind; [destruct li; [degrade|unfold get_level; degrade]|].
  intros [[]|]; degrade.
Qed.

(** ** Scans *)

Lemma iter_blocks_degraded t blocks :
  degraded (.= Panic) (iter_blocks d t blocks) (iter_blocks d' t blocks).
Proof.
  induction blocks as [|meta blocks IH]; simpl; [degrade|].
  pose proof (read_block_degraded t meta) as Hb.
  destruct (read_block d t meta) as [es|]; [|by intros a].
  destruct (Hb es eq_refl) as [->|(e & -> & _)]; [degrade|]. right. eauto.
Qed.
#[local] Hint Resolve iter_blocks_degraded : degraded.

Lemma src_next_degraded s : degraded (.= Panic) (src_next d s) (src_next d' s).
Proof.
  destruct s as [[|e es]|it]; simpl; [degrade..|]. apply degraded_bind; [|degrade].
  unfold iter_next. degrade.
Qed.
#[local] Hint Resolve src_next_degraded : degraded.

Lemma peek_degraded p : degraded (.= Panic) (peek d p) (peek d' p).
Proof. unfold peek. degrade. Qed.
#[local] Hint Resolve peek_degraded : degraded.

Lemma scan_heads_degraded i best srcs :
  degraded (.= Panic) (scan_heads d i best srcs) (scan_heads d' i best srcs).
Proof.
  revert i best. induction srcs as [|p srcs IH]; intros i best; simpl; [degrade|].
  apply degraded_bind; [degrade|]. intros [h p']. apply degraded_bind; [apply IH|]. degrade.
Qed.
#[local] Hint Resolve scan_heads_degraded : degraded.

Lemma merge_next_degraded srcs : degraded (.= Panic) (merge_next d srcs) (merge_next d' srcs).
Proof.
  unfold merge_next. apply degraded_bind; [degrade|]. intros [[[i h]|] srcs']; [|degrade].
  destruct (srcs' !! i); [|degrade]. unfold pk_next. degrade.
Qed.
#[local] Hint Resolve merge_next_degraded : degraded.

Lemma visible_next_degraded fuel it :
  degraded (.= Panic) (visible_next fuel d it) (visible_next fuel d' it).
Proof. revert it. induction fuel as [|fuel IH]; intros it; simpl; degrade. Qed.
#[local] Hint Resolve visible_next_degraded : degraded.

Lemma scan_loop_degraded fuel start end_ limit it out :
  degraded (.= Panic) (scan_loop fuel d start end_ limit it out)
    (scan_loop fuel d' start end_ limit it out).
Proof.
  revert it out. induction fuel as [|fuel IH]; intros it out; [by intros a|]. cbn [scan_loop]. degrade.
Qed.

(** C25: Corruption is detected, never served. Let the tables change on the disk
    in any way that the checksum tells from the original bytes. A lookup that
    answered before gives the same answer or reports corruption or an I/O error,
    and a scan gives the same answer or panics. *)
Theorem corruption_detected db :
  (∀ key t v, get_at db key t d = Ok v →
     get_at db key t d' = Ok v ∨ ∃ e, get_at db key t d' = Err e ∧ media e) ∧
  (∀ start end_ limit t kvs, scan_at db start end_ limit t d = Ok kvs →
     scan_at db start end_ limit t d' = Ok kvs ∨ scan_at db start end_ limit t d' = Err Panic).
Proof.
  split.
  - intros key t v. unfold get_at. destruct (mt_get _ _ _); [by left|]. apply get_levels_degraded.
  - intros start end_ limit t kvs Hs.
    destruct (scan_loop_degraded _ _ _ _ _ _ _ Hs) as [?|(e & He & ->)]; [by left|by right].
Qed.
End corruption.

(** ** A flipped byte *)

Section concrete_corruption.
  #[local] Existing Instance sum_crc.
  #[local] Existing Instance demo_index_codec.

Definition flip_first (x : File) : File :=
  match f_data x with
  | [] => x
  | b :: bs => mkFile (byte_of (N.lxor (Byte.to_N b) 1) :: bs) (f_synced x)
  end.

Lemma sum_crc_first x y bs cs : crc32 (x :: bs) = crc32 (y :: cs) → x = y.
Proof.
  simpl. unfold wrap. change (2 ^ 32) with (256 * 2 ^ 24). intros He.
  apply (f_equal (λ n, n mod 256)) in He. unfold from_le in He; fold from_le in He.
  rewrite !N.Div0.mod_mul_r, !(N.mul_comm 256), !N.Div0.mod_add in He.
  pose proof (Byte.to_N_bounded x). pose proof (Byte.to_N_bounded y).
  rewrite !N.Div0.mod_mod, !N.mod_small in He by lia.
  rewrite <-(byte_of_to_N x), He. apply byte_of_to_N.
Qed.

Lemma flip_first_detected d id : detected d (alter flip_first (FTable id) d).
Proof.
  intros id' off n b b'. unfold bytes_at, read_file. destruct (decide (id' = id)) as [->|Hne].
  2: { rewrite lookup_alter_ne by congruence. intros H1 H2 _. congruence. }
  rewrite lookup_alter_eq. destruct (d !! FTable id) as [[[|x data] sy]|]; simpl; [congruence| |done].
  unfold read_at, len. simpl. destruct (N.eqb_spec n 0) as [->|Hn]; [congruence|].
  destruct (_ <? _); [done|]. destruct (N.to_nat off) as [|o]; simpl; [|congruence].
  destruct (N.to_nat n) as [|k] eqn:Hk; [lia|]. simpl. intros [= <-] [= <-] Hc%sum_crc_first.
  by rewrite Hc.
Qed.

#[local] Abbreviation demo_table := (after (build_table 7 16 10 demo_entries) ∅).
#[local] Abbreviation demo_bad := (alter flip_first (FTable 7) demo_table).

Definition demo_reader (t : SsTable) : Db := mkDb options_default mt_new [[t]] manifest_default 3 ∅.

Lemma corruption_detected_witness :
  ∃ t, get_at (demo_reader t) [x61] 3 demo_table = Ok (Some [x01]) ∧
  get_at (demo_reader t) [x61] 3 demo_bad = Err Corruption ∧
  (∀ key s v, get_at (demo_reader t) key s demo_table = Ok v →
     get_at (demo_reader t) key s demo_bad = Ok v
     ∨ ∃ e, get_at (demo_reader t) key s demo_bad = Err e ∧ media e) ∧
  (∀ start end_ limit s kvs, scan_at (demo_reader t) start end_ limit s demo_table = Ok kvs →
     scan_at (demo_reader t) start end_ limit s demo_bad = Ok kvs
     ∨ scan_at (demo_reader t) start end_ limit s demo_bad = Err Panic).
Proof.
  assert (match table_open 7 demo_table with
          | Ok t => get_at (demo_reader t) [x61] 3 demo_table = Ok (Some [x01])
              ∧ get_at (demo_reader t) [x61] 3 demo_bad = Err Corruption
          | Err _ => False end) as Hrun by (vm_compute; split; reflexivity).
  destruct (table_open 7 demo_table) as [t|]; [|destruct Hrun].
  exists t. destruct Hrun as [H1 H2]. split; [exact H1|]. split; [exact H2|].
  apply (corruption_detected demo_table demo_bad). apply flip_first_detected.
Defined.
End concrete_corruption.
