(* ===== verification/Kvsm.v ===== *)
(** * The replicated key-value state machine

    crates/kvsm/src/lib.rs: the operations and results, the [Backend] trait
    with its in-memory instance, and the state machine with its per-session
    deduplication table. The client-facing theorems are proved against the
    laws of the trait, so they hold for every backend that discharges them. *)

From S2P Require Import Prelude Order Codec.
Local Open Scope N_scope.

(** ** Commands *)

Inductive Op :=
| Put (key value : bytes)
| Delete (key : bytes)
| Cas (key : bytes) (expect new : option bytes)
| Get (key : bytes).

Record Command := mkCmd { cmd_session_id : N; cmd_seq : N; cmd_op : Op }.

Inductive OpResult :=
| ROk
| RValue (v : option bytes)
| RCas (success : bool) (actual : option bytes)
| RStale.

Record SessionState := mkSession { ss_last_seq : N; ss_last_result : OpResult }.

Record SnapshotPayload := mkPayload {
  sp_kvs : list (bytes * bytes);
  sp_sessions : list (N * SessionState);
}.

#[export] Instance Op_eq_dec : EqDecision Op.
Proof. solve_decision. Defined.
#[export] Instance Command_eq_dec : EqDecision Command.
Proof. solve_decision. Defined.
#[export] Instance OpResult_eq_dec : EqDecision OpResult.
Proof. solve_decision. Defined.
#[export] Instance SessionState_eq_dec : EqDecision SessionState.
Proof. solve_decision. Defined.
#[export] Instance SnapshotPayload_eq_dec : EqDecision SnapshotPayload.
Proof. solve_decision. Defined.

(** ** Countability, for concrete codecs *)

#[export] Instance Op_countable : Countable Op.
Proof.
  apply (inj_countable'
    (λ o, match o with
          | Put k v => inl (inl (k, v))
          | Delete k => inl (inr k)
          | Cas k e n => inr (inl (k, e, n))
          | Get k => inr (inr k)
          end)
    (λ s, match s with
          | inl (inl (k, v)) => Put k v
          | inl (inr k) => Delete k
          | inr (inl (k, e, n)) => Cas k e n
          | inr (inr k) => Get k
          end)).
  by intros [].
Defined.
#[export] Instance Command_countable : Countable Command.
Proof.
  apply (inj_countable' (λ c, (cmd_session_id c, cmd_seq c, cmd_op c))
    (λ '(s, q, o), mkCmd s q o)).
  by intros [].
Defined.
#[export] Instance OpResult_countable : Countable OpResult.
Proof.
  apply (inj_countable'
    (λ r, match r with
          | ROk => inl false
          | RStale => inl true
          | RValue v => inr (inl v)
          | RCas s a => inr (inr (s, a))
          end)
    (λ s, match s with
          | inl false => ROk
          | inl true => RStale
          | inr (inl v) => RValue v
          | inr (inr (s, a)) => RCas s a
          end)).
  by intros [].
Defined.
#[export] Instance SessionState_countable : Countable SessionState.
Proof.
  apply (inj_countable' (λ s, (ss_last_seq s, ss_last_result s)) (λ '(q, r), mkSession q r)).
  by intros [].
Defined.
#[export] Instance SnapshotPayload_countable : Countable SnapshotPayload.
Proof.
  apply (inj_countable' (λ p, (sp_kvs p, sp_sessions p)) (λ '(k, s), mkPayload k s)).
  by intros [].
Defined.

Definition cmd_encode `{Bincode Command} (c : Command) : bytes := serialize c.
Definition cmd_decode `{Bincode Command} (data : bytes) : option Command := deserialize data.

(** ** The storage interface *)

(** The [Backend] trait. *)
Class Backend (B : Type) := {
  b_get : B → bytes → option bytes;
  b_set : B → bytes → option bytes → B;
  b_scan : B → bytes → option bytes → nat → list (bytes * bytes);
  b_dump : B → list (bytes * bytes);
  b_clear_and_load : B → list (bytes * bytes) → B;
}.

(** A map update as the trait words it: no value means delete. *)
Definition kv_set (m : gmap bytes bytes) (k : bytes) (v : option bytes) : gmap bytes bytes :=
  match v with
  | Some v => <[k := v]> m
  | None => delete k m
  end.

(** What the state machine relies on: a backend is a finite map. Nothing is asked
    of a scan with limit 0, on which the two backends differ (see [DbBackend]). *)
Class BackendLaws (B : Type) `{Backend B} := {
  b_map : B → gmap bytes bytes;
  b_ok : B → Prop;
  b_get_map : ∀ b k, b_ok b → b_get b k = b_map b !! k;
  b_set_ok : ∀ b k v, b_ok b → b_ok (b_set b k v);
  b_set_map : ∀ b k v, b_ok b → b_map (b_set b k v) = kv_set (b_map b) k v;
  b_scan_map : ∀ b s e limit, b_ok b → (0 < limit)%nat →
    b_scan b s e limit = take limit (kv_range (b_map b) s e);
  b_dump_map : ∀ b, b_ok b → b_dump b = bt_iter bytes_cmp (b_map b);
  b_load_ok : ∀ b kvs, b_ok b → b_ok (b_clear_and_load b kvs);
  b_load_map : ∀ b kvs, b_ok b → b_map (b_clear_and_load b kvs) = collect_map kvs;
}.

(** ** The in-memory backend *)

Record MemBackend := mkMem { mb_map : gmap bytes bytes }.

Fixpoint take_while {A} (P : A → Prop) `{∀ x, Decision (P x)} (l : list A) : list A :=
  match l with
  | [] => []
  | x :: l => if decide (P x) then x :: take_while P l else []
  end.

Definition mem_get (b : MemBackend) (key : bytes) : option bytes := mb_map b !! key.

Definition mem_set (b : MemBackend) (key : bytes) (value : option bytes) : MemBackend :=
  match value with
  | Some v => mkMem (<[key := v]> (mb_map b))
  | None => mkMem (delete key (mb_map b))
  end.

Definition mem_scan (b : MemBackend) (start : bytes) (end_ : option bytes) (limit : nat)
    : list (bytes * bytes) :=
  take limit (take_while (λ kv, below end_ kv.1)
    (filter (λ kv, bytes_le start kv.1) (bt_iter bytes_cmp (mb_map b)))).

Definition mem_dump (b : MemBackend) : list (bytes * bytes) := bt_iter bytes_cmp (mb_map b).

Definition mem_clear_and_load (b : MemBackend) (kvs : list (bytes * bytes)) : MemBackend :=
  mkMem (collect_map kvs).

#[export] Instance mem_backend : Backend MemBackend := {|
  b_get := mem_get;
  b_set := mem_set;
  b_scan := mem_scan;
  b_dump := mem_dump;
  b_clear_and_load := mem_clear_and_load;
|}.

(** ** The state machine *)

Record StateMachine (B : Type) := mkSM { sm_backend : B; sm_sessions : gmap N SessionState }.
Arguments mkSM {B} sm_backend sm_sessions.
Arguments sm_backend {B} s.
Arguments sm_sessions {B} s.

Section state_machine.
  Context {B : Type} `{Backend B}.

Definition sm_new (backend : B) : StateMachine B := mkSM backend ∅.

Definition execute (op : Op) (sm : StateMachine B) : StateMachine B * OpResult :=
  let b := sm_backend sm in
  let put b := mkSM b (sm_sessions sm) in
  match op with
  | Put key value => (put (b_set b key (Some value)), ROk)
  | Delete key => (put (b_set b key None), ROk)
  | Cas key expect new =>
    let actual := b_get b key in
    if decide (actual = expect) then (put (b_set b key new), RCas true actual)
    else (sm, RCas false actual)
  | Get key => (sm, RValue (b_get b key))
  end.

(** The tail of [apply]: run the operation and record its result. *)
Definition execute_and_record (cmd : Command) (sm : StateMachine B)
    : StateMachine B * OpResult :=
  let '(sm, result) := execute (cmd_op cmd) sm in
  (if cmd_session_id cmd =? 0 then sm
   else mkSM (sm_backend sm)
          (<[cmd_session_id cmd := mkSession (cmd_seq cmd) result]> (sm_sessions sm)),
   result).

Definition apply (cmd : Command) (sm : StateMachine B) : StateMachine B * OpResult :=
  if cmd_session_id cmd =? 0 then execute_and_record cmd sm
  else
    match sm_sessions sm !! cmd_session_id cmd with
    | Some s =>
      if cmd_seq cmd =? ss_last_seq s then (sm, ss_last_result s)
      else if cmd_seq cmd <? ss_last_seq s then (sm, RStale)
      else execute_and_record cmd sm
    | None => execute_and_record cmd sm
    end.

Definition sm_read (key : bytes) (sm : StateMachine B) : option bytes := b_get (sm_backend sm) key.

Definition sm_read_range (start : bytes) (end_ : option bytes) (limit : nat)
    (sm : StateMachine B) : list (bytes * bytes) := b_scan (sm_backend sm) start end_ limit.

Definition sm_snapshot `{Bincode SnapshotPayload} (sm : StateMachine B) : bytes :=
  serialize (mkPayload (b_dump (sm_backend sm)) (bt_iter N.compare (sm_sessions sm))).

(** [None] is the panic of [expect]. *)
Definition sm_restore `{Bincode SnapshotPayload} (data : bytes) (sm : StateMachine B)
    : option (StateMachine B) :=
  payload ← deserialize data;
  Some (mkSM (b_clear_and_load (sm_backend sm) (sp_kvs payload))
          (collect_map (sp_sessions payload))).
End state_machine.

(** Applying a log of commands, collecting the answers. *)
Fixpoint apply_log `{Backend B} (cmds : list Command) (sm : StateMachine B)
    : StateMachine B * list OpResult :=
  match cmds with
  | [] => (sm, [])
  | c :: cmds =>
    let '(sm, r) := apply c sm in
    let '(sm, rs) := apply_log cmds sm in
    (sm, r :: rs)
  end.

(** ** The in-memory backend is a finite map *)

Lemma take_while_filter {A} (P : A → Prop) `{∀ x, Decision (P x)} (R : relation A) l :
  StronglySorted R l → (∀ x y, R x y → P y → P x) → take_while P l = filter P l.
Proof.
  intros Hs HP. induction Hs as [|x l Hs IH Hall]; [done|]. simpl. rewrite filter_cons.
  destruct (decide (P x)) as [Hx|Hx]; [by rewrite IH|]. symmetry. apply filter_none.
  rewrite Forall_forall in Hall. intros y Hy HPy. apply Hx. by eapply HP; [apply Hall|].
Qed.

Lemma mem_scan_range b s e limit : mem_scan b s e limit = take limit (kv_range (mb_map b) s e).
Proof.
  unfold mem_scan, kv_range. f_equal. rewrite (take_while_filter _ (key_lt bytes_cmp)).
  - rewrite list_filter_filter. apply list_filter_iff. intros x. tauto.
  - apply key_sorted_filter, bt_iter_sorted. apply _.
  - intros x y Hxy. unfold below. destruct e as [e|]; [|done]. intros Hy. by etrans.
Qed.

#[export] Instance mem_backend_laws : BackendLaws MemBackend.
Proof.
  refine {| b_map := mb_map; b_ok _ := True |}; try done.
  - by intros b k [].
  - intros b s e limit _ _. apply mem_scan_range.
Defined.

(** ** Every backend behaves like every other *)

Section simulation.
  Context {B1 B2 : Type} `{BackendLaws B1} `{BackendLaws B2}.

(** Same contents and same session table. *)
Definition sm_sim (s1 : StateMachine B1) (s2 : StateMachine B2) : Prop :=
  b_ok (sm_backend s1) ∧ b_ok (sm_backend s2)
  ∧ b_map (sm_backend s1) = b_map (sm_backend s2) ∧ sm_sessions s1 = sm_sessions s2.

Lemma sm_sim_set s1 s2 k v :
  sm_sim s1 s2 →
  sm_sim (mkSM (b_set (sm_backend s1) k v) (sm_sessions s1))
         (mkSM (b_set (sm_backend s2) k v) (sm_sessions s2)).
Proof.
  intros (Hok1 & Hok2 & Hm & Hs). split_and!; simpl; [by apply b_set_ok..| |done].
  by rewrite !b_set_map, Hm.
Qed.

Lemma execute_sim op s1 s2 :
  sm_sim s1 s2 →
  sm_sim (execute op s1).1 (execute op s2).1 ∧ (execute op s1).2 = (execute op s2).2.
Proof.
  intros Hsim. pose proof Hsim as (Hok1 & Hok2 & Hm & Hs).
  assert (∀ k, b_get (sm_backend s1) k = b_get (sm_backend s2) k) as Hg.
  { intros k. by rewrite !b_get_map, Hm. }
  destruct op as [k v|k|k e n|k]; simpl; rewrite ?Hg;
    [split; [by apply sm_sim_set|done]..| |done].
  destruct (decide _); (split; [|done]); simpl; [by apply sm_sim_set|done].
Qed.

Lemma record_sim c s1 s2 :
  sm_sim s1 s2 →
  sm_sim (execute_and_record c s1).1 (execute_and_record c s2).1
  ∧ (execute_and_record c s1).2 = (execute_and_record c s2).2.
Proof.
  intros Hsim. unfold execute_and_record.
  destruct (execute_sim (cmd_op c) _ _ Hsim) as [Hs Hr].
  destruct (execute (cmd_op c) s1) as [t1 r1], (execute (cmd_op c) s2) as [t2 r2].
  simpl in *. subst r2. split; [|done]. destruct (_ =? _); [done|].
  destruct Hs as (? & ? & ? & Hs). split_and!; simpl; [done..|]. by rewrite Hs.
Qed.

Lemma apply_sim c s1 s2 :
  sm_sim s1 s2 →
  sm_sim (apply c s1).1 (apply c s2).1 ∧ (apply c s1).2 = (apply c s2).2.
Proof.
  intros Hsim. pose proof (record_sim c _ _ Hsim) as Hrec. unfold apply.
  destruct (_ =? 0); [done|]. pose proof Hsim as (_ & _ & _ & Hs). rewrite Hs.
  destruct (sm_sessions s2 !! _) as [s|]; [|done].
  destruct (_ =? _); [done|]. by destruct (_ <? _).
Qed.

Lemma apply_log_sim cmds s1 s2 :
  sm_sim s1 s2 →
  sm_sim (apply_log cmds s1).1 (apply_log cmds s2).1
  ∧ (apply_log cmds s1).2 = (apply_log cmds s2).2.
Proof.
  revert s1 s2. induction cmds as [|c cmds IH]; intros s1 s2 Hsim; simpl; [done|].
  destruct (apply_sim c _ _ Hsim) as [Hs Hr].
  destruct (apply c s1) as [t1 r1], (apply c s2) as [t2 r2]. simpl in *. subst r2.
  destruct (IH _ _ Hs) as [Hs' Hr'].
  destruct (apply_log cmds t1), (apply_log cmds t2). simpl in *. by subst.
Qed.
End simulation.

(** ** Snapshots *)

#[export] Instance N_comparison : Comparison N.compare.
Proof.
  split.
  - intros. apply N.compare_eq_iff.
  - intros. apply N.compare_antisym.
  - intros a b c. rewrite !N.compare_lt_iff. lia.
Qed.

Lemma restore_snapshot_sim `{BackendLaws B1} `{BackendLaws B2} `{BincodeLaws SnapshotPayload}
    (s1 : StateMachine B1) (s2 : StateMachine B2) :
  b_ok (sm_backend s1) → b_ok (sm_backend s2) →
  ∃ s2', sm_restore (sm_snapshot s1) s2 = Some s2' ∧ sm_sim s1 s2'.
Proof.
  intros Hok1 Hok2. unfold sm_restore, sm_snapshot. rewrite deserialize_serialize. simpl.
  eexists. split; [done|]. split_and!; simpl; [done|by apply b_load_ok| |].
  - by rewrite b_load_map, b_dump_map, (collect_bt_iter bytes_cmp).
  - by rewrite (collect_bt_iter N.compare).
Qed.

(** ** Deduplication *)

(** The pure effect of an operation on the key-value map. *)
Definition kv_exec (m : gmap bytes bytes) (op : Op) : gmap bytes bytes :=
  match op with
  | Put k v => <[k := v]> m
  | Delete k => delete k m
  | Cas k expect new => if decide (m !! k = expect) then kv_set m k new else m
  | Get _ => m
  end.

(** The answer an operation deserves on the key-value map. *)
Definition kv_answer (m : gmap bytes bytes) (op : Op) : OpResult :=
  match op with
  | Put _ _ | Delete _ => ROk
  | Cas k expect _ => RCas (bool_decide (m !! k = expect)) (m !! k)
  | Get k => RValue (m !! k)
  end.

(** A command takes effect when it carries no session, or a sequence number
    above every one its session has used. *)
Definition fresh (seen : gmap N N) (c : Command) : bool :=
  (cmd_session_id c =? 0)
  || match seen !! cmd_session_id c with Some q => q <? cmd_seq c | None => true end.

Definition see (seen : gmap N N) (c : Command) : gmap N N :=
  if cmd_session_id c =? 0 then seen
  else if fresh seen c then <[cmd_session_id c := cmd_seq c]> seen else seen.

(** The commands of a log that take effect. *)
Fixpoint effective (seen : gmap N N) (cmds : list Command) : list Command :=
  match cmds with
  | [] => []
  | c :: cmds => (if fresh seen c then [c] else []) ++ effective (see seen c) cmds
  end.

Section dedup.
  Context {B : Type} `{BackendLaws B}.
  Implicit Types sm : StateMachine B.

Definition seen_of sm : gmap N N := ss_last_seq <$> sm_sessions sm.

Lemma execute_spec op sm :
  b_ok (sm_backend sm) →
  let sm' := (execute op sm).1 in
  b_ok (sm_backend sm') ∧ b_map (sm_backend sm') = kv_exec (b_map (sm_backend sm)) op
  ∧ sm_sessions sm' = sm_sessions sm
  ∧ (execute op sm).2 = kv_answer (b_map (sm_backend sm)) op.
Proof.
  intros Hok. destruct op as [k v|k|k e n|k]; simpl; rewrite ?b_get_map by done;
    rewrite ?b_set_map by done; [split_and!; [by apply b_set_ok|done..]..| |done].
  destruct (decide _) as [He|He]; simpl.
  - rewrite b_set_map, bool_decide_eq_true_2 by done. split_and!; [by apply b_set_ok|done..].
  - by rewrite bool_decide_eq_false_2.
Qed.

(** What [apply] does, told by freshness. *)
Lemma apply_spec c sm :
  b_ok (sm_backend sm) →
  let sm' := (apply c sm).1 in
  let m := b_map (sm_backend sm) in
  b_ok (sm_backend sm')
  ∧ seen_of sm' = see (seen_of sm) c
  ∧ (if fresh (seen_of sm) c then
       b_map (sm_backend sm') = kv_exec m (cmd_op c)
       ∧ (apply c sm).2 = kv_answer m (cmd_op c)
       ∧ sm_sessions sm' = (if cmd_session_id c =? 0 then sm_sessions sm
           else <[cmd_session_id c := mkSession (cmd_seq c) (kv_answer m (cmd_op c))]>
                  (sm_sessions sm))
     else sm' = sm).
Proof.
  intros Hok. destruct (execute_spec (cmd_op c) sm Hok) as (Hok' & Hm & Hs & Hr).
  assert (fresh (seen_of sm) c = true → apply c sm = execute_and_record c sm) as Hfr.
  { unfold apply, fresh, seen_of. rewrite lookup_fmap. destruct (_ =? 0); [done|]. simpl.
    destruct (sm_sessions sm !! _) as [s|]; [|done]. simpl. intros Hq.
    by destruct (N.eqb_spec (cmd_seq c) (ss_last_seq s)), (N.ltb_spec (cmd_seq c) (ss_last_seq s));
      try lia. }
  assert (fresh (seen_of sm) c = false → (apply c sm).1 = sm) as Hst.
  { unfold apply, fresh, seen_of. rewrite lookup_fmap. destruct (_ =? 0); [done|]. simpl.
    destruct (sm_sessions sm !! _) as [s|]; [|done]. simpl. intros Hq.
    destruct (N.eqb_spec (cmd_seq c) (ss_last_seq s)), (N.ltb_spec (cmd_seq c) (ss_last_seq s));
      try done. lia. }
  unfold see. destruct (fresh (seen_of sm) c).
  - rewrite Hfr by done. unfold execute_and_record.
    destruct (execute (cmd_op c) sm) as [sm1 r]. simpl in *. subst r.
    destruct (_ =? 0); simpl; (split_and!; [done| |done|done|congruence]).
    + unfold seen_of. by rewrite Hs.
    + unfold seen_of. simpl. by rewrite Hs, fmap_insert.
  - simpl. rewrite Hst by done. split_and!; [done| |done]. by destruct (_ =? 0).
Qed.

Lemma apply_log_effective cmds sm :
  b_ok (sm_backend sm) →
  b_ok (sm_backend (apply_log cmds sm).1)
  ∧ b_map (sm_backend (apply_log cmds sm).1)
    = foldl kv_exec (b_map (sm_backend sm)) (cmd_op <$> effective (seen_of sm) cmds).
Proof.
  revert sm. induction cmds as [|c cmds IH]; intros sm Hok; simpl; [done|].
  destruct (apply_spec c sm Hok) as (Hok1 & Hseen & Hcase).
  destruct (apply c sm) as [sm1 r]. simpl in *. destruct (IH sm1 Hok1) as [Hok2 Hm].
  destruct (apply_log cmds sm1) as [sm2 rs]. simpl in *. split; [done|].
  rewrite Hm, Hseen, fmap_app, foldl_app. f_equal.
  destruct (fresh (seen_of sm) c); simpl; [by destruct Hcase|by rewrite Hcase].
Qed.

(** The session table entry of a command survives commands that do not move
    its session on. *)
Lemma apply_log_session cmds sm sid s :
  b_ok (sm_backend sm) → sid ≠ 0 → sm_sessions sm !! sid = Some s →
  (∀ c, c ∈ cmds → cmd_session_id c = sid → cmd_seq c ≤ ss_last_seq s) →
  b_ok (sm_backend (apply_log cmds sm).1)
  ∧ sm_sessions (apply_log cmds sm).1 !! sid = Some s.
Proof.
  revert sm. induction cmds as [|c cmds IH]; intros sm Hok Hsid Hs Hle; simpl; [done|].
  destruct (apply_spec c sm Hok) as (Hok1 & _ & Hcase).
  destruct (apply c sm) as [sm1 r]. simpl in *.
  destruct (IH sm1) as [Hok2 Hs2]; [done|done| | |].
  2: { intros c' Hc'. apply Hle. by right. }
  2: { destruct (apply_log cmds sm1). done. }
  unfold fresh, seen_of in Hcase. rewrite lookup_fmap in Hcase.
  destruct (N.eqb_spec (cmd_session_id c) 0) as [|Hne]; simpl in *.
  { by destruct Hcase as (_ & _ & ->). }
  destruct (decide (cmd_session_id c = sid)) as [He|Hn].
  - rewrite He, Hs in Hcase. simpl in Hcase. specialize (Hle c ltac:(left) He).
    destruct (N.ltb_spec (ss_last_seq s) (cmd_seq c)); [lia|]. by subst sm1.
  - destruct (match _ with Some _ => _ | None => _ end); [|by subst sm1].
    destruct Hcase as (_ & _ & ->). by rewrite lookup_insert_ne.
Qed.
End dedup.

(** ** Properties *)

(** C21: at-least-once delivery becomes exactly-once effect. Applying a log of
    commands, with whatever retries, reorderings and interleavings of sessions
    it contains, leaves the backend as executing once each command that is new
    to its session and nothing else. *)
Theorem exactly_once `{BackendLaws B} (cmds : list Command) (b : B) :
  b_ok b →
  b_map (sm_backend (apply_log cmds (sm_new b)).1)
  = foldl kv_exec (b_map b) (cmd_op <$> effective ∅ cmds).
Proof.
  intros Hok. destruct (apply_log_effective cmds (sm_new b) Hok) as [_ ->]. simpl.
  unfold seen_of. simpl. by rewrite fmap_empty.
Qed.

Lemma effective_seen cmds seen c :
  c ∈ effective seen cmds → cmd_session_id c ≠ 0 →
  ∀ q, seen !! cmd_session_id c = Some q → q < cmd_seq c.
Proof.
  revert seen. induction cmds as [|d cmds IH]; intros seen Hc Hsid q Hq; simpl in Hc.
  { by apply elem_of_nil in Hc. }
  apply elem_of_app in Hc as [Hc|Hc].
  - destruct (fresh seen d) eqn:Hf; [|by apply elem_of_nil in Hc].
    apply list_elem_of_singleton in Hc as <-. unfold fresh in Hf. rewrite Hq in Hf.
    destruct (N.eqb_spec (cmd_session_id c) 0); [done|]. simpl in Hf. lia.
  - destruct (decide (cmd_session_id d = cmd_session_id c)) as [He|Hne].
    + assert (see seen d !! cmd_session_id c = Some q
              ∨ ∃ q', see seen d !! cmd_session_id c = Some q' ∧ q < q') as [Hs|(q' & Hs & Hlt)].
      { unfold see, fresh. rewrite He, Hq.
        destruct (cmd_session_id c =? 0); [by left|]. simpl.
        destruct (N.ltb_spec q (cmd_seq d)); [|by left]. right. exists (cmd_seq d).
        by rewrite lookup_insert, decide_True. }
      * by apply (IH _ Hc).
      * specialize (IH _ Hc Hsid _ Hs). lia.
    + apply (IH _ Hc); [done|]. unfold see. destruct (_ =? 0); [done|].
      destruct (fresh seen d); [|done]. by rewrite lookup_insert_ne.
Qed.

Lemma effective_increasing cmds seen i j c d :
  effective seen cmds !! i = Some c → effective seen cmds !! j = Some d → (i < j)%nat →
  cmd_session_id c = cmd_session_id d → cmd_session_id c ≠ 0 → cmd_seq c < cmd_seq d.
Proof.
  revert seen i j. induction cmds as [|e cmds IH]; intros seen i j Hi Hj Hij He Hsid; [done|].
  simpl in *. destruct (fresh seen e) eqn:Hf; simpl in *; [|by eapply IH].
  destruct i as [|i], j as [|j]; simpl in *; try lia; [|eapply IH; [done|done|lia|done|done]].
  simplify_eq. apply list_elem_of_lookup_2 in Hj.
  apply (effective_seen _ _ _ Hj); [congruence|]. unfold see. rewrite Hf, <-He.
  destruct (N.eqb_spec (cmd_session_id c) 0); [done|]. by rewrite lookup_insert, decide_True.
Qed.

(** The executed commands of a session have strictly increasing sequence
    numbers: no command of a session is ever executed twice. *)
Theorem executed_commands_increase cmds i j c d :
  effective ∅ cmds !! i = Some c → effective ∅ cmds !! j = Some d → (i < j)%nat →
  cmd_session_id c = cmd_session_id d → cmd_session_id c ≠ 0 → cmd_seq c < cmd_seq d.
Proof. apply effective_increasing. Qed.

(** A retry is answered with the original result. After a command of a
    session has been applied, and whatever other commands follow as long as
    that session has not moved on, applying it again returns the very result
    of the first time and leaves the whole state machine unchanged. *)
Theorem retry_is_idempotent `{BackendLaws B} l2 c (sm : StateMachine B) :
  b_ok (sm_backend sm) → cmd_session_id c ≠ 0 → fresh (seen_of sm) c = true →
  (∀ d, d ∈ l2 → cmd_session_id d = cmd_session_id c → cmd_seq d ≤ cmd_seq c) →
  let r := apply c sm in
  let sm2 := (apply_log l2 r.1).1 in
  apply c sm2 = (sm2, r.2).
Proof.
  intros Hok Hsid Hf Hl2. destruct (apply_spec c sm Hok) as (Hok1 & _ & Hcase).
  rewrite Hf in Hcase. destruct (apply c sm) as [sm1 r]. simpl in *.
  destruct Hcase as (_ & -> & Hs). destruct (N.eqb_spec (cmd_session_id c) 0); [done|].
  destruct (apply_log_session l2 sm1 (cmd_session_id c)
    (mkSession (cmd_seq c) (kv_answer (b_map (sm_backend sm)) (cmd_op c)))) as [_ Hs2];
    [done|done| |done|].
  { by rewrite Hs, lookup_insert, decide_True. }
  unfold apply. rewrite Hs2. simpl. rewrite N.eqb_refl.
  by destruct (N.eqb_spec (cmd_session_id c) 0).
Qed.

(** C28: a replica that installs a snapshot is indistinguishable from the one
    that took it: restoring succeeds, whatever the replica held before, and
    from then on both answer every command alike, duplicates of commands
    applied before the snapshot included. *)
Theorem snapshot_transfer `{BackendLaws B1} `{BackendLaws B2} `{BincodeLaws SnapshotPayload}
    pre post (b : B1) (old : StateMachine B2) :
  b_ok b → b_ok (sm_backend old) →
  let s1 := (apply_log pre (sm_new b)).1 in
  ∃ s2, sm_restore (sm_snapshot s1) old = Some s2
    ∧ (apply_log post s1).2 = (apply_log post s2).2
    ∧ b_map (sm_backend (apply_log post s1).1) = b_map (sm_backend (apply_log post s2).1).
Proof.
  intros Hok Hold s1. destruct (apply_log_effective pre (sm_new b) Hok) as [Hok1 _].
  destruct (restore_snapshot_sim s1 old Hok1 Hold) as (s2 & Hres & Hsim). exists s2.
  split; [done|]. destruct (apply_log_sim post s1 s2 Hsim) as [(_ & _ & ? & _) ?]. done.
Qed.

Lemma sm_snapshot_sim `{BackendLaws B1} `{BackendLaws B2} `{Bincode SnapshotPayload}
    (s1 : StateMachine B1) (s2 : StateMachine B2) :
  sm_sim s1 s2 → sm_snapshot s1 = sm_snapshot s2.
Proof.
  intros (Hok1 & Hok2 & Hm & Hs). unfold sm_snapshot. by rewrite !b_dump_map, Hm, Hs.
Qed.

(** Snapshots are canonical: state machines with the same contents and
    sessions serialize to the same bytes, whatever their backends and however
    their hash tables iterate. *)
Theorem snapshot_canonical `{BackendLaws B1} `{BackendLaws B2} `{Bincode SnapshotPayload}
    (s1 : StateMachine B1) (s2 : StateMachine B2) :
  sm_sim s1 s2 → sm_snapshot s1 = sm_snapshot s2.
Proof. apply sm_snapshot_sim. Qed.

(** A range read returns the live pairs of [start, end) in key order, cut
    at the limit: the answer is strictly sorted, a prefix of the range, and
    complete when it is shorter than the limit. *)
Theorem read_range_spec `{BackendLaws B} (sm : StateMachine B) start end_ limit :
  b_ok (sm_backend sm) → (0 < limit)%nat →
  let r := sm_read_range start end_ limit sm in
  StronglySorted (key_lt bytes_cmp) r ∧ (length r <= limit)%nat
  ∧ (∀ k v, (k, v) ∈ r → sm_read k sm = Some v ∧ bytes_le start k ∧ below end_ k)
  ∧ ((length r < limit)%nat → ∀ k v,
       sm_read k sm = Some v → bytes_le start k → below end_ k → (k, v) ∈ r).
Proof.
  intros Hok Hlim. unfold sm_read_range, sm_read. simpl. rewrite b_scan_map by done.
  set (l := kv_range _ _ _).
  assert (StronglySorted (key_lt bytes_cmp) l) as Hs.
  { apply key_sorted_filter, bt_iter_sorted. apply _. }
  assert (∀ k v, (k, v) ∈ l ↔ bytes_le start k ∧ below end_ k
            ∧ b_get (sm_backend sm) k = Some v) as Hl.
  { intros k v. unfold l, kv_range. rewrite list_elem_of_filter, elem_of_bt_iter, b_get_map by done.
    simpl. tauto. }
  split_and!.
  - rewrite <-(take_drop limit l) in Hs. by apply key_sorted_app in Hs as [Hs _].
  - rewrite length_take. lia.
  - intros k v Hin%elem_of_take. destruct Hin as (i & Hi & _).
    apply list_elem_of_lookup_2, Hl in Hi. tauto.
  - rewrite length_take. intros Hlen k v ? ? ?. rewrite take_ge by lia. by apply Hl.
Qed.

(** ** Concrete runs *)

(** Session 7 puts, session 8 swaps, session 7's put is delivered again, then
    session 7 moves on and its old command shows up once more. *)
Definition demo_log : list Command :=
  [mkCmd 7 1 (Put [x61] [x01]); mkCmd 8 1 (Cas [x61] (Some [x01]) (Some [x02]));
   mkCmd 7 1 (Put [x61] [x01]); mkCmd 7 2 (Delete [x62]); mkCmd 7 1 (Put [x61] [x01])].

Lemma mem_ok (b : MemBackend) : b_ok b.
Proof. exact I. Qed.

Definition demo_sm : StateMachine MemBackend := (apply_log demo_log (sm_new (mkMem ∅))).1.

Lemma exactly_once_witness :
  b_map (sm_backend (apply_log demo_log (sm_new (mkMem ∅))).1) !! [x61] = Some [x02].
Proof. rewrite exactly_once by apply mem_ok. vm_compute. reflexivity. Defined.

Lemma executed_commands_increase_witness : 1 < 2.
Proof.
  apply (executed_commands_increase demo_log 0 2 (mkCmd 7 1 (Put [x61] [x01]))
    (mkCmd 7 2 (Delete [x62]))); vm_compute; (reflexivity || discriminate || lia).
Defined.

Lemma retry_is_idempotent_witness :
  (apply (mkCmd 8 1 (Cas [x61] (Some [x01]) (Some [x02]))) demo_sm).2 = RCas true (Some [x01]).
Proof.
  change demo_sm with (apply_log (drop 2 demo_log) (apply (mkCmd 8 1
    (Cas [x61] (Some [x01]) (Some [x02])))
    (apply_log (take 1 demo_log) (sm_new (mkMem ∅))).1).1).1.
  rewrite retry_is_idempotent; [vm_compute; reflexivity|apply mem_ok|discriminate| |].
  - vm_compute. reflexivity.
  - intros d Hd Hs. simpl in Hd. repeat (apply elem_of_cons in Hd as [->|Hd]; [discriminate|]).
    by apply elem_of_nil in Hd.
Defined.

#[local] Instance demo_bincode : Bincode SnapshotPayload := countable_bincode SnapshotPayload.
#[local] Instance demo_bincode_laws : BincodeLaws SnapshotPayload :=
  countable_bincode_laws SnapshotPayload.

Lemma snapshot_transfer_witness :
  ∃ s2, sm_restore (sm_snapshot demo_sm) (sm_new (mkMem {[ [x63] := [x09] ]})) = Some s2
    ∧ (apply_log [mkCmd 8 1 (Get [x61])] s2).2 = [RCas true (Some [x01])].
Proof.
  destruct (snapshot_transfer demo_log [mkCmd 8 1 (Get [x61])] (mkMem ∅)
    (sm_new (mkMem {[ [x63] := [x09] ]})) (mem_ok _) (mem_ok _)) as (s2 & H1 & H2 & _).
  exists s2. split; [exact H1|]. rewrite <-H2. vm_compute. reflexivity.
Defined.

Lemma snapshot_canonical_witness :
  sm_snapshot demo_sm = sm_snapshot (mkSM (mkMem {[ [x61] := [x02] ]}) (sm_sessions demo_sm)).
Proof.
  apply (snapshot_canonical demo_sm (mkSM (mkMem {[ [x61] := [x02] ]}) (sm_sessions demo_sm))).
  split_and!; [exact I|exact I| |reflexivity].
  apply (bool_decide_unpack _). vm_compute. exact I.
Defined.

Lemma read_range_spec_witness : ([x61], [x02]) ∈ sm_read_range [] (Some [x7a]) 10 demo_sm.
Proof.
  destruct (read_range_spec demo_sm [] (Some [x7a]) 10 (mem_ok _) ltac:(lia)) as (_ & _ & _ & H).
  apply H; vm_compute; (reflexivity || discriminate || lia).
Defined.
