(* ===== verification/Wgl.v ===== *)
(** * The linearizability checker

    crates/sim/src/wgl.rs: the Wing and Gong search over "which operation
    linearizes next", with its bit masks, memo table and expansion budget. The
    theorems say that the checker is right in both directions: it accepts only
    linearizable histories and it rejects only histories that are not. *)

From S2P Require Import Prelude SimBase.
Local Open Scope N_scope.

(** ** Operations on one key *)

Inductive PKind :=
| PRead (result : option N)
| PWrite (val : N)
| PCas (expect : option N) (new : N) (success : option bool).

Record POp := mkPOp {
  po_invoke : N;
  po_ret : option N;
  po_kind : PKind;
  po_client : N;
}.

Definition try_apply (kind : PKind) (value : option N) : option (option N) :=
  match kind with
  | PRead result => if decide (result = value) then Some value else None
  | PWrite val => Some (Some val)
  | PCas expect new success =>
    let would_succeed := bool_decide (value = expect) in
    match success with
    | Some s => if Bool.eqb s would_succeed
                then Some (if would_succeed then Some new else value) else None
    | None => Some (if would_succeed then Some new else value)
    end
  end.

(** ** Bit masks *)

Definition mask_test (mask : list N) (i : nat) : bool :=
  negb (N.land (mask !!! (i / 64)%nat) (N.shiftl 1 (N.of_nat (i mod 64))) =? 0).

Definition mask_set (mask : list N) (i : nat) : list N :=
  <[(i / 64)%nat := N.lor (mask !!! (i / 64)%nat) (N.shiftl 1 (N.of_nat (i mod 64)))]> mask.

(** ** The search *)

Definition EXPANSION_BUDGET : N := 5000000.
Definition U64_MAX : N := 2 ^ 64 - 1.

Inductive wgl_error :=
| TooManyOps (n : nat)
| BudgetExceeded
| NotLinearizable (ops : list POp)
| MalformedCas
| MalformedRecord
| OutOfFuel.

(** [sort_by_key] is stable. *)
Fixpoint insert_by_invoke (o : POp) (l : list POp) : list POp :=
  match l with
  | [] => [o]
  | x :: l => if po_invoke o <? po_invoke x then o :: x :: l else x :: insert_by_invoke o l
  end.

Definition sort_by_invoke (ops : list POp) : list POp :=
  foldl (λ l o, insert_by_invoke o l) [] ops.

Abbreviation search_state := (list N * option N)%type.

Definition completed_mask (ops : list POp) (words : nat) : list N :=
  foldl (λ m io, match po_ret io.2 with Some _ => mask_set m io.1 | None => m end)
    (replicate words 0) (imap pair ops).

Definition all_done (all_completed mask : list N) : bool :=
  forallb (λ mc, N.land mc.1 mc.2 =? mc.2) (zip mask all_completed).

Definition min_ret (ops : list POp) (mask : list N) : N :=
  foldl (λ acc io, if mask_test mask io.1 then acc
                   else match po_ret io.2 with Some r => N.min acc r | None => acc end)
    U64_MAX (imap pair ops).

(** The states pushed when a state is expanded, in the order of the loop. *)
Definition expand (ops : list POp) (s : search_state) : list search_state :=
  let '(mask, value) := s in
  let limit := min_ret ops mask in
  omap (λ io, if mask_test mask io.1 then None
              else if limit <? po_invoke io.2 then None
              else (λ v, (mask_set mask io.1, v)) <$> try_apply (po_kind io.2) value)
    (imap pair ops).

Record search := mkSearch {
  s_memo : gset search_state;
  s_stack : list search_state;
  s_expansions : N;
}.

(** One iteration of the [while let] loop; the top of the stack is the head. *)
Definition search_step (ops : list POp) (all_completed : list N) (st : search)
    : search + Result unit wgl_error :=
  match s_stack st with
  | [] => inr (Err (NotLinearizable ops))
  | s :: rest =>
    if all_done all_completed s.1 then inr (Ok tt)
    else if decide (s ∈ s_memo st) then inl (mkSearch (s_memo st) rest (s_expansions st))
    else
      let expansions := s_expansions st + 1 in
      if EXPANSION_BUDGET <? expansions then inr (Err BudgetExceeded)
      else inl (mkSearch ({[s]} ∪ s_memo st) (reverse (expand ops s) ++ rest) expansions)
  end.

Definition search_fuel : positive := 2 ^ 35.

Definition check_key (ops : list POp) : Result unit wgl_error :=
  let ops := sort_by_invoke ops in
  let n := length ops in
  if (n =? 0)%nat then Ok tt
  else if (4096 <? n)%nat then Err (TooManyOps n)
  else
    let words := ((n + 63) / 64)%nat in
    match loop search_fuel (search_step ops (completed_mask ops words))
            (mkSearch ∅ [(replicate words 0, None)] 0) with
    | inr r => r
    | inl _ => Err OutOfFuel
    end.

(** ** Full histories *)

(** [None]: a pending read, which is dropped. *)
Definition prepare (r : HRecord) : option (Result POp wgl_error) :=
  let mk k := Some (Ok (mkPOp (hr_invoke r) (hr_ret r) k (hr_client r))) in
  match hr_op r, hr_result r with
  | HRead _, None => None
  | HRead _, Some (ReadOk v) => mk (PRead v)
  | HWrite _ val, _ => mk (PWrite val)
  | HCas _ expect new, Some (CasOk success) => mk (PCas expect new (Some success))
  | HCas _ expect new, None => mk (PCas expect new None)
  | HCas _ _ _, Some _ => Some (Err MalformedCas)
  | HRead _, Some _ => Some (Err MalformedRecord)
  end.

Fixpoint collect_ops (rs : list HRecord) : Result (list POp) wgl_error :=
  match rs with
  | [] => Ok []
  | r :: rs =>
    match prepare r with
    | None => collect_ops rs
    | Some (Err e) => Err e
    | Some (Ok o) => match collect_ops rs with Ok os => Ok (o :: os) | Err e => Err e end
    end
  end.

Fixpoint check_keys (history : list HRecord) (keys : list N) : Result unit (N * wgl_error) :=
  match keys with
  | [] => Ok tt
  | key :: keys =>
    match collect_ops (filter (λ r, hop_key (hr_op r) = key) history) with
    | Err e => Err (key, e)
    | Ok ops =>
      match check_key ops with
      | Err e => Err (key, e)
      | Ok _ => check_keys history keys
      end
    end
  end.

(** [Vec::dedup]: drops an element equal to its predecessor. *)
Fixpoint dedup (l : list N) : list N :=
  match l with
  | x :: ((y :: _) as l') => if x =? y then dedup l' else x :: dedup l'
  | l => l
  end.

Definition check_history (history : list HRecord) : Result unit (N * wgl_error) :=
  check_keys history
    (dedup (merge_sort N.le ((λ r, hop_key (hr_op r)) <$> history))).

(** ** Linearizability *)

(** Running operations in order on one register. *)
Fixpoint run_register (lin : list POp) (value : option N) : option (option N) :=
  match lin with
  | [] => Some value
  | o :: lin => v ← try_apply (po_kind o) value; run_register lin v
  end.

(** No operation comes before one that had returned when it was invoked. *)
Definition real_time (lin : list POp) : Prop :=
  ∀ p q a b r, (p < q)%nat → lin !! p = Some a → lin !! q = Some b →
    po_ret b = Some r → po_invoke a ≤ r.

(** There is an order of all completed and some pending operations that a
    sequential register explains and that respects real time. *)
Definition linearizable (ops : list POp) : Prop :=
  ∃ lin rest, ops ≡ₚ lin ++ rest ∧ Forall (λ o, po_ret o = None) rest
    ∧ real_time lin ∧ is_Some (run_register lin None).

(** Operations as a client records them: 64-bit stamps, return after invoke. *)
Definition stamped (o : POp) : Prop :=
  po_invoke o ≤ U64_MAX ∧ ∀ r, po_ret o = Some r → po_invoke o ≤ r.

Lemma linearizable_perm ops ops' : ops ≡ₚ ops' → linearizable ops → linearizable ops'.
Proof.
  intros Hp (lin & rest & H1 & H2). exists lin, rest. split; [by rewrite <-Hp|done].
Qed.

Lemma sort_by_invoke_perm ops : sort_by_invoke ops ≡ₚ ops.
Proof.
  assert (∀ o l, insert_by_invoke o l ≡ₚ o :: l) as Hins.
  { intros o l. induction l as [|x l IH]; simpl; [done|]. destruct (_ <? _); [done|].
    rewrite IH. apply Permutation_swap. }
  unfold sort_by_invoke.
  assert (∀ acc, foldl (λ l o, insert_by_invoke o l) acc ops ≡ₚ acc ++ ops) as Hg; [|by rewrite Hg].
  induction ops as [|o ops IH]; intros acc; simpl; [by rewrite app_nil_r|].
  rewrite IH, Hins. simpl. by rewrite Permutation_middle.
Qed.

(** ** Masks *)

Lemma mask_test_bit m i :
  mask_test m i = N.testbit (m !!! (i / 64)%nat) (N.of_nat (i mod 64)).
Proof. apply land_bit. Qed.

Lemma mask_set_bit m i w b :
  (i / 64 < length m)%nat →
  N.testbit (mask_set m i !!! w) b
  = (N.testbit (m !!! w) b) || bool_decide (w = (i / 64)%nat ∧ b = N.of_nat (i mod 64)).
Proof.
  intros Hi. unfold mask_set. destruct (decide (w = (i / 64)%nat)) as [->|Hne].
  - rewrite list_lookup_total_insert_eq by done.
    rewrite N.lor_spec, N.shiftl_1_l, N.pow2_bits_eqb. f_equal.
    destruct (N.eqb_spec (N.of_nat (i mod 64)) b) as [<-|Hb].
    + by rewrite bool_decide_eq_true_2.
    + rewrite bool_decide_eq_false_2; [done|]. naive_solver.
  - rewrite list_lookup_total_insert_ne by done.
    rewrite bool_decide_eq_false_2 by naive_solver. by rewrite orb_false_r.
Qed.

Lemma index_split i j : (i / 64 = j / 64)%nat → (i mod 64 = j mod 64)%nat → i = j.
Proof.
  intros H1 H2. rewrite (Nat.div_mod_eq i 64), (Nat.div_mod_eq j 64). lia.
Qed.

Lemma mask_set_test m i j :
  (i / 64 < length m)%nat →
  mask_test (mask_set m i) j = mask_test m j || bool_decide (j = i).
Proof.
  intros Hi. rewrite !mask_test_bit, mask_set_bit by done. f_equal. apply bool_decide_ext.
  split; [|naive_solver]. intros [H1 H2]. apply index_split; [done|lia].
Qed.

Lemma length_mask_set m i : length (mask_set m i) = length m.
Proof. apply length_insert. Qed.

Lemma mask_test_zero words j : (j / 64 < words)%nat → mask_test (replicate words 0) j = false.
Proof. intros Hj. rewrite mask_test_bit. by rewrite lookup_total_replicate_2, N.bits_0. Qed.

Lemma elem_of_indexed {A} (l : list A) i x : (i, x) ∈ imap pair l ↔ l !! i = Some x.
Proof.
  rewrite elem_of_lookup_imap. split.
  - intros (j & y & [= <- <-] & Hj). done.
  - intros Hi. by exists i, x.
Qed.

Section mask.
  Context (ops : list POp) (words : nat) (Hwords : (length ops <= 64 * words)%nat).

Lemma word_lt i o : ops !! i = Some o → (i / 64 < words)%nat.
Proof. intros Hi%lookup_lt_Some. apply Nat.Div0.div_lt_upper_bound. lia. Qed.

Lemma completed_mask_spec :
  length (completed_mask ops words) = words
  ∧ ∀ w b, (w < words)%nat → N.testbit (completed_mask ops words !!! w) b = true ↔
      ∃ i o, ops !! i = Some o ∧ is_Some (po_ret o) ∧ w = (i / 64)%nat ∧ b = N.of_nat (i mod 64).
Proof.
  unfold completed_mask.
  assert (∀ l m, length m = words → (∀ i o, (i, o) ∈ l → (i / 64 < words)%nat) →
    let m' := foldl (λ m io, match po_ret io.2 with Some _ => mask_set m io.1 | None => m end) m l in
    length m' = words ∧ ∀ w b, N.testbit (m' !!! w) b = true ↔ N.testbit (m !!! w) b = true
      ∨ ∃ i o, (i, o) ∈ l ∧ is_Some (po_ret o) ∧ w = (i / 64)%nat ∧ b = N.of_nat (i mod 64)) as Hgen.
  { induction l as [|[i o] l IH]; intros m Hm Hl; simpl.
    { split; [done|]. intros w b. split; [by left|]. intros [|(? & ? & Hx & _)]; [done|].
      by apply elem_of_nil in Hx. }
    assert (∀ i o, (i, o) ∈ l → (i / 64 < words)%nat) as Hl'
      by (intros i' o' ?; apply (Hl i' o'); by right).
    destruct (po_ret o) as [r|] eqn:Hr.
    - destruct (IH (mask_set m i)) as [H1 H2]; [by rewrite length_mask_set|done|].
      split; [done|]. intros w b. rewrite H2, mask_set_bit by (rewrite Hm; by apply (Hl i o); left).
      rewrite orb_true_iff, bool_decide_eq_true. split.
      + intros [[?|[? ?]]|(i' & o' & ? & ?)]; [by left| |].
        * right. exists i, o. split_and!; [left|by rewrite Hr|done|done].
        * right. exists i', o'. split; [by right|done].
      + intros [?|(i' & o' & [Hx|Hx]%elem_of_cons & ?)]; [by left; left| |].
        * injection Hx as -> ->. left. right. naive_solver.
        * right. by exists i', o'.
    - destruct (IH m Hm Hl') as [H1 H2]. split; [done|]. intros w b. rewrite H2. split.
      + intros [?|(i' & o' & ? & ?)]; [by left|right]. exists i', o'. split; [by right|done].
      + intros [?|(i' & o' & [Hx|Hx]%elem_of_cons & Hs & ?)]; [by left| |right; by exists i', o'].
        injection Hx as -> ->. rewrite Hr in Hs. by destruct Hs. }
  destruct (Hgen (imap pair ops) (replicate words 0)) as [H1 H2].
  { apply length_replicate. }
  { intros i o Hi%elem_of_indexed. by eapply word_lt. }
  split; [done|]. intros w b Hw. rewrite H2. split.
  - intros [Hz|(i & o & Hi%elem_of_indexed & ?)]; [|by exists i, o]. exfalso. revert Hz.
    by rewrite lookup_total_replicate_2, N.bits_0.
  - intros (i & o & Hi & ?). right. exists i, o. split; [by apply elem_of_indexed|done].
Qed.

Lemma all_done_iff mask :
  length mask = words →
  all_done (completed_mask ops words) mask = true ↔
  ∀ i o, ops !! i = Some o → is_Some (po_ret o) → mask_test mask i = true.
Proof.
  intros Hlen. destruct completed_mask_spec as [Hc Hbits]. unfold all_done.
  rewrite forallb_forall. setoid_rewrite <-list_elem_of_In. split.
  - intros Hall i o Hi Hr. pose proof (word_lt _ _ Hi) as Hw.
    rewrite mask_test_bit. set (b := N.of_nat (i mod 64)).
    assert (N.testbit (completed_mask ops words !!! (i / 64)%nat) b = true) as Hb
      by (apply Hbits; [done|]; by exists i, o).
    destruct (lookup_lt_is_Some_2 mask (i / 64)) as [x Hx]; [lia|].
    destruct (lookup_lt_is_Some_2 (completed_mask ops words) (i / 64)) as [y Hy]; [lia|].
    rewrite (list_lookup_total_correct _ _ _ Hx).
    rewrite (list_lookup_total_correct _ _ _ Hy) in Hb.
    assert ((x, y) ∈ zip mask (completed_mask ops words)) as Hin.
    { apply list_elem_of_lookup. exists (i / 64)%nat. rewrite lookup_zip_with, Hx, Hy. done. }
    apply Hall in Hin. simpl in Hin. apply N.eqb_eq in Hin.
    rewrite <-Hin, N.land_spec in Hb. by apply andb_true_iff in Hb as [? _].
  - intros Hall [x y] [w Hw]%list_elem_of_lookup. rewrite lookup_zip_with in Hw.
    destruct (mask !! w) as [x'|] eqn:Hx; simpl in Hw; [|done].
    destruct (completed_mask ops words !! w) as [y'|] eqn:Hy; simpl in Hw; [|done].
    simplify_eq. simpl. apply N.eqb_eq, N.bits_inj_iff. intros b.
    rewrite N.land_spec. destruct (N.testbit y b) eqn:Hb; [|by rewrite andb_false_r].
    rewrite andb_true_r. rewrite <-(list_lookup_total_correct _ _ _ Hy) in Hb.
    apply Hbits in Hb as (i & o & Hi & Hr & -> & ->);
      [|by eapply lookup_lt_Some].
    specialize (Hall i o Hi Hr).
    by rewrite mask_test_bit, (list_lookup_total_correct _ _ _ Hx) in Hall.
Qed.
End mask.

(** ** What one expansion pushes *)

Lemma min_ret_spec ops mask x :
  x ≤ min_ret ops mask ↔ x ≤ U64_MAX ∧
    ∀ i o r, ops !! i = Some o → mask_test mask i = false → po_ret o = Some r → x ≤ r.
Proof.
  setoid_rewrite <-elem_of_indexed. unfold min_ret. generalize U64_MAX as acc.
  induction (imap pair ops) as [|[j o] l IH]; intros acc; simpl.
  { split; [|tauto]. intros ?. split; [done|]. by intros i o r ?%elem_of_nil. }
  rewrite IH. setoid_rewrite elem_of_cons.
  destruct (mask_test mask j) eqn:Hm; [|destruct (po_ret o) as [r|] eqn:Hr].
  - split; intros [H1 H2]; (split; [done|]); [|naive_solver]. intros i o' r [[= -> ->]|?] ??; [|eauto].
    congruence.
  - split; intros [H1 H2].
    + split; [lia|]. intros i o' r' [[= -> ->]|?] ??; [|eauto]. simplify_eq. lia.
    + split; [|naive_solver]. pose proof (H2 j o r (or_introl eq_refl) Hm Hr). lia.
  - split; intros [H1 H2]; (split; [done|]); naive_solver.
Qed.

Definition step_at (ops : list POp) (i : nat) (o : POp) (s s' : search_state) : Prop :=
  ops !! i = Some o ∧ mask_test s.1 i = false ∧ po_invoke o ≤ min_ret ops s.1
  ∧ try_apply (po_kind o) s.2 = Some s'.2 ∧ s'.1 = mask_set s.1 i.

Lemma elem_of_expand ops s s' : s' ∈ expand ops s ↔ ∃ i o, step_at ops i o s s'.
Proof.
  destruct s as [mask value], s' as [mask' value']. unfold expand, step_at.
  rewrite list_elem_of_omap. simpl. split.
  - intros ([i o] & Hi%elem_of_indexed & Hs). simpl in Hs.
    destruct (mask_test mask i) eqn:Hm; [done|].
    destruct (N.ltb_spec (min_ret ops mask) (po_invoke o)); [done|].
    destruct (try_apply _ _) as [v|] eqn:Ha; [|done]. simplify_eq/=. by exists i, o.
  - intros (i & o & Hi & Hm & Hle & Ha & ->). exists (i, o).
    split; [by apply elem_of_indexed|]. simpl. rewrite Hm.
    destruct (N.ltb_spec (min_ret ops mask) (po_invoke o)); [lia|]. by rewrite Ha.
Qed.

Lemma length_omap_le {A B} (f : A → option B) l : (length (omap f l) <= length l)%nat.
Proof. induction l as [|x l IH]; csimpl; [lia|]. destruct (f x); simpl; lia. Qed.

Lemma length_expand ops s : (length (expand ops s) <= length ops)%nat.
Proof.
  destruct s as [mask value]. unfold expand. etransitivity; [apply length_omap_le|].
  by rewrite length_imap.
Qed.

(** ** Paths of the search *)

Section paths.
  Context (ops : list POp) (words : nat) (Hwords : (length ops <= 64 * words)%nat).

(** A state reached by linearizing the operations [lin], found at [idxs]. *)
Inductive path : list nat → list POp → search_state → Prop :=
| path_nil : path [] [] (replicate words 0, None)
| path_snoc idxs lin s i o s' :
    path idxs lin s → step_at ops i o s s' → path (idxs ++ [i]) (lin ++ [o]) s'.

Lemma run_register_snoc lin o v v' :
  run_register lin v = Some v' → run_register (lin ++ [o]) v = try_apply (po_kind o) v'.
Proof.
  revert v. induction lin as [|x lin IH]; intros v; simpl.
  - intros [= ->]. by destruct (try_apply _ _).
  - destruct (try_apply (po_kind x) v) as [v1|]; simpl; [|done]. apply IH.
Qed.

Lemma path_mask idxs lin s :
  path idxs lin s →
  length s.1 = words ∧ NoDup idxs ∧ Forall2 (λ i o, ops !! i = Some o) idxs lin
  ∧ (∀ j o, ops !! j = Some o → mask_test s.1 j = bool_decide (j ∈ idxs))
  ∧ run_register lin None = Some s.2.
Proof.
  induction 1 as [|idxs lin s i o s' _ (Hlen & Hnd & Hat & Hm & Hrun) (Hi & Hmi & _ & Ha & Hs)].
  { simpl. rewrite length_replicate. split_and!; [done|constructor|constructor| |done].
    intros j o Hj. by rewrite mask_test_zero by by eapply word_lt. }
  pose proof (word_lt _ _ Hwords _ _ Hi) as Hw. rewrite Hs, length_mask_set. split_and!; [done| | | |].
  - apply NoDup_app. split_and!; [done| |apply NoDup_singleton].
    intros j Hj ->%list_elem_of_singleton. rewrite (Hm _ _ Hi) in Hmi.
    by apply bool_decide_eq_false in Hmi.
  - apply Forall2_app; [done|]. by constructor.
  - intros j o' Hj. rewrite mask_set_test by lia. rewrite (Hm _ _ Hj), <-bool_decide_or.
    apply bool_decide_ext. rewrite elem_of_app, list_elem_of_singleton. done.
  - rewrite (run_register_snoc _ _ _ _ Hrun). done.
Qed.

(** Everything linearized was invoked before what is left returned. *)
Lemma path_real_time idxs lin s :
  path idxs lin s →
  real_time lin ∧
  ∀ a j b r, a ∈ lin → ops !! j = Some b → j ∉ idxs → po_ret b = Some r → po_invoke a ≤ r.
Proof.
  induction 1 as [|idxs lin s i o s' Hp [Hrt Hleft] (Hi & Hmi & Hle & Ha & Hs)].
  { split; [by intros ??????; rewrite lookup_nil|]. by intros ?????%elem_of_nil. }
  apply path_mask in Hp as (_ & _ & Hat & Hm & _).
  rewrite (Hm _ _ Hi) in Hmi. apply bool_decide_eq_false in Hmi. split.
  - intros p q a b r Hpq Hp Hq Hr.
    assert (q < length (lin ++ [o]))%nat as Hql by by eapply lookup_lt_Some.
    rewrite length_app in Hql. simpl in Hql. rewrite lookup_app_l in Hp by lia.
    destruct (decide (q < length lin)%nat).
    + rewrite lookup_app_l in Hq by done. by apply (Hrt p q a b).
    + rewrite lookup_app_r in Hq by lia. apply list_lookup_singleton_Some in Hq as [_ <-].
      apply (Hleft a i o r); [|done..]. by eapply list_elem_of_lookup_2.
  - intros a j b r [Ha'|Ha']%elem_of_app Hj [Hn1 Hn2]%not_elem_of_app Hr; [by eapply Hleft|].
    apply list_elem_of_singleton in Ha' as ->. apply min_ret_spec in Hle as [_ Hle].
    apply (Hle j b r); [done| |done]. rewrite (Hm _ _ Hj). by apply bool_decide_eq_false.
Qed.

Lemma omap_at idxs lin :
  Forall2 (λ i o, ops !! i = Some o) idxs lin → omap (λ i, ops !! i) idxs = lin.
Proof. induction 1 as [|i o idxs lin Hi _ IH]; [done|]. csimpl. by rewrite Hi, IH. Qed.

Lemma omap_lookup_seq {A} (l : list A) : omap (λ i, l !! i) (seq 0 (length l)) = l.
Proof.
  induction l as [|x l IH] using rev_ind; [done|].
  rewrite length_app, seq_app, omap_app. simpl. f_equal.
  - etransitivity; [|exact IH]. apply list_omap_ext, Forall2_same_length_lookup.
    split; [done|]. intros i a b Ha Hb. rewrite Ha in Hb. injection Hb as <-.
    apply lookup_seq in Ha as [-> Hi]. by rewrite lookup_app_l.
  - by rewrite lookup_app_r, Nat.sub_diag.
Qed.

Lemma run_register_prefix lin lin' v :
  is_Some (run_register (lin ++ lin') v) → is_Some (run_register lin v).
Proof.
  revert v. induction lin as [|x lin IH]; intros v; simpl; [eauto|].
  destruct (try_apply _ _); simpl; [apply IH|done].
Qed.

(** The states the search accepts are linearizations. *)
Lemma path_sound idxs lin s :
  path idxs lin s → all_done (completed_mask ops words) s.1 = true → linearizable ops.
Proof.
  intros Hp Hd. pose proof (path_mask _ _ _ Hp) as (Hlen & Hnd & Hat & Hm & Hrun).
  rewrite all_done_iff in Hd by done.
  set (left := filter (λ i, i ∉ idxs) (seq 0 (length ops))).
  exists lin, (omap (λ i, ops !! i) left). split_and!.
  - rewrite <-(omap_lookup_seq ops) at 1. rewrite <-(omap_at idxs lin), <-omap_app by done.
    apply omap_Permutation, NoDup_Permutation.
    + apply NoDup_seq.
    + apply NoDup_app. split_and!; [done| |apply NoDup_filter, NoDup_seq].
      intros i Hi [Hn _]%list_elem_of_filter. done.
    + intros i. unfold left. rewrite elem_of_app, list_elem_of_filter, elem_of_seq.
      destruct (decide (i ∈ idxs)) as [Hi|]; [|tauto]. split; [by left|]. intros _.
      apply list_elem_of_lookup in Hi as [k Hk].
      destruct (Forall2_lookup_l _ _ _ _ _ Hat Hk) as (o & _ & Ho%lookup_lt_Some). lia.
  - apply Forall_forall. intros o (i & [Hi Hs]%list_elem_of_filter & Ho)%list_elem_of_omap.
    destruct (po_ret o) eqn:Hr; [|done]. exfalso. apply Hi.
    apply (bool_decide_eq_true_1 (i ∈ idxs)). rewrite <-(Hm _ _ Ho). apply (Hd i o); [done|by rewrite Hr].
  - by apply (path_real_time _ _ _ Hp).
  - rewrite Hrun. eauto.
Qed.

(** A permutation of the operations visits every index. *)
Lemma permutation_indices {A} (l k : list A) :
  l ≡ₚ k → ∃ f : nat → nat, Inj (=) (=) f ∧ (∀ p, k !! p = l !! f p)
    ∧ ∀ j, (j < length l)%nat → ∃ p, (p < length k)%nat ∧ f p = j.
Proof.
  intros Hp. symmetry in Hp. pose proof (Permutation_length Hp) as Hl.
  apply Permutation_inj in Hp as [_ (f & Hinj & Hf)]. exists f. split_and!; [done..|].
  intros j Hj.
  assert (f <$> seq 0 (length k) ≡ₚ seq 0 (length l)) as Hperm.
  { apply submseteq_length_Permutation; [|rewrite length_fmap, !length_seq; lia].
    apply NoDup_submseteq; [apply NoDup_fmap_2; [done|apply NoDup_seq]|].
    intros x (p & -> & Hin)%list_elem_of_fmap. apply elem_of_seq in Hin. apply elem_of_seq.
    split; [lia|]. simpl. apply lookup_lt_is_Some. rewrite <-Hf. apply lookup_lt_is_Some. lia. }
  assert (j ∈ f <$> seq 0 (length k)) as (p & -> & Hin%elem_of_seq)%list_elem_of_fmap.
  { rewrite Hperm. apply elem_of_seq. lia. }
  exists p. split; [lia|done].
Qed.

(** Every linearization is a path of the search. *)
Lemma path_complete :
  Forall stamped ops → linearizable ops →
  ∃ idxs lin s, path idxs lin s ∧ all_done (completed_mask ops words) s.1 = true.
Proof.
  intros Hwf (lin & rest & Hperm & Hrest & Hrt & Hrun).
  apply permutation_indices in Hperm as (f & Hinj & Hf & Hsur).
  assert (∀ j o r, ops !! j = Some o → po_ret o = Some r → ∃ p, f p = j ∧ lin !! p = Some o) as Hlin.
  { intros j o r Hj Hr. destruct (Hsur j) as (p & _ & <-); [by eapply lookup_lt_Some|].
    exists p. split; [done|]. rewrite <-Hf in Hj. destruct (decide (p < length lin)%nat) as [Hlt|Hge].
    - by rewrite lookup_app_l in Hj.
    - rewrite lookup_app_r in Hj by lia. rewrite Forall_lookup in Hrest.
      rewrite (Hrest _ _ Hj) in Hr. done. }
  assert (∀ k, (k <= length lin)%nat → ∃ s, path (f <$> seq 0 k) (take k lin) s) as Hk.
  { induction k as [|k IH]; intros Hle; [eexists; constructor|].
    destruct IH as [s Hs]; [lia|]. pose proof (path_mask _ _ _ Hs) as (_ & _ & _ & Hm & Hr).
    destruct (lookup_lt_is_Some_2 lin k) as [o Ho]; [lia|].
    assert (ops !! f k = Some o) as Hok by by rewrite <-Hf, lookup_app_l by lia.
    rewrite (take_S_r _ _ _ Ho), seq_S, fmap_app. simpl.
    assert (is_Some (try_apply (po_kind o) s.2)) as [v' Hv'].
    { rewrite <-(run_register_snoc _ o _ _ Hr), <-(take_S_r _ _ _ Ho).
      apply (run_register_prefix _ (drop (S k) lin)). by rewrite take_drop. }
    exists (mask_set s.1 (f k), v'). eapply path_snoc; [done|]. split_and!; [done| | |done|done].
    - rewrite (Hm _ _ Hok). apply bool_decide_eq_false. intros (p & Hp & Hin)%list_elem_of_fmap.
      apply Hinj in Hp. apply elem_of_seq in Hin. lia.
    - rewrite Forall_lookup in Hwf. destruct (Hwf _ _ Hok) as [Hu Hret].
      apply min_ret_spec. split; [done|]. intros j o' r Hj Hmj Hr'.
      destruct (Hlin _ _ _ Hj Hr') as (p & <- & Hp).
      destruct (decide (p = k)) as [->|]; [rewrite Ho in Hp; injection Hp as <-; by apply Hret|].
      apply (Hrt k p o o' r); [|done..].
      rewrite (Hm _ _ Hj) in Hmj. apply bool_decide_eq_false in Hmj.
      destruct (decide (p < k)%nat); [|lia]. exfalso. apply Hmj, list_elem_of_fmap. exists p.
      split; [done|]. apply elem_of_seq. lia. }
  destruct (Hk (length lin)) as [s Hs]; [done|]. do 3 eexists. split; [done|].
  pose proof (path_mask _ _ _ Hs) as (Hlen & _ & _ & Hm & _).
  rewrite all_done_iff by done. intros j o Hj [r Hr]. rewrite (Hm _ _ Hj).
  apply bool_decide_eq_true. destruct (Hlin _ _ _ Hj Hr) as (p & <- & Hp).
  apply list_elem_of_fmap. exists p. split; [done|]. apply lookup_lt_Some in Hp. apply elem_of_seq. lia.
Qed.
End paths.

(** ** The loop *)

Section search.
  Context (ops : list POp) (words : nat) (Hwords : (length ops <= 64 * words)%nat).

Abbreviation start := (replicate words 0, @None N).
Abbreviation is_done s := (all_done (completed_mask ops words) (fst s)).

(** The memo table holds rejected states and is closed under expansion, up to
    what is still on the stack. *)
Definition search_inv (st : search) : Prop :=
  (∀ s, s ∈ s_stack st → ∃ idxs lin, path ops words idxs lin s)
  ∧ (∀ s, s ∈ s_memo st → is_done s = false
       ∧ (∃ idxs lin, path ops words idxs lin s)
       ∧ ∀ s', s' ∈ expand ops s → s' ∈ s_memo st ∨ s' ∈ s_stack st)
  ∧ (start ∈ s_memo st ∨ start ∈ s_stack st)
  ∧ s_expansions st ≤ EXPANSION_BUDGET.

(** What the answers mean. *)
Definition search_answer (r : Result unit wgl_error) : Prop :=
  match r with
  | Ok _ => linearizable ops
  | Err (NotLinearizable l) => l = ops ∧ (Forall stamped ops → ¬ linearizable ops)
  | Err BudgetExceeded => True
  | Err _ => False
  end.

Lemma exhausted st :
  search_inv st → s_stack st = [] → Forall stamped ops → ¬ linearizable ops.
Proof.
  intros (_ & Hmemo & Hstart & _) Hnil Hwf Hlin.
  destruct (path_complete _ _ Hwords Hwf Hlin) as (idxs & lin & s & Hp & Hd).
  assert (s ∈ s_memo st) as Hin; [|by rewrite (proj1 (Hmemo _ Hin)) in Hd].
  clear Hd. rewrite Hnil in Hstart, Hmemo.
  induction Hp as [|idxs lin s i o s' _ IH Hstep].
  - by destruct Hstart as [|?%elem_of_nil].
  - destruct (Hmemo s IH) as (_ & _ & Hcl).
    destruct (Hcl s') as [|?%elem_of_nil]; [|done..]. apply elem_of_expand. eauto.
Qed.

Definition search_measure (st : search) : N :=
  (EXPANSION_BUDGET - s_expansions st) * (N.of_nat (length ops) + 1)
  + N.of_nat (length (s_stack st)).

Lemma search_step_inv st :
  search_inv st →
  match search_step ops (completed_mask ops words) st with
  | inl st' => search_inv st' ∧ search_measure st' < search_measure st
  | inr r => search_answer r
  end.
Proof.
  intros Hinv. pose proof Hinv as (Hstack & Hmemo & Hstart & Hbud). unfold search_step.
  destruct (s_stack st) as [|s rest] eqn:Hst.
  { split; [done|]. by apply (exhausted st). }
  destruct (Hstack s) as (idxs & lin & Hp); [by left|].
  destruct (is_done s) eqn:Hd; [by apply (path_sound _ _ Hwords _ _ _ Hp)|].
  destruct (decide (s ∈ s_memo st)) as [Hin|Hnin]; unfold search_inv, search_measure; simpl.
  { rewrite Hst. split_and!; [|  | |done|simpl; lia].
    - intros s' ?. apply Hstack. by right.
    - intros s' Hs'. destruct (Hmemo s' Hs') as (? & ? & Hcl). split_and!; [done..|].
      intros s2 [?|[->|?]%elem_of_cons]%Hcl; auto.
    - destruct Hstart as [|[->|]%elem_of_cons]; auto. }
  destruct (N.ltb_spec EXPANSION_BUDGET (s_expansions st + 1)); [done|]. simpl. rewrite Hst.
  split; [|pose proof (length_expand ops s); rewrite length_app, length_reverse; simpl; nia].
  split_and!; [| | |done].
  - intros s' [Hs'|Hs']%elem_of_app; [|apply Hstack; by right].
    apply elem_of_reverse, elem_of_expand in Hs' as (i & o & Hs').
    exists (idxs ++ [i]), (lin ++ [o]). by eapply path_snoc.
  - intros s' [->%elem_of_singleton|Hs']%elem_of_union.
    + split_and!; [done|by eauto|]. intros s2 Hs2. right. apply elem_of_app. left.
      by apply elem_of_reverse.
    + destruct (Hmemo s' Hs') as (? & ? & Hcl). split_and!; [done..|].
      intros s2 [?|[->|?]%elem_of_cons]%Hcl; [set_solver..|]. right. apply elem_of_app. auto.
  - destruct Hstart as [|[->|]%elem_of_cons]; [set_solver..|]. right. apply elem_of_app. auto.
Qed.

Lemma search_run :
  (length ops <= 4096)%nat →
  ∃ r, loop search_fuel (search_step ops (completed_mask ops words)) (mkSearch ∅ [start] 0)
       = inr r ∧ search_answer r.
Proof.
  intros Hn. assert (search_inv (mkSearch ∅ [start] 0)) as Hinit.
  { split_and!; simpl; [|set_solver|right; by left|done].
    intros s ->%list_elem_of_singleton. exists [], []. constructor. }
  destruct (loop_enough search_inv search_measure (search_step ops (completed_mask ops words)))
    with (p := search_fuel) (s := mkSearch ∅ [start] 0) as [r Hr]; [|done| |].
  - intros st Hst%search_step_inv. by destruct (search_step _ _ st).
  - unfold search_measure, search_fuel, EXPANSION_BUDGET. simpl. lia.
  - exists r. split; [done|].
    opose proof (loop_inv search_inv search_answer (search_step ops (completed_mask ops words))
      _ search_fuel _ Hinit) as Hl; [|by rewrite Hr in Hl].
    intros st Hst%search_step_inv. destruct (search_step _ _ st); [|done]. by destruct Hst.
Qed.
End search.

Lemma words_enough n : (n <= 64 * ((n + 63) / 64))%nat.
Proof.
  pose proof (Nat.div_mod_eq (n + 63) 64). pose proof (Nat.mod_upper_bound (n + 63) 64). lia.
Qed.

Lemma check_key_answers ops :
  Forall stamped ops →
  match check_key ops with
  | Ok _ => linearizable ops
  | Err (NotLinearizable l) => l ≡ₚ ops ∧ ¬ linearizable ops
  | Err (TooManyOps n) => n = length ops ∧ (4096 < n)%nat
  | Err BudgetExceeded => (length ops <= 4096)%nat
  | Err _ => False
  end.
Proof.
  intros Hwf. unfold check_key. pose proof (sort_by_invoke_perm ops) as Hp.
  set (l := sort_by_invoke ops) in *. pose proof (Permutation_length Hp) as Hlen.
  destruct (Nat.eqb_spec (length l) 0) as [H0|H0].
  { apply (linearizable_perm _ _ Hp). apply nil_length_inv in H0 as ->.
    exists [], []. split_and!; [done|done|by intros ??????; rewrite lookup_nil|by eexists]. }
  destruct (Nat.ltb_spec 4096 (length l)) as [H1|H1]; [done|].
  destruct (search_run l ((length l + 63) / 64)) as (r & -> & Hr); [|done|].
  { apply words_enough. }
  destruct r as [?|[]]; try done; [by apply (linearizable_perm _ _ Hp)|lia|].
  destruct Hr as [-> Hr]. split; [done|]. intros Hl. apply Hr; [by rewrite Hp|].
  by apply (linearizable_perm ops).
Qed.

(** C11: the checker decides linearizability of one key: on records with 64-bit
    stamps it accepts exactly histories that some sequential register explains
    in real-time order, it rejects only histories that no order explains, and
    the only other answers are the size limit and the expansion budget. *)
Theorem check_key_decides ops :
  Forall stamped ops →
  match check_key ops with
  | Ok _ => linearizable ops
  | Err (NotLinearizable l) => l ≡ₚ ops ∧ ¬ linearizable ops
  | Err (TooManyOps n) => n = length ops ∧ (4096 < n)%nat
  | Err BudgetExceeded => (length ops <= 4096)%nat
  | Err _ => False
  end.
Proof. apply check_key_answers. Qed.

Definition stale_read : list POp :=
  [mkPOp 1 (Some 2) (PWrite 10) 1; mkPOp 3 (Some 4) (PWrite 20) 1;
   mkPOp 5 (Some 6) (PRead (Some 10)) 2].

Lemma check_key_decides_witness : Forall stamped stale_read ∧ ¬ linearizable stale_read.
Proof.
  assert (Forall stamped stale_read) as Hwf.
  { repeat constructor; simpl; try (vm_compute; discriminate); intros r [= <-]; lia. }
  split; [exact Hwf|]. pose proof (check_key_decides stale_read Hwf) as H.
  assert (check_key stale_read = Err (NotLinearizable stale_read)) as Hc by (vm_compute; reflexivity).
  rewrite Hc in H. exact (proj2 H).
Defined.

(** ** Verdicts on full histories *)

(** What a client's record says of the register: its answer is the one the
    register gives at value [v], and it leaves [v']. A pending operation has no
    answer to check. *)
Definition explains (r : HRecord) (v v' : option N) : Prop :=
  match hr_op r with
  | HRead _ => hr_result r = Some (ReadOk v) ∧ v' = v
  | HWrite _ val => v' = Some val
  | HCas _ expect new =>
      (hr_result r = None ∨ hr_result r = Some (CasOk (bool_decide (v = expect))))
      ∧ v' = if decide (v = expect) then Some new else v
  end.

Inductive explained : list HRecord → option N → Prop :=
| explained_nil v : explained [] v
| explained_cons r lin v v' : explains r v v' → explained lin v' → explained (r :: lin) v.

(** An operation may be left out if it never returned, or observed nothing. *)
Definition omissible (r : HRecord) : Prop :=
  hr_ret r = None ∨ (hr_result r = None ∧ ∃ k, hr_op r = HRead k).

(** A history of one key, as its clients recorded it, has a sequential
    explanation in real-time order. *)
Definition history_linearizable (rs : list HRecord) : Prop :=
  ∃ lin rest, rs ≡ₚ lin ++ rest ∧ Forall omissible rest ∧ explained lin None
    ∧ ∀ p q a b t, (p < q)%nat → lin !! p = Some a → lin !! q = Some b →
        hr_ret b = Some t → hr_invoke a ≤ t.

(** The answer a record holds fits its operation. *)
Definition well_typed (r : HRecord) : Prop :=
  match hr_op r, hr_result r with
  | HRead _, None | HRead _, Some (ReadOk _) | HWrite _ _, _
  | HCas _ _ _, None | HCas _ _ _, Some (CasOk _) => True
  | _, _ => False
  end.

Definition on_key (history : list HRecord) (key : N) : list HRecord :=
  filter (λ r, hop_key (hr_op r) = key) history.

Lemma elem_of_dedup k l : k ∈ dedup l ↔ k ∈ l.
Proof.
  induction l as [|x [|y l] IH]; [done..|]. change (dedup (x :: y :: l))
    with (if x =? y then dedup (y :: l) else x :: dedup (y :: l)).
  destruct (N.eqb_spec x y) as [->|]; rewrite ?elem_of_cons in *; rewrite IH; [|done].
  split; [auto|]. tauto.
Qed.

Definition wf_record (r : HRecord) : Prop :=
  hr_invoke r ≤ U64_MAX ∧ ∀ t, hr_ret r = Some t → hr_invoke r ≤ t.

(** The operation of a record the checker keeps. *)
Definition op_of (r : HRecord) : POp :=
  mkPOp (hr_invoke r) (hr_ret r)
    match hr_op r, hr_result r with
    | HRead _, Some (ReadOk v) => PRead v
    | HRead _, _ => PRead None
    | HWrite _ val, _ => PWrite val
    | HCas _ expect new, Some (CasOk success) => PCas expect new (Some success)
    | HCas _ expect new, _ => PCas expect new None
    end (hr_client r).

(** A read without an answer, which the checker drops. *)
Definition unread (r : HRecord) : Prop := hr_result r = None ∧ ∃ k, hr_op r = HRead k.

#[local] Instance unread_dec r : Decision (unread r).
Proof.
  unfold unread. apply and_dec; [apply _|].
  destruct (hr_op r) as [k|k v|k e v]; [left; eauto|right; by intros [? ?]..].
Defined.

Lemma prepare_spec r :
  match prepare r with
  | None => unread r
  | Some (Ok o) => well_typed r ∧ ¬ unread r ∧ o = op_of r
  | Some (Err e) => ¬ well_typed r ∧ (e = MalformedCas ∨ e = MalformedRecord)
  end.
Proof.
  unfold prepare, well_typed, unread, op_of.
  destruct (hr_op r) as [k|k v|k e v] eqn:Ho, (hr_result r) as [[]|] eqn:Hr; simpl; naive_solver.
Qed.

Lemma collect_ops_spec rs :
  match collect_ops rs with
  | Ok ops => Forall well_typed rs ∧ ops = op_of <$> filter (λ r, ¬ unread r) rs
  | Err e => (∃ r, r ∈ rs ∧ ¬ well_typed r) ∧ (e = MalformedCas ∨ e = MalformedRecord)
  end.
Proof.
  induction rs as [|r rs IH]; simpl; [done|]. pose proof (prepare_spec r) as Hp.
  destruct (prepare r) as [[o|e]|].
  - destruct Hp as (Hw & Hu & ->). destruct (collect_ops rs) as [ops|e].
    + destruct IH as [IH ->]. rewrite filter_cons_True by done. split; [by constructor|done].
    + destruct IH as [(r' & Hin & Hr') ?]. split; [|done]. exists r'. split; [by right|done].
  - destruct Hp. split; [|done]. exists r. split; [by left|done].
  - destruct Hp as [Hres [k Hk]]. destruct (collect_ops rs) as [ops|e].
    + destruct IH as [IH ->]. rewrite filter_cons_False by (intros Hn; apply Hn; by split; eauto). split; [|done].
      constructor; [|done]. unfold well_typed. by rewrite Hk, Hres.
    + destruct IH as [(r' & Hin & Hr') ?]. split; [|done]. exists r'. split; [by right|done].
Qed.

(** The register of the checker and that of the records agree. *)
Lemma explains_iff r v v' :
  well_typed r → ¬ unread r → explains r v v' ↔ try_apply (po_kind (op_of r)) v = Some v'.
Proof.
  unfold well_typed, unread, explains, op_of, try_apply.
  destruct (hr_op r) as [k|k val|k e new] eqn:Ho, (hr_result r) as [[]|] eqn:Hr;
    simpl; intros Hw Hu; try done; try (exfalso; naive_solver).
  - split; [intros [[= ->] ->]; by rewrite decide_True|].
    destruct (decide _) as [->|]; [|done]. by intros [= ->].
  - naive_solver.
  - naive_solver.
  - naive_solver.
  - naive_solver.
  - destruct (decide (v = e)); [rewrite bool_decide_true by done|rewrite bool_decide_false by done];
      destruct success; naive_solver.
  - destruct (decide (v = e)); [rewrite bool_decide_true by done|rewrite bool_decide_false by done];
      naive_solver.
Qed.

Lemma explained_iff lin v :
  Forall (λ r, well_typed r ∧ ¬ unread r) lin →
  explained lin v ↔ is_Some (run_register (op_of <$> lin) v).
Proof.
  intros Hlin. revert v. induction Hlin as [|r lin [Hw Hu] _ IH]; intros v.
  { split; [by eexists|constructor]. }
  change (op_of <$> r :: lin) with (op_of r :: (op_of <$> lin)).
  cbn [run_register]. split.
  - intros He. inversion_clear He as [|? ? ? v' Hr Hl]. apply explains_iff in Hr; [|done..].
    rewrite Hr. by apply IH.
  - intros [v2 Hv2]. apply bind_Some in Hv2 as (v' & Hr & Hl).
    econstructor; [by apply explains_iff|]. apply IH. by exists v2.
Qed.

Lemma explained_answered lin v : explained lin v → Forall (λ r, ¬ unread r) lin.
Proof.
  induction 1 as [|r lin v v' Hr _ IH]; constructor; [|done]. intros [Hres [k Hk]].
  unfold explains in Hr. rewrite Hk, Hres in Hr. by destruct Hr.
Qed.

Lemma linearizable_iff rs :
  Forall well_typed rs →
  linearizable (op_of <$> filter (λ r, ¬ unread r) rs) ↔ history_linearizable rs.
Proof.
  intros Hw. rewrite Forall_forall in Hw. split.
  - intros (lin & rest & Hp & Hrest & Hrt & Hrun). symmetry in Hp.
    apply Permutation_map_inv in Hp as (l3 & Heq & Hp3).
    symmetry in Heq. apply fmap_app_inv in Heq as (l1 & l2 & -> & -> & ->).
    assert (∀ r, r ∈ l1 ++ l2 → r ∈ rs ∧ ¬ unread r) as Hin.
    { intros r. rewrite <-Hp3, list_elem_of_filter. tauto. }
    exists l1, (l2 ++ filter unread rs). split_and!.
    + rewrite app_assoc, <-Hp3. rewrite (Permutation_app_comm (filter _ _)).
      symmetry. apply filter_app_complement.
    + apply Forall_app. split.
      * rewrite Forall_fmap in Hrest. eapply Forall_impl; [exact Hrest|]. intros r Hr. by left.
      * apply Forall_forall. intros r [[] _]%list_elem_of_filter. by right.
    + apply explained_iff; [|done]. apply Forall_forall. intros r Hr.
      destruct (Hin r) as [? ?]; [by apply elem_of_app; left|]. auto.
    + intros p q a b t Hpq Ha Hb Ht.
      apply (Hrt p q (op_of a) (op_of b) t Hpq); [by rewrite list_lookup_fmap, Ha
        |by rewrite list_lookup_fmap, Hb|done].
  - intros (lin & rest & Hp & Hrest & Hex & Hrt).
    pose proof (explained_answered _ _ Hex) as Han.
    exists (op_of <$> lin), (op_of <$> filter (λ r, ¬ unread r) rest). split_and!.
    + rewrite Hp, filter_app, fmap_app. f_equiv. rewrite filter_all; [done|].
      by apply Forall_forall.
    + apply Forall_fmap, Forall_forall. intros r [Hu Hr]%list_elem_of_filter.
      rewrite Forall_forall in Hrest. by destruct (Hrest r Hr) as [|].
    + intros p q a b t Hpq Ha Hb Ht. rewrite list_lookup_fmap in Ha, Hb.
      apply fmap_Some in Ha as (a' & Ha & ->), Hb as (b' & Hb & ->). by eapply (Hrt p q a' b').
    + apply explained_iff; [|done]. rewrite Forall_forall in Han |- *. intros r Hr.
      split; [|by apply Han]. apply Hw. rewrite Hp. apply elem_of_app. by left.
Qed.

Lemma check_key_sound ops : check_key ops = Ok tt → linearizable ops.
Proof.
  unfold check_key. pose proof (sort_by_invoke_perm ops) as Hp.
  set (l := sort_by_invoke ops) in *. intros Hc. apply (linearizable_perm _ _ Hp). revert Hc.
  destruct (Nat.eqb_spec (length l) 0) as [H0|H0].
  { intros _. apply nil_length_inv in H0 as ->.
    exists [], []. split_and!; [done|done|by intros ??????; rewrite lookup_nil|by eexists]. }
  destruct (Nat.ltb_spec 4096 (length l)) as [H1|H1]; [done|].
  destruct (search_run l ((length l + 63) / 64)) as (r & -> & Hr); [|done|].
  { apply words_enough. }
  by intros ->.
Qed.

Lemma check_keys_sound history ks key :
  check_keys history ks = Ok tt → key ∈ ks → history_linearizable (on_key history key).
Proof.
  induction ks as [|k ks IH]; simpl; [by intros _ ?%elem_of_nil|].
  pose proof (collect_ops_spec (on_key history k)) as Hops. fold (on_key history k).
  destruct (collect_ops _) as [ops|] eqn:Hco; [|done]. destruct Hops as [Hw ->].
  destruct (check_key _) as [[]|] eqn:Hk; [|done].
  intros Hks [->|Hin]%elem_of_cons; [|by apply IH].
  apply linearizable_iff; [done|]. by apply check_key_sound.
Qed.

Lemma elem_of_keys history key :
  key ∈ dedup (merge_sort N.le ((λ r, hop_key (hr_op r)) <$> history)) ↔
  ∃ r, r ∈ history ∧ hop_key (hr_op r) = key.
Proof. rewrite elem_of_dedup, merge_sort_Permutation, list_elem_of_fmap. naive_solver. Qed.

Lemma check_history_sound history r :
  check_history history = Ok tt → r ∈ history →
  history_linearizable (on_key history (hop_key (hr_op r))).
Proof. intros Hc Hr. eapply check_keys_sound; [exact Hc|]. apply elem_of_keys. eauto. Qed.

(** What a rejection of one key says. *)
Definition rejected (rs : list HRecord) (e : wgl_error) : Prop :=
  match e with
  | NotLinearizable _ => ¬ history_linearizable rs
  | MalformedCas | MalformedRecord => ∃ r, r ∈ rs ∧ ¬ well_typed r
  | TooManyOps n => (4096 < n <= length rs)%nat
  | BudgetExceeded => True
  | OutOfFuel => False
  end.

Lemma check_keys_rejects history keys key e :
  Forall wf_record history → check_keys history keys = Err (key, e) →
  key ∈ keys ∧ rejected (on_key history key) e.
Proof.
  intros Hwf. induction keys as [|k keys IH]; simpl; [done|].
  pose proof (collect_ops_spec (on_key history k)) as Hops. fold (on_key history k).
  destruct (collect_ops _) as [ops|e'] eqn:Hco.
  2: { intros [= <- <-]. split; [by left|]. destruct Hops as [? [-> | ->]]; done. }
  destruct Hops as [Hw Heq].
  assert (Forall stamped ops) as Ho.
  { subst ops. apply Forall_fmap, Forall_forall. intros r [_ Hr]%list_elem_of_filter.
    apply list_elem_of_filter in Hr as [_ Hr]. rewrite Forall_forall in Hwf. by apply Hwf. }
  pose proof (check_key_answers ops Ho) as Hc. destruct (check_key ops) as [?|e'] eqn:Hk.
  - intros He. destruct (IH He). split; [by right|done].
  - intros [= <- <-]. split; [by left|]. subst ops. destruct e'; simpl; try done.
    + destruct Hc as [-> Hc]. split; [done|]. rewrite length_fmap. apply length_filter.
    + rewrite <-linearizable_iff by done. by destruct Hc.
Qed.

(** The verdict on a full history is right, key by key: an accepted history
    has, on every key, a sequential explanation of what the clients recorded
    that respects real time; a history rejected on a key has none there, or a
    record there whose answer does not fit its operation, the size and budget
    limits apart. *)
Theorem check_history_decides history :
  Forall wf_record history →
  match check_history history with
  | Ok _ => ∀ r, r ∈ history → history_linearizable (on_key history (hop_key (hr_op r)))
  | Err (key, e) => (∃ r, r ∈ history ∧ hop_key (hr_op r) = key) ∧ rejected (on_key history key) e
  end.
Proof.
  intros Hwf. destruct (check_history history) as [[]|[key e]] eqn:Hc.
  - intros r. by apply check_history_sound.
  - apply (check_keys_rejects history _ key e Hwf) in Hc as [Hin ?].
    split; [|done]. by apply elem_of_keys.
Qed.

Definition two_keys : list HRecord :=
  [mkHRecord 1 1 (Some 4) (HWrite 1 10) (Some WriteOk);
   mkHRecord 2 2 (Some 5) (HCas 2 None 7) (Some (CasOk true));
   mkHRecord 2 3 (Some 9) (HRead 1) (Some (ReadOk None));
   mkHRecord 1 6 (Some 8) (HRead 1) (Some (ReadOk (Some 10)));
   mkHRecord 3 7 None (HRead 2) None].

Lemma check_history_decides_witness :
  Forall wf_record two_keys ∧
  ∀ r, r ∈ two_keys → history_linearizable (on_key two_keys (hop_key (hr_op r))).
Proof.
  assert (Forall wf_record two_keys) as Hwf.
  { repeat constructor; simpl; try (vm_compute; discriminate); intros r [= <-]; lia. }
  split; [exact Hwf|]. pose proof (check_history_decides two_keys Hwf) as H.
  assert (check_history two_keys = Ok tt) as Hc by (vm_compute; reflexivity).
  rewrite Hc in H. exact H.
Defined.
