(* ===== verification/SimCluster.v ===== *)
(** * The deterministic cluster simulator

    crates/sim/src/cluster.rs: a whole cluster (nodes, disks, network, clients
    and faults) on virtual time, every choice drawn from one seeded generator.
    A computation on the simulator is a function from the state to a result and
    the next state; a panic or a failed [assert!] of the code is an error value.
    Event times, sequence numbers, stamps and statistics are unbounded naturals,
    except where the code itself wraps. *)

From S2P Require Import Prelude Order Codec SimBase RaftTypes RaftLog RaftNode Kvsm Wgl.
Local Open Scope N_scope.

(** ** Configuration *)

Record SimConfig := mkSimConfig {
  sc_seed : N;
  sc_nodes : N;
  sc_clients : N;
  sc_keys : N;
  sc_run_ms : N;
  sc_quiet_ms : N;
  sc_msg_drop : prob;
  sc_msg_dup : prob;
  sc_min_delay_ms : N;
  sc_max_delay_ms : N;
  sc_partition_prob : prob;
  sc_crash_prob : prob;
  sc_snapshot_every : N;
}.


(** The [f64] literals of the fault profiles, as exact binary fractions. *)
Definition p_0 : prob := mkProb 0 0.
Definition p_002 : prob := mkProb 5764607523034235 58.
Definition p_005 : prob := mkProb 3602879701896397 56.
Definition p_010 : prob := mkProb 3602879701896397 55.
Definition p_015 : prob := mkProb 5404319552844595 55.
Definition p_020 : prob := mkProb 3602879701896397 54.
Definition p_030 : prob := mkProb 5404319552844595 54.

Definition from_seed (seed : N) : option SimConfig :=
  let r := rng_new (N.lxor seed 0xC0FFEE00D15EA5E5) in
  '(r, nodes) ← rng_pick [3; 3; 3; 5] r;
  '(r, msg_drop) ← rng_pick [p_0; p_002; p_010; p_020] r;
  '(r, msg_dup) ← rng_pick [p_0; p_005] r;
  '(r, max_delay_ms) ← rng_range 3 25 r;
  '(r, partition_prob) ← rng_pick [p_0; p_015; p_030] r;
  '(r, crash_prob) ← rng_pick [p_0; p_010; p_020] r;
  Some (mkSimConfig seed nodes 3 4 20000 8000 msg_drop msg_dup 1 max_delay_ms
          partition_prob crash_prob 60).

(** ** Events *)

Inductive CReq :=
| CWrite (seq key val : N)
| CCas (seq key : N) (expect : option N) (new : N)
| CRead (op_ts key : N).

Inductive CResp :=
| Retry (op_ref : N) (hint : option NodeId)
| WriteDone (seq : N) (result : OpResult)
| ReadDone (op_ts : N) (value : option N).

Inductive Event :=
| NodeTick (id : NodeId)
| RaftMsg (m : Message)
| ClientReq (client : nat) (node : NodeId) (req : CReq)
| ClientResp (client : nat) (resp : CResp)
| ClientWake (client : nat)
| ClientTimeout (client : nat) (invoke : N)
| FaultTick
| HealPartition
| Restart (id : NodeId).

Record QueuedEvent := mkQueued { qe_time : N; qe_seq : N; qe_ev : Event }.

(** The order of the event queue: time, then insertion. *)
Definition queued_lt (a b : QueuedEvent) : bool :=
  (qe_time a <? qe_time b) || ((qe_time a =? qe_time b) && (qe_seq a <? qe_seq b)).

(** The [BinaryHeap] of reversed events is the list of its events in the order
    in which they are popped. *)
Fixpoint heap_push (q : QueuedEvent) (heap : list QueuedEvent) : list QueuedEvent :=
  match heap with
  | [] => [q]
  | x :: heap => if queued_lt q x then q :: x :: heap else x :: heap_push q heap
  end.

(** ** Actors *)

Record SimNode := mkSimNode {
  sn_id : NodeId;
  sn_up : bool;
  sn_raft : option RaftNode;
  sn_sm : StateMachine MemBackend;
  sn_applied : Index;
  sn_applied_since_snap : N;
  sn_next_read_id : N;
  sn_pending_reads : gmap N (nat * N * N);
  sn_ready_reads : list (N * Index);
  sn_waiting_writes : gset (N * N);
  sn_disk : Persisted;
  sn_restarts : N;
}.

Definition set_sn_raft (v : option RaftNode) (x : SimNode) : SimNode :=
  mkSimNode (sn_id x) (sn_up x) v (sn_sm x) (sn_applied x) (sn_applied_since_snap x)
    (sn_next_read_id x) (sn_pending_reads x) (sn_ready_reads x) (sn_waiting_writes x) (sn_disk
    x) (sn_restarts x).
Definition set_sn_sm (v : StateMachine MemBackend) (x : SimNode) : SimNode :=
  mkSimNode (sn_id x) (sn_up x) (sn_raft x) v (sn_applied x) (sn_applied_since_snap x)
    (sn_next_read_id x) (sn_pending_reads x) (sn_ready_reads x) (sn_waiting_writes x) (sn_disk
    x) (sn_restarts x).
Definition set_sn_applied (v : Index) (x : SimNode) : SimNode :=
  mkSimNode (sn_id x) (sn_up x) (sn_raft x) (sn_sm x) v (sn_applied_since_snap x)
    (sn_next_read_id x) (sn_pending_reads x) (sn_ready_reads x) (sn_waiting_writes x) (sn_disk
    x) (sn_restarts x).
Definition set_sn_applied_since_snap (v : N) (x : SimNode) : SimNode :=
  mkSimNode (sn_id x) (sn_up x) (sn_raft x) (sn_sm x) (sn_applied x) v (sn_next_read_id x)
    (sn_pending_reads x) (sn_ready_reads x) (sn_waiting_writes x) (sn_disk x) (sn_restarts x).
Definition set_sn_next_read_id (v : N) (x : SimNode) : SimNode :=
  mkSimNode (sn_id x) (sn_up x) (sn_raft x) (sn_sm x) (sn_applied x) (sn_applied_since_snap x)
    v (sn_pending_reads x) (sn_ready_reads x) (sn_waiting_writes x) (sn_disk x) (sn_restarts
    x).
Definition set_sn_pending_reads (v : gmap N (nat * N * N)) (x : SimNode) : SimNode :=
  mkSimNode (sn_id x) (sn_up x) (sn_raft x) (sn_sm x) (sn_applied x) (sn_applied_since_snap x)
    (sn_next_read_id x) v (sn_ready_reads x) (sn_waiting_writes x) (sn_disk x) (sn_restarts x).
Definition set_sn_ready_reads (v : list (N * Index)) (x : SimNode) : SimNode :=
  mkSimNode (sn_id x) (sn_up x) (sn_raft x) (sn_sm x) (sn_applied x) (sn_applied_since_snap x)
    (sn_next_read_id x) (sn_pending_reads x) v (sn_waiting_writes x) (sn_disk x) (sn_restarts
    x).
Definition set_sn_waiting_writes (v : gset (N * N)) (x : SimNode) : SimNode :=
  mkSimNode (sn_id x) (sn_up x) (sn_raft x) (sn_sm x) (sn_applied x) (sn_applied_since_snap x)
    (sn_next_read_id x) (sn_pending_reads x) (sn_ready_reads x) v (sn_disk x) (sn_restarts x).
Definition set_sn_disk (v : Persisted) (x : SimNode) : SimNode :=
  mkSimNode (sn_id x) (sn_up x) (sn_raft x) (sn_sm x) (sn_applied x) (sn_applied_since_snap x)
    (sn_next_read_id x) (sn_pending_reads x) (sn_ready_reads x) (sn_waiting_writes x) v
    (sn_restarts x).

Inductive OpKind :=
| KRead (key : N)
| KWrite (key val seq : N)
| KCas (key : N) (expect : option N) (new seq : N).

Record CurOp := mkCurOp { co_hist_idx : nat; co_invoke : N; co_kind : OpKind }.

Record SimClient := mkSimClient {
  cl_id : N;
  cl_next_seq : N;
  cl_val_counter : N;
  cl_leader_hint : option NodeId;
  cl_last_seen : gmap N (option N);
  cl_cur : option CurOp;
}.

Definition set_cl_next_seq (v : N) (x : SimClient) : SimClient :=
  mkSimClient (cl_id x) v (cl_val_counter x) (cl_leader_hint x) (cl_last_seen x) (cl_cur x).
Definition set_cl_val_counter (v : N) (x : SimClient) : SimClient :=
  mkSimClient (cl_id x) (cl_next_seq x) v (cl_leader_hint x) (cl_last_seen x) (cl_cur x).
Definition set_cl_leader_hint (v : option NodeId) (x : SimClient) : SimClient :=
  mkSimClient (cl_id x) (cl_next_seq x) (cl_val_counter x) v (cl_last_seen x) (cl_cur x).
Definition set_cl_last_seen (v : gmap N (option N)) (x : SimClient) : SimClient :=
  mkSimClient (cl_id x) (cl_next_seq x) (cl_val_counter x) (cl_leader_hint x) v (cl_cur x).
Definition set_cl_cur (v : option CurOp) (x : SimClient) : SimClient :=
  mkSimClient (cl_id x) (cl_next_seq x) (cl_val_counter x) (cl_leader_hint x) (cl_last_seen x)
    v.

(** ** Results *)

Record Stats := mkStats {
  st_events : N;
  st_msgs_sent : N;
  st_msgs_dropped : N;
  st_msgs_duplicated : N;
  st_partitions : N;
  st_crashes : N;
  st_restarts : N;
  st_ops_completed : N;
  st_ops_pending : N;
  st_max_term : N;
  st_final_applied : N;
  st_snapshots_taken : N;
}.

Definition set_st_events (v : N) (x : Stats) : Stats :=
  mkStats v (st_msgs_sent x) (st_msgs_dropped x) (st_msgs_duplicated x) (st_partitions x)
    (st_crashes x) (st_restarts x) (st_ops_completed x) (st_ops_pending x) (st_max_term x)
    (st_final_applied x) (st_snapshots_taken x).
Definition set_st_msgs_sent (v : N) (x : Stats) : Stats :=
  mkStats (st_events x) v (st_msgs_dropped x) (st_msgs_duplicated x) (st_partitions x)
    (st_crashes x) (st_restarts x) (st_ops_completed x) (st_ops_pending x) (st_max_term x)
    (st_final_applied x) (st_snapshots_taken x).
Definition set_st_msgs_dropped (v : N) (x : Stats) : Stats :=
  mkStats (st_events x) (st_msgs_sent x) v (st_msgs_duplicated x) (st_partitions x)
    (st_crashes x) (st_restarts x) (st_ops_completed x) (st_ops_pending x) (st_max_term x)
    (st_final_applied x) (st_snapshots_taken x).
Definition set_st_msgs_duplicated (v : N) (x : Stats) : Stats :=
  mkStats (st_events x) (st_msgs_sent x) (st_msgs_dropped x) v (st_partitions x) (st_crashes
    x) (st_restarts x) (st_ops_completed x) (st_ops_pending x) (st_max_term x)
    (st_final_applied x) (st_snapshots_taken x).
Definition set_st_partitions (v : N) (x : Stats) : Stats :=
  mkStats (st_events x) (st_msgs_sent x) (st_msgs_dropped x) (st_msgs_duplicated x) v
    (st_crashes x) (st_restarts x) (st_ops_completed x) (st_ops_pending x) (st_max_term x)
    (st_final_applied x) (st_snapshots_taken x).
Definition set_st_crashes (v : N) (x : Stats) : Stats :=
  mkStats (st_events x) (st_msgs_sent x) (st_msgs_dropped x) (st_msgs_duplicated x)
    (st_partitions x) v (st_restarts x) (st_ops_completed x) (st_ops_pending x) (st_max_term
    x) (st_final_applied x) (st_snapshots_taken x).
Definition set_st_restarts (v : N) (x : Stats) : Stats :=
  mkStats (st_events x) (st_msgs_sent x) (st_msgs_dropped x) (st_msgs_duplicated x)
    (st_partitions x) (st_crashes x) v (st_ops_completed x) (st_ops_pending x) (st_max_term x)
    (st_final_applied x) (st_snapshots_taken x).
Definition set_st_ops_completed (v : N) (x : Stats) : Stats :=
  mkStats (st_events x) (st_msgs_sent x) (st_msgs_dropped x) (st_msgs_duplicated x)
    (st_partitions x) (st_crashes x) (st_restarts x) v (st_ops_pending x) (st_max_term x)
    (st_final_applied x) (st_snapshots_taken x).
Definition set_st_ops_pending (v : N) (x : Stats) : Stats :=
  mkStats (st_events x) (st_msgs_sent x) (st_msgs_dropped x) (st_msgs_duplicated x)
    (st_partitions x) (st_crashes x) (st_restarts x) (st_ops_completed x) v (st_max_term x)
    (st_final_applied x) (st_snapshots_taken x).
Definition set_st_max_term (v : N) (x : Stats) : Stats :=
  mkStats (st_events x) (st_msgs_sent x) (st_msgs_dropped x) (st_msgs_duplicated x)
    (st_partitions x) (st_crashes x) (st_restarts x) (st_ops_completed x) (st_ops_pending x) v
    (st_final_applied x) (st_snapshots_taken x).
Definition set_st_final_applied (v : N) (x : Stats) : Stats :=
  mkStats (st_events x) (st_msgs_sent x) (st_msgs_dropped x) (st_msgs_duplicated x)
    (st_partitions x) (st_crashes x) (st_restarts x) (st_ops_completed x) (st_ops_pending x)
    (st_max_term x) v (st_snapshots_taken x).
Definition set_st_snapshots_taken (v : N) (x : Stats) : Stats :=
  mkStats (st_events x) (st_msgs_sent x) (st_msgs_dropped x) (st_msgs_duplicated x)
    (st_partitions x) (st_crashes x) (st_restarts x) (st_ops_completed x) (st_ops_pending x)
    (st_max_term x) (st_final_applied x) v.

Definition default_stats : Stats := mkStats 0 0 0 0 0 0 0 0 0 0 0 0.

Record RunReport := mkReport {
  rr_stats : Stats;
  rr_history : list HRecord;
  rr_final_state : bytes;
}.

(** ** The simulator *)

Record Sim := mkSim {
  sim_cfg : SimConfig;
  sim_rng : N;
  sim_now : N;
  sim_event_seq : N;
  sim_heap : list QueuedEvent;
  sim_nodes : list SimNode;
  sim_clients : list SimClient;
  sim_blocked : gset (NodeId * NodeId);
  sim_history : list HRecord;
  sim_stamp : N;
  sim_leaders_by_term : gmap Term NodeId;
  sim_applied_global : gmap Index Entry;
  sim_stats : Stats;
  sim_fault_end : N;
  sim_stop_new_ops : N;
  sim_voters : list NodeId;
}.

Definition set_sim_rng (v : N) (x : Sim) : Sim :=
  mkSim (sim_cfg x) v (sim_now x) (sim_event_seq x) (sim_heap x) (sim_nodes x) (sim_clients x)
    (sim_blocked x) (sim_history x) (sim_stamp x) (sim_leaders_by_term x) (sim_applied_global
    x) (sim_stats x) (sim_fault_end x) (sim_stop_new_ops x) (sim_voters x).
Definition set_sim_now (v : N) (x : Sim) : Sim :=
  mkSim (sim_cfg x) (sim_rng x) v (sim_event_seq x) (sim_heap x) (sim_nodes x) (sim_clients x)
    (sim_blocked x) (sim_history x) (sim_stamp x) (sim_leaders_by_term x) (sim_applied_global
    x) (sim_stats x) (sim_fault_end x) (sim_stop_new_ops x) (sim_voters x).
Definition set_sim_event_seq (v : N) (x : Sim) : Sim :=
  mkSim (sim_cfg x) (sim_rng x) (sim_now x) v (sim_heap x) (sim_nodes x) (sim_clients x)
    (sim_blocked x) (sim_history x) (sim_stamp x) (sim_leaders_by_term x) (sim_applied_global
    x) (sim_stats x) (sim_fault_end x) (sim_stop_new_ops x) (sim_voters x).
Definition set_sim_heap (v : list QueuedEvent) (x : Sim) : Sim :=
  mkSim (sim_cfg x) (sim_rng x) (sim_now x) (sim_event_seq x) v (sim_nodes x) (sim_clients x)
    (sim_blocked x) (sim_history x) (sim_stamp x) (sim_leaders_by_term x) (sim_applied_global
    x) (sim_stats x) (sim_fault_end x) (sim_stop_new_ops x) (sim_voters x).
Definition set_sim_nodes (v : list SimNode) (x : Sim) : Sim :=
  mkSim (sim_cfg x) (sim_rng x) (sim_now x) (sim_event_seq x) (sim_heap x) v (sim_clients x)
    (sim_blocked x) (sim_history x) (sim_stamp x) (sim_leaders_by_term x) (sim_applied_global
    x) (sim_stats x) (sim_fault_end x) (sim_stop_new_ops x) (sim_voters x).
Definition set_sim_clients (v : list SimClient) (x : Sim) : Sim :=
  mkSim (sim_cfg x) (sim_rng x) (sim_now x) (sim_event_seq x) (sim_heap x) (sim_nodes x) v
    (sim_blocked x) (sim_history x) (sim_stamp x) (sim_leaders_by_term x) (sim_applied_global
    x) (sim_stats x) (sim_fault_end x) (sim_stop_new_ops x) (sim_voters x).
Definition set_sim_blocked (v : gset (NodeId * NodeId)) (x : Sim) : Sim :=
  mkSim (sim_cfg x) (sim_rng x) (sim_now x) (sim_event_seq x) (sim_heap x) (sim_nodes x)
    (sim_clients x) v (sim_history x) (sim_stamp x) (sim_leaders_by_term x)
    (sim_applied_global x) (sim_stats x) (sim_fault_end x) (sim_stop_new_ops x) (sim_voters x).
Definition set_sim_history (v : list HRecord) (x : Sim) : Sim :=
  mkSim (sim_cfg x) (sim_rng x) (sim_now x) (sim_event_seq x) (sim_heap x) (sim_nodes x)
    (sim_clients x) (sim_blocked x) v (sim_stamp x) (sim_leaders_by_term x)
    (sim_applied_global x) (sim_stats x) (sim_fault_end x) (sim_stop_new_ops x) (sim_voters x).
Definition set_sim_stamp (v : N) (x : Sim) : Sim :=
  mkSim (sim_cfg x) (sim_rng x) (sim_now x) (sim_event_seq x) (sim_heap x) (sim_nodes x)
    (sim_clients x) (sim_blocked x) (sim_history x) v (sim_leaders_by_term x)
    (sim_applied_global x) (sim_stats x) (sim_fault_end x) (sim_stop_new_ops x) (sim_voters x).
Definition set_sim_leaders_by_term (v : gmap Term NodeId) (x : Sim) : Sim :=
  mkSim (sim_cfg x) (sim_rng x) (sim_now x) (sim_event_seq x) (sim_heap x) (sim_nodes x)
    (sim_clients x) (sim_blocked x) (sim_history x) (sim_stamp x) v (sim_applied_global x)
    (sim_stats x) (sim_fault_end x) (sim_stop_new_ops x) (sim_voters x).
Definition set_sim_applied_global (v : gmap Index Entry) (x : Sim) : Sim :=
  mkSim (sim_cfg x) (sim_rng x) (sim_now x) (sim_event_seq x) (sim_heap x) (sim_nodes x)
    (sim_clients x) (sim_blocked x) (sim_history x) (sim_stamp x) (sim_leaders_by_term x) v
    (sim_stats x) (sim_fault_end x) (sim_stop_new_ops x) (sim_voters x).
Definition set_sim_stats (v : Stats) (x : Sim) : Sim :=
  mkSim (sim_cfg x) (sim_rng x) (sim_now x) (sim_event_seq x) (sim_heap x) (sim_nodes x)
    (sim_clients x) (sim_blocked x) (sim_history x) (sim_stamp x) (sim_leaders_by_term x)
    (sim_applied_global x) v (sim_fault_end x) (sim_stop_new_ops x) (sim_voters x).

(** The ways a run can fail: the safety assertions, the panics of the code it
    drives, and the checks at the end of the run. *)
Inductive SimPanic :=
| ElectionSafetyViolation (t : Term)
| StateMachineSafetyViolation (i : Index)
| LogMatchingViolation (i : Index) (t : Term)
| RaftPanic
| DecodeCommand
| DecodeSnapshot
| UnwrapNone
| IndexOutOfBounds
| ArithmeticPanic
| EventBudgetExceeded
| StillDown (id : NodeId)
| NotConverged (id : NodeId)
| Diverged (id : NodeId)
| NoLeader
| LinearizabilityViolation (key : N) (e : wgl_error)
| LoopFuel.

Definition M (A : Type) : Type := Sim → Result (A * Sim) SimPanic.

#[export] Instance M_ret : MRet M := λ A a s, Ok (a, s).
#[export] Instance M_bind : MBind M := λ A B f m s,
  match m s with Ok (a, s) => f a s | Err e => Err e end.

Definition gets {A} (f : Sim → A) : M A := λ s, Ok (f s, s).
Definition modify (f : Sim → Sim) : M unit := λ s, Ok (tt, f s).
Definition panic {A} (e : SimPanic) : M A := λ _, Err e.
Definition unwrap {A} (x : option A) : M A :=
  match x with Some a => mret a | None => panic UnwrapNone end.

Fixpoint for_each {A} (f : A → M unit) (l : list A) : M unit :=
  match l with
  | [] => mret tt
  | x :: l => f x;; for_each f l
  end.

(** *** Randomness, stamps and the event queue *)

Definition draw {A} (f : N → option (N * A)) : M A := λ s,
  match f (sim_rng s) with
  | Some (r, x) => Ok (x, set_sim_rng r s)
  | None => Err ArithmeticPanic
  end.

Definition draw_range (lo hi : N) : M N := draw (rng_range lo hi).
Definition draw_below (n : N) : M N := draw (rng_below n).
Definition draw_chance (p : prob) : M bool := draw (λ r, Some (rng_chance p r)).

Definition stamp : M N :=
  modify (λ s, set_sim_stamp (sim_stamp s + 1) s);; gets sim_stamp.

Definition push (time : N) (ev : Event) : M unit :=
  modify (λ s,
    let seq := sim_event_seq s + 1 in
    set_sim_heap (heap_push (mkQueued time seq ev) (sim_heap s)) (set_sim_event_seq seq s)).

(** [self.now + self.rng.range(lo, hi)] and a [push] at that time. *)
Definition push_after (lo hi : N) (ev : Event) : M unit :=
  d ← draw_range lo hi; now ← gets sim_now; push (now + d) ev.

Definition bump (f : Stats → Stats) : M unit :=
  modify (λ s, set_sim_stats (f (sim_stats s)) s).

(** *** Nodes and clients by index *)

(** [(id - 1) as usize]. *)
Definition node_index (id : NodeId) : M nat :=
  if id =? 0 then panic ArithmeticPanic else mret (N.to_nat (id - 1)).

Definition index {A} (l : list A) (i : nat) : M A :=
  match l !! i with Some x => mret x | None => panic IndexOutOfBounds end.

Definition get_node (i : nat) : M SimNode := ns ← gets sim_nodes; index ns i.
Definition put_node (i : nat) (n : SimNode) : M unit :=
  modify (λ s, set_sim_nodes (<[i := n]> (sim_nodes s)) s).
Definition get_client (c : nat) : M SimClient := cs ← gets sim_clients; index cs c.
Definition put_client (c : nat) (cl : SimClient) : M unit :=
  modify (λ s, set_sim_clients (<[c := cl]> (sim_clients s)) s).

(** *** Set-up *)

(** [None]: a subtraction overflows. *)
Definition sim_new (cfg : SimConfig) : option Sim :=
  if (sc_run_ms cfg <? sc_quiet_ms cfg) || (sc_run_ms cfg <? 3000) then None
  else Some (mkSim cfg (rng_new (sc_seed cfg)) 0 0 [] [] [] ∅ [] 0 ∅ ∅ default_stats
         (sc_run_ms cfg - sc_quiet_ms cfg) (sc_run_ms cfg - 3000)
         (range_incl 1 (sc_nodes cfg))).

Definition node_cfg (cfg : SimConfig) (id : NodeId) (restarts : N) : Config :=
  config_new id
    (wrapping_add 64 (wrapping_mul 64 (sc_seed cfg) 0x9E3779B97F4A7C15)
       (id * 1000003 + restarts * 7)).

Definition new_sm : StateMachine MemBackend := sm_new (mkMem ∅).

Definition boot_node (id : NodeId) : M unit :=
  cfg ← gets sim_cfg; vs ← gets sim_voters;
  let raft := node_new (node_cfg cfg id 0) vs default_persisted in
  modify (λ s, set_sim_nodes (sim_nodes s ++
    [mkSimNode id true (Some raft) new_sm 0 0 1 ∅ [] ∅ default_persisted 0]) s);;
  first_tick ← draw_range 1 12;
  push first_tick (NodeTick id).

Definition boot_client (c : N) : M unit :=
  modify (λ s, set_sim_clients (sim_clients s ++
    [mkSimClient (100 + c + 1) 0 0 None ∅ None]) s);;
  wake ← draw_range 50 300;
  push wake (ClientWake (N.to_nat c)).

Definition boot : M unit :=
  cfg ← gets sim_cfg;
  for_each boot_node (range_incl 1 (sc_nodes cfg));;
  for_each boot_client (range 0 (sc_clients cfg));;
  ft ← draw_range 300 800;
  push ft FaultTick.

(** *** The host side of a node *)

(** Truncate-from-then-append: entries at or above the new index go first. *)
Definition disk_append (es : list Entry) (e : Entry) : list Entry :=
  take_while (λ x, e_index x < e_index e) es ++ [e].

(** What the durable part of an output leaves on the disk. *)
Definition store_output (out : Output) (d : Persisted) : Persisted :=
  let '(es, snap) :=
    match o_snapshot out with
    | Some s => ([], Some s)
    | None => (p_entries d, p_snapshot d)
    end in
  mkPersisted (default (p_hard_state d) (o_hard_state out))
    (foldl disk_append es (o_append out)) snap.

Section codec.
  Context `{Bincode Command} `{Bincode SnapshotPayload}.

(** Step (1): durable state first, with the state machine of an installed
    snapshot. *)
Definition persist_output (out : Output) (n : SimNode) : M SimNode :=
  let n := set_sn_disk (store_output out (sn_disk n)) n in
  match o_snapshot out with
  | None => mret n
  | Some s =>
    match sm_restore (s_data s) (sn_sm n) with
    | None => panic DecodeSnapshot
    | Some sm =>
      mret (set_sn_sm sm (set_sn_applied (s_last_index s) (set_sn_applied_since_snap 0 n)))
    end
  end.

(** The assertion of state-machine safety. *)
Definition check_applied (e : Entry) : M unit :=
  seen ← gets (λ s, sim_applied_global s !! e_index e);
  match seen with
  | Some prev =>
    if decide (prev = e) then mret tt else panic (StateMachineSafetyViolation (e_index e))
  | None =>
    modify (λ s, set_sim_applied_global (<[e_index e := e]> (sim_applied_global s)) s)
  end.

(** One command applied, and the response this node owes for it, if any. *)
Definition apply_command (cmd : Command) (n : SimNode) : M (SimNode * list (nat * CResp)) :=
  let '(sm, result) := apply cmd (sn_sm n) in
  let n := set_sn_sm sm n in
  let key := (cmd_session_id cmd, cmd_seq cmd) in
  if negb (cmd_session_id cmd =? 0) && bool_decide (key ∈ sn_waiting_writes n) then
    if cmd_session_id cmd <? 101 then panic ArithmeticPanic
    else mret (set_sn_waiting_writes (sn_waiting_writes n ∖ {[key]}) n,
               [(N.to_nat (cmd_session_id cmd - 101), WriteDone (cmd_seq cmd) result)])
  else mret (n, []).

Definition apply_entry (i : nat) (e : Entry) : M (list (nat * CResp)) :=
  check_applied e;;
  n ← get_node i;
  '(n, resps) ← match e_payload e with
                | Normal data =>
                  match cmd_decode data with
                  | None => panic DecodeCommand
                  | Some cmd => apply_command cmd n
                  end
                | _ => mret (n, [])
                end;
  put_node i (set_sn_applied (e_index e)
    (set_sn_applied_since_snap (sn_applied_since_snap n + 1) n));;
  mret resps.

(** Step (2). *)
Fixpoint apply_committed (i : nat) (es : list Entry) : M (list (nat * CResp)) :=
  match es with
  | [] => mret []
  | e :: es =>
    r1 ← apply_entry i e;
    r2 ← apply_committed i es;
    mret (r1 ++ r2)
  end.

(** The disk after a compaction: the snapshot, and the entries above it. *)
Definition store_snapshot (s : Snapshot) (d : Persisted) : Persisted :=
  mkPersisted (p_hard_state d) (filter (λ e, s_last_index s < e_index e) (p_entries d)) (Some s).

Definition compact_log (i : nat) : M unit :=
  n ← get_node i;
  cfg ← gets sim_cfg;
  if sc_snapshot_every cfg <=? sn_applied_since_snap n then
    let data := sm_snapshot (sn_sm n) in
    r ← unwrap (sn_raft n);
    let '(r, snap) := node_compact (sn_applied n) data r in
    let n := set_sn_applied_since_snap 0 (set_sn_raft (Some r) n) in
    match snap with
    | Some s =>
      put_node i (set_sn_disk (store_snapshot s (sn_disk n)) n);;
      bump (λ st, set_st_snapshots_taken (st_snapshots_taken st + 1) st)
    | None => put_node i n
    end
  else mret tt.

(** One completed ReadIndex round: answered if its index is applied, kept
    otherwise. *)
Definition serve_read (acc : SimNode * list (N * Index) * list (nat * CResp)) (r : N * Index)
    : SimNode * list (N * Index) * list (nat * CResp) :=
  let '(n, still_waiting, resps) := acc in
  if r.2 <=? sn_applied n then
    match sn_pending_reads n !! r.1 with
    | Some (client, op_ts, key) =>
      let value := decode_val <$> sm_read [byte_of key] (sn_sm n) in
      (set_sn_pending_reads (delete r.1 (sn_pending_reads n)) n, still_waiting,
       resps ++ [(client, ReadDone op_ts value)])
    | None => (n, still_waiting, resps)
    end
  else (n, still_waiting ++ [r], resps).

(** Step (3). *)
Definition serve_reads (i : nat) (read_states : list (N * Index)) : M (list (nat * CResp)) :=
  n ← get_node i;
  let '(n, still_waiting, resps) :=
    foldl serve_read (n, [], []) (sn_ready_reads n ++ read_states) in
  put_node i (set_sn_ready_reads still_waiting n);;
  mret resps.

Definition send_client_resp (client : nat) (resp : CResp) : M unit :=
  cfg ← gets sim_cfg;
  dropped ← draw_chance (halve (sc_msg_drop cfg));
  if (dropped : bool) then mret tt else push_after 1 5 (ClientResp client resp).

(** Step (4), with the loss and duplication of the network. *)
Definition send_raft_msg (m : Message) : M unit :=
  bump (λ st, set_st_msgs_sent (st_msgs_sent st + 1) st);;
  cfg ← gets sim_cfg;
  dropped ← draw_chance (sc_msg_drop cfg);
  if (dropped : bool) then bump (λ st, set_st_msgs_dropped (st_msgs_dropped st + 1) st)
  else
    dup ← draw_chance (sc_msg_dup cfg);
    (if (dup : bool) then bump (λ st, set_st_msgs_duplicated (st_msgs_duplicated st + 1) st)
     else mret tt);;
    for_each (λ _ : nat, push_after (sc_min_delay_ms cfg) (sc_max_delay_ms cfg) (RaftMsg m))
      (seq 0 (if (dup : bool) then 2 else 1)).

(** The assertion of election safety. *)
Definition check_election (i : nat) : M unit :=
  n ← get_node i;
  r ← unwrap (sn_raft n);
  bump (λ st, set_st_max_term (N.max (st_max_term st) (node_term r)) st);;
  if is_leader r then
    other ← gets (λ s, sim_leaders_by_term s !! node_term r);
    match other with
    | Some other =>
      if other =? node_id r then mret tt else panic (ElectionSafetyViolation (node_term r))
    | None =>
      modify (λ s,
        set_sim_leaders_by_term (<[node_term r := node_id r]> (sim_leaders_by_term s)) s)
    end
  else mret tt.

Definition process_output (i : nat) : M unit :=
  n ← get_node i;
  r ← unwrap (sn_raft n);
  let '(r, out) := take_output r in
  n ← persist_output out (set_sn_raft (Some r) n);
  put_node i n;;
  writes ← apply_committed i (o_committed out);
  compact_log i;;
  reads ← serve_reads i (o_read_states out);
  for_each (λ cr : nat * CResp, send_client_resp cr.1 cr.2) (writes ++ reads);;
  for_each send_raft_msg (o_messages out);;
  check_election i.

(** *** Ticks and messages *)

Definition on_node_tick (id : NodeId) : M unit :=
  i ← node_index id;
  n ← get_node i;
  (if sn_up n then
     r ← unwrap (sn_raft n);
     put_node i (set_sn_raft (Some (tick r)) n);;
     process_output i
   else mret tt);;
  push_after 8 12 (NodeTick id).

Definition on_raft_msg (m : Message) : M unit :=
  blocked ← gets sim_blocked;
  let drop := bump (λ st, set_st_msgs_dropped (st_msgs_dropped st + 1) st) in
  if decide ((m_from m, m_to m) ∈ blocked) then drop
  else
    i ← node_index (m_to m);
    n ← get_node i;
    if negb (sn_up n) then drop
    else
      r ← unwrap (sn_raft n);
      match step m r with
      | None => panic RaftPanic
      | Some r => put_node i (set_sn_raft (Some r) n);; process_output i
      end.

(** *** Clients *)

Definition request_of (invoke : N) (k : OpKind) : CReq :=
  match k with
  | KRead key => CRead invoke key
  | KWrite key val seq => CWrite seq key val
  | KCas key expect new seq => CCas seq key expect new
  end.

Definition random_node : M NodeId := cfg ← gets sim_cfg; draw_range 1 (sc_nodes cfg).

Definition send_request (c : nat) (target : option NodeId) : M unit :=
  cl ← get_client c;
  match cl_cur cl with
  | None => mret tt
  | Some cur =>
    let req := request_of (co_invoke cur) (co_kind cur) in
    node ← match target with
           | Some node => mret node
           | None => match cl_leader_hint cl with
                     | Some node => mret node
                     | None => random_node
                     end
           end;
    cfg ← gets sim_cfg;
    dropped ← draw_chance (halve (sc_msg_drop cfg));
    (if (dropped : bool) then mret tt else push_after 1 5 (ClientReq c node req));;
    push_after 150 300 (ClientTimeout c (co_invoke cur))
  end.

(** The next operation of a client, and the client that has issued it. *)
Definition choose_op (key roll : N) (cl : SimClient) : SimClient * OpKind :=
  if roll <? 4 then (cl, KRead key)
  else
    let cl := set_cl_val_counter (cl_val_counter cl + 1)
                (set_cl_next_seq (cl_next_seq cl + 1) cl) in
    let val := N.lor ((cl_id cl) <<w 40)%u64 (cl_val_counter cl) in
    if roll <? 8 then (cl, KWrite key val (cl_next_seq cl))
    else (cl, KCas key (default None (cl_last_seen cl !! key)) val (cl_next_seq cl)).

Definition history_op (k : OpKind) : HOp :=
  match k with
  | KRead key => HRead key
  | KWrite key val _ => HWrite key val
  | KCas key expect new _ => HCas key expect new
  end.

Definition on_client_wake (c : nat) : M unit :=
  cl ← get_client c;
  now ← gets sim_now;
  stop ← gets sim_stop_new_ops;
  if bool_decide (is_Some (cl_cur cl)) || (stop <=? now) then mret tt
  else
    cfg ← gets sim_cfg;
    key ← draw_below (sc_keys cfg);
    roll ← draw_below 10;
    let '(cl, kind) := choose_op (key mod 256) roll cl in
    invoke ← stamp;
    hist_idx ← gets (λ s, length (sim_history s));
    modify (λ s, set_sim_history
      (sim_history s ++ [mkHRecord (cl_id cl) invoke None (history_op kind) None]) s);;
    put_client c (set_cl_cur (Some (mkCurOp hist_idx invoke kind)) cl);;
    send_request c None.

Definition on_client_timeout (c : nat) (invoke : N) : M unit :=
  cl ← get_client c;
  match cl_cur cl with
  | Some cur =>
    if co_invoke cur =? invoke then
      put_client c (set_cl_leader_hint None cl);;
      node ← random_node;
      send_request c (Some node)
    else mret tt
  | None => mret tt
  end.

Definition try_propose (i : nat) (session seq : N) (cmd : Command) : M (option CResp) :=
  n ← get_node i;
  r ← unwrap (sn_raft n);
  let '(r, res) := propose (cmd_encode cmd) r in
  let n := set_sn_raft (Some r) n in
  match res with
  | Ok _ =>
    put_node i (set_sn_waiting_writes (sn_waiting_writes n ∪ {[(session, seq)]}) n);;
    process_output i;;
    mret None
  | Err (NotLeader hint) => put_node i n;; mret (Some (Retry seq hint))
  | Err _ => put_node i n;; mret (Some (Retry seq (Some (sn_id n))))
  end.

Definition try_read (i : nat) (node : NodeId) (c : nat) (op_ts key : N) : M (option CResp) :=
  n ← get_node i;
  let rid := sn_next_read_id n in
  r ← unwrap (sn_raft n);
  let '(r, res) := read_index rid r in
  let n := set_sn_raft (Some r) (set_sn_next_read_id (rid + 1) n) in
  match res with
  | Ok _ =>
    put_node i (set_sn_pending_reads (<[rid := (c, op_ts, key)]> (sn_pending_reads n)) n);;
    process_output i;;
    mret None
  | Err (NotLeader hint) => put_node i n;; mret (Some (Retry op_ts hint))
  | Err _ => put_node i n;; mret (Some (Retry op_ts (Some node)))
  end.

Definition on_client_req (c : nat) (node : NodeId) (req : CReq) : M unit :=
  i ← node_index node;
  n ← get_node i;
  if negb (sn_up n) then mret tt
  else
    cl ← get_client c;
    let session := cl_id cl in
    resp ← match req with
           | CWrite seq key val =>
             try_propose i session seq
               (mkCmd session seq (Put [byte_of key] (encode_val val)))
           | CCas seq key expect new =>
             try_propose i session seq
               (mkCmd session seq
                  (Cas [byte_of key] (encode_val <$> expect) (Some (encode_val new))))
           | CRead op_ts key => try_read i node c op_ts key
           end;
    match resp with
    | Some resp => send_client_resp c resp
    | None => mret tt
    end.

Definition complete_op (c : nat) (res : HRes) : M unit :=
  ret ← stamp;
  cl ← get_client c;
  cur ← unwrap (cl_cur cl);
  put_client c (set_cl_cur None cl);;
  h ← gets sim_history;
  rec ← index h (co_hist_idx cur);
  modify (set_sim_history (<[co_hist_idx cur :=
    mkHRecord (hr_client rec) (hr_invoke rec) (Some ret) (hr_op rec) (Some res)]> h));;
  bump (λ st, set_st_ops_completed (st_ops_completed st + 1) st);;
  push_after 5 30 (ClientWake c).

Definition note_seen (c : nat) (key : N) (v : option N) : M unit :=
  cl ← get_client c;
  put_client c (set_cl_last_seen (<[key := v]> (cl_last_seen cl)) cl).

(** The response a write or CAS accepts, and the value the client then knows. *)
Definition accept_write (k : OpKind) (seq : N) (result : OpResult)
    : option (HRes * (N * option N)) :=
  match k with
  | KWrite key val s => if s =? seq then Some (WriteOk, (key, Some val)) else None
  | KCas key _ new s =>
    if s =? seq then
      match result with
      | RCas success actual =>
        Some (CasOk success, (key, if success then Some new else decode_val <$> actual))
      | _ => None
      end
    else None
  | KRead _ => None
  end.

Definition refers_to (op_ref : N) (cur : CurOp) : bool :=
  match co_kind cur with
  | KRead _ => op_ref =? co_invoke cur
  | KWrite _ _ seq | KCas _ _ _ seq => op_ref =? seq
  end.

Definition on_client_resp (c : nat) (resp : CResp) : M unit :=
  cl ← get_client c;
  match cl_cur cl with
  | None => mret tt
  | Some cur =>
    match resp with
    | Retry op_ref hint =>
      if refers_to op_ref cur then
        put_client c (set_cl_leader_hint hint cl);;
        node ← match hint with Some node => mret node | None => random_node end;
        push_after 10 40 (ClientReq c node (request_of (co_invoke cur) (co_kind cur)))
      else mret tt
    | WriteDone seq result =>
      match accept_write (co_kind cur) seq result with
      | Some (res, (key, v)) => complete_op c res;; note_seen c key v
      | None => mret tt
      end
    | ReadDone op_ts value =>
      match co_kind cur with
      | KRead key =>
        if op_ts =? co_invoke cur then complete_op c (ReadOk value);; note_seen c key value
        else mret tt
      | _ => mret tt
      end
    end
  end.

(** *** Faults *)

(** The Fisher-Yates loop, from the last position down. *)
Fixpoint shuffle (i : nat) (ids : list NodeId) : M (list NodeId) :=
  match i with
  | O => mret ids
  | S i' =>
    j ← draw_below (N.of_nat (i + 1));
    x ← index ids i;
    y ← index ids (N.to_nat j);
    shuffle i' (<[N.to_nat j := x]> (<[i := y]> ids))
  end.

Definition start_partition : M unit :=
  bump (λ st, set_st_partitions (st_partitions st + 1) st);;
  cfg ← gets sim_cfg;
  let ids := range_incl 1 (sc_nodes cfg) in
  ids ← shuffle (length ids - 1) ids;
  (if sc_nodes cfg =? 0 then panic ArithmeticPanic else mret tt);;
  cut ← draw_range 1 (sc_nodes cfg - 1);
  let a := take (N.to_nat cut) ids in
  let b := drop (N.to_nat cut) ids in
  asymmetric ← draw_chance p_030;
  let pairs := x ← a; y ← b; if (asymmetric : bool) then [(x, y)] else [(x, y); (y, x)] in
  modify (λ s, set_sim_blocked (sim_blocked s ∪ list_to_set pairs) s);;
  push_after 500 3000 HealPartition.

Definition crash (id : NodeId) : M unit :=
  i ← node_index id;
  n ← get_node i;
  if negb (sn_up n) then mret tt
  else
    bump (λ st, set_st_crashes (st_crashes st + 1) st);;
    put_node i (mkSimNode (sn_id n) false None new_sm 0 0 (sn_next_read_id n) ∅ [] ∅
                  (sn_disk n) (sn_restarts n));;
    push_after 300 4000 (Restart id).

Definition on_fault_tick : M unit :=
  now ← gets sim_now;
  fault_end ← gets sim_fault_end;
  cfg ← gets sim_cfg;
  if fault_end <=? now then
    modify (set_sim_blocked ∅);;
    for_each (λ id,
      i ← node_index id;
      n ← get_node i;
      if sn_up n then mret tt else push_after 10 50 (Restart id)) (range_incl 1 (sc_nodes cfg))
  else
    partition ← draw_chance (sc_partition_prob cfg);
    (if (partition : bool) then start_partition else mret tt);;
    crashed ← draw_chance (sc_crash_prob cfg);
    (if (crashed : bool) then id ← random_node; crash id else mret tt);;
    push_after 300 800 FaultTick.

Definition on_restart (id : NodeId) : M unit :=
  i ← node_index id;
  n ← get_node i;
  if sn_up n then mret tt
  else
    bump (λ st, set_st_restarts (st_restarts st + 1) st);;
    cfg ← gets sim_cfg; vs ← gets sim_voters;
    let restarts := sn_restarts n + 1 in
    let raft := node_new (node_cfg cfg id restarts) vs (sn_disk n) in
    '(sm, applied) ←
      match p_snapshot (sn_disk n) with
      | Some s =>
        match sm_restore (s_data s) (sn_sm n) with
        | Some sm => mret (sm, s_last_index s)
        | None => panic DecodeSnapshot
        end
      | None => mret (sn_sm n, sn_applied n)
      end;
    put_node i (mkSimNode (sn_id n) true (Some raft) sm applied (sn_applied_since_snap n)
      (sn_next_read_id n) (sn_pending_reads n) (sn_ready_reads n) (sn_waiting_writes n)
      (sn_disk n) restarts);;
    process_output i.

(** *** Checks *)

Definition check_entry (seen : gmap (Index * Term) Entry) (idx : Index) (e : Entry)
    : Result (gmap (Index * Term) Entry) SimPanic :=
  match seen !! (idx, e_term e) with
  | Some prev => if decide (prev = e) then Ok seen else Err (LogMatchingViolation idx (e_term e))
  | None => Ok (<[(idx, e_term e) := e]> seen)
  end.

Fixpoint check_log (l : RaftLog) (seen : gmap (Index * Term) Entry) (idxs : list Index)
    : Result (gmap (Index * Term) Entry) SimPanic :=
  match idxs with
  | [] => Ok seen
  | idx :: idxs =>
    match RL.get l idx with
    | None => check_log l seen idxs
    | Some e =>
      match check_entry seen idx e with
      | Ok seen => check_log l seen idxs
      | Err p => Err p
      end
    end
  end.

Fixpoint check_logs (seen : gmap (Index * Term) Entry) (nodes : list SimNode)
    : Result unit SimPanic :=
  match nodes with
  | [] => Ok tt
  | n :: nodes =>
    match sn_raft n with
    | Some r =>
      if sn_up n then
        let l := n_log r in
        match check_log l seen (range_incl (RL.first_index l) (RL.last_index l)) with
        | Ok seen => check_logs seen nodes
        | Err p => Err p
        end
      else check_logs seen nodes
    | None => check_logs seen nodes
    end
  end.

Definition check_log_matching : M unit := λ s,
  match check_logs ∅ (sim_nodes s) with Ok _ => Ok (tt, s) | Err p => Err p end.

(** *** The event loop *)

Definition dispatch_event (draining : bool) (ev : Event) : M unit :=
  match ev with
  | NodeTick id => on_node_tick id
  | RaftMsg m => on_raft_msg m
  | Restart id => on_restart id
  | HealPartition => modify (set_sim_blocked ∅)
  | FaultTick => if draining then mret tt else on_fault_tick
  | ClientReq c node req => if draining then mret tt else on_client_req c node req
  | ClientResp c resp => if draining then mret tt else on_client_resp c resp
  | ClientWake c => if draining then mret tt else on_client_wake c
  | ClientTimeout c invoke => if draining then mret tt else on_client_timeout c invoke
  end.

Definition EVENT_BUDGET : N := 3000000.

Definition handle_event (qe : QueuedEvent) : M unit :=
  modify (set_sim_now (qe_time qe));;
  bump (λ st, set_st_events (st_events st + 1) st);;
  events ← gets (λ s, st_events (sim_stats s));
  (if events <? EVENT_BUDGET then mret tt else panic EventBudgetExceeded);;
  cfg ← gets sim_cfg;
  dispatch_event (sc_run_ms cfg <? qe_time qe) (qe_ev qe);;
  events ← gets (λ s, st_events (sim_stats s));
  if events mod 2000 =? 0 then check_log_matching else mret tt.

(** One iteration of the loop: [inr] when it is left. *)
Definition event_step (s : Sim) : Sim + Result Sim SimPanic :=
  match sim_heap s with
  | [] => inr (Ok s)
  | qe :: heap =>
    let s := set_sim_heap heap s in
    if sc_run_ms (sim_cfg s) + 2000 <? qe_time qe then inr (Ok s)
    else
      match handle_event qe s with
      | Ok (_, s) => inl s
      | Err p => inr (Err p)
      end
  end.

Definition loop_fuel : positive := 3000001.

Definition event_loop : M unit := λ s,
  match loop loop_fuel event_step s with
  | inr (Ok s) => Ok (tt, s)
  | inr (Err p) => Err p
  | inl _ => Err LoopFuel
  end.

(** *** The end of a run *)

Definition require {A} (b : bool) (p : SimPanic) (k : M A) : M A := if b then k else panic p.

Fixpoint any_leader (nodes : list SimNode) : M bool :=
  match nodes with
  | [] => mret false
  | n :: nodes => r ← unwrap (sn_raft n); if is_leader r then mret true else any_leader nodes
  end.

Definition finalize : M RunReport :=
  check_log_matching;;
  nodes ← gets sim_nodes;
  for_each (λ n, require (sn_up n) (StillDown (sn_id n)) (mret tt)) nodes;;
  max_applied ← match nodes with
                | [] => panic UnwrapNone
                | n :: ns => mret (foldl N.max (sn_applied n) (sn_applied <$> ns))
                end;
  for_each (λ n, require (sn_applied n =? max_applied) (NotConverged (sn_id n)) (mret tt)) nodes;;
  n0 ← index nodes 0;
  let reference := sm_snapshot (sn_sm n0) in
  for_each (λ n, require (bool_decide (sm_snapshot (sn_sm n) = reference))
                   (Diverged (sn_id n)) (mret tt)) (tail nodes);;
  leader ← any_leader nodes;
  require leader NoLeader
    (h ← gets sim_history;
     match check_history h with
     | Err (key, e) => panic (LinearizabilityViolation key e)
     | Ok _ =>
       let pending := length (filter (λ r, hr_ret r = None) h) in
       bump (λ st, set_st_final_applied max_applied
                     (set_st_ops_pending (N.of_nat pending) st));;
       st ← gets sim_stats;
       mret (mkReport st h reference)
     end).

Definition run (cfg : SimConfig) : Result RunReport SimPanic :=
  match sim_new cfg with
  | None => Err ArithmeticPanic
  | Some s =>
    match (boot;; event_loop;; finalize) s with
    | Ok (report, _) => Ok report
    | Err p => Err p
    end
  end.
End codec.
