(* ===== verification/Durability.v ===== *)
(** * The durability contract

    The contract of [Output] in crates/raft/src/types.rs: a host that writes the
    durable part of a batch before it sends the batch's messages has on disk
    exactly the durable state of the node. [store_output] is what the simulated
    host writes (step (1) of [process_output] in crates/sim/src/cluster.rs). *)

From S2P Require Import Prelude Order Codec RaftTypes RaftLog RaftLogFacts RaftNode.
From S2P Require Import RaftNodeFacts RaftNodeInv Kvsm SimCluster.
Local Open Scope N_scope.

(** What a crash must not lose. *)
Definition disk_of (n : RaftNode) : Persisted :=
  mkPersisted (n_hs n) (entries (n_log n)) (n_snapshot n).

(** ** Entries on disk *)

Lemma take_while_below i es j :
  consecutive i es → take_while (λ x, e_index x < j) es = take (N.to_nat (j - i)) es.
Proof.
  revert i. induction es as [|e es IH]; intros i Hes; [by rewrite take_nil|].
  apply consecutive_cons in Hes as [He Hes]. simpl. rewrite He.
  destruct (decide (i < j)) as [Hlt|Hge].
  - rewrite (IH (i + 1)) by done. by replace (N.to_nat (j - i)) with (S (N.to_nat (j - (i + 1)))) by lia.
  - by replace (N.to_nat (j - i)) with 0%nat by lia.
Qed.

(** Appending consecutive entries truncates at the first and keeps the rest. *)
Lemma disk_append_all i es j new :
  consecutive i es → consecutive j new → i ≤ j → j ≤ i + N.of_nat (length es) →
  foldl disk_append es new = match new with [] => es | _ => take (N.to_nat (j - i)) es ++ new end.
Proof.
  revert es j. induction new as [|e new IH]; intros es j Hes Hnew Hij Hj; [done|].
  apply consecutive_cons in Hnew as [He Hnew]. simpl. unfold disk_append at 2.
  rewrite (take_while_below i) by done. rewrite He.
  assert (length (take (N.to_nat (j - i)) es) = N.to_nat (j - i)) as Hlen
    by (rewrite length_take; lia).
  rewrite (IH _ (j + 1)); [|  |done|lia|rewrite length_app, Hlen; simpl; lia].
  - destruct new; [done|]. rewrite take_ge by (rewrite length_app, Hlen; simpl; lia).
    by rewrite <-app_assoc.
  - apply consecutive_app; [by apply consecutive_take|]. rewrite Hlen.
    apply consecutive_cons. split; [lia|]. by intros k e' Hk.
Qed.

(** ** One operation *)

(** Entries that continue or replace the end of the log. *)
Definition continues (es new : list Entry) : Prop :=
  ∃ i j, consecutive i es ∧ consecutive j new ∧ i ≤ j ≤ i + N.of_nat (length es).

(** What an operation adds to the output says how the log and the snapshot
    changed: entries that were appended, or a snapshot that replaced the log. *)
Definition stored (n n' : RaftNode) : Prop :=
  (∃ es, o_append (n_out n') = o_append (n_out n) ++ es ∧ o_snapshot (n_out n') = o_snapshot (n_out n)
     ∧ n_snapshot n' = n_snapshot n
     ∧ foldl disk_append (entries (n_log n)) es = entries (n_log n') ∧ continues (entries (n_log n)) es)
  ∨ (∃ s, o_snapshot (n_out n') = Some s ∧ n_snapshot n' = Some s
     ∧ o_append (n_out n') = o_append (n_out n) ∧ entries (n_log n') = []).

Lemma eff_stored es n n' : RL.contiguous (n_log n) → eff es n n' → stored n n'.
Proof.
  intros Hc Heff. left. exists es. destruct (eff_snapshot _ _ _ Heff) as (Hsn & _ & Hos).
  pose proof (eff_consecutive _ _ _ Heff) as Hes. unfold RL.last_index in Hes.
  pose proof (proj1 (contiguous_consecutive _) Hc) as Hlog.
  split_and!; [apply Heff|done|done| |by eexists _, _; split_and!; [exact Hlog|exact Hes|lia|lia]].
  rewrite (eff_log _ _ _ Heff), foldl_push. simpl.
  rewrite (disk_append_all (snap_index (n_log n) + 1) _
    (snap_index (n_log n) + N.of_nat (length (entries (n_log n))) + 1)) by (done || lia).
  destruct es; [by rewrite app_nil_r|]. by rewrite take_ge by lia.
Qed.

Lemma prelim_stored n n1 n' : prelim n n1 → stored n1 n' → stored n n'.
Proof.
  intros [_ Hl _ Hsn Ho _ _].
  apply (f_equal o_append) in Ho as Ho1. apply (f_equal o_snapshot) in Ho as Ho2. simpl in *.
  unfold stored. by rewrite Ho1, Ho2, Hl, Hsn.
Qed.

Lemma installed_stored from i t es l' ta lc ctx n :
  node_ok n → consecutive (i + 1) es →
  RL.term (n_log n) i = Some t → find_new (n_log n) (n_commit n) es = Some (l', ta) →
  stored n (reply_append from true (i + N.of_nat (length es)) 0 ctx
    (installed l' ta (N.max (n_commit n) (N.min lc (i + N.of_nat (length es)))) n)).
Proof.
  intros [Hc _ _] Hes Ht Hfn. apply term_bounds in Ht as Hb. left. exists ta. simpl.
  pose proof (proj1 (contiguous_consecutive _) Hc) as Hlog.
  destruct (find_new_spec _ _ (i + 1) _ _ _ Hc Hes ltac:(lia) ltac:(lia) Hfn)
    as (k & Hk & -> & _ & [[-> ->]|(Hk' & Hle & _ & ->)]).
  - rewrite drop_all. split_and!; [done|done|done|by rewrite foldl_push, app_nil_r|].
    exists (snap_index (n_log n) + 1), (snap_index (n_log n) + 1). split_and!; [done|by intros ? ? ?|lia|lia].
  - unfold RL.last_index in Hle. rewrite foldl_push. simpl. split_and!; [done|done|done| |]; cycle 1.
    { exists (snap_index (n_log n) + 1), (i + 1 + N.of_nat k). split_and!; [done|by apply consecutive_drop|lia|lia]. }
    rewrite (disk_append_all (snap_index (n_log n) + 1) _ (i + 1 + N.of_nat k));
      [|by apply contiguous_consecutive|by apply consecutive_drop|lia|lia].
    destruct (lookup_lt_is_Some_2 es k Hk') as [e He]. rewrite (drop_S _ _ _ He).
    do 2 f_equal. unfold RL.pos. lia.
Qed.

Lemma dispatch_stored m n n' :
  node_ok n → wf_msg m → dispatch m n = Some n' → stored n n'.
Proof.
  intros Hok Hwf. pose proof Hok as [Hc _ _].
  assert (∀ es n', eff es n n' → stored n n') as Heff by (intros; by eapply eff_stored).
  unfold dispatch. unfold wf_msg in Hwf. destruct (m_body m).
  - intros [= <-]. eapply Heff. apply (push_msgs_eff [_]). constructor; [|done]. by split.
  - intros [= <-]. edestruct handle_pre_vote_resp_eff. by eapply Heff.
  - intros [= <-]. eapply Heff, handle_request_vote_eff.
  - intros [= <-]. edestruct handle_request_vote_resp_eff. by eapply Heff.
  - intros Hh. apply handle_append_entries_cases in Hh. simpl in Hh.
    destruct (rebase _ _ _ _) as [[i t] es'] eqn:Hrb.
    pose proof (rebase_wf _ _ _ _ _ _ _ Hrb Hwf) as Hes'.
    pose proof (heard_from_prelim (m_from m) n) as Hpre. pose proof (prelim_ok _ _ Hpre Hok) as Hok0.
    eapply prelim_stored; [done|].
    destruct Hh as [(ci & -> & _)|[(-> & _)|(l' & ta & Ht & Hfn & ->)]].
    + eapply eff_stored; [apply Hok0|by apply send_eff].
    + eapply eff_stored; [apply Hok0|by apply send_eff].
    + by eapply (installed_stored _ i t es' l' ta _ _ (heard_from (m_from m) n)).
  - intros [= <-]. eapply Heff, handle_append_resp_eff.
  - intros [= <-]. pose proof (heard_from_prelim (m_from m) n) as Hpre.
    eapply prelim_stored; [done|]. pose proof (prelim_ok _ _ Hpre Hok) as Hok0.
    unfold handle_install_snapshot. fold (heard_from (m_from m) n).
    set (n0 := heard_from (m_from m) n) in *.
    destruct (N.leb_spec (s_last_index snapshot) (n_commit n0)).
    { eapply eff_stored; [apply Hok0|by apply send_eff]. }
    case_bool_decide as Ht.
    { apply term_bounds in Ht. eapply eff_stored; [apply Hok0|].
      eapply eff_trans_nil_l; [|by apply send_eff]. apply advance_commit_eff; lia. }
    right. eexists. split_and!; [done|done|done|done].
  - intros [= <-]. eapply Heff, handle_install_snapshot_resp_eff.
Qed.

Lemma step_stored m n n' :
  node_ok n → wf_msg m → step m n = Some n' → stored n n'.
Proof.
  intros Hok Hwf.
  assert (∀ t l, dispatch m (become_follower t l n) = Some n' → stored n n') as Hbf.
  { intros t l Hdi. pose proof (become_follower_prelim t l n) as Hpre.
    eapply prelim_stored; [done|]. eapply dispatch_stored; [|done..]. by eapply prelim_ok. }
  assert (dispatch m n = Some n' → stored n n') as Hdi by (by apply dispatch_stored).
  assert (Some (answer_stale m n) = Some n' → stored n n') as Hst.
  { intros [= <-]. eapply eff_stored; [apply Hok|apply answer_stale_eff]. }
  unfold step. destruct (m_body m); try done;
    (destruct (_ <? _); [apply Hbf|destruct (_ <? _); [done|apply Hdi]]).
Qed.

(** The operations whose effect travels through the output. *)
Definition batched (op : node_op) : bool :=
  match op with OpCompact _ _ | OpTakeOutput => false | _ => true end.

Lemma run_op_stored op n n' :
  node_ok n → wf_op op → batched op = true → run_op op n = Some n' → stored n n'.
Proof.
  intros Hok Hwf Hb Hrun. destruct op; simplify_eq/=.
  - edestruct tick_eff. eapply eff_stored; [apply Hok|done..].
  - by eapply step_stored.
  - edestruct propose_eff. eapply eff_stored; [apply Hok|done..].
  - edestruct propose_conf_change_eff. eapply eff_stored; [apply Hok|done..].
  - eapply eff_stored; [apply Hok|apply read_index_eff].
Qed.

(** A batch that can be stored: its entries are one run that continues the log, or
    follow a snapshot that replaced it. *)
Definition single_run (n n' : RaftNode) : Prop :=
  continues (match o_snapshot (n_out n') with Some _ => [] | None => entries (n_log n) end) (o_append (n_out n')).

(** Any number of operations without a snapshot: the entries add up. *)
Lemma run_ops_stored ops n n' :
  node_ok n → Forall wf_op ops → Forall (λ op, batched op = true) ops → run_ops ops n = Some n' →
  o_snapshot (n_out n') = None →
  o_snapshot (n_out n) = None ∧ n_snapshot n' = n_snapshot n
  ∧ ∃ es, o_append (n_out n') = o_append (n_out n) ++ es ∧ foldl disk_append (entries (n_log n)) es = entries (n_log n').
Proof.
  revert n. induction ops as [|op ops IH]; intros n Hok Hwf Hb Hrun Hns; simplify_eq/=.
  { split_and!; [done..|]. exists []. by rewrite app_nil_r. }
  apply Forall_cons in Hwf as [Hop Hwf]. apply Forall_cons in Hb as [Hbo Hb].
  apply bind_Some in Hrun as (n1 & Hr1 & Hrun).
  pose proof (h_ok _ _ (run_op_history _ _ _ Hok Hop Hr1)) as Hok1.
  destruct (IH n1 Hok1 Hwf Hb Hrun Hns) as (Hs1 & Hsn & es2 & Ha2 & He2).
  destruct (run_op_stored _ _ _ Hok Hop Hbo Hr1) as [(es1 & Ha1 & Hs & Hsn1 & He1 & _)|(s & Hs & _)]; [|congruence].
  split_and!; [congruence..|]. exists (es1 ++ es2). rewrite foldl_app, He1. split; [|done].
  by rewrite Ha2, Ha1, app_assoc.
Qed.

Lemma run_ops_hs ops n n' :
  node_ok n → Forall wf_op ops → Forall (λ op, batched op = true) ops → run_ops ops n = Some n' → hs_tracked n n'.
Proof.
  revert n. induction ops as [|op ops IH]; intros n Hok Hwf Hb Hrun; simplify_eq/=; [by left|].
  apply Forall_cons in Hwf as [Hop Hwf]. apply Forall_cons in Hb as [Hbo Hb].
  apply bind_Some in Hrun as (n1 & Hr1 & Hrun).
  destruct (run_op_guarantee op n n1) as [Hok1 _ _ _ Hh _ _ _ _]; [by destruct op|done..|].
  eapply hs_tracked_trans; [exact Hh|]. by apply IH.
Qed.

(** The disk that held the durable state of a drained node holds that of the node
    after some operations, once the host wrote their output. *)
Lemma store_written n n' es :
  o_hard_state (n_out n) = None → hs_tracked n n' →
  foldl disk_append (match o_snapshot (n_out n') with Some _ => [] | None => entries (n_log n) end)
    (o_append (n_out n')) = es → es = entries (n_log n') →
  n_snapshot n' = match o_snapshot (n_out n') with Some s => Some s | None => n_snapshot n end →
  store_output (n_out n') (disk_of n) = disk_of n'.
Proof.
  intros Ho Hh He -> Hs. unfold store_output, disk_of. simpl.
  assert (default (n_hs n) (o_hard_state (n_out n')) = n_hs n') as Hhs.
  { destruct Hh as [[-> ->]| ->]; [by rewrite Ho|done]. }
  rewrite Hhs. destruct (o_snapshot (n_out n')); by rewrite He, Hs.
Qed.

Lemma run_ops_durable ops n n' :
  node_ok n → n_out n = default_out → Forall wf_op ops → Forall (λ op, batched op = true) ops →
  run_ops ops n = Some n' → o_snapshot (n_out n') = None → store_output (n_out n') (disk_of n) = disk_of n'.
Proof.
  intros Hok Ho Hwf Hb Hrun Hns. destruct (run_ops_stored _ _ _ Hok Hwf Hb Hrun Hns) as (_ & Hsn & es & Ha & He).
  rewrite Ho in Ha. simpl in Ha. eapply store_written; [by rewrite Ho|by eapply run_ops_hs| |done|by rewrite Hns].
  by rewrite Hns, Ha.
Qed.

(** One operation may also hand over a snapshot; its entries are always one run. *)
Lemma run_op_batch op n n' :
  node_ok n → n_out n = default_out → wf_op op → batched op = true → run_op op n = Some n' →
  store_output (n_out n') (disk_of n) = disk_of n' ∧ single_run n n'.
Proof.
  intros Hok Ho Hwf Hb Hrun. assert (hs_tracked n n') as Hh.
  { apply (g_hs n n'). apply (run_op_guarantee op); [by destruct op|done..]. }
  unfold single_run. destruct (run_op_stored _ _ _ Hok Hwf Hb Hrun) as [(es & Ha & Hs & Hsn & He & Hc)|(s & Hs & Hsn & Ha & He)];
    rewrite Ho in *; simpl in *.
  - split; [eapply store_written; [by rewrite Ho|done| |done|]; by rewrite Hs, ?Ha|by rewrite Hs, Ha].
  - split; [eapply store_written; [by rewrite Ho|done| |done|]; by rewrite Hs, ?Ha|]. rewrite Hs, Ha.
    exists 0, 0. split_and!; [by intros ? ? ?..|done|done].
Qed.

Lemma run_op_durable op n n' :
  node_ok n → n_out n = default_out → wf_op op → batched op = true → run_op op n = Some n' →
  store_output (n_out n') (disk_of n) = disk_of n'.
Proof. intros. by eapply run_op_batch. Qed.

(** ** Compaction *)

Lemma filter_above i es a :
  consecutive i es → filter (λ e, a < e_index e) es = drop (N.to_nat (a + 1 - i)) es.
Proof.
  revert i. induction es as [|e es IH]; intros i Hes; [by rewrite drop_nil|].
  apply consecutive_cons in Hes as [He Hes]. rewrite filter_cons, He, (IH _ Hes).
  destruct (decide (a < i)).
  - replace (N.to_nat (a + 1 - i)) with 0%nat by lia.
    by replace (N.to_nat (a + 1 - (i + 1))) with 0%nat by lia.
  - by replace (N.to_nat (a + 1 - i)) with (S (N.to_nat (a + 1 - (i + 1)))) by lia.
Qed.

(** A host that stores the snapshot of a compaction and drops the entries it
    covers has the durable state of the compacted node on disk. *)
Lemma compact_durable a data n n' s :
  node_ok n → node_compact a data n = (n', Some s) → store_snapshot s (disk_of n) = disk_of n'.
Proof.
  intros [Hc [Hlo Hhi] _] Hcmp. unfold node_compact in Hcmp.
  destruct ((a <=? snap_index (n_log n)) || (n_commit n <? a)) eqn:Hg; [done|].
  destruct (RL.term (n_log n) a) as [t|]; [|done]. injection Hcmp as <- <-.
  unfold store_snapshot, disk_of. simpl. rewrite (filter_above (snap_index (n_log n) + 1)) by done.
  rewrite compact_eq by lia. simpl. do 2 f_equal. lia.
Qed.

(** ** A host that writes before it sends *)

(** A node and its disk after one operation of the host: the batch is taken and
    its durable part written; a compaction stores its snapshot. *)
Definition host_op (op : node_op) (h : RaftNode * Persisted) : option (RaftNode * Persisted) :=
  match op with
  | OpCompact a data =>
      let '(n, snap) := node_compact a data h.1 in
      Some (n, match snap with Some s => store_snapshot s h.2 | None => h.2 end)
  | _ =>
      n ← run_op op h.1;
      let '(n, out) := take_output n in
      Some (n, store_output out h.2)
  end.

Fixpoint host_ops (ops : list node_op) (h : RaftNode * Persisted) : option (RaftNode * Persisted) :=
  match ops with
  | [] => Some h
  | op :: ops => h ← host_op op h; host_ops ops h
  end.

(** Between operations the disk is the durable state and the output is empty. *)
Record synced (h : RaftNode * Persisted) : Prop := {
  sy_ok : node_ok h.1;
  sy_out : n_out h.1 = default_out;
  sy_disk : h.2 = disk_of h.1;
}.

Lemma compact_out a data n : n_out (node_compact a data n).1 = n_out n.
Proof. unfold node_compact. destruct (_ || _); [done|]. by destruct (RL.term _ _). Qed.

Lemma store_nothing d : store_output default_out d = d.
Proof. by destruct d. Qed.

Lemma host_op_synced op h h' : synced h → wf_op op → host_op op h = Some h' → synced h'.
Proof.
  destruct h as [n d]. intros [Hok Ho Hd] Hwf. simpl in *. subst d. unfold host_op.
  destruct (batched op) eqn:Hb.
  - intros Hrun.
    assert (∃ n', run_op op n = Some n' ∧
      h' = ((take_output n').1, store_output (n_out n') (disk_of n))) as (n' & Hr & ->).
    { destruct op; try done; apply bind_Some in Hrun as (n' & Hr & [= <-]); by exists n'. }
    split; simpl; [|done|].
    + apply take_output_ok, (h_ok n n'). by eapply run_op_history.
    + by erewrite run_op_durable.
  - destruct op as [| | | | |a data|]; try done.
    + pose proof (g_ok _ _ (compact_guarantee a data n Hok)) as Hok'.
      pose proof (compact_out a data n) as Ho'. simpl.
      destruct (node_compact a data n) as [n' [s|]] eqn:Hc; intros [= <-].
      * split; simpl; [done|by rewrite <-Ho|]. by eapply compact_durable.
      * unfold node_compact in Hc. destruct (_ || _); [|destruct (RL.term _ _); [done|]];
          injection Hc as <-; by split.
    + intros [= <-]. split; simpl; [by do 2 apply take_output_ok|done|]. by rewrite store_nothing.
Qed.

Lemma host_ops_synced ops h h' : synced h → Forall wf_op ops → host_ops ops h = Some h' → synced h'.
Proof.
  revert h. induction ops as [|op ops IH]; intros h Hs Hwf Hrun; simplify_eq/=; [done|].
  apply Forall_cons in Hwf as [Hop Hwf]. apply bind_Some in Hrun as (h1 & H1 & Hrun).
  apply (IH h1); [|done..]. by eapply host_op_synced.
Qed.

Lemma node_new_durable cfg vs p :
  disk_of (node_new cfg vs p) = p ∧ n_out (node_new cfg vs p) = default_out ∧
  snap_index (n_log (node_new cfg vs p)) = from_option s_last_index 0 (p_snapshot p) ∧
  n_commit (node_new cfg vs p) = from_option s_last_index 0 (p_snapshot p).
Proof.
  unfold node_new. destruct p as [hs es [s|]]; simpl;
    match goal with |- context [reset_election_timer ?x] =>
      destruct (reset_timer_eq x) as (T & R & ->) end; done.
Qed.

(** C13: a host that writes the durable part of every [Output] before using the
    rest of it can crash between any two operations: the disk then holds exactly
    the node's term, vote, log entries and snapshot, and [RaftNode::new] on that
    disk recovers them, with the same log base. Ticks, messages, proposals,
    membership changes, reads and compactions are all covered. *)
Theorem crash_recovers_durable_state cfg vs p ops n d cfg' :
  persisted_ok p → Forall wf_op ops →
  host_ops ops (node_new cfg vs p, p) = Some (n, d) →
  d = disk_of n ∧ disk_of (node_new cfg' vs d) = disk_of n ∧
  snap_index (n_log (node_new cfg' vs d)) = snap_index (n_log n).
Proof.
  intros Hp Hwf Hrun. destruct (node_new_durable cfg vs p) as (Hd0 & Ho0 & _).
  assert (synced (node_new cfg vs p, p)) as Hs by (split; [by apply node_new_ok|done|done]).
  destruct (host_ops_synced _ _ _ Hs Hwf Hrun) as [[_ _ Hsn] _ Hd]. simpl in *. subst d.
  destruct (node_new_durable cfg' vs (disk_of n)) as (-> & _ & -> & _).
  split_and!; [done..|]. simpl. destruct (n_snapshot n); simpl; [by destruct Hsn|done].
Qed.

(** A single node that elects itself, writes two entries and compacts. *)
Definition durable_ops : list node_op :=
  replicate 40 OpTick ++ [OpPropose [x01]; OpPropose [x02]; OpCompact 2 [x09]; OpPropose [x03]].
Definition durable_start : RaftNode := node_new (config_new 1 42) [1] default_persisted.
Definition durable_end : RaftNode * Persisted :=
  default (durable_start, default_persisted) (host_ops durable_ops (durable_start, default_persisted)).

Lemma crash_recovers_durable_state_witness :
  p_entries durable_end.2 = [mkEntry 1 3 (Normal [x02]); mkEntry 1 4 (Normal [x03])] ∧
  disk_of (node_new (config_new 1 7) [1] durable_end.2) = disk_of durable_end.1.
Proof.
  split; [vm_compute; reflexivity|].
  apply (crash_recovers_durable_state (config_new 1 42) [1] default_persisted durable_ops).
  - by intros k e Hk.
  - apply Forall_app. split; [by apply Forall_replicate|]. repeat constructor.
  - vm_compute. reflexivity.
Defined.
