(* ===== verification/LogStore.v ===== *)
(** * The log store of the server

    crates/server/src/logstore.rs: the durable state of a node as rows of a
    storage engine: the hard state, the snapshot, and one row per log entry under
    a big-endian key, so that a scan of the prefix replays the log in order. *)

From S2P Require Import Prelude Order Codec Fs Wal Bloom Memtable SsTable SsTableFacts.
From S2P Require Import MergeIter Manifest Db LsmSpec DbRead DbCompact DbInv DbOps DbEngine DbProps.
From S2P Require Import RaftTypes RaftLog RaftLogFacts RaftNode Kvsm SimCluster Durability.
Local Open Scope N_scope.

(** ** Rows *)

Definition KEY_HS : bytes := [x6d; x2f; x68; x73].
Definition KEY_SNAP : bytes := [x6d; x2f; x73; x6e; x61; x70].
Definition ENTRY_PREFIX : bytes := [x65; x2f].
Definition ENTRY_END : bytes := [x65; x30].

Definition entry_key (index : Index) : bytes := ENTRY_PREFIX ++ to_be 8 index.
#[global] Arguments entry_key : simpl never.

(** [a..=b]. *)
Definition inclusive (a b : N) : list N := (λ k, a + N.of_nat k) <$> seq 0 (N.to_nat (b + 1 - a)).

Definition delete_rows (a b : Index) : list write := (λ i, (entry_key i, None)) <$> inclusive a b.

Record LogStore := mkLogStore {
  ls_db : Db;
  ls_first_index : Index;
  ls_last_index : Index;
}.

Definition log_options : Options :=
  let o := options_default in
  mkOptions (o_memtable_bytes o) Always (o_l0_trigger o) (o_level_base_bytes o)
    (o_level_multiplier o) (o_target_table_bytes o) (o_block_bytes o) (o_bits_per_key o).

Section logstore.
  Context {crc : Crc32} {cw : Bincode WalBatch} {ci : Bincode TableIndex} {cm : Bincode Manifest}.
  Context {ch : Bincode HardState} {ce : Bincode RaftTypes.Entry} {cs : Bincode Snapshot}.

(** ** Opening *)

(** A row that has to decode. *)
Definition decode_row {A} `{Bincode A} (b : bytes) : Res A :=
  match deserialize b with Some a => Ok a | None => fail Corruption end.

Fixpoint decode_entries (kvs : list (bytes * bytes)) : Res (list RaftTypes.Entry) :=
  match kvs with
  | [] => Ok []
  | (_, v) :: kvs =>
    e ← decode_row v;
    es ← decode_entries kvs;
    Ok (e :: es)
  end.

Definition read_hard_state (db : Db) (d : Dir) : Res HardState :=
  r ← db_get db KEY_HS d;
  match r with Some b => decode_row b | None => Ok default_hs end.

Definition read_snapshot (db : Db) (d : Dir) : Res (option Snapshot) :=
  r ← db_get db KEY_SNAP d;
  match r with Some b => s ← decode_row b; Ok (Some s) | None => Ok None end.

Definition read_entries (db : Db) (d : Dir) : Res (list RaftTypes.Entry) :=
  kvs ← db_scan db ENTRY_PREFIX (Some ENTRY_END) usize_max d;
  decode_entries kvs.

Definition log_open (fuel : nat) : IO (LogStore * Persisted) :=
  db ← db_open fuel log_options;
  hard_state ← reads (read_hard_state db);
  snapshot ← reads (read_snapshot db);
  entries ← reads (read_entries db);
  let first_index := from_option e_index 0 (head entries) in
  let last_index := from_option e_index 0 (last entries) in
  mret (mkLogStore db first_index last_index, mkPersisted hard_state entries snapshot).

(** ** Writing *)

Definition put_rows (append : list RaftTypes.Entry) : list write :=
  (λ e, (entry_key (e_index e), Some (serialize e))) <$> append.

(** The rows and the bounds after the hard state and the snapshot of a batch. *)
Definition state_rows (hs : option HardState) (snapshot : option Snapshot)
    (first_index last_index : Index) : list write * Index * Index :=
  let ops := match hs with Some hs => [(KEY_HS, Some (serialize hs))] | None => [] end in
  match snapshot with
  | None => (ops, first_index, last_index)
  | Some snap =>
    (ops ++ [(KEY_SNAP, Some (serialize snap))]
       ++ (if last_index =? 0 then [] else delete_rows first_index last_index), 0, 0)
  end.

(** ... and after its entries. *)
Definition entry_rows (append : list RaftTypes.Entry) (first_index last_index : Index)
    : list write * Index * Index :=
  match append with
  | [] => ([], first_index, last_index)
  | e :: _ =>
    let first_new := e_index e in
    ((if negb (last_index =? 0) && (first_new <=? last_index) then delete_rows first_new last_index else [])
       ++ put_rows append,
     (if (first_index =? 0) || (first_new <? first_index) then first_new else first_index),
     from_option e_index 0 (last append))
  end.

Definition persist_rows (hs : option HardState) (append : list RaftTypes.Entry)
    (snapshot : option Snapshot) (ls : LogStore) : list write * Index * Index :=
  let '(ops1, first, last) := state_rows hs snapshot (ls_first_index ls) (ls_last_index ls) in
  let '(ops2, first, last) := entry_rows append first last in
  (ops1 ++ ops2, first, last).

Definition log_persist (fuel : nat) (hs : option HardState) (append : list RaftTypes.Entry)
    (snapshot : option Snapshot) (ls : LogStore) : IO LogStore :=
  let '(ops, first, last) := persist_rows hs append snapshot ls in
  match ops with
  | [] => mret (mkLogStore (ls_db ls) first last)
  | _ =>
    '(_, db) ← write_batch fuel ops (ls_db ls);
    mret (mkLogStore db first last)
  end.

Definition compact_rows (snap : Snapshot) (ls : LogStore) : list write * Index * Index :=
  let first := ls_first_index ls in
  let last := ls_last_index ls in
  let ops := [(KEY_SNAP, Some (serialize snap))] in
  if negb (last =? 0) && (first <=? s_last_index snap) then
    let ops := ops ++ delete_rows first (N.min (s_last_index snap) last) in
    if last <=? s_last_index snap then (ops, 0, 0) else (ops, s_last_index snap + 1, last)
  else (ops, first, last).

Definition log_compact_to (fuel : nat) (snap : Snapshot) (ls : LogStore) : IO LogStore :=
  let '(ops, first, last) := compact_rows snap ls in
  '(_, db) ← write_batch fuel ops (ls_db ls);
  mret (mkLogStore db first last).
End logstore.

#[global] Arguments put_rows : simpl never.

(** ** Keys *)

Lemma length_to_be k x : length (to_be k x) = k.
Proof. unfold to_be. rewrite length_reverse. apply length_to_le. Qed.

Lemma bytes_cmp_app a b a' b' :
  length a = length b →
  bytes_cmp (a ++ a') (b ++ b') = match bytes_cmp a b with Eq => bytes_cmp a' b' | c => c end.
Proof.
  revert b. induction a as [|x a IH]; intros [|y b] Hl; try done. simpl.
  destruct (Byte.to_N x ?= Byte.to_N y); [|done..]. apply IH. by injection Hl.
Qed.

(** Big-endian bytes are ordered like the numbers. *)
Lemma to_be_cmp k x y : x < 256 ^ N.of_nat k → y < 256 ^ N.of_nat k →
  bytes_cmp (to_be k x) (to_be k y) = (x ?= y).
Proof.
  revert x y. induction k as [|k IH]; intros x y Hx Hy.
  { assert (x = 0) as -> by (simpl in *; lia). assert (y = 0) as -> by (simpl in *; lia). done. }
  assert (∀ z, to_be (S k) z = to_be k (z / 256) ++ [byte_of z]) as Hs.
  { intros z. unfold to_be. change (to_le (S k) z) with (byte_of z :: to_le k (z / 256)).
    by rewrite reverse_cons. }
  rewrite !Hs, bytes_cmp_app by by rewrite !length_to_be.
  assert (∀ z, z < 256 ^ N.of_nat (S k) → z / 256 < 256 ^ N.of_nat k) as Hdiv.
  { intros z Hz. apply N.Div0.div_lt_upper_bound. by rewrite Nat2N.inj_succ, N.pow_succ_r' in Hz. }
  rewrite IH by auto. simpl. rewrite !to_N_byte_of.
  pose proof (N.div_mod x 256 ltac:(lia)). pose proof (N.div_mod y 256 ltac:(lia)).
  pose proof (N.mod_lt x 256 ltac:(lia)). pose proof (N.mod_lt y 256 ltac:(lia)).
  destruct (N.compare_spec (x / 256) (y / 256)) as [He|Hlt|Hlt];
    [destruct (N.compare_spec (x mod 256) (y mod 256))|..]; symmetry;
    rewrite ?N.compare_eq_iff, ?N.compare_lt_iff, ?N.compare_gt_iff; lia.
Qed.

Lemma entry_key_cmp i j : i < 2 ^ 64 → j < 2 ^ 64 → bytes_cmp (entry_key i) (entry_key j) = (i ?= j).
Proof. intros Hi Hj. unfold entry_key. rewrite bytes_cmp_app by done. by apply (to_be_cmp 8). Qed.

Lemma entry_key_inj i j : i < 2 ^ 64 → j < 2 ^ 64 → entry_key i = entry_key j → i = j.
Proof.
  intros Hi Hj He. apply N.compare_eq_iff. rewrite <-entry_key_cmp by done. rewrite He. apply cmp_refl, _.
Qed.

(** The keys a scan of the log visits. *)
Definition entry_range (k : bytes) : Prop := bytes_le ENTRY_PREFIX k ∧ below (Some ENTRY_END) k.

Lemma entry_key_range i : entry_range (entry_key i).
Proof. by split. Qed.

Lemma hs_key_range : ¬ entry_range KEY_HS.
Proof. intros [_ H]. by vm_compute in H. Qed.

Lemma snap_key_range : ¬ entry_range KEY_SNAP.
Proof. intros [_ H]. by vm_compute in H. Qed.

Lemma elem_of_inclusive i a b : i ∈ inclusive a b ↔ a ≤ i ≤ b.
Proof.
  unfold inclusive. rewrite list_elem_of_fmap. setoid_rewrite elem_of_seq. split.
  - intros (k & -> & Hk). lia.
  - intros Hi. exists (N.to_nat (i - a)). lia.
Qed.

(** ** What the rows say *)

Lemma writes_other m ops k :
  (∀ v, (k, v) ∉ ops) → foldl apply_write m ops !! k = m !! k.
Proof.
  revert m. induction ops as [|w ops IH]; intros m Hk; simpl; [done|].
  rewrite IH by (intros v Hv; apply (Hk v); by right).
  rewrite apply_write_lookup. case_decide as He; [|done].
  exfalso. apply (Hk w.2). rewrite <-He. destruct w. by left.
Qed.

Lemma delete_rows_lookup m a b k :
  foldl apply_write m (delete_rows a b) !! k
  = if decide (k ∈ entry_key <$> inclusive a b) then None else m !! k.
Proof.
  rewrite <-deletes_lookup. unfold delete_rows. by rewrite <-list_fmap_compose.
Qed.

Lemma delete_rows_other m a b k :
  ¬ entry_range k → foldl apply_write m (delete_rows a b) !! k = m !! k.
Proof.
  intros Hk. rewrite delete_rows_lookup, decide_False; [done|].
  intros (j & -> & _)%list_elem_of_fmap. apply Hk, entry_key_range.
Qed.

Section rows.
  Context {ch : Bincode HardState} {ce : Bincode RaftTypes.Entry} {cs : Bincode Snapshot}.
  Implicit Types es new : list RaftTypes.Entry.

Definition rows (m : gmap bytes bytes) (es : list RaftTypes.Entry) : Prop :=
  ∀ k v, entry_range k →
    m !! k = Some v ↔ ∃ e, e ∈ es ∧ k = entry_key (e_index e) ∧ v = serialize e.

Definition bounded (es : list RaftTypes.Entry) : Prop := ∀ e, e ∈ es → 0 < e_index e < 2 ^ 64.

(** Rows of other keys do not matter. *)
Lemma rows_other m m' es : (∀ k, entry_range k → m' !! k = m !! k) → rows m es → rows m' es.
Proof. intros Hm Hr k v Hk. rewrite Hm by done. by apply Hr. Qed.

Lemma rows_iff m es es' : (∀ e, e ∈ es ↔ e ∈ es') → rows m es → rows m es'.
Proof. intros He Hr k v Hk. rewrite (Hr k v Hk). by setoid_rewrite He. Qed.

Lemma rows_delete m es a b :
  rows m es → bounded es → b < 2 ^ 64 →
  rows (foldl apply_write m (delete_rows a b)) (filter (λ e, ¬ (a ≤ e_index e ≤ b)) es).
Proof.
  intros Hr Hb Hlt k v Hk. rewrite delete_rows_lookup. setoid_rewrite list_elem_of_filter.
  destruct (decide (k ∈ entry_key <$> inclusive a b)) as [Hin|Hin].
  - apply list_elem_of_fmap in Hin as (i & -> & Hi). rewrite elem_of_inclusive in Hi. split; [done|].
    intros (e & [Hn He] & Hkey & _). apply Hb in He as ?. apply entry_key_inj in Hkey; [|lia..]. by subst i.
  - rewrite (Hr k v Hk). split.
    + intros (e & He & -> & ->). exists e. split_and!; [|done..]. intros Hi.
      apply Hin, list_elem_of_fmap_2, elem_of_inclusive, Hi.
    + intros (e & [_ He] & ? & ?). eauto.
Qed.

Lemma rows_put m es e :
  rows m es → (∀ e', e' ∈ es → e_index e' ≠ e_index e) → bounded (es ++ [e]) →
  rows (<[entry_key (e_index e) := serialize e]> m) (es ++ [e]).
Proof.
  intros Hr Hne Hb k v Hk. setoid_rewrite elem_of_app. setoid_rewrite list_elem_of_singleton.
  pose proof (Hb e ltac:(set_solver)). destruct (decide (k = entry_key (e_index e))) as [->|Hk'].
  - rewrite lookup_insert_eq. split; [intros [= <-]; eauto|].
    intros (e' & [He'| ->] & Hkey & ->); [|done]. exfalso. pose proof (Hb e' ltac:(set_solver)).
    apply entry_key_inj in Hkey; [|lia..]. by eapply Hne.
  - rewrite lookup_insert_ne by done. rewrite (Hr k v Hk). split.
    + intros (e' & ? & ? & ?). eauto.
    + intros (e' & [He'| ->] & ? & ?); [eauto|done].
Qed.

Lemma rows_puts m es new j :
  rows m es → consecutive j new → (∀ e, e ∈ es → e_index e < j) → bounded (es ++ new) →
  rows (foldl apply_write m (put_rows new)) (es ++ new).
Proof.
  revert m es j. induction new as [|e new IH]; intros m es j Hr Hc Hlt Hb; [by rewrite app_nil_r|].
  change (put_rows (e :: new)) with ((entry_key (e_index e), Some (serialize e)) :: put_rows new). cbn [foldl].
  apply consecutive_cons in Hc as [He Hc]. rewrite cons_middle, app_assoc in Hb |- *.
  eapply (IH _ _ (j + 1)); [|done| |done].
  - apply rows_put; [done| |].
    + intros e' He'%Hlt. lia.
    + intros e' He'. apply Hb. apply elem_of_app. by left.
  - intros e' [He'%Hlt| ->%list_elem_of_singleton]%elem_of_app; lia.
Qed.

(** ** The durable state in the store *)

Record log_content (m : gmap bytes bytes) (p : Persisted) : Prop := {
  lc_hs : m !! KEY_HS = Some (serialize (p_hard_state p)) ∨ m !! KEY_HS = None ∧ p_hard_state p = default_hs;
  lc_snap : m !! KEY_SNAP = serialize <$> p_snapshot p;
  lc_rows : rows m (p_entries p);
  lc_bounded : bounded (p_entries p);
}.

(** The bounds that the store remembers. *)
Definition bounds_of (es : list RaftTypes.Entry) (first_index last_index : Index) : Prop :=
  first_index = from_option e_index 0 (head es) ∧ last_index = from_option e_index 0 (last es).

(** Every index but the first is the successor of the one before it. *)
Definition is_run (es : list RaftTypes.Entry) : Prop := ∃ i, consecutive i es.

Lemma run_bounds es i : consecutive i es → es ≠ [] →
  from_option e_index 0 (head es) = i ∧ from_option e_index 0 (last es) = i + N.of_nat (length es) - 1.
Proof.
  intros Hc Hne. destruct es as [|e es]; [done|]. split.
  - simpl. by apply consecutive_cons in Hc as [? _].
  - destruct (last (e :: es)) as [e'|] eqn:Hl; [|by apply last_None in Hl]. simpl.
    rewrite last_lookup in Hl. rewrite (Hc _ _ Hl). simpl. lia.
Qed.

Lemma run_length es i : consecutive i es → bounded es → N.of_nat (length es) < 2 ^ 64.
Proof.
  intros Hc Hb. destruct (decide (es = [])) as [->|Hne]; [done|].
  destruct (run_bounds _ _ Hc Hne) as [Hh Hl].
  destruct (last es) as [e|] eqn:He; [|by apply last_None in He]. simpl in Hl.
  destruct (head es) as [e0|] eqn:He0; [|by apply head_None in He0]. simpl in Hh.
  pose proof (Hb e ltac:(by apply last_Some_elem_of)).
  pose proof (Hb e0 ltac:(by apply head_Some_elem_of)). lia.
Qed.

(** ** Reading back *)

Lemma log_scan m es i :
  rows m es → bounded es → consecutive i es →
  kv_range m ENTRY_PREFIX (Some ENTRY_END) = (λ e, (entry_key (e_index e), serialize e)) <$> es.
Proof.
  intros Hr Hb Hc. apply (key_sorted_ext bytes_cmp).
  - apply key_sorted_filter, bt_iter_sorted, _.
  - clear Hr. revert i Hc. induction es as [|e es IH]; intros i Hc; csimpl; constructor.
    + apply consecutive_cons in Hc as [_ Hc]. apply (IH ltac:(intros e' ?; apply Hb; by right) _ Hc).
    + apply Forall_fmap, Forall_forall. intros e' He'. unfold key_lt, cmp_lt, compose. cbn [fst].
      pose proof (Hb e ltac:(left)). pose proof (Hb e' ltac:(by right)).
      rewrite entry_key_cmp by lia. apply N.compare_lt_iff. apply consecutive_cons in Hc as [He Hc].
      apply list_elem_of_lookup in He' as [k Hk]. rewrite (Hc _ _ Hk). lia.
  - intros [k v]. unfold kv_range. rewrite list_elem_of_filter, elem_of_bt_iter, list_elem_of_fmap. split.
    + intros [Hk Hm]. apply (Hr k v Hk) in Hm as (e & He & -> & ->). eauto.
    + intros (e & [= -> ->] & He). split; [apply entry_key_range|].
      apply Hr; [apply entry_key_range|eauto].
Qed.

(** ** Writing a batch *)

Lemma filter_prefix {A} (P : A → Prop) `{!∀ x, Decision (P x)} (l : list A) k :
  (∀ x, x ∈ take k l → P x) → (∀ x, x ∈ drop k l → ¬ P x) → filter P l = take k l.
Proof.
  intros H1 H2. rewrite <-(take_drop k l) at 1. rewrite filter_app.
  by rewrite (filter_all P (take k l)), (filter_none P (drop k l)), app_nil_r.
Qed.

(** Only the rows from the first new index on are deleted. *)
Lemma truncated_run es i j l :
  consecutive i es → (∀ e, e ∈ es → e_index e ≤ l) → i ≤ j →
  filter (λ e, ¬ (j ≤ e_index e ≤ l)) es = take (N.to_nat (j - i)) es.
Proof.
  intros Hc Hl Hij. apply filter_prefix.
  - intros e He. apply list_elem_of_lookup in He as [k [Hk Hlt]%lookup_take_Some]. rewrite (Hc _ _ Hk). lia.
  - intros e He. apply list_elem_of_lookup in He as [k Hk]. rewrite lookup_drop in Hk.
    pose proof (Hl e ltac:(by eapply list_elem_of_lookup_2)). rewrite (Hc _ _ Hk) in *. lia.
Qed.

Lemma run_last es i e : consecutive i es → e ∈ es → e_index e ≤ from_option e_index 0 (last es).
Proof.
  intros Hc He. destruct (run_bounds _ _ Hc ltac:(by intros ->; apply elem_of_nil in He)) as [_ ->].
  apply list_elem_of_lookup in He as [k Hk]. rewrite (Hc _ _ Hk). apply lookup_lt_Some in Hk. lia.
Qed.

Lemma bounds_empty es f l : bounded es → bounds_of es f l → (l =? 0) = true → es = [].
Proof.
  intros Hb [_ ->] Hl%N.eqb_eq. destruct (last es) as [e|] eqn:He; [|by apply last_None in He].
  pose proof (Hb e ltac:(by apply last_Some_elem_of)). simpl in Hl. lia.
Qed.

Lemma bounds_last es f l i : bounds_of es f l → consecutive i es → ∀ e, e ∈ es → e_index e ≤ l.
Proof. intros [_ ->] Hc e. by apply (run_last _ i). Qed.

Lemma bounds_first es f l i : bounds_of es f l → consecutive i es → ∀ e, e ∈ es → f ≤ e_index e.
Proof.
  intros [-> _] Hc e He. destruct (run_bounds _ _ Hc ltac:(by intros ->; apply elem_of_nil in He)) as [-> _].
  apply list_elem_of_lookup in He as [k Hk]. rewrite (Hc _ _ Hk). lia.
Qed.

Lemma last_bound es f l : bounded es → bounds_of es f l → l < 2 ^ 64.
Proof.
  intros Hb [_ ->]. destruct (last es) as [e|] eqn:He; [|simpl; lia]. simpl.
  apply Hb. by apply last_Some_elem_of.
Qed.

(** The batch without its entries. *)
Definition state_part (out : Output) : Output := mkOut [] [] (o_hard_state out) [] (o_snapshot out) [].

Lemma write_other m k v k' : k' ≠ k → apply_write m (k, v) !! k' = m !! k'.
Proof. intros Hne. rewrite apply_write_lookup. by rewrite decide_False. Qed.

Lemma hs_content m p hs :
  log_content m p →
  log_content (foldl apply_write m (match hs with Some hs => [(KEY_HS, Some (serialize hs))] | None => [] end))
    (mkPersisted (default (p_hard_state p) hs) (p_entries p) (p_snapshot p)).
Proof.
  intros [H1 H2 H3 H4]. destruct hs as [hs|]; [|by split]. cbn [foldl]. split; cbn [default p_hard_state p_snapshot p_entries].
  - left. rewrite apply_write_lookup. by rewrite decide_True.
  - by rewrite write_other.
  - eapply rows_other; [|done]. intros k Hk. apply write_other. intros ->. by apply hs_key_range.
  - done.
Qed.

Lemma state_rows_content out p m f l i :
  log_content m p → consecutive i (p_entries p) → bounds_of (p_entries p) f l →
  let '(ops, f', l') := state_rows (o_hard_state out) (o_snapshot out) f l in
  let p' := store_output (state_part out) p in
  log_content (foldl apply_write m ops) p' ∧ bounds_of (p_entries p') f' l'.
Proof.
  intros Hcon Hrun Hbo. pose proof (hs_content _ _ (o_hard_state out) Hcon) as Hhs. unfold state_rows, store_output.
  simpl. destruct (o_snapshot out) as [snap|]; simpl; [|done]. rewrite foldl_app.
  set (m1 := foldl apply_write m _) in *. split; [|done]. destruct Hhs as [H1 H2 H3 H4].
  simpl in H1, H2, H3, H4. cbn [foldl]. set (m2 := apply_write m1 _).
  assert (rows m2 (p_entries p)) as Hr2.
  { eapply rows_other; [|exact H3]. intros k Hk. apply write_other. intros ->. by apply snap_key_range. }
  set (dels := if l =? 0 then [] else delete_rows f l).
  assert (∀ k, ¬ entry_range k → foldl apply_write m2 dels !! k = m2 !! k) as Hother.
  { intros k Hk. subst dels. destruct (_ =? _); [done|]. by apply delete_rows_other. }
  split; simpl.
  - rewrite Hother by apply hs_key_range. unfold m2. by rewrite write_other.
  - rewrite Hother by apply snap_key_range. unfold m2. rewrite apply_write_lookup. by rewrite decide_True.
  - subst dels. destruct (l =? 0) eqn:Hl.
    + by rewrite (bounds_empty _ _ _ H4 Hbo Hl) in Hr2.
    + pose proof (rows_delete _ _ f l Hr2 H4 (last_bound _ _ _ H4 Hbo)) as Hr. simpl in Hr.
      rewrite filter_none in Hr; [done|]. intros e He Hn. apply Hn. split; [|by eapply bounds_last].
      by eapply bounds_first.
  - by intros e ?%elem_of_nil.
Qed.

Lemma continues_run es new : continues es new → is_run (foldl disk_append es new).
Proof.
  intros (i & j & Hes & Hnew & Hj). rewrite (disk_append_all i _ j) by (done || lia).
  exists i. destruct new as [|e new]; [done|]. apply consecutive_app; [by apply consecutive_take|].
  rewrite length_take, Nat.min_l by lia. by replace (i + N.of_nat (N.to_nat (j - i))) with j by lia.
Qed.

(** Deletions of rows keep the rest of the store. *)
Lemma log_content_rows m m' p es :
  log_content m p → (∀ k, ¬ entry_range k → m' !! k = m !! k) → rows m' es → bounded es →
  log_content m' (mkPersisted (p_hard_state p) es (p_snapshot p)).
Proof.
  intros [H1 H2 _ _] Ho Hr Hb. split; simpl; [|by rewrite Ho by apply snap_key_range|done..].
  by rewrite Ho by apply hs_key_range.
Qed.

Lemma put_rows_other m new k : ¬ entry_range k → foldl apply_write m (put_rows new) !! k = m !! k.
Proof.
  intros Hk. apply writes_other. intros v (e & [= -> _] & _)%list_elem_of_fmap. apply Hk, entry_key_range.
Qed.

(** The rows that [entry_rows] deletes. *)
Lemma truncate_rows m es i j f l :
  rows m es → bounded es → consecutive i es → bounds_of es f l → i ≤ j ≤ i + N.of_nat (length es) →
  rows (foldl apply_write m (if negb (l =? 0) && (j <=? l) then delete_rows j l else []))
    (take (N.to_nat (j - i)) es).
Proof.
  intros Hr Hb Hc Hbo Hj. destruct (l =? 0) eqn:Hl; simpl.
  { by rewrite (bounds_empty _ _ _ Hb Hbo Hl), take_nil in *. }
  destruct (N.leb_spec j l) as [Hle|Hgt].
  - rewrite <-(truncated_run _ i j l) by (done || lia || by eapply bounds_last).
    apply rows_delete; [done..|]. by eapply last_bound.
  - rewrite take_ge; [done|]. apply N.eqb_neq in Hl. destruct Hbo as [_ ->].
    destruct (decide (es = [])) as [->|Hne]; [done|]. destruct (run_bounds _ _ Hc Hne) as [_ Hlast]. lia.
Qed.

Lemma entry_rows_content p m f l new :
  log_content m p → bounds_of (p_entries p) f l → continues (p_entries p) new → bounded new →
  let '(ops, f', l') := entry_rows new f l in
  let es' := foldl disk_append (p_entries p) new in
  log_content (foldl apply_write m ops) (mkPersisted (p_hard_state p) es' (p_snapshot p))
  ∧ bounds_of es' f' l'.
Proof.
  intros Hcon Hbo (i & j & Hes & Hnew & Hj) Hbn. rewrite (disk_append_all i _ j) by (done || lia).
  destruct new as [|e new]; [by destruct p|]. pose proof Hcon as [H1 H2 H3 H4].
  pose proof Hnew as [He _]%consecutive_cons. set (new' := e :: new) in *. simpl. rewrite He, foldl_app.
  set (es0 := take (N.to_nat (j - i)) (p_entries p)).
  pose proof (truncate_rows _ _ _ j _ _ H3 H4 Hes Hbo ltac:(lia)) as Ht.
  assert (bounded (es0 ++ new')) as Hball.
  { intros x [Hx|Hx]%elem_of_app; [|by apply Hbn]. apply H4. eapply elem_of_sublist; [exact Hx|apply sublist_take]. }
  split.
  - eapply log_content_rows; [exact Hcon| |eapply rows_puts; [exact Ht|exact Hnew| |done]|done].
    + intros k Hk. rewrite put_rows_other by done. destruct (_ && _); [|done]. by apply delete_rows_other.
    + intros x Hx. apply list_elem_of_lookup in Hx as [k [Hk Hlt]%lookup_take_Some]. rewrite (Hes _ _ Hk). lia.
  - assert (consecutive i (es0 ++ new')) as Hrun.
    { apply consecutive_app; [by apply consecutive_take|]. unfold es0. rewrite length_take, Nat.min_l by lia.
      by replace (i + N.of_nat (N.to_nat (j - i))) with j by lia. }
    destruct (run_bounds _ _ Hrun ltac:(by destruct es0)) as [Hh Hl].
    destruct (run_bounds _ _ Hnew ltac:(done)) as [_ Hl'].
    split; [|rewrite Hl, Hl', length_app; unfold es0; rewrite length_take, Nat.min_l by lia; simpl; lia].
    rewrite Hh. destruct Hbo as [-> _]. destruct (decide (p_entries p = [])) as [He0|Hne].
    + rewrite He0 in *. simpl in *. lia.
    + destruct (run_bounds _ _ Hes Hne) as [-> _]. destruct (_ || _) eqn:Hor; [|done].
      apply orb_prop in Hor as [Hz%N.eqb_eq|Hz%N.ltb_lt]; [|lia].
      destruct (p_entries p) as [|e0 es]; [done|]. pose proof (H4 e0 ltac:(left)).
      apply consecutive_cons in Hes as [? _]. lia.
Qed.

(** A batch whose entries form one run that continues or replaces the end of the
    log, or follows the snapshot that the batch installs. *)
Definition one_run (p : Persisted) (out : Output) : Prop :=
  continues (p_entries (store_output (state_part out) p)) (o_append out) ∧ bounded (o_append out).

Lemma persist_content out p m ls :
  log_content m p → is_run (p_entries p) → bounds_of (p_entries p) (ls_first_index ls) (ls_last_index ls) →
  one_run p out →
  let '(ops, f, l) := persist_rows (o_hard_state out) (o_append out) (o_snapshot out) ls in
  let p' := store_output out p in
  log_content (foldl apply_write m ops) p' ∧ is_run (p_entries p') ∧ bounds_of (p_entries p') f l.
Proof.
  intros Hcon [i Hrun] Hbo [Hcont Hb]. unfold persist_rows.
  pose proof (state_rows_content out _ _ _ _ _ Hcon Hrun Hbo) as Hst.
  destruct (state_rows _ _ _ _) as [[ops1 f1] l1]. destruct Hst as [Hcon1 Hbo1].
  pose proof (entry_rows_content _ _ _ _ _ Hcon1 Hbo1 Hcont Hb) as Hen.
  destruct (entry_rows _ _ _) as [[ops2 f2] l2]. destruct Hen as [Hcon2 Hbo2]. rewrite foldl_app.
  assert (mkPersisted (p_hard_state (store_output (state_part out) p))
    (foldl disk_append (p_entries (store_output (state_part out) p)) (o_append out))
    (p_snapshot (store_output (state_part out) p)) = store_output out p) as Heq
    by (unfold store_output; simpl; by destruct (o_snapshot out)).
  rewrite Heq in Hcon2. apply (f_equal p_entries) in Heq. simpl in Heq. rewrite <-Heq.
  split_and!; [done|by apply continues_run|done].
Qed.

(** ** Compaction *)

Lemma compacted_run es i s :
  consecutive i es → filter (λ e, s < e_index e) es = drop (N.to_nat (s + 1 - i)) es.
Proof.
  intros Hc. rewrite <-(take_drop (N.to_nat (s + 1 - i)) es) at 1. rewrite filter_app.
  rewrite (filter_none _ (take _ _)), (filter_all _ (drop _ _)); [done|..].
  - intros e [k Hk]%list_elem_of_lookup. rewrite lookup_drop in Hk. rewrite (Hc _ _ Hk). lia.
  - intros e [k [Hk Hlt]%lookup_take_Some]%list_elem_of_lookup. rewrite (Hc _ _ Hk). lia.
Qed.

(** The bounds that [compact_to] remembers when it deletes rows. *)
Lemma compact_bounds es i f l s :
  consecutive i es → bounds_of es f l → l ≠ 0 → f ≤ s →
  let es' := filter (λ e, s < e_index e) es in
  if l <=? s then bounds_of es' 0 0 else bounds_of es' (s + 1) l.
Proof.
  intros Hc [Hf Hl] Hne Hfs es'. assert (es ≠ []) as Hes by (by intros ->).
  destruct (run_bounds _ _ Hc Hes) as [Hi Hlast].
  assert (es' = drop (N.to_nat (s + 1 - i)) es) as -> by (by apply compacted_run).
  destruct (N.leb_spec l s) as [Hle|Hgt].
  - rewrite drop_ge by lia. done.
  - assert (drop (N.to_nat (s + 1 - i)) es ≠ []) as Hne'.
    { intros Hd. apply (f_equal length) in Hd. rewrite length_drop in Hd. simpl in Hd. lia. }
    destruct (run_bounds _ _ (consecutive_drop _ _ (N.to_nat (s + 1 - i)) Hc) Hne') as [Hi' Hl'].
    rewrite length_drop in Hl'. split; [rewrite Hi'; lia|rewrite Hl'; lia].
Qed.

Lemma compact_content snap p m ls i :
  log_content m p → consecutive i (p_entries p) →
  bounds_of (p_entries p) (ls_first_index ls) (ls_last_index ls) →
  let '(ops, f, l) := compact_rows snap ls in
  let p' := store_snapshot snap p in
  log_content (foldl apply_write m ops) p' ∧ is_run (p_entries p') ∧ bounds_of (p_entries p') f l.
Proof.
  intros Hcon Hrun Hbo. pose proof Hcon as [H1 H2 H3 H4].
  set (f0 := ls_first_index ls) in *. set (l0 := ls_last_index ls) in *. set (s := s_last_index snap).
  assert (∀ e, e ∈ p_entries p → f0 ≤ e_index e ≤ l0) as Hin.
  { intros e He. split; [by eapply bounds_first|by eapply bounds_last]. }
  set (m1 := apply_write m (KEY_SNAP, Some (serialize snap))).
  assert (log_content m1 (mkPersisted (p_hard_state p) (p_entries p) (Some snap))) as Hcon1.
  { unfold m1. split; simpl; [by rewrite write_other| | |done].
    - rewrite apply_write_lookup. by rewrite decide_True.
    - eapply rows_other; [|exact H3]. intros k Hk. apply write_other. intros ->. by apply snap_key_range. }
  assert (is_run (filter (λ e, s < e_index e) (p_entries p))) as Hrun'.
  { rewrite (compacted_run _ _ _ Hrun). eexists. by apply consecutive_drop. }
  unfold compact_rows, store_snapshot. fold f0 l0 s.
  destruct (negb (l0 =? 0) && (f0 <=? s)) eqn:Hcond; simpl.
  - apply andb_prop in Hcond as [Hl%negb_true_iff%N.eqb_neq Hf%N.leb_le].
    pose proof (compact_bounds _ _ _ _ s Hrun Hbo Hl Hf) as Hbo'.
    assert (log_content (foldl apply_write m1 (delete_rows f0 (N.min s l0)))
      (mkPersisted (p_hard_state p) (filter (λ e, s < e_index e) (p_entries p)) (Some snap))) as Hcon2.
    { eapply (log_content_rows m1 _ _ _ Hcon1); [intros k; apply delete_rows_other| |].
      - eapply rows_iff; [|apply (rows_delete m1 (p_entries p) f0 (N.min s l0)); [exact (lc_rows _ _ Hcon1)|done|]].
        + intros e. rewrite !list_elem_of_filter. split; intros [? He]; specialize (Hin e He); (split; [lia|done]).
        + pose proof (last_bound _ _ _ H4 Hbo). lia.
      - intros e [_ He]%list_elem_of_filter. by apply H4. }
    by destruct (l0 <=? s).
  - assert (filter (λ e, s < e_index e) (p_entries p) = p_entries p) as ->.
    { apply andb_false_iff in Hcond as [Hz|Hz].
      - apply negb_false_iff in Hz. by rewrite (bounds_empty _ _ _ H4 Hbo Hz).
      - apply filter_all. intros e He. specialize (Hin e He). lia. }
    split_and!; [done|by exists i|done].
Qed.
End rows.

Section open.
  Context {crc : Crc32} {cw : Bincode WalBatch} {ci : Bincode TableIndex} {cm : Bincode Manifest}.
  Context {lw : BincodeLaws WalBatch} {li : BincodeLaws TableIndex} {lm : BincodeLaws Manifest}.
  Context {ch : Bincode HardState} {ce : Bincode RaftTypes.Entry} {cs : Bincode Snapshot}.
  Context {lh : BincodeLaws HardState} {le : BincodeLaws RaftTypes.Entry} {lsn : BincodeLaws Snapshot}.
  Context (D : nat).

(** The store holds [p]; [ws] are the rows written so far. *)
Record log_holds (ws : list write) (p : Persisted) (ls : LogStore) (d : Dir) : Prop := {
  lh_db : stores_writes log_options D ws (ls_db ls) d;
  lh_content : log_content (content ws) p;
  lh_run : is_run (p_entries p);
  lh_bounds : bounds_of (p_entries p) (ls_first_index ls) (ls_last_index ls);
}.

Lemma decode_entries_ok es :
  decode_entries ((λ e, (entry_key (e_index e), serialize e)) <$> es) = Ok es.
Proof.
  induction es as [|e es IH]; [done|]. csimpl. unfold decode_row. rewrite deserialize_serialize. simpl.
  by rewrite IH.
Qed.

Lemma read_back ws p db d :
  stores_writes log_options D ws db d → log_content (content ws) p → is_run (p_entries p) →
  read_hard_state db d = Ok (p_hard_state p) ∧ read_snapshot db d = Ok (p_snapshot p)
  ∧ read_entries db d = Ok (p_entries p).
Proof.
  intros Hs [Hhs Hsn Hr Hb] [i Hc].
  destruct (stores_serves _ _ _ _ _ Hs) as [Hseq Hserve].
  destruct (Hserve (db_seq db) (or_introl eq_refl)) as [Hget Hscan]. rewrite Hseq in Hget, Hscan.
  unfold read_hard_state, read_snapshot, read_entries, db_get, db_scan. rewrite Hseq, !Hget. split_and!.
  - destruct Hhs as [->|[-> ->]]; [|done]. simpl. unfold decode_row. by rewrite deserialize_serialize.
  - rewrite Hsn. destruct (p_snapshot p); [|done]. simpl. unfold decode_row. by rewrite deserialize_serialize.
  - rewrite Hscan by done. rewrite (log_scan _ _ _ Hr Hb Hc). simpl.
    pose proof (run_length _ _ Hc Hb). rewrite take_ge; [apply decode_entries_ok|].
    rewrite length_fmap. unfold usize_max. lia.
Qed.

(** A directory from which [log_open] recovers [p]. *)
Definition log_recovers (ws : list write) (p : Persisted) (d : Dir) : Prop :=
  recoverable log_options D ws d ∧ log_content (content ws) p ∧ is_run (p_entries p).

(** An empty directory is that of a new node. *)
Lemma log_content_nil : log_content (content ([] : list write)) default_persisted.
Proof.
  split; simpl; [by right|done| |by intros e ?%elem_of_nil].
  intros k v _. unfold view. simpl. rewrite lookup_empty. split; [done|]. by intros (e & ?%elem_of_nil & _).
Qed.

Lemma is_run_nil : is_run [].
Proof. exists 1. by intros k e. Qed.

Lemma empty_log_recovers : log_recovers [] default_persisted ∅.
Proof.
  split; [by eexists _, _, _, _, _, _; apply empty_disk_ok|]. split; [apply log_content_nil|apply is_run_nil].
Qed.

Lemma log_open_spec ws p d :
  log_recovers ws p d → room log_options D ws →
  ∃ n, ∀ fuel, (n <= fuel)%nat → ∃ ls fs,
    log_open fuel d = (Ok (ls, p), fs) ∧ log_holds ws p ls (apply_ops d fs)
    ∧ rests d (apply_ops d fs) ∧ crash_safe log_options D ws d fs.
Proof.
  intros (Hrec & Hcon & Hrun) Hroom. destruct (db_open_spec _ _ _ _ Hrec Hroom) as [n Hn]. exists n.
  intros fuel Hf. destruct (Hn fuel Hf) as (db & fs & Ho & Hs & _ & Hi & Hcs).
  destruct (read_back _ _ _ _ Hs Hcon Hrun) as (H1 & H2 & H3).
  eexists (mkLogStore db _ _), fs. split_and!.
  - unfold log_open. rewrite <-(app_nil_r fs). eapply io_bind_intro; [exact Ho|].
    rewrite (reads_bind _ _ _ _ H1), (reads_bind _ _ _ _ H2), (reads_bind _ _ _ _ H3).
    by destruct p.
  - by split.
  - done.
  - by apply Hcs.
Qed.

(** ** The two writes of the host *)

(** The durable part of an output, and a snapshot taken to compact the log. *)
Inductive log_write := Persist (out : Output) | CompactTo (snap : Snapshot).

Definition log_do (fuel : nat) (w : log_write) : LogStore → IO LogStore :=
  match w with
  | Persist out => log_persist fuel (o_hard_state out) (o_append out) (o_snapshot out)
  | CompactTo snap => log_compact_to fuel snap
  end.

(** What they leave on the disk of the simulated host. *)
Definition stored_by (w : log_write) (p : Persisted) : Persisted :=
  match w with Persist out => store_output out p | CompactTo snap => store_snapshot snap p end.

Definition rows_of (w : log_write) (ls : LogStore) : list write * Index * Index :=
  match w with
  | Persist out => persist_rows (o_hard_state out) (o_append out) (o_snapshot out) ls
  | CompactTo snap => compact_rows snap ls
  end.

Definition well_formed (p : Persisted) (w : log_write) : Prop :=
  match w with Persist out => one_run p out | CompactTo _ => True end.

Lemma rows_of_content w ws p ls d :
  log_holds ws p ls d → well_formed p w →
  let '(ops, f, l) := rows_of w ls in
  let p' := stored_by w p in
  log_content (content (ws ++ ops)) p' ∧ is_run (p_entries p') ∧ bounds_of (p_entries p') f l.
Proof.
  intros [Hdb Hcon Hrun Hbo] Hw. destruct w as [out|snap]; simpl in *.
  - pose proof (persist_content _ _ _ _ Hcon Hrun Hbo Hw) as Hp.
    destruct (persist_rows _ _ _ _) as [[ops f] l]. by rewrite content_app.
  - destruct Hrun as [i Hrun]. pose proof (compact_content snap _ _ _ _ Hcon Hrun Hbo) as Hp.
    destruct (compact_rows _ _) as [[ops f] l]. by rewrite content_app.
Qed.

Lemma log_do_run fuel w ls d ops f l s db fs :
  rows_of w ls = (ops, f, l) → write_batch fuel ops (ls_db ls) d = (Ok (s, db), fs) →
  log_do fuel w ls d = (Ok (mkLogStore db f l), fs).
Proof.
  intros Hr Hw. destruct w as [out|snap]; simpl in *; unfold log_persist, log_compact_to; rewrite Hr.
  - destruct ops as [|o ops]; [by injection Hw as _ <- <-|].
    rewrite <-(app_nil_r fs). by eapply io_bind_intro; [exact Hw|].
  - rewrite <-(app_nil_r fs). by eapply io_bind_intro; [exact Hw|].
Qed.

(** [log_open] answers [p], given enough turns. *)
Definition reopens (p : Persisted) (d : Dir) : Prop :=
  ∃ n, ∀ fuel, (n <= fuel)%nat → ∃ ls fs, log_open fuel d = (Ok (ls, p), fs).

Lemma recovers_reopens ws p d : log_recovers ws p d → room log_options D ws → reopens p d.
Proof.
  intros Hr Hroom. destruct (log_open_spec _ _ _ Hr Hroom) as [n Hn]. exists n. intros fuel Hf.
  destruct (Hn fuel Hf) as (ls & fs & Ho & _). eauto.
Qed.

(** What a write leaves behind. *)
Lemma log_do_spec ws p ls d w :
  log_holds ws p ls d → well_formed p w →
  let '(ops, f, l) := rows_of w ls in
  room log_options D (ws ++ ops) → fits (mkBatch (db_seq (ls_db ls) + 1) ops) →
  ∃ n, ∀ fuel, (n <= fuel)%nat → ∃ db fs,
    log_do fuel w ls d = (Ok (mkLogStore db f l), fs)
    ∧ log_holds (ws ++ ops) (stored_by w p) (mkLogStore db f l) (apply_ops d fs)
    ∧ rests d (apply_ops d fs)
    ∧ (∀ d1, outage d fs d1 → log_recovers ws p d1 ∨ log_recovers (ws ++ ops) (stored_by w p) d1).
Proof.
  intros Hh Hw. pose proof (rows_of_content _ _ _ _ _ Hh Hw) as Hc.
  destruct (rows_of w ls) as [[ops f] l] eqn:Hrows. destruct Hc as (Hcon & Hrun & Hbo). intros Hroom Hfits.
  destruct (write_batch_spec _ _ _ _ _ _ (lh_db _ _ _ _ Hh) Hroom Hfits) as [n Hn].
  exists n. intros fuel Hf. destruct (Hn fuel Hf) as (db & fs & Hwb & Hs & _ & Hi & Hcr).
  exists db, fs. split_and!; [by eapply log_do_run|by split|done|].
  intros d1 Hd1. destruct (Hcr eq_refl d1 Hd1) as [Hr|Hr]; [left|right]; (split; [done|]);
    [split; apply Hh|done].
Qed.

(** A store at rest survives a crash. *)
Lemma log_rest ws p ls d d1 :
  log_holds ws p ls d → cut d d1 → log_recovers ws p d1.
Proof.
  intros Hh Hc. split; [|split; apply Hh]. destruct (lh_db _ _ _ _ Hh) as (G & floor & w0 & bs & Hok).
  by eapply rest_crash_safe.
Qed.

Lemma log_holds_recovers ws p ls d : log_holds ws p ls d → log_recovers ws p d.
Proof.
  intros Hh. split; [|split; apply Hh]. destruct (lh_db _ _ _ _ Hh) as (G & floor & w0 & bs & Hok).
  eexists _, _, _, _, _, _. exact (ok_disk _ _ _ _ _ _ _ _ _ Hok).
Qed.

(** C9: The log store keeps the host contract. A store that holds the durable
    state [p] is given a compaction snapshot, or the durable part of an output
    whose entries form one run that continues or replaces the log ([well_formed]);
    the rows fit in one frame of the write-ahead log, and the engine has room for
    them. Then the write returns, given enough turns, and leaves exactly what the
    contract asks for: opening its directory answers that state. A crash between
    any two file operations of the write leaves a directory that opens to the old
    state or to the new one, unless it leaves no manifest to restart from
    ([outage]; with [MANIFEST] in place there is no exception). *)
Theorem log_store_durable ws p ls d w :
  log_holds ws p ls d → well_formed p w →
  room log_options D (ws ++ (rows_of w ls).1.1) →
  fits (mkBatch (db_seq (ls_db ls) + 1) (rows_of w ls).1.1) →
  ∃ n, ∀ fuel, (n <= fuel)%nat → ∃ ls' fs,
    log_do fuel w ls d = (Ok ls', fs)
    ∧ log_holds (ws ++ (rows_of w ls).1.1) (stored_by w p) ls' (apply_ops d fs)
    ∧ reopens (stored_by w p) (apply_ops d fs)
    ∧ (∀ d1, outage d fs d1 → reopens p d1 ∨ reopens (stored_by w p) d1).
Proof.
  intros Hh Hw. pose proof (log_do_spec _ _ _ _ _ Hh Hw) as Hspec.
  destruct (rows_of w ls) as [[ops f] l]. simpl. intros Hroom Hfits.
  destruct (Hspec Hroom Hfits) as [n Hn]. exists n. intros fuel Hf.
  destruct (Hn fuel Hf) as (db & fs & Hdo & Hh' & _ & Hcr).
  exists (mkLogStore db f l), fs. split_and!; [done..| |].
  - eapply recovers_reopens; [by eapply log_holds_recovers|done].
  - intros d1 Hd1. destruct (Hcr d1 Hd1) as [Hr|Hr]; [left|right].
    + eapply recovers_reopens; [exact Hr|by eapply room_app].
    + by eapply recovers_reopens.
Qed.
End open.

(** ** A concrete store *)

Section concrete_log.
  #[local] Existing Instances end_crc demo_wal_codec demo_table_codec demo_catalog_codec.
  #[local] Existing Instances demo_wal_laws demo_table_laws demo_catalog_laws.
#[local] Instance demo_hs_codec : Bincode HardState := countable_bincode HardState.
#[local] Instance demo_entry_codec : Bincode RaftTypes.Entry := countable_bincode RaftTypes.Entry.
#[local] Instance demo_snap_codec : Bincode Snapshot := countable_bincode Snapshot.
#[local] Instance demo_hs_laws : BincodeLaws HardState := countable_bincode_laws HardState.
#[local] Instance demo_entry_laws : BincodeLaws RaftTypes.Entry := countable_bincode_laws RaftTypes.Entry.
#[local] Instance demo_snap_laws : BincodeLaws Snapshot := countable_bincode_laws Snapshot.

Definition new_store : LogStore := mkLogStore (new_db log_options) 0 0.

Lemma new_store_holds : log_holds 1 [] default_persisted new_store new_dir.
Proof.
  split; simpl.
  - eexists _, _, _, _. apply new_db_ok.
  - apply log_content_nil.
  - apply is_run_nil.
  - done.
Qed.

Definition demo_out : Output := mkOut [] [] None [mkEntry 1 1 (Normal [x07])] None [].

Lemma log_store_durable_witness :
  ∃ n, ∀ fuel, (n <= fuel)%nat → ∃ ls' fs,
    log_do fuel (Persist demo_out) new_store new_dir = (Ok ls', fs)
    ∧ log_holds 1 ([] ++ (rows_of (Persist demo_out) new_store).1.1)
        (store_output demo_out default_persisted) ls' (apply_ops new_dir fs)
    ∧ reopens (store_output demo_out default_persisted) (apply_ops new_dir fs)
    ∧ (∀ d1, outage new_dir fs d1 → reopens default_persisted d1 ∨ reopens (store_output demo_out default_persisted) d1).
Proof.
  apply (log_store_durable 1 [] default_persisted new_store new_dir (Persist demo_out)).
  - exact new_store_holds.
  - split.
    + exists 1, 1. split_and!; [by intros k e|by intros [|k] e Hk; simplify_eq/=|lia|simpl; lia].
    + intros e ->%list_elem_of_singleton. simpl. lia.
  - apply (room_single log_options 1 (entry_key 1, Some (serialize (mkEntry 1 1 (Normal [x07])))));
      vm_compute; try done; repeat constructor.
  - vm_compute. reflexivity.
Defined.

(** Two leaders replicate to node 2 before its host drains it once: the first
    sends three entries, the second replaces all of them by one. *)
Definition demo_append (from term : N) (es : list RaftTypes.Entry) : Message :=
  mkMsg from 2 term (AppendEntries 0 0 es 0 0).

Definition group_node : option RaftNode :=
  let n := node_new (config_new 2 42) [1; 2; 3] default_persisted in
  n ← step (demo_append 1 1 [mkEntry 1 1 Noop; mkEntry 1 2 Noop; mkEntry 1 3 Noop]) n;
  step (demo_append 3 2 [mkEntry 2 1 Noop]) n.

(** The host opens its store, persists the output and opens the store again. *)
Definition group_commit (out : Output) : IO Persisted :=
  '(ls, _) ← log_open 10;
  log_persist 10 (o_hard_state out) (o_append out) (o_snapshot out) ls;;
  '(_, p) ← log_open 10;
  mret p.

(** C38: A batch that both appends entries and truncates them is not stored as
    the host contract asks. The server drains the node once for up to 513 queued
    events, so one output can carry the entries of one leader and those of the
    next, which replace them. The node's log and the contract then hold one
    entry; the directory opens to that entry followed by two entries of the older
    term that the node had removed. *)
Theorem group_commit_keeps_removed_entries :
  ∃ n, group_node = Some n ∧
    entries (n_log n) = [mkEntry 2 1 Noop] ∧
    p_entries (store_output (n_out n) default_persisted) = [mkEntry 2 1 Noop] ∧
    ∃ p, (group_commit (n_out n) ∅).1 = Ok p ∧
      p_entries p = [mkEntry 2 1 Noop; mkEntry 1 2 Noop; mkEntry 1 3 Noop].
Proof.
  assert (match group_node with
    | Some n => entries (n_log n) = [mkEntry 2 1 Noop] ∧
        p_entries (store_output (n_out n) default_persisted) = [mkEntry 2 1 Noop]
    | None => False end) as Hnode by (vm_compute; split; reflexivity).
  assert (match group_node with
    | Some n =>
      match (group_commit (n_out n) ∅).1 with
      | Ok p => p_entries p = [mkEntry 2 1 Noop; mkEntry 1 2 Noop; mkEntry 1 3 Noop]
      | Err _ => False end
    | None => False end) as Hrun by (vm_compute; reflexivity).
  destruct group_node as [n|]; [|done]. exists n. destruct Hnode as [H1 H2]. split_and!; [done..|].
  destruct ((group_commit (n_out n) ∅).1) as [p|]; [|done]. by exists p.
Qed.
End concrete_log.
