(* ===== verification/DbBackend.v ===== *)
(** * The state machine's backend on the storage engine

    crates/server/src/backend.rs: the operations of the [Backend] trait over a
    [Db] of its own directory, opened without synced appends. A failed operation
    of the engine is a panic ([expect]). The theorem is the trait's contract: as
    long as the engine has room, the backend is the finite map that the state
    machine relies on. *)

From S2P Require Import Prelude Order Codec Fs Wal Bloom Memtable SsTable SsTableFacts.
From S2P Require Import MergeIter Manifest Db LsmSpec DbRead DbCompact DbInv DbOps DbEngine DbProps.
From S2P Require Import Kvsm.
Local Open Scope N_scope.

#[local] Arguments apply_ops : simpl never.

(** [expect]: an error is a panic. *)
Definition expect {A} (m : IO A) : IO A := λ d,
  match m d with (Ok a, fs) => (Ok a, fs) | (Err _, fs) => (Err Panic, fs) end.

Definition backend_options : Options :=
  let o := options_default in
  mkOptions (o_memtable_bytes o) Never (o_l0_trigger o) (o_level_base_bytes o)
    (o_level_multiplier o) (o_target_table_bytes o) (o_block_bytes o) (o_bits_per_key o).

Record DbBackend := mkDbBackend { bk_db : Db }.

Section backend.
  Context {crc : Crc32} {cw : Bincode WalBatch} {ci : Bincode TableIndex} {cm : Bincode Manifest}.

Definition bk_open (fuel : nat) : IO DbBackend :=
  db ← db_open fuel backend_options; mret (mkDbBackend db).

Definition bk_get (b : DbBackend) (key : bytes) : IO (option bytes) :=
  expect (reads (db_get (bk_db b) key)).

Definition bk_set (fuel : nat) (key : bytes) (value : option bytes) (b : DbBackend) : IO DbBackend :=
  '(_, db) ← expect (write_batch fuel [(key, value)] (bk_db b));
  mret (mkDbBackend db).

Definition bk_scan (b : DbBackend) (start : bytes) (end_ : option bytes) (limit : N)
    : IO (list (bytes * bytes)) :=
  expect (reads (db_scan (bk_db b) start end_ limit)).

Definition bk_dump (b : DbBackend) : IO (list (bytes * bytes)) :=
  expect (reads (db_scan (bk_db b) [] None usize_max)).

(** The rows that [clear_and_load] writes over [existing]. *)
Definition load_rows (existing kvs : list (bytes * bytes)) : list write :=
  ((λ kv, (kv.1, None)) <$> existing) ++ ((λ kv, (kv.1, Some kv.2)) <$> kvs).

Definition bk_clear_and_load (fuel : nat) (kvs : list (bytes * bytes)) (b : DbBackend) : IO DbBackend :=
  existing ← bk_dump b;
  let ops := load_rows existing kvs in
  match ops with
  | [] => mret b
  | _ =>
    '(_, db) ← expect (write_batch fuel ops (bk_db b));
    mret (mkDbBackend db)
  end.

(** ** The contract *)

  Context {lw : BincodeLaws WalBatch} {li : BincodeLaws TableIndex} {lm : BincodeLaws Manifest}.
  Context (D : nat).

(** The backend has written [ws]; its contents are [content ws]. *)
Definition bk_ok (ws : list write) (b : DbBackend) (d : Dir) : Prop :=
  stores_writes backend_options D ws (bk_db b) d.

Lemma expect_ok {A} (m : IO A) d a fs : m d = (Ok a, fs) → expect m d = (Ok a, fs).
Proof. intros Hm. unfold expect. by rewrite Hm. Qed.

(** The limit is compared after a row is taken, so 0 is no less than 1. *)
Lemma scan_loop_zero fuel d start end_ it out :
  scan_loop fuel d start end_ 0 it out = scan_loop fuel d start end_ 1 it out.
Proof.
  revert it out. induction fuel as [|fuel IH]; intros it out; [done|]. cbn [scan_loop].
  destruct (visible_next _ d it) as [[[[k [v|]]|] it']|]; try done; cbn; rewrite !IH; [|done].
  assert ((1 <=? N.of_nat (length (out ++ [(k, v)]))) = true) as ->; [|by destruct (0 <=? _) eqn:H0; [|apply N.leb_gt in H0; lia]].
  apply N.leb_le. rewrite length_app. simpl. lia.
Qed.

(** The rows that the engine scans for: one at least. *)
Definition scan_count (limit : N) : nat := N.to_nat (N.max 1 limit).

Lemma bk_reads ws b d :
  bk_ok ws b d →
  (∀ key, db_get (bk_db b) key d = Ok (content ws !! key)) ∧
  (∀ start end_ limit,
    db_scan (bk_db b) start end_ limit d = Ok (take (scan_count limit) (kv_range (content ws) start end_))).
Proof.
  intros Hs. destruct (stores_serves _ _ _ _ _ Hs) as [Hseq Hr].
  destruct (Hr _ (or_introl eq_refl)) as [Hg Hsc]. unfold db_get, db_scan. rewrite Hseq in *. split; [done|].
  intros start end_ limit. unfold scan_count. destruct (decide (limit = 0)) as [->|].
  - rewrite N.max_l, <-Hsc by lia. unfold scan_at. apply scan_loop_zero.
  - rewrite N.max_r by lia. apply Hsc. lia.
Qed.

Lemma range_all m : kv_range m [] None = bt_iter bytes_cmp m.
Proof.
  unfold kv_range. apply filter_all. intros [k v] _. split; [|done]. by destruct k.
Qed.

Lemma load_rows_map m kvs : foldl apply_write m (load_rows (bt_iter bytes_cmp m) kvs) = collect_map kvs.
Proof.
  unfold load_rows. rewrite foldl_app.
  assert (foldl apply_write m ((λ kv, (kv.1, None)) <$> bt_iter bytes_cmp m) = ∅) as ->.
  { apply map_eq. intros k. rewrite lookup_empty.
    pose proof (deletes_lookup m ((bt_iter bytes_cmp m).*1) k) as Hd. rewrite <-list_fmap_compose in Hd.
    unfold compose in Hd. rewrite Hd. case_decide as Hk; [done|].
    destruct (m !! k) as [v|] eqn:Hv; [|done]. exfalso. apply Hk.
    apply (elem_of_bt_iter bytes_cmp) in Hv. by apply (list_elem_of_fmap_2 fst) in Hv. }
  unfold collect_map. generalize (∅ : gmap bytes bytes). induction kvs as [|kv kvs IH]; intros m0; csimpl; [done|].
  apply IH.
Qed.

Lemma bk_write ws b d ops :
  bk_ok ws b d → room backend_options D (ws ++ ops) → fits (mkBatch (db_seq (bk_db b) + 1) ops) →
  ∃ n, ∀ fuel, (n <= fuel)%nat → ∃ s db fs,
    expect (write_batch fuel ops (bk_db b)) d = (Ok (s, db), fs)
    ∧ bk_ok (ws ++ ops) (mkDbBackend db) (apply_ops d fs).
Proof.
  intros Hs Hroom Hfit. destruct (write_batch_spec _ _ _ _ _ _ Hs Hroom Hfit) as [n Hn].
  exists n. intros fuel Hf. destruct (Hn fuel Hf) as (db & fs & Hw & Hs' & _).
  eexists _, db, fs. split; [by apply expect_ok|done].
Qed.

(** C23: The backend keeps the contract of the [Backend] trait, but for scans of no
    rows. While the engine has room for the rows written, no operation panics:
    lookups, dumps and range scans answer from the map the backend holds, [set]
    updates that map (no value deletes the key), and [clear_and_load] replaces it by
    the given pairs. A scan answers the first [limit] rows of the range if [limit]
    is positive. With limit 0 it answers one row if there is one, where the backend
    in memory answers none. *)
Theorem db_backend_is_a_map ws b d :
  bk_ok ws b d → N.of_nat (size (content ws)) < 2 ^ 64 →
  (∀ key, bk_get b key d = (Ok (content ws !! key), [])) ∧
  (∀ start end_ limit,
    bk_scan b start end_ limit d = (Ok (take (N.to_nat (N.max 1 limit)) (kv_range (content ws) start end_)), [])) ∧
  (∀ start end_ kv rest, kv_range (content ws) start end_ = kv :: rest →
    bk_scan b start end_ 0 d = (Ok [kv], []) ∧ b_scan (mkMem (content ws)) start end_ 0 = []) ∧
  bk_dump b d = (Ok (bt_iter bytes_cmp (content ws)), []) ∧
  (∀ key value, room backend_options D (ws ++ [(key, value)]) →
    fits (mkBatch (db_seq (bk_db b) + 1) [(key, value)]) →
    ∃ n, ∀ fuel, (n <= fuel)%nat → ∃ b' fs, bk_set fuel key value b d = (Ok b', fs)
      ∧ bk_ok (ws ++ [(key, value)]) b' (apply_ops d fs)
      ∧ content (ws ++ [(key, value)]) = kv_set (content ws) key value) ∧
  (∀ kvs, let ops := load_rows (bt_iter bytes_cmp (content ws)) kvs in
    room backend_options D (ws ++ ops) → fits (mkBatch (db_seq (bk_db b) + 1) ops) →
    ∃ n, ∀ fuel, (n <= fuel)%nat → ∃ b' fs, bk_clear_and_load fuel kvs b d = (Ok b', fs)
      ∧ bk_ok (ws ++ ops) b' (apply_ops d fs) ∧ content (ws ++ ops) = collect_map kvs).
Proof.
  intros Hs Hsize. destruct (bk_reads _ _ _ Hs) as [Hg Hsc].
  assert (bk_dump b d = (Ok (bt_iter bytes_cmp (content ws)), [])) as Hdump.
  { apply expect_ok. unfold reads. rewrite Hsc, range_all, take_ge; [done|].
    rewrite (Permutation_length (bt_iter_perm bytes_cmp _)), length_map_to_list. unfold scan_count, usize_max. lia. }
  split_and!; [intros; apply expect_ok; unfold reads; by rewrite ?Hg, ?Hsc..| |done| |].
  - intros start end_ kv rest Hr. split; [|done]. apply expect_ok. unfold reads. by rewrite Hsc, Hr.
  - intros key value Hroom Hfit. destruct (bk_write _ _ _ _ Hs Hroom Hfit) as [n Hn]. exists n. intros fuel Hf.
    destruct (Hn fuel Hf) as (s & db & fs & Hw & Hs'). exists (mkDbBackend db), fs. split_and!; [|done|].
    + unfold bk_set. rewrite <-(app_nil_r fs). by eapply io_bind_intro; [exact Hw|].
    + rewrite content_app. simpl. unfold apply_write, kv_set. by destruct value.
  - intros kvs ops Hroom Hfit. destruct (bk_write _ _ _ _ Hs Hroom Hfit) as [n Hn]. exists n. intros fuel Hf.
    assert (content (ws ++ ops) = collect_map kvs) as Hmap by (rewrite content_app; apply load_rows_map).
    unfold bk_clear_and_load. rewrite (io_bind_ok _ _ _ _ _ Hdump). cbv beta zeta. fold ops.
    destruct (decide (ops = [])) as [He|Hne].
    + rewrite He in Hmap |- *. rewrite !app_nil_r in *. by exists b, [].
    + destruct (Hn fuel Hf) as (s & db & fs & Hw & Hs'). exists (mkDbBackend db), fs. split_and!; [|done|done].
      assert ((expect (write_batch fuel ops (bk_db b)) ≫= λ '(_, db), mret (mkDbBackend db)) d
        = (Ok (mkDbBackend db), fs)) as Hrun.
      { rewrite <-(app_nil_r fs). by eapply io_bind_intro; [exact Hw|]. }
      destruct ops as [|o ops']; [done|]. rewrite <-surjective_pairing. exact Hrun.
Qed.
End backend.

(** ** A concrete backend *)

Section concrete_backend.
  #[local] Existing Instances end_crc demo_wal_codec demo_table_codec demo_catalog_codec.
  #[local] Existing Instances demo_wal_laws demo_table_laws demo_catalog_laws.

Definition new_backend : DbBackend := mkDbBackend (new_db backend_options).

Lemma db_backend_is_a_map_witness :
  bk_dump new_backend new_dir = (Ok [], []) ∧
  ∃ n, ∀ fuel, (n <= fuel)%nat → ∃ b' fs, bk_set fuel [x61] (Some [x01]) new_backend new_dir = (Ok b', fs)
    ∧ bk_ok 1 [([x61], Some [x01])] b' (apply_ops new_dir fs)
    ∧ content [([x61], Some [x01])] = kv_set ∅ [x61] (Some [x01]).
Proof.
  destruct (db_backend_is_a_map 1 [] new_backend new_dir) as (_ & _ & _ & Hdump & Hset & _).
  - eexists _, _, _, _. apply new_db_ok.
  - vm_compute. reflexivity.
  - split; [exact Hdump|]. apply Hset.
    + apply room_single; vm_compute; try done; repeat constructor.
    + vm_compute. reflexivity.
Defined.
End concrete_backend.
