(* ===== verification/Proto.v ===== *)
(** * The wire protocol

    crates/proto/src/lib.rs: the request, response and peer messages, and frames
    of a length prefix and a serialized message with their 64 MiB cap; and the
    peer connections of crates/server/src/net.rs, which carry a [Hello] and then
    raft messages. A connection is the sequence of bytes its writer sent before it
    was cut. *)

From S2P Require Import Prelude Codec Wal RaftTypes.
From stdpp Require Import strings.
Local Open Scope N_scope.

(** ** Messages *)

Inductive PeerFrame :=
| Hello (from : NodeId)
| Msg (m : Message).

Inductive Consistency := Linearizable | LeaderLease | Stale.

Inductive Request :=
| ReqPut (session_id seq : N) (key value : bytes)
| ReqDelete (session_id seq : N) (key : bytes)
| ReqCas (session_id seq : N) (key : bytes) (expect new : option bytes)
| ReqGet (key : bytes) (consistency : Consistency)
| ReqScan (start : bytes) (end_ : option bytes) (limit : N) (consistency : Consistency)
| ReqStatus.

Inductive Response :=
| RespOk
| RespValue (v : option bytes)
| RespCas (success : bool) (actual : option bytes)
| RespKvs (kvs : list (bytes * bytes))
| RespNotLeader (hint : option NodeId)
| RespRetry (reason : string)
| RespStatus (id : NodeId) (role : string) (term : Term) (leader : option NodeId)
    (commit applied last_log_index : Index) (voters : list NodeId)
| RespErr (e : string).

#[export] Instance PeerFrame_eq_dec : EqDecision PeerFrame.
Proof. solve_decision. Defined.
#[export] Instance Consistency_eq_dec : EqDecision Consistency.
Proof. solve_decision. Defined.
#[export] Instance Request_eq_dec : EqDecision Request.
Proof. solve_decision. Defined.
#[export] Instance Response_eq_dec : EqDecision Response.
Proof. solve_decision. Defined.

#[export] Instance PeerFrame_countable : Countable PeerFrame.
Proof.
  refine (inj_countable' (λ f, match f with Hello i => inl i | Msg m => inr m end)
    (λ s, match s with inl i => Hello i | inr m => Msg m end) _). by intros [].
Defined.
#[export] Instance Consistency_countable : Countable Consistency.
Proof.
  refine (inj_countable' (λ c, match c with Linearizable => None | LeaderLease => Some false | Stale => Some true end)
    (λ o, match o with None => Linearizable | Some false => LeaderLease | Some true => Stale end) _). by intros [].
Defined.
#[export] Instance Request_countable : Countable Request.
Proof.
  refine (inj_countable'
    (λ r, match r with
      | ReqPut s q k v => inl (inl (s, q, k, v))
      | ReqDelete s q k => inl (inr (s, q, k))
      | ReqCas s q k e n => inr (inl (inl (s, q, k, e, n)))
      | ReqGet k c => inr (inl (inr (k, c)))
      | ReqScan s e l c => inr (inr (Some (s, e, l, c)))
      | ReqStatus => inr (inr None)
      end)
    (λ s, match s with
      | inl (inl (s, q, k, v)) => ReqPut s q k v
      | inl (inr (s, q, k)) => ReqDelete s q k
      | inr (inl (inl (s, q, k, e, n))) => ReqCas s q k e n
      | inr (inl (inr (k, c))) => ReqGet k c
      | inr (inr (Some (s, e, l, c))) => ReqScan s e l c
      | inr (inr None) => ReqStatus
      end) _).
  by intros [].
Defined.
#[export] Instance Response_countable : Countable Response.
Proof.
  refine (inj_countable'
    (λ r, match r with
      | RespOk => inl (inl (inl tt))
      | RespValue v => inl (inl (inr v))
      | RespCas s a => inl (inr (inl (s, a)))
      | RespKvs kvs => inl (inr (inr kvs))
      | RespNotLeader h => inr (inl (inl h))
      | RespRetry r => inr (inl (inr r))
      | RespStatus i ro t l c a ll v => inr (inr (inl (i, ro, t, l, c, a, ll, v)))
      | RespErr e => inr (inr (inr e))
      end)
    (λ s, match s with
      | inl (inl (inl _)) => RespOk
      | inl (inl (inr v)) => RespValue v
      | inl (inr (inl (s, a))) => RespCas s a
      | inl (inr (inr kvs)) => RespKvs kvs
      | inr (inl (inl h)) => RespNotLeader h
      | inr (inl (inr r)) => RespRetry r
      | inr (inr (inl (i, ro, t, l, c, a, ll, v))) => RespStatus i ro t l c a ll v
      | inr (inr (inr e)) => RespErr e
      end) _).
  by intros [].
Defined.

(** ** Frames *)

(** The kinds of [std::io::Error] that framing reports. *)
Inductive FrameError := InvalidData | Truncated.

Definition MAX_FRAME : N := N.shiftl 64 20.

Section frames.
  Context {T : Type} {ct : Bincode T}.

(** The bytes written; [body.len() as u32] wraps. *)
Definition write_frame (msg : T) : Result bytes FrameError :=
  let body := serialize msg in
  let len := wrap 32 (N.of_nat (length body)) in
  if MAX_FRAME <? len then Err InvalidData else Ok (u32_le len ++ body).

(** The next message of the bytes left on a connection, and the bytes after it;
    [None] when the connection ends before a length prefix is complete. *)
Definition read_frame (stream : bytes) : Result (option (T * bytes)) FrameError :=
  if (length stream <? 4)%nat then Ok None
  else
    let len := from_le (take 4 stream) in
    if MAX_FRAME <? len then Err InvalidData
    else
      let rest := drop 4 stream in
      if N.of_nat (length rest) <? len then Err Truncated
      else
        match deserialize (take (N.to_nat len) rest) with
        | None => Err InvalidData
        | Some msg => Ok (Some (msg, drop (N.to_nat len) rest))
        end.

(** Reading until the connection ends. *)
Fixpoint read_frames (fuel : nat) (stream : bytes) : list T * option FrameError :=
  match fuel with
  | O => ([], None)
  | S fuel =>
    match read_frame stream with
    | Ok None => ([], None)
    | Err e => ([], Some e)
    | Ok (Some (msg, stream)) => let '(msgs, e) := read_frames fuel stream in (msg :: msgs, e)
    end
  end.

(** All that a reader gets from the bytes of a connection: a frame has at least
    four bytes, so there are fewer frames than bytes. *)
Definition receive (stream : bytes) : list T * option FrameError := read_frames (S (length stream)) stream.

(** The bytes of a connection on which [msgs] were written, up to the first one
    that is refused. *)
Fixpoint send_all (msgs : list T) : bytes :=
  match msgs with
  | [] => []
  | msg :: msgs => match write_frame msg with Ok bs => bs ++ send_all msgs | Err _ => [] end
  end.

(** ** What arrives *)

(** A message within the cap. *)
Definition sendable (msg : T) : Prop := N.of_nat (length (serialize msg)) ≤ MAX_FRAME.

Lemma write_frame_ok msg :
  sendable msg → write_frame msg = Ok (u32_le (N.of_nat (length (serialize msg))) ++ serialize msg).
Proof.
  intros Hs. unfold write_frame, sendable in *. assert (MAX_FRAME < 2 ^ 32) by (by vm_compute).
  unfold wrap. rewrite N.mod_small by lia. destruct (N.ltb_spec MAX_FRAME (N.of_nat (length (serialize msg)))); [lia|done].
Qed.

Lemma frame_prefix msg bs :
  sendable msg →
  let len := N.of_nat (length (serialize msg)) in
  from_le (take 4 (u32_le len ++ bs)) = len ∧ drop 4 (u32_le len ++ bs) = bs.
Proof.
  intros Hs len. assert (4%nat = length (u32_le len)) as Hl by (symmetry; apply length_to_le).
  assert (MAX_FRAME < 2 ^ 32) by (by vm_compute). unfold sendable in Hs. fold len in Hs.
  rewrite take_app_length' by done. rewrite drop_app_length' by done. split; [|done].
  apply from_u32_le. lia.
Qed.

  Context {lt : BincodeLaws T}.

Lemma read_frame_ok msg rest :
  sendable msg →
  read_frame (u32_le (N.of_nat (length (serialize msg))) ++ serialize msg ++ rest) = Ok (Some (msg, rest)).
Proof.
  intros Hs. unfold read_frame. destruct (frame_prefix msg (serialize msg ++ rest) Hs) as [-> ->].
  rewrite !length_app. unfold u32_le at 1. rewrite length_to_le.
  destruct (Nat.ltb_spec (4 + (length (serialize msg) + length rest)) 4); [lia|].
  unfold sendable in Hs. destruct (N.ltb_spec MAX_FRAME (N.of_nat (length (serialize msg)))); [lia|].
  destruct (N.ltb_spec (N.of_nat (length (serialize msg) + length rest)) (N.of_nat (length (serialize msg)))); [lia|].
  by rewrite Nat2N.id, take_app_length, deserialize_serialize, drop_app_length.
Qed.

(** A frame that was cut short: nothing is delivered. *)
Lemma read_frame_cut msg n :
  sendable msg → (n < 4 + length (serialize msg))%nat →
  let r := read_frame (take n (u32_le (N.of_nat (length (serialize msg))) ++ serialize msg)) in
  r = Ok None ∨ r = Err Truncated.
Proof.
  intros Hs Hn r. set (len := N.of_nat (length (serialize msg))) in *. subst r. unfold read_frame.
  assert (length (u32_le len) = 4%nat) as Hl by apply length_to_le.
  rewrite length_take, length_app, Hl, Nat.min_l by lia.
  destruct (Nat.ltb_spec n 4) as [|H4]; [by left|right].
  rewrite take_app_ge by lia. rewrite Hl. destruct (frame_prefix msg (take (n - 4) (serialize msg)) Hs) as [Ht Hd].
  fold len in Ht, Hd. rewrite Ht, Hd. unfold sendable in Hs. fold len in Hs.
  destruct (N.ltb_spec MAX_FRAME len); [lia|]. rewrite length_take.
  destruct (N.ltb_spec (N.of_nat (Nat.min (n - 4) (length (serialize msg)))) len); [done|lia].
Qed.

(** Whole frames are read until the first one that is cut short. *)
Lemma read_frames_prefix msgs n fuel :
  Forall sendable msgs → (length (take n (send_all msgs)) < fuel)%nat →
  ∃ j e, read_frames fuel (take n (send_all msgs)) = (take j msgs, e) ∧ (e = None ∨ e = Some Truncated) ∧
    ∀ i, (i <= length msgs)%nat → (i <= j)%nat ↔ (length (send_all (take i msgs)) <= n)%nat.
Proof.
  intros Hs. revert n fuel. induction Hs as [|msg msgs Hm Hs IH]; intros n fuel Hf.
  { exists 0%nat, None. cbn [send_all] in *. rewrite take_nil. split_and!; [by destruct fuel|by left|].
    intros [|i] Hi; simpl in *; lia. }
  destruct fuel as [|fuel]; [lia|]. cbn [send_all read_frames] in *. rewrite write_frame_ok in * by done.
  set (fr := u32_le (N.of_nat (length (serialize msg))) ++ serialize msg) in *.
  assert (length fr = (4 + length (serialize msg))%nat) as Hlen.
  { unfold fr. rewrite length_app. unfold u32_le. by rewrite length_to_le. }
  assert (∀ i, send_all (take (S i) (msg :: msgs)) = fr ++ send_all (take i msgs)) as Hsend.
  { intros i. cbn [take send_all]. by rewrite write_frame_ok by done. }
  rewrite take_app in *. destruct (decide (n < length fr)%nat) as [Hlt|Hge].
  - exists 0%nat. replace (n - length fr)%nat with 0%nat by lia. rewrite take_0, app_nil_r.
    destruct (read_frame_cut msg n Hm ltac:(lia)) as [Hr|Hr]; fold fr in Hr; rewrite Hr;
      eexists; (split_and!; [done|auto|]); intros [|i] _; [simpl; lia|rewrite Hsend, length_app; lia|simpl; lia|rewrite Hsend, length_app; lia].
  - rewrite (take_ge fr) in * by lia. rewrite length_app in Hf.
    destruct (IH (n - length fr)%nat fuel ltac:(lia)) as (j & e & Hr & He & Hj).
    exists (S j), e. unfold fr at 1. rewrite <-app_assoc, read_frame_ok by done. rewrite Hr. split_and!; [done..|].
    intros [|i] Hle; [simpl; lia|]. rewrite Hsend, length_app. simpl in Hle. specialize (Hj i ltac:(lia)). lia.
Qed.

(** C36: A connection delivers a prefix. However many bytes of the frames of
    [msgs] arrive before a connection is cut, the reader gets exactly the messages
    whose frames are complete, in order, and ends with no error or with a
    truncated frame, never with a wrong message. *)
Theorem frames_prefix msgs n :
  Forall sendable msgs →
  ∃ j e, receive (take n (send_all msgs)) = (take j msgs, e) ∧ (e = None ∨ e = Some Truncated) ∧
    ∀ i, (i <= length msgs)%nat → (i <= j)%nat ↔ (length (send_all (take i msgs)) <= n)%nat.
Proof. intros Hs. apply read_frames_prefix; [done|lia]. Qed.

Lemma read_frame_send msg msgs :
  sendable msg → read_frame (send_all (msg :: msgs)) = Ok (Some (msg, send_all msgs)).
Proof. intros Hs. cbn [send_all]. rewrite write_frame_ok by done. rewrite <-app_assoc. by apply read_frame_ok. Qed.

Lemma length_send_all msgs : Forall sendable msgs → (4 * length msgs <= length (send_all msgs))%nat.
Proof.
  induction 1 as [|msg msgs Hm Hs IH]; cbn [send_all length]; [lia|]. rewrite write_frame_ok by done.
  rewrite !length_app. unfold u32_le. rewrite length_to_le. lia.
Qed.

(** A connection that is not cut delivers everything. *)
Lemma receive_send_all msgs : Forall sendable msgs → receive (send_all msgs) = (msgs, None).
Proof.
  intros Hs. unfold receive. pose proof (length_send_all msgs Hs) as Hl.
  assert (length msgs < S (length (send_all msgs)))%nat as Hf by lia. revert Hf. generalize (S (length (send_all msgs))).
  clear Hl. induction Hs as [|msg msgs Hm Hs IH]; intros [|fuel] Hf; cbn [read_frames]; [simpl in *; lia|done|simpl in *; lia|].
  simpl in Hf. rewrite read_frame_send by done. rewrite IH by lia. done.
Qed.

(** The cap is tested on the length as a [u32]: a body of 4 GiB and more passes
    when the excess is within the cap, and its prefix announces the excess only. *)
Lemma write_frame_wraps msg k :
  N.of_nat (length (serialize msg)) = 2 ^ 32 + k → k ≤ MAX_FRAME →
  write_frame msg = Ok (u32_le k ++ serialize msg).
Proof.
  intros Hl Hk. unfold write_frame. rewrite Hl. assert (MAX_FRAME < 2 ^ 32) by (by vm_compute).
  assert (wrap 32 (2 ^ 32 + k) = k) as ->.
  { unfold wrap. rewrite <-(N.mul_1_l (2 ^ 32)) at 1. rewrite N.add_comm, N.Div0.mod_add. apply N.mod_small. lia. }
  destruct (N.ltb_spec MAX_FRAME k); [lia|done].
Qed.
End frames.

(** ** Peer connections *)

Section peers.
  Context {cp : Bincode PeerFrame} {lp : BincodeLaws PeerFrame}.

(** The bytes of one outbound connection of [spawn_peer_sender]. *)
Definition peer_stream (my_id : NodeId) (msgs : list Message) : bytes :=
  send_all (Hello my_id :: (Msg <$> msgs)).

(** The messages that the loop of [peer_accept_loop] hands to the core. *)
Fixpoint pump (frames : list PeerFrame) : list Message :=
  match frames with
  | [] => []
  | Msg m :: frames => m :: pump frames
  | Hello _ :: frames => pump frames
  end.

Definition accept_peer (stream : bytes) : list Message :=
  match (receive stream).1 with
  | Hello _ :: frames => pump frames
  | _ => []
  end.

Lemma pump_msgs msgs : pump (Msg <$> msgs) = msgs.
Proof. induction msgs as [|m msgs IH]; csimpl; [done|]. by rewrite IH. Qed.

(** A peer connection delivers its messages in order up to where it is cut. *)
Lemma peer_delivers_prefix my_id msgs n :
  Forall sendable (Hello my_id :: (Msg <$> msgs)) →
  ∃ j, accept_peer (take n (peer_stream my_id msgs)) = take j msgs.
Proof.
  intros Hs. unfold accept_peer, peer_stream.
  destruct (read_frames_prefix _ n (S (length (take n (send_all (Hello my_id :: (Msg <$> msgs)))))) Hs ltac:(lia))
    as (j & e & Hr & _). unfold receive. rewrite Hr. destruct j as [|j]; simpl.
  - by exists 0%nat.
  - exists j. by rewrite <-fmap_take, pump_msgs.
Qed.
End peers.

(** ** A concrete connection *)

Section concrete_frames.
#[local] Instance demo_frame_codec : Bincode N := countable_bincode N.
#[local] Instance demo_frame_laws : BincodeLaws N := countable_bincode_laws N.

Definition demo_msgs : list N := [5; 6; 7].

(** The last message loses its last byte. *)
Lemma frames_prefix_witness :
  let n := (length (send_all demo_msgs) - 1)%nat in
  receive (take n (send_all demo_msgs)) = (take 2 demo_msgs, Some Truncated) ∧
  ∃ j e, receive (take n (send_all demo_msgs)) = (take j demo_msgs, e) ∧ (e = None ∨ e = Some Truncated) ∧
    ∀ i, (i <= length demo_msgs)%nat → (i <= j)%nat ↔ (length (send_all (take i demo_msgs)) <= n)%nat.
Proof.
  intros n. split; [vm_compute; reflexivity|]. apply (frames_prefix demo_msgs n).
  repeat constructor; vm_compute; discriminate.
Defined.
End concrete_frames.
