(* ===== verification/Net.v ===== *)
(** * Connections of a server

    crates/server/src/net.rs: the task that dials a peer and writes the messages
    of its queue, the pipes to all peers, and the task that serves one client
    connection. What the operating system decides (the clock, whether a dial
    succeeds, after how many bytes a write fails) is an argument of each step. *)

From S2P Require Import Prelude Codec Wal RaftTypes Proto.
From stdpp Require Import strings.
Local Open Scope N_scope.

(** Milliseconds. *)
Definition RECONNECT_COOLDOWN : N := 500.

(** ** The outbound pipe to one peer *)

(** [sd_conn]: the open connection, as the bytes written on it; [sd_closed]: the
    bytes of the connections before it; [sd_dials]: when the peer was dialed. *)
Record sender := mkSender {
  sd_conn : option bytes;
  sd_last_attempt : option N;
  sd_closed : list bytes;
  sd_dials : list N;
}.

(** What one turn of the loop meets: the clock when the cooldown is tested and when
    the attempt is noted, whether the dial succeeds within its timeout, and after
    how many bytes the writes of the greeting and of the message fail, if they do. *)
Record turn_env := mkTurnEnv {
  te_check : N;
  te_now : N;
  te_connects : bool;
  te_hello_fails : option nat;
  te_msg_fails : option nat;
}.

Section sender.
  Context {cp : Bincode PeerFrame} {lp : BincodeLaws PeerFrame}.
  Variable my_id : NodeId.

(** [write_frame] on a connection: the bytes that left and whether it succeeded. *)
Definition write_on (fr : PeerFrame) (fails : option nat) : bytes * bool :=
  match write_frame fr with
  | Err _ => ([], false)
  | Ok bs => match fails with None => (bs, true) | Some n => (take n bs, false) end
  end.

(** A frame written on a connection that carried [st]. *)
Definition write_conn (fr : PeerFrame) (fails : option nat) (st : bytes) (s : sender) : sender :=
  let '(bs, ok) := write_on fr fails in
  if ok then mkSender (Some (st ++ bs)) (sd_last_attempt s) (sd_closed s) (sd_dials s)
  else mkSender None (sd_last_attempt s) (sd_closed s ++ [st ++ bs]) (sd_dials s).

Definition may_dial (e : turn_env) (s : sender) : bool :=
  match sd_last_attempt s with None => true | Some t => RECONNECT_COOLDOWN <=? te_check e - t end.

Definition dial (e : turn_env) (s : sender) : sender :=
  let s := mkSender None (Some (te_now e)) (sd_closed s) (sd_dials s ++ [te_now e]) in
  if te_connects e then write_conn (Hello my_id) (te_hello_fails e) [] s else s.

(** One message of the queue. *)
Definition send_peer (msg : Message) (e : turn_env) (s : sender) : sender :=
  let s := match sd_conn s with None => if may_dial e s then dial e s else s | Some _ => s end in
  match sd_conn s with
  | Some st => write_conn (Msg msg) (te_msg_fails e) st s
  | None => s
  end.

Definition sender_new : sender := mkSender None None [] [].

Definition spawn_peer_sender (queue : list (Message * turn_env)) : sender :=
  foldl (λ s me, send_peer me.1 me.2 s) sender_new queue.

(** The bytes of every connection, in the order of dialing. *)
Definition streams (s : sender) : list bytes := sd_closed s ++ option_list (sd_conn s).

(** ** What arrives at the peer *)

(** A connection that carried messages [b], the last of them perhaps in part. *)
Definition carries (st : bytes) (b : list Message) : Prop :=
  Forall sendable (Hello my_id :: (Msg <$> b)) ∧ ∃ n, st = take n (peer_stream my_id b).

Definition carries_all (st : bytes) (b : list Message) : Prop :=
  Forall sendable (Hello my_id :: (Msg <$> b)) ∧ st = peer_stream my_id b.

(** The connections so far carried disjoint parts of [msgs], in order. *)
Definition sender_inv (msgs : list Message) (s : sender) : Prop :=
  ∃ bs, Forall2 carries (sd_closed s) bs ∧
    match sd_conn s with
    | None => concat bs `sublist_of` msgs
    | Some st => ∃ b, carries_all st b ∧ (concat bs ++ b) `sublist_of` msgs
    end.

Lemma send_all_app {T} `{Bincode T} (xs ys : list T) :
  Forall sendable xs → send_all (xs ++ ys) = send_all xs ++ send_all ys.
Proof.
  induction 1 as [|x xs Hx Hxs IH]; simpl; [done|]. rewrite write_frame_ok by done. by rewrite IH, <-!app_assoc.
Qed.

(** A frame below 4 GiB is refused, or it is within the cap. *)
Lemma write_on_spec fr fails :
  N.of_nat (length (serialize fr)) < 2 ^ 32 →
  (sendable fr ∧ write_on fr fails = match fails with None => (send_all [fr], true) | Some n => (take n (send_all [fr]), false) end)
  ∨ write_on fr fails = ([], false).
Proof.
  intros Hl. unfold write_on, sendable, write_frame. simpl. unfold write_frame, wrap. rewrite N.mod_small by done.
  destruct (N.ltb_spec MAX_FRAME (N.of_nat (length (serialize fr)))); [by right|left].
  split; [lia|]. rewrite app_nil_r. by destruct fails.
Qed.

Lemma carries_all_carries st b : carries_all st b → carries st b.
Proof. intros [Hs ->]. split; [done|]. exists (length (peer_stream my_id b)). by rewrite take_ge. Qed.

Lemma write_msg_inv msgs msg fails st s :
  N.of_nat (length (serialize (Msg msg))) < 2 ^ 32 → sd_conn s = Some st → sender_inv msgs s →
  sender_inv (msgs ++ [msg]) (write_conn (Msg msg) fails st s).
Proof.
  intros Hl Hc (bs & Hcl & Hin). rewrite Hc in Hin. destruct Hin as (b & [Hb ->] & Hsub). unfold write_conn.
  assert (sendable (Msg msg) → Forall sendable (Hello my_id :: (Msg <$> (b ++ [msg])))
    ∧ peer_stream my_id (b ++ [msg]) = peer_stream my_id b ++ send_all [Msg msg]) as Hext.
  { intros Hm. rewrite fmap_app, app_comm_cons. split; [apply Forall_app_2; [done|by constructor]|].
    unfold peer_stream. rewrite fmap_app, app_comm_cons. by apply send_all_app. }
  assert ((concat bs ++ b ++ [msg]) `sublist_of` (msgs ++ [msg])) as Hsub'.
  { rewrite app_assoc. by apply sublist_app. }
  destruct (write_on_spec (Msg msg) fails Hl) as [[Hm ->]| ->].
  - destruct (Hext Hm) as [Hall Hstr]. destruct fails as [n|].
    + exists (bs ++ [b ++ [msg]]). cbn [sd_closed sd_conn]. rewrite concat_app. cbn [concat]. rewrite app_nil_r.
      split; [|done]. apply Forall2_app; [done|]. constructor; [|done]. split; [done|].
      exists (length (peer_stream my_id b) + n)%nat. by rewrite Hstr, take_app_add.
    + exists bs. cbn [sd_closed sd_conn]. split; [done|]. exists (b ++ [msg]). by rewrite <-Hstr.
  - exists (bs ++ [b]). simpl. rewrite concat_app, app_nil_r. simpl. rewrite app_nil_r. split.
    + apply Forall2_app; [done|]. constructor; [|done]. by apply carries_all_carries.
    + by apply sublist_inserts_r.
Qed.

Lemma dial_inv msgs e s :
  sendable (Hello my_id) → sd_conn s = None → sender_inv msgs s → sender_inv msgs (dial e s).
Proof.
  intros Hh Hc (bs & Hcl & Hsub). rewrite Hc in Hsub. unfold dial. destruct (te_connects e); [|by exists bs].
  unfold write_conn, write_on. rewrite write_frame_ok by done. set (fr := _ ++ _ : bytes).
  assert (peer_stream my_id [] = fr) as Hstr.
  { unfold peer_stream. simpl. by rewrite write_frame_ok, app_nil_r. }
  destruct (te_hello_fails e) as [n|]; cbn [sd_closed sd_conn app].
  - exists (bs ++ [[]]). cbn [sd_closed sd_conn]. rewrite concat_app, app_nil_r. split; [|done].
    apply Forall2_app; [done|]. constructor; [|done]. split; [by constructor|]. exists n. by rewrite Hstr.
  - exists bs. split; [done|]. exists []. rewrite app_nil_r. split; [|done]. split; [by constructor|done].
Qed.

Lemma send_peer_inv msgs msg e s :
  sendable (Hello my_id) → N.of_nat (length (serialize (Msg msg))) < 2 ^ 32 →
  sender_inv msgs s → sender_inv (msgs ++ [msg]) (send_peer msg e s).
Proof.
  intros Hh Hl Hi. unfold send_peer. set (s1 := match sd_conn s with None => _ | Some _ => s end).
  assert (sender_inv msgs s1) as Hi1.
  { subst s1. destruct (sd_conn s) eqn:Hc; [done|]. destruct (may_dial e s); [by apply dial_inv|done]. }
  destruct (sd_conn s1) as [st|] eqn:Hc; [by apply write_msg_inv|].
  destruct Hi1 as (bs & Hcl & Hsub). exists bs. rewrite Hc in *. split; [done|]. by apply sublist_inserts_r.
Qed.

Lemma spawn_inv queue msgs s :
  sendable (Hello my_id) → Forall (λ m, N.of_nat (length (serialize (Msg m))) < 2 ^ 32) queue.*1 →
  sender_inv msgs s → sender_inv (msgs ++ queue.*1) (foldl (λ s me, send_peer me.1 me.2 s) s queue).
Proof.
  intros Hh. revert msgs s. induction queue as [|[m e] queue IH]; intros msgs s Hl Hi; [by rewrite app_nil_r|].
  apply Forall_cons in Hl as [Hm Hl]. cbn [foldl fmap list_fmap]. rewrite cons_middle, app_assoc.
  apply IH; [done|]. by apply send_peer_inv.
Qed.

Lemma carries_arrives st b n : carries st b → accept_peer (take n st) `prefix_of` b.
Proof.
  intros [Hs [k ->]]. rewrite take_take. destruct (peer_delivers_prefix my_id b (Nat.min n k) Hs) as [j ->].
  exists (drop j b). by rewrite take_drop.
Qed.

(** C40: What a peer gets. Whatever dials fail and wherever writes fail, the
    connections to a peer carry disjoint parts of the queue in its order: cut
    anywhere, each hands its receiver a prefix of its part, so that no message is
    altered, repeated or reordered on a connection, and none is sent twice. A
    message that is dropped is lost, which the protocol tolerates. *)
Theorem peer_gets_parts queue :
  sendable (Hello my_id) → Forall (λ m, N.of_nat (length (serialize (Msg m))) < 2 ^ 32) queue.*1 →
  ∃ parts, concat parts `sublist_of` queue.*1 ∧
    Forall2 (λ st part, ∀ n, accept_peer (take n st) `prefix_of` part) (streams (spawn_peer_sender queue)) parts.
Proof.
  intros Hh Hl. destruct (spawn_inv queue [] sender_new Hh Hl) as (bs & Hcl & Hc).
  { exists []. split; [by apply Forall2_nil|apply sublist_nil_l]. }
  rewrite app_nil_l in Hc. unfold streams. fold (spawn_peer_sender queue) in *.
  assert (Forall2 (λ st part, ∀ n, accept_peer (take n st) `prefix_of` part) (sd_closed (spawn_peer_sender queue)) bs)
    as Hcl' by (eapply Forall2_impl; [done|]; intros st b Hst n; by apply carries_arrives).
  destruct (sd_conn _) as [st|]; simpl.
  - destruct Hc as (b & Hb & Hsub). exists (bs ++ [b]). rewrite concat_app. simpl. rewrite app_nil_r. split; [done|].
    apply Forall2_app; [done|]. constructor; [|done]. intros n. by apply carries_arrives, carries_all_carries.
  - exists bs. by rewrite app_nil_r.
Qed.

(** A down peer costs one attempt per cooldown: attempts are spaced by it. *)
Definition spaced (dials : list N) : Prop := ∀ i t t',
  dials !! i = Some t → dials !! S i = Some t' → t + RECONNECT_COOLDOWN ≤ t'.

Lemma spaced_snoc dials t :
  spaced dials → (∀ t0, last dials = Some t0 → t0 + RECONNECT_COOLDOWN ≤ t) → spaced (dials ++ [t]).
Proof.
  intros Hs Hl i a b Ha Hb. apply lookup_app_Some in Hb as [Hb|[Hle Hb]].
  - apply (Hs i); [|done]. rewrite lookup_app_l in Ha; [done|]. apply lookup_lt_Some in Hb. lia.
  - apply list_lookup_singleton_Some in Hb as [Hi <-]. apply Hl. rewrite last_lookup.
    rewrite lookup_app_l in Ha by lia. by replace (pred (length dials)) with i by lia.
Qed.

Lemma write_conn_dials fr fails st s :
  sd_dials (write_conn fr fails st s) = sd_dials s
  ∧ sd_last_attempt (write_conn fr fails st s) = sd_last_attempt s.
Proof. unfold write_conn. by destruct (write_on fr fails) as [? []]. Qed.

Lemma send_peer_spaced msg e s :
  te_check e ≤ te_now e → spaced (sd_dials s) → last (sd_dials s) = sd_last_attempt s →
  spaced (sd_dials (send_peer msg e s)) ∧ last (sd_dials (send_peer msg e s)) = sd_last_attempt (send_peer msg e s).
Proof.
  intros He Hs Hl. unfold send_peer. set (s1 := match sd_conn s with None => _ | Some _ => s end).
  assert (spaced (sd_dials s1) ∧ last (sd_dials s1) = sd_last_attempt s1) as [Hs1 Hl1].
  { subst s1. destruct (sd_conn s); [done|]. destruct (may_dial e s) eqn:Hm; [|done].
    assert (sd_dials (dial e s) = sd_dials s ++ [te_now e] ∧ sd_last_attempt (dial e s) = Some (te_now e)) as [-> ->].
    { unfold dial. destruct (te_connects e); [|done].
      by rewrite !(proj1 (write_conn_dials _ _ _ _)), !(proj2 (write_conn_dials _ _ _ _)). }
    rewrite last_snoc. split; [|done]. apply spaced_snoc; [done|]. intros t0 Ht0.
    unfold may_dial in Hm. rewrite <-Hl, Ht0 in Hm. apply N.leb_le in Hm.
    assert (0 < RECONNECT_COOLDOWN) by done. lia. }
  destruct (sd_conn s1) as [st|]; [|done]. by destruct (write_conn_dials (Msg msg) (te_msg_fails e) st s1) as [-> ->].
Qed.

(** Attempts to reach a peer are at least the cooldown apart. *)
Theorem dials_spaced queue :
  Forall (λ me, te_check me.2 ≤ te_now me.2) queue → spaced (sd_dials (spawn_peer_sender queue)).
Proof.
  unfold spawn_peer_sender. set (s := sender_new).
  assert (spaced (sd_dials s) ∧ last (sd_dials s) = sd_last_attempt s) as H by (by split).
  clearbody s. intros Hq. revert s H. induction Hq as [|[m e] queue He Hq IH]; intros s [Hs Hl]; [done|].
  simpl. by apply IH, send_peer_spaced.
Qed.
End sender.

(** ** One client connection *)

(** What becomes of a request: the core has shut down, it drops the sender, or it
    answers; then the write of the answer may fail after some bytes. *)
Inductive core_reply :=
| ShutDown
| Dropped (fails : option nat)
| Replied (r : Response) (fails : option nat).

Definition timed_out : Response := RespRetry "request timed out waiting for commit".

Section client_connection.
  Context {cq : Bincode Request} {lq : BincodeLaws Request}.
  Context {cr : Bincode Response} {lr : BincodeLaws Response}.

(** The answer and how its write ends. *)
Definition response_of (r : core_reply) : option (Response * option nat) :=
  match r with
  | ShutDown => None
  | Dropped fails => Some (timed_out, fails)
  | Replied r fails => Some (r, fails)
  end.

(** The loop over the bytes that the client sends: the requests handed to the core
    and the bytes written back. Behind the end of [replies] the core has not
    answered yet, and the loop waits. *)
Fixpoint serve_client (replies : list core_reply) (stream : bytes) : list Request * bytes :=
  match replies with
  | [] => (match read_frame stream with Ok (Some (req, _)) => [req] | _ => [] end, [])
  | reply :: replies =>
    match read_frame stream with
    | Ok None | Err _ => ([], [])
    | Ok (Some (req, stream)) =>
      match response_of reply with
      | None => ([req], [])
      | Some (resp, fails) =>
        match write_frame resp, fails with
        | Err _, _ => ([req], [])
        | Ok bs, Some n => ([req], take n bs)
        | Ok bs, None => let '(reqs, out) := serve_client replies stream in (req :: reqs, bs ++ out)
        end
      end
    end
  end.

(** The answers of replies whose writes succeed. *)
Definition answer (r : core_reply) : option Response :=
  match r with ShutDown => None | Dropped None => Some timed_out | Replied r None => Some r | _ => None end.

(** Every request of a connection is answered exactly once, in order. The
    requests that a client sends are handed to the core one after the other, and
    what it reads back is one response for each: the answer of the core, or the
    advice to retry when the core dropped the request. *)
Theorem client_requests_answered reqs replies rs :
  Forall sendable reqs → Forall sendable rs → length reqs = length replies →
  Forall2 (λ reply r, answer reply = Some r) replies rs →
  let '(handed, out) := serve_client replies (send_all reqs) in
  handed = reqs ∧ receive out = (rs, None).
Proof.
  intros Hq Hr Hl Ha.
  assert (serve_client replies (send_all reqs) = (reqs, send_all rs)) as ->.
  { revert reqs Hq Hl. induction Ha as [|reply r replies rs Hreply Ha IH]; intros [|req reqs] Hq Hl; try done.
    apply Forall_cons in Hq as [Hreq Hq], Hr as [Hr Hrs]. cbn [serve_client]. rewrite read_frame_send by done.
    injection Hl as Hl. specialize (IH Hrs reqs Hq Hl).
    assert (response_of reply = Some (r, None)) as ->.
    { destruct reply as [|[]|? []]; simplify_eq/=; done. }
    cbn [send_all]. rewrite write_frame_ok by done. by rewrite IH. }
  split; [done|]. by apply receive_send_all.
Qed.
End client_connection.

(** ** All pipes, and concrete connections *)

(** The peers that get a pipe: all but this node. *)
Definition spawn_peer_senders (my_id : NodeId) (peers : gmap NodeId string) : gset NodeId :=
  dom (filter (λ p, p.1 ≠ my_id) peers).

Section concrete_connections.
#[local] Instance demo_peer_codec : Bincode PeerFrame := countable_bincode PeerFrame.
#[local] Instance demo_peer_laws : BincodeLaws PeerFrame := countable_bincode_laws PeerFrame.
#[local] Instance demo_request_codec : Bincode Request := countable_bincode Request.
#[local] Instance demo_request_laws : BincodeLaws Request := countable_bincode_laws Request.
#[local] Instance demo_response_codec : Bincode Response := countable_bincode Response.
#[local] Instance demo_response_laws : BincodeLaws Response := countable_bincode_laws Response.

Definition vote_msg (term : Term) : Message := mkMsg 1 2 term (PreVoteResp true).

(** The first message is lost to a failed dial and the second to the cooldown; the
    third is written, the fourth is cut, and the fifth goes on a new connection. *)
Definition demo_queue : list (Message * turn_env) :=
  [(vote_msg 1, mkTurnEnv 0 0 false None None); (vote_msg 2, mkTurnEnv 100 100 true None None);
   (vote_msg 3, mkTurnEnv 600 601 true None None); (vote_msg 4, mkTurnEnv 700 700 true None (Some 5%nat));
   (vote_msg 5, mkTurnEnv 1200 1200 true None None)].

Lemma peer_gets_parts_witness :
  accept_peer <$> streams (spawn_peer_sender 1 demo_queue) = [[vote_msg 3]; [vote_msg 5]] ∧
  ∃ parts, concat parts `sublist_of` demo_queue.*1 ∧
    Forall2 (λ st part, ∀ n, accept_peer (take n st) `prefix_of` part) (streams (spawn_peer_sender 1 demo_queue)) parts.
Proof.
  split; [vm_compute; reflexivity|]. apply (peer_gets_parts 1 demo_queue); [vm_compute; discriminate|].
  repeat constructor; vm_compute; reflexivity.
Defined.

Definition demo_requests : list Request := [ReqGet [x61] Stale; ReqStatus].
Definition demo_replies : list core_reply := [Replied (RespValue None) None; Dropped None].

Lemma client_requests_answered_witness :
  let '(handed, out) := serve_client demo_replies (send_all demo_requests) in
  handed = demo_requests ∧ receive out = ([RespValue None; timed_out], None).
Proof.
  apply (client_requests_answered demo_requests demo_replies [RespValue None; timed_out]);
    [repeat constructor; vm_compute; discriminate..|reflexivity|repeat constructor].
Defined.
End concrete_connections.
