(* ===== verification/Client.v ===== *)
(** * The client

    crates/client/src/lib.rs: leader routing, retries with backoff, and the
    session and sequence numbers that make a retried write safe. The network is
    a function from the attempts of a call to their outcomes; what the client
    sends, and to whom, is the trace of a call. *)

From S2P Require Import Prelude Order Codec RaftTypes Kvsm SimBase Text Proto.
From stdpp Require Import strings.
Local Open Scope N_scope.

(** [ClientError]; an unexpected response, whose [Debug] text is a server error of
    the code, is kept as a value. *)
Inductive ClientError :=
| Unavailable (last_err : string)
| Server (e : string)
| Unexpected (r : Response).

(** Durations in milliseconds. *)
Record ClientConfig := mkClientConfig {
  cc_addrs : list string;
  cc_request_timeout : N;
  cc_max_attempts : nat;
  cc_backoff_base : N;
  cc_backoff_cap : N;
}.

(** A number of the environment, or its default. *)
Definition env_ms (env : string → option string) (name : string) (default_ : N) : N :=
  default default_ (env name ≫= parse_uint 64).

(** [ClientConfig::new] in an environment; [as u32] wraps. *)
Definition client_config_new (env : string → option string) (addrs : list string) : ClientConfig :=
  mkClientConfig addrs 8000
    (N.to_nat (wrap 32 (env_ms env "RAFTKV_MAX_ATTEMPTS" 12)))
    (env_ms env "RAFTKV_BACKOFF_BASE_MS" 50)
    (env_ms env "RAFTKV_BACKOFF_CAP_MS" 2000).

(** [conn]: the address of the open connection, if any. *)
Record KvClient := mkClient {
  kc_cfg : ClientConfig;
  kc_session_id : N;
  kc_seq : N;
  kc_target : nat;
  kc_conn : option string;
  kc_rng : N;
}.

Definition splitmix (x : N) : N :=
  (let x := (x +w 0x9E3779B97F4A7C15) in
   let x := ((x ^^ (x >>w 30)) *w 0xBF58476D1CE4E5B9) in
   let x := ((x ^^ (x >>w 27)) *w 0x94D049BB133111EB) in
   x ^^ (x >>w 31))%u64.

Definition set_seq (seq : N) (c : KvClient) : KvClient :=
  mkClient (kc_cfg c) (kc_session_id c) seq (kc_target c) (kc_conn c) (kc_rng c).
Definition set_route (target : nat) (conn : option string) (c : KvClient) : KvClient :=
  mkClient (kc_cfg c) (kc_session_id c) (kc_seq c) target conn (kc_rng c).
Definition set_rng (rng : N) (c : KvClient) : KvClient :=
  mkClient (kc_cfg c) (kc_session_id c) (kc_seq c) (kc_target c) (kc_conn c) rng.

(** [None]: the assertion that session 0 is reserved. *)
Definition with_session (cfg : ClientConfig) (session_id : N) : option KvClient :=
  if session_id =? 0 then None else Some (mkClient cfg session_id 0 0 None (splitmix session_id)).

(** [connect], given the clock, the process id and the counter it reads. *)
Definition connect (cfg : ClientConfig) (nanos pid n : N) : option KvClient :=
  with_session cfg
    (N.lor (splitmix (N.lxor (N.lxor (N.lxor (wrap 64 nanos) (wrap 64 (N.shiftl pid 32)))
                                (wrap 64 (N.shiftl n 48))) n)) 1).

(** ** One attempt *)

Inductive attempt_outcome := Answer (r : Response) | Failure (e : string).

(** The outcomes that the attempts of one call meet. *)
Abbreviation network := (nat → attempt_outcome).

(** What one attempt sends, and to which address. *)
Abbreviation sent := (string * Request)%type.

(** [try_once]: connect to the target unless a connection is open, send the
    request, and wait for the answer or the timeout. *)
Definition try_once (req : Request) (outcome : attempt_outcome) (c : KvClient)
    : option (KvClient * sent * attempt_outcome) :=
  addr ← match kc_conn c with Some a => Some a | None => cc_addrs (kc_cfg c) !! kc_target c end;
  Some (set_route (kc_target c) (Some addr) c, (addr, req), outcome).

Definition next_target (c : KvClient) : option KvClient :=
  match length (cc_addrs (kc_cfg c)) with
  | O => None
  | n => Some (set_route ((kc_target c + 1) mod n)%nat (kc_conn c) c)
  end.

(** The window of the exponential backoff, in milliseconds. *)
Definition backoff_window (cfg : ClientConfig) (attempt : nat) : N :=
  N.min (cc_backoff_base cfg * 2 ^ N.of_nat (Nat.min attempt 6)) (cc_backoff_cap cfg).

(** The time slept is [backoff_window * backoff_frac / 2 ^ 55], where the fraction
    is [max(rng / 2 ^ 53, 0.1)] and [0.1] is the nearest [f64]. *)
Definition backoff_frac (rng : N) : N := N.max (4 * N.shiftr rng 11) 3602879701896397.

Definition backoff (attempt : nat) (c : KvClient) : KvClient * N :=
  let c := set_rng (splitmix (kc_rng c)) c in
  (c, backoff_window (kc_cfg c) attempt * backoff_frac (kc_rng c)).

(** ** The retry loop *)

(** The target after a [NotLeader] answer. *)
Definition follow_hint (hint : option NodeId) (c : KvClient) : option KvClient :=
  let c := set_route (kc_target c) None c in
  match hint with
  | Some id =>
    if (id <=? N.of_nat (length (cc_addrs (kc_cfg c)))) && (1 <=? id) then
      Some (set_route (N.to_nat (id - 1)) None c)
    else next_target c
  | None => next_target c
  end.

Definition verdict : Type := Result Response ClientError.

(** The [todo] attempts from number [attempt] on. [None] is a panic: an index out
    of range, or a remainder by zero. *)
Fixpoint call_loop (todo attempt : nat) (req : Request) (last_err : string) (net : network) (c : KvClient)
    : option (verdict * KvClient * list sent) :=
  match todo with
  | O =>
    Some (Err (Unavailable ("no definitive response after " +:+ show (N.of_nat (cc_max_attempts (kc_cfg c)))
                              +:+ " attempts (last: " +:+ last_err +:+ ")")), c, [])
  | S todo =>
    let c := if (0 <? attempt)%nat then (backoff attempt c).1 else c in
    '(c, s, r) ← try_once req (net attempt) c;
    match r with
    | Answer (RespNotLeader hint) =>
      c ← follow_hint hint c;
      '(v, c, ss) ← call_loop todo (S attempt) req "not leader" net c;
      Some (v, c, s :: ss)
    | Answer (RespRetry reason) =>
      '(v, c, ss) ← call_loop todo (S attempt) req reason net c;
      Some (v, c, s :: ss)
    | Answer (RespErr e) => Some (Err (Server e), c, [s])
    | Answer r => Some (Ok r, c, [s])
    | Failure e =>
      c ← next_target (set_route (kc_target c) None c);
      '(v, c, ss) ← call_loop todo (S attempt) req e net c;
      Some (v, c, s :: ss)
    end
  end.

Definition call (req : Request) (net : network) (c : KvClient) : option (verdict * KvClient * list sent) :=
  call_loop (cc_max_attempts (kc_cfg c)) 0 req "" net c.

(** ** The operations *)

(** The answer an operation expects. *)
Definition expecting {A} (f : Response → option A) (v : verdict) : Result A ClientError :=
  match v with
  | Err e => Err e
  | Ok r => match f r with Some a => Ok a | None => Err (Unexpected r) end
  end.

Definition put (key value : bytes) (net : network) (c : KvClient)
    : option (Result unit ClientError * KvClient * list sent) :=
  let c := set_seq (kc_seq c + 1) c in
  '(v, c, ss) ← call (ReqPut (kc_session_id c) (kc_seq c) key value) net c;
  Some (expecting (λ r, match r with RespOk => Some tt | _ => None end) v, c, ss).

Definition delete (key : bytes) (net : network) (c : KvClient)
    : option (Result unit ClientError * KvClient * list sent) :=
  let c := set_seq (kc_seq c + 1) c in
  '(v, c, ss) ← call (ReqDelete (kc_session_id c) (kc_seq c) key) net c;
  Some (expecting (λ r, match r with RespOk => Some tt | _ => None end) v, c, ss).

Definition cas (key : bytes) (expect new : option bytes) (net : network) (c : KvClient)
    : option (Result (bool * option bytes) ClientError * KvClient * list sent) :=
  let c := set_seq (kc_seq c + 1) c in
  '(v, c, ss) ← call (ReqCas (kc_session_id c) (kc_seq c) key expect new) net c;
  Some (expecting (λ r, match r with RespCas s a => Some (s, a) | _ => None end) v, c, ss).

Definition get (key : bytes) (consistency : Consistency) (net : network) (c : KvClient)
    : option (Result (option bytes) ClientError * KvClient * list sent) :=
  '(v, c, ss) ← call (ReqGet key consistency) net c;
  Some (expecting (λ r, match r with RespValue v => Some v | _ => None end) v, c, ss).

Definition scan (start : bytes) (end_ : option bytes) (limit : N) (consistency : Consistency)
    (net : network) (c : KvClient)
    : option (Result (list (bytes * bytes)) ClientError * KvClient * list sent) :=
  '(v, c, ss) ← call (ReqScan start end_ limit consistency) net c;
  Some (expecting (λ r, match r with RespKvs kvs => Some kvs | _ => None end) v, c, ss).

(** ** The status of one node *)

(** How one exchange with a node ends. *)
Inductive exchange :=
| ConnectFailed (e : string)
| ExchangeFailed (e : string)
| ConnectionClosed
| Received (r : Response).

Definition status_of (addr : string) (x : exchange) : Result Response ClientError :=
  match x with
  | ConnectFailed e => Err (Unavailable (addr +:+ ": " +:+ e))
  | ExchangeFailed e => Err (Unavailable e)
  | ConnectionClosed => Err (Unavailable "connection closed")
  | Received r => Ok r
  end.

(** ** Routing *)

(** The target is an address of the configuration. *)
Definition routed (c : KvClient) : Prop := (kc_target c < length (cc_addrs (kc_cfg c)))%nat.

(** What a call leaves of a client. *)
Definition same_session (c c' : KvClient) : Prop :=
  kc_cfg c' = kc_cfg c ∧ kc_session_id c' = kc_session_id c ∧ kc_seq c' = kc_seq c.

Lemma next_target_routed c :
  routed c → ∃ c', next_target c = Some c' ∧ routed c' ∧ same_session c c'.
Proof.
  unfold routed, next_target. intros Hr. destruct (length (cc_addrs (kc_cfg c))) as [|n] eqn:Hn; [lia|].
  assert ((kc_target c + 1) mod S n < S n)%nat by (apply Nat.mod_upper_bound; lia).
  eexists. split; [done|]. split; [|done]. unfold set_route. cbn [kc_target kc_cfg]. by rewrite Hn.
Qed.

Lemma follow_hint_routed hint c :
  routed c → ∃ c', follow_hint hint c = Some c' ∧ routed c' ∧ same_session c c'.
Proof.
  intros Hr. unfold follow_hint.
  destruct (next_target_routed (set_route (kc_target c) None c) Hr) as (c' & Hn & Hr' & Hs).
  destruct hint as [id|]; [|by exists c']. simpl.
  destruct (_ && _) eqn:Hid; [|by exists c']. apply andb_prop in Hid as [H1%N.leb_le H2%N.leb_le].
  eexists. split; [done|]. unfold routed, same_session. simpl. split; [lia|done].
Qed.

Lemma try_once_routed req r c :
  routed c → ∃ c' a, try_once req r c = Some (c', (a, req), r) ∧ routed c' ∧ same_session c c'.
Proof.
  intros Hr. unfold try_once.
  assert (∃ a, match kc_conn c with Some a => Some a | None => cc_addrs (kc_cfg c) !! kc_target c end = Some a)
    as [a Ha] by (destruct (kc_conn c); [eauto|by apply lookup_lt_is_Some]).
  rewrite Ha. by eexists _, a.
Qed.

(** A verdict that the network gave: an error the server reported, or an answer
    that is neither a redirection nor a request to try again. *)
Definition definitive (net : network) (i : nat) (v : verdict) : Prop :=
  match net i with
  | Answer (RespErr e) => v = Err (Server e)
  | Answer (RespNotLeader _ | RespRetry _) | Failure _ => False
  | Answer r => v = Ok r
  end.

Definition transient (o : attempt_outcome) : Prop :=
  match o with Answer (RespNotLeader _ | RespRetry _) | Failure _ => True | _ => False end.

(** How the attempts from number [attempt] on end: with a definitive outcome after
    transient ones, or with [todo] transient ones. *)
Definition ends (todo attempt : nat) (net : network) (v : verdict) (tries : nat) : Prop :=
  (tries <= todo)%nat ∧
  ((∃ k, tries = S k ∧ definitive net (attempt + k) v ∧ ∀ i, (i < k)%nat → transient (net (attempt + i)%nat))
   ∨ (tries = todo ∧ (∃ e, v = Err (Unavailable e)) ∧ ∀ i, (i < todo)%nat → transient (net (attempt + i)%nat))).

Lemma ends_later todo attempt net v tries :
  transient (net attempt) → ends todo (S attempt) net v tries → ends (S todo) attempt net v (S tries).
Proof.
  intros Ht [Hle Hend]. split; [lia|].
  assert (∀ k, (∀ i, (i < k)%nat → transient (net (S attempt + i)%nat)) →
    ∀ i, (i < S k)%nat → transient (net (attempt + i)%nat)) as Hall.
  { intros k Hk [|i] Hi; [by rewrite Nat.add_0_r|]. replace (attempt + S i)%nat with (S attempt + i)%nat by lia.
    apply Hk. lia. }
  destruct Hend as [(k & -> & Hd & Hk)|(-> & He & Hk)]; [left|right].
  - exists (S k). replace (attempt + S k)%nat with (S attempt + k)%nat by lia. split_and!; [done..|by apply Hall].
  - split_and!; [done..|by apply Hall].
Qed.

(** The loop sends one request until the first definitive outcome. *)
Lemma call_loop_spec todo attempt req last_err net c :
  routed c →
  ∃ v c' ss, call_loop todo attempt req last_err net c = Some (v, c', ss)
    ∧ routed c' ∧ same_session c c' ∧ Forall (λ s, s.2 = req) ss ∧ ends todo attempt net v (length ss).
Proof.
  revert attempt last_err c. induction todo as [|todo IH]; intros attempt last_err c Hr; cbn [call_loop].
  { eexists _, c, []. split_and!; [done..|constructor|]. split; [done|]. right. split_and!; [done|eauto|lia]. }
  set (c0 := if (0 <? attempt)%nat then _ else c).
  assert (routed c0 ∧ same_session c c0) as [Hr0 Hs0] by (subst c0; by destruct (_ <? _)%nat).
  destruct (try_once_routed req (net attempt) c0 Hr0) as (c1 & a & -> & Hr1 & Hs1). simpl.
  assert (∀ c2 e, routed c2 → same_session c1 c2 → transient (net attempt) → ∃ v c' ss,
    ('(v, c, ss) ← call_loop todo (S attempt) req e net c2; Some (v, c, (a, req) :: ss)) = Some (v, c', ss)
    ∧ routed c' ∧ same_session c c' ∧ Forall (λ s, s.2 = req) ss ∧ ends (S todo) attempt net v (length ss)) as Hmore.
  { intros c2 e Hr2 Hs2 Ht. destruct (IH (S attempt) e c2 Hr2) as (v & c' & ss & -> & Hr' & Hs' & Hall & Hend).
    eexists _, _, _. split; [done|]. unfold same_session in *. split_and!; [done|intuition congruence..| |].
    - by constructor.
    - by apply ends_later. }
  assert (∀ v, definitive net attempt v → ∃ v' c' ss, Some (v, c1, [(a, req)]) = Some (v', c', ss)
    ∧ routed c' ∧ same_session c c' ∧ Forall (λ s, s.2 = req) ss ∧ ends (S todo) attempt net v' (length ss)) as Hstop.
  { intros v Hv. eexists _, _, _. split; [done|]. unfold same_session in *.
    split_and!; [done|intuition congruence..|by constructor|].
    split; [simpl; lia|]. left. exists 0%nat. rewrite Nat.add_0_r. split_and!; [done..|lia]. }
  unfold definitive, transient in *. destruct (net attempt) as [[]|e]; try (by apply Hstop).
  - destruct (follow_hint_routed hint c1 Hr1) as (c2 & -> & Hr2 & Hs2). simpl. by apply Hmore.
  - by apply Hmore.
  - destruct (next_target_routed (set_route (kc_target c1) None c1) Hr1) as (c2 & -> & Hr2 & Hs2). simpl. by apply Hmore.
Qed.

(** ** Addresses *)

(** A connection that is open is one to the target. *)
Definition on_route (c : KvClient) : Prop :=
  routed c ∧ ∀ a, kc_conn c = Some a → cc_addrs (kc_cfg c) !! kc_target c = Some a.

(** A new client is on its route. *)
Lemma with_session_on_route cfg sid c : cc_addrs cfg ≠ [] → with_session cfg sid = Some c → on_route c.
Proof.
  intros Hne. unfold with_session. destruct (sid =? 0); [done|]. intros [= <-]. split; [|done].
  unfold routed. simpl. destruct (cc_addrs cfg); [done|simpl; lia].
Qed.

(** Of [n] addresses, the one to try after an outcome at [t]: the node that the
    answer names, the next one in turn, or the same one. *)
Definition reroute (n : nat) (o : attempt_outcome) (t : nat) : nat :=
  match o with
  | Answer (RespNotLeader (Some id)) =>
    if (id <=? N.of_nat n) && (1 <=? id) then N.to_nat (id - 1) else ((t + 1) mod n)%nat
  | Answer (RespNotLeader None) | Failure _ => ((t + 1) mod n)%nat
  | Answer _ => t
  end.

(** The address of the [i]-th attempt from number [attempt] on. *)
Fixpoint route (n : nat) (net : network) (attempt t i : nat) : nat :=
  match i with O => t | S i => route n net (S attempt) (reroute n (net attempt) t) i end.

Lemma next_target_moves c c' :
  next_target (set_route (kc_target c) None c) = Some c' →
  kc_target c' = ((kc_target c + 1) mod length (cc_addrs (kc_cfg c)))%nat ∧ kc_conn c' = None ∧ kc_cfg c' = kc_cfg c.
Proof.
  unfold next_target. simpl. destruct (length (cc_addrs (kc_cfg c))) as [|n]; [done|]. by intros [= <-].
Qed.

Lemma follow_hint_moves hint c c' :
  follow_hint hint c = Some c' →
  kc_target c' = reroute (length (cc_addrs (kc_cfg c))) (Answer (RespNotLeader hint)) (kc_target c)
  ∧ kc_conn c' = None ∧ kc_cfg c' = kc_cfg c.
Proof.
  unfold follow_hint. destruct hint as [id|]; [|apply next_target_moves]. simpl.
  destruct (_ && _); [by intros [= <-]|apply next_target_moves].
Qed.

(** Every attempt goes where the outcomes before it led. *)
Lemma call_loop_route todo attempt req last_err net c v c' ss :
  on_route c → call_loop todo attempt req last_err net c = Some (v, c', ss) →
  on_route c' ∧ ∀ i s, ss !! i = Some s →
    cc_addrs (kc_cfg c) !! route (length (cc_addrs (kc_cfg c))) net attempt (kc_target c) i = Some s.1.
Proof.
  revert attempt last_err c ss. induction todo as [|todo IH]; intros attempt last_err c ss Hr; cbn [call_loop].
  { by intros [= _ <- <-]. }
  set (c0 := if (0 <? attempt)%nat then _ else c).
  assert (kc_cfg c0 = kc_cfg c ∧ kc_target c0 = kc_target c ∧ kc_conn c0 = kc_conn c) as (Hc0 & Ht0 & Hn0)
    by (subst c0; by destruct (_ <? _)%nat).
  unfold try_once. rewrite Hc0, Ht0, Hn0. destruct Hr as [Hr Hconn].
  assert (∃ a, match kc_conn c with Some a => Some a | None => cc_addrs (kc_cfg c) !! kc_target c end = Some a
    ∧ cc_addrs (kc_cfg c) !! kc_target c = Some a) as (a & -> & Ha).
  { destruct (kc_conn c) as [a|]; [exists a; auto|]. apply lookup_lt_is_Some_2 in Hr as [a Ha]. by exists a. }
  simpl. set (c1 := set_route (kc_target c) (Some a) c0).
  assert (on_route c1) as Hr1 by (split; [unfold routed|]; simpl; rewrite Hc0; [done|by intros ? [= <-]]).
  assert (∀ r, on_route c1 ∧ ∀ i (s : sent), [(a, r)] !! i = Some s → cc_addrs (kc_cfg c) !! route
    (length (cc_addrs (kc_cfg c))) net attempt (kc_target c) i = Some s.1) as Hstop.
  { intros r. split; [done|]. by intros [|i] s [= <-]. }
  assert (∀ c2 e, on_route c2 → kc_cfg c2 = kc_cfg c →
    kc_target c2 = reroute (length (cc_addrs (kc_cfg c))) (net attempt) (kc_target c) →
    ('(v, c, ss) ← call_loop todo (S attempt) req e net c2; Some (v, c, (a, req) :: ss)) = Some (v, c', ss) →
    on_route c' ∧ ∀ i s, ss !! i = Some s → cc_addrs (kc_cfg c) !! route
      (length (cc_addrs (kc_cfg c))) net attempt (kc_target c) i = Some s.1) as Hmore.
  { intros c2 e Hr2 Hc2 Ht2 ([[v1 c3] ss1] & Hl & Hx)%bind_Some. simplify_eq.
    destruct (IH _ _ _ _ Hr2 Hl) as [Hr3 Hss]. split; [done|]. intros [|i] s; simpl; [by intros [= <-]|].
    intros Hi. rewrite Hc2 in Hss. rewrite <-Ht2. by apply Hss. }
  assert (∀ c2, routed c2 → kc_conn c2 = None → on_route c2) as Hnone by (intros c2 ? Hn; split; [done|by rewrite Hn]).
  destruct (net attempt) as [[]|e]; try (by intros [= _ <- <-]; apply Hstop).
  - intros (c2 & Hf & Hl)%bind_Some. destruct (follow_hint_routed hint c1 (proj1 Hr1)) as (c2' & Hf' & Hr2 & _).
    rewrite Hf in Hf'. simplify_eq. destruct (follow_hint_moves _ _ _ Hf) as (Ht & Hn & Hc). simpl in Ht, Hc.
    rewrite Hc0 in Ht, Hc. eapply Hmore; [by apply Hnone|done|exact Ht|exact Hl].
  - eapply Hmore; [exact Hr1|done|done].
  - intros (c2 & Hf & Hl)%bind_Some.
    destruct (next_target_routed (set_route (kc_target c1) None c1) (proj1 Hr1)) as (c2' & Hf' & Hr2 & _).
    change (set_route (kc_target c) None c1) with (set_route (kc_target c1) None c1) in Hf. rewrite Hf in Hf'. simplify_eq.
    destruct (next_target_moves _ _ Hf) as (Ht & Hn & Hc). simpl in Ht, Hc.
    rewrite Hc0 in Ht, Hc. eapply Hmore; [by apply Hnone|done|exact Ht|exact Hl].
Qed.

(** C33: The verdict of a call. Take a client with at least one address whose open
    connection, if any, is one to its target: a new client is one, and every call
    leaves it one. A call never panics. It sends one and the same request at most
    [max_attempts] times, each time to a configured address: first to the target,
    then to the node that the last [NotLeader] answer names, to the next address
    after a failure or without a hint, and to the same one after [Retry]. The first
    definitive outcome decides the verdict and ends the call, and [Unavailable] is
    answered exactly when all [max_attempts] outcomes were transient. *)
Theorem call_verdict req net c :
  on_route c →
  ∃ v c' ss, call req net c = Some (v, c', ss) ∧ on_route c' ∧ same_session c c'
    ∧ Forall (λ s, s.2 = req) ss ∧ ends (cc_max_attempts (kc_cfg c)) 0 net v (length ss)
    ∧ ∀ i s, ss !! i = Some s →
        cc_addrs (kc_cfg c) !! route (length (cc_addrs (kc_cfg c))) net 0 (kc_target c) i = Some s.1.
Proof.
  intros Hr. destruct (call_loop_spec (cc_max_attempts (kc_cfg c)) 0 req "" net c (proj1 Hr))
    as (v & c' & ss & Hc & _ & Hs & Hall & Hend).
  destruct (call_loop_route _ _ _ _ _ _ _ _ _ Hr Hc) as [Hr' Hroute]. by exists v, c', ss.
Qed.

Lemma splitmix_lt x : splitmix x < 2 ^ 64.
Proof.
  unfold splitmix. cbv zeta. set (y := wrapping_mul 64 _ 0x94D049BB133111EB).
  assert (y < 2 ^ 64) by apply wrap_lt. apply (lxor_lt 64); [done|].
  rewrite N.shiftr_div_pow2. eapply N.le_lt_trans; [apply N.Div0.div_le_upper_bound|done]. lia.
Qed.

(** The backoff stays within its window: the window never exceeds the cap, and
    the time slept (in units of 2^-55 ms) is at least a tenth of the window, as the
    [f64] nearest to 0.1 has it, and less than the whole of it. *)
Theorem backoff_bounds attempt c :
  let w := backoff_window (kc_cfg c) attempt in
  w ≤ cc_backoff_cap (kc_cfg c) ∧
  w * 3602879701896397 ≤ (backoff attempt c).2 ∧
  (0 < w → (backoff attempt c).2 < w * 2 ^ 55).
Proof.
  intros w. assert (w ≤ cc_backoff_cap (kc_cfg c)) by (subst w; unfold backoff_window; lia).
  unfold backoff. simpl. fold w. set (f := backoff_frac _).
  assert (3602879701896397 ≤ f) by (subst f; unfold backoff_frac; lia).
  assert (f < 2 ^ 55).
  { subst f. unfold backoff_frac. pose proof (splitmix_lt (kc_rng c)) as Hlt. rewrite N.shiftr_div_pow2.
    assert (splitmix (kc_rng c) / 2 ^ 11 < 2 ^ 53) by (apply N.Div0.div_lt_upper_bound; exact Hlt). lia. }
  split_and!; [done|nia|nia].
Qed.

(** ** Sessions *)

Inductive client_op :=
| OpPut (key value : bytes)
| OpDelete (key : bytes)
| OpCas (key : bytes) (expect new : option bytes)
| OpGet (key : bytes) (consistency : Consistency)
| OpScan (start : bytes) (end_ : option bytes) (limit : N) (consistency : Consistency).

(** One operation, with its answer dropped. *)
Definition run_client_op (op : client_op) (net : network) (c : KvClient) : option (KvClient * list sent) :=
  match op with
  | OpPut k v => '(_, c, ss) ← put k v net c; Some (c, ss)
  | OpDelete k => '(_, c, ss) ← delete k net c; Some (c, ss)
  | OpCas k e n => '(_, c, ss) ← cas k e n net c; Some (c, ss)
  | OpGet k m => '(_, c, ss) ← get k m net c; Some (c, ss)
  | OpScan s e l m => '(_, c, ss) ← scan s e l m net c; Some (c, ss)
  end.

Fixpoint run_client (ops : list (client_op * network)) (c : KvClient) : option (KvClient * list sent) :=
  match ops with
  | [] => Some (c, [])
  | (op, net) :: ops =>
    '(c, ss) ← run_client_op op net c;
    '(c, ss') ← run_client ops c;
    Some (c, ss ++ ss')
  end.

(** The command that a write operation proposes. *)
Definition op_command (session seq : N) (op : client_op) : option Command :=
  match op with
  | OpPut k v => Some (mkCmd session seq (Put k v))
  | OpDelete k => Some (mkCmd session seq (Kvsm.Delete k))
  | OpCas k e n => Some (mkCmd session seq (Cas k e n))
  | OpGet _ _ | OpScan _ _ _ _ => None
  end.

(** The command that the server proposes for a request. *)
Definition request_command (req : Request) : option Command :=
  match req with
  | ReqPut s q k v => Some (mkCmd s q (Put k v))
  | ReqDelete s q k => Some (mkCmd s q (Kvsm.Delete k))
  | ReqCas s q k e n => Some (mkCmd s q (Cas k e n))
  | ReqGet _ _ | ReqScan _ _ _ _ | ReqStatus => None
  end.

(** One command per write operation, numbered in the order of the calls. *)
Fixpoint issued (session seq : N) (ops : list client_op) : list Command :=
  match ops with
  | [] => []
  | op :: ops =>
    match op_command session (seq + 1) op with
    | Some cmd => cmd :: issued session (seq + 1) ops
    | None => issued session seq ops
    end
  end.

Lemma call_sends req net c c' v ss :
  routed c → call req net c = Some (v, c', ss) →
  routed c' ∧ same_session c c' ∧ ∀ s cmd, s ∈ ss → request_command s.2 = Some cmd → request_command req = Some cmd.
Proof.
  intros Hr Hc. destruct (call_loop_spec (cc_max_attempts (kc_cfg c)) 0 req "" net c Hr)
    as (v' & c1 & ss' & Hc' & Hr' & Hs & Hall & _). unfold call in Hc. rewrite Hc' in Hc. simplify_eq.
  split_and!; [done..|]. intros s cmd Hin. rewrite Forall_forall in Hall. by rewrite (Hall s Hin).
Qed.

(** What one operation leaves and sends. *)
Lemma run_client_op_spec op net c c' ss :
  routed c → run_client_op op net c = Some (c', ss) →
  routed c' ∧ kc_session_id c' = kc_session_id c
  ∧ kc_seq c' = match op_command 0 0 op with Some _ => kc_seq c + 1 | None => kc_seq c end
  ∧ ∀ s cmd, s ∈ ss → request_command s.2 = Some cmd →
      op_command (kc_session_id c) (kc_seq c + 1) op = Some cmd.
Proof.
  intros Hr. assert (routed (set_seq (kc_seq c + 1) c)) as Hr1 by done.
  destruct op; simpl; unfold put, delete, cas, get, scan; simpl;
    intros ([[v c1] ss1] & ([[v' c2] ss2] & Hc & ?)%bind_Some & ?)%bind_Some; simplify_eq;
    (eapply call_sends in Hc as (? & (? & ? & ?) & Hss); [|done]); simpl in *;
    (split_and!; [done..|]); intros s cmd Hs Hcmd; by specialize (Hss _ _ Hs Hcmd).
Qed.

Lemma issued_seq session seq ops cmd : cmd ∈ issued session seq ops → seq < cmd_seq cmd.
Proof.
  revert seq. induction ops as [|op ops IH]; intros seq Hc; simpl in Hc; [by apply elem_of_nil in Hc|].
  destruct op; simpl in Hc; try (by apply IH);
    (apply elem_of_cons in Hc as [->|Hc%IH]; [simpl; lia|lia]).
Qed.

Lemma issued_sorted session seq ops :
  StronglySorted (λ c d, cmd_seq c < cmd_seq d) (issued session seq ops).
Proof.
  revert seq. induction ops as [|op ops IH]; intros seq; simpl; [constructor|].
  destruct (op_command session (seq + 1) op) as [cmd|] eqn:Hop; [|done]. constructor; [done|].
  apply Forall_forall. intros d Hd%issued_seq. destruct op; simplify_eq/=; lia.
Qed.

(** Everything a session sends is one of its commands. *)
Lemma run_client_sends ops c c' ss :
  routed c → run_client ops c = Some (c', ss) →
  ∀ s cmd, s ∈ ss → request_command s.2 = Some cmd → cmd ∈ issued (kc_session_id c) (kc_seq c) ops.*1.
Proof.
  revert c ss. induction ops as [|[op net] ops IH]; intros c ss Hr; simpl.
  { intros [= <- <-] s cmd Hs. by apply elem_of_nil in Hs. }
  intros ([c1 ss1] & Hop & ([c2 ss2] & Hops & ?)%bind_Some)%bind_Some s cmd; simplify_eq.
  destruct (run_client_op_spec _ _ _ _ _ Hr Hop) as (Hr1 & Hid & Hseq & Hss).
  rewrite elem_of_app. intros [Hs|Hs] Hcmd.
  - rewrite (Hss _ _ Hs Hcmd). by left.
  - specialize (IH c1 ss2 Hr1 Hops _ _ Hs Hcmd). rewrite Hid, Hseq in IH.
    destruct op; simpl in *; (by right) || done.
Qed.

Lemma sorted_filter_pairs {A} (R : relation A) (P : A → Prop) `{!∀ x, Decision (P x)} (l : list A) :
  (∀ i j x y, l !! i = Some x → l !! j = Some y → (i < j)%nat → P x → P y → R x y) →
  StronglySorted R (filter P l).
Proof.
  induction l as [|x l IH]; intros Hl; [constructor|]. rewrite filter_cons.
  assert (StronglySorted R (filter P l)) as Hs.
  { apply IH. intros i j y z Hi Hj Hij. apply (Hl (S i) (S j) y z Hi Hj). lia. }
  destruct (decide (P x)) as [Hx|]; [|done]. constructor; [done|]. apply Forall_forall.
  intros y [Hy Hin]%list_elem_of_filter. apply list_elem_of_lookup in Hin as [j Hj].
  apply (Hl 0%nat (S j) x y eq_refl Hj ltac:(lia) Hx Hy).
Qed.

Lemma effective_elem seen cmds c : c ∈ effective seen cmds → c ∈ cmds.
Proof.
  revert seen. induction cmds as [|d cmds IH]; intros seen; simpl; [done|].
  rewrite elem_of_app, elem_of_cons. intros [Hc|Hc%IH]; [|by right].
  destruct (Kvsm.fresh seen d); [left; by apply list_elem_of_singleton in Hc|by apply elem_of_nil in Hc].
Qed.

(** C19: Retries never execute an operation twice. Let a client run any operations
    against any network, and let the committed log hold, in any order and any
    number of times, requests that its attempts sent, among the commands of other
    sessions. The commands of the session that take effect are then a part of the
    operations it issued, in the order it issued them, each at most once. *)
Theorem session_executes_in_order ops c c' ss cmds :
  routed c → kc_session_id c ≠ 0 → run_client ops c = Some (c', ss) →
  (∀ cmd, cmd ∈ cmds → cmd_session_id cmd = kc_session_id c →
    ∃ s, s ∈ ss ∧ request_command s.2 = Some cmd) →
  filter (λ cmd, cmd_session_id cmd = kc_session_id c) (effective ∅ cmds)
    `sublist_of` issued (kc_session_id c) (kc_seq c) ops.*1.
Proof.
  intros Hr Hsid Hrun Hlog.
  assert (Transitive (λ c d, cmd_seq c < cmd_seq d)) by (intros x y z; lia).
  assert (Irreflexive (λ c d, cmd_seq c < cmd_seq d)) by (intros x; unfold complement; lia).
  apply (sorted_sublist (λ c d, cmd_seq c < cmd_seq d)).
  - apply sorted_filter_pairs. intros i j x y Hi Hj Hij Hx Hy.
    eapply (effective_increasing cmds ∅ i j); [done..|congruence|congruence].
  - apply issued_sorted.
  - intros cmd [Hs Hc%effective_elem]%list_elem_of_filter.
    destruct (Hlog _ Hc Hs) as (s & Hin & Hreq). by eapply run_client_sends.
Qed.

(** ** A concrete session *)

Definition demo_client : KvClient := mkClient (client_config_new (λ _, None) ["a"; "b"]) 7 0 0 None 1.

(** The first node is not the leader; the second times out once, then answers. *)
Definition demo_net (i : nat) : attempt_outcome :=
  match i with 0%nat => Answer (RespNotLeader (Some 2)) | 1%nat => Failure "request timed out" | _ => Answer RespOk end.

Lemma call_verdict_witness :
  ∃ v c' ss, call ReqStatus demo_net demo_client = Some (v, c', ss) ∧ ss.*1 = ["a"; "b"; "a"] ∧ on_route c'
    ∧ ends 12 0 demo_net v (length ss) ∧ ∀ i s, ss !! i = Some s → ["a"; "b"] !! route 2 demo_net 0 0 i = Some s.1.
Proof.
  destruct (call_verdict ReqStatus demo_net demo_client) as (v & c' & ss & Hc & Hr & _ & _ & He & Ha).
  - split; [vm_compute; lia|discriminate].
  - exists v, c', ss. split_and!; [exact Hc| |exact Hr|exact He|exact Ha].
    vm_compute in Hc. injection Hc as _ _ <-. reflexivity.
Defined.

Definition demo_ops : list (client_op * network) :=
  [(OpPut [x61] [x01], demo_net); (OpDelete [x61], λ _, Answer RespOk)].

(** The put was proposed three times; its last copy is committed after the delete. *)
Definition demo_log : list Command :=
  [mkCmd 7 1 (Put [x61] [x01]); mkCmd 7 1 (Put [x61] [x01]); mkCmd 7 2 (Kvsm.Delete [x61]);
   mkCmd 7 1 (Put [x61] [x01])].

Lemma session_executes_in_order_witness :
  filter (λ cmd, cmd_session_id cmd = 7) (effective ∅ demo_log)
    `sublist_of` [mkCmd 7 1 (Put [x61] [x01]); mkCmd 7 2 (Kvsm.Delete [x61])].
Proof.
  destruct (run_client demo_ops demo_client) as [[c' ss]|] eqn:Hrun; [|vm_compute in Hrun; discriminate].
  apply (session_executes_in_order demo_ops demo_client c' ss demo_log).
  - vm_compute. lia.
  - discriminate.
  - exact Hrun.
  - vm_compute in Hrun. injection Hrun as <- <-. intros cmd Hc _.
    repeat (apply elem_of_cons in Hc as [->|Hc]); [..|by apply elem_of_nil in Hc].
    3: exists ("a", ReqDelete 7 2 [x61]).
    1-2, 4: exists ("a", ReqPut 7 1 [x61] [x01]).
    all: split; [|reflexivity]; apply list_elem_of_In; simpl; auto 10.
Defined.
