(* ===== verification/Bench.v ===== *)
(** * Workloads and latencies

    crates/bench/src/lib.rs: the random source, the keys and the operation mixes of
    the YCSB workloads, and latency percentiles. What uses a rank of the zipfian
    distribution takes it as an argument; Zipf has the generator. *)

From S2P Require Import Prelude Order SimBase Text.
From stdpp Require Import strings.
From Stdlib Require Import Strings.Ascii.
Local Open Scope string_scope.
Local Open Scope N_scope.

(** The new state and the number drawn. *)
Definition splitmix (x : N) : N * N :=
  (let x := x +w 0x9E3779B97F4A7C15 in
   let z := x in
   let z := (z ^^ (z >>w 30)) *w 0xBF58476D1CE4E5B9 in
   let z := (z ^^ (z >>w 27)) *w 0x94D049BB133111EB in
   (x, z ^^ (z >>w 31)))%u64.

(** [rand_f64] is the number of units of 2^-53 that it returns. *)
Definition rand_f64 (x : N) : N * N := let '(x, z) := splitmix x in (x, N.shiftr z 11).

Definition scramble (rank n : N) : N :=
  (let x := rank *w 0xC6A4A7935BD1E995 in
   let x := x ^^ (x >>w 33) in
   let x := x *w 0xFF51AFD7ED558CCD in
   x mod n)%u64.

Definition key_of (i : N) : bytes := as_bytes ("user" +:+ show_padded 12 i).

Inductive OpKind := Read | Update | Insert | Scan | Rmw.

Inductive Workload := WorkloadA | WorkloadB | WorkloadC | WorkloadD | WorkloadE | WorkloadF.

#[export] Instance OpKind_eq_dec : EqDecision OpKind.
Proof. solve_decision. Defined.
#[export] Instance Workload_eq_dec : EqDecision Workload.
Proof. solve_decision. Defined.

(** [to_ascii_lowercase] of one character. *)
Definition lower (c : ascii) : ascii :=
  let n := N_of_ascii c in if (65 <=? n) && (n <=? 90) then ascii_of_N (n + 32) else c.

Definition workload_parse (s : string) : option Workload :=
  match s with
  | String c "" =>
    match lower c with
    | "a" => Some WorkloadA | "b" => Some WorkloadB | "c" => Some WorkloadC
    | "d" => Some WorkloadD | "e" => Some WorkloadE | "f" => Some WorkloadF
    | _ => None
    end%char
  | _ => None
  end.

(** The literals [0.5] and [0.95] in units of 2^-53; the second one is the nearest
    [f64]. *)
Definition half : N := 4503599627370496.
Definition most : N := 8556839292003942.

Definition choose (w : Workload) (rng : N) : N * OpKind :=
  let '(rng, r) := rand_f64 rng in
  (rng,
   match w with
   | WorkloadA => if r <? half then Read else Update
   | WorkloadB => if r <? most then Read else Update
   | WorkloadC => Read
   | WorkloadD => if r <? most then Read else Insert
   | WorkloadE => if r <? most then Scan else Insert
   | WorkloadF => if r <? half then Read else Rmw
   end).

(** ** Latencies *)

Record Latencies := mkLatencies { micros : list N }.

Definition latencies_default : Latencies := mkLatencies [].

Definition record (us : N) (l : Latencies) : Latencies := mkLatencies (micros l ++ [us]).
Definition merge (other l : Latencies) : Latencies := mkLatencies (micros l ++ micros other).
Definition finalize (l : Latencies) : Latencies := mkLatencies (merge_sort N.le (micros l)).

(** [(len - 1) as f64 * q], for [q] in units of 2^-53: the product is rounded to 53
    significant bits; then [round] goes to the nearest integer, halves upwards. *)
Definition percentile_index (len q : N) : N := (round_f64 (round_f64 (len - 1) * q) + 2 ^ 52) / 2 ^ 53.

(** [None]: an index out of range. *)
Definition percentile (q : N) (l : Latencies) : option N :=
  match micros l with
  | [] => Some 0
  | _ => micros l !! N.to_nat (percentile_index (N.of_nat (length (micros l))) q)
  end.

(** The literals [0.50], [0.95], [0.99] and [0.999]. *)
Definition p50 : N := half.
Definition p95 : N := most.
Definition p99 : N := 8917127262193582.
Definition p999 : N := 8998192055486251.

(** ** Rounding *)

(** A number of 54 bits and more keeps its 53 leading ones, perhaps plus one. *)
Lemma round_f64_big x :
  2 ^ 53 ≤ x →
  let e := N.log2 x - 52 in let q := N.shiftr x e in let r := x - q * 2 ^ e in
  round_f64 x = (if (2 ^ (e - 1) <? r) || ((r =? 2 ^ (e - 1)) && N.odd q) then q + 1 else q) * 2 ^ e
  ∧ x = q * 2 ^ e + r ∧ r < 2 ^ e ∧ 2 ^ 52 ≤ q ∧ q < 2 ^ 53 ∧ 53 ≤ N.log2 x.
Proof.
  intros Hx e q r. assert (53 ≤ N.log2 x) as Hlog by (apply N.log2_le_pow2; lia).
  destruct (N.log2_spec x ltac:(lia)) as [Hlo Hhi].
  assert (q = x / 2 ^ e) as Hq by (subst q; apply N.shiftr_div_pow2).
  assert (2 ^ e ≠ 0) as He by (apply N.pow_nonzero; lia).
  pose proof (N.div_mod x (2 ^ e) He) as Hdm. pose proof (N.mod_lt x (2 ^ e) He) as Hmod.
  rewrite <-Hq in Hdm. assert (N.log2 x = e + 52) as Hsum by lia.
  split_and!; [|subst r; lia|subst r; lia| | |done].
  - unfold round_f64. destruct (N.ltb_spec x (2 ^ 53)); [lia|]. fold e q. rewrite !N.shiftl_mul_pow2. fold r. done.
  - rewrite Hq. apply N.div_le_lower_bound; [done|]. rewrite <-N.pow_add_r, <-Hsum. done.
  - rewrite Hq. apply N.Div0.div_lt_upper_bound. rewrite <-N.pow_add_r.
    replace (e + 53) with (N.succ (N.log2 x)) by lia. done.
Qed.

Lemma round_f64_mono x y : x ≤ y → round_f64 x ≤ round_f64 y.
Proof.
  intros Hxy. destruct (decide (y < 2 ^ 53)) as [Hy|Hy].
  { unfold round_f64. destruct (N.ltb_spec x (2 ^ 53)), (N.ltb_spec y (2 ^ 53)); lia. }
  destruct (round_f64_big y ltac:(lia)) as (-> & Hyq & Hyr & Hyl & Hyh & Hylog).
  set (ey := N.log2 y - 52) in *. set (qy := N.shiftr y ey) in *.
  assert (2 ^ N.log2 y ≤ qy * 2 ^ ey) as Hbase.
  { replace (N.log2 y) with (52 + ey) by lia. rewrite N.pow_add_r. by apply N.mul_le_mono_r. }
  destruct (decide (x < 2 ^ 53)) as [Hx|Hx].
  { unfold round_f64. destruct (N.ltb_spec x (2 ^ 53)); [|lia].
    assert (2 ^ 53 ≤ 2 ^ N.log2 y) by (apply N.pow_le_mono_r; lia). destruct (_ || _); nia. }
  destruct (round_f64_big x ltac:(lia)) as (-> & Hxq & Hxr & Hxl & Hxh & Hxlog).
  set (ex := N.log2 x - 52) in *. set (qx := N.shiftr x ex) in *.
  pose proof (N.log2_le_mono x y Hxy) as Hlog. assert (N.log2 x = ex + 52) as Hex by lia.
  assert (N.log2 y = ey + 52) as Hey by lia. clearbody ex ey qx qy. destruct (decide (ex = ey)) as [->|Hne].
  - set (rx := x - qx * 2 ^ ey) in *. set (ry := y - qy * 2 ^ ey) in *.
    assert (qx ≤ qy) by nia. destruct (decide (qx = qy)) as [->|].
    + assert (rx ≤ ry) by lia.
      destruct (N.ltb_spec (2 ^ (ey - 1)) rx), (N.ltb_spec (2 ^ (ey - 1)) ry), (N.eqb_spec rx (2 ^ (ey - 1))),
        (N.eqb_spec ry (2 ^ (ey - 1))), (N.odd qy); cbn [orb andb]; nia.
    + destruct (_ || _), (_ || _); nia.
  - assert (2 ^ N.succ (N.log2 x) ≤ 2 ^ N.log2 y) by (apply N.pow_le_mono_r; lia).
    assert (2 ^ N.succ (N.log2 x) = 2 ^ 53 * 2 ^ ex) as Htop by (rewrite <-N.pow_add_r; f_equal; lia).
    destruct (_ || _), (_ || _); nia.
Qed.

(** Numbers of 53 bits are exact at every scale. *)
Lemma round_f64_exact x : x < 2 ^ 53 → round_f64 (x * 2 ^ 53) = x * 2 ^ 53.
Proof.
  intros Hx. destruct (decide (x = 0)) as [->|Hne]; [done|].
  destruct (round_f64_big (x * 2 ^ 53) ltac:(nia)) as (-> & Hq & Hr & _).
  set (e := N.log2 (x * 2 ^ 53) - 52) in *. set (q := N.shiftr _ e) in *. set (r := x * 2 ^ 53 - q * 2 ^ e) in *.
  assert (e ≤ 53) as He.
  { subst e. rewrite N.log2_mul_pow2 by lia. assert (N.log2 x < 53) by (apply N.log2_lt_pow2; lia). lia. }
  assert (2 ^ e ≠ 0) as Hnz by (apply N.pow_nonzero; lia).
  assert (r = 0) as Hr0.
  { rewrite <-(N.mod_small r (2 ^ e)) by done. rewrite <-(N.Div0.mod_add r q), N.add_comm, <-Hq.
    replace 53 with (53 - e + e) by lia. rewrite N.pow_add_r, N.mul_assoc. apply N.Div0.mod_mul. }
  assert (0 < 2 ^ (e - 1)) by (apply N.neq_0_lt_0, N.pow_nonzero; lia).
  clearbody r. subst r. destruct (N.ltb_spec (2 ^ (e - 1)) 0), (N.eqb_spec 0 (2 ^ (e - 1))); cbn [orb andb]; lia.
Qed.

(** ** Percentiles *)

Lemma percentile_index_mono len q q' : q ≤ q' → percentile_index len q ≤ percentile_index len q'.
Proof.
  intros Hq. unfold percentile_index. apply N.Div0.div_le_mono, N.add_le_mono_r, round_f64_mono. nia.
Qed.

Lemma percentile_index_one len : 0 < len → len ≤ 2 ^ 53 → percentile_index len (2 ^ 53) = len - 1.
Proof.
  intros H0 Hl. assert (round_f64 (len - 1) = len - 1) as He.
  { unfold round_f64. destruct (N.ltb_spec (len - 1) (2 ^ 53)); lia. }
  unfold percentile_index. rewrite He, round_f64_exact by lia.
  symmetry. apply (N.div_unique _ _ _ (2 ^ 52)); lia.
Qed.

Lemma percentile_index_lt len q : 0 < len → len ≤ 2 ^ 53 → q ≤ 2 ^ 53 → percentile_index len q < len.
Proof.
  intros H0 Hl Hq. eapply N.le_lt_trans; [by apply (percentile_index_mono _ q (2 ^ 53))|].
  rewrite percentile_index_one by done. lia.
Qed.

Lemma finalize_sorted l : StronglySorted N.le (micros (finalize l)).
Proof. apply StronglySorted_merge_sort; intros x y **; lia. Qed.

Lemma sorted_lookup_le (l : list N) i j x y :
  StronglySorted N.le l → l !! i = Some x → l !! j = Some y → (i <= j)%nat → x ≤ y.
Proof.
  intros Hs Hi Hj Hij. destruct (decide (i = j)) as [->|]; [by simplify_eq|].
  apply (sorted_lookup _ _ i j _ _ Hs Hi Hj). lia.
Qed.

(** The rank of an element of a sorted list. *)
Lemma sorted_rank (l : list N) i v :
  StronglySorted N.le l → l !! i = Some v →
  (length (filter (λ x, (x < v)%N) l) <= i < length (filter (λ x, (x ≤ v)%N) l))%nat.
Proof.
  intros Hs. revert i. induction Hs as [|z l Hs IH Hall]; intros i Hi; [done|]. rewrite Forall_forall in Hall.
  destruct i as [|i]; simplify_eq/=.
  - rewrite filter_cons_False by lia. rewrite filter_cons_True by lia.
    rewrite filter_none by (intros x Hx%Hall; lia). simpl. lia.
  - apply IH in Hi as Hr. apply list_elem_of_lookup_2, Hall in Hi.
    rewrite (filter_cons_True (λ x, x ≤ v)) by done. rewrite filter_cons. destruct (decide _); simpl; lia.
Qed.

(** Percentiles are exact. After [finalize], the percentile of at most 2^53
    samples at a quantile is the sample whose rank is the rounded fraction of the
    samples: no more samples are below it, and more are at most it. Percentiles grow
    with the quantile, and the last one is the maximum. *)
Theorem percentile_exact l q :
  micros l ≠ [] → N.of_nat (length (micros l)) ≤ 2 ^ 53 → q ≤ 2 ^ 53 →
  let rank := N.to_nat (percentile_index (N.of_nat (length (micros l))) q) in
  ∃ v, percentile q (finalize l) = Some v ∧ v ∈ micros l ∧
    (length (filter (λ x, (x < v)%N) (micros l)) <= rank < length (filter (λ x, (x ≤ v)%N) (micros l)))%nat ∧
    (∀ q' v', q' ≤ q → percentile q' (finalize l) = Some v' → v' ≤ v) ∧
    (q = 2 ^ 53 → ∀ x, x ∈ micros l → x ≤ v).
Proof.
  intros Hne Hlen Hq rank. assert (micros (finalize l) ≡ₚ micros l) as Hperm by apply merge_sort_Permutation.
  assert (length (micros (finalize l)) = length (micros l)) as Hl by (by rewrite Hperm).
  assert (∀ q', percentile q' (finalize l)
    = micros (finalize l) !! N.to_nat (percentile_index (N.of_nat (length (micros l))) q')) as Hp.
  { intros q'. unfold percentile. rewrite Hl. destruct (micros (finalize l)); [|done].
    by apply symmetry, length_zero_iff_nil in Hl. }
  assert (0 < length (micros l))%nat by (destruct (micros l); [done|simpl; lia]).
  assert (rank < length (micros (finalize l)))%nat as [v Hv]%lookup_lt_is_Some.
  { rewrite Hl. pose proof (percentile_index_lt (N.of_nat (length (micros l))) q). lia. }
  exists v. split; [by rewrite Hp|]. split; [rewrite <-Hperm; by eapply list_elem_of_lookup_2|]. split_and!.
  - rewrite <-Hperm. by apply sorted_rank; [apply finalize_sorted|].
  - rewrite <-Hperm. by apply sorted_rank; [apply finalize_sorted|].
  - intros q' v' Hq' Hv'. rewrite Hp in Hv'. eapply sorted_lookup_le; [apply finalize_sorted|done..|].
    pose proof (percentile_index_mono (N.of_nat (length (micros l))) q' q Hq'). subst rank. lia.
  - intros -> x Hx. rewrite <-Hperm in Hx. apply list_elem_of_lookup in Hx as [j Hj].
    eapply sorted_lookup_le; [apply finalize_sorted|done..|]. apply lookup_lt_Some in Hj.
    subst rank. rewrite percentile_index_one by lia. lia.
Qed.

(** The samples of the test at the end of lib.rs. *)
Definition hundred : Latencies := mkLatencies (reverse (range_incl 1 100)).

Lemma percentile_exact_witness :
  (percentile p50 (finalize hundred), percentile p99 (finalize hundred), percentile (2 ^ 53) (finalize hundred))
    = (Some 51, Some 99, Some 100) ∧
  let rank := N.to_nat (percentile_index (N.of_nat (length (micros hundred))) p50) in
  ∃ v, percentile p50 (finalize hundred) = Some v ∧ v ∈ micros hundred ∧
    (length (filter (λ x, (x < v)%N) (micros hundred)) <= rank < length (filter (λ x, (x ≤ v)%N) (micros hundred)))%nat ∧
    (∀ q' v', q' ≤ p50 → percentile q' (finalize hundred) = Some v' → v' ≤ v) ∧
    (p50 = 2 ^ 53 → ∀ x, x ∈ micros hundred → x ≤ v).
Proof.
  split; [vm_compute; reflexivity|].
  apply (percentile_exact hundred p50); [vm_compute; discriminate..].
Defined.

(** ** Keys and draws *)

(** Keys are ordered as their numbers are, and distinct, up to twelve digits. *)
Lemma key_of_cmp i j : i < 10 ^ 12 → j < 10 ^ 12 → bytes_cmp (key_of i) (key_of j) = (i ?= j).
Proof.
  intros Hi Hj. rewrite <-(show_padded_cmp 12 i j) by (done || lia). unfold key_of, as_bytes. reflexivity.
Qed.

Lemma scramble_lt rank n : 0 < n → scramble rank n < n.
Proof. intros Hn. apply N.mod_lt. lia. Qed.

(** The mix of a workload: which operations it can draw. *)
Definition mixes (w : Workload) (k : OpKind) : Prop :=
  match w, k with
  | WorkloadA, (Read | Update) | WorkloadB, (Read | Update) | WorkloadC, Read | WorkloadD, (Read | Insert)
  | WorkloadE, (Scan | Insert) | WorkloadF, (Read | Rmw) => True
  | _, _ => False
  end.

Lemma choose_mixes w rng : mixes w (choose w rng).2.
Proof. unfold choose. destruct (rand_f64 rng) as [rng' r]. by destruct w; simpl; try destruct (_ <? _). Qed.
