(* ===== verification/Zipf.v ===== *)
(** * The zipfian distribution

    [Zipf] and [Latencies::mean] of crates/bench/src/lib.rs, with the arithmetic of
    [f64] as IEEE 754 specifies it. Rust leaves the precision of [powf] open: it is
    a parameter. *)

From S2P Require Import Prelude Order SimBase Text Bench.
From Stdlib Require Import SpecFloat.
Local Open Scope N_scope.

(** ** [f64] *)

Abbreviation f64 := spec_float.
Abbreviation fadd := (SFadd 53 1024).
Abbreviation fsub := (SFsub 53 1024).
Abbreviation fmul := (SFmul 53 1024).
Abbreviation fdiv := (SFdiv 53 1024).

(** [m * 2 ^ e], rounded. *)
Definition f64_scaled (m e : Z) : f64 := binary_normalize 53 1024 m e false.

(** [as f64] of an integer. *)
Definition f64_of (n : N) : f64 := f64_scaled (Z.of_N n) 0.

(** [as u64]: towards zero, saturating, and 0 for what is not a number. *)
Definition as_u64 (x : f64) : N :=
  match x with
  | S754_finite false m e => N.min (Z.to_N (if (0 <=? e)%Z then Zpos m * 2 ^ e else Zpos m / 2 ^ (- e))) (2 ^ 64 - 1)
  | S754_infinity false => 2 ^ 64 - 1
  | _ => 0
  end.

(** The literals [0.5] and [0.99]. *)
Definition f_half : f64 := f64_scaled 1 (-1).
Definition f_theta : f64 := f64_scaled 0x1fae147ae147ae (-53).

(** A sum beyond [u64] wraps around, as in a release build. *)
Definition mean (l : Latencies) : f64 :=
  match micros l with
  | [] => f64_of 0
  | us => fdiv (f64_of (foldl (wrapping_add 64) 0 us)) (f64_of (N.of_nat (length us)))
  end.

(** ** The generator *)

Record Zipf := mkZipf {
  zf_n : N;
  zf_theta : f64;
  zf_alpha : f64;
  zf_zetan : f64;
  zf_eta : f64;
}.

Section zipf.
  Context (powf : f64 → f64 → f64).

Definition zeta (n : N) (theta : f64) : f64 :=
  foldl fadd (f64_of 0) ((λ i, fdiv (f64_of 1) (powf (f64_of i) theta)) <$> range_incl 1 n).

Definition zipf_new (n : N) : Zipf :=
  let theta := f_theta in
  let zetan := zeta n theta in
  let zeta2 := zeta 2 theta in
  let one := f64_of 1 in
  mkZipf n theta (fdiv one (fsub one theta)) zetan
    (fdiv (fsub one (powf (fdiv (f64_of 2) (f64_of n)) (fsub one theta))) (fsub one (fdiv zeta2 zetan))).

(** The rank for a draw of [rand_f64], in units of 2^-53. *)
Definition zipf_rank (z : Zipf) (draw : N) : N :=
  let one := f64_of 1 in
  let u := fdiv (f64_of draw) (f64_of (2 ^ 53)) in
  let uz := fmul u (zf_zetan z) in
  if SFltb uz one then 0
  else if SFltb uz (fadd one (powf f_half (zf_theta z))) then 1
  else as_u64 (fmul (f64_of (zf_n z)) (powf (fadd (fsub (fmul (zf_eta z) u) (zf_eta z)) one) (zf_alpha z))).

Definition zipf_next (z : Zipf) (rng : N) : N * N :=
  let '(rng, draw) := rand_f64 rng in (rng, zipf_rank z draw).
End zipf.

(** ** The range of ranks *)

(** What [powf] answers on the arguments that three keys need: IEEE 754 fixes the
    powers of 1, and the others are the nearest [f64]. *)
Record powf_at_three (powf : f64 → f64 → f64) : Prop := {
  pw_one : ∀ y, powf (f64_of 1) y = f64_of 1;
  pw_two : powf (f64_of 2) f_theta = f64_scaled 8944981984789342 (-52);
  pw_three : powf (f64_of 3) f_theta = f64_scaled 6681589974947449 (-51);
  pw_ratio : powf (fdiv (f64_of 2) (f64_of 3)) (fsub (f64_of 1) f_theta) = f64_scaled 8970752144635555 (-53);
  pw_half : powf f_half f_theta = f64_scaled 4534924640014092 (-53);
}.

(** A rank can be out of range. The comment on [Zipf::next] says that it draws an
    index below [n]; for three keys, the largest draw of the generator is so close
    to 1 that the base of the power rounds to 1, and the index drawn is 3. *)
Theorem zipf_rank_out_of_range powf :
  powf_at_three powf → (zipf_next powf (zipf_new powf 3) 3558559446808474027).2 = 3.
Proof.
  intros [H1 H2 H3 Hr Hh].
  assert (zeta powf 2 f_theta = f64_scaled 6771061947377542 (-52)) as Hz2.
  { unfold zeta. change (range_incl 1 2) with [1; 2]. csimpl. rewrite H1, H2. vm_compute. reflexivity. }
  assert (zeta powf 3 f_theta = f64_scaled 0x1d72a924b8b2e1 (-52)) as Hz3.
  { unfold zeta. change (range_incl 1 3) with [1; 2; 3]. csimpl. rewrite H1, H2, H3. vm_compute. reflexivity. }
  unfold zipf_next, zipf_new. rewrite Hz2, Hz3, Hr, (surjective_pairing (rand_f64 _)). cbn [snd].
  replace (rand_f64 3558559446808474027).2 with (2 ^ 53 - 1) by (vm_compute; reflexivity).
  unfold zipf_rank. cbn [zf_n zf_theta zf_alpha zf_zetan zf_eta]. cbv zeta. rewrite Hh.
  match goal with |- context [powf ?base _] => replace base with (f64_of 1) by (vm_compute; reflexivity) end.
  rewrite H1. vm_compute. reflexivity.
Qed.

(** A [powf] that answers so. *)
Definition demo_powf (x y : f64) : f64 :=
  if SFeqb x (f64_of 1) then f64_of 1
  else if SFeqb x (f64_of 2) then f64_scaled 8944981984789342 (-52)
  else if SFeqb x (f64_of 3) then f64_scaled 6681589974947449 (-51)
  else if SFeqb x f_half then f64_scaled 4534924640014092 (-53)
  else f64_scaled 8970752144635555 (-53).

Lemma zipf_rank_out_of_range_witness :
  powf_at_three demo_powf ∧ (zipf_next demo_powf (zipf_new demo_powf 3) 3558559446808474027).2 = 3.
Proof.
  assert (powf_at_three demo_powf) as Hp by (split; vm_compute; reflexivity).
  split; [exact Hp|exact (zipf_rank_out_of_range demo_powf Hp)].
Defined.
