(* ===== verification/Loadgen.v ===== *)
(** * The load generator

    crates/bench/src/bin/loadgen.rs: its command line, its workers over the client
    library, and the report. Workers are tasks that share a cursor for fresh keys
    and a counter; an iteration of a worker touches the cursor once, so that
    schedules of whole iterations show every interleaving. The clock, the network
    and the ranks of the zipfian distribution are arguments. *)

From S2P Require Import Prelude Order Text Codec SimBase RaftTypes Kvsm Proto Client Bench.
From stdpp Require Import strings.
From Stdlib Require Import Strings.Ascii.
Local Open Scope string_scope.
Local Open Scope N_scope.

(** ** The command line *)

Record LoadArgs := mkLoadArgs {
  la_cluster : list string;
  la_phase : string;
  la_workload : Workload;
  la_ops : N;
  la_keys : N;
  la_clients : N;
  la_value_bytes : N;
  la_consistency : Consistency;
  la_timeline : bool;
}.

(** How the parser ends the process: exit code 2 with a message, or [expect]. *)
Inductive LoadError := Usage (msg : string) | Panicked (msg : string).

Definition load_args_default : LoadArgs := mkLoadArgs [] "run" WorkloadB 10000 10000 8 100 Linearizable false.

Definition set_cluster v a := mkLoadArgs v (la_phase a) (la_workload a) (la_ops a) (la_keys a) (la_clients a)
  (la_value_bytes a) (la_consistency a) (la_timeline a).
Definition set_phase v a := mkLoadArgs (la_cluster a) v (la_workload a) (la_ops a) (la_keys a) (la_clients a)
  (la_value_bytes a) (la_consistency a) (la_timeline a).
Definition set_workload v a := mkLoadArgs (la_cluster a) (la_phase a) v (la_ops a) (la_keys a) (la_clients a)
  (la_value_bytes a) (la_consistency a) (la_timeline a).
Definition set_ops v a := mkLoadArgs (la_cluster a) (la_phase a) (la_workload a) v (la_keys a) (la_clients a)
  (la_value_bytes a) (la_consistency a) (la_timeline a).
Definition set_keys v a := mkLoadArgs (la_cluster a) (la_phase a) (la_workload a) (la_ops a) v (la_clients a)
  (la_value_bytes a) (la_consistency a) (la_timeline a).
Definition set_clients v a := mkLoadArgs (la_cluster a) (la_phase a) (la_workload a) (la_ops a) (la_keys a) v
  (la_value_bytes a) (la_consistency a) (la_timeline a).
Definition set_value_bytes v a := mkLoadArgs (la_cluster a) (la_phase a) (la_workload a) (la_ops a) (la_keys a)
  (la_clients a) v (la_consistency a) (la_timeline a).
Definition set_consistency v a := mkLoadArgs (la_cluster a) (la_phase a) (la_workload a) (la_ops a) (la_keys a)
  (la_clients a) (la_value_bytes a) v (la_timeline a).
Definition set_timeline v a := mkLoadArgs (la_cluster a) (la_phase a) (la_workload a) (la_ops a) (la_keys a)
  (la_clients a) (la_value_bytes a) (la_consistency a) v.

Definition consistency_of (val : string) : option Consistency :=
  if bool_decide (val = "linearizable") then Some Linearizable
  else if bool_decide (val = "lease") then Some LeaderLease
  else if bool_decide (val = "stale") then Some Stale
  else None.

(** [val.parse().expect(flag)]. *)
Definition number (flag val : string) (f : N → LoadArgs) : Result LoadArgs LoadError :=
  match parse_uint 64 val with Some n => Ok (f n) | None => Err (Panicked flag) end.

Definition load_flag (flag val : string) (a : LoadArgs) : Result LoadArgs LoadError :=
  if bool_decide (flag = "--cluster") then Ok (set_cluster (split_on "," val) a)
  else if bool_decide (flag = "--phase") then Ok (set_phase val a)
  else if bool_decide (flag = "--workload") then
    match workload_parse val with
    | Some w => Ok (set_workload w a)
    | None => Err (Usage "workload must be a..f")
    end
  else if bool_decide (flag = "--ops") then number flag val (λ n, set_ops n a)
  else if bool_decide (flag = "--keys") then number flag val (λ n, set_keys n a)
  else if bool_decide (flag = "--clients") then number flag val (λ n, set_clients n a)
  else if bool_decide (flag = "--value-bytes") then number flag val (λ n, set_value_bytes n a)
  else if bool_decide (flag = "--consistency") then
    match consistency_of val with
    | Some c => Ok (set_consistency c a)
    | None => Err (Usage "consistency: linearizable|lease|stale")
    end
  else Err (Usage ("unknown flag " +:+ flag)).

Fixpoint load_flags (argv : list string) (a : LoadArgs) : Result LoadArgs LoadError :=
  match argv with
  | [] => Ok a
  | flag :: argv =>
    if bool_decide (flag = "--timeline") then load_flags argv (set_timeline true a)
    else
      match argv with
      | [] => Err (Usage (flag +:+ " requires a value"))
      | val :: argv => match load_flag flag val a with Ok a => load_flags argv a | Err e => Err e end
      end
  end.

Definition load_parse_args (argv : list string) : Result LoadArgs LoadError :=
  match load_flags argv load_args_default with
  | Ok a => match la_cluster a with [] => Err (Usage "--cluster is required") | _ => Ok a end
  | Err e => Err e
  end.

(** ** Values *)

(** The loop of [make_value], for at most [fuel] words. *)
Fixpoint value_loop (fuel : nat) (len : nat) (v : bytes) (rng : N) : N * bytes :=
  match fuel with
  | O => (rng, v)
  | S fuel =>
    if (length v <? len)%nat then
      let '(rng, z) := Bench.splitmix rng in value_loop fuel len (v ++ to_le 8 z) rng
    else (rng, v)
  end.

(** A word has eight bytes, so [len] rounds are enough. *)
Definition make_value (len : nat) (rng : N) : N * bytes :=
  let '(rng, v) := value_loop len len [] rng in (rng, take len v).

(** ** Workers *)

Record WorkerOut := mkWorkerOut { per_kind : list (OpKind * Latencies); errors : N }.

(** The closure [record] of [worker]. *)
Fixpoint record_kind (kind : OpKind) (us : N) (l : list (OpKind * Latencies)) : list (OpKind * Latencies) :=
  match l with
  | [] => [(kind, record us latencies_default)]
  | (k, lat) :: l => if decide (k = kind) then (k, record us lat) :: l else (k, lat) :: record_kind kind us l
  end.

(** How an iteration ends: a success with its latency, or an error. *)
Definition note_op (kind : OpKind) (ok : bool) (us : N) (out : WorkerOut) : WorkerOut :=
  if ok then mkWorkerOut (record_kind kind us (per_kind out)) (errors out)
  else mkWorkerOut (per_kind out) (errors out + 1).

(** What is left to do: a key to load, or an operation of the workload. *)
Inductive task := LoadKey (i : N) | RunOp.

Record worker := mkWorker {
  wk_kv : KvClient;
  wk_rng : N;
  wk_out : WorkerOut;
  wk_todo : list task;
}.

(** What an iteration meets: the outcomes of its first and second call, and the
    time it takes. *)
Record iter_env := mkIterEnv { ie_net : network; ie_net2 : network; ie_us : N }.

Definition is_ok {A E} (r : Result A E) : bool := match r with Ok _ => true | Err _ => false end.

Section workers.
  (** The rank that [Zipf::next] computes for a number of keys from a draw in units
      of 2^-53; the theorems hold whatever it is. *)
  Variable zipf_rank : N → N → N.
  Variable args : LoadArgs.

  Abbreviation value_len := (N.to_nat (la_value_bytes args)).
  Abbreviation key_count := (N.max (la_keys args) 1).

(** The range of keys of worker [w] in the load phase. *)
Definition load_range (w : N) : N * N :=
  let per := la_keys args / la_clients args + 1 in
  (wrap 64 (w * per), N.min (wrap 64 ((w + 1) * per)) (la_keys args)).

Definition worker_tasks (w : N) : list task :=
  if bool_decide (la_phase args = "load") then
    let '(lo, hi) := load_range w in LoadKey <$> range lo hi
  else replicate (N.to_nat (la_ops args / la_clients args)) RunOp.

(** [worker] up to its loops, for a client that was connected. *)
Definition worker_new (w : N) (kv : KvClient) : worker :=
  mkWorker kv (N.lxor (N.lxor 0xBEEF (wrap 64 (N.shiftl w 17))) (kc_session_id kv))
    (mkWorkerOut [] 0) (worker_tasks w).

(** The result of an iteration: the client, the generator, whether the operation
    succeeded, its kind and the number of its key, and what was sent. *)
Record iteration := mkIteration {
  it_kv : KvClient;
  it_rng : N;
  it_ok : bool;
  it_kind : OpKind;
  it_key : N;
  it_sent : list sent;
}.

Definition load_key (i : N) (e : iter_env) (kv : KvClient) (rng : N) : option iteration :=
  let '(rng, value) := make_value value_len rng in
  '(r, kv, ss) ← put (key_of i) value (ie_net e) kv;
  Some (mkIteration kv rng (is_ok r) Bench.Insert i ss).

(** The number of the key that workload D reads: one of the last thousand. *)
Definition latest (cursor rng : N) : N * N :=
  let hi := cursor in
  let lo := hi - 1000 in
  let '(rng, z) := Bench.splitmix rng in (rng, lo + z mod N.max (hi - lo) 1).

Definition bench_read (key_idx cursor : N) (e : iter_env) (kv : KvClient) (rng : N) : option iteration :=
  let '(rng, i) := if decide (la_workload args = WorkloadD) then latest cursor rng else (rng, key_idx) in
  '(r, kv, ss) ← get (key_of i) (la_consistency args) (ie_net e) kv;
  Some (mkIteration kv rng (is_ok r) Read i ss).

Definition bench_put (kind : OpKind) (i : N) (e : iter_env) (kv : KvClient) (rng : N) : option iteration :=
  let '(rng, value) := make_value value_len rng in
  '(r, kv, ss) ← put (key_of i) value (ie_net e) kv;
  Some (mkIteration kv rng (is_ok r) kind i ss).

Definition bench_scan (key_idx : N) (e : iter_env) (kv : KvClient) (rng : N) : option iteration :=
  let '(rng, z) := Bench.splitmix rng in
  '(r, kv, ss) ← scan (key_of key_idx) None (1 + z mod 100) (la_consistency args) (ie_net e) kv;
  Some (mkIteration kv rng (is_ok r) Scan key_idx ss).

Definition bench_rmw (key_idx : N) (e : iter_env) (kv : KvClient) (rng : N) : option iteration :=
  '(r, kv, ss) ← get (key_of key_idx) (la_consistency args) (ie_net e) kv;
  match r with
  | Err _ => Some (mkIteration kv rng false Rmw key_idx ss)
  | Ok cur =>
    let '(rng, value) := make_value value_len rng in
    '(r, kv, ss') ← cas (key_of key_idx) cur (Some value) (ie_net2 e) kv;
    Some (mkIteration kv rng (is_ok r) Rmw key_idx (ss ++ ss'))
  end.

(** One operation of the workload; the cursor moves for an insert. *)
Definition run_op (cursor : N) (e : iter_env) (kv : KvClient) (rng : N) : option (iteration * N) :=
  let '(rng, kind) := choose (la_workload args) rng in
  let '(rng, u) := rand_f64 rng in
  let key_idx := scramble (zipf_rank key_count u) key_count in
  match kind with
  | Read => it ← bench_read key_idx cursor e kv rng; Some (it, cursor)
  | Update => it ← bench_put Update key_idx e kv rng; Some (it, cursor)
  | Bench.Insert => it ← bench_put Bench.Insert cursor e kv rng; Some (it, cursor + 1)
  | Scan => it ← bench_scan key_idx e kv rng; Some (it, cursor)
  | Rmw => it ← bench_rmw key_idx e kv rng; Some (it, cursor)
  end.

Definition run_task (t : task) (cursor : N) (e : iter_env) (kv : KvClient) (rng : N) : option (iteration * N) :=
  match t with
  | LoadKey i => it ← load_key i e kv rng; Some (it, cursor)
  | RunOp => run_op cursor e kv rng
  end.

(** ** The run *)

Record bench := mkBench {
  bn_workers : list worker;
  bn_cursor : N;
  bn_done : N;
}.

(** The next iteration of worker [w]; [None] when it has none, or panics. *)
Definition bench_step (w : nat) (e : iter_env) (b : bench) : option (iteration * bench) :=
  wk ← bn_workers b !! w;
  match wk_todo wk with
  | [] => None
  | t :: todo =>
    '(it, cursor) ← run_task t (bn_cursor b) e (wk_kv wk) (wk_rng wk);
    let wk := mkWorker (it_kv it) (it_rng it) (note_op (it_kind it) (it_ok it) (ie_us e) (wk_out wk)) todo in
    Some (it, mkBench (<[w := wk]> (bn_workers b)) cursor (bn_done b + 1))
  end.

(** The workers of a run, with the clients they connected. *)
Definition bench_new (kvs : list KvClient) : bench :=
  mkBench (imap (λ w kv, worker_new (N.of_nat w) kv) kvs) (la_keys args) 0.

(** A schedule of iterations. *)
Fixpoint bench_run (sched : list (nat * iter_env)) (b : bench) : option (list iteration * bench) :=
  match sched with
  | [] => Some ([], b)
  | (w, e) :: sched =>
    '(it, b) ← bench_step w e b;
    '(its, b) ← bench_run sched b;
    Some (it :: its, b)
  end.

Definition finished_run (b : bench) : Prop := Forall (λ wk, wk_todo wk = []) (bn_workers b).
End workers.

(** ** The report *)

(** The latencies of one worker merged into the totals. *)
Fixpoint merge_kind (kind : OpKind) (lat : Latencies) (l : list (OpKind * Latencies)) : list (OpKind * Latencies) :=
  match l with
  | [] => [(kind, lat)]
  | (k, agg) :: l => if decide (k = kind) then (k, Bench.merge lat agg) :: l else (k, agg) :: merge_kind kind lat l
  end.

Definition merge_out (total out : WorkerOut) : WorkerOut :=
  mkWorkerOut (foldl (λ l kl, merge_kind kl.1 kl.2 l) (per_kind total) (per_kind out)) (errors total + errors out).

Definition totals (b : bench) : WorkerOut := foldl merge_out (mkWorkerOut [] 0) (wk_out <$> bn_workers b).

(** The operations that the report counts. *)
Definition total_ops (out : WorkerOut) : nat := sum_list_with (λ kl, length (micros kl.2)) (per_kind out).

(** ** Loading covers the key space *)

Lemma load_range_wide args w :
  la_keys args + la_clients args < 2 ^ 64 → w < la_clients args →
  let per := la_keys args / la_clients args + 1 in
  load_range args w = (w * per, N.min ((w + 1) * per) (la_keys args)) ∧ la_keys args ≤ la_clients args * per.
Proof.
  intros Hb Hw per. unfold load_range. fold per. pose proof (N.div_mod (la_keys args) (la_clients args) ltac:(lia)) as Hdm.
  pose proof (N.mod_lt (la_keys args) (la_clients args) ltac:(lia)).
  assert ((w + 1) * per ≤ la_clients args * per) by nia.
  assert (la_clients args * per < 2 ^ 64) by (subst per; nia). rewrite !wrap_small by lia. split; [done|]. subst per. nia.
Qed.

Lemma load_prefix args n :
  la_keys args + la_clients args < 2 ^ 64 → la_phase args = "load" → N.of_nat n ≤ la_clients args →
  concat ((λ w, worker_tasks args (N.of_nat w)) <$> seq 0 n)
    = LoadKey <$> range 0 (N.min (N.of_nat n * (la_keys args / la_clients args + 1)) (la_keys args)).
Proof.
  intros Hb Hp Hn. induction n as [|n IH]; [by rewrite N.mul_0_l, N.min_0_l|].
  rewrite seq_S, fmap_app, concat_app, IH by lia. simpl. rewrite app_nil_r. unfold worker_tasks.
  rewrite bool_decide_eq_true_2 by done. destruct (load_range_wide args (N.of_nat n) Hb ltac:(lia)) as [-> _].
  set (per := _ / _ + 1). replace (N.of_nat (S n)) with (N.of_nat n + 1) by lia. rewrite <-fmap_app. f_equal.
  destruct (decide (N.of_nat n * per ≤ la_keys args)).
  - rewrite (N.min_l (N.of_nat n * per)) by done. apply range_split; lia.
  - rewrite (range_nil (N.of_nat n * per)) by lia. rewrite app_nil_r. f_equal. lia.
Qed.

(** The load phase covers the key space. The tasks of the workers, one after the
    other, load every key below [keys] exactly once, in order, whatever the number
    of workers. *)
Theorem load_covers_keys args :
  la_phase args = "load" → 0 < la_clients args → la_keys args + la_clients args < 2 ^ 64 →
  concat ((λ w, worker_tasks args (N.of_nat w)) <$> seq 0 (N.to_nat (la_clients args)))
    = LoadKey <$> range 0 (la_keys args).
Proof.
  intros Hp Hc Hb. rewrite load_prefix by (done || lia). rewrite N2Nat.id.
  destruct (load_range_wide args 0 Hb Hc) as [_ Hle]. by rewrite N.min_r.
Qed.

(** ** Values *)

Lemma value_loop_length fuel len v rng :
  (len <= fuel + length v)%nat → (len <= length (value_loop fuel len v rng).2)%nat.
Proof.
  revert v rng. induction fuel as [|fuel IH]; intros v rng Hf; simpl; [lia|].
  destruct (Nat.ltb_spec (length v) len); [|done]. destruct (Bench.splitmix rng) as [rng' z].
  apply IH. rewrite length_app, length_to_le. lia.
Qed.

(** A value has the length that was asked for. *)
Lemma make_value_length len rng : length (make_value len rng).2 = len.
Proof.
  unfold make_value. pose proof (value_loop_length len len [] rng ltac:(simpl; lia)) as Hl.
  destruct (value_loop len len [] rng) as [rng' v]. simpl in *. rewrite length_take. lia.
Qed.

(** ** What a worker sends *)

(** The key that a request is about. *)
Definition request_key (req : Request) : option bytes :=
  match req with
  | ReqPut _ _ k _ | ReqDelete _ _ k | ReqCas _ _ k _ _ | ReqGet k _ | ReqScan k _ _ _ => Some k
  | ReqStatus => None
  end.

Definition sends_on (k : bytes) (ss : list sent) : Prop := Forall (λ s, request_key s.2 = Some k) ss.

(** A call of a routed client returns, and sends its own request only. *)
Lemma call_about k req net c :
  request_key req = Some k → routed c →
  ∃ v c' ss, call req net c = Some (v, c', ss) ∧ routed c' ∧ sends_on k ss.
Proof.
  intros Hk Hr. destruct (call_loop_spec (cc_max_attempts (kc_cfg c)) 0 req "" net c Hr)
    as (v & c' & ss & Hc & Hr' & _ & Hall & _). exists v, c', ss. split_and!; [done..|].
  eapply Forall_impl; [done|]. by intros s ->.
Qed.

Lemma put_about k v net c :
  routed c → ∃ r c' ss, put k v net c = Some (r, c', ss) ∧ routed c' ∧ sends_on k ss.
Proof.
  intros Hr. unfold put. edestruct (call_about k) as (x & c' & ss & -> & ? & ?);
    [| |by eexists _, _, _]; done.
Qed.

Lemma get_about k m net c :
  routed c → ∃ r c' ss, get k m net c = Some (r, c', ss) ∧ routed c' ∧ sends_on k ss.
Proof.
  intros Hr. unfold get. edestruct (call_about k) as (x & c' & ss & -> & ? & ?);
    [| |by eexists _, _, _]; done.
Qed.

Lemma scan_about k e l m net c :
  routed c → ∃ r c' ss, scan k e l m net c = Some (r, c', ss) ∧ routed c' ∧ sends_on k ss.
Proof.
  intros Hr. unfold scan. edestruct (call_about k) as (x & c' & ss & -> & ? & ?);
    [| |by eexists _, _, _]; done.
Qed.

Lemma cas_about k e n net c :
  routed c → ∃ r c' ss, cas k e n net c = Some (r, c', ss) ∧ routed c' ∧ sends_on k ss.
Proof.
  intros Hr. unfold cas. edestruct (call_about k) as (x & c' & ss & -> & ? & ?);
    [| |by eexists _, _, _]; done.
Qed.

(** What an iteration is about: the kind and the key of a task at a cursor, and
    where the cursor goes. *)
Definition task_fits (args : LoadArgs) (t : task) (cursor : N) (it : iteration) (cursor' : N) : Prop :=
  match t with
  | LoadKey i => it_kind it = Bench.Insert ∧ it_key it = i ∧ cursor' = cursor
  | RunOp =>
    mixes (la_workload args) (it_kind it) ∧
    if decide (it_kind it = Bench.Insert) then it_key it = cursor ∧ cursor' = cursor + 1
    else cursor' = cursor ∧
      it_key it < if decide (la_workload args = WorkloadD) then N.max cursor 1 else N.max (la_keys args) 1
  end.

Lemma latest_lt cursor rng : (latest cursor rng).2 < N.max cursor 1.
Proof.
  unfold latest. destruct (Bench.splitmix rng) as [rng' z]. simpl.
  pose proof (N.mod_lt z (N.max (cursor - (cursor - 1000)) 1) ltac:(lia)). lia.
Qed.

(** An iteration of a routed client returns, is what its task asks for, and sends
    requests on its key only. *)
Lemma run_task_spec zipf_rank args t cursor e kv rng :
  routed kv →
  ∃ it cursor', run_task zipf_rank args t cursor e kv rng = Some (it, cursor') ∧ routed (it_kv it) ∧
    sends_on (key_of (it_key it)) (it_sent it) ∧ task_fits args t cursor it cursor'.
Proof.
  intros Hr. destruct t as [i|]; simpl.
  { unfold load_key. destruct (make_value _ rng) as [rng' v].
    destruct (put_about (key_of i) v (ie_net e) kv Hr) as (r & kv' & ss & -> & ? & ?). simpl. by eexists _, _. }
  unfold run_op. pose proof (choose_mixes (la_workload args) rng) as Hmix.
  destruct (choose (la_workload args) rng) as [rng1 kind]. destruct (rand_f64 rng1) as [rng2 u].
  set (idx := scramble _ _). assert (idx < N.max (la_keys args) 1) as Hidx by (apply scramble_lt; lia). simpl in Hmix.
  assert (kind ≠ Read → kind ≠ Bench.Insert → la_workload args ≠ WorkloadD) as HD.
  { intros ?? HD. rewrite HD in Hmix. by destruct kind. }
  destruct kind; simpl.
  - unfold bench_read. set (p := if decide _ then _ else _). 
    assert (p.2 < if decide (la_workload args = WorkloadD) then N.max cursor 1 else N.max (la_keys args) 1) as Hp.
    { subst p. destruct (decide _); [apply latest_lt|done]. }
    destruct p as [rng3 i]. destruct (get_about (key_of i) (la_consistency args) (ie_net e) kv Hr)
      as (r & kv' & ss & -> & ? & ?). simpl. by eexists _, _.
  - unfold bench_put. destruct (make_value _ rng2) as [rng3 v].
    destruct (put_about (key_of idx) v (ie_net e) kv Hr) as (r & kv' & ss & -> & ? & ?). simpl.
    eexists _, _. split; [done|]. simpl. by rewrite decide_False by (by apply HD).
  - unfold bench_put. destruct (make_value _ rng2) as [rng3 v].
    destruct (put_about (key_of cursor) v (ie_net e) kv Hr) as (r & kv' & ss & -> & ? & ?). simpl. by eexists _, _.
  - unfold bench_scan. destruct (Bench.splitmix rng2) as [rng3 z].
    destruct (scan_about (key_of idx) None (1 + z mod 100) (la_consistency args) (ie_net e) kv Hr)
      as (r & kv' & ss & -> & ? & ?). simpl. eexists _, _. split; [done|]. simpl.
    by rewrite decide_False by (by apply HD).
  - unfold bench_rmw. destruct (get_about (key_of idx) (la_consistency args) (ie_net e) kv Hr)
      as (r & kv' & ss & -> & Hr' & ?). simpl. destruct r as [cur|]; simpl.
    + destruct (make_value _ rng2) as [rng3 v].
      destruct (cas_about (key_of idx) cur (Some v) (ie_net2 e) kv' Hr') as (r2 & kv2 & ss2 & -> & ? & ?). simpl.
      eexists _, _. split; [done|]. simpl. rewrite decide_False by (by apply HD). split_and!; try done. by apply Forall_app.
    + eexists _, _. split; [done|]. simpl. by rewrite decide_False by (by apply HD).
Qed.

(** ** Accounting *)

(** The operations a worker has to show for. *)
Definition spent (wk : worker) : nat := (total_ops (wk_out wk) + N.to_nat (errors (wk_out wk)))%nat.

Lemma note_op_spent kind ok us out :
  (total_ops (note_op kind ok us out) + N.to_nat (errors (note_op kind ok us out))
    = S (total_ops out + N.to_nat (errors out)))%nat.
Proof.
  unfold note_op, total_ops. destruct ok; simpl; [|lia].
  assert (sum_list_with (λ kl, length (micros kl.2)) (record_kind kind us (per_kind out))
    = S (sum_list_with (λ kl, length (micros kl.2)) (per_kind out))) as ->; [|lia].
  induction (per_kind out) as [|[k lat] l IH]; simpl; [done|].
  destruct (decide (k = kind)); simpl; [rewrite length_app; simpl; lia|rewrite IH; lia].
Qed.

(** Clients are routed, and the counter counts what the workers have to show for. *)
Definition bench_inv (b : bench) : Prop :=
  Forall (λ wk, routed (wk_kv wk)) (bn_workers b) ∧ bn_done b = N.of_nat (sum_list_with spent (bn_workers b)).

Definition left_over (b : bench) : nat := sum_list_with (λ wk, length (wk_todo wk)) (bn_workers b).

Section runs.
  Variable zipf_rank : N → N → N.
  Variable args : LoadArgs.
  Abbreviation step := (bench_step zipf_rank args).
  Abbreviation run := (bench_run zipf_rank args).

(** A worker with something to do does it. *)
Lemma bench_step_spec w e b wk t todo :
  bench_inv b → bn_workers b !! w = Some wk → wk_todo wk = t :: todo →
  ∃ it b', step w e b = Some (it, b') ∧ bench_inv b' ∧ bn_done b' = bn_done b + 1 ∧ left_over b = S (left_over b') ∧
    sends_on (key_of (it_key it)) (it_sent it) ∧ task_fits args t (bn_cursor b) it (bn_cursor b') ∧
    ∃ wk', bn_workers b' = <[w := wk']> (bn_workers b) ∧ wk_todo wk' = todo.
Proof.
  intros [Hr Hd] Hw Ht. pose proof (Forall_lookup_1 _ _ _ _ Hr Hw) as Hrw.
  destruct (run_task_spec zipf_rank args t (bn_cursor b) e (wk_kv wk) (wk_rng wk) Hrw)
    as (it & cursor & Hrun & Hr' & Hs & Hf).
  unfold bench_step. rewrite Hw. simpl. rewrite Ht, Hrun. simpl. set (wk' := mkWorker _ _ _ _).
  assert (spent wk' = S (spent wk)) as Hsp by apply note_op_spent.
  pose proof (sum_list_with_insert spent _ _ _ wk' Hw) as Hsum.
  pose proof (sum_list_with_insert (λ wk, length (wk_todo wk)) _ _ _ wk' Hw) as Hlen.
  cbv beta in Hlen. rewrite Ht in Hlen. cbn [wk' wk_todo length] in Hlen. eexists _, _. split; [done|]. unfold left_over. simpl.
  split_and!; [|lia..|done|done|by eexists]. split; [by apply Forall_insert|]. cbn [bn_done bn_workers]. lia.
Qed.

Lemma bench_step_inv w e b it b' :
  step w e b = Some (it, b') → ∃ wk t todo, bn_workers b !! w = Some wk ∧ wk_todo wk = t :: todo.
Proof.
  unfold bench_step. intros (wk & Hw & Hs)%bind_Some. destruct (wk_todo wk) as [|t todo] eqn:Ht; [done|].
  by exists wk, t, todo.
Qed.

(** The counts after a schedule. *)
Lemma bench_run_counts sched b its b' :
  bench_inv b → run sched b = Some (its, b') →
  bench_inv b' ∧ bn_done b' = bn_done b + N.of_nat (length its) ∧ left_over b = (length its + left_over b')%nat ∧
  Forall (λ it, sends_on (key_of (it_key it)) (it_sent it)) its.
Proof.
  revert b its. induction sched as [|[w e] sched IH]; intros b its Hi; simpl.
  { intros [= <- <-]. split_and!; [done|simpl; lia|done|constructor]. }
  intros ([it b1] & Hs & ([its1 b2] & Hr & [= <- <-])%bind_Some)%bind_Some.
  destruct (bench_step_inv _ _ _ _ _ Hs) as (wk & t & todo & Hw & Ht).
  destruct (bench_step_spec w e b wk t todo Hi Hw Ht) as (it' & b1' & Hs' & Hi1 & Hd & Hl & Hse & _).
  rewrite Hs in Hs'. injection Hs' as <- <-. destruct (IH b1 its1 Hi1 Hr) as (Hi2 & Hd2 & Hl2 & Hse2).
  split_and!; [done|simpl; lia|simpl; lia|by constructor].
Qed.

(** Every task is an operation of the workload. *)
Definition only_ops (b : bench) : Prop := Forall (λ wk, Forall (eq RunOp) (wk_todo wk)) (bn_workers b).

Lemma bench_run_inserts sched b its b' :
  bench_inv b → only_ops b → run sched b = Some (its, b') →
  it_key <$> filter (λ it, it_kind it = Bench.Insert) its = range (bn_cursor b) (bn_cursor b') ∧
  bn_cursor b ≤ bn_cursor b' ∧
  Forall (λ it, mixes (la_workload args) (it_kind it) ∧
    (it_kind it ≠ Bench.Insert → it_key it <
      if decide (la_workload args = WorkloadD) then N.max (bn_cursor b') 1 else N.max (la_keys args) 1)) its.
Proof.
  revert b its. induction sched as [|[w e] sched IH]; intros b its Hi Ho; simpl.
  { intros [= <- <-]. split_and!; [by rewrite range_nil by lia|lia|constructor]. }
  intros ([it b1] & Hs & ([its1 b2] & Hr & [= <- <-])%bind_Some)%bind_Some.
  destruct (bench_step_inv _ _ _ _ _ Hs) as (wk & t & todo & Hw & Ht).
  destruct (bench_step_spec w e b wk t todo Hi Hw Ht) as (it' & b1' & Hs' & Hi1 & _ & _ & _ & Hf & wk' & Hws & Ht').
  rewrite Hs in Hs'. injection Hs' as <- <-.
  pose proof (Forall_lookup_1 _ _ _ _ Ho Hw) as Htodo. cbv beta in Htodo.
  rewrite Ht in Htodo. apply Forall_cons in Htodo as [<- Htodo].
  assert (only_ops b1) as Ho1.
  { unfold only_ops. rewrite Hws. apply Forall_insert; [done|]. by rewrite Ht'. }
  destruct (IH b1 its1 Hi1 Ho1 Hr) as (Hk & Hle & Hall). destruct Hf as [Hmix Hkind].
  destruct (decide (it_kind it = Bench.Insert)) as [Hin|Hin].
  - destruct Hkind as [Hkey Hc]. rewrite filter_cons_True by done. csimpl.
    rewrite Hk, Hkey, Hc, <-range_cons by lia. split_and!; [done|lia|]. constructor; [done|]. done.
  - destruct Hkind as [Hc Hkey]. rewrite filter_cons_False by done. rewrite Hk, Hc. split_and!; [done|lia|].
    constructor; [|done]. split; [done|]. intros _. eapply N.lt_le_trans; [done|]. destruct (decide _); lia.
Qed.
End runs.

Lemma bench_new_inv args kvs : Forall routed kvs → bench_inv (bench_new args kvs).
Proof.
  intros Hr. split; simpl.
  - apply Forall_forall. intros wk Hwk. apply elem_of_lookup_imap in Hwk as (i & kv & -> & Hi). simpl.
    by eapply Forall_lookup_1.
  - assert (∀ f, sum_list_with spent (imap (λ w kv, worker_new args (f w) kv) kvs) = 0%nat) as Hz; [|by rewrite Hz].
    clear Hr. induction kvs as [|kv kvs IH]; intros f; [done|]. rewrite imap_cons. simpl. apply (IH (f ∘ S)).
Qed.

Lemma bench_new_left args kvs :
  left_over (bench_new args kvs) = length (concat ((λ w, worker_tasks args (N.of_nat w)) <$> seq 0 (length kvs))).
Proof.
  unfold left_over, bench_new. cbn [bn_workers].
  assert (∀ f k, (∀ i, f i = N.of_nat (k + i)) →
    sum_list_with (λ wk, length (wk_todo wk)) (imap (λ w kv, worker_new args (f w) kv) kvs)
    = length (concat ((λ w, worker_tasks args (N.of_nat w)) <$> seq k (length kvs)))) as H; [|by apply (H N.of_nat 0%nat)].
  induction kvs as [|kv kvs IH]; intros f k Hf; [done|]. rewrite imap_cons. simpl. rewrite length_app, Hf, Nat.add_0_r.
  f_equal. apply (IH (f ∘ S)). intros i. simpl. rewrite Hf. f_equal. lia.
Qed.

(** The tasks of all workers together. *)
Lemma all_tasks args :
  0 < la_clients args → la_keys args + la_clients args < 2 ^ 64 →
  N.of_nat (length (concat ((λ w, worker_tasks args (N.of_nat w)) <$> seq 0 (N.to_nat (la_clients args)))))
    = if decide (la_phase args = "load") then la_keys args else la_clients args * (la_ops args / la_clients args).
Proof.
  intros Hc Hb. destruct (decide _) as [Hp|Hp].
  - rewrite load_prefix by (done || lia). rewrite N2Nat.id. destruct (load_range_wide args 0 Hb Hc) as [_ Hle].
    rewrite N.min_r by done. unfold range. rewrite !length_fmap, length_seq. lia.
  - assert (∀ n k, length (concat ((λ w, worker_tasks args (N.of_nat w)) <$> seq k n))
      = (n * N.to_nat (la_ops args / la_clients args))%nat) as ->; [|lia].
    induction n as [|n IH]; intros k; csimpl; [done|]. rewrite length_app, IH.
    unfold worker_tasks. rewrite bool_decide_eq_false_2 by done. rewrite length_replicate. lia.
Qed.

Lemma totals_spent b :
  (total_ops (totals b) + N.to_nat (errors (totals b)) = sum_list_with spent (bn_workers b))%nat.
Proof.
  unfold totals, spent.
  assert (∀ kind lat l, sum_list_with (λ kl, length (micros kl.2)) (merge_kind kind lat l)
    = (length (micros lat) + sum_list_with (λ kl, length (micros kl.2)) l)%nat) as Hkind.
  { intros kind lat l. induction l as [|[k agg] l IH]; simpl; [lia|].
    destruct (decide (k = kind)); simpl; [rewrite length_app; lia|rewrite IH; lia]. }
  assert (∀ t out, total_ops (merge_out t out) = (total_ops t + total_ops out)%nat) as Hmerge.
  { intros t out. unfold total_ops, merge_out. cbn [per_kind]. generalize (per_kind t).
    induction (per_kind out) as [|[k lat] l IH]; intros l0; simpl; [lia|]. rewrite IH, Hkind. simpl. lia. }
  set (t0 := mkWorkerOut [] 0). assert (total_ops t0 = 0%nat ∧ errors t0 = 0) as [Ht0 He0] by done.
  assert (∀ t, (total_ops (foldl merge_out t (wk_out <$> bn_workers b))
    + N.to_nat (errors (foldl merge_out t (wk_out <$> bn_workers b)))
    = total_ops t + N.to_nat (errors t) + sum_list_with (λ wk, total_ops (wk_out wk) + N.to_nat (errors (wk_out wk))) (bn_workers b))%nat)
    as ->; [|lia].
  induction (bn_workers b) as [|wk wks IH]; intros t; csimpl; [lia|]. rewrite IH, Hmerge. simpl. lia.
Qed.

(** ** The theorems *)

(** The client of a worker. *)
Definition connected (args : LoadArgs) (kv : KvClient) : Prop :=
  ∃ env nanos pid n, connect (client_config_new env (la_cluster args)) nanos pid n = Some kv.

Lemma connected_routed args kv : la_cluster args ≠ [] → connected args kv → routed kv.
Proof.
  intros Hne (env & nanos & pid & n & Hc). unfold connect, with_session in Hc. destruct (_ =? 0); [done|].
  injection Hc as <-. unfold routed. simpl. destruct (la_cluster args); [done|simpl; lia].
Qed.

(** The load generator ends and its report accounts for every operation. At any
    point of any schedule, a worker that has something left goes on, whatever the
    network does; when all are done, the operations that the report counts and its
    errors add up to the iterations, and these are one per key in the load phase and
    the share of each worker otherwise. *)
Theorem loadgen_accounts zipf_rank args kvs sched its b :
  0 < la_clients args → la_keys args + la_clients args < 2 ^ 64 → la_cluster args ≠ [] →
  Forall (connected args) kvs → length kvs = N.to_nat (la_clients args) →
  bench_run zipf_rank args sched (bench_new args kvs) = Some (its, b) →
  (∀ w wk e, bn_workers b !! w = Some wk → wk_todo wk ≠ [] → is_Some (bench_step zipf_rank args w e b)) ∧
  bn_done b = N.of_nat (length its) ∧
  (finished_run b →
     (total_ops (totals b) + N.to_nat (errors (totals b)) = length its)%nat ∧
     N.of_nat (length its) =
       if decide (la_phase args = "load") then la_keys args else la_clients args * (la_ops args / la_clients args)).
Proof.
  intros Hc Hb Hne Hkv Hlen Hrun. assert (Forall routed kvs) as Hr.
  { eapply Forall_impl; [done|]. intros kv. by apply connected_routed. }
  destruct (bench_run_counts _ _ _ _ _ _ (bench_new_inv args kvs Hr) Hrun) as (Hi & Hd & Hl & _).
  rewrite N.add_0_l in Hd. split_and!; [|done|].
  - intros w wk e Hw Ht. destruct (wk_todo wk) as [|t todo] eqn:Htodo; [done|].
    destruct (bench_step_spec zipf_rank args w e b wk t todo Hi Hw Htodo) as (it & b' & -> & _). by eexists.
  - intros Hf. rewrite totals_spent. destruct Hi as [_ Hi]. split; [lia|].
    rewrite <-(all_tasks args Hc Hb), <-Hlen, <-bench_new_left, Hl.
    assert (left_over b = 0%nat) as ->; [|lia]. unfold left_over. clear -Hf.
    unfold finished_run in Hf. induction Hf as [|wk wks Hw Hf IH]; simpl; [done|]. by rewrite Hw.
Qed.

(** The keys of a run. Outside the load phase and whatever the schedule, the inserts
    of all workers use the numbers from [keys] on, each once and in order; every
    request is about the key of its operation; the operations are those of the
    workload; and the others read and write loaded keys, or inserted ones for the
    workload that reads the latest. *)
Theorem inserts_are_fresh zipf_rank args kvs sched its b :
  la_phase args ≠ "load" → la_cluster args ≠ [] → Forall (connected args) kvs →
  bench_run zipf_rank args sched (bench_new args kvs) = Some (its, b) →
  it_key <$> filter (λ it, it_kind it = Bench.Insert) its = range (la_keys args) (bn_cursor b) ∧
  Forall (λ it, sends_on (key_of (it_key it)) (it_sent it) ∧ mixes (la_workload args) (it_kind it) ∧
    (it_kind it ≠ Bench.Insert → it_key it <
      if decide (la_workload args = WorkloadD) then N.max (bn_cursor b) 1 else N.max (la_keys args) 1)) its.
Proof.
  intros Hp Hne Hkv Hrun. assert (Forall routed kvs) as Hr.
  { eapply Forall_impl; [done|]. intros kv. by apply connected_routed. }
  pose proof (bench_new_inv args kvs Hr) as Hi. assert (only_ops (bench_new args kvs)) as Ho.
  { apply Forall_forall. intros wk Hwk. apply elem_of_lookup_imap in Hwk as (i & kv & -> & _). simpl.
    unfold worker_tasks. rewrite bool_decide_eq_false_2 by done. by apply Forall_replicate. }
  destruct (bench_run_counts _ _ _ _ _ _ Hi Hrun) as (_ & _ & _ & Hs).
  destruct (bench_run_inserts _ _ _ _ _ _ Hi Ho Hrun) as (Hk & _ & Hall).
  split; [done|]. apply Forall_and. by split.
Qed.

(** ** A concrete run *)

Definition demo_args : LoadArgs := mkLoadArgs ["a"] "run" WorkloadE 4 3 2 10 Stale false.

Definition demo_kv (n : N) : KvClient :=
  default (mkClient (client_config_new (λ _, None) ["a"]) 1 0 0 None 0) (connect (client_config_new (λ _, None) ["a"]) 1000 7 n).

(** Scans are answered, and writes time out. *)
Definition demo_env : iter_env := mkIterEnv (λ _, Answer (RespKvs [])) (λ _, Failure "timeout") 250.

Definition demo_sched : list (nat * iter_env) := [(1%nat, demo_env); (0%nat, demo_env); (1%nat, demo_env); (0%nat, demo_env)].

Definition demo_bench : bench := bench_new demo_args [demo_kv 0; demo_kv 1].

Definition demo_end : list iteration * bench :=
  default ([], demo_bench) (bench_run (λ _ _, 0) demo_args demo_sched demo_bench).

Lemma demo_connected : Forall (connected demo_args) [demo_kv 0; demo_kv 1].
Proof.
  apply Forall_cons. split; [exists (λ _, None), 1000, 7, 0; vm_compute; reflexivity|].
  apply Forall_cons. split; [exists (λ _, None), 1000, 7, 1; vm_compute; reflexivity|]. by apply Forall_nil.
Qed.

Lemma demo_finished : forallb (λ wk, match wk_todo wk with [] => true | _ => false end) (bn_workers demo_end.2) = true.
Proof. vm_compute. reflexivity. Qed.

Lemma load_covers_keys_witness :
  concat ((λ w, worker_tasks (set_phase "load" demo_args) (N.of_nat w)) <$> seq 0 2) = LoadKey <$> range 0 3.
Proof. apply (load_covers_keys (set_phase "load" demo_args)); vm_compute; reflexivity. Defined.

Lemma loadgen_accounts_witness :
  (total_ops (totals demo_end.2) + N.to_nat (errors (totals demo_end.2)) = 4)%nat ∧ bn_done demo_end.2 = 4.
Proof.
  destruct (loadgen_accounts (λ _ _, 0) demo_args [demo_kv 0; demo_kv 1] demo_sched demo_end.1 demo_end.2)
    as (_ & Hd & Hf).
  - vm_compute. reflexivity.
  - vm_compute. reflexivity.
  - discriminate.
  - exact demo_connected.
  - reflexivity.
  - vm_compute. reflexivity.
  - split; [|rewrite Hd; vm_compute; reflexivity].
    destruct Hf as [Ht _]; [|rewrite Ht; vm_compute; reflexivity].
    apply Forall_forall. intros wk Hwk. pose proof demo_finished as Hall. rewrite forallb_forall in Hall.
    apply list_elem_of_In, Hall in Hwk. destruct (wk_todo wk); [reflexivity|discriminate].
Defined.

Lemma inserts_are_fresh_witness :
  it_key <$> filter (λ it, it_kind it = Bench.Insert) demo_end.1 = range 3 (bn_cursor demo_end.2).
Proof.
  apply (inserts_are_fresh (λ _ _, 0) demo_args [demo_kv 0; demo_kv 1] demo_sched demo_end.1 demo_end.2).
  - discriminate.
  - discriminate.
  - exact demo_connected.
  - vm_compute. reflexivity.
Defined.
