(* ===== verification/Kvctl.v ===== *)
(** * The command line client

    crates/client/src/bin/kvctl.rs: the flags, which may stand anywhere on the
    command line, the commands, the calls they make and what they print. The
    standard output takes a number of lines before its reader goes away. *)

From S2P Require Import Prelude Order Text Codec SimBase RaftTypes Kvsm Proto Client.
From stdpp Require Import strings pretty.
From Stdlib Require Import Strings.Ascii.
Local Open Scope string_scope.
Local Open Scope N_scope.

(** ** The command line *)

(** How the process ends before it calls anything: exit code 2 with a message. *)
Inductive CtlExit := CtlUsage | UnknownConsistency (v : string) | BadLimit.

(** The value behind the first occurrence of a flag and the other arguments;
    [None] when the flag is missing or is the last argument. *)
Fixpoint take_flag (flag : string) (args : list string) : option (string * list string) :=
  match args with
  | [] => None
  | a :: args =>
    if bool_decide (a = flag) then match args with [] => None | v :: args => Some (v, args) end
    else '(v, rest) ← take_flag flag args; Some (v, a :: rest)
  end.

Definition parse_consistency (args : list string) : Result (Consistency * list string) CtlExit :=
  match take_flag "--consistency" args with
  | None => Ok (Linearizable, args)
  | Some (v, args) =>
    if bool_decide (v = "linearizable") then Ok (Linearizable, args)
    else if bool_decide (v = "lease") then Ok (LeaderLease, args)
    else if bool_decide (v = "stale") then Ok (Stale, args)
    else Err (UnknownConsistency v)
  end.

Definition parse_limit (args : list string) : Result (N * list string) CtlExit :=
  match take_flag "--limit" args with
  | None => Ok (1000, args)
  | Some (v, args) => match parse_uint 32 v with Some n => Ok (n, args) | None => Err BadLimit end
  end.

Definition opt_bytes (s : string) : option bytes := if bool_decide (s = "-") then None else Some (as_bytes s).

Inductive ctl_command :=
| CtlPut (k v : bytes)
| CtlGet (k : bytes)
| CtlDel (k : bytes)
| CtlCas (k : bytes) (expect new : option bytes)
| CtlScan (start : bytes) (end_ : option bytes)
| CtlStatus.

Definition ctl_command_of (cmd : string) (args : list string) : option ctl_command :=
  if bool_decide (cmd = "put") then
    match args with [k; v] => Some (CtlPut (as_bytes k) (as_bytes v)) | _ => None end
  else if bool_decide (cmd = "get") then match args with [k] => Some (CtlGet (as_bytes k)) | _ => None end
  else if bool_decide (cmd = "del") then match args with [k] => Some (CtlDel (as_bytes k)) | _ => None end
  else if bool_decide (cmd = "cas") then
    match args with [k; expect; new] => Some (CtlCas (as_bytes k) (opt_bytes expect) (opt_bytes new)) | _ => None end
  else if bool_decide (cmd = "scan") then
    match args with s :: rest => Some (CtlScan (as_bytes s) (as_bytes <$> head rest)) | [] => None end
  else if bool_decide (cmd = "status") then match args with [] => Some CtlStatus | _ => None end
  else None.

Record ctl := mkCtl {
  ct_cluster : list string;
  ct_consistency : Consistency;
  ct_limit : N;
  ct_command : ctl_command;
}.

Definition kvctl_parse (args : list string) : Result ctl CtlExit :=
  match take_flag "--cluster" args with
  | None => Err CtlUsage
  | Some (v, args) =>
    let cluster := split_on "," v in
    match parse_consistency args with
    | Err e => Err e
    | Ok (consistency, args) =>
      match parse_limit args with
      | Err e => Err e
      | Ok (limit, args) =>
        match args with
        | [] => Err CtlUsage
        | cmd :: args =>
          match ctl_command_of cmd args with
          | Some c => Ok (mkCtl cluster consistency limit c)
          | None => Err CtlUsage
          end
        end
      end
    end
  end.

(** ** Text of answers *)

(** [String::from_utf8_lossy]: the longest valid parts of a string, and U+FFFD for
    every maximal part of a sequence that is not completed. *)
Definition within (lo hi : N) (b : byte) : bool := (lo <=? Byte.to_N b) && (Byte.to_N b <=? hi).
Definition replacement : bytes := [xef; xbf; xbd].

(** The second byte of a sequence of three or four bytes, after its first one. *)
Definition second_of_three (b c : byte) : bool :=
  if within 0xE0 0xE0 b then within 0xA0 0xBF c
  else if within 0xED 0xED b then within 0x80 0x9F c
  else within 0x80 0xBF c.
Definition second_of_four (b c : byte) : bool :=
  if within 0xF0 0xF0 b then within 0x90 0xBF c
  else if within 0xF4 0xF4 b then within 0x80 0x8F c
  else within 0x80 0xBF c.

Fixpoint from_utf8_lossy (bs : bytes) : bytes :=
  match bs with
  | [] => []
  | b :: r =>
    if within 0 0x7F b then b :: from_utf8_lossy r
    else if within 0xC2 0xDF b then
      match r with
      | c :: r' => if within 0x80 0xBF c then b :: c :: from_utf8_lossy r' else replacement ++ from_utf8_lossy r
      | [] => replacement
      end
    else if within 0xE0 0xEF b then
      match r with
      | c :: r' =>
        if second_of_three b c then
          match r' with
          | d :: r'' => if within 0x80 0xBF d then b :: c :: d :: from_utf8_lossy r'' else replacement ++ from_utf8_lossy r'
          | [] => replacement
          end
        else replacement ++ from_utf8_lossy r
      | [] => replacement
      end
    else if within 0xF0 0xF4 b then
      match r with
      | c :: r' =>
        if second_of_four b c then
          match r' with
          | d :: r'' =>
            if within 0x80 0xBF d then
              match r'' with
              | e :: r''' =>
                if within 0x80 0xBF e then b :: c :: d :: e :: from_utf8_lossy r'''
                else replacement ++ from_utf8_lossy r''
              | [] => replacement
              end
            else replacement ++ from_utf8_lossy r'
          | [] => replacement
          end
        else replacement ++ from_utf8_lossy r
      | [] => replacement
      end
    else replacement ++ from_utf8_lossy r
  end%list.

Definition lossy (bs : bytes) : string := String.string_of_list_byte (from_utf8_lossy bs).

Definition tab : string := String "009" "".

(** [{:?}] of an optional number and of a list of numbers. *)
Definition debug_option (o : option N) : string :=
  match o with Some n => "Some(" +:+ show n +:+ ")" | None => "None" end.
Definition debug_list (l : list N) : string :=
  "[" +:+ match show <$> l with [] => "" | p :: ps => foldl (λ s p, s +:+ ", " +:+ p) p ps end +:+ "]".

(** ** Running a command *)

(** The lines printed and the exit code; 101 is a panic. *)
Record ctl_end := mkCtlEnd { ce_lines : list string; ce_code : N }.

(** [println!] on an output that takes [room] more lines. *)
Definition println (room : nat) (line : string) : ctl_end :=
  match room with O => mkCtlEnd [] 101 | S _ => mkCtlEnd [line] 0 end.

(** Lines written with [emit], until the reader has gone. *)
Definition emit_all (room : nat) (lines : list string) : ctl_end := mkCtlEnd (take room lines) 0.

Section running.
  (** [{:?}] of a response. *)
  Variable debug_response : Response → string.

(** [Display] of a client error. *)
Definition client_error_text (e : ClientError) : string :=
  match e with
  | Unavailable s => "unavailable: " +:+ s
  | Server s => "server error: " +:+ s
  | Unexpected r => "server error: unexpected response: " +:+ debug_response r
  end.

(** An error goes to the standard error, with exit code 1. *)
Definition print_result {A} (r : Result A ClientError) (k : A → ctl_end) : ctl_end :=
  match r with Ok a => k a | Err _ => mkCtlEnd [] 1 end.

Definition status_line (i : nat) (addr : string) (r : Result Response ClientError) : string :=
  match r with
  | Ok (RespStatus id role term leader commit applied last_log_index voters) =>
    "node " +:+ show id +:+ " @ " +:+ addr +:+ ": " +:+ role +:+ " term=" +:+ show term
      +:+ " leader=" +:+ debug_option leader +:+ " commit=" +:+ show commit +:+ " applied=" +:+ show applied
      +:+ " last_log=" +:+ show last_log_index +:+ " voters=" +:+ debug_list voters
  | Ok other => "node " +:+ show (N.of_nat i + 1) +:+ " @ " +:+ addr +:+ ": unexpected " +:+ debug_response other
  | Err e => "node " +:+ show (N.of_nat i + 1) +:+ " @ " +:+ addr +:+ ": DOWN (" +:+ client_error_text e +:+ ")"
  end.

(** [main] behind its parsing, with the client it connected: the outcomes of the
    call, and of the exchange with each node for [status]. *)
Definition kvctl_run (c : ctl) (kv : KvClient) (net : network) (nodes : string → exchange) (room : nat)
    : option (ctl_end * list sent) :=
  match ct_command c with
  | CtlPut k v =>
    '(r, _, ss) ← put k v net kv; Some (print_result r (λ _, println room "OK"), ss)
  | CtlGet k =>
    '(r, _, ss) ← get k (ct_consistency c) net kv;
    Some (print_result r (λ v, println room match v with Some v => lossy v | None => "(nil)" end), ss)
  | CtlDel k =>
    '(r, _, ss) ← Client.delete k net kv; Some (print_result r (λ _, println room "OK"), ss)
  | CtlCas k expect new =>
    '(r, _, ss) ← cas k expect new net kv;
    Some (print_result r (λ '(ok, actual),
      println room ((if (ok : bool) then "SWAPPED" else "FAILED") +:+ " (actual: "
        +:+ match actual with Some a => lossy a | None => "(nil)" end +:+ ")")), ss)
  | CtlScan start end_ =>
    '(r, _, ss) ← scan start end_ (ct_limit c) (ct_consistency c) net kv;
    Some (print_result r (λ kvs, emit_all room
      (((λ kv, lossy kv.1 +:+ tab +:+ lossy kv.2) <$> kvs)
        ++ ["(" +:+ show (N.of_nat (length kvs)) +:+ " keys)"])%list), ss)
  | CtlStatus =>
    Some (emit_all room (imap (λ i addr, status_line i addr (status_of addr (nodes addr))) (ct_cluster c)), [])
  end.
End running.

(** ** Flags may stand anywhere *)

(** An argument that is not a flag, or a flag with its value. *)
Inductive item := Word (w : string) | Flag (f v : string).

Fixpoint flatten (items : list item) : list string :=
  match items with
  | [] => []
  | Word w :: items => w :: flatten items
  | Flag f v :: items => f :: v :: flatten items
  end.

Fixpoint words_of (items : list item) : list string :=
  match items with
  | [] => []
  | Word w :: items => w :: words_of items
  | Flag _ _ :: items => words_of items
  end.

Fixpoint setting (flag : string) (items : list item) : option string :=
  match items with
  | [] => None
  | Word _ :: items => setting flag items
  | Flag f v :: items => if bool_decide (f = flag) then Some v else setting flag items
  end.

(** How often a flag is given, and the items without it. *)
Fixpoint times (flag : string) (items : list item) : nat :=
  match items with
  | [] => 0
  | Word _ :: items => times flag items
  | Flag f _ :: items => if bool_decide (f = flag) then S (times flag items) else times flag items
  end.

Fixpoint without (flag : string) (items : list item) : list item :=
  match items with
  | [] => []
  | Flag f v :: items => if bool_decide (f = flag) then without flag items else Flag f v :: without flag items
  | Word w :: items => Word w :: without flag items
  end.

(** No word and no value looks like the flag, and the flag is given at most once. *)
Definition distinguishes (flag : string) (items : list item) : Prop :=
  Forall (λ it, match it with Word w => w ≠ flag | Flag _ v => v ≠ flag end) items ∧ (times flag items <= 1)%nat.

Lemma without_none flag items : times flag items = 0%nat → without flag items = items ∧ setting flag items = None.
Proof.
  induction items as [|[w|f v] items IH]; simpl; [done| |].
  - intros Ht. by destruct (IH Ht) as [-> ->].
  - case_bool_decide; [done|]. intros Ht. by destruct (IH Ht) as [-> ->].
Qed.

Lemma take_flag_items flag items :
  distinguishes flag items →
  take_flag flag (flatten items) = (λ v, (v, flatten (without flag items))) <$> setting flag items.
Proof.
  intros [Hall Ht]. induction Hall as [|it items Hit Hall IH]; [done|]. destruct it as [w|f v]; simpl in *.
  - rewrite bool_decide_eq_false_2 by done. rewrite IH by done. by destruct (setting flag items).
  - case_bool_decide.
    + destruct (without_none flag items ltac:(lia)) as [-> _]. done.
    + rewrite bool_decide_eq_false_2 by done. rewrite IH by done. by destruct (setting flag items).
Qed.

Lemma without_distinguishes flag g items : distinguishes flag items → distinguishes flag (without g items).
Proof.
  intros [Hall Ht]. split.
  - clear Ht. induction Hall as [|[w|f v] items Hit Hall IH]; simpl; [done|by constructor|].
    case_bool_decide; [done|by constructor].
  - etrans; [|exact Ht]. clear. induction items as [|[w|f v] items IH]; simpl; [done..|].
    repeat (case_bool_decide; simpl); lia.
Qed.

Lemma without_setting flag g items : flag ≠ g → setting flag (without g items) = setting flag items.
Proof.
  intros Hne. induction items as [|[w|f v] items IH]; simpl; [done..|].
  destruct (decide (f = g)) as [->|].
  - rewrite (bool_decide_eq_true_2 (g = g)) by done. by rewrite (bool_decide_eq_false_2 (g = flag)) by done.
  - rewrite (bool_decide_eq_false_2 (f = g)) by done. simpl. by rewrite IH.
Qed.

Lemma without_words flag items : words_of (without flag items) = words_of items.
Proof. induction items as [|[w|f v] items IH]; simpl; [done|by rewrite IH|]. by case_bool_decide. Qed.

Lemma flatten_without_unset flag items : setting flag items = None → flatten (without flag items) = flatten items.
Proof.
  intros Hs. f_equal. induction items as [|[w|f v] items IH]; simpl in *; [done|by rewrite IH|].
  case_bool_decide; [done|]. by rewrite IH.
Qed.

Definition flag_among (fs : list string) (it : item) : Prop := match it with Word _ => True | Flag f _ => f ∈ fs end.

Lemma without_among flag fs items :
  Forall (flag_among (flag :: fs)) items → Forall (flag_among fs) (without flag items).
Proof.
  induction 1 as [|[w|f v] items Hit Hall IH]; simpl; [done|by constructor|]. case_bool_decide as Hf; [done|].
  constructor; [|done]. simpl in *. by apply elem_of_cons in Hit as [?|?].
Qed.

Lemma flatten_words items : Forall (flag_among []) items → flatten items = words_of items.
Proof. induction 1 as [|[w|f v] items Hit Hall IH]; simpl; [done|by rewrite IH|by apply elem_of_nil in Hit]. Qed.

(** ** What a command line means *)

Definition kvctl_flags : list string := ["--cluster"; "--consistency"; "--limit"].

Definition consistency_name (m : Consistency) : string :=
  match m with Linearizable => "linearizable" | LeaderLease => "lease" | Stale => "stale" end.

(** The commands as the head of kvctl.rs documents them; a dash stands for an absent
    value. *)
Inductive spelled : list string → ctl_command → Prop :=
| spelled_put k v : spelled ["put"; k; v] (CtlPut (as_bytes k) (as_bytes v))
| spelled_get k : spelled ["get"; k] (CtlGet (as_bytes k))
| spelled_del k : spelled ["del"; k] (CtlDel (as_bytes k))
| spelled_cas k expect new :
    expect ≠ Some "-" → new ≠ Some "-" →
    spelled ["cas"; k; default "-" expect; default "-" new] (CtlCas (as_bytes k) (as_bytes <$> expect) (as_bytes <$> new))
| spelled_scan start : spelled ["scan"; start] (CtlScan (as_bytes start) None)
| spelled_scan_to start end_ : spelled ["scan"; start; end_] (CtlScan (as_bytes start) (Some (as_bytes end_)))
| spelled_status : spelled ["status"] CtlStatus.

Lemma opt_bytes_dash o : o ≠ Some "-" → opt_bytes (default "-" o) = as_bytes <$> o.
Proof. intros Ho. destruct o as [s|]; [|done]. unfold opt_bytes. simpl. rewrite bool_decide_eq_false_2; [done|congruence]. Qed.

Lemma spelled_command ws cmd :
  spelled ws cmd → ∃ w args, ws = w :: args ∧ ctl_command_of w args = Some cmd.
Proof.
  destruct 1; eexists _, _; (split; [reflexivity|]); try reflexivity.
  change (Some (CtlCas (as_bytes k) (opt_bytes (default "-" expect)) (opt_bytes (default "-" new))) = 
    Some (CtlCas (as_bytes k) (as_bytes <$> expect) (as_bytes <$> new))).
  by rewrite !opt_bytes_dash.
Qed.

(** A command line is understood wherever its flags stand. The words of a
    documented command, with [--cluster] and perhaps [--consistency] and [--limit]
    inserted anywhere and in any order, are parsed to that command with these
    settings, or their defaults. *)
Theorem kvctl_understands items cmd cluster m limit :
  Forall (λ f, distinguishes f items) kvctl_flags → Forall (flag_among kvctl_flags) items →
  spelled (words_of items) cmd →
  setting "--cluster" items = Some cluster →
  default "linearizable" (setting "--consistency" items) = consistency_name m →
  default "1000" (setting "--limit" items) = show limit → limit < 2 ^ 32 →
  kvctl_parse (flatten items) = Ok (mkCtl (split_on "," cluster) m limit cmd).
Proof.
  intros Hd Hamong Hsp Hc Hm Hl Hlim. apply Forall_cons in Hd as [H1 Hd]. apply Forall_cons in Hd as [H2 Hd].
  apply Forall_cons in Hd as [H3 _]. unfold kvctl_parse. rewrite take_flag_items, Hc by done. simpl.
  set (i1 := without "--cluster" items). set (i2 := without "--consistency" i1). set (i3 := without "--limit" i2).
  assert (parse_consistency (flatten i1) = Ok (m, flatten i2)) as ->.
  { unfold parse_consistency. rewrite take_flag_items by (by apply without_distinguishes).
    subst i1. rewrite without_setting by done. destruct (setting "--consistency" items) as [v|] eqn:Hv; simpl in *.
    - subst v. by destruct m.
    - assert (m = Linearizable) as -> by (by destruct m). subst i2.
      by rewrite (flatten_without_unset "--consistency") by (by rewrite without_setting). }
  assert (parse_limit (flatten i2) = Ok (limit, flatten i3)) as ->.
  { unfold parse_limit. rewrite take_flag_items by (by repeat apply without_distinguishes).
    subst i2 i1. rewrite !without_setting by done. destruct (setting "--limit" items) as [v|] eqn:Hv; simpl in *.
    - subst v. by rewrite parse_show.
    - assert (limit = 1000) as -> by (by apply (inj pretty)). subst i3.
      by rewrite (flatten_without_unset "--limit") by (by rewrite !without_setting). }
  assert (flatten i3 = words_of items) as ->.
  { rewrite flatten_words; [subst i3 i2 i1; by rewrite !without_words|].
    by repeat apply without_among. }
  destruct (spelled_command _ _ Hsp) as (w & args & -> & ->). done.
Qed.

(** ** What is printed *)

(** Well-formed UTF-8. *)
Inductive utf8 : bytes → Prop :=
| utf8_nil : utf8 []
| utf8_one b r : within 0 0x7F b = true → utf8 r → utf8 (b :: r)
| utf8_two b c r : within 0xC2 0xDF b = true → within 0x80 0xBF c = true → utf8 r → utf8 (b :: c :: r)
| utf8_three b c d r :
    within 0xE0 0xEF b = true → second_of_three b c = true → within 0x80 0xBF d = true →
    utf8 r → utf8 (b :: c :: d :: r)
| utf8_four b c d e r :
    within 0xF0 0xF4 b = true → second_of_four b c = true → within 0x80 0xBF d = true → within 0x80 0xBF e = true →
    utf8 r → utf8 (b :: c :: d :: e :: r).

Lemma within_disjoint lo hi lo' hi' b : within lo hi b = true → hi < lo' → within lo' hi' b = false.
Proof. unfold within. intros [H1%N.leb_le H2%N.leb_le]%andb_prop Hlt. destruct (N.leb_spec lo' (Byte.to_N b)); [lia|done]. Qed.

Lemma within_disjoint_r lo hi lo' hi' b : within lo hi b = true → hi' < lo → within lo' hi' b = false.
Proof.
  unfold within. intros [H1%N.leb_le H2%N.leb_le]%andb_prop Hlt.
  destruct (N.leb_spec (Byte.to_N b) hi'); [lia|apply andb_false_r].
Qed.

(** Text is printed as it is. *)
Lemma from_utf8_lossy_valid bs : utf8 bs → from_utf8_lossy bs = bs.
Proof.
  induction 1 as [|b r Hb Hr IH|b c r Hb Hc Hr IH|b c d r Hb Hc Hd Hr IH|b c d e r Hb Hc Hd He Hr IH];
    cbn [from_utf8_lossy]; [done|by rewrite Hb, IH|..].
  - rewrite (within_disjoint_r _ _ 0 0x7F b Hb) by done. by rewrite Hb, Hc, IH.
  - rewrite (within_disjoint_r _ _ 0 0x7F b Hb), (within_disjoint_r _ _ 0xC2 0xDF b Hb) by done.
    by rewrite Hb, Hc, Hd, IH.
  - rewrite (within_disjoint_r _ _ 0 0x7F b Hb), (within_disjoint_r _ _ 0xC2 0xDF b Hb),
      (within_disjoint_r _ _ 0xE0 0xEF b Hb) by done. by rewrite Hb, Hc, Hd, He, IH.
Qed.

(** The answer of the call of a command, as a result. *)
Definition succeeds (cmd : ctl_command) (v : verdict) : Prop :=
  match cmd, v with
  | CtlPut _ _, Ok RespOk | CtlDel _, Ok RespOk | CtlGet _, Ok (RespValue _) | CtlCas _ _ _, Ok (RespCas _ _)
  | CtlScan _ _, Ok (RespKvs _) => True
  | _, _ => False
  end.

(** The request of a command, for a session that has used [seq] numbers. *)
Definition ctl_request (c : ctl) (session seq : N) : option Request :=
  match ct_command c with
  | CtlPut k v => Some (ReqPut session (seq + 1) k v)
  | CtlGet k => Some (ReqGet k (ct_consistency c))
  | CtlDel k => Some (ReqDelete session (seq + 1) k)
  | CtlCas k e n => Some (ReqCas session (seq + 1) k e n)
  | CtlScan s e => Some (ReqScan s e (ct_limit c) (ct_consistency c))
  | CtlStatus => None
  end.

Definition one_line (cmd : ctl_command) : bool := match cmd with CtlScan _ _ | CtlStatus => false | _ => true end.

(** The exit code of a command. A client that was connected to a configured
    address never fails to finish: it sends the request of its command and nothing
    else, and exits with 0 when the call got the answer that the command expects and
    with 1 when it did not. [status] always exits with 0. Only the commands that
    print one line panic, and only when the reader of the output has already gone. *)
Theorem kvctl_exit_code debug_response c kv net nodes room :
  routed kv →
  ∃ ce ss, kvctl_run debug_response c kv net nodes room = Some (ce, ss) ∧
    Forall (λ s, ctl_request c (kc_session_id kv) (kc_seq kv) = Some s.2) ss ∧
    (ct_command c = CtlStatus → ce_code ce = 0) ∧
    (ct_command c ≠ CtlStatus → ∃ v n, ends (cc_max_attempts (kc_cfg kv)) 0 net v n ∧
       (succeeds (ct_command c) v → ce_code ce = if one_line (ct_command c) && (room =? 0)%nat then 101 else 0) ∧
       (¬ succeeds (ct_command c) v → ce_code ce = 1)).
Proof.
  intros Hr. assert (routed (set_seq (kc_seq kv + 1) kv)) as Hr1 by done.
  unfold kvctl_run, ctl_request. destruct (ct_command c) as [k v|k|k|k e n|s e|];
    [..|eexists _, _; split; [done|]; split_and!; [by apply Forall_nil|done|done]];
    unfold put, get, Client.delete, cas, scan, call;
    match goal with |- context [call_loop ?m 0 ?req ?s ?n ?c] =>
      destruct (call_loop_spec m 0 req s n c) as (vd & c' & ss & -> & _ & _ & Hall & Hend); [done|] end;
    eexists _, _; (split; [done|]);
    (split; [eapply Forall_impl; [done|]; by intros ? ->|]); (split; [done|]); intros _;
    exists vd, (length ss); (split; [done|]);
    (destruct vd as [[]|]; simpl; split; intros Hs; try done; try (by destruct room); try (by exfalso; apply Hs)).
Qed.

(** ** Concrete commands *)

(** [kvctl get k --consistency stale --cluster a,b] and its answer. *)
Definition demo_items : list item := [Word "get"; Word "k"; Flag "--consistency" "stale"; Flag "--cluster" "a,b"].
Definition demo_ctl : ctl := mkCtl ["a"; "b"] Stale 1000 (CtlGet [x6b]).

Lemma kvctl_understands_witness : kvctl_parse (flatten demo_items) = Ok demo_ctl.
Proof.
  apply (kvctl_understands demo_items (CtlGet [x6b]) "a,b" Stale 1000).
  - repeat (apply Forall_cons; split); [split; [repeat constructor; discriminate|vm_compute; lia]..|by apply Forall_nil].
  - repeat constructor.
  - exact (spelled_get "k").
  - reflexivity.
  - reflexivity.
  - vm_compute. reflexivity.
  - reflexivity.
Defined.

Lemma kvctl_exit_code_witness :
  routed demo_client ∧
  ∃ ce ss, kvctl_run (λ _, "") demo_ctl demo_client (λ _, Answer (RespValue None)) (λ _, ConnectionClosed) 1 = Some (ce, ss) ∧
    Forall (λ s, ctl_request demo_ctl (kc_session_id demo_client) (kc_seq demo_client) = Some s.2) ss ∧
    (ct_command demo_ctl = CtlStatus → ce_code ce = 0) ∧
    (ct_command demo_ctl ≠ CtlStatus → ∃ v n, ends (cc_max_attempts (kc_cfg demo_client)) 0 (λ _, Answer (RespValue None)) v n ∧
       (succeeds (ct_command demo_ctl) v → ce_code ce = if one_line (ct_command demo_ctl) && (1 =? 0)%nat then 101 else 0) ∧
       (¬ succeeds (ct_command demo_ctl) v → ce_code ce = 1)).
Proof.
  assert (routed demo_client) as Hr by (vm_compute; lia). split; [exact Hr|].
  exact (kvctl_exit_code (λ _, "") demo_ctl demo_client (λ _, Answer (RespValue None)) (λ _, ConnectionClosed) 1 Hr).
Defined.
