(* ===== verification/Server.v ===== *)
(** * The server's event loop

    crates/server/src/core.rs: one task owns the raft node, the log store and the
    state machine, and handles ticks, peer messages and client requests. Its
    effects are the actions of a trace, in order: file operations of the log
    store, answers and dropped answers to client requests, and messages offered
    to the outbound queues. [None] is a server that stopped: on a panic, on an error
    of its storage, or because the model of the storage engine, whose loops are
    bounded by [fuel], was given too few turns. Theorems that a turn ends are about
    every [fuel] from some number on. *)

From S2P Require Import Prelude Order Codec Fs Wal Bloom Memtable SsTable SsTableFacts.
From S2P Require Import MergeIter Manifest Db LsmSpec DbRead DbCompact DbInv DbOps DbEngine DbProps.
From S2P Require Import RaftTypes RaftLog RaftLogFacts RaftNode RaftNodeFacts RaftNodeInv.
From S2P Require Import Kvsm SimCluster Durability LogStore Proto.
From stdpp Require Import strings.
Local Open Scope N_scope.

(** ** Metrics *)

(** The counters and gauges of crates/server/src/metrics.rs. *)
Inductive metric :=
| proposals_total | applied_total | reads_linearizable_total | reads_lease_total | reads_stale_total
| not_leader_total | retries_total | term_gauge | commit_index_gauge | applied_index_gauge
| is_leader_gauge | snapshots_taken_total.

#[export] Instance metric_eq_dec : EqDecision metric.
Proof. solve_decision. Defined.

Definition Metrics : Type := metric → N.

Definition metrics_default : Metrics := λ _, 0.

Definition metrics_set (f : metric) (v : N) (m : Metrics) : Metrics :=
  λ g, if decide (g = f) then v else m g.

Definition metrics_inc (f : metric) (m : Metrics) : Metrics := metrics_set f (wrap 64 (m f + 1)) m.

(** ** State *)

(** The sending half of a [oneshot] channel, by its identity. *)
Abbreviation Tx := N.

Inductive Event :=
| EvTick
| EvPeer (m : Message)
| EvClient (req : Request) (tx : Tx).

Definition PENDING_TIMEOUT_TICKS : N := 50.

Record PendingWrite := mkPendingWrite { pw_tx : Tx; pw_deadline : N }.

Inductive ReadReq :=
| ReadGet (key : bytes)
| ReadScan (start : bytes) (end_ : option bytes) (limit : N).

Record PendingRead := mkPendingRead { rd_req : ReadReq; rd_tx : Tx; rd_deadline : N }.

(** [peer_tx] is the set of peers that have an outbound queue. *)
Record Core (B : Type) := mkCore {
  co_raft : RaftNode;
  co_log : LogStore;
  co_sm : StateMachine B;
  co_applied : Index;
  co_applied_since_snap : N;
  co_snapshot_every : N;
  co_peer_tx : gset NodeId;
  co_pending_writes : gmap (N * N) PendingWrite;
  co_pending_reads : gmap N PendingRead;
  co_ready_reads : list (N * Index);
  co_next_read_id : N;
  co_tick : N;
  co_metrics : Metrics;
}.
Arguments mkCore {B}.
Arguments co_raft {B} c.
Arguments co_log {B} c.
Arguments co_sm {B} c.
Arguments co_applied {B} c.
Arguments co_applied_since_snap {B} c.
Arguments co_snapshot_every {B} c.
Arguments co_peer_tx {B} c.
Arguments co_pending_writes {B} c.
Arguments co_pending_reads {B} c.
Arguments co_ready_reads {B} c.
Arguments co_next_read_id {B} c.
Arguments co_tick {B} c.
Arguments co_metrics {B} c.

(** ** Effects *)

Inductive action :=
| Disk (op : fs_op)
| Reply (tx : Tx) (r : Response)
| Dropped (tx : Tx)
| Sent (m : Message).

Section setters.
  Context {B : Type}.

Definition set_co_raft (v : RaftNode) (c : Core B) : Core B :=
  mkCore v (co_log c) (co_sm c) (co_applied c) (co_applied_since_snap c) (co_snapshot_every c) (co_peer_tx c)
    (co_pending_writes c) (co_pending_reads c) (co_ready_reads c) (co_next_read_id c) (co_tick c) (co_metrics c).
Definition set_co_log (v : LogStore) (c : Core B) : Core B :=
  mkCore (co_raft c) v (co_sm c) (co_applied c) (co_applied_since_snap c) (co_snapshot_every c) (co_peer_tx c)
    (co_pending_writes c) (co_pending_reads c) (co_ready_reads c) (co_next_read_id c) (co_tick c) (co_metrics c).
Definition set_co_sm (v : StateMachine B) (c : Core B) : Core B :=
  mkCore (co_raft c) (co_log c) v (co_applied c) (co_applied_since_snap c) (co_snapshot_every c) (co_peer_tx c)
    (co_pending_writes c) (co_pending_reads c) (co_ready_reads c) (co_next_read_id c) (co_tick c) (co_metrics c).
Definition set_co_applied (v : Index) (c : Core B) : Core B :=
  mkCore (co_raft c) (co_log c) (co_sm c) v (co_applied_since_snap c) (co_snapshot_every c) (co_peer_tx c)
    (co_pending_writes c) (co_pending_reads c) (co_ready_reads c) (co_next_read_id c) (co_tick c) (co_metrics c).
Definition set_co_applied_since_snap (v : N) (c : Core B) : Core B :=
  mkCore (co_raft c) (co_log c) (co_sm c) (co_applied c) v (co_snapshot_every c) (co_peer_tx c)
    (co_pending_writes c) (co_pending_reads c) (co_ready_reads c) (co_next_read_id c) (co_tick c) (co_metrics c).
Definition set_co_pending_writes (v : gmap (N * N) PendingWrite) (c : Core B) : Core B :=
  mkCore (co_raft c) (co_log c) (co_sm c) (co_applied c) (co_applied_since_snap c) (co_snapshot_every c) (co_peer_tx c)
    v (co_pending_reads c) (co_ready_reads c) (co_next_read_id c) (co_tick c) (co_metrics c).
Definition set_co_pending_reads (v : gmap N PendingRead) (c : Core B) : Core B :=
  mkCore (co_raft c) (co_log c) (co_sm c) (co_applied c) (co_applied_since_snap c) (co_snapshot_every c) (co_peer_tx c)
    (co_pending_writes c) v (co_ready_reads c) (co_next_read_id c) (co_tick c) (co_metrics c).
Definition set_co_ready_reads (v : list (N * Index)) (c : Core B) : Core B :=
  mkCore (co_raft c) (co_log c) (co_sm c) (co_applied c) (co_applied_since_snap c) (co_snapshot_every c) (co_peer_tx c)
    (co_pending_writes c) (co_pending_reads c) v (co_next_read_id c) (co_tick c) (co_metrics c).
Definition set_co_next_read_id (v : N) (c : Core B) : Core B :=
  mkCore (co_raft c) (co_log c) (co_sm c) (co_applied c) (co_applied_since_snap c) (co_snapshot_every c) (co_peer_tx c)
    (co_pending_writes c) (co_pending_reads c) (co_ready_reads c) v (co_tick c) (co_metrics c).
Definition set_co_tick (v : N) (c : Core B) : Core B :=
  mkCore (co_raft c) (co_log c) (co_sm c) (co_applied c) (co_applied_since_snap c) (co_snapshot_every c) (co_peer_tx c)
    (co_pending_writes c) (co_pending_reads c) (co_ready_reads c) (co_next_read_id c) v (co_metrics c).
Definition set_co_metrics (v : Metrics) (c : Core B) : Core B :=
  mkCore (co_raft c) (co_log c) (co_sm c) (co_applied c) (co_applied_since_snap c) (co_snapshot_every c) (co_peer_tx c)
    (co_pending_writes c) (co_pending_reads c) (co_ready_reads c) (co_next_read_id c) (co_tick c) v.
End setters.

(** [Metrics::inc] and [Metrics::set] on the metrics of the core. *)
Definition co_inc {B} (f : metric) (c : Core B) : Core B := set_co_metrics (metrics_inc f (co_metrics c)) c.
Definition co_gauge {B} (f : metric) (v : N) (c : Core B) : Core B :=
  set_co_metrics (metrics_set f v (co_metrics c)) c.

(** Steps that leave the disk alone: a new state, or a panic, and what was done. *)
Definition step_of (B : Type) : Type := Core B → option (Core B) * list action.

(** One step after the other. *)
Definition and_then {B} (f g : step_of B) : step_of B := λ c,
  match f c with
  | (Some c, t) => let '(r, t') := g c in (r, t ++ t')
  | (None, t) => (None, t)
  end.

Fixpoint each {A B} (f : A → step_of B) (l : list A) : step_of B :=
  match l with
  | [] => λ c, (Some c, [])
  | x :: l => and_then (f x) (each f l)
  end.

(** Steps that may write to the directory of the log store. *)
Definition act (B : Type) : Type := Core B → Dir → option (Core B) * list action.

Definition disk_ops (t : list action) : list fs_op :=
  omap (λ a, match a with Disk op => Some op | _ => None end) t.

Definition seq_act {B} (f g : act B) : act B := λ c d,
  match f c d with
  | (Some c, t) => let '(r, t') := g c (apply_ops d (disk_ops t)) in (r, t ++ t')
  | (None, t) => (None, t)
  end.

Definition quiet_act {B} (f : step_of B) : act B := λ c _, f c.

(** A write of the log store, with [expect]. *)
Definition log_act {B} (f : LogStore → IO LogStore) : act B := λ c d,
  match f (co_log c) d with
  | (Ok ls, ops) => (Some (set_co_log ls c), Disk <$> ops)
  | (Err _, ops) => (None, Disk <$> ops)
  end.

Declare Scope act_scope.
Delimit Scope act_scope with act.
Notation "f >>> g" := (and_then f g) (at level 60, right associativity) : act_scope.
Notation "f >=> g" := (seq_act f g) (at level 60, right associativity) : act_scope.

Section core.
  Context {B : Type} {bk : Backend B} {cc : Bincode Command} {cp : Bincode SnapshotPayload}.
  Local Open Scope act_scope.
  Implicit Types c : Core B.

(** [let _ = tx.send(r)]. *)
Definition reply (tx : Tx) (r : Response) : step_of B := λ c, (Some c, [Reply tx r]).

(** ** Clients *)

Definition serve_read (req : ReadReq) (c : Core B) : Response :=
  match req with
  | ReadGet key => RespValue (sm_read key (co_sm c))
  | ReadScan start end_ limit => RespKvs (sm_read_range start end_ (N.to_nat limit) (co_sm c))
  end.

Definition propose_err (e : ProposeError) (c : Core B) : Response * Core B :=
  match e with
  | NotLeader hint => (RespNotLeader hint, co_inc not_leader_total c)
  | NotReady => (RespRetry "leader not ready (no commit in current term yet)", co_inc retries_total c)
  | ConfChangeInFlight => (RespErr "conf change in flight", c)
  end.

(** [HashMap::insert] on the pending writes; the sender it replaces is dropped. *)
Definition insert_write (key : N * N) (w : PendingWrite) : step_of B := λ c,
  (Some (set_co_pending_writes (<[key := w]> (co_pending_writes c)) c),
   match co_pending_writes c !! key with Some old => [Dropped (pw_tx old)] | None => [] end).

Definition insert_read (rid : N) (r : PendingRead) : step_of B := λ c,
  (Some (set_co_pending_reads (<[rid := r]> (co_pending_reads c)) c),
   match co_pending_reads c !! rid with Some old => [Dropped (rd_tx old)] | None => [] end).

Definition propose_write (session_id seq : N) (op : Op) (tx : Tx) : step_of B := λ c,
  if session_id =? 0 then reply tx (RespErr "session_id must be nonzero") c
  else
    let cmd := mkCmd session_id seq op in
    let '(raft, r) := propose (cmd_encode cmd) (co_raft c) in
    let c := set_co_raft raft c in
    match r with
    | Ok _ =>
      insert_write (session_id, seq) (mkPendingWrite tx (co_tick c + PENDING_TIMEOUT_TICKS))
        (co_inc proposals_total c)
    | Err e => let '(resp, c) := propose_err e c in reply tx resp c
    end.

Definition handle_read (req : ReadReq) (consistency : Consistency) (tx : Tx) : step_of B := λ c,
  match consistency with
  | Stale => reply tx (serve_read req c) (co_inc reads_stale_total c)
  | LeaderLease =>
    if negb (is_leader (co_raft c)) then
      reply tx (RespNotLeader (n_leader_id (co_raft c))) (co_inc not_leader_total c)
    else if lease_valid (co_raft c) then reply tx (serve_read req c) (co_inc reads_lease_total c)
    else reply tx (RespRetry "leader lease not established") (co_inc retries_total c)
  | Linearizable =>
    let rid := co_next_read_id c in
    let c := set_co_next_read_id (rid + 1) c in
    let '(raft, r) := read_index rid (co_raft c) in
    let c := set_co_raft raft c in
    match r with
    | Ok _ =>
      insert_read rid (mkPendingRead req tx (co_tick c + PENDING_TIMEOUT_TICKS))
        (co_inc reads_linearizable_total c)
    | Err e => let '(resp, c) := propose_err e c in reply tx resp c
    end
  end.

(** [format!("{:?}", role)]. *)
Definition role_name (r : Role) : string :=
  match r with
  | Follower => "Follower" | PreCandidate => "PreCandidate" | Candidate => "Candidate" | Leader => "Leader"
  end.

Definition handle_client (req : Request) (tx : Tx) : step_of B := λ c,
  match req with
  | ReqPut session_id seq key value => propose_write session_id seq (Put key value) tx c
  | ReqDelete session_id seq key => propose_write session_id seq (Kvsm.Delete key) tx c
  | ReqCas session_id seq key expect new => propose_write session_id seq (Cas key expect new) tx c
  | ReqGet key consistency => handle_read (ReadGet key) consistency tx c
  | ReqScan start end_ limit consistency => handle_read (ReadScan start end_ limit) consistency tx c
  | ReqStatus =>
    let raft := co_raft c in
    reply tx (RespStatus (node_id raft) (role_name (n_role raft)) (node_term raft) (n_leader_id raft)
                (n_commit raft) (co_applied c) (RL.last_index (n_log raft)) (voters raft)) c
  end.

(** ** Ticks *)

(** [retain] drops the senders of the requests that waited too long. *)
Definition sweep_timeouts : step_of B := λ c,
  let now := co_tick c in
  let ws := filter (λ kw, ¬ pw_deadline kw.2 ≤ now) (co_pending_writes c) in
  let late_ws := (map_to_list (filter (λ kw, pw_deadline kw.2 ≤ now) (co_pending_writes c))).*2 in
  let rs := filter (λ kr, now < rd_deadline kr.2) (co_pending_reads c) in
  let late_rs := (map_to_list (filter (λ kr, ¬ now < rd_deadline kr.2) (co_pending_reads c))).*2 in
  let c := foldl (λ c _, co_inc retries_total c) c late_ws in
  let c := set_co_pending_reads rs (set_co_pending_writes ws c) in
  let c := set_co_ready_reads (filter (λ r, is_Some (rs !! r.1)) (co_ready_reads c)) c in
  (Some c, (Dropped ∘ pw_tx <$> late_ws) ++ (Dropped ∘ rd_tx <$> late_rs)).

Definition stamp_gauges : step_of B := λ c,
  let raft := co_raft c in
  (Some (co_gauge is_leader_gauge (if is_leader raft then 1 else 0)
           (co_gauge applied_index_gauge (co_applied c)
              (co_gauge commit_index_gauge (n_commit raft) (co_gauge term_gauge (node_term raft) c)))), []).

Definition handle_event (ev : Event) : step_of B := λ c,
  match ev with
  | EvTick =>
    let c := set_co_tick (co_tick c + 1) c in
    (sweep_timeouts >>> stamp_gauges) (set_co_raft (tick (co_raft c)) c)
  | EvPeer m =>
    match step m (co_raft c) with
    | Some raft => (Some (set_co_raft raft c), [])
    | None => (None, [])
    end
  | EvClient req tx => handle_client req tx c
  end.

(** ** Output *)

Definition op_result_response (r : OpResult) : Response :=
  match r with
  | ROk => RespOk
  | RValue v => RespValue v
  | RCas success actual => RespCas success actual
  | RStale => RespErr "stale sequence number"
  end.

(** A snapshot that the leader installed resets the state machine. *)
Definition install_snapshot (snapshot : option Snapshot) : step_of B := λ c,
  match snapshot with
  | None => (Some c, [])
  | Some snap =>
    match sm_restore (s_data snap) (co_sm c) with
    | Some sm => (Some (set_co_applied_since_snap 0 (set_co_applied (s_last_index snap) (set_co_sm sm c))), [])
    | None => (None, [])
    end
  end.

(** The command of a committed entry, with the answer to the client that waits for it. *)
Definition apply_command (cmd : Command) : step_of B := λ c,
  let '(sm, result) := Kvsm.apply cmd (co_sm c) in
  let c := co_inc applied_total (set_co_sm sm c) in
  let key := (cmd_session_id cmd, cmd_seq cmd) in
  match co_pending_writes c !! key with
  | Some w =>
    reply (pw_tx w) (op_result_response result)
      (set_co_pending_writes (base.delete key (co_pending_writes c)) c)
  | None => (Some c, [])
  end.

Definition mark_applied (i : Index) : step_of B := λ c,
  (Some (set_co_applied_since_snap (co_applied_since_snap c + 1) (set_co_applied i c)), []).

Definition apply_entry (e : RaftTypes.Entry) : step_of B :=
  match e_payload e with
  | Normal data =>
    match cmd_decode data with
    | Some cmd => apply_command cmd >>> mark_applied (e_index e)
    | None => λ _, (None, [])
    end
  | _ => mark_applied (e_index e)
  end.

(** Whether the log is compacted now, and with which snapshot. *)
Definition compaction (c : Core B) : RaftNode * option Snapshot :=
  if co_snapshot_every c <=? co_applied_since_snap c then
    node_compact (co_applied c) (sm_snapshot (co_sm c)) (co_raft c)
  else (co_raft c, None).

Definition reset_since_snap : step_of B := λ c,
  (Some (if co_snapshot_every c <=? co_applied_since_snap c then set_co_applied_since_snap 0 c else c), []).

(** A completed ReadIndex round is served once its index is applied. *)
Definition serve_ready (r : N * Index) : step_of B := λ c,
  if r.2 <=? co_applied c then
    match co_pending_reads c !! r.1 with
    | Some p =>
      let c := set_co_pending_reads (base.delete r.1 (co_pending_reads c)) c in
      reply (rd_tx p) (serve_read (rd_req p) c) c
    | None => (Some c, [])
    end
  else (Some (set_co_ready_reads (co_ready_reads c ++ [r]) c), []).

Definition serve_reads (read_states : list (N * Index)) : step_of B := λ c,
  each serve_ready (co_ready_reads c ++ read_states) (set_co_ready_reads [] c).

Definition send_messages (ms : list Message) : step_of B := λ c,
  (Some c, Sent <$> filter (λ m, m_to m ∈ co_peer_tx c) ms).

Section loop.
  Context {crc : Crc32} {cw : Bincode WalBatch} {ci : Bincode TableIndex} {cm : Bincode Manifest}.
  Context {ch : Bincode HardState} {ce : Bincode RaftTypes.Entry} {cs : Bincode Snapshot}.
  (** Turns for the loops of the storage engine. *)
  Context (fuel : nat).

(** The durable part of a batch is written before anything else. *)
Definition durable_part (out : Output) : bool :=
  match o_hard_state out, o_append out, o_snapshot out with
  | None, [], None => false
  | _, _, _ => true
  end.

Definition persist_output (out : Output) : act B :=
  if durable_part out then
    log_act (log_persist fuel (o_hard_state out) (o_append out) (o_snapshot out))
  else λ c _, (Some c, []).

Definition compact_log : act B := λ c,
  match compaction c with
  | (raft, Some snap) =>
    (log_act (log_compact_to fuel snap) >=> quiet_act (λ c, (Some (co_inc snapshots_taken_total c), [])))
      (set_co_raft raft c)
  | (raft, None) => λ _, (Some (set_co_raft raft c), [])
  end.

(** One batch, in the order of the host contract. *)
Definition handle_output (out : Output) : act B :=
  persist_output out >=>
  quiet_act (install_snapshot (o_snapshot out) >>> each apply_entry (o_committed out)) >=>
  compact_log >=>
  quiet_act (reset_since_snap >>> serve_reads (o_read_states out) >>> send_messages (o_messages out)).

Fixpoint process_output (turns : nat) : act B := λ c d,
  match turns with
  | O => (None, [])
  | S turns =>
    let '(raft, out) := take_output (co_raft c) in
    let c := set_co_raft raft c in
    if out_is_empty out then (Some c, []) else (handle_output out >=> process_output turns) c d
  end.

(** The body of [run]: the first event, those already queued up to the budget,
    then the output of all of them. The rest of the queue stays. *)
Definition turn (queue : list Event) : act B :=
  match queue with
  | [] => λ c _, (Some c, [])
  | ev :: queue => quiet_act (handle_event ev >>> each handle_event (take 512 queue)) >=> process_output 2
  end.

(** The loop, for the queues that its turns find. *)
Fixpoint run (queues : list (list Event)) : act B :=
  match queues with
  | [] => λ c _, (Some c, [])
  | q :: queues => turn q >=> run queues
  end.

(** ** Opening *)

(** [open], given the backend that [DbBackend::open] returned. *)
Definition core_open (cfg : Config) (initial_voters : list NodeId) (snapshot_every : N) (peers : gset NodeId)
    (backend : B) : IO (Core B) :=
  '(log, persisted) ← log_open fuel;
  let sm := sm_new backend in
  let '(data, applied) :=
    match p_snapshot persisted with
    | Some snap => (s_data snap, s_last_index snap)
    | None => (sm_snapshot (sm_new (mkMem ∅)), 0)
    end in
  match sm_restore data sm with
  | None => throw Panic
  | Some sm =>
    mret (mkCore (node_new cfg initial_voters persisted) log sm applied 0 snapshot_every peers ∅ ∅ [] 1 0
            metrics_default)
  end.
End loop.
End core.
