(* ===== verification/ServerRequests.v ===== *)
(** * The accounts of client requests

    What the steps of the event loop of crates/server/src/core.rs do to the
    requests it has taken in: each is answered, dropped (the connection task then
    tells the client to retry), or still waiting; and none waits for more than
    [PENDING_TIMEOUT_TICKS] ticks. ServerLive puts the turns of a server together. *)

From S2P Require Import Prelude Order Codec Fs Wal Bloom SsTable Manifest Db DbProps.
From S2P Require Import RaftTypes RaftLog RaftNode Kvsm LogStore Proto Server.
Local Open Scope N_scope.

(** ** The values of a map *)

Definition vals {K A} `{Countable K} (m : gmap K A) : list A := (map_to_list m).*2.

Section vals.
  Context {K A : Type} `{Countable K}.
  Implicit Types m : gmap K A.

Lemma vals_delete m k v : m !! k = Some v → vals m ≡ₚ v :: vals (delete k m).
Proof. intros Hk. unfold vals. by rewrite <-(map_to_list_delete m k v Hk). Qed.

Lemma vals_insert m k v : vals (<[k := v]> m) ≡ₚ v :: vals (delete k m).
Proof.
  rewrite (vals_delete _ k v) by apply lookup_insert_eq. by rewrite delete_insert_eq.
Qed.

Lemma vals_partition m (P : K * A → Prop) `{!∀ x, Decision (P x)} :
  vals m ≡ₚ vals (filter P m) ++ vals (filter (λ x, ¬ P x) m).
Proof.
  induction m as [|k v m Hk IH] using map_ind; [by rewrite !map_filter_empty|].
  rewrite vals_insert, delete_id by done.
  assert (∀ Q (Hq : ∀ x, Decision (Q x)), vals (filter Q (<[k := v]> m))
    ≡ₚ (if decide (Q (k, v)) then [v] else []) ++ vals (filter Q m)) as Hf.
  { intros Q Hq. rewrite map_filter_insert. destruct (decide (Q (k, v))).
    - rewrite vals_insert, delete_id; [done|]. apply map_lookup_filter_None. by left.
    - by rewrite delete_id. }
  rewrite !Hf, IH. destruct (decide (P (k, v))) as [HP|HP], (decide (¬ P (k, v))) as [HN|HN]; try done.
  simpl. by rewrite Permutation_middle.
Qed.

Lemma elem_of_vals m v : v ∈ vals m ↔ ∃ k, m !! k = Some v.
Proof.
  unfold vals. rewrite list_elem_of_fmap. split.
  - intros ([k x] & -> & Hk%elem_of_map_to_list). eauto.
  - intros [k Hk]. exists (k, v). by rewrite elem_of_map_to_list.
Qed.
End vals.

(** ** Accounts *)

Section requests.
  Context {B : Type} {bk : Backend B} {cc : Bincode Command} {cp : Bincode SnapshotPayload}.
  Implicit Types (c : Core B) (f g : step_of B) (xs : list Tx).
  Local Open Scope act_scope.

(** The requests that wait for their answer, with their deadlines. *)
Definition dues (c : Core B) : list (Tx * N) :=
  ((λ w, (pw_tx w, pw_deadline w)) <$> vals (co_pending_writes c))
    ++ ((λ r, (rd_tx r, rd_deadline r)) <$> vals (co_pending_reads c)).

Definition waiting (c : Core B) : list Tx := (dues c).*1.

(** The requests that a trace settles. *)
Definition settled (t : list action) : list Tx :=
  omap (λ a, match a with Reply tx _ | Dropped tx => Some tx | _ => None end) t.

(** The request of an event, and the requests and ticks among events. *)
Definition ask (ev : Event) : list Tx := match ev with EvClient _ tx => [tx] | _ => [] end.
Definition tick_of (ev : Event) : N := match ev with EvTick => 1 | _ => 0 end.
Definition asked (evs : list Event) : list Tx := evs ≫= ask.
Definition ticks (evs : list Event) : N := foldr (λ ev n, tick_of ev + n) 0 evs.

(** What a step that takes in the requests [xs] and lets [n] ticks pass does to
    the requests that wait. *)
Record accounts (xs : list Tx) (n : N) (c c' : Core B) (t : list action) : Prop := {
  ac_balance : xs ++ waiting c ≡ₚ settled t ++ waiting c';
  ac_tick : co_tick c' = co_tick c + n;
  ac_dues : ∀ tx dl, (tx, dl) ∈ dues c' →
    (tx, dl) ∈ dues c ∧ (n = 0 ∨ co_tick c' < dl)
    ∨ tx ∈ xs ∧ co_tick c' < dl ≤ co_tick c' + PENDING_TIMEOUT_TICKS;
}.

Definition accounted (xs : list Tx) (n : N) (f : step_of B) : Prop :=
  ∀ c c' t, f c = (Some c', t) → accounts xs n c c' t.

Lemma settled_app t1 t2 : settled (t1 ++ t2) = settled t1 ++ settled t2.
Proof. apply omap_app. Qed.

Lemma accounts_trans xs ys n m c1 c2 c3 t1 t2 :
  accounts xs n c1 c2 t1 → accounts ys m c2 c3 t2 → accounts (xs ++ ys) (n + m) c1 c3 (t1 ++ t2).
Proof.
  intros [H1 H2 H3] [G1 G2 G3]. split.
  - rewrite settled_app, <-!app_assoc, <-G1, !app_assoc, (Permutation_app_comm xs ys), (Permutation_app_comm _ ys).
    rewrite <-!app_assoc. by f_equiv.
  - lia.
  - intros tx dl [[Hd Hm]|[Hy Hd]]%G3; [apply H3 in Hd as [[Hd Hn]|[Hx Hd]]|].
    + left. split; [done|]. destruct Hm; [|by right]. destruct Hn; [left|right]; lia.
    + right. rewrite elem_of_app. split; [by left|]. destruct Hm; lia.
    + right. rewrite elem_of_app. split; [by right|done].
Qed.

(** A step within a tick that takes in [new], settles [old] and keeps the rest. *)
Lemma accounts_exchange new old D c c' t :
  dues c ≡ₚ old ++ D → dues c' ≡ₚ new ++ D → settled t = old.*1 → co_tick c' = co_tick c →
  (∀ tx dl, (tx, dl) ∈ new → co_tick c < dl ≤ co_tick c + PENDING_TIMEOUT_TICKS) →
  accounts new.*1 0 c c' t.
Proof.
  intros H1 H2 Hs Ht Hn. split.
  - unfold waiting. rewrite H1, H2, Hs, !fmap_app, !app_assoc. f_equiv. apply Permutation_app_comm.
  - lia.
  - intros tx dl. rewrite H2, H1, !elem_of_app, Ht. intros [Hd|Hd]; [right|left; auto].
    split; [by apply (list_elem_of_fmap_2 fst) in Hd|by eapply Hn].
Qed.

(** A step that settles one request. *)
Lemma accounts_settle x c c' t :
  dues c ≡ₚ x :: dues c' → settled t = [x.1] → co_tick c' = co_tick c → accounts [] 0 c c' t.
Proof.
  intros Hd Hs Ht. by apply (accounts_exchange [] [x] (dues c')); [..|intros ? ? ?%elem_of_nil].
Qed.

(** A step that does not touch the waiting requests. *)
Lemma accounts_same c c' t :
  co_pending_writes c' = co_pending_writes c → co_pending_reads c' = co_pending_reads c →
  co_tick c' = co_tick c → settled t = [] → accounts [] 0 c c' t.
Proof.
  intros Hw Hr Ht Hs. apply (accounts_exchange [] [] (dues c)); [done| |done|done|by intros ? ? ?%elem_of_nil].
  unfold dues. by rewrite Hw, Hr.
Qed.

(** A request answered at once. *)
Lemma accounts_reply c c' t tx r :
  co_pending_writes c' = co_pending_writes c → co_pending_reads c' = co_pending_reads c →
  co_tick c' = co_tick c → t = [Reply tx r] → accounts [tx] 0 c c' t.
Proof.
  intros Hw Hr Ht ->. assert (dues c' = dues c) as Hd by (unfold dues; by rewrite Hw, Hr).
  split; unfold waiting; rewrite ?Hd, ?Ht; [done|lia|by auto].
Qed.

Lemma accounted_then xs ys n m f g :
  accounted xs n f → accounted ys m g → accounted (xs ++ ys) (n + m) (f >>> g).
Proof.
  intros Hf Hg c c' t. unfold and_then. destruct (f c) as [[c1|] t1] eqn:Hc; [|done].
  destruct (g c1) as [r t2] eqn:Hc1. intros [= -> <-].
  eapply accounts_trans; [by apply Hf|by apply Hg].
Qed.

Lemma accounted_each {X} (F : X → step_of B) (req : X → list Tx) (ts : X → N) l :
  (∀ x, accounted (req x) (ts x) (F x)) → accounted (l ≫= req) (foldr (λ x n, ts x + n) 0 l) (each F l).
Proof.
  intros HF. induction l as [|x l IH]; [|by apply accounted_then].
  intros c c' t [= <- <-]. by apply accounts_same.
Qed.

(** ** Clients *)

(** The pairs that [dues] lists. *)
Definition write_due (w : PendingWrite) : Tx * N := (pw_tx w, pw_deadline w).
Definition read_due (r : PendingRead) : Tx * N := (rd_tx r, rd_deadline r).

Lemma insert_write_accounts k tx dl c c' t :
  insert_write k (mkPendingWrite tx dl) c = (Some c', t) → dl = co_tick c + PENDING_TIMEOUT_TICKS →
  accounts [tx] 0 c c' t.
Proof.
  intros [= <- <-] Hdl.
  apply (accounts_exchange [(tx, dl)] (option_list (write_due <$> co_pending_writes c !! k))
    ((write_due <$> vals (delete k (co_pending_writes c))) ++ (read_due <$> vals (co_pending_reads c)))).
  - unfold dues. fold write_due read_due. destruct (co_pending_writes c !! k) as [old|] eqn:Hk.
    + by rewrite (vals_delete _ _ _ Hk).
    + by rewrite delete_id.
  - unfold dues. simpl. by rewrite vals_insert.
  - by destruct (co_pending_writes c !! k).
  - done.
  - intros tx' dl' [= -> ->]%list_elem_of_singleton. unfold PENDING_TIMEOUT_TICKS in *. lia.
Qed.

Lemma insert_read_accounts k req tx dl c c' t :
  insert_read k (mkPendingRead req tx dl) c = (Some c', t) → dl = co_tick c + PENDING_TIMEOUT_TICKS →
  accounts [tx] 0 c c' t.
Proof.
  intros [= <- <-] Hdl.
  apply (accounts_exchange [(tx, dl)] (option_list (read_due <$> co_pending_reads c !! k))
    ((write_due <$> vals (co_pending_writes c)) ++ (read_due <$> vals (delete k (co_pending_reads c))))).
  - unfold dues. fold write_due read_due. rewrite app_assoc, (Permutation_app_comm (option_list _)), <-app_assoc.
    destruct (co_pending_reads c !! k) as [old|] eqn:Hk.
    + by rewrite (vals_delete _ _ _ Hk).
    + by rewrite delete_id.
  - unfold dues. simpl. rewrite vals_insert. csimpl. by rewrite <-Permutation_middle.
  - by destruct (co_pending_reads c !! k).
  - done.
  - intros tx' dl' [= -> ->]%list_elem_of_singleton. unfold PENDING_TIMEOUT_TICKS in *. lia.
Qed.

(** Changes around the waiting requests. *)
Lemma accounts_before xs n c0 c c' t :
  co_pending_writes c = co_pending_writes c0 → co_pending_reads c = co_pending_reads c0 →
  co_tick c = co_tick c0 → accounts xs n c c' t → accounts xs n c0 c' t.
Proof.
  intros Hw Hr Ht [H1 H2 H3]. assert (dues c = dues c0) as Hd by (unfold dues; by rewrite Hw, Hr).
  split; unfold waiting; rewrite <-?Hd; [exact H1|congruence|exact H3].
Qed.

Lemma propose_write_accounted sid seq op tx : accounted [tx] 0 (propose_write sid seq op tx).
Proof.
  intros c c' t. unfold propose_write, reply. destruct (_ =? 0).
  { intros [= <- <-]. by eapply accounts_reply. }
  destruct (propose _ _) as [raft [i|e]].
  - intros Hi. eapply (accounts_before _ _ c); [..|eapply insert_write_accounts; [exact Hi|]]; done.
  - destruct e; simpl; intros [= <- <-]; by eapply accounts_reply.
Qed.

Lemma handle_read_accounted req con tx : accounted [tx] 0 (handle_read req con tx).
Proof.
  intros c c' t. unfold handle_read, reply. destruct con.
  - destruct (read_index _ _) as [raft [[]|e]].
    + intros Hi. eapply (accounts_before _ _ c); [..|eapply insert_read_accounts; [exact Hi|]]; done.
    + destruct e; simpl; intros [= <- <-]; by eapply accounts_reply.
  - destruct (negb _); [|destruct (lease_valid _)]; intros [= <- <-]; by eapply accounts_reply.
  - intros [= <- <-]. by eapply accounts_reply.
Qed.

Lemma handle_client_accounted req tx : accounted [tx] 0 (handle_client req tx).
Proof.
  intros c c' t. destruct req; simpl; try apply propose_write_accounted; try apply handle_read_accounted.
  intros [= <- <-]. by eapply accounts_reply.
Qed.

(** ** Ticks *)

Lemma count_retries {X} (l : list X) c :
  let c' := foldl (λ c _, co_inc retries_total c) c l in
  co_pending_writes c' = co_pending_writes c ∧ co_pending_reads c' = co_pending_reads c
  ∧ co_ready_reads c' = co_ready_reads c ∧ co_tick c' = co_tick c ∧ co_raft c' = co_raft c
  ∧ co_sm c' = co_sm c ∧ co_applied c' = co_applied c ∧ co_log c' = co_log c
  ∧ co_peer_tx c' = co_peer_tx c.
Proof. revert c. induction l as [|x l IH]; intros c; simpl; [done|]. apply (IH (co_inc retries_total c)). Qed.

(** [sweep_timeouts] settles exactly the requests whose deadline has passed. *)
Lemma sweep_timeouts_spec c c' t :
  sweep_timeouts c = (Some c', t) →
  waiting c ≡ₚ settled t ++ waiting c' ∧ co_tick c' = co_tick c
  ∧ ∀ tx dl, (tx, dl) ∈ dues c' → (tx, dl) ∈ dues c ∧ co_tick c < dl.
Proof.
  unfold sweep_timeouts. destruct (count_retries
    (map_to_list (filter (λ kw : N * N * PendingWrite, pw_deadline kw.2 ≤ co_tick c) (co_pending_writes c))).*2 c)
    as (_ & _ & _ & Ht & _). intros [= <- <-]. simpl. split_and!; [|done|].
  - unfold waiting, dues. simpl. rewrite settled_app.
    rewrite (vals_partition (co_pending_writes c) (λ kw, pw_deadline kw.2 ≤ co_tick c)).
    rewrite (vals_partition (co_pending_reads c) (λ kr, co_tick c < rd_deadline kr.2)).
    assert (∀ l, settled (Dropped ∘ pw_tx <$> l) = (write_due <$> l).*1) as Hw.
    { intros l. induction l as [|w l IH]; csimpl; [done|]. by rewrite <-IH. }
    assert (∀ l, settled (Dropped ∘ rd_tx <$> l) = (read_due <$> l).*1) as Hr.
    { intros l. induction l as [|w l IH]; csimpl; [done|]. by rewrite <-IH. }
    rewrite Hw, Hr. fold write_due read_due. unfold vals. rewrite !fmap_app. solve_Permutation.
  - intros tx dl. unfold dues. simpl. rewrite !elem_of_app, !list_elem_of_fmap. setoid_rewrite elem_of_vals.
    setoid_rewrite map_lookup_filter_Some.
    intros [(w & [= -> ->] & k & Hk & Hd)|(r & [= -> ->] & k & Hk & Hd)]; simpl in Hd; (split; [|lia]);
      [left|right]; eauto.
Qed.

Lemma handle_event_accounted ev : accounted (ask ev) (tick_of ev) (handle_event ev).
Proof.
  intros c c' t. destruct ev as [|m|req tx]; simpl; [|..|apply handle_client_accounted].
  - unfold and_then. set (c0 := set_co_raft _ _). destruct (sweep_timeouts c0) as [[c1|] t1] eqn:Hs; [|done].
    simpl. intros [= <- <-]. rewrite app_nil_r.
    destruct (sweep_timeouts_spec _ _ _ Hs) as (H1 & H2 & H3). split; simpl.
    + exact H1.
    + exact H2.
    + intros tx dl Hd. left. destruct (H3 tx dl Hd). split; [done|]. right. rewrite H2. done.
  - destruct (step m _) as [raft|]; [|done]. intros [= <- <-]. by apply accounts_same.
Qed.

(** ** Output *)

Lemma apply_command_accounted cmd : accounted [] 0 (apply_command cmd).
Proof.
  intros c c' t. unfold apply_command. destruct (Kvsm.apply cmd (co_sm c)) as [sm r].
  set (k := (_, _)). destruct (co_pending_writes _ !! k) as [w|] eqn:Hk; intros [= <- <-];
    [|by apply accounts_same].
  apply (accounts_settle (write_due w)); [|done|done].
  unfold dues at 1. simpl in Hk. by rewrite (vals_delete _ _ _ Hk).
Qed.

Lemma mark_applied_accounted i : accounted [] 0 (mark_applied i).
Proof. intros c c' t [= <- <-]. by apply accounts_same. Qed.

Lemma apply_entry_accounted e : accounted [] 0 (apply_entry e).
Proof.
  unfold apply_entry. destruct (e_payload e) as [|data|]; try apply mark_applied_accounted.
  destruct (cmd_decode data); [|done].
  apply (accounted_then [] [] 0 0); [apply apply_command_accounted|apply mark_applied_accounted].
Qed.

Lemma install_snapshot_accounted s : accounted [] 0 (install_snapshot s).
Proof.
  intros c c' t. unfold install_snapshot. destruct s as [s|]; [destruct (sm_restore _ _); [|done]|];
    intros [= <- <-]; by apply accounts_same.
Qed.

Lemma serve_ready_accounted r : accounted [] 0 (serve_ready r).
Proof.
  intros c c' t. unfold serve_ready. destruct (_ <=? _); [|intros [= <- <-]; by apply accounts_same].
  destruct (co_pending_reads c !! r.1) as [p|] eqn:Hp; intros [= <- <-]; [|by apply accounts_same].
  apply (accounts_settle (read_due p)); [|done|done].
  unfold dues at 1. rewrite (vals_delete _ _ _ Hp). csimpl. by rewrite <-Permutation_middle.
Qed.

Lemma each_accounted {X} (F : X → step_of B) l :
  (∀ x, accounted [] 0 (F x)) → accounted [] 0 (each F l).
Proof.
  intros HF. induction l as [|x l IH]; [|by apply (accounted_then [] [] 0 0)].
  intros c c' t [= <- <-]. by apply accounts_same.
Qed.

Lemma serve_reads_accounted rs : accounted [] 0 (serve_reads rs).
Proof.
  intros c c' t Hs. eapply (accounts_before _ _ c); [..|eapply each_accounted; [apply serve_ready_accounted|exact Hs]];
    done.
Qed.

Lemma send_messages_accounted ms : accounted [] 0 (send_messages ms).
Proof.
  intros c c' t [= <- <-]. apply accounts_same; try done. induction (filter _ ms) as [|m l IH]; [done|exact IH].
Qed.

Lemma reset_since_snap_accounted : accounted [] 0 reset_since_snap.
Proof. intros c c' t [= <- <-]. by destruct (_ <=? _); apply accounts_same. Qed.

Lemma settled_disk ops : settled (Disk <$> ops) = [].
Proof. by induction ops. Qed.

Section acts.
  Context {crc : Crc32} {cw : Bincode WalBatch} {ci : Bincode TableIndex} {cm : Bincode Manifest}.
  Context {ch : Bincode HardState} {ce : Bincode RaftTypes.Entry} {cs : Bincode Snapshot}.
  Context (fuel : nat).

Definition act_accounted (xs : list Tx) (n : N) (f : act B) : Prop :=
  ∀ c d c' t, f c d = (Some c', t) → accounts xs n c c' t.

Lemma act_accounted_then xs ys n m (f g : act B) :
  act_accounted xs n f → act_accounted ys m g → act_accounted (xs ++ ys) (n + m) (f >=> g).
Proof.
  intros Hf Hg c d c' t. unfold seq_act. destruct (f c d) as [[c1|] t1] eqn:Hc; [|done].
  destruct (g c1 _) as [r t2] eqn:Hc1. intros [= -> <-].
  eapply accounts_trans; [by eapply Hf|by eapply Hg].
Qed.

Lemma log_act_accounted w : act_accounted [] 0 (log_act w).
Proof.
  intros c d c' t. unfold log_act. destruct (w _ _) as [[ls|] ops]; intros [= <- <-].
  apply accounts_same; [done..|]. apply settled_disk.
Qed.

Lemma compact_log_accounted : act_accounted [] 0 (compact_log fuel).
Proof.
  intros c d c' t. unfold compact_log. destruct (compaction c) as [raft [snap|]]; intros Hrun.
  - eapply (accounts_before _ _ c); cycle 3; [eapply (act_accounted_then [] [] 0 0); [apply log_act_accounted| |exact Hrun]|done..].
    intros c1 d1 c2 t2 [= <- <-]. by apply accounts_same.
  - injection Hrun as <- <-. by apply accounts_same.
Qed.

Lemma handle_output_accounted out : act_accounted [] 0 (handle_output fuel out).
Proof.
  apply (act_accounted_then [] [] 0 0).
  { unfold persist_output. destruct (durable_part out); [apply log_act_accounted|].
    intros c d c' t [= <- <-]. by apply accounts_same. }
  apply (act_accounted_then [] [] 0 0).
  { intros c d. apply (accounted_then [] [] 0 0); [apply install_snapshot_accounted|].
    apply each_accounted, apply_entry_accounted. }
  apply (act_accounted_then [] [] 0 0); [apply compact_log_accounted|].
  intros c d. apply (accounted_then [] [] 0 0); [apply reset_since_snap_accounted|].
  apply (accounted_then [] [] 0 0); [apply serve_reads_accounted|apply send_messages_accounted].
Qed.

Lemma process_output_accounted turns : act_accounted [] 0 (process_output fuel turns).
Proof.
  induction turns as [|turns IH]; intros c d c' t; simpl; [done|]. destruct (out_is_empty _).
  - intros [= <- <-]. by apply accounts_same.
  - intros Hrun. eapply (accounts_before _ _ c); cycle 3;
      [eapply (act_accounted_then [] [] 0 0); [apply handle_output_accounted|exact IH|exact Hrun]|done..].
Qed.

(** The events that a turn takes from the queue it finds. *)
Definition batch (queue : list Event) : list Event := take 513 queue.

Lemma turn_accounted q : act_accounted (asked (batch q)) (ticks (batch q)) (turn fuel q).
Proof.
  destruct q as [|ev q]; [intros c d c' t [= <- <-]; by apply accounts_same|]. unfold turn.
  rewrite <-(app_nil_r (asked _)), <-(N.add_0_r (ticks _)).
  apply act_accounted_then; [|apply process_output_accounted]. intros c d.
  apply accounted_then; [apply handle_event_accounted|].
  apply (accounted_each handle_event ask tick_of), handle_event_accounted.
Qed.

Lemma ticks_app evs1 evs2 : ticks (evs1 ++ evs2) = ticks evs1 + ticks evs2.
Proof. induction evs1 as [|ev evs1 IH]; [done|]. unfold ticks in *. simpl. lia. Qed.

Lemma asked_app evs1 evs2 : asked (evs1 ++ evs2) = asked evs1 ++ asked evs2.
Proof. apply bind_app. Qed.
End acts.

(** A request is settled once, by an answer or by dropping its sender. *)
Definition settled_once (t : list action) (tx : Tx) : Prop :=
  ∃ t1 a t2, t = t1 ++ [a] ++ t2 ∧ settled [a] = [tx] ∧ (tx ∉ settled t1) ∧ (tx ∉ settled t2).

Lemma settled_split t tx : tx ∈ settled t → NoDup (settled t) → settled_once t tx.
Proof.
  induction t as [|a t IH]; [by intros ?%elem_of_nil|].
  change (a :: t) with ([a] ++ t). rewrite settled_app, elem_of_app, NoDup_app. intros Hin (_ & Hd & Hn).
  destruct (decide (tx ∈ settled [a])) as [Ha|Ha].
  - exists [], a, t. split_and!; [done| |apply not_elem_of_nil|by apply Hd].
    destruct a; simpl in *; try (by apply elem_of_nil in Ha); by apply list_elem_of_singleton in Ha as ->.
  - destruct Hin as [?|Hin]; [done|]. destruct (IH Hin Hn) as (t1 & a' & t2 & -> & Hs & H1 & H2).
    exists (a :: t1), a', t2. split_and!; [done..| |done].
    change (a :: t1) with ([a] ++ t1). rewrite settled_app, elem_of_app. tauto.
Qed.

(** From a state without waiting requests, the requests [xs] with distinct senders
    are settled by the time that [PENDING_TIMEOUT_TICKS] more ticks have passed. *)
Lemma accounts_settled xs ys n m c c1 c' t1 t2 :
  waiting c = [] → accounts xs n c c1 t1 → accounts ys m c1 c' t2 → NoDup (xs ++ ys) →
  xs ++ ys ≡ₚ settled (t1 ++ t2) ++ waiting c' ∧
  (PENDING_TIMEOUT_TICKS ≤ m → ∀ tx, tx ∈ xs → settled_once (t1 ++ t2) tx).
Proof.
  intros Hw H1 H2 Hnd. pose proof (accounts_trans _ _ _ _ _ _ _ _ _ H1 H2) as [Hbal _ _].
  rewrite Hw, app_nil_r in Hbal. split; [done|]. intros Hlong tx Htx. pose proof Hnd as Hnd'.
  apply NoDup_app in Hnd as (_ & Hnd & _). destruct H1 as [_ _ H1], H2 as [_ Ht H2].
  assert (tx ∉ waiting c') as Hout.
  { intros ([tx' dl] & Heq & Hd)%list_elem_of_fmap. simpl in Heq. subst tx'. unfold PENDING_TIMEOUT_TICKS in *.
    destruct (H2 _ _ Hd) as [[Hd1 Hn]|[Hx _]]; [|by apply (Hnd tx)].
    destruct (H1 _ _ Hd1) as [[Hd0 _]|[_ Hdl]]; [|destruct Hn; lia].
    apply (list_elem_of_fmap_2 fst) in Hd0. fold (waiting c) in Hd0. rewrite Hw in Hd0. by apply elem_of_nil in Hd0. }
  assert (tx ∈ settled (t1 ++ t2) ++ waiting c') as [Hin|?]%elem_of_app; [|  |done].
  { rewrite <-Hbal. apply elem_of_app. by left. }
  apply settled_split; [done|]. rewrite Hbal in Hnd'. by apply NoDup_app in Hnd' as (? & _).
Qed.
End requests.

(** ** Concrete codecs *)

Section concrete_server.
#[local] Instance demo_cmd_codec : Bincode Command := countable_bincode Command.
#[local] Instance demo_payload_codec : Bincode SnapshotPayload := countable_bincode SnapshotPayload.

End concrete_server.
