(* ===== verification/ServerDurable.v ===== *)
(** * The server keeps the host contract

    One event of crates/server/src/core.rs and the output it causes: the log
    store then holds the durable state of the raft node, and at every moment of
    the trace a crash leaves a directory that opens to the node's durable state
    of before the event, of after it, or of after the compaction that follows it.
    Nothing that depends on the event leaves the server while the directory could
    still open to the older state, and no message is sent before everything is on
    the disk. *)

From S2P Require Import Prelude Order Codec Fs Wal Bloom Memtable SsTable SsTableFacts.
From S2P Require Import MergeIter Manifest Db LsmSpec DbRead DbCompact DbInv DbOps DbEngine DbProps.
From S2P Require Import RaftTypes RaftLog RaftLogFacts RaftNode RaftNodeFacts RaftNodeInv.
From S2P Require Import Kvsm SimCluster Durability LogStore Proto Server ServerRequests.
Local Open Scope N_scope.

(** ** Steps that leave the disk alone *)

(** Answers to clients. *)
Definition answer (a : action) : Prop := match a with Reply _ _ | Dropped _ => True | _ => False end.
Definition unsent (a : action) : Prop := match a with Sent _ => False | _ => True end.

#[export] Instance answer_dec a : Decision (answer a).
Proof. destruct a; simpl; apply _. Defined.

(** What leaves the server. *)
Definition visible (t : list action) : list action :=
  filter (λ a, match a with Disk _ => false | _ => true end = true) t.

Lemma visible_disk fs : visible (Disk <$> fs) = [].
Proof. by induction fs. Qed.

Lemma visible_answers t : Forall answer t → visible t = t.
Proof. intros Ht. apply filter_all. intros a Ha. rewrite Forall_forall in Ht. specialize (Ht a Ha). by destruct a. Qed.

Lemma answers_disk t : Forall answer t → disk_ops t = [].
Proof. induction 1 as [|a t Ha _ IH]; [done|]. by destruct a. Qed.

Lemma answers_unsent t : Forall answer t → Forall unsent t.
Proof. intros Ht. eapply Forall_impl; [exact Ht|]. by intros []. Qed.

Lemma disk_ops_app t1 t2 : disk_ops (t1 ++ t2) = disk_ops t1 ++ disk_ops t2.
Proof. apply omap_app. Qed.

Lemma disk_ops_disk fs : disk_ops (Disk <$> fs) = fs.
Proof. induction fs as [|op fs IH]; csimpl; [done|]. f_equal. exact IH. Qed.

Section quiet.
  Context {B : Type} {bk : Backend B} {cc : Bincode Command} {cp : Bincode SnapshotPayload}.
  Implicit Types (c : Core B) (f g : step_of B).
  Local Open Scope act_scope.

(** A step that answers clients and leaves the node and its log alone. *)
Definition aside (f : step_of B) : Prop := ∀ c c' t, f c = (Some c', t) →
  co_raft c' = co_raft c ∧ co_log c' = co_log c ∧ Forall answer t.

Lemma aside_then f g : aside f → aside g → aside (f >>> g).
Proof.
  intros Hf Hg c c' t. unfold and_then. destruct (f c) as [[c1|] t1] eqn:H1; [|done].
  destruct (g c1) as [r t2] eqn:H2. intros [= -> <-].
  destruct (Hf _ _ _ H1) as (? & ? & ?), (Hg _ _ _ H2) as (? & ? & ?).
  split_and!; [congruence..|by apply Forall_app].
Qed.

Lemma aside_each {X} (F : X → step_of B) l : (∀ x, aside (F x)) → aside (each F l).
Proof. intros HF. induction l as [|x l IH]; [by intros c c' t [= <- <-]|by apply aside_then]. Qed.

Lemma apply_entry_aside e : aside (apply_entry e).
Proof.
  assert (∀ i, aside (mark_applied (B := B) i)) as Hm by (by intros i c c' t [= <- <-]).
  unfold apply_entry. destruct (e_payload e) as [|data|]; [done| |done]. destruct (cmd_decode data) as [cmd|]; [|done].
  apply aside_then; [|done]. intros c c' t. unfold apply_command. destruct (Kvsm.apply cmd _) as [sm r].
  destruct (co_pending_writes _ !! _); intros [= <- <-]; split_and!; try done; by repeat constructor.
Qed.

(** Resetting the state machine and applying the committed entries of a batch. *)
Definition apply_output (out : Output) : step_of B :=
  install_snapshot (o_snapshot out) >>> each apply_entry (o_committed out).

Lemma apply_output_aside out : aside (apply_output out).
Proof.
  apply aside_then; [|apply aside_each, apply_entry_aside]. intros c c' t. unfold install_snapshot.
  destruct (o_snapshot out) as [s|]; [destruct (sm_restore _ _); [|done]|]; intros [= <- <-]; done.
Qed.

Lemma serve_reads_aside rs : aside (serve_reads rs).
Proof.
  intros c c' t Hs. assert (∀ r, aside (serve_ready (B := B) r)) as Hr.
  { intros r c1 c2 t2. unfold serve_ready. destruct (_ <=? _); [|by intros [= <- <-]].
    destruct (co_pending_reads c1 !! _); intros [= <- <-]; split_and!; try done; by repeat constructor. }
  by apply (aside_each _ _ Hr _ _ _ Hs).
Qed.

Lemma serve_reads_runs rs c : ∃ c' t, serve_reads rs c = (Some c', t).
Proof.
  unfold serve_reads. generalize (co_ready_reads c ++ rs) (set_co_ready_reads [] c). clear c.
  intros l. induction l as [|r l IH]; intros c; simpl; [eauto|].
  assert (∃ c1 t1, serve_ready r c = (Some c1, t1)) as (c1 & t1 & Hr).
  { unfold serve_ready. destruct (_ <=? _); [destruct (co_pending_reads c !! _)|]; by eexists _, _. }
  unfold and_then. rewrite Hr. destruct (IH c1) as (c' & t & ->). eauto.
Qed.

(** What clients and peers see of a core. *)
Record same_service (c c' : Core B) : Prop := {
  ss_sm : co_sm c' = co_sm c;
  ss_applied : co_applied c' = co_applied c;
  ss_writes : co_pending_writes c' = co_pending_writes c;
  ss_reads : co_pending_reads c' = co_pending_reads c;
  ss_ready : co_ready_reads c' = co_ready_reads c;
  ss_peers : co_peer_tx c' = co_peer_tx c;
}.

#[global] Instance same_service_preorder : PreOrder same_service.
Proof. split; [done|]. intros c1 c2 c3 [] []. split; congruence. Qed.

(** The end of a batch: reads are answered, then messages are sent. *)
Record finished (out : Output) (c c' : Core B) (tr ts : list action) : Prop := {
  fi_served : ∃ c0, same_service c c0 ∧ serve_reads (o_read_states out) c0 = (Some c', tr);
  fi_sent : ts = Sent <$> filter (λ m, m_to m ∈ co_peer_tx c') (o_messages out);
}.

Lemma finished_from out c1 c2 c' tr ts : same_service c1 c2 → finished out c2 c' tr ts → finished out c1 c' tr ts.
Proof. intros H12 [(c0 & H0 & Hs) Ht]. split; [|done]. exists c0. split; [by trans c2|done]. Qed.

Lemma sent_disk ms : disk_ops (Sent <$> ms) = [].
Proof. induction ms as [|m ms IH]; [done|exact IH]. Qed.

Lemma finished_answers out c c' tr ts : finished out c c' tr ts → Forall answer tr ∧ disk_ops ts = [].
Proof.
  intros [(c0 & _ & Hs) ->]. destruct (serve_reads_aside _ _ _ _ Hs) as (_ & _ & Ha). split; [done|apply sent_disk].
Qed.

Lemma finish_runs out c :
  ∃ c' tr ts, (reset_since_snap >>> serve_reads (o_read_states out) >>> send_messages (o_messages out)) c
    = (Some c', tr ++ ts) ∧ co_raft c' = co_raft c ∧ co_log c' = co_log c ∧ finished out c c' tr ts.
Proof.
  unfold and_then, reset_since_snap.
  set (c0 := if co_snapshot_every c <=? _ then _ else c).
  destruct (serve_reads_runs (o_read_states out) c0) as (c1 & tr & Hs). rewrite Hs.
  destruct (serve_reads_aside _ _ _ _ Hs) as (H1 & H2 & H3).
  eexists c1, tr, _. unfold send_messages. split_and!; [done| | |].
  - rewrite H1. subst c0. by destruct (_ <=? _).
  - rewrite H2. subst c0. by destruct (_ <=? _).
  - split; [|done]. exists c0. split; [|done]. subst c0. by destruct (_ <=? _).
Qed.

(** ** Events as operations of the node *)

(** The raft operation that an event performs. *)
Definition event_op (c : Core B) (ev : Event) : option node_op :=
  match ev with
  | EvTick => Some OpTick
  | EvPeer m => Some (OpStep m)
  | EvClient req _ =>
    match req with
    | ReqPut s q k v => if s =? 0 then None else Some (OpPropose (cmd_encode (mkCmd s q (Put k v))))
    | ReqDelete s q k => if s =? 0 then None else Some (OpPropose (cmd_encode (mkCmd s q (Kvsm.Delete k))))
    | ReqCas s q k e n => if s =? 0 then None else Some (OpPropose (cmd_encode (mkCmd s q (Cas k e n))))
    | ReqGet _ Linearizable | ReqScan _ _ _ Linearizable => Some (OpReadIndex (co_next_read_id c))
    | _ => None
    end
  end.

Definition run_event (c : Core B) (ev : Event) : option RaftNode :=
  match event_op c ev with Some op => run_op op (co_raft c) | None => Some (co_raft c) end.

(** What an event leaves of the core: the node after its operation, the log
    store, the state machine and the answers it gave at once. *)
Record event_done (c c1 : Core B) (n1 : RaftNode) (t : list action) : Prop := {
  ed_raft : co_raft c1 = n1;
  ed_log : co_log c1 = co_log c;
  ed_sm : co_sm c1 = co_sm c;
  ed_applied : co_applied c1 = co_applied c;
  ed_answers : Forall answer t;
}.

Lemma reply_done c c1 n1 tx r :
  co_raft c1 = n1 → co_log c1 = co_log c → co_sm c1 = co_sm c → co_applied c1 = co_applied c →
  event_done c c1 n1 [Reply tx r].
Proof. intros. split; [done..|by repeat constructor]. Qed.

Lemma propose_write_runs s q op tx c :
  ∃ c1 t, propose_write s q op tx c = (Some c1, t)
    ∧ event_done c c1 (if s =? 0 then co_raft c else (propose (cmd_encode (mkCmd s q op)) (co_raft c)).1) t.
Proof.
  unfold propose_write. destruct (s =? 0); [eexists _, _; split; [done|by apply reply_done]|].
  destruct (propose _ _) as [n [i|e]]; simpl.
  - eexists _, _. split; [done|]. split; try done. simpl. destruct (_ !! _); by repeat constructor.
  - destruct e; simpl; eexists _, _; (split; [done|]); by apply reply_done.
Qed.

Lemma handle_read_runs req con tx c :
  ∃ c1 t, handle_read req con tx c = (Some c1, t)
    ∧ event_done c c1 (match con with Linearizable => (read_index (co_next_read_id c) (co_raft c)).1 | _ => co_raft c end) t.
Proof.
  unfold handle_read. destruct con.
  - simpl. destruct (read_index _ _) as [n [[]|e]]; simpl.
    + eexists _, _. split; [done|]. split; try done. simpl. destruct (_ !! _); by repeat constructor.
    + destruct e; simpl; eexists _, _; (split; [done|]); by apply reply_done.
  - destruct (negb _); [|destruct (lease_valid _)]; eexists _, _; (split; [done|]); by apply reply_done.
  - eexists _, _; (split; [done|]); by apply reply_done.
Qed.

(** An event runs its operation, and panics only if the node does. *)
Lemma handle_event_runs ev c n1 :
  run_event c ev = Some n1 → ∃ c1 t, handle_event ev c = (Some c1, t) ∧ event_done c c1 n1 t.
Proof.
  unfold run_event. destruct ev as [|m|req tx]; simpl.
  - intros [= <-]. unfold and_then, sweep_timeouts, stamp_gauges. simpl.
    set (c0 := set_co_raft _ _). set (l := (map_to_list _).*2).
    destruct (count_retries l c0) as (_ & _ & _ & _ & Hr & Hs & Ha & Hl & _).
    eexists _, _. split; [done|]. split; simpl; [by rewrite Hr|by rewrite Hl|by rewrite Hs|by rewrite Ha|].
    rewrite app_nil_r. apply Forall_app. split; apply Forall_fmap, Forall_forall; by intros.
  - intros ->. by eexists _, _.
  - destruct req as [s q k v|s q k|s q k e n|k con|st en li con|]; simpl.
    1-3: edestruct propose_write_runs as (c1 & t & -> & Hd); destruct (s =? 0); intros [= <-]; by eexists _, _.
    1-2: edestruct handle_read_runs as (c1 & t & -> & Hd); destruct con; intros [= <-]; by eexists _, _.
    intros [= <-]. eexists _, _. split; [done|]. by apply reply_done.
Qed.
End quiet.

(** ** Writes of the log store *)

Section durable.
  Context {B : Type} {bk : Backend B} {cc : Bincode Command} {cp : Bincode SnapshotPayload}.
  Context {crc : Crc32} {cw : Bincode WalBatch} {ci : Bincode TableIndex} {cm : Bincode Manifest}.
  Context {lw : BincodeLaws WalBatch} {li : BincodeLaws TableIndex} {lm : BincodeLaws Manifest}.
  Context {ch : Bincode HardState} {ce : Bincode RaftTypes.Entry} {cs : Bincode Snapshot}.
  Context {lh : BincodeLaws HardState} {le : BincodeLaws RaftTypes.Entry} {lsn : BincodeLaws Snapshot}.
  Context (D : nat).
  Implicit Types c : Core B.
  Local Open Scope act_scope.

(** A write that may be left out. *)
Definition log_opt (fuel : nat) (o : option log_write) : act B :=
  match o with Some w => log_act (log_do fuel w) | None => λ c _, (Some c, []) end.

Definition stored_opt (o : option log_write) (p : Persisted) : Persisted :=
  from_option (λ w, stored_by w p) p o.

(** The rows written so far and the bounds of the log after it. *)
Definition rows_opt (o : option log_write) (ws : list write) (ls : LogStore) : list write * LogStore :=
  match o with
  | Some w => let '(ops, f, l) := rows_of w ls in (ws ++ ops, mkLogStore (ls_db ls) f l)
  | None => (ws, ls)
  end.

(** The engine has room for the write and its frame fits. *)
Definition spacious (ws : list write) (ls : LogStore) (o : option log_write) : Prop :=
  match o with
  | Some w => room log_options D (ws ++ (rows_of w ls).1.1)
      ∧ fits (mkBatch (N.of_nat (length ws) + 1) (rows_of w ls).1.1)
  | None => True
  end.

Definition same_bounds (ls ls' : LogStore) : Prop :=
  ls_first_index ls = ls_first_index ls' ∧ ls_last_index ls = ls_last_index ls'.

Lemma rows_of_bounds w ls ls' : same_bounds ls ls' → rows_of w ls = rows_of w ls'.
Proof. intros [H1 H2]. destruct w; simpl; unfold persist_rows, compact_rows; by rewrite H1, H2. Qed.

Lemma log_holds_seq ws p ls d : log_holds D ws p ls d → db_seq (ls_db ls) = N.of_nat (length ws).
Proof. intros Hh. apply (stores_serves _ _ _ _ _ (lh_db _ _ _ _ _ Hh)). Qed.

Lemma set_log_same c : set_co_log (co_log c) c = c.
Proof. by destruct c. Qed.

Lemma log_do_mono fuel fuel' w ls d ls' fs :
  log_do fuel w ls d = (Ok ls', fs) → (fuel <= fuel')%nat → log_do fuel' w ls d = (Ok ls', fs).
Proof.
  intros Hdo Hle.
  assert (∀ ops f l, (write_batch fuel ops (ls_db ls) ≫= λ '(_, db), mret (mkLogStore db f l)) d = (Ok ls', fs) →
    (write_batch fuel' ops (ls_db ls) ≫= λ '(_, db), mret (mkLogStore db f l)) d = (Ok ls', fs)) as Hw.
  { intros ops f l Hrun. apply io_bind_inv in Hrun as (r & fs1 & fs2 & H1 & H2 & ->).
    eapply io_bind_intro; [by eapply write_batch_mono|exact H2]. }
  destruct w as [out|snap]; simpl in *; unfold log_persist, log_compact_to in *.
  - destruct (persist_rows _ _ _ _) as [[[|o ops] f] l]; [done|]. by apply Hw.
  - destruct (compact_rows _ _) as [[ops f] l]. by apply Hw.
Qed.

Lemma log_opt_ok o ws p c d :
  log_holds D ws p (co_log c) d → (∀ w, o = Some w → well_formed p w) → spacious ws (co_log c) o →
  ∃ n ls fs, let ws' := (rows_opt o ws (co_log c)).1 in
    (∀ fuel, (n <= fuel)%nat → log_opt fuel o c d = (Some (set_co_log ls c), Disk <$> fs))
    ∧ log_holds D ws' (stored_opt o p) ls (apply_ops d fs)
    ∧ same_bounds ls (rows_opt o ws (co_log c)).2
    ∧ rests d (apply_ops d fs)
    ∧ (∀ d1, outage d fs d1 → log_recovers D ws p d1 ∨ log_recovers D ws' (stored_opt o p) d1).
Proof.
  intros Hh Hw Hsp. destruct o as [w|]; cycle 1.
  { exists 0%nat, (co_log c), []. simpl. rewrite set_log_same. split_and!; try done; [apply rests_refl|].
    intros d1 Hc%outage_crashes%crashes_nil. left. by eapply log_rest. }
  destruct Hsp as [Hroom Hfits]. rewrite <-(log_holds_seq _ _ _ _ Hh) in Hfits.
  pose proof (log_do_spec D _ _ _ _ _ Hh (Hw w eq_refl)) as Hspec. simpl in *.
  destruct (rows_of w (co_log c)) as [[ops f] l]. destruct (Hspec Hroom Hfits) as [n Hn].
  destruct (Hn n (le_n n)) as (db & fs & Hdo & Hh' & Hi & Hcr). exists n, (mkLogStore db f l), fs.
  split_and!; try done. intros fuel Hf. unfold log_act. by rewrite (log_do_mono _ _ _ _ _ _ _ Hdo Hf).
Qed.

(** ** Crashes within a trace *)

(** Wherever a crash cuts the trace and leaves a manifest, the directory recovers
    rows and a state that [P] allows for what was done before. *)
Definition survives (P : list action → list write → Persisted → Prop) (d : Dir) (t : list action) : Prop :=
  ∀ t1 t2 d1, t = t1 ++ t2 → let dv := apply_ops d (disk_ops t1) in cut dv d1 → manifest_kept d dv d1 →
    ∃ ws p, log_recovers D ws p d1 ∧ P t1 ws p.

Lemma survives_app P d t t' :
  survives P d t → rests d (apply_ops d (disk_ops t)) →
  survives (λ t1, P (t ++ t1)) (apply_ops d (disk_ops t)) t' → survives P d (t ++ t').
Proof.
  intros H1 Hr H2 t1 t2 d1 Heq dv Hc Hk. subst dv.
  apply app_eq_inv in Heq as [(k & -> & ->)|(k & -> & ->)]; [by eapply H1|].
  rewrite disk_ops_app, apply_ops_app in Hc, Hk. eapply H2; [done|exact Hc|by eapply manifest_kept_later].
Qed.

Lemma survives_answers P d t ws p :
  Forall answer t → (∀ d1, cut d d1 → log_recovers D ws p d1) → (∀ t1, t1 `prefix_of` t → P t1 ws p) →
  survives P d t.
Proof.
  intros Ht Hr HP t1 t2 d1 -> dv Hc _. apply Forall_app in Ht as [Ht _]. subst dv. rewrite (answers_disk _ Ht) in Hc.
  exists ws, p. split; [by apply Hr|]. apply HP. by exists t2.
Qed.

Lemma survives_disk P d fs ws p ws' p' :
  (∀ d1, outage d fs d1 → log_recovers D ws p d1 ∨ log_recovers D ws' p' d1) →
  (∀ fs1, P (Disk <$> fs1) ws p ∧ P (Disk <$> fs1) ws' p') → survives P d (Disk <$> fs).
Proof.
  intros Hc HP t1 t2 d1 Heq dv Hcut Hk. apply fmap_app_inv in Heq as (fs1 & fs2 & -> & -> & ->). subst dv.
  rewrite disk_ops_disk in Hcut, Hk. destruct (HP fs1) as [H1 H2].
  destruct (Hc d1) as [Hr|Hr]; [by exists fs1, fs2| |]; eauto.
Qed.

(** ** One batch *)

Definition persist_write (out : Output) : option log_write :=
  if durable_part out then Some (Persist out) else None.
Definition compact_write (c : Core B) : option log_write := CompactTo <$> (compaction c).2.

(** The log store holds the durable state of a node with nothing left to write. *)
Definition core_ok (ws : list write) (c : Core B) (d : Dir) : Prop :=
  node_ok (co_raft c) ∧ n_out (co_raft c) = default_out
  ∧ log_holds D ws (disk_of (co_raft c)) (co_log c) d.

Lemma stored_persist out p : stored_opt (persist_write out) p = store_output out p.
Proof.
  destruct out as [ms es hs ap sn rs], p. unfold persist_write, durable_part. simpl.
  by destruct hs, ap, sn.
Qed.

Lemma persist_output_opt fuel out c d : persist_output fuel out c d = log_opt fuel (persist_write out) c d.
Proof. unfold persist_output, persist_write. by destruct (durable_part out). Qed.

(** Applying a batch does not depend on the log store. *)
Definition log_blind (f : step_of B) : Prop :=
  ∀ c c' t ls, f c = (Some c', t) → f (set_co_log ls c) = (Some (set_co_log ls c'), t).

Lemma log_blind_then f g : log_blind f → log_blind g → log_blind (f >>> g).
Proof.
  intros Hf Hg c c' t ls. unfold and_then. destruct (f c) as [[c1|] t1] eqn:H1; [|done].
  destruct (g c1) as [r t2] eqn:H2. intros [= -> <-].
  by rewrite (Hf _ _ _ _ H1), (Hg _ _ _ _ H2).
Qed.

Lemma log_blind_each {X} (F : X → step_of B) l : (∀ x, log_blind (F x)) → log_blind (each F l).
Proof. intros HF. induction l as [|x l IH]; [by intros c c' t ls [= <- <-]|by apply log_blind_then]. Qed.

Lemma apply_output_blind out : log_blind (apply_output out).
Proof.
  apply log_blind_then.
  - intros c c' t ls. unfold install_snapshot. destruct (o_snapshot out) as [s|]; [|by intros [= <- <-]].
    simpl. destruct (sm_restore _ _); [|done]. by intros [= <- <-].
  - apply log_blind_each. intros e. unfold apply_entry.
    assert (∀ i, log_blind (mark_applied i)) as Hm by (by intros i c c' t ls [= <- <-]).
    destruct (e_payload e) as [|data|]; [done| |done]. destruct (cmd_decode data) as [cmd|]; [|done].
    apply log_blind_then; [|done]. intros c c' t ls. unfold apply_command. simpl.
    destruct (Kvsm.apply cmd _) as [sm r]. simpl. destruct (co_pending_writes c !! _); by intros [= <- <-].
Qed.

Lemma compaction_durable c :
  node_ok (co_raft c) → n_out (co_raft c) = default_out →
  let n := (compaction c).1 in
  node_ok n ∧ n_out n = default_out ∧ stored_opt (compact_write c) (disk_of (co_raft c)) = disk_of n.
Proof.
  intros Hok Ho. unfold compact_write, compaction. destruct (_ <=? _); [|done].
  set (data := sm_snapshot (co_sm c)).
  pose proof (g_ok _ _ (compact_guarantee (co_applied c) data (co_raft c) Hok)) as Hok'.
  pose proof (compact_out (co_applied c) data (co_raft c)) as Ho'.
  destruct (node_compact (co_applied c) data (co_raft c)) as [n [snap|]] eqn:Hc; simpl in *.
  - split_and!; [done|congruence|]. by eapply compact_durable.
  - unfold node_compact in Hc. destruct (_ || _); [|destruct (RL.term _ _); [done|]];
      injection Hc as <-; by rewrite Ho.
Qed.

Lemma seq_act_intro (f g : act B) c d c1 t1 r t2 :
  f c d = (Some c1, t1) → g c1 (apply_ops d (disk_ops t1)) = (r, t2) → (f >=> g) c d = (r, t1 ++ t2).
Proof. intros Hf Hg. unfold seq_act. by rewrite Hf, Hg. Qed.

(** A compaction is counted. *)
Definition counted (c c' : Core B) : Core B :=
  match (compaction c).2 with Some _ => co_inc snapshots_taken_total c' | None => c' end.

Lemma compact_log_opt fuel c d c' t :
  log_opt fuel (compact_write c) (set_co_raft (compaction c).1 c) d = (Some c', t) →
  compact_log fuel c d = (Some (counted c c'), t).
Proof.
  unfold compact_log, compact_write, counted. destruct (compaction c) as [n [snap|]]; simpl; [|done].
  intros Hrun. rewrite <-(app_nil_r t). by eapply seq_act_intro; [exact Hrun|].
Qed.

Lemma rows_opt_room o ws ls : room log_options D ws → spacious ws ls o → room log_options D (rows_opt o ws ls).1.
Proof. intros Hr. destruct o as [w|]; [|done]. simpl. destruct (rows_of w ls) as [[ops f] l]. by intros []. Qed.

(** The rows after the batch is persisted, and after the compaction that follows. *)
Definition batch_rows (out : Output) (c2 : Core B) (ws : list write) (ls : LogStore) : list write * list write :=
  let '(ws1, ls1) := rows_opt (persist_write out) ws ls in (ws1, (rows_opt (compact_write c2) ws1 ls1).1).

(** The engine has room for both. *)
Definition batch_room (out : Output) (c2 : Core B) (ws : list write) (ls : LogStore) : Prop :=
  spacious ws ls (persist_write out)
  ∧ (let '(ws1, ls1) := rows_opt (persist_write out) ws ls in spacious ws1 ls1 (compact_write c2)).

(** The part of a batch after the committed entries were applied. *)
Lemma finish_batch out ws c d :
  core_ok ws c d → room log_options D ws → spacious ws (co_log c) (compact_write c) →
  ∃ n c' fs tr ts, let ws' := (rows_opt (compact_write c) ws (co_log c)).1 in
    (∀ fuel, (n <= fuel)%nat → (compact_log fuel >=>
      quiet_act (reset_since_snap >>> serve_reads (o_read_states out) >>> send_messages (o_messages out))) c d
      = (Some c', (Disk <$> fs) ++ tr ++ ts))
    ∧ finished out c c' tr ts ∧ co_raft c' = (compaction c).1
    ∧ core_ok ws' c' (apply_ops d fs) ∧ room log_options D ws'
    ∧ rests d (apply_ops d fs)
    ∧ (∀ d1, outage d fs d1 →
       log_recovers D ws (disk_of (co_raft c)) d1 ∨ log_recovers D ws' (disk_of (co_raft c')) d1).
Proof.
  intros (Hok & Ho & Hh) Hroom Hsp. destruct (compaction_durable c Hok Ho) as (Hok' & Ho' & Hst).
  set (c1 := set_co_raft (compaction c).1 c).
  destruct (log_opt_ok (compact_write c) ws (disk_of (co_raft c)) c1 d Hh) as (n & ls & fs & Hdo & Hh' & _ & Hi & Hcr);
    [|done|].
  { unfold compact_write. destruct (compaction c).2; [by intros w [= <-]|done]. }
  pose proof (rows_opt_room _ _ _ Hroom Hsp) as Hroom'. rewrite Hst in Hh', Hcr.
  set (c2 := counted c (set_co_log ls c1)).
  assert (co_raft c2 = (compaction c).1 ∧ co_log c2 = ls ∧ same_service c c2) as (Hr2 & Hl2 & Hss)
    by (subst c2; unfold counted; by destruct (compaction c).2).
  destruct (finish_runs out c2) as (c' & tr & ts & Hf & Hr' & Hl' & Hfin).
  exists n, c', fs, tr, ts. apply (finished_from _ _ _ _ _ _ Hss) in Hfin.
  unfold core_ok. rewrite Hr', Hl', Hr2, Hl2. split_and!; try done.
  intros fuel Hfuel. eapply seq_act_intro; [apply compact_log_opt, (Hdo fuel Hfuel)|exact Hf].
Qed.

(** What is written for one batch, and the crashes between. *)
Record batch_done (ws ws1 ws2 : list write) (p0 : Persisted) (c c' : Core B) (d : Dir) (fs1 fs2 : list fs_op)
    : Prop := {
  bd_ok : core_ok ws2 c' (apply_ops d (fs1 ++ fs2));
  bd_room1 : room log_options D ws1;
  bd_room : room log_options D ws2;
  bd_rests1 : rests d (apply_ops d fs1);
  bd_rests2 : rests (apply_ops d fs1) (apply_ops d (fs1 ++ fs2));
  bd_persist : ∀ d1, outage d fs1 d1 →
    log_recovers D ws p0 d1 ∨ log_recovers D ws1 (disk_of (co_raft c)) d1;
  bd_between : ∀ d1, cut (apply_ops d fs1) d1 →
    log_recovers D ws1 (disk_of (co_raft c)) d1;
  bd_compact : ∀ d1, outage (apply_ops d fs1) fs2 d1 →
    log_recovers D ws1 (disk_of (co_raft c)) d1 ∨ log_recovers D ws2 (disk_of (co_raft c')) d1;
}.

Lemma handle_output_ok out ws p0 c d c2 ta :
  log_holds D ws p0 (co_log c) d → room log_options D ws → well_formed p0 (Persist out) →
  store_output out p0 = disk_of (co_raft c) → node_ok (co_raft c) → n_out (co_raft c) = default_out →
  apply_output out c = (Some c2, ta) → batch_room out c2 ws (co_log c) →
  ∃ n c' fs1 fs2 tr ts, let '(ws1, ws2) := batch_rows out c2 ws (co_log c) in
    (∀ fuel, (n <= fuel)%nat →
      handle_output fuel out c d = (Some c', (Disk <$> fs1) ++ ta ++ (Disk <$> fs2) ++ tr ++ ts))
    ∧ Forall answer ta ∧ finished out c2 c' tr ts ∧ co_raft c' = (compaction c2).1
    ∧ batch_done ws ws1 ws2 p0 c c' d fs1 fs2.
Proof.
  unfold batch_room, batch_rows. intros Hh Hroom Hwf Hst Hok Ho Hap [Hsp1 Hsp2].
  destruct (log_opt_ok (persist_write out) ws p0 c d Hh) as (n1 & ls1 & fs1 & Hdo1 & Hh1 & Hb1 & Hi1 & Hc1); [|done|].
  { unfold persist_write. destruct (durable_part out); [by intros w [= <-]|done]. }
  rewrite stored_persist, Hst in Hh1, Hc1. pose proof (rows_opt_room _ _ _ Hroom Hsp1) as Hroom1.
  destruct (apply_output_aside _ _ _ _ Hap) as (Hr2 & Hl2 & Hta).
  pose proof (apply_output_blind _ _ _ _ ls1 Hap) as Hap'. pose proof (answers_disk _ Hta) as Hda.
  destruct (rows_opt (persist_write out) ws (co_log c)) as [ws1 ls1'] eqn:Hrows. simpl in *.
  set (c3 := set_co_log ls1 c2) in *. set (d1 := apply_ops d fs1) in *.
  assert (co_raft c3 = co_raft c) as Hr3 by exact Hr2.
  assert (compact_write c3 = compact_write c2 ∧ same_service c2 c3) as [Hcw Hss] by done.
  assert ((rows_opt (compact_write c2) ws1 (co_log c3)).1 = (rows_opt (compact_write c2) ws1 ls1').1
    ∧ spacious ws1 (co_log c3) (compact_write c2)) as [Hro Hsp3].
  { destruct (compact_write c2) as [w|]; [|done]. simpl in *. rewrite (rows_of_bounds w ls1 ls1') by done.
    by destruct (rows_of w ls1') as [[??]?]. }
  destruct (finish_batch out ws1 c3 d1) as (n2 & c' & fs2 & tr & ts & Hf & Hfin & Hrc & Hok' & Hroom' & Hpl & Hcr);
    [by unfold core_ok; rewrite Hr3|done|done|]. rewrite Hcw, Hro in *.
  apply (finished_from _ _ _ _ _ _ Hss) in Hfin.
  exists (Nat.max n1 n2), c', fs1, fs2, tr, ts. split_and!; try done.
  - intros fuel Hfuel. unfold handle_output. eapply seq_act_intro.
    { rewrite persist_output_opt. apply Hdo1. lia. }
    rewrite disk_ops_disk. eapply seq_act_intro; [exact Hap'|]. rewrite Hda. apply Hf. lia.
  - split; rewrite ?apply_ops_app; try done.
    + intros d2 Hd2. by eapply log_rest.
    + rewrite <-Hr3. done.
Qed.

(** ** One event *)

Definition drain (c : Core B) : Core B := set_co_raft (take_output (co_raft c)).1 c.

Lemma set_out_same n : n_out n = default_out → set_out default_out n = n.
Proof. destruct n. simpl. by intros ->. Qed.

Lemma empty_output o : out_is_empty o = true → o = default_out.
Proof. destruct o as [[] [] [] [] [] []]; done. Qed.

(** An event that the node survives is an operation of the node. *)
Lemma handle_event_op ev c c1 t :
  handle_event ev c = (Some c1, t) → run_event c ev = Some (co_raft c1) ∧ event_done c c1 (co_raft c1) t.
Proof.
  intros Hev. destruct (run_event c ev) as [n1|] eqn:Hr.
  - destruct (handle_event_runs _ _ _ Hr) as (c1' & t' & Hev' & Hd). rewrite Hev in Hev'. injection Hev' as <- <-.
    by rewrite (ed_raft _ _ _ _ Hd).
  - unfold run_event in Hr. destruct ev as [|m|req tx]; simpl in *; [done|by rewrite Hr in Hev|].
    exfalso. revert Hr. destruct req as [s ? ? ?|s ? ?|s ? ? ? ?|? []|? ? ? []|]; try done; by destruct (s =? 0).
Qed.

Lemma elem_of_disk_append es new e : continues es new → e ∈ new → e ∈ foldl disk_append es new.
Proof.
  intros (i & j & Hes & Hnew & Hj) He. rewrite (disk_append_all i _ j) by (done || lia).
  destruct new; [by apply elem_of_nil in He|]. apply elem_of_app. by right.
Qed.

(** Messages that the node can handle. *)
Definition wf_event (ev : Event) : Prop := match ev with EvPeer m => wf_msg m | _ => True end.

Lemma event_op_wf c ev op : wf_event ev → event_op c ev = Some op → wf_op op ∧ batched op = true.
Proof. destruct ev as [|m|[] tx]; simpl; intros Hwf Hop; repeat case_match; by simplify_eq. Qed.

(** A queue of events is a sequence of operations of the node. *)
Lemma handle_events_ops evs c c1 t :
  Forall wf_event evs → each handle_event evs c = (Some c1, t) →
  event_done c c1 (co_raft c1) t ∧ ∃ ops, run_ops ops (co_raft c) = Some (co_raft c1)
    ∧ Forall wf_op ops ∧ Forall (λ op, batched op = true) ops ∧ (length ops <= length evs)%nat.
Proof.
  revert c t. induction evs as [|ev evs IH]; intros c t Hwf; simpl.
  { intros [= <- <-]. split; [by split|]. by exists []. }
  apply Forall_cons in Hwf as [Hev Hwf]. unfold and_then.
  destruct (handle_event ev c) as [[c2|] t2] eqn:H2; [|done].
  destruct (each handle_event evs c2) as [r t3] eqn:H3. intros [= -> <-].
  destruct (handle_event_op _ _ _ _ H2) as [Hrun [_ Hl Hs Ha Han]].
  destruct (IH _ _ Hwf H3) as ([_ Hl' Hs' Ha' Han'] & ops & Hops & Hwo & Hbo & Hlen).
  split; [split; try congruence; by apply Forall_app|].
  unfold run_event in Hrun. destruct (event_op c ev) as [op|] eqn:Hop.
  - destruct (event_op_wf _ _ _ Hev Hop) as [Hw Hb]. exists (op :: ops). simpl. rewrite Hrun.
    split_and!; [done|by constructor|by constructor|lia].
  - injection Hrun as Hr. exists ops. rewrite Hr. split_and!; [done..|lia].
Qed.

(** Queues whose batch the log store can take: a single event, or events that
    together install no snapshot and append one run of entries. The loop drains up to
    513 events into one batch and makes no such choice: what other batches leave on
    the disk is the subject of [group_commit_keeps_removed_entries] and
    [group_commit_breaks_agreement]. *)
Definition orderly (evs : list Event) (c c1 : Core B) : Prop :=
  (length evs <= 1)%nat ∨ o_snapshot (n_out (co_raft c1)) = None ∧ single_run (co_raft c) (co_raft c1).

Lemma ops_batch ops (n n' : RaftNode) :
  node_ok n → n_out n = default_out → Forall wf_op ops → Forall (λ op, batched op = true) ops →
  run_ops ops n = Some n' → (length ops <= 1)%nat ∨ o_snapshot (n_out n') = None ∧ single_run n n' →
  store_output (n_out n') (disk_of n) = disk_of n' ∧ single_run n n'.
Proof.
  intros Hok Ho Hwf Hb Hrun [Hlen|[Hns Hsr]]; [|split; [by eapply run_ops_durable|done]].
  destruct ops as [|op [|]]; simpl in Hlen; [|clear Hlen|lia].
  - injection Hrun as <-. rewrite Ho, store_nothing. split; [done|]. unfold single_run. rewrite Ho. simpl.
    exists (snap_index (n_log n) + 1), (snap_index (n_log n) + 1).
    split_and!; [apply contiguous_consecutive, Hok|by intros ? ? ?|lia|lia].
  - simpl in Hrun. apply bind_Some in Hrun as (n1 & Hrun & [= <-]).
    apply Forall_cons in Hwf as [Hwf _]. apply Forall_cons in Hb as [Hb _]. by apply (run_op_batch op).
Qed.

(** Their output, written to the disk that held the state of before, is one run of
    entries and leaves the state of after. *)
Lemma events_stored evs c c1 t :
  node_ok (co_raft c) → n_out (co_raft c) = default_out → Forall wf_event evs →
  each handle_event evs c = (Some c1, t) → orderly evs c c1 → RL.last_index (n_log (co_raft c1)) < 2 ^ 64 →
  let out := n_out (co_raft c1) in
  node_ok (co_raft c1) ∧ store_output out (disk_of (co_raft c)) = disk_of (co_raft c1)
  ∧ one_run (disk_of (co_raft c)) out.
Proof.
  intros Hok Ho Hwf (_ & ops & Hrun & Hwo & Hbo & Hlen)%handle_events_ops Hord Hlast; [|done].
  assert (node_ok (co_raft c1)) as Hok1 by (apply (h_ok (co_raft c) (co_raft c1)); by eapply run_ops_history).
  destruct (ops_batch ops (co_raft c) (co_raft c1)) as [Hst Hsr]; try done.
  { destruct Hord as [?|?]; [left; lia|by right]. }
  cbv zeta. split_and!; [done|done|]. unfold single_run in Hsr. split.
  - unfold store_output, state_part. simpl. by destruct (o_snapshot (n_out (co_raft c1))).
  - intros e Hin. pose proof (elem_of_disk_append _ _ _ Hsr Hin) as Hlog.
    apply (f_equal p_entries) in Hst. simpl in Hst.
    assert (e ∈ entries (n_log (co_raft c1))) as He.
    { revert Hlog. rewrite <-Hst. unfold store_output. by destruct (o_snapshot (n_out (co_raft c1))). }
    apply list_elem_of_lookup in He as [k Hk]. apply lookup_lt_Some in Hk as Hlt.
    pose proof (proj1 (contiguous_consecutive _) (ok_contiguous _ Hok1) _ _ Hk) as Hi.
    unfold RL.last_index in Hlast. lia.
Qed.

(** Where the server is when it crashes: the disk opens to the state of before
    the event and only the event's immediate answers were given; or to the state
    of after it and no message was sent; or to the state after the batch. *)
Definition stage (n0 n1 n2 : RaftNode) (t0 t1 : list action) (p : Persisted) : Prop :=
  p = disk_of n0 ∧ visible t1 `prefix_of` t0
  ∨ p = disk_of n1 ∧ Forall unsent t1
  ∨ p = disk_of n2.

(** The same, with the rows on the disk. *)
Definition staged (ws0 ws1 ws2 : list write) (n0 n1 n2 : RaftNode) (t0 t1 : list action)
    (ws : list write) (p : Persisted) : Prop :=
  (ws = ws0 ∧ p = disk_of n0) ∧ visible t1 `prefix_of` t0
  ∨ (ws = ws1 ∧ p = disk_of n1) ∧ Forall unsent t1
  ∨ (ws = ws2 ∧ p = disk_of n2).

Lemma staged_disk fs1 ws0 ws1 ws2 n0 n1 n2 t0 :
  Forall answer t0 → ∀ ws p, (ws = ws0 ∧ p = disk_of n0) ∨ (ws = ws1 ∧ p = disk_of n1) →
  staged ws0 ws1 ws2 n0 n1 n2 t0 (t0 ++ (Disk <$> fs1)) ws p.
Proof.
  intros Ht ws p [H|H]; [left|right; left]; (split; [done|]).
  - unfold visible. rewrite filter_app. fold (visible t0) (visible (Disk <$> fs1)).
    by rewrite (visible_answers _ Ht), visible_disk, app_nil_r.
  - apply Forall_app. split; [by apply answers_unsent|]. apply Forall_fmap, Forall_forall. by intros.
Qed.

Lemma batch_survives ws ws1 ws2 p0 c c' d fs1 fs2 n0 t0 ta tr ts :
  p0 = disk_of n0 → batch_done ws ws1 ws2 p0 c c' d fs1 fs2 →
  Forall answer t0 → Forall answer ta → Forall answer tr → disk_ops ts = [] →
  survives (λ t1, staged ws ws1 ws2 n0 (co_raft c) (co_raft c') t0 (t0 ++ t1)) d
    ((Disk <$> fs1) ++ ta ++ (Disk <$> fs2) ++ tr ++ ts).
Proof.
  intros -> [Hok _ Hroom Hr1 Hr2 H1 H2 H3] Ht0 Hta Htr Hts.
  assert (Forall unsent (t0 ++ (Disk <$> fs1) ++ ta)) as Hu.
  { rewrite !Forall_app. split_and!; [by apply answers_unsent| |by apply answers_unsent].
    apply Forall_fmap, Forall_forall. by intros. }
  apply survives_app; rewrite ?disk_ops_disk; [|done|apply survives_app; rewrite ?(answers_disk _ Hta); [|apply rests_refl|]].
  - eapply survives_disk; [by apply H1|]. intros fs. split; apply staged_disk; auto.
  - eapply survives_answers; [done|by apply H2|]. intros t1 [t2 ->]. right. left. split; [done|].
    rewrite app_assoc, app_assoc, Forall_app in Hu. rewrite app_assoc. by destruct Hu as [Hu _].
  - apply survives_app; rewrite ?disk_ops_disk; [|by rewrite apply_ops_app in Hr2|].
    + eapply survives_disk; [by apply H3|]. intros fs. split; [right; left; split; [done|]|by right; right].
      rewrite !app_assoc in *. apply Forall_app. split; [done|]. apply Forall_fmap, Forall_forall. by intros.
    + intros t1 t2 d1 Heq dv Hc _. subst dv. exists ws2, (disk_of (co_raft c')). split; [|by right; right].
      assert (disk_ops t1 = []) as Hd.
      { assert (disk_ops (tr ++ ts) = []) as Hd by (by rewrite disk_ops_app, (answers_disk _ Htr), Hts).
        rewrite Heq, disk_ops_app in Hd. by apply app_eq_nil in Hd as [? _]. }
      rewrite Hd in Hc. change (apply_ops (apply_ops d fs1) []) with (apply_ops d fs1) in Hc.
      rewrite <-!apply_ops_app, ?app_nil_r in Hc. eapply log_rest; [apply Hok|exact Hc].
Qed.

(** The answers given at once change nothing on the disk. *)
Lemma answers_survive ws ws1 ws2 c d n1 n2 t :
  core_ok ws c d → Forall answer t →
  survives (staged ws ws1 ws2 (co_raft c) n1 n2 t) d t.
Proof.
  intros (_ & _ & Hh) Hans. apply (survives_answers _ _ _ ws (disk_of (co_raft c))); [done|..].
  - intros d1 Hd1. by eapply log_rest.
  - intros t1 [t2 ->]. left. split; [done|]. apply Forall_app in Hans as [Hans _].
    rewrite (visible_answers _ Hans). by exists t2.
Qed.

(** Two rounds of [process_output] are enough: the second finds no output. *)
Lemma process_output_rounds fuel c d c' t :
  out_is_empty (n_out (co_raft c)) = false →
  handle_output fuel (n_out (co_raft c)) (drain c) d = (Some c', t) → n_out (co_raft c') = default_out →
  process_output fuel 2 c d = (Some c', t).
Proof.
  intros He Hh Ho. cbn [process_output]. unfold take_output at 1. cbn iota. rewrite He.
  rewrite <-(app_nil_r t). eapply seq_act_intro; [exact Hh|]. simpl. rewrite Ho. simpl.
  rewrite set_out_same by done. by destruct c'.
Qed.

(** A queue that one turn takes as a whole. *)
Definition whole (evs : list Event) : Prop := evs ≠ [] ∧ (length evs <= 513)%nat.

Lemma turn_whole fuel evs c d c1 t0 r t :
  whole evs → each handle_event evs c = (Some c1, t0) → disk_ops t0 = [] → process_output fuel 2 c1 d = (r, t) →
  turn fuel evs c d = (r, t0 ++ t).
Proof.
  intros [Hne Hlen] Hev Hd Hp. destruct evs as [|ev evs]; [done|]. simpl in Hlen. unfold turn.
  rewrite take_ge by lia. apply (seq_act_intro _ _ _ _ c1); [exact Hev|by rewrite Hd].
Qed.

(** What a turn does: the immediate answers of its events, then the batch. [c1] is
    the core after the events, [c2] after the batch was applied. *)
Record turn_done (c c1 c2 c' : Core B) (t0 ta t : list action) : Prop := {
  td_event : event_done c c1 (co_raft c1) t0;
  td_batch : if out_is_empty (n_out (co_raft c1)) then c' = drain c1 ∧ t = t0
    else ∃ fs1 fs2 tr ts, t = t0 ++ (Disk <$> fs1) ++ ta ++ (Disk <$> fs2) ++ tr ++ ts
      ∧ finished (n_out (co_raft c1)) c2 c' tr ts ∧ co_raft c' = (compaction c2).1;
}.

(** The rows that a turn leaves, and those between. *)
Definition turn_rows (c c1 c2 : Core B) (ws : list write) : list write * list write :=
  let out := n_out (co_raft c1) in
  if out_is_empty out then (ws, ws) else batch_rows out c2 ws (co_log c).

Lemma turn_runs ws c d evs c1 t0 c2 ta :
  core_ok ws c d → room log_options D ws → whole evs → Forall wf_event evs →
  each handle_event evs c = (Some c1, t0) → orderly evs c c1 → RL.last_index (n_log (co_raft c1)) < 2 ^ 64 →
  let out := n_out (co_raft c1) in
  apply_output out (drain c1) = (Some c2, ta) → batch_room out c2 ws (co_log c) →
  ∃ n c' t, let '(ws1, ws2) := turn_rows c c1 c2 ws in
    (∀ fuel, (n <= fuel)%nat → turn fuel evs c d = (Some c', t))
    ∧ turn_done c c1 c2 c' t0 ta t
    ∧ core_ok ws2 c' (apply_ops d (disk_ops t)) ∧ room log_options D ws1 ∧ room log_options D ws2
    ∧ rests d (apply_ops d (disk_ops t))
    ∧ survives (staged ws ws1 ws2 (co_raft c) (co_raft c1) (co_raft c') t0) d t.
Proof.
  intros (Hok & Ho & Hh) Hroom Hq Hwf Hev Hord Hlast out Hap Hbr.
  destruct (events_stored _ _ _ _ Hok Ho Hwf Hev Hord Hlast) as (Hok1 & Hst & Hrun). fold out in Hst, Hrun.
  destruct (handle_events_ops _ _ _ _ Hwf Hev) as [Hed _]. pose proof Hed as [_ Hlog _ _ Hans].
  pose proof (answers_disk _ Hans) as Hd0. unfold turn_rows. fold out.
  destruct (out_is_empty out) eqn:He.
  - apply empty_output in He as Hout. rewrite Hout, store_nothing in Hst.
    exists 0%nat, (drain c1), t0. rewrite Hd0. unfold core_ok. simpl. rewrite Hlog.
    change (disk_of (set_out default_out (co_raft c1))) with (disk_of (co_raft c1)). rewrite <-Hst.
    split_and!; try done.
    + intros fuel _. rewrite <-(app_nil_r t0). apply (turn_whole _ _ _ _ c1); [done..|].
      cbn [process_output]. unfold take_output at 1. cbn iota. fold out. by rewrite He.
    + split; [done|]. fold out. by rewrite He.
    + by apply take_output_ok.
    + apply rests_refl.
    + by eapply answers_survive.
  - destruct (handle_output_ok out ws (disk_of (co_raft c)) (drain c1) d c2 ta)
      as (n & c' & fs1 & fs2 & tr & ts & Hx); simpl; rewrite ?Hlog; try done; [by apply take_output_ok|].
    simpl in Hx. rewrite Hlog in Hx. destruct (batch_rows out c2 ws (co_log c)) as [ws1 ws2].
    destruct Hx as (Hrunh & Hta & Hfin & Hrc & Hdone). destruct (finished_answers _ _ _ _ _ Hfin) as [Htr Hts].
    set (t := (Disk <$> fs1) ++ ta ++ (Disk <$> fs2) ++ tr ++ ts) in *.
    assert (disk_ops (t0 ++ t) = fs1 ++ fs2) as Hdt.
    { unfold t. rewrite !disk_ops_app, !disk_ops_disk, Hd0, Hts, (answers_disk _ Hta), (answers_disk _ Htr).
      by rewrite !app_nil_r. }
    exists n, c', (t0 ++ t). rewrite Hdt. pose proof Hdone as [Hcok Hroom1 Hroom2 Hrs1 Hrs2 _ _ _].
    split_and!; try done.
    + intros fuel Hf. apply (turn_whole _ _ _ _ c1); [done..|].
      apply process_output_rounds; [done|by apply Hrunh|apply Hcok].
    + split; [done|]. fold out. rewrite He. by exists fs1, fs2, tr, ts.
    + by eapply rests_trans.
    + apply survives_app; rewrite ?Hd0; [|apply rests_refl|].
      * by eapply answers_survive.
      * apply (batch_survives ws ws1 ws2 (disk_of (co_raft c)) (drain c1) c' d fs1 fs2); done.
Qed.

(** The rows of every stage fit, so that the directory opens. *)
Lemma survives_opens ws0 ws1 ws2 n0 n1 n2 t0 t1 ws p d :
  room log_options D ws0 → room log_options D ws1 → room log_options D ws2 →
  log_recovers D ws p d → staged ws0 ws1 ws2 n0 n1 n2 t0 t1 ws p → reopens p d ∧ stage n0 n1 n2 t0 t1 p.
Proof.
  intros H0 H1 H2 Hr Hs. assert (room log_options D ws) as Hroom by (by destruct Hs as [[[? _] _]|[[[? _] _]|[? _]]]; subst).
  split; [by eapply recovers_reopens|]. unfold stage. destruct Hs as [[[_ ?] ?]|[[[_ ?] ?]|[_ ?]]]; auto.
Qed.

(** C7: the server keeps the host contract. Let the log store hold the durable
    state of the node, and let a turn take a queue of events that the node survives
    and whose output is applied: one event, or any number of events that together
    install no snapshot and append one run of entries. Given enough turns for the
    storage engine, which has room for the rows, the loop writes the batch, applies
    it, compacts, answers and sends, and the log store again holds the durable state
    of the node. A crash between any two file operations of this that leaves a
    manifest ([manifest_kept]; with [MANIFEST] in place every crash does) leaves a
    directory that opens to the durable state of the node before the events, after them, or after the compaction:
    not to the first once anything but the events' immediate answers has left the
    server, and to the last once a message has been sent. *)
Theorem turn_keeps_host_contract ws c d evs c1 t0 c2 ta :
  core_ok ws c d → room log_options D ws → whole evs → Forall wf_event evs →
  each handle_event evs c = (Some c1, t0) → orderly evs c c1 → RL.last_index (n_log (co_raft c1)) < 2 ^ 64 →
  let out := n_out (co_raft c1) in
  apply_output out (drain c1) = (Some c2, ta) → batch_room out c2 ws (co_log c) →
  ∃ n c' t ws',
    (∀ fuel, (n <= fuel)%nat → turn fuel evs c d = (Some c', t))
    ∧ core_ok ws' c' (apply_ops d (disk_ops t)) ∧ room log_options D ws'
    ∧ rests d (apply_ops d (disk_ops t))
    ∧ (∀ t1 t2 d1, t = t1 ++ t2 → let dv := apply_ops d (disk_ops t1) in cut dv d1 → manifest_kept d dv d1 →
       ∃ p, reopens p d1 ∧ stage (co_raft c) (co_raft c1) (co_raft c') t0 t1 p).
Proof.
  intros Hok Hroom Hq Hwf Hev Hord Hlast out Hap Hbr.
  destruct (turn_runs _ _ _ _ _ _ _ _ Hok Hroom Hq Hwf Hev Hord Hlast Hap Hbr) as (n & c' & t & Hx).
  destruct (turn_rows c c1 c2 ws) as [ws1 ws2]. destruct Hx as (Hrun & _ & Hok' & Hr1 & Hr2 & Hpl & Hsv).
  exists n, c', t, ws2. split_and!; try done. intros t1 t2 d1 Heq dv Hc Hk.
  destruct (Hsv t1 t2 d1 Heq Hc Hk) as (wsd & p & Hrec & Hst). exists p. eapply survives_opens; [..|exact Hst]; done.
Qed.
End durable.

(** ** A concrete event *)

Section concrete_turn.
  #[local] Existing Instances end_crc demo_wal_codec demo_table_codec demo_catalog_codec.
  #[local] Existing Instances demo_wal_laws demo_table_laws demo_catalog_laws.
  #[local] Existing Instances demo_hs_codec demo_entry_codec demo_snap_codec.
  #[local] Existing Instances demo_hs_laws demo_entry_laws demo_snap_laws demo_cmd_codec demo_payload_codec.

(** Node 1 of three, on a new store. *)
Definition fresh_core : Core MemBackend :=
  mkCore (node_new (config_new 1 42) [1; 2; 3] default_persisted) new_store (sm_new (mkMem ∅))
    0 0 100 {[2; 3]} ∅ ∅ [] 1 0 metrics_default.

(** A candidate asks for its vote, and a tick follows. *)
Definition vote_queue : list Event := [EvPeer (mkMsg 2 1 1 (RequestVote 0 0)); EvTick].

(** It votes: the hard state is the only row of the batch. *)
Definition vote_row : write := (KEY_HS, Some (serialize (mkHS 1 (Some 2)))).

Lemma vote_batch :
  match each handle_event vote_queue fresh_core with
  | (Some c1, _) =>
    let out := n_out (co_raft c1) in
    RL.last_index (n_log (co_raft c1)) = 0 ∧ n_hs (co_raft c1) = mkHS 1 (Some 2)
    ∧ o_snapshot out = None ∧ o_append out = []
    ∧ persist_write out = Some (Persist out) ∧ (rows_of (Persist out) new_store).1.1 = [vote_row]
    ∧ match apply_output out (drain c1) with (Some c2, _) => compact_write c2 = None | _ => False end
  | _ => False
  end.
Proof. vm_compute. split_and!; reflexivity. Qed.

Lemma turn_keeps_host_contract_witness :
  ∃ n c' t ws',
    (∀ fuel, (n <= fuel)%nat → turn fuel vote_queue fresh_core new_dir = (Some c', t))
    ∧ core_ok 1 ws' c' (apply_ops new_dir (disk_ops t)).
Proof.
  pose proof vote_batch as Hb. destruct (each handle_event vote_queue fresh_core) as [[c1|] t0] eqn:Hev; [|done].
  cbv zeta in Hb. destruct Hb as (Hlast & _ & Hsn & Hap0 & Hw & Hrows & Hc).
  destruct (apply_output (n_out (co_raft c1)) (drain c1)) as [[c2|] ta] eqn:Hap; [|done].
  assert (room log_options 1 ([] ++ [vote_row])) as Hroom
    by (apply room_single; vm_compute; try done; repeat constructor).
  destruct (turn_keeps_host_contract 1 [] fresh_core new_dir vote_queue c1 t0 c2 ta)
    as (n & c' & t & ws' & Hrun & Hok & _).
  - split_and!; [by apply node_new_ok; intros k e|reflexivity|exact new_store_holds].
  - by eapply room_app.
  - split; [done|]. simpl. lia.
  - by repeat constructor.
  - exact Hev.
  - right. split; [exact Hsn|]. unfold single_run. rewrite Hsn, Hap0. exists 0, 0.
    split_and!; [by intros ? ? ?..|done|done].
  - rewrite Hlast. done.
  - exact Hap.
  - unfold batch_room. rewrite Hc. split; [|by destruct (rows_opt _ _ _)].
    rewrite Hw. change (co_log fresh_core) with new_store. unfold spacious. rewrite Hrows.
    split; [exact Hroom|vm_compute; done].
  - by exists n, c', t, ws'.
Defined.
End concrete_turn.
