(* ===== verification/GroupCommit.v ===== *)
(** * A batch that appends entries and installs a snapshot

    The loop drains the raft node once for up to 513 queued events, so one output
    can carry entries that were appended before a snapshot replaced the log. The
    log store then writes the snapshot and, behind it, the rows of these entries.
    This file runs three servers against each other to show what follows. *)

From S2P Require Import Prelude Order Codec Fs Wal Bloom Memtable SsTable SsTableFacts.
From S2P Require Import MergeIter Manifest Db LsmSpec DbRead DbCompact DbInv DbOps DbEngine DbProps.
From S2P Require Import RaftTypes RaftLog RaftLogFacts RaftNode RaftNodeFacts RaftNodeInv.
From S2P Require Import Kvsm SimCluster Durability LogStore Proto Server ServerRequests ServerDurable.
From stdpp Require Import strings.
Local Open Scope N_scope.

(** ** Schedules of servers *)

(** A step of the schedule: a turn of a server's loop on ticks, on messages by the
    position at which they were sent, and on client requests; or a restart of a
    server from its directory. *)
Inductive input := Tick | Deliver (k : nat) | Ask (req : Request) (tx : Tx).
Inductive move := Turn (id : NodeId) (ins : list input) | Reboot (id : NodeId).

Section schedules.
  Context {B : Type} {bk : Backend B} {cc : Bincode Command} {cp : Bincode SnapshotPayload}.
  Context {crc : Crc32} {cw : Bincode WalBatch} {ci : Bincode TableIndex} {cm : Bincode Manifest}.
  Context {ch : Bincode HardState} {ce : Bincode RaftTypes.Entry} {cs : Bincode Snapshot}.
  Variables (fuel : nat) (voters : list NodeId) (every : N) (empty : B).

Record net := mkNet { nt_servers : gmap NodeId (Server.Core B * Dir); nt_sent : list Message }.

(** A server with the default configuration. *)
Definition boot_server (id : NodeId) (d : Dir) : option (Server.Core B * Dir) :=
  match core_open fuel (config_new id 42) voters every (list_to_set voters ∖ {[id]}) empty d with
  | (Ok c, fs) => Some (c, apply_ops d fs)
  | _ => None
  end.

(** Only messages that were sent to the server can be delivered to it. *)
Definition event_of (id : NodeId) (sent : list Message) (i : input) : option Event :=
  match i with
  | Tick => Some EvTick
  | Deliver k => m ← sent !! k; if m_to m =? id then Some (EvPeer m) else None
  | Ask req tx => Some (EvClient req tx)
  end.

Definition messages (t : list action) : list Message :=
  omap (λ a, match a with Sent m => Some m | _ => None end) t.

Definition play_move (mv : move) (s : net) : option net :=
  match mv with
  | Turn id ins =>
    '(c, d) ← nt_servers s !! id;
    evs ← mapM (event_of id (nt_sent s)) ins;
    match turn fuel evs c d with
    | (Some c, t) =>
      Some (mkNet (<[id := (c, apply_ops d (disk_ops t))]> (nt_servers s)) (nt_sent s ++ messages t))
    | _ => None
    end
  | Reboot id =>
    '(_, d) ← nt_servers s !! id;
    cd ← boot_server id d;
    Some (mkNet (<[id := cd]> (nt_servers s)) (nt_sent s))
  end.

Fixpoint play (mvs : list move) (s : net) : option net :=
  match mvs with [] => Some s | mv :: mvs => s ← play_move mv s; play mvs s end.

(** All servers on empty directories. *)
Definition started : option net :=
  cds ← mapM (λ id, boot_server id ∅) voters; Some (mkNet (list_to_map (zip voters cds)) []).
End schedules.

(** ** The run *)

Section run.
  #[local] Existing Instances end_crc demo_wal_codec demo_table_codec demo_catalog_codec.
  #[local] Existing Instances demo_hs_codec demo_entry_codec demo_snap_codec demo_cmd_codec demo_payload_codec.

(** The [i]-th write of one session, of the value [i] to one key. *)
Definition nth_put (i : N) : input := Ask (ReqPut 5 i [x61] [byte_of i]) i.
Definition nth_entry (i : Index) (seq : N) : RaftTypes.Entry :=
  mkEntry 1 i (Normal (cmd_encode (mkCmd 5 seq (Put [x61] [byte_of seq])))).

(** Server 1 is elected by server 3 and takes two writes. Server 2 misses the first
    entry and rejects two later messages. The first rejection makes server 1 send
    entries 1 to 3 again; then a third write commits, server 1 compacts its log at
    index 4, and the second rejection makes it send the snapshot. *)
Definition before_batch : list move :=
  [Turn 1 (replicate 20 Tick); Turn 3 [Deliver 1]; Turn 1 [Deliver 2]; Turn 3 [Deliver 4]; Turn 1 [Deliver 5];
   Turn 1 [nth_put 1; nth_put 2]; Turn 2 [Deliver 8; Deliver 10]; Turn 1 [Deliver 14]; Turn 1 [nth_put 3];
   Turn 3 (Deliver <$> [7; 11; 13; 18]%nat); Turn 1 (Deliver <$> [19; 20; 21; 22]%nat); Turn 1 [Deliver 15]].

(** Server 2 handles both in one turn and is restarted. Then a fourth write commits at
    index 5, and server 2 hears of it. *)
Definition the_batch : list move := [Turn 2 [Deliver 16; Deliver 23]; Reboot 2].
Definition after_batch : list move :=
  [Turn 1 [Deliver 25]; Turn 1 [nth_put 4]; Turn 3 [Deliver 28]; Turn 1 [Deliver 29]; Turn 2 [Deliver 27];
   Turn 1 [Tick; Tick]; Turn 2 [Deliver 31]].

Definition three : option (net (B := MemBackend)) := started 10 [1; 2; 3] 4 (mkMem ∅).
Definition played (mvs : list move) : option (net (B := MemBackend)) := s ← three; play 10 [1; 2; 3] 4 (mkMem ∅) mvs s.

(** What is of interest at a server: its commit index, its snapshot index, its
    entries, the entry at index 5, and the value of the key. *)
Definition observed (id : NodeId) (s : option (net (B := MemBackend))) :=
  s ← s; '(c, _) ← nt_servers s !! id;
  let n := co_raft c in
  Some (n_commit n, snap_index (n_log n), entries (n_log n), RL.get (n_log n) 5, sm_read [x61] (co_sm c)).

(** C27: One batch with entries and a snapshot breaks agreement. In a run of three
    servers with the default configuration, in which messages are lost but never reordered, server 2
    drains an append of the entries 1 to 3 and the installation of a snapshot at index
    4 in one turn. Its directory then holds the snapshot and, behind it, the three old
    entries, which a restarted node takes for the entries 5 to 7. When the leader
    replicates entry 5, whose term is that of the old entry there, server 2 takes it
    for one it has: both servers have committed index 5, but with different entries
    and different values of the key that was written. *)
Theorem group_commit_breaks_agreement :
  observed 2 (played (before_batch ++ the_batch))
    = Some (4, 4, [mkEntry 1 1 Noop; nth_entry 2 1; nth_entry 3 2], Some (mkEntry 1 1 Noop), Some [x03]) ∧
  observed 1 (played (before_batch ++ the_batch ++ after_batch))
    = Some (5, 4, [nth_entry 5 4], Some (nth_entry 5 4), Some [x04]) ∧
  observed 2 (played (before_batch ++ the_batch ++ after_batch))
    = Some (5, 4, [mkEntry 1 1 Noop; nth_entry 2 1; nth_entry 3 2], Some (mkEntry 1 1 Noop), Some [x03]).
Proof. split_and!; vm_compute; reflexivity. Qed.
End run.
