(* ===== verification/Cluster.v ===== *)
(** * Raft safety on an asynchronous network

    A cluster of [RaftNode]s with a fixed set of voters. The network may lose,
    duplicate, delay and reorder messages at will: a message that was ever sent
    can be delivered any number of times, or never. Nodes crash and restart
    from what their host wrote; hosts compact logs whenever they like. The
    safety theorems of Raft, and that the node never trips over its own
    assertion, by induction over the steps of such a cluster. *)

From S2P Require Import Prelude RaftTypes RaftLog RaftLogFacts RaftNode RaftNodeFacts.
From S2P Require Import RaftNodeInv RaftProps RaftHistory RaftProtocol ProtocolSafety.
From S2P Require Import RaftRefine NodeSafety Durability.
Local Open Scope N_scope.

Local Infix "⪯" := prefix (at level 70).

Record Cluster := mkCluster { cl_nodes : gmap NodeId RaftNode; cl_sent : list Message }.

(** The host of node [id] drains the node: the output is durable, its messages
    are on the network. *)
Definition settle (id : NodeId) (n : RaftNode) (c : Cluster) : Cluster :=
  mkCluster (<[id := (take_output n).1]> (cl_nodes c)) (cl_sent c ++ o_messages (n_out n)).

(** A node is ticked, given a proposal or a read, given any message that was sent to
    it, compacts, or crashes and restarts from its disk. The voters are fixed:
    [propose_conf_change] is not a step, and no server of this repository calls it. *)
Inductive cluster_step (V0 : list NodeId) (c : Cluster) : Cluster → Prop :=
| step_tick id n :
    cl_nodes c !! id = Some n → cluster_step V0 c (settle id (tick n) c)
| step_propose id n data :
    cl_nodes c !! id = Some n → cluster_step V0 c (settle id (propose data n).1 c)
| step_read id n r :
    cl_nodes c !! id = Some n → cluster_step V0 c (settle id (read_index r n).1 c)
| step_deliver m n n' :
    m ∈ cl_sent c → cl_nodes c !! m_to m = Some n → step m n = Some n' →
    cluster_step V0 c (settle (m_to m) n' c)
| step_compact id n a data :
    cl_nodes c !! id = Some n →
    cluster_step V0 c (mkCluster (<[id := (node_compact a data n).1]> (cl_nodes c)) (cl_sent c))
| step_restart cfg n :
    cl_nodes c !! c_id cfg = Some n →
    cluster_step V0 c
      (mkCluster (<[c_id cfg := node_new cfg V0 (disk_of n)]> (cl_nodes c)) (cl_sent c)).

(** A fresh cluster: empty disks, nothing sent. *)
Definition fresh_cluster (V0 : list NodeId) (c : Cluster) : Prop :=
  cl_sent c = [] ∧ ∀ id n, cl_nodes c !! id = Some n →
    ∃ cfg, c_id cfg = id ∧ n = node_new cfg V0 default_persisted.

Abbreviation reaches V0 := (rtc (cluster_step V0)).

(** ** The invariant *)

(** Payloads other than membership changes. *)
Definition plain (p : EntryPayload) : Prop := is_conf p = false.

Section invariant.
  Context (V0 : list NodeId) (dok : list Entry → bytes → Prop) (pok : EntryPayload → Prop).

Lemma world_inv_ext cs cs' (S S' : Message → Prop) h F F' :
  (∀ id, cs' id = cs id) → (∀ m, S' m → S m) → (∀ id, F' id = F id) →
  world_inv V0 pok dok cs S h F → world_inv V0 pok dok cs' S' h F'.
Proof.
  intros Hcs HS HF [H1 H2 H3]. split; [done| |auto]. intros id. by rewrite Hcs, HF.
Qed.

Lemma node_new_core cfg d :
  core (node_new cfg V0 d) =
  mkCore (p_hard_state d) Follower ∅
    (mkLog (from_option s_last_index 0 (p_snapshot d)) (from_option s_last_term 0 (p_snapshot d))
       (p_entries d))
    (from_option s_last_index 0 (p_snapshot d)) (from_option s_voters V0 (p_snapshot d))
    (p_snapshot d) ∅
  ∧ node_id (node_new cfg V0 d) = c_id cfg ∧ n_out (node_new cfg V0 d) = default_out.
Proof.
  unfold node_new. destruct (p_snapshot d) as [s|] eqn:Hs; simpl;
    match goal with |- context [reset_election_timer ?x] =>
      destruct (reset_timer_eq x) as (T & R & ->) end;
    (split_and!; [|done|done]); unfold core; simpl; by rewrite fmap_empty.
Qed.

(** A node that restarts from its disk is the node without its volatile state. *)
Lemma restart_core cfg h id n L :
  node_inv V0 pok dok h id (core n) L →
  core (node_new cfg V0 (disk_of n)) =
  mkCore (n_hs n) Follower ∅ (n_log n) (snap_index (n_log n)) V0 (n_snapshot n) ∅.
Proof.
  intros [_ [Hrep _ _ _ _] _ _ [_ Hs]]. destruct (node_new_core cfg (disk_of n)) as [-> _].
  simpl in *. destruct (n_log n) as [si st es]. simpl in *.
  destruct (n_snapshot n) as [s|]; simpl.
  - by destruct Hs as (-> & -> & -> & _).
  - subst si. destruct Hrep as (_ & _ & Ht). simpl in Ht. by injection Ht as <-.
Qed.
End invariant.

Section cluster.
  Context (V0 : list NodeId) (Hnd : NoDup V0).
  Abbreviation any_data := (λ (_ : list Entry) (_ : bytes), True).

Definition cores (c : Cluster) (id : NodeId) : Core :=
  from_option core (init_core V0) (cl_nodes c !! id).

Record cluster_inv (c : Cluster) (h : history) (F : NodeId → list Entry) : Prop := {
  ci_world : world_inv V0 plain any_data (cores c) (λ m, m ∈ cl_sent c) h F;
  ci_nodes : ∀ id n, cl_nodes c !! id = Some n → node_id n = id ∧ n_out n = default_out;
}.

Lemma plain_static p : plain p → is_conf p = false.
Proof. done. Qed.

Lemma cores_insert c id n S u :
  cores (mkCluster (<[id := n]> (cl_nodes c)) S) u = update (cores c) id (core n) u.
Proof.
  unfold cores, update. simpl. destruct (decide (u = id)) as [->|Hne].
  - by rewrite lookup_insert, decide_True.
  - by rewrite lookup_insert_ne.
Qed.

Lemma ci_node c h F id n :
  cluster_inv c h F → cl_nodes c !! id = Some n → node_inv V0 plain any_data h id (core n) (F id).
Proof.
  intros [[_ Hns _] _] Hn. specialize (Hns id). unfold cores in Hns. by rewrite Hn in Hns.
Qed.

(** One operation of the core, drained. *)
Lemma settle_inv c h F id n n' :
  cluster_inv c h F → cl_nodes c !! id = Some n →
  by_moves plain (λ m, m ∈ cl_sent c) n n' →
  ∃ h' F', extends h h' ∧ cluster_inv (settle id n' c) h' F'.
Proof.
  intros [Hw Hns] Hn [Hcfg (ms & Ho & Hms)]. destruct (Hns _ _ Hn) as [Hid Hout].
  rewrite Hout in Ho. simpl in Ho. rewrite Hid in Hms.
  assert (core n = cores c id) as Hc by (unfold cores; by rewrite Hn). rewrite Hc in Hms.
  destruct (world_moves V0 plain any_data Hnd plain_static _ _ _ _ _ _ _ Hw Hms)
    as (h' & L' & Hext & Hw').
  exists h', (update F id L'). split; [done|]. split.
  - eapply world_inv_ext; [..|exact Hw']; [| |done].
    + intros u. unfold settle. by rewrite cores_insert.
    + intros m. unfold settle. simpl. rewrite Ho. by intros [?|?]%elem_of_app; [left|right].
  - intros u k. unfold settle. simpl. rewrite lookup_insert_Some.
    intros [[<- <-]|[_ Hk]]; [|by apply Hns]. split; [|done].
    unfold node_id in *. simpl. by rewrite Hcfg.
Qed.

Lemma local_inv c h F id n n' :
  cluster_inv c h F → cl_nodes c !! id = Some n →
  node_inv V0 plain any_data h id (core n') (F id) → node_id n' = id → n_out n' = default_out →
  cluster_inv (mkCluster (<[id := n']> (cl_nodes c)) (cl_sent c)) h F.
Proof.
  intros [Hw Hns] Hn Hn' Hid Ho. split.
  - eapply world_inv_ext; [..|by apply (world_local _ _ _ _ _ _ _ id (core n') Hw)]; [|done|done].
    intros u. by rewrite cores_insert.
  - intros u k. simpl. rewrite lookup_insert_Some. intros [[<- <-]|[_ Hk]]; [done|by apply Hns].
Qed.

Lemma compact_core_inv h id a data n L (dok : list Entry → bytes → Prop) pok :
  (∀ p, pok p → is_conf p = false) →
  node_inv V0 pok dok h id (core n) L → dok (upto a L) data →
  node_inv V0 pok dok h id (core (node_compact a data n).1) L.
Proof.
  intros Hconf Hn Hd. unfold node_compact.
  destruct ((a <=? snap_index (n_log n)) || (n_commit n <? a)) eqn:Hg; [done|].
  destruct (RL.term (n_log n) a) as [t|] eqn:Ht; [|done].
  apply (compact_inv V0 pok dok Hconf h id (core n) L a t data); simpl; [done|lia|lia|done|done].
Qed.

Lemma cluster_step_inv c h F c' :
  cluster_inv c h F → cluster_step V0 c c' → ∃ h' F', extends h h' ∧ cluster_inv c' h' F'.
Proof.
  intros Hinv Hstep. pose proof Hinv as [Hw Hns].
  destruct Hstep as [id n Hn|id n data Hn|id n r Hn|m n n' Hm Hn Hs|id n a data Hn|cfg n Hn].
  - eapply settle_inv; [done|done|by apply tick_by].
  - eapply settle_inv; [done|done|by apply propose_by].
  - eapply settle_inv; [done|done|apply read_index_by].
  - eapply settle_inv; [done|done|]. eapply step_by; [done|done| |done].
    by destruct (Hns _ _ Hn) as [-> _].
  - exists h, F. split; [apply extends_refl|]. destruct (Hns _ _ Hn) as [Hid Ho].
    eapply local_inv; [done|done| | |].
    + apply compact_core_inv; [done|by apply ci_node with (c := c)|done].
    + rewrite <-Hid. unfold node_compact. destruct (_ || _); [done|]. by destruct (RL.term _ _).
    + rewrite <-Ho. unfold node_compact. destruct (_ || _); [done|]. by destruct (RL.term _ _).
  - exists h, F. split; [apply extends_refl|]. pose proof (ci_node _ _ _ _ _ Hinv Hn) as Hni.
    destruct (node_new_core V0 cfg (disk_of n)) as (_ & Hid & Ho).
    eapply local_inv; [done|done| |done|done].
    rewrite (restart_core V0 any_data plain cfg _ _ _ _ Hni). by apply (restart_inv _ _ _ _ _ (core n)).
Qed.

Lemma cluster_run_inv c h F c' :
  cluster_inv c h F → reaches V0 c c' → ∃ h' F', extends h h' ∧ cluster_inv c' h' F'.
Proof.
  intros Hinv Hr. revert h F Hinv. induction Hr as [c|c c1 c2 Hs _ IH]; intros h F Hinv.
  { exists h, F. split; [apply extends_refl|done]. }
  destruct (cluster_step_inv _ _ _ _ Hinv Hs) as (h1 & F1 & He1 & Hinv1).
  destruct (IH _ _ Hinv1) as (h2 & F2 & He2 & Hinv2).
  exists h2, F2. split; [by eapply extends_trans|done].
Qed.

Lemma fresh_cluster_inv c : fresh_cluster V0 c → cluster_inv c init_history (λ _, []).
Proof.
  intros [Hs Hns]. split.
  - eapply world_inv_ext; [..|apply init_world]; [| |done].
    + intros id. unfold cores. destruct (cl_nodes c !! id) as [n|] eqn:Hn; [|done]. simpl.
      destruct (Hns _ _ Hn) as (cfg & _ & ->). by destruct (node_new_core V0 cfg default_persisted).
    + intros m. rewrite Hs. apply not_elem_of_nil.
  - intros id n Hn. destruct (Hns _ _ Hn) as (cfg & <- & ->).
    by destruct (node_new_core V0 cfg default_persisted).
Qed.

(** Two moments of one run. *)
Lemma two_moments c0 c1 c2 :
  fresh_cluster V0 c0 → reaches V0 c0 c1 → reaches V0 c1 c2 →
  ∃ h1 F1 h2 F2, cluster_inv c1 h1 F1 ∧ cluster_inv c2 h2 F2 ∧ extends h1 h2.
Proof.
  intros Hf H1 H2.
  destruct (cluster_run_inv _ _ _ _ (fresh_cluster_inv _ Hf) H1) as (h1 & F1 & _ & Hi1).
  destruct (cluster_run_inv _ _ _ _ Hi1 H2) as (h2 & F2 & Hext & Hi2). eauto 10.
Qed.
End cluster.

(** ** Safety *)

Section theorems.
  Context (V0 : list NodeId) (Hnd : NoDup V0) (c0 c1 c2 : Cluster).
  Context (Hfresh : fresh_cluster V0 c0) (H1 : reaches V0 c0 c1) (H2 : reaches V0 c1 c2).
  Context (a b : NodeId) (na nb : RaftNode).
  Context (Ha : cl_nodes c1 !! a = Some na) (Hb : cl_nodes c2 !! b = Some nb).

(** C10: election safety. Two nodes that lead in the same term, at whatever two
    moments of a run with fixed voters, are the same node. *)
Theorem election_safety :
  is_leader na = true → is_leader nb = true → node_term na = node_term nb → a = b.
Proof.
  destruct (two_moments V0 Hnd _ _ _ Hfresh H1 H2) as (h1 & F1 & h2 & F2 & Hi1 & Hi2 & Hext).
  intros Hla%bool_decide_eq_true Hlb%bool_decide_eq_true Ht.
  pose proof (ci_node _ _ _ _ _ _ Hi1 Ha) as [_ _ Hra _ _].
  pose proof (ci_node _ _ _ _ _ _ Hi2 Hb) as [_ _ Hrb _ _].
  simpl in *. rewrite Hla in Hra. rewrite Hlb in Hrb. destruct Hra as [Hra _], Hrb as [Hrb _].
  destruct (ext_leaders _ _ Hext _ _ _ Hra) as (x & Hx & _).
  unfold k_term in *. simpl in *. unfold node_term in Ht. rewrite Ht in Hx. congruence.
Qed.

Lemma retained h F id n i e :
  node_inv V0 plain (λ _ _, True) h id (core n) (F id) → RL.get (n_log n) i = Some e →
  F id !! (N.to_nat i - 1)%nat = Some e ∧ 0 < i.
Proof.
  intros [_ [Hrep _ _ _ _] _ _ _] Hg. apply get_Some in Hg as Hbd.
  rewrite (rep_get (F id)) in Hg by (done || lia). split; [done|lia].
Qed.

(** C15: log matching. If two logs of a run with fixed voters hold an entry of the
    same term at the same index, they hold the same entry there, and they agree on
    every earlier index that neither of them has compacted away. *)
Theorem logs_match i ea eb :
  RL.get (n_log na) i = Some ea → RL.get (n_log nb) i = Some eb → e_term ea = e_term eb →
  ea = eb ∧ ∀ j, snap_index (n_log na) < j → snap_index (n_log nb) < j → j ≤ i →
              RL.get (n_log na) j = RL.get (n_log nb) j.
Proof.
  destruct (two_moments V0 Hnd _ _ _ Hfresh H1 H2) as (h1 & F1 & h2 & F2 & Hi1 & Hi2 & Hext).
  intros Hga Hgb Ht.
  pose proof (ci_node _ _ _ _ _ _ Hi1 Ha) as Hna. pose proof (ci_node _ _ _ _ _ _ Hi2 Hb) as Hnb.
  destruct (retained _ _ _ _ _ _ Hna Hga) as [Hla Hi]. destruct (retained _ _ _ _ _ _ Hnb Hgb) as [Hlb _].
  destruct Hna as [_ [Hrepa Hoka _ _ _] _ _ _]. destruct Hnb as [_ [Hrepb Hokb _ _ _] _ _ _].
  destruct Hi2 as [[Hok2 _ _] _]. apply (log_ok_ext plain _ _ Hext) in Hoka.
  pose proof (log_matching plain _ _ _ _ _ _ Hoka Hokb Hla Hlb Ht) as Hm.
  assert (∀ j, j < N.of_nat (S (N.to_nat i - 1)) → F1 a !! N.to_nat j = F2 b !! N.to_nat j) as Hj.
  { intros j Hj. apply (f_equal (λ l, l !! N.to_nat j)) in Hm.
    by rewrite !lookup_take_lt in Hm by lia. }
  split.
  - specialize (Hj (i - 1) ltac:(lia)). replace (N.to_nat (i - 1)) with (N.to_nat i - 1)%nat in Hj by lia.
    congruence.
  - intros j Hsa Hsb Hle. rewrite (rep_get (F1 a)), (rep_get (F2 b)) by done.
    specialize (Hj (j - 1) ltac:(lia)). by replace (N.to_nat (j - 1)) with (N.to_nat j - 1)%nat in Hj by lia.
Qed.

(** C12: leader completeness. In a run with fixed voters, an entry that some node has
    committed is in the log of every leader of that term or a later one, or in its
    snapshot. *)
Theorem leaders_hold_committed i e :
  RL.get (n_log na) i = Some e → i ≤ n_commit na →
  is_leader nb = true → node_term na ≤ node_term nb →
  i ≤ RL.last_index (n_log nb) ∧ (snap_index (n_log nb) < i → RL.get (n_log nb) i = Some e).
Proof.
  destruct (two_moments V0 Hnd _ _ _ Hfresh H1 H2) as (h1 & F1 & h2 & F2 & Hi1 & Hi2 & Hext).
  intros Hga Hci Hl%bool_decide_eq_true Ht.
  pose proof (ci_node _ _ _ _ _ _ Hi1 Ha) as Hna. pose proof (ci_node _ _ _ _ _ _ Hi2 Hb) as Hnb.
  destruct (retained _ _ _ _ _ _ Hna Hga) as [Hla Hi].
  destruct Hna as [_ _ _ (_ & Hca & Hcp) _]. destruct Hnb as [_ [Hrepb _ _ _ _] Hrb _ _].
  simpl in *. rewrite Hl in Hrb. destruct Hrb as [Hrb _]. destruct Hi2 as [[Hok2 _ _] _].
  apply (committed_prefix_ext V0 _ _ Hext) in Hcp.
  pose proof (committed_in_leader V0 plain h2 Hnd Hok2 _ _ _ _ _ Hcp Hrb Ht) as Hp.
  assert (F2 b !! (N.to_nat i - 1)%nat = Some e) as Hlb.
  { eapply prefix_lookup_Some; [|exact Hp]. by rewrite lookup_take_lt by lia. }
  split; [|intros Hs; by rewrite (rep_get (F2 b))].
  rewrite (rep_last (F2 b)) by done. apply lookup_lt_Some in Hlb. lia.
Qed.

(** C5: state machine safety. Two nodes that have committed an index hold the
    same entry there, whenever each of them did: no two state machines ever
    apply different commands at the same index. *)
Theorem state_machine_safety i ea eb :
  RL.get (n_log na) i = Some ea → i ≤ n_commit na →
  RL.get (n_log nb) i = Some eb → i ≤ n_commit nb → ea = eb.
Proof.
  destruct (two_moments V0 Hnd _ _ _ Hfresh H1 H2) as (h1 & F1 & h2 & F2 & Hi1 & Hi2 & Hext).
  intros Hga Hca Hgb Hcb.
  pose proof (ci_node _ _ _ _ _ _ Hi1 Ha) as Hna. pose proof (ci_node _ _ _ _ _ _ Hi2 Hb) as Hnb.
  destruct (retained _ _ _ _ _ _ Hna Hga) as [Hla Hi]. destruct (retained _ _ _ _ _ _ Hnb Hgb) as [Hlb _].
  destruct Hna as [_ _ _ (_ & _ & Hcpa) _]. destruct Hnb as [_ _ _ (_ & _ & Hcpb) _].
  simpl in *. destruct Hi2 as [[Hok2 _ _] _]. apply (committed_prefix_ext V0 _ _ Hext) in Hcpa.
  assert (upto (n_commit na) (F1 a) !! (N.to_nat i - 1)%nat = Some ea) as Hxa
    by (by rewrite lookup_take_lt by lia).
  assert (upto (n_commit nb) (F2 b) !! (N.to_nat i - 1)%nat = Some eb) as Hxb
    by (by rewrite lookup_take_lt by lia).
  destruct (committed_prefixes_agree V0 plain h2 Hnd Hok2 _ _ _ _ Hcpa Hcpb) as [Hp|Hp].
  - pose proof (prefix_lookup_Some _ _ _ _ Hxa Hp). congruence.
  - pose proof (prefix_lookup_Some _ _ _ _ Hxb Hp). congruence.
Qed.
End theorems.

(** C20: no delivery ever makes a node panic: the [assert!] that a committed
    entry is never overwritten, and the range check of [truncate_from], hold
    for every message of every run with fixed voters. *)
Theorem delivery_never_panics V0 c0 c m n :
  NoDup V0 → fresh_cluster V0 c0 → reaches V0 c0 c →
  m ∈ cl_sent c → cl_nodes c !! m_to m = Some n → is_Some (step m n).
Proof.
  intros Hnd Hf Hr Hm Hn.
  destruct (cluster_run_inv V0 Hnd _ _ _ _ (fresh_cluster_inv _ _ Hf) Hr) as (h & F & _ & Hinv).
  pose proof Hinv as [[Hok _ HS] Hns]. destruct (Hns _ _ Hn) as [Hid _].
  eapply (step_total V0 plain (λ _ _, True) Hnd plain_static h _ n (F (m_to m)) (λ m, m ∈ cl_sent c));
    [done|by apply (ci_node _ _ _ _ _ _ Hinv)|done|done|done].
Qed.

(** ** A concrete run *)

(** Schedules, and a function that runs them. *)
Inductive action :=
| ATick (id : NodeId) (times : nat)
| ADeliver (from count : nat)
| APropose (id : NodeId) (data : bytes)
| ARead (id : NodeId) (r : N)
| ARestart (cfg : Config).

Definition deliver (c : Cluster) (k : nat) : Cluster :=
  default c (m ← cl_sent c !! k; n ← cl_nodes c !! m_to m; n' ← step m n;
             Some (settle (m_to m) n' c)).

Definition on_node (id : NodeId) (f : RaftNode → Cluster) (c : Cluster) : Cluster :=
  from_option f c (cl_nodes c !! id).

Definition act (V0 : list NodeId) (c : Cluster) (a : action) : Cluster :=
  match a with
  | ATick id times => Nat.iter times (λ c, on_node id (λ n, settle id (tick n) c) c) c
  | ADeliver from count => foldl deliver c (seq from count)
  | APropose id data => on_node id (λ n, settle id (propose data n).1 c) c
  | ARead id r => on_node id (λ n, settle id (read_index r n).1 c) c
  | ARestart cfg => on_node (c_id cfg) (λ n, mkCluster
      (<[c_id cfg := node_new cfg V0 (disk_of n)]> (cl_nodes c)) (cl_sent c)) c
  end.

Lemma act_reaches V0 c a : reaches V0 c (act V0 c a).
Proof.
  assert (∀ id f, (∀ n, cl_nodes c !! id = Some n → cluster_step V0 c (f n)) →
    reaches V0 c (on_node id f c)) as Hon.
  { intros id f Hf. unfold on_node. destruct (cl_nodes c !! id) as [n|] eqn:Hn; [|done].
    by apply rtc_once, Hf. }
  destruct a as [id times|from count|id data|id r|cfg]; simpl.
  - clear Hon. induction times as [|k IH]; simpl; [done|]. etrans; [exact IH|].
    unfold on_node. destruct (cl_nodes _ !! id) as [n|] eqn:Hn; [|done].
    by apply rtc_once, step_tick.
  - clear Hon. revert c from. induction count as [|k IH]; intros c from; simpl; [done|].
    etrans; [|apply IH]. unfold deliver.
    destruct (cl_sent c !! from) as [m|] eqn:Hm; [|done]. simpl.
    destruct (cl_nodes c !! m_to m) as [n|] eqn:Hn; [|done]. simpl.
    destruct (step m n) as [n'|] eqn:Hs; [|done]. simpl. apply rtc_once.
    by eapply step_deliver; [eapply list_elem_of_lookup_2| |].
  - apply Hon. intros n Hn. by apply step_propose.
  - apply Hon. intros n Hn. by apply step_read.
  - apply Hon. intros n Hn. by apply step_restart.
Qed.

Definition run_schedule (V0 : list NodeId) (acts : list action) (c : Cluster) : Cluster :=
  foldl (act V0) c acts.

Lemma run_schedule_reaches V0 acts c : reaches V0 c (run_schedule V0 acts c).
Proof.
  revert c. induction acts as [|a acts IH]; intros c; [done|]. simpl.
  etrans; [apply act_reaches|apply IH].
Qed.

(** Three nodes. Node 1 is elected, commits an entry, and crashes; node 2 takes
    over in a later term and commits another entry. *)
Definition demo_voters : list NodeId := [1; 2; 3].
Definition demo_start : Cluster :=
  mkCluster (list_to_map ((λ id, (id, node_new (config_new id 42) demo_voters default_persisted))
    <$> demo_voters)) [].
Definition demo_first : list action :=
  [ATick 1 20; ADeliver 0 20; APropose 1 [x07]; ADeliver 14 20; ATick 1 2; ADeliver 0 60].
Definition demo_second : list action :=
  [ARestart (config_new 1 43); ATick 2 20; ADeliver 34 40; APropose 2 [x08]; ADeliver 34 60;
   ATick 2 2; ADeliver 34 60].
Definition demo_mid : Cluster := run_schedule demo_voters demo_first demo_start.
Definition demo_end : Cluster := run_schedule demo_voters demo_second demo_mid.

Definition demo_node (c : Cluster) (id : NodeId) : RaftNode :=
  default (node_new (config_new id 42) demo_voters default_persisted) (cl_nodes c !! id).

Lemma demo_nodup : NoDup demo_voters.
Proof. apply (bool_decide_unpack _). vm_compute. exact I. Qed.

Lemma demo_fresh : fresh_cluster demo_voters demo_start.
Proof.
  split; [done|]. intros id n Hn. apply elem_of_list_to_map_2, list_elem_of_fmap in Hn.
  destruct Hn as (id' & [= <- ->] & _). by exists (config_new id 42).
Qed.

Lemma demo_reaches_mid : reaches demo_voters demo_start demo_mid.
Proof. apply run_schedule_reaches. Qed.

Lemma demo_reaches_end : reaches demo_voters demo_mid demo_end.
Proof. apply run_schedule_reaches. Qed.

Lemma demo_mid_1 : cl_nodes demo_mid !! 1 = Some (demo_node demo_mid 1).
Proof. vm_compute. reflexivity. Qed.

Lemma demo_end_2 : cl_nodes demo_end !! 2 = Some (demo_node demo_end 2).
Proof. vm_compute. reflexivity. Qed.

Lemma election_safety_witness : is_leader (demo_node demo_mid 1) = true ∧ 1 = 1.
Proof.
  split; [vm_compute; reflexivity|].
  apply (election_safety demo_voters demo_nodup demo_start demo_mid demo_mid demo_fresh
    demo_reaches_mid (rtc_refl _ _) 1 1 (demo_node demo_mid 1) (demo_node demo_mid 1)
    demo_mid_1 demo_mid_1); vm_compute; reflexivity.
Defined.

Lemma logs_match_witness :
  RL.get (n_log (demo_node demo_mid 1)) 1 = RL.get (n_log (demo_node demo_end 2)) 1.
Proof.
  apply (logs_match demo_voters demo_nodup demo_start demo_mid demo_end demo_fresh
    demo_reaches_mid demo_reaches_end 1 2 (demo_node demo_mid 1) (demo_node demo_end 2)
    demo_mid_1 demo_end_2 2 (mkEntry 1 2 (Normal [x07])) (mkEntry 1 2 (Normal [x07])));
    vm_compute; (reflexivity || discriminate).
Defined.

Lemma leaders_hold_committed_witness :
  2 ≤ RL.last_index (n_log (demo_node demo_end 2)) ∧
  (snap_index (n_log (demo_node demo_end 2)) < 2 →
   RL.get (n_log (demo_node demo_end 2)) 2 = Some (mkEntry 1 2 (Normal [x07]))).
Proof.
  apply (leaders_hold_committed demo_voters demo_nodup demo_start demo_mid demo_end demo_fresh
    demo_reaches_mid demo_reaches_end 1 2 (demo_node demo_mid 1) (demo_node demo_end 2)
    demo_mid_1 demo_end_2); vm_compute; (reflexivity || discriminate).
Defined.

Lemma state_machine_safety_witness :
  n_commit (demo_node demo_end 2) = 4 ∧
  mkEntry 1 2 (Normal [x07]) = mkEntry 1 2 (Normal [x07]).
Proof.
  split; [vm_compute; reflexivity|].
  apply (state_machine_safety demo_voters demo_nodup demo_start demo_mid demo_end demo_fresh
    demo_reaches_mid demo_reaches_end 1 2 (demo_node demo_mid 1) (demo_node demo_end 2)
    demo_mid_1 demo_end_2 2); vm_compute; (reflexivity || discriminate).
Defined.

(** The last message of the run, and the node it goes to. *)
Definition demo_last : Message := default (mkMsg 0 0 0 (PreVoteResp false)) (last (cl_sent demo_end)).

Lemma delivery_never_panics_witness :
  is_Some (step demo_last (demo_node demo_end (m_to demo_last))).
Proof.
  apply (delivery_never_panics demo_voters demo_start demo_end demo_last).
  - exact demo_nodup.
  - exact demo_fresh.
  - exact (transitivity demo_reaches_mid demo_reaches_end).
  - apply (list_elem_of_lookup_2 _ 75). vm_compute. reflexivity.
  - vm_compute. reflexivity.
Defined.

(** ** A read confirmed by a reply of an earlier leadership *)

(** Node 1 leads term 1, asks for three reads and crashes before the round is
    answered. It leads term 2 after its restart; a heartbeat of term 1 reaches
    node 3 only now, and the reply of the later term echoes the heartbeat's read
    context, 3. Node 2 then leads term 3 and commits an entry. *)
Definition stale_schedule : list action :=
  [ATick 1 20; ADeliver 0 40; ARead 1 1; ARead 1 2; ARead 1 3; ARestart (config_new 1 43);
   ATick 2 10; ATick 1 20; ADeliver 22 1; ADeliver 24 1; ADeliver 25 3; ADeliver 20 1;
   ADeliver 29 1; ADeliver 34 1; ADeliver 33 1; ADeliver 30 2; ATick 3 10; ATick 2 10;
   ADeliver 38 2; ADeliver 41 2; APropose 2 [x08]; ADeliver 44 1; ADeliver 48 1;
   ADeliver 49 1; ADeliver 50 2].
Definition stale_cluster : Cluster := run_schedule demo_voters stale_schedule demo_start.
Definition stale_reader : RaftNode := (take_output (read_index 9 (demo_node stale_cluster 1)).1).1.
Definition stale_reply : Message :=
  default (mkMsg 0 0 0 (PreVoteResp false)) (cl_sent stale_cluster !! 36%nat).

(** C26: A linearizable read can be confirmed by messages sent before it was
    asked for. In a reachable cluster, node 2 leads term 3 and has committed the
    entry [8] at index 4; node 1 still leads term 2, accepts read 9 afterwards,
    and releases it at commit index 2 on a reply that was already in flight: the
    read misses the committed write. [become_leader] restarts the context
    counter, and a node that answers an [AppendEntries] of an old term echoes the
    context of that old term under its own term. *)
Theorem read_misses_committed_write :
  ∃ c0 c n1 n2 m n1' idx,
    fresh_cluster demo_voters c0 ∧ reaches demo_voters c0 c ∧
    cl_nodes c !! 1 = Some n1 ∧ cl_nodes c !! 2 = Some n2 ∧
    is_leader n2 = true ∧ n_commit n2 = 4 ∧
    RL.get (n_log n2) 4 = Some (mkEntry 3 4 (Normal [x08])) ∧
    (read_index 9 n1).2 = Ok tt ∧ m ∈ cl_sent c ∧ m_to m = 1 ∧
    step m (take_output (read_index 9 n1).1).1 = Some n1' ∧
    (9, idx) ∈ o_read_states (n_out n1') ∧ idx < 4.
Proof.
  exists demo_start, stale_cluster, (demo_node stale_cluster 1), (demo_node stale_cluster 2),
    stale_reply, (default stale_reader (step stale_reply stale_reader)), 2.
  split; [exact demo_fresh|]. split; [apply run_schedule_reaches|].
  do 6 (split; [vm_compute; reflexivity|]).
  split; [apply (list_elem_of_lookup_2 _ 36); vm_compute; reflexivity|].
  do 2 (split; [vm_compute; reflexivity|]).
  split; [|reflexivity].
  apply (list_elem_of_lookup_2 _ 0). vm_compute. reflexivity.
Qed.
