(* ===== verification/RaftBounds.v ===== *)
(** * The numbers of the raft core stay small

    The model computes with unbounded numbers where crates/raft/src/node.rs has
    [u64] and [u32]. Here is why that is faithful: in a run of a cluster every
    term, index, read context and tick, in nodes and in messages, is bounded by the
    number of steps of the run, the timers by their limits and the windows of the
    leader by their cap, so no addition of the code wraps around. *)

From S2P Require Import Prelude RaftTypes RaftLog RaftLogFacts RaftNode RaftNodeFacts.
From S2P Require Import RaftNodeInv RaftProps RaftHistory RaftProtocol ProtocolSafety.
From S2P Require Import RaftRefine NodeSafety Durability Cluster.
Local Open Scope N_scope.
#[local] Arguments N.add : simpl never.

(** ** The bounds *)

(** Bounds for terms, indices, read contexts and ticks. *)
Definition progress_within (i c k cap : N) (pr : Progress) : Prop :=
  pr_next pr ≤ i + 1 ∧ pr_matched pr ≤ i ∧ pr_inflight pr ≤ cap ∧ pr_acked_read_ctx pr ≤ c
  ∧ pr_snapshot_sent_tick pr ≤ k ∧ pr_last_resp_tick pr ≤ k.

(** A pre-vote, and the answer that grants it, carry the term that is asked for. *)
Definition msg_within (t i c : N) (m : Message) : Prop :=
  match m_body m with
  | PreVote lli _ => m_term m ≤ t + 1 ∧ lli ≤ i
  | PreVoteResp granted => m_term m ≤ if granted then t + 1 else t
  | RequestVote lli _ => m_term m ≤ t ∧ lli ≤ i
  | RequestVoteResp _ => m_term m ≤ t
  | AppendEntries prev _ es lc ctx => m_term m ≤ t ∧ prev + N.of_nat (length es) ≤ i ∧ lc ≤ i ∧ ctx ≤ c
  | AppendEntriesResp _ mi ci ctx => m_term m ≤ t ∧ mi ≤ i ∧ ci ≤ i + 1 ∧ ctx ≤ c
  | InstallSnapshot s => m_term m ≤ t ∧ s_last_index s ≤ i
  | InstallSnapshotResp li => m_term m ≤ t ∧ li ≤ i
  end.

Definition counters_within (t i c k : N) (n : RaftNode) : Prop :=
  node_term n ≤ t ∧ RL.last_index (n_log n) ≤ i ∧ n_commit n ≤ i
  ∧ from_option s_last_index 0 (n_snapshot n) ≤ i ∧ n_read_ctx_counter n ≤ c ∧ n_tick_counter n ≤ k.

Definition timers_within (n : RaftNode) : Prop :=
  n_election_elapsed n ≤ n_randomized_timeout n ∧ n_heartbeat_elapsed n ≤ c_heartbeat_tick (n_cfg n).

Definition within (t i c k : N) (n : RaftNode) : Prop :=
  counters_within t i c k n ∧ timers_within n
  ∧ Forall (λ r, r.1.1 ≤ c ∧ r.2 ≤ i) (n_pending_reads n)
  ∧ map_Forall (λ _, progress_within i c k (c_max_inflight (n_cfg n))) (n_prs n)
  ∧ Forall (msg_within t i c) (o_messages (n_out n)).

Lemma progress_within_mono i c k cap i' c' k' pr :
  i ≤ i' → c ≤ c' → k ≤ k' → progress_within i c k cap pr → progress_within i' c' k' cap pr.
Proof. unfold progress_within. lia. Qed.

Lemma msg_within_mono t i c t' i' c' m :
  t ≤ t' → i ≤ i' → c ≤ c' → msg_within t i c m → msg_within t' i' c' m.
Proof. unfold msg_within. intros ? ? ?. destruct (m_body m); try case_match; lia. Qed.

Lemma within_mono t i c k t' i' c' k' n :
  t ≤ t' → i ≤ i' → c ≤ c' → k ≤ k' → within t i c k n → within t' i' c' k' n.
Proof.
  intros ? ? ? ? (Hc & Ht & Hr & Hp & Hm). split_and!; [unfold counters_within in *; lia|done|..].
  - eapply Forall_impl; [exact Hr|]. intros r. cbv beta. lia.
  - intros v pr Hv. eapply progress_within_mono; [..|by eapply Hp]; done.
  - eapply Forall_impl; [exact Hm|]. intros m. by apply msg_within_mono.
Qed.

(** ** Sending *)

Section sending.
  Context (t i c k : N).
  Abbreviation ok := (within t i c k).
  Abbreviation mok := (msg_within t i c).
  Implicit Types n : RaftNode.

Lemma push_msgs_within ms n : ok n → Forall mok ms → ok (push_msgs ms n).
Proof. intros (Hc & Ht & Hr & Hp & Hm) Hms. split_and!; [done..|]. simpl. by apply Forall_app. Qed.

Lemma push_msg_within m n : ok n → mok m → ok (push_msg m n).
Proof. intros Hn Hm. apply (push_msgs_within [m]); [done|by constructor]. Qed.

Lemma set_prs_within P n :
  ok n → map_Forall (λ _, progress_within i c k (c_max_inflight (n_cfg n))) P → ok (set_prs P n).
Proof. by intros (Hc & Ht & Hr & _ & Hm) HP. Qed.

Lemma put_progress_within v pr n :
  ok n → progress_within i c k (c_max_inflight (n_cfg n)) pr → ok (set_prs (<[v := pr]> (n_prs n)) n).
Proof. intros Hn Hpr. apply set_prs_within; [done|]. apply map_Forall_insert_2; [done|apply Hn]. Qed.

Lemma foldl_within {A} (f : RaftNode → A → RaftNode) xs n :
  (∀ n x, ok n → ok (f n x)) → ok n → ok (foldl f n xs).
Proof. intros Hf. revert n. induction xs as [|x xs IH]; intros n Hn; [done|]. by apply IH, Hf. Qed.

Lemma send_append_within peer n : ok n → ok (send_append peer n).
Proof.
  intros Hn. pose proof Hn as ((Ht & Hl & Hcm & Hsn & Hctx & Hk) & _ & _ & Hp & _). unfold send_append.
  destruct (n_prs n !! peer) as [pr|] eqn:Hpr; [|done].
  destruct (Hp _ _ Hpr) as (H1 & H2 & H3 & H4 & H5 & H6).
  destruct (_ && _); [done|]. cbv zeta.
  destruct (N.leb_spec (pr_next (set_pr_pending_snapshot false pr)) (snap_index (n_log n))) as [_|Hnx].
  { destruct (n_snapshot n) as [s|] eqn:Hs; [|by apply put_progress_within].
    apply push_msg_within; [by apply put_progress_within|]. simpl in Hsn. done. }
  simpl in Hnx. destruct (RL.term (n_log n) _) as [pt|] eqn:Hpt; [|by apply put_progress_within].
  apply term_bounds in Hpt. simpl in Hpt. set (es := RL.slice _ _ _).
  assert (pr_next pr + N.of_nat (length es) ≤ i + 1) as Hlen.
  { unfold es. rewrite length_slice by done. simpl. lia. }
  assert (∀ es' pr', pr_next pr + N.of_nat (length es') ≤ i + 1 → progress_within i c k (c_max_inflight (n_cfg n)) pr' →
    ok (send peer (AppendEntries (pr_next pr - 1) pt es' (n_commit n) (n_read_ctx_counter n))
          (set_prs (<[peer := pr']> (n_prs n)) n))) as Hsend.
  { intros es' pr' He Hpr'. apply push_msg_within; [by apply put_progress_within|]. simpl. split_and!; [done|lia|done|done]. }
  destruct es as [|e es']; [by apply Hsend|].
  destruct (N.leb_spec (c_max_inflight (n_cfg n)) (pr_inflight (set_pr_pending_snapshot false pr))) as [_|Hin].
  - apply (Hsend []); [simpl; lia|]. unfold progress_within. simpl. lia.
  - apply (Hsend (e :: es')); [done|]. simpl in Hin. unfold progress_within. cbn [length pr_next set_pr_pending_snapshot] in *.
    destruct (0 <? _); simpl; lia.
Qed.

Lemma foldl_map_Forall {A} (Q : Progress → Prop) (f : gmap NodeId Progress → A → gmap NodeId Progress) xs P :
  (∀ P x, map_Forall (λ _, Q) P → map_Forall (λ _, Q) (f P x)) →
  map_Forall (λ _, Q) P → map_Forall (λ _, Q) (foldl f P xs).
Proof. intros Hf. revert P. induction xs as [|x xs IH]; intros P HP; [done|]. by apply IH, Hf. Qed.

Lemma progress_new_within cap next : next ≤ i + 1 → progress_within i c k cap (progress_new next).
Proof. unfold progress_within. simpl. lia. Qed.

Lemma sync_progress_within n : ok n → ok (sync_progress_with_voters n).
Proof.
  intros Hn. pose proof Hn as ((_ & Hl & _) & _ & _ & Hp & _). unfold sync_progress_with_voters.
  destruct (decide _) as [_|_]; [done|]. apply set_prs_within; [done|]. cbv zeta.
  intros v pr [Hv _]%map_lookup_filter_Some. revert v pr Hv. apply foldl_map_Forall; [|done].
  intros P v HP. destruct (_ =? _); [done|]. destruct (P !! v); [done|].
  apply map_Forall_insert_2; [apply progress_new_within; lia|done].
Qed.

Lemma broadcast_within n : ok n → ok (broadcast_append n).
Proof.
  intros Hn. unfold broadcast_append. apply foldl_within; [|by apply sync_progress_within].
  intros n' v. apply send_append_within.
Qed.

(** ** Roles and commits *)

Lemma reset_timer_within n : counters_within t i c k n → n_heartbeat_elapsed n ≤ c_heartbeat_tick (n_cfg n) →
  Forall (λ r, r.1.1 ≤ c ∧ r.2 ≤ i) (n_pending_reads n) →
  map_Forall (λ _, progress_within i c k (c_max_inflight (n_cfg n))) (n_prs n) →
  Forall mok (o_messages (n_out n)) → ok (reset_election_timer n).
Proof.
  intros Hc Ht Hr Hp Hm. destruct (reset_timer_eq n) as (T & R & ->). split; [done|]. split; [split; [simpl; lia|done]|by split_and!].
Qed.

Lemma become_follower_within t' l n : ok n → t' ≤ t → ok (become_follower t' l n).
Proof.
  intros ((Ht & Hc) & [He Hh] & _ & _ & Hm) Hle. destruct (become_follower_eq t' l n) as (T & R & hs & oh & -> & Hhs & _).
  split; [|split; [split; [simpl; lia|done]|split_and!; [by constructor|apply map_Forall_empty|done]]].
  split; [|done]. unfold node_term in *. simpl. rewrite Hhs. by destruct (_ <? _).
Qed.

Lemma advance_commit_within x n : ok n → x ≤ i → ok (advance_commit_to x n).
Proof.
  intros Hn Hx. unfold advance_commit_to. set (n1 := set_out _ _).
  assert (ok n1) as H1 by (destruct Hn as ((? & ? & _ & ? & ? & ?) & ?); split; [unfold counters_within; by split_and!|done]).
  destruct (existsb _ _); [|done]. apply become_follower_within; [done|apply H1].
Qed.

Lemma sort_desc_bound l j x b : sort_desc l !! j = Some x → Forall (λ y, y ≤ b) l → x ≤ b.
Proof.
  intros Hj%list_elem_of_lookup_2 Hl. rewrite sort_desc_Permutation in Hj. rewrite Forall_forall in Hl. by apply Hl.
Qed.

Lemma maybe_advance_within n : ok n → ok (maybe_advance_commit n).
Proof.
  intros Hn. pose proof Hn as ((_ & Hl & _) & _ & _ & Hp & _). unfold maybe_advance_commit.
  destruct (decide _) as [_|_]; [done|]. destruct (sort_desc _ !! _) as [x|] eqn:Hx; [|done].
  destruct (_ && _); [|done]. apply advance_commit_within; [done|]. eapply sort_desc_bound; [exact Hx|].
  apply Forall_fmap, Forall_forall. intros v _. simpl. destruct (_ =? _); [done|].
  destruct (n_prs n !! v) as [pr|] eqn:Hv; simpl; [by destruct (Hp _ _ Hv) as (_ & ? & _)|lia].
Qed.

Lemma release_reads_within ctx n : ok n → ok (release_reads ctx n).
Proof.
  intros (Hc & Ht & Hr & Hp & Hm). unfold release_reads. split_and!; try done. simpl.
  rewrite Forall_forall in Hr |- *. intros r [_ Hin]%list_elem_of_filter. by apply Hr.
Qed.

Lemma process_read_acks_within n : ok n → ok (process_read_acks n).
Proof.
  intros Hn. unfold process_read_acks. destruct (n_pending_reads n); [done|].
  destruct (sort_desc _ !! _) as [x|]; [|done]. destruct (0 <? x); [by apply release_reads_within|done].
Qed.
End sending.

(** ** Operations *)

Section operations.
  Context (t i c k : N).
  Implicit Types n : RaftNode.

(** An entry of its own takes a leader one index further. *)
Lemma append_local_within p n : within t i c k n → within t (i + 1) c k (append_local p n).1.
Proof.
  intros Hn. unfold append_local. cbn [fst]. apply broadcast_within, maybe_advance_within.
  apply (within_mono _ _ _ _ t (i + 1) c k) in Hn as Hn'; [|lia..].
  destruct Hn as ((_ & Hl & _) & _). destruct Hn' as ((? & _ & ?) & ?). split; [|done].
  split; [done|]. split; [|done]. simpl. rewrite last_index_push. lia.
Qed.

Lemma become_leader_within n : within t i c k n → within t (i + 1) c k (become_leader n).
Proof.
  intros ((Ht & Hl & Hcm & Hsn & _ & Hk) & [He _] & _ & _ & Hm). unfold become_leader.
  apply broadcast_within, append_local_within. split; [|split; [|split; [constructor|split; [|done]]]].
  - unfold counters_within. split_and!; try done. simpl. lia.
  - split; [done|simpl; lia].
  - apply foldl_map_Forall; [|apply map_Forall_empty]. intros P v HP. destruct (_ =? _); [done|].
    apply map_Forall_insert_2; [apply progress_new_within; simpl; lia|done].
Qed.

Lemma send_to_voters_within t' body n :
  within t i c k n → (∀ dst, msg_within t i c (mkMsg (node_id n) dst t' body)) → within t i c k (send_to_voters t' body n).
Proof.
  intros Hn Hb. destruct (send_to_voters_eq t' body n) as (ms & -> & Hms). apply push_msgs_within; [done|].
  eapply Forall_impl; [exact Hms|]. intros [f d tm b] (Hf & Hx & Hy & _). simpl in *. subst. apply Hb.
Qed.

Abbreviation further := (within (t + 1) (i + 1) c k).

Lemma within_further n : within t i c k n → further n.
Proof. apply within_mono; lia. Qed.

Lemma campaign_start_within n : within t i c k n → within (t + 1) i c k (campaign_start n).
Proof.
  intros Hn. pose proof Hn as ((Ht & _) & _). apply (within_mono _ _ _ _ (t + 1) i c k) in Hn as ((_ & Hc) & Hr); [|lia..].
  split; [|done]. split; [|done]. unfold campaign_start, node_term in *. simpl. lia.
Qed.
End operations.

Section elections.
  Context (t i c k : N).
  Implicit Types n : RaftNode.
  Abbreviation further := (within (t + 1) (i + 1) c k).

Lemma campaign_within n : within t i c k n → further (campaign n).
Proof.
  intros Hn. rewrite campaign_unfold. cbv zeta. apply campaign_start_within in Hn as H1.
  destruct (_ <=? _)%nat; [by apply become_leader_within|].
  eapply (within_mono (t + 1) i c k); [lia..|]. apply send_to_voters_within; [done|].
  intros dst. split; [apply H1|apply Hn].
Qed.

Lemma campaign_pre_within n : within t i c k n → further (campaign_pre n).
Proof.
  intros Hn. unfold campaign_pre. cbv zeta. set (n1 := set_votes _ _). assert (within t i c k n1) as H1 by done.
  destruct (_ <=? _)%nat; [by apply campaign_within|]. apply within_further, send_to_voters_within; [done|].
  intros dst. destruct H1 as ((Ht & Hl & _) & _). split; simpl; [lia|done].
Qed.
End elections.

Section local.
  Context (t i c k : N).
  Implicit Types n : RaftNode.

Lemma tick_within n : within t i c k n → within (t + 1) (i + 1) c (k + 1) (tick n).
Proof.
  intros Hn. assert (within t i c (k + 1) (set_tick_counter (n_tick_counter n + 1) n)) as H1.
  { pose proof Hn as ((_ & _ & _ & _ & _ & Hk) & _).
    apply (within_mono _ _ _ _ t i c (k + 1)) in Hn as ((? & ? & ? & ? & ? & _) & Hr); [|lia..]. split; [unfold counters_within; split_and!; try done; simpl; lia|done]. }
  unfold tick. cbv zeta. set (n1 := set_tick_counter _ _) in *. clearbody n1. destruct H1 as (Hc & [He Hh] & Hr & Hp & Hm).
  assert (within t i c (k + 1) (if n_randomized_timeout n1 <=? n_election_elapsed n1 + 1
    then reset_election_timer (set_election_elapsed (n_election_elapsed n1 + 1) n1)
    else set_election_elapsed (n_election_elapsed n1 + 1) n1)) as H2.
  { destruct (N.leb_spec (n_randomized_timeout n1) (n_election_elapsed n1 + 1)).
    - by apply reset_timer_within.
    - split; [done|]. split; [split; [simpl; lia|done]|done]. }
  assert (∀ n', within t i c (k + 1) n' → within (t + 1) (i + 1) c (k + 1) n') as Hmono by (intros; by apply within_further).
  assert (within (t + 1) (i + 1) c (k + 1)
    (if n_randomized_timeout n1 <=? n_election_elapsed n1 + 1 then
       let n := reset_election_timer (set_election_elapsed (n_election_elapsed n1 + 1) n1) in
       if decide (node_id n ∈ voters n) then if c_pre_vote (n_cfg n) then campaign_pre n else campaign n else n
     else set_election_elapsed (n_election_elapsed n1 + 1) n1)) as H3.
  { destruct (_ <=? _); [|by apply Hmono]. cbv zeta. destruct (decide _); [|by apply Hmono].
    destruct (c_pre_vote _); [by apply campaign_pre_within|by apply campaign_within]. }
  destruct (n_role n1); try exact H3. apply Hmono.
  destruct (N.leb_spec (c_heartbeat_tick (n_cfg n1)) (n_heartbeat_elapsed n1 + 1)) as [Hx|Hx].
  - replace (_ <=? _) with true by (symmetry; by apply N.leb_le). apply broadcast_within.
    split; [done|]. split; [split; [done|simpl; lia]|done].
  - replace (_ <=? _) with false by (symmetry; by apply N.leb_gt).
    split; [done|]. split; [split; [done|simpl; lia]|done].
Qed.

Lemma propose_within data n : within t i c k n → within t (i + 1) c k (propose data n).1.
Proof.
  intros Hn. unfold propose. destruct (decide _) as [_|_]; [apply (within_mono t i c k); [lia..|done]|].
  pose proof (append_local_within t i c k (Normal data) n Hn) as Ha. by destruct (append_local _ _).
Qed.

Lemma read_index_within r n : within t i c k n → within t i (c + 1) k (read_index r n).1.
Proof.
  intros Hn. apply (within_mono _ _ _ _ t i (c + 1) k) in Hn as Hn'; [|lia..]. unfold read_index.
  destruct (decide _) as [_|_]; [done|]. destruct (decide _) as [_|_]; [done|]. cbv zeta. cbn [fst].
  set (n1 := set_pending_reads _ _).
  assert (within t i (c + 1) k n1) as H1.
  { destruct Hn' as ((? & ? & Hcm & ? & _ & ?) & ? & Hr & ?). destruct Hn as ((_ & _ & _ & _ & Hc & _) & _).
    split; [unfold counters_within; split_and!; try done; simpl; lia|]. split; [done|]. split; [|done]. simpl.
    apply Forall_app. split; [done|]. apply Forall_singleton. simpl. lia. }
  destruct (decide _); [by apply release_reads_within|by apply broadcast_within].
Qed.
End local.

(** ** Messages *)

(** Requests that are accepted make a log no longer than they reach. *)
Lemma find_new_last l cm j es l' ta t :
  RL.contiguous l → consecutive (j + 1) es → RL.term l j = Some t → find_new l cm es = Some (l', ta) →
  RL.last_index (foldl RL.push l' ta) ≤ N.max (RL.last_index l) (j + N.of_nat (length es)).
Proof.
  intros Hc Hes Ht Hfn. apply term_bounds in Ht as Hb.
  destruct (find_new_spec _ _ (j + 1) _ _ _ Hc Hes ltac:(lia) ltac:(lia) Hfn)
    as (x & Hx & -> & _ & [[-> ->]|(Hx' & Hle & _ & ->)]); rewrite last_index_foldl_push, length_drop; [lia|].
  unfold RL.last_index at 1. simpl. rewrite length_take. unfold RL.pos, RL.last_index in *. lia.
Qed.

Lemma conflict_walk_le l t fuel x : conflict_walk l t fuel x ≤ x.
Proof.
  revert x. induction fuel as [|fuel IH]; intros x; simpl; [done|].
  destruct (_ && _); [|done]. specialize (IH (x - 1)). lia.
Qed.

Section messages.
  Context (t i c k : N).
  Implicit Types n : RaftNode.
  Abbreviation ok := (within t i c k).
  Abbreviation further := (within (t + 1) (i + 1) c k).

Lemma send_within dst body n :
  ok n → (∀ m, m_term m = node_term n → m_body m = body → msg_within t i c m) → ok (send dst body n).
Proof. intros Hn Hb. apply push_msg_within; [done|by apply Hb]. Qed.

Lemma handle_pre_vote_within from t' lli llt n : ok n → t' ≤ t + 1 → ok (handle_pre_vote from t' lli llt n).
Proof.
  intros Hn Ht. apply push_msg_within; [done|]. unfold msg_within. simpl. destruct (_ && _); [done|apply Hn].
Qed.

Lemma handle_pre_vote_resp_within from t' (g : bool) n :
  ok n → (t' ≤ if g then t + 1 else t) → further (handle_pre_vote_resp from t' g n).
Proof.
  intros Hn Ht. unfold handle_pre_vote_resp. destruct g; simpl.
  - destruct (negb _); [by apply within_further|]. destruct (_ <=? _)%nat; [by apply campaign_within|by apply within_further].
  - destruct (_ <? _); apply within_further; [by apply become_follower_within|done].
Qed.

Lemma set_vote_within v n : ok n → ok (set_vote v n).
Proof. intros Hn. unfold set_vote. destruct (decide _); [done|]. exact Hn. Qed.

Lemma handle_request_vote_within from lli llt n : ok n → ok (handle_request_vote from lli llt n).
Proof.
  intros Hn. unfold handle_request_vote. cbv zeta. set (g := _ && _). set (n1 := if g then _ else n).
  assert (ok n1) as H1.
  { unfold n1. destruct g; [|done]. apply (set_vote_within (Some from)) in Hn as (? & [_ ?] & ? & ? & ?).
    by apply reset_timer_within. }
  apply send_within; [done|]. intros m Hm Hb. unfold msg_within. rewrite Hb, Hm. apply H1.
Qed.

Lemma handle_request_vote_resp_within from g n : ok n → further (handle_request_vote_resp from g n).
Proof.
  intros Hn. unfold handle_request_vote_resp. destruct (decide _); [by apply within_further|]. cbv zeta.
  destruct (_ <=? _)%nat; [|by apply within_further]. apply (within_mono t (i + 1) c k); [lia..|].
  by apply become_leader_within.
Qed.

Lemma reply_append_within dst ok' mi ci ctx n :
  ok n → mi ≤ i → ci ≤ i + 1 → ctx ≤ c → ok (reply_append dst ok' mi ci ctx n).
Proof.
  intros Hn ? ? ?. apply send_within; [done|]. intros m Hm Hb. unfold msg_within. rewrite Hb, Hm.
  split_and!; [apply Hn|done..].
Qed.

Lemma handle_append_entries_within from pi pt es lc ctx n n' :
  RL.contiguous (n_log n) → consecutive (pi + 1) es → ok n → pi + N.of_nat (length es) ≤ i → lc ≤ i → ctx ≤ c →
  handle_append_entries from pi pt es lc ctx n = Some n' → ok n'.
Proof.
  intros Hcont Hcons Hn Hes Hlc Hctx. unfold handle_append_entries. fold (heard_from from n). cbv zeta.
  assert (ok (heard_from from n)) as H0.
  { destruct Hn as (? & [_ ?] & ?). split; [done|]. split; [split; [simpl; lia|done]|done]. }
  pose proof Hn as ((_ & Hl & Hcm & _) & _).
  change (n_log (heard_from from n)) with (n_log n). change (n_commit (heard_from from n)) with (n_commit n).
  fold (rebase (n_log n) pi pt es). destruct (rebase (n_log n) pi pt es) as [[j tj] es'] eqn:Hrb.
  pose proof (rebase_wf _ _ _ _ _ _ _ Hrb Hcons) as Hcons'.
  destruct (_ && _) eqn:Hcov.
  { intros [= <-]. apply reply_append_within; [done| |lia|done]. unfold RL.last_index in Hl. lia. }
  assert (j + N.of_nat (length es') ≤ i) as Hj.
  { unfold rebase in Hrb. destruct (N.ltb_spec pi (snap_index (n_log n))); injection Hrb as <- <- <-; [|done].
    apply andb_false_iff in Hcov as [?|Hcov%Nat.leb_gt]; [lia|]. rewrite length_drop. lia. }
  destruct (RL.term (n_log n) j) as [t'|] eqn:Ht; [|intros [= <-]; apply reply_append_within; (done || lia)].
  destruct (negb _).
  { intros [= <-]. apply reply_append_within; [done|lia| |done]. unfold conflict_hint.
    pose proof (conflict_walk_le (n_log n) t' (N.to_nat (j - RL.first_index (n_log n))) j). lia. }
  intros ([l' ta] & Hfn & [= <-])%bind_Some. apply reply_append_within; [|done|lia|done].
  pose proof (find_new_last _ _ _ _ _ _ _ Hcont Hcons' Ht Hfn) as Hlast. set (n1 := set_out _ _).
  assert (ok n1) as H1.
  { destruct H0 as ((? & _ & ?) & ?). split; [|done]. split; [done|]. split; [simpl; lia|done]. }
  destruct (n_commit n <? _); [|done]. apply advance_commit_within; [done|lia].
Qed.

Lemma handle_append_resp_within from ok' mi ci ctx n :
  ok n → mi ≤ i → ctx ≤ c → ok (handle_append_resp from ok' mi ci ctx n).
Proof.
  intros Hn Hmi Hctx. pose proof Hn as ((_ & Hl & _ & _ & _ & Hk) & _ & _ & Hp & _). unfold handle_append_resp.
  destruct (decide _); [done|]. destruct (n_prs n !! from) as [pr|] eqn:Hpr; [|done]. cbv zeta.
  destruct (Hp _ _ Hpr) as (H1 & H2 & H3 & H4 & H5 & H6).
  destruct ok'; [|destruct (0 <? ci)].
  - set (n1 := process_read_acks _).
    assert (ok n1) as Hn1.
    { apply process_read_acks_within, maybe_advance_within, put_progress_within; [done|].
      unfold progress_within. destruct (_ <? _); simpl; lia. }
    destruct (from_option _ _ _); [by apply send_append_within|done].
  - apply send_append_within, put_progress_within; [done|]. unfold progress_within. simpl. lia.
  - apply put_progress_within; [done|]. unfold progress_within. simpl. lia.
Qed.

Lemma handle_install_snapshot_within from s n :
  ok n → s_last_index s ≤ i → ok (handle_install_snapshot from s n).
Proof.
  intros Hn Hs. unfold handle_install_snapshot. fold (heard_from from n). cbv zeta.
  assert (ok (heard_from from n)) as H0.
  { destruct Hn as (? & [_ ?] & ?). split; [done|]. split; [split; [simpl; lia|done]|done]. }
  assert (∀ x n', ok n' → x ≤ i → ok (send from (InstallSnapshotResp x) n')) as Hsend.
  { intros x n' Hn' Hx. apply send_within; [done|]. intros m Hm Hb. unfold msg_within. rewrite Hb, Hm. split; [apply Hn'|done]. }
  destruct (_ <=? _); [apply Hsend; [done|apply H0]|].
  destruct (bool_decide _); [by apply Hsend, Hs; apply advance_commit_within|].
  apply Hsend; [|done]. destruct H0 as ((? & _ & _ & _ & ?) & ?). split; [|done].
  split; [done|]. split; [unfold RL.last_index; simpl; lia|]. split; [done|]. by split.
Qed.

Lemma handle_install_snapshot_resp_within from li n : ok n → li ≤ i → ok (handle_install_snapshot_resp from li n).
Proof.
  intros Hn Hli. pose proof Hn as ((_ & Hl & _ & _ & _ & Hk) & _ & _ & Hp & _). unfold handle_install_snapshot_resp.
  destruct (decide _); [done|]. destruct (n_prs n !! from) as [pr|] eqn:Hpr; [|done]. cbv zeta.
  destruct (Hp _ _ Hpr) as (H1 & H2 & H3 & H4 & H5 & H6).
  apply send_append_within, maybe_advance_within, put_progress_within; [done|].
  unfold progress_within. destruct (_ <? _); simpl; lia.
Qed.

Lemma answer_stale_within m n : ok n → msg_within t i c m → ok (answer_stale m n).
Proof.
  intros Hn Hm. unfold answer_stale, msg_within in *. destruct (m_body m); try done.
  - apply send_within; [done|]. intros m' Hm' Hb. unfold msg_within. rewrite Hb, Hm'. apply Hn.
  - apply (reply_append_within _ false); [done|lia|lia|]. by destruct Hm as (_ & _ & _ & ?).
Qed.

Lemma dispatch_within m n n' :
  RL.contiguous (n_log n) → wf_msg m → ok n → msg_within t i c m → dispatch m n = Some n' → further n'.
Proof.
  intros Hc Hwf Hn Hm. unfold dispatch, msg_within, wf_msg in *. destruct (m_body m); intros Hd; simplify_eq.
  all: first [by apply handle_request_vote_resp_within|by apply handle_pre_vote_resp_within|apply within_further].
  - destruct Hm. by apply handle_pre_vote_within.
  - by apply handle_request_vote_within.
  - destruct Hm as (_ & ? & ? & ?). by eapply handle_append_entries_within.
  - destruct Hm as (_ & ? & ? & ?). by apply handle_append_resp_within.
  - destruct Hm. by apply handle_install_snapshot_within.
  - destruct Hm. by apply handle_install_snapshot_resp_within.
Qed.

(** One delivery raises the bounds by at most one. *)
Lemma step_within m n n' :
  RL.contiguous (n_log n) → wf_msg m → ok n → msg_within t i c m → step m n = Some n' → further n'.
Proof.
  intros Hc Hwf Hn Hm Hs.
  assert (m_term m ≤ t → ok (become_follower (m_term m) (announced_leader m) n)) as Hf by by apply become_follower_within.
  assert (RL.contiguous (n_log (become_follower (m_term m) (announced_leader m) n))) as Hcf.
  { by destruct (become_follower_eq (m_term m) (announced_leader m) n) as (? & ? & ? & ? & -> & _). }
  pose proof (dispatch_within m n n' Hc Hwf Hn Hm) as Hd.
  pose proof (λ H, dispatch_within m _ n' Hcf Hwf (Hf H) Hm) as Hd'.
  pose proof (answer_stale_within m n Hn Hm) as Ha. unfold step in Hs. unfold msg_within in Hm.
  assert (dispatch m n = Some n' ∨ m_term m ≤ t ∧ (if node_term n <? m_term m
    then dispatch m (become_follower (m_term m) (announced_leader m) n)
    else if m_term m <? node_term n then Some (answer_stale m n) else dispatch m n) = Some n') as [?|[Ht Hx]].
  { destruct (m_body m); try (by left); right; (split; [lia|done]). }
  { by apply Hd. }
  destruct (_ <? m_term m); [by apply Hd'|]. destruct (_ <? node_term n); [|by apply Hd].
  injection Hx as <-. by apply within_further.
Qed.
End messages.

(** ** The cluster *)

Lemma compact_within t i c k a data n : within t i c k n → within t i c k (node_compact a data n).1.
Proof.
  intros Hn. unfold node_compact. destruct (_ || _) eqn:Hg; [done|]. apply orb_false_iff in Hg as [_ Ha%N.ltb_ge].
  destruct (RL.term (n_log n) a) as [ta|] eqn:Ht; [|done]. apply term_bounds in Ht. cbv zeta. cbn [fst].
  destruct Hn as ((? & Hl & Hcm & _ & ?) & ?). split; [|done]. split; [done|]. split.
  - simpl. by rewrite last_index_compact.
  - split; [done|]. split; [simpl; lia|done].
Qed.

Lemma settled_within t i c k n : within t i c k n → within t i c k (take_output n).1.
Proof. intros (Hc & Ht & Hr & Hp & _). split_and!; [done..|]. constructor. Qed.

Lemma restarted_within t i c k cfg V0 n :
  RL.last_index (n_log (node_new cfg V0 (disk_of n))) ≤ i → within t i c k n →
  within t i c k (node_new cfg V0 (disk_of n)).
Proof.
  intros Hl ((Ht & _ & _ & Hs & _) & _).
  assert (counters_within t i c k (node_new cfg V0 (disk_of n))) as Hc.
  { destruct (node_new_durable cfg V0 (disk_of n)) as (Hd & _ & _ & Hcm).
    pose proof (f_equal p_hard_state Hd) as Hh. pose proof (f_equal p_snapshot Hd) as Hsn. simpl in *.
    split_and!; [by unfold node_term in *; rewrite Hh|done|by rewrite Hcm|by rewrite Hsn|..];
      unfold node_new; destruct (p_snapshot _); simpl; lia. }
  revert Hc. unfold node_new. destruct (match p_snapshot _ with Some _ => _ | None => _ end) as [[[si st] vb] sn].
  cbv zeta. set (n0 := mkNode _ _ _ _ _ _ _ _ _ _ _ _ _ _ _ _ _ _).
  destruct (reset_timer_eq n0) as (T & R & ->). intros Hc. split; [done|].
  split; [split; simpl; lia|]. split_and!; [constructor|apply map_Forall_empty|constructor].
Qed.

Section cluster.
  Context (V0 : list NodeId) (Hnd : NoDup V0).

Record cluster_within (b : N) (c : Cluster) : Prop := {
  cw_nodes : ∀ id n, cl_nodes c !! id = Some n → within b b b b n;
  cw_sent : Forall (msg_within b b b) (cl_sent c);
}.

Lemma settle_within b c id n :
  cluster_within b c → within (b + 1) (b + 1) (b + 1) (b + 1) n → cluster_within (b + 1) (settle id n c).
Proof.
  intros [Hn Hs] H1. split.
  - intros u nu. simpl. rewrite lookup_insert_Some. intros [[_ <-]|[_ Hu]]; [by apply settled_within|].
    eapply within_mono; [..|by eapply Hn]; lia.
  - simpl. apply Forall_app. split; [|apply H1]. eapply Forall_impl; [exact Hs|]. intros m. apply msg_within_mono; lia.
Qed.

Lemma local_within b c id n :
  cluster_within b c → within b b b b n → cluster_within (b + 1) (mkCluster (<[id := n]> (cl_nodes c)) (cl_sent c)).
Proof.
  intros [Hn Hs] H1. split.
  - intros u nu. simpl. rewrite lookup_insert_Some.
    intros [[_ <-]|[_ Hu%Hn]]; (eapply within_mono; [..|done]); lia.
  - eapply Forall_impl; [exact Hs|]. intros m. apply msg_within_mono; lia.
Qed.

(** One step of the cluster raises the bounds by at most one. *)
Lemma cluster_step_within b c h F c' :
  cluster_inv V0 c h F → cluster_within b c → cluster_step V0 c c' → cluster_within (b + 1) c'.
Proof.
  intros Hinv Hb Hstep. pose proof Hb as [Hn Hs].
  destruct Hstep as [id n Hid|id n data Hid|id n r Hid|m n n' Hm Hid Hst|id n a data Hid|cfg n Hid];
    pose proof (Hn _ _ Hid) as Hw.
  - apply settle_within; [done|]. eapply within_mono; [..|by apply tick_within]; lia.
  - apply settle_within; [done|]. eapply within_mono; [..|by apply propose_within]; lia.
  - apply settle_within; [done|]. eapply within_mono; [..|by apply read_index_within]; lia.
  - apply settle_within; [done|]. pose proof (ci_node _ _ _ _ _ _ Hinv Hid) as Hni.
    rewrite Forall_forall in Hs. destruct Hinv as [[Hok _ HS] _].
    eapply within_mono; [..|eapply step_within; [| |exact Hw|by apply Hs|exact Hst]]; [lia..| |].
    + by apply (node_inv_ok _ _ _ _ _ _ _ Hni).
    + eapply msg_inv_wf; [exact Hok|by apply HS].
  - apply local_within; [done|]. by apply compact_within.
  - apply local_within; [done|]. apply restarted_within; [|done]. pose proof (ci_node _ _ _ _ _ _ Hinv Hid) as Hni.
    pose proof (restart_core V0 _ _ cfg _ _ _ _ Hni) as Hc. apply (f_equal k_log) in Hc. simpl in Hc.
    rewrite Hc. apply Hw.
Qed.

Lemma cluster_run_within k b c h F c' :
  cluster_inv V0 c h F → cluster_within b c → nsteps (cluster_step V0) k c c' →
  cluster_within (b + N.of_nat k) c' ∧ ∃ h' F', cluster_inv V0 c' h' F'.
Proof.
  intros Hinv Hb Hr. revert b h F Hinv Hb. induction Hr as [c|k c c1 c2 Hs _ IH]; intros b h F Hinv Hb.
  { rewrite N.add_0_r. eauto. }
  destruct (cluster_step_inv V0 Hnd _ _ _ _ Hinv Hs) as (h1 & F1 & _ & Hinv1).
  destruct (IH (b + 1) _ _ Hinv1) as [Hw Hi]; [eapply cluster_step_within; [exact Hinv|exact Hb|exact Hs]|].
  split; [|done]. by replace (b + N.of_nat (S k)) with (b + 1 + N.of_nat k) by lia.
Qed.

Lemma fresh_cluster_within c : fresh_cluster V0 c → cluster_within 0 c.
Proof.
  intros [Hs Hn]. split; [|by rewrite Hs]. intros id n Hid. destruct (Hn _ _ Hid) as (cfg & _ & ->).
  unfold node_new. simpl. set (n0 := mkNode _ _ _ _ _ _ _ _ _ _ _ _ _ _ _ _ _ _).
  destruct (reset_timer_eq n0) as (T & R & ->). split; [by split_and!|].
  split; [split; simpl; lia|]. split_and!; [constructor|apply map_Forall_empty|constructor].
Qed.

(** C29: no number of the raft core overflows. After [k] steps of a cluster, with
    any schedule, losses, duplicates, reorderings and restarts, the term of every
    node, log entry and message, every log, commit and snapshot index, read context
    and tick of every node, and every index and read context of every message ever
    sent are at most [k]; what the code computes ahead of them (the next index of a
    peer, a conflict hint, the term of a pre-vote) is at most [k + 1]; the window of
    a peer is at most its cap, and the timers are within their limits. A cluster
    would have to take 2^64 - 1 steps before an addition of the code could wrap
    around. *)
Theorem raft_numbers_bounded k c0 c :
  fresh_cluster V0 c0 → nsteps (cluster_step V0) k c0 c →
  cluster_within (N.of_nat k) c
  ∧ ∀ id n e, cl_nodes c !! id = Some n → e ∈ entries (n_log n) → e_term e ≤ N.of_nat k ∧ e_index e ≤ N.of_nat k.
Proof.
  intros Hf Hr.
  destruct (cluster_run_within k 0 c0 _ _ c (fresh_cluster_inv _ _ Hf) (fresh_cluster_within _ Hf) Hr) as (Hw & h & F & Hinv).
  split; [done|]. intros id n e Hid He. destruct (cw_nodes _ _ Hw _ _ Hid) as ((Ht & Hl & _) & _).
  pose proof (ci_node _ _ _ _ _ _ Hinv Hid) as Hni. pose proof (node_inv_ok _ _ _ _ _ _ _ Hni) as [Hc _ _].
  destruct Hni as [_ [Hrep _ Hterms _ _] _ _ _]. destruct Hrep as (_ & Hes & _). simpl in *. split.
  - etrans; [apply Hterms|exact Ht]. rewrite Hes in He. by eapply subseteq_drop.
  - apply (elem_of_get _ _ Hc) in He.
    assert (RL.get (n_log n) (e_index e) ≠ None) as Hne by congruence. rewrite get_None in Hne. lia.
Qed.
End cluster.

(** Node 1 of a cluster of three is elected and commits an entry. *)
Lemma raft_numbers_bounded_witness :
  node_term (demo_node demo_mid 1) = 1
  ∧ ∃ k, nsteps (cluster_step demo_voters) k demo_start demo_mid ∧ cluster_within (N.of_nat k) demo_mid.
Proof.
  split; [vm_compute; reflexivity|]. destruct (proj1 (rtc_nsteps _ _) demo_reaches_mid) as [k Hk].
  exists k. split; [exact Hk|]. exact (proj1 (raft_numbers_bounded demo_voters demo_nodup k _ _ demo_fresh Hk)).
Defined.
