(* ===== verification/Replica.v ===== *)
(** * Replicas of the state machine

    The state machine after a committed log, snapshots as images of it, and what
    one operation of a raft node hands to its host: the entries that continue
    the committed log, or a snapshot of it. Hosts use this to keep their state
    machine equal to the committed log. *)

From S2P Require Import Prelude Order Codec RaftTypes RaftLog RaftLogFacts.
From S2P Require Import RaftNode RaftNodeFacts RaftNodeInv RaftProps RaftHistory.
From S2P Require Import RaftProtocol ProtocolSafety RaftRefine NodeSafety Kvsm SimCluster Durability.
Local Open Scope N_scope.

(** ** Replicated state machines *)

Section state_machines.
  Context `{Bincode Command} `{BincodeLaws SnapshotPayload}.

Definition entry_cmd (e : Entry) : option Command :=
  match e_payload e with Normal d => cmd_decode d | _ => None end.

(** The state machine after the entries [P]. *)
Definition sm_after (P : list Entry) : StateMachine MemBackend :=
  (apply_log (omap entry_cmd P) new_sm).1.

(** What proposers put in the log decodes. *)
Definition payload_ok (p : EntryPayload) : Prop :=
  match p with
  | Noop => True
  | Normal d => is_Some (cmd_decode d)
  | ConfChangeP _ => False
  end.

(** [data] is the snapshot of the state machine after [P]. *)
Definition image_of (P : list Entry) (data : bytes) : Prop := data = sm_snapshot (sm_after P).

Lemma payload_static p : payload_ok p → is_conf p = false.
Proof. by destruct p. Qed.

Lemma apply_log_app (l1 l2 : list Command) (sm : StateMachine MemBackend) :
  (apply_log (l1 ++ l2) sm).1 = (apply_log l2 (apply_log l1 sm).1).1.
Proof.
  revert sm. induction l1 as [|c l1 IH]; intros sm; simpl; [done|].
  destruct (apply c sm) as [sm1 r]. specialize (IH sm1).
  destruct (apply_log (l1 ++ l2) sm1) as [sm2 rs], (apply_log l1 sm1) as [sm3 rs3]. done.
Qed.

Lemma sm_after_snoc P e :
  sm_after (P ++ [e]) =
  match entry_cmd e with Some c => (apply c (sm_after P)).1 | None => sm_after P end.
Proof.
  unfold sm_after. rewrite omap_app. csimpl. destruct (entry_cmd e) as [c|].
  - rewrite apply_log_app. simpl. by destruct (apply c _).
  - by rewrite app_nil_r.
Qed.

Lemma restore_image P data sm : image_of P data → sm_restore data sm = Some (sm_after P).
Proof.
  intros ->. destruct (restore_snapshot_sim (sm_after P) sm (mem_ok _) (mem_ok _))
    as (sm' & -> & (_ & _ & Hm & Hs)). f_equal.
  destruct (sm_after P) as [[m1] s1], sm' as [[m2] s2]. simpl in *. by subst.
Qed.
End state_machines.

(** ** Outputs of a node *)

Section outputs.
  Context `{Bincode Command} `{BincodeLaws SnapshotPayload} (V0 : list NodeId) (Hnd : NoDup V0).
  Context (pok : EntryPayload → Prop).

(** What one operation of a node hands to its host. *)
Lemma delivered_loaded h h' id c L L' r r' op :
  history_ok V0 pok h' → extends h h' →
  node_inv V0 pok image_of h id c L → core r = c →
  node_inv V0 pok image_of h' id (core r') L' → n_out r = default_out →
  run_op op r = Some r' → batched op = true → wf_op op →
  store_output (n_out r') (disk_of r) = disk_of r'
  ∧ match o_snapshot (n_out r') with
    | Some s => o_committed (n_out r') = [] ∧ s_last_index s = n_commit r'
        ∧ image_of (upto (n_commit r') L') (s_data s)
    | None => upto (k_commit c) L' = upto (k_commit c) L
        ∧ k_commit c ≤ n_commit r'
        ∧ upto (n_commit r') L' = upto (k_commit c) L' ++ o_committed (n_out r')
    end.
Proof.
  intros Hok' Hext Hn <- Hn' Ho Hrun Hb Hwf.
  pose proof (node_inv_ok _ _ _ _ _ _ _ Hn) as Hnok.
  pose proof (run_op_durable _ _ _ Hnok Ho Hwf Hb Hrun) as Hdisk. split; [done|].
  destruct (run_op_guarantee op r r') as [_ _ _ _ _ Hmono _ _ Hd]; [by destruct op|done..|].
  pose proof Hn as [_ _ _ (_ & Hlen & _) _]. pose proof Hn' as [_ _ _ _ [_ Hsn]].
  unfold delivers in Hd. rewrite Ho in Hd. simpl in Hd, Hlen, Hsn.
  destruct Hd as [(es & Hc & Hs & Hcons & Hcm & Hget)|(s & Hs & Hl & Hlt & Hc)]; rewrite Hs.
  - pose proof (delivered_log V0 _ _ Hnd _ _ _ _ _ _ _ _ Hok' Hext Hn Hn' Hcons Hcm Hget)
      as Hup. simpl in *.
    assert (upto (n_commit r) L' = upto (n_commit r) L) as Heq.
    { apply (f_equal (take (N.to_nat (n_commit r)))) in Hup.
      rewrite take_take, take_app_le, take_take in Hup by (rewrite length_take; lia).
      by rewrite !Nat.min_l in Hup by lia. }
    by rewrite Heq, Hc.
  - split_and!; [done|done|]. apply (f_equal p_snapshot) in Hdisk. unfold store_output in Hdisk.
    rewrite Hs in Hdisk. simpl in Hdisk. rewrite <-Hdisk in Hsn. destruct Hsn as (Hi & _ & _ & Him).
    by rewrite <-Hl, Hi.
Qed.

(** An operation without a snapshot adds the next entries to those collected. *)
Lemma delivered_step h h' id L L' r r' op :
  history_ok V0 pok h' → extends h h' →
  node_inv V0 pok image_of h id (core r) L → node_inv V0 pok image_of h' id (core r') L' →
  run_op op r = Some r' → batched op = true → wf_op op → o_snapshot (n_out r') = None →
  o_snapshot (n_out r) = None ∧ ∃ es, o_committed (n_out r') = o_committed (n_out r) ++ es
    ∧ upto (n_commit r') L' = upto (n_commit r) L ++ es.
Proof.
  intros Hok' Hext Hn Hn' Hrun Hb Hwf Hns. pose proof (node_inv_ok _ _ _ _ _ _ _ Hn) as Hnok.
  destruct (run_op_guarantee op r r') as [_ _ _ _ _ _ _ _ Hd]; [by destruct op|done..|].
  destruct Hd as [(es & Hc & Hs & Hcons & Hcm & Hget)|(s & Hs & _)]; [|congruence].
  split; [congruence|]. exists es. split; [done|].
  by apply (delivered_log V0 _ _ Hnd _ _ _ _ _ _ _ _ Hok' Hext Hn Hn' Hcons Hcm Hget).
Qed.
End outputs.
