(* ===== verification/ServerReplica.v ===== *)
(** * What a server answers

    The state machine of a server follows the committed log: applying a batch of
    crates/server/src/core.rs extends the log it has applied, and every answer it
    gives is explained by that log. A write is answered with the result of its
    command at the command's place in the log; a read with the contents after a
    prefix of the log that reaches the index the read was given. *)

From S2P Require Import Prelude Order Codec RaftTypes RaftLog RaftLogFacts RaftNode Kvsm SimCluster LogStore Proto.
From S2P Require Import Server ServerRequests ServerDurable Replica.
Local Open Scope N_scope.

Section replica.
  Context {B : Type} {bk : Backend B} {bl : BackendLaws B}.
  Context {cc : Bincode Command} {cp : Bincode SnapshotPayload} {lp : BincodeLaws SnapshotPayload}.
  Implicit Types (c : Core B) (P es : list RaftTypes.Entry).
  Local Open Scope act_scope.

(** The state machine has applied exactly [P]. *)
Definition replica (P : list RaftTypes.Entry) (c : Core B) : Prop :=
  sm_sim (co_sm c) (sm_after P) ∧ co_applied c = N.of_nat (length P).

(** The answer to a read after [P]. *)
Definition read_of (req : ReadReq) (P : list RaftTypes.Entry) : Response :=
  match req with
  | ReadGet key => RespValue (sm_read key (sm_after P))
  | ReadScan start end_ limit => RespKvs (sm_read_range start end_ (N.to_nat limit) (sm_after P))
  end.

(** Backends promise nothing of a scan for no rows. *)
Definition proper_read (req : ReadReq) : Prop :=
  match req with ReadGet _ => True | ReadScan _ _ limit => 0 < limit end.

Lemma serve_read_of req P c : replica P c → proper_read req → serve_read req c = read_of req P.
Proof.
  intros [(Hok1 & Hok2 & Hm & _) _] Hreq. unfold serve_read, read_of. destruct req as [key|start end_ limit]; f_equal.
  - unfold sm_read. by rewrite !b_get_map, Hm.
  - unfold sm_read_range. simpl in Hreq. by rewrite !b_scan_map, Hm by (done || lia).
Qed.

(** ** Applying entries *)

(** The answer to the write that waits for [cmd]. *)
Definition write_answers (W : gmap (N * N) PendingWrite) (P : list RaftTypes.Entry) (e : RaftTypes.Entry)
    : list action :=
  match entry_cmd e with
  | Some cmd =>
    match W !! (cmd_session_id cmd, cmd_seq cmd) with
    | Some w => [Reply (pw_tx w) (op_result_response (Kvsm.apply cmd (sm_after P)).2)]
    | None => []
    end
  | None => []
  end.

Definition unwait (W : gmap (N * N) PendingWrite) (e : RaftTypes.Entry) : gmap (N * N) PendingWrite :=
  match entry_cmd e with
  | Some cmd => base.delete (cmd_session_id cmd, cmd_seq cmd) W
  | None => W
  end.

(** What applying leaves alone. *)
Record same_reads (c c' : Core B) : Prop := {
  sr_pending : co_pending_reads c' = co_pending_reads c;
  sr_ready : co_ready_reads c' = co_ready_reads c;
  sr_raft : co_raft c' = co_raft c;
  sr_peers : co_peer_tx c' = co_peer_tx c;
}.

#[global] Instance same_reads_preorder : PreOrder same_reads.
Proof. split; [done|]. intros c1 c2 c3 [] []. split; congruence. Qed.

Lemma apply_entry_replica P e c :
  replica P c → e_index e = N.of_nat (length P) + 1 → payload_ok (e_payload e) →
  ∃ c', apply_entry e c = (Some c', write_answers (co_pending_writes c) P e)
    ∧ replica (P ++ [e]) c' ∧ co_pending_writes c' = unwait (co_pending_writes c) e ∧ same_reads c c'.
Proof.
  intros [Hsm Ha] Hi Hpok. unfold apply_entry, write_answers, unwait, replica.
  rewrite sm_after_snoc, length_app. unfold entry_cmd, payload_ok in *.
  destruct (e_payload e) as [|data|]; [|destruct Hpok as [cmd Hcmd]; rewrite Hcmd|done].
  { eexists. split; [done|]. split; [|done]. simpl. split; [done|lia]. }
  destruct (apply_sim cmd _ _ Hsm) as [Hs Hr]. unfold and_then, apply_command.
  destruct (Kvsm.apply cmd (co_sm c)) as [sm r]. simpl in Hs, Hr. subst r. simpl.
  destruct (co_pending_writes c !! _) as [w|] eqn:Hw; simpl; eexists; (split; [done|]); split_and!; simpl; try done;
    try lia. by rewrite delete_id.
Qed.

(** Every answer in [t] is that of a waiting write of one of [es]. *)
Definition writes_explained (W : gmap (N * N) PendingWrite) (P es : list RaftTypes.Entry) (t : list action) : Prop :=
  ∀ a, a ∈ t → ∃ k e cmd w, es !! k = Some e ∧ entry_cmd e = Some cmd
    ∧ W !! (cmd_session_id cmd, cmd_seq cmd) = Some w
    ∧ a = Reply (pw_tx w) (op_result_response (Kvsm.apply cmd (sm_after (P ++ take k es))).2).

Lemma unwait_sub W e : unwait W e ⊆ W.
Proof. unfold unwait. destruct (entry_cmd e); [apply delete_subseteq|done]. Qed.

Lemma apply_entries_replica P es c :
  replica P c → consecutive (N.of_nat (length P) + 1) es → Forall (λ e, payload_ok (e_payload e)) es →
  ∃ c' t, each apply_entry es c = (Some c', t) ∧ replica (P ++ es) c'
    ∧ writes_explained (co_pending_writes c) P es t ∧ co_pending_writes c' ⊆ co_pending_writes c ∧ same_reads c c'.
Proof.
  revert P c. induction es as [|e es IH]; intros P c Hrep Hcons Hpok.
  { exists c, []. rewrite app_nil_r. split_and!; [done..| |done|done]. by intros a ?%elem_of_nil. }
  apply consecutive_cons in Hcons as [Hi Hcons]. apply Forall_cons in Hpok as [Hp Hpok].
  destruct (apply_entry_replica P e c Hrep Hi Hp) as (c1 & H1 & Hrep1 & Hw1 & Hs1).
  destruct (IH (P ++ [e]) c1 Hrep1) as (c' & t & H2 & Hrep2 & Hex & Hsub & Hs2); [|done|].
  { rewrite length_app. simpl. by replace (N.of_nat (length P + 1) + 1) with (N.of_nat (length P) + 1 + 1) by lia. }
  pose proof (unwait_sub (co_pending_writes c) e) as Hun. rewrite <-Hw1 in Hun.
  exists c', (write_answers (co_pending_writes c) P e ++ t). rewrite <-app_assoc in Hrep2.
  split_and!; [|done| |by trans (co_pending_writes c1)|by trans c1].
  - simpl. unfold and_then. by rewrite H1, H2.
  - intros a [Ha|Ha]%elem_of_app.
    + unfold write_answers in Ha. destruct (entry_cmd e) as [cmd|] eqn:Hc; [|by apply elem_of_nil in Ha].
      destruct (co_pending_writes c !! _) as [w|] eqn:Hw; [|by apply elem_of_nil in Ha].
      apply list_elem_of_singleton in Ha as ->. exists 0%nat, e, cmd, w. by rewrite app_nil_r.
    + destruct (Hex a Ha) as (k & e' & cmd & w & Hk & Hc & Hw & ->). exists (S k), e', cmd, w. simpl.
      rewrite <-app_assoc. split_and!; try done. by eapply lookup_weaken.
Qed.

(** ** Batches *)

(** The output of a node whose host has applied [P]: a snapshot of [Q], if any,
    and the entries [es] that follow. *)
Record batch_of (P Q es : list RaftTypes.Entry) (out : Output) : Prop := {
  bo_committed : o_committed out = es;
  bo_base : match o_snapshot out with
            | Some s => image_of Q (s_data s) ∧ s_last_index s = N.of_nat (length Q)
            | None => Q = P
            end;
  bo_next : consecutive (N.of_nat (length Q) + 1) es;
  bo_payloads : Forall (λ e, payload_ok (e_payload e)) es;
}.

Lemma install_snapshot_replica P Q es out c :
  replica P c → batch_of P Q es out →
  ∃ c', install_snapshot (o_snapshot out) c = (Some c', []) ∧ replica Q c'
    ∧ co_pending_writes c' = co_pending_writes c ∧ same_reads c c'.
Proof.
  intros [Hsm Ha] [_ Hb _ _]. unfold install_snapshot. destruct (o_snapshot out) as [s|].
  - destruct Hb as [Him Hl]. rewrite Him.
    destruct (restore_snapshot_sim (sm_after Q) (co_sm c)) as (sm & -> & Hsim); [apply Hsm..|].
    eexists. split; [done|]. split_and!; try done. simpl.
    destruct Hsim as (? & ? & ? & ?). by split_and!.
  - subst Q. by exists c.
Qed.

Lemma apply_output_replica P Q es out c :
  replica P c → batch_of P Q es out →
  ∃ c' t, apply_output out c = (Some c', t) ∧ replica (Q ++ es) c'
    ∧ writes_explained (co_pending_writes c) Q es t ∧ co_pending_writes c' ⊆ co_pending_writes c ∧ same_reads c c'.
Proof.
  intros Hrep Hb. destruct (install_snapshot_replica _ _ _ _ _ Hrep Hb) as (c1 & H1 & Hrep1 & Hw & Hs1).
  destruct Hb as [<- _ Hn Hp]. destruct (apply_entries_replica Q (o_committed out) c1 Hrep1 Hn Hp)
    as (c' & t & H2 & Hrep2 & Hex & Hsub & Hs2).
  rewrite Hw in Hex, Hsub. exists c', t. split_and!; [|done|done|done|by trans c1].
  unfold apply_output, and_then. by rewrite H1, H2.
Qed.

(** ** Reads *)

Definition reads_explained (R : gmap N PendingRead) (ready : list (N * Index)) (P : list RaftTypes.Entry)
    (t : list action) : Prop :=
  ∀ a, a ∈ t → ∃ rid idx p r, (rid, idx) ∈ ready ∧ idx ≤ N.of_nat (length P) ∧ R !! rid = Some p
    ∧ a = Reply (rd_tx p) r ∧ (proper_read (rd_req p) → r = read_of (rd_req p) P).

Lemma serve_each_replica P l c c' t :
  replica P c → each serve_ready l c = (Some c', t) →
  replica P c' ∧ co_pending_writes c' = co_pending_writes c ∧ co_pending_reads c' ⊆ co_pending_reads c
  ∧ (∀ x, x ∈ co_ready_reads c' → x ∈ co_ready_reads c ++ l)
  ∧ reads_explained (co_pending_reads c) l P t.
Proof.
  revert c t. induction l as [|[rid idx] l IH]; intros c t Hrep; simpl.
  { intros [= <- <-]. rewrite app_nil_r. do 4 (split; [done|]). by intros a ?%elem_of_nil. }
  unfold and_then. destruct (serve_ready (rid, idx) c) as [[c1|] t1] eqn:H1; [|done].
  destruct (each serve_ready l c1) as [r t2] eqn:H2. intros [= -> <-].
  assert (replica P c1 ∧ co_pending_writes c1 = co_pending_writes c ∧ co_pending_reads c1 ⊆ co_pending_reads c
    ∧ (∀ x, x ∈ co_ready_reads c1 → x ∈ co_ready_reads c ++ [(rid, idx)])
    ∧ reads_explained (co_pending_reads c) [(rid, idx)] P t1) as (Hrep1 & Hw1 & Hp1 & Hr1 & Hex1).
  { unfold serve_ready in H1. simpl in H1. destruct (N.leb_spec idx (co_applied c)) as [Hle|Hgt].
    - destruct (co_pending_reads c !! rid) as [p|] eqn:Hp; injection H1 as <- <-; simpl.
      + split; [done|]. split; [done|]. split; [by apply delete_subseteq|].
        split; [intros x Hx; apply elem_of_app; by left|].
        intros a ->%list_elem_of_singleton. eexists rid, idx, p, _. destruct Hrep as [Hsm Ha].
        split_and!; [by apply list_elem_of_singleton|lia|done|done|]. intros Hpr.
        by apply (serve_read_of _ P (set_co_pending_reads _ c)).
      + do 3 (split; [done|]). split; [intros x Hx; apply elem_of_app; by left|by intros a ?%elem_of_nil].
    - injection H1 as <- <-. do 4 (split; [done|]). by intros a ?%elem_of_nil. }
  destruct (IH _ _ Hrep1 H2) as (Hrep2 & Hw2 & Hp2 & Hr2 & Hex2).
  split; [done|]. split; [congruence|]. split; [by trans (co_pending_reads c1)|]. split.
  - intros x [Hx%Hr1|Hx]%Hr2%elem_of_app; [|rewrite !elem_of_app, elem_of_cons; tauto].
    rewrite elem_of_app, list_elem_of_singleton in Hx. rewrite elem_of_app, elem_of_cons. tauto.
  - intros a [Ha|Ha]%elem_of_app.
    + destruct (Hex1 a Ha) as (rid' & idx' & p & r & Hin & ?). exists rid', idx', p, r.
      split; [by apply list_elem_of_singleton in Hin as ->; left|done].
    + destruct (Hex2 a Ha) as (rid' & idx' & p & r & Hin & Hle & Hp & ?). exists rid', idx', p, r.
      split; [by right|]. split; [done|]. split; [by eapply lookup_weaken|done].
Qed.

(** ** Events *)

(** Answers without contents: the client is sent elsewhere, told to try again, or
    refused; and status reports. *)
Definition refusal (r : Response) : Prop :=
  match r with RespNotLeader _ | RespRetry _ | RespErr _ | RespStatus _ _ _ _ _ _ _ _ => True | _ => False end.

(** The write and the read that a request asks for. *)
Definition write_key (req : Request) : option (N * N) :=
  match req with ReqPut s q _ _ | ReqDelete s q _ | ReqCas s q _ _ _ => Some (s, q) | _ => None end.
Definition read_req (req : Request) : option ReadReq :=
  match req with
  | ReqGet key _ => Some (ReadGet key)
  | ReqScan start end_ limit _ => Some (ReadScan start end_ limit)
  | _ => None
  end.

(** What the answer to [req] may be while the server has applied [P]. *)
Definition immediate (req : Request) (P : list RaftTypes.Entry) (r : Response) : Prop :=
  refusal r ∨ ∃ rr, read_req req = Some rr ∧ (proper_read rr → r = read_of rr P).

(** The requests that wait after some events waited before, or are of them. *)
Record event_waits (P : list RaftTypes.Entry) (evs : list Event) (c c1 : Core B) (t : list action) : Prop := {
  ew_answers : ∀ tx r, Reply tx r ∈ t → ∃ req, EvClient req tx ∈ evs ∧ immediate req P r;
  ew_writes : ∀ k w, co_pending_writes c1 !! k = Some w →
    co_pending_writes c !! k = Some w ∨ ∃ req, EvClient req (pw_tx w) ∈ evs ∧ write_key req = Some k;
  ew_reads : ∀ rid p, co_pending_reads c1 !! rid = Some p →
    co_pending_reads c !! rid = Some p
    ∨ ∃ req, EvClient req (rd_tx p) ∈ evs ∧ read_req req = Some (rd_req p);
  ew_peers : co_peer_tx c1 = co_peer_tx c;
  ew_ready : ∀ x, x ∈ co_ready_reads c1 → x ∈ co_ready_reads c;
}.

Lemma waits_reply P req tx r c c1 :
  immediate req P r → co_pending_writes c1 = co_pending_writes c → co_pending_reads c1 = co_pending_reads c →
  co_peer_tx c1 = co_peer_tx c → co_ready_reads c1 = co_ready_reads c →
  event_waits P [EvClient req tx] c c1 [Reply tx r].
Proof.
  intros Hi Hw Hr Hp Hrd. split; [|rewrite Hw; auto|rewrite Hr; auto|done|by rewrite Hrd].
  intros tx' r' [= -> ->]%list_elem_of_singleton. exists req. split; [by left|done].
Qed.

Lemma propose_write_waits P req s q op tx c c1 t :
  write_key req = Some (s, q) → propose_write s q op tx c = (Some c1, t) →
  event_waits P [EvClient req tx] c c1 t.
Proof.
  intros Hk. unfold propose_write. destruct (s =? 0).
  { intros [= <- <-]. apply waits_reply; try done. by left. }
  destruct (propose _ _) as [raft [i|e]]; simpl.
  - intros [= <- <-]. split; simpl; [|..|done|done].
    + intros tx' r. by destruct (_ !! _); [intros ?%list_elem_of_singleton|intros ?%elem_of_nil].
    + intros k w [[<- <-]|[_ Hw]]%lookup_insert_Some; [right|by left]. simpl. exists req. split; [by left|done].
    + auto.
  - destruct e; simpl; intros [= <- <-]; apply waits_reply; try done; by left.
Qed.

Lemma handle_read_waits P req rr con tx c c1 t :
  replica P c → read_req req = Some rr → handle_read rr con tx c = (Some c1, t) →
  event_waits P [EvClient req tx] c c1 t.
Proof.
  intros Hrep Hk. assert (immediate req P (serve_read rr c)) as Hloc.
  { right. exists rr. split; [done|]. by apply serve_read_of. }
  unfold handle_read. destruct con; simpl.
  - destruct (read_index _ _) as [raft [[]|e]]; simpl.
    + intros [= <- <-]. split; simpl; [|..|done|done].
      * intros tx' r. by destruct (_ !! _); [intros ?%list_elem_of_singleton|intros ?%elem_of_nil].
      * auto.
      * intros k w [[<- <-]|[_ Hw]]%lookup_insert_Some; [right|by left]. simpl. exists req. split; [by left|done].
    + destruct e; simpl; intros [= <- <-]; apply waits_reply; try done; by left.
  - destruct (negb _); [|destruct (lease_valid _)]; intros [= <- <-]; apply waits_reply; try done; by left.
  - intros [= <- <-]. by apply waits_reply.
Qed.

Lemma handle_event_waits P ev c c1 t :
  replica P c → handle_event ev c = (Some c1, t) → event_waits P [ev] c c1 t.
Proof.
  intros Hrep. destruct ev as [|m|req tx]; simpl.
  - unfold and_then, sweep_timeouts, stamp_gauges. simpl. set (c0 := set_co_raft _ _). set (l := (map_to_list _).*2).
    destruct (count_retries l c0) as (Hw & Hr & Hrd & _ & _ & _ & _ & _ & Hpe). intros [= <- <-]. rewrite app_nil_r.
    split; simpl.
    + intros tx r. rewrite elem_of_app, !list_elem_of_fmap. by intros [(? & ? & _)|(? & ? & _)].
    + intros k w [Hk _]%map_lookup_filter_Some. by left.
    + intros k p [Hk _]%map_lookup_filter_Some. by left.
    + done.
    + rewrite Hrd. by intros x [_ Hx]%list_elem_of_filter.
  - destruct (step m _) as [raft|]; [|done]. intros [= <- <-]. split; simpl; auto. by intros tx r ?%elem_of_nil.
  - destruct req as [s q k v|s q k|s q k e n|k con|st en li con|]; simpl; intros Hev.
    1-3: by eapply propose_write_waits.
    1-2: by eapply handle_read_waits.
    injection Hev as <- <-. apply waits_reply; try done. by left.
Qed.

Lemma event_waits_app P evs evs' c c1 c2 t t' :
  event_waits P evs c c1 t → event_waits P evs' c1 c2 t' → event_waits P (evs ++ evs') c c2 (t ++ t').
Proof.
  intros [Ha1 Hw1 Hr1 Hp1 Hrd1] [Ha2 Hw2 Hr2 Hp2 Hrd2]. split.
  - intros tx r [(req & ? & ?)%Ha1|(req & ? & ?)%Ha2]%elem_of_app; exists req; rewrite elem_of_app; auto.
  - intros k w [[?|(req & ? & ?)]%Hw1|(req & ? & ?)]%Hw2; [by left|..]; right; exists req; rewrite elem_of_app; auto.
  - intros k p [[?|(req & ? & ?)]%Hr1|(req & ? & ?)]%Hr2; [by left|..]; right; exists req; rewrite elem_of_app; auto.
  - congruence.
  - auto.
Qed.
End replica.
