(* ===== verification/ServerCluster.v ===== *)
(** * A cluster of servers

    Servers of crates/server/src/core.rs on an asynchronous network that may
    lose, repeat and reorder messages, each with the directory of its log store.
    A server takes a queue of events in each turn; it can crash at any point of
    what it does, in the middle of a write of the storage engine included, and
    open its directory again. One committed log explains every state machine and
    every answer that a client ever got, and no server panics. *)

From S2P Require Import Prelude Order Codec Fs Wal Bloom Memtable SsTable SsTableFacts.
From S2P Require Import MergeIter Manifest Db LsmSpec DbRead DbCompact DbInv DbOps DbEngine DbProps.
From S2P Require Import RaftTypes RaftLog RaftLogFacts RaftNode RaftNodeFacts RaftNodeInv RaftProps RaftHistory.
From S2P Require Import RaftProtocol ProtocolSafety RaftRefine NodeSafety Kvsm SimCluster Durability Cluster.
From S2P Require Import LogStore Proto Client Replica Server ServerRequests ServerDurable ServerReplica.
Local Open Scope N_scope.

(** ** Turns for the storage engine *)

Section fuel.
  Context {B : Type} {bk : Backend B} {cc : Bincode Command} {cp : Bincode SnapshotPayload}.
  Context {crc : Crc32} {cw : Bincode WalBatch} {ci : Bincode TableIndex} {cm : Bincode Manifest}.
  Context {ch : Bincode HardState} {ce : Bincode RaftTypes.Entry} {cs : Bincode Snapshot}.
  Local Open Scope act_scope.

(** More turns do not change what has ended. *)
Definition steady (f : nat → act B) : Prop := ∀ fuel fuel' c d c' t,
  (fuel <= fuel')%nat → f fuel c d = (Some c', t) → f fuel' c d = (Some c', t).

Lemma steady_seq f g : steady f → steady g → steady (λ n, f n >=> g n).
Proof.
  intros Hf Hg n n' c d c' t Hn. unfold seq_act. destruct (f n c d) as [[c1|] t1] eqn:H1; [|done].
  rewrite (Hf _ _ _ _ _ _ Hn H1). destruct (g n c1 _) as [[c2|] t2] eqn:H2; [|done].
  by rewrite (Hg _ _ _ _ _ _ Hn H2).
Qed.

Lemma steady_const f : steady (λ _, f).
Proof. by intros n n' c d c' t _. Qed.

Lemma steady_log w : steady (λ n, log_act (log_do n w)).
Proof.
  intros n n' c d c' t Hn. unfold log_act. destruct (log_do n w (co_log c) d) as [[ls|e] fs] eqn:Hd; [|done].
  by rewrite (log_do_mono _ _ _ _ _ _ _ Hd Hn).
Qed.

Lemma persist_steady out : steady (λ n, persist_output n out).
Proof. unfold persist_output. destruct (durable_part out); [exact (steady_log (Persist out))|apply steady_const]. Qed.

Lemma compact_steady : steady compact_log.
Proof.
  intros n n' c d c' t Hn. unfold compact_log. destruct (compaction c) as [raft [snap|]]; [|done].
  apply (steady_seq (λ n, log_act (log_do n (CompactTo snap))) (λ _, quiet_act _)); [apply steady_log|apply steady_const|done].
Qed.

Lemma handle_output_steady out : steady (λ n, handle_output n out).
Proof.
  apply steady_seq; [apply persist_steady|]. apply steady_seq; [apply steady_const|].
  apply steady_seq; [apply compact_steady|apply steady_const].
Qed.

Lemma process_output_steady turns : steady (λ n, process_output n turns).
Proof.
  induction turns as [|turns IH]; intros n n' c d c' t Hn; [done|]. cbn [process_output].
  destruct (take_output (co_raft c)) as [raft out]. destruct (out_is_empty out); [done|].
  by apply (steady_seq _ _ (handle_output_steady out) IH).
Qed.

Lemma turn_steady q : steady (λ n, turn n q).
Proof.
  destruct q as [|ev q]; [by intros n n' c d c' t _|].
  apply (steady_seq (λ _, quiet_act _)); [apply steady_const|apply process_output_steady].
Qed.
End fuel.

(** ** The model *)

(** What is on record: requests that reached a server and what it then did. *)
Inductive note :=
| Asked (req : Request) (tx : Tx)
| Did (a : Server.action).

Definition asks (evs : list Event) : list note :=
  omap (λ ev, match ev with EvClient req tx => Some (Asked req tx) | _ => None end) evs.

Lemma elem_of_asks req tx evs : EvClient req tx ∈ evs → Asked req tx ∈ asks evs.
Proof. intros Hin. apply list_elem_of_omap. by exists (EvClient req tx). Qed.

Definition sends (t : list Server.action) : list Message :=
  omap (λ a, match a with Sent m => Some m | _ => None end) t.

Lemma sends_app t t' : sends (t ++ t') = sends t ++ sends t'.
Proof. apply omap_app. Qed.

Lemma answers_sends t : Forall answer t → sends t = [].
Proof. induction 1 as [|a t Ha _ IH]; [done|]. by destruct a. Qed.

Lemma unsent_sends t : Forall unsent t → sends t = [].
Proof. induction 1 as [|a t Ha _ IH]; [done|]. by destruct a. Qed.

Lemma disk_sends fs : sends (Disk <$> fs) = [].
Proof. by induction fs. Qed.

Lemma sends_sent ms : sends (Sent <$> ms) = ms.
Proof. induction ms as [|m ms IH]; csimpl; [done|]. f_equal. exact IH. Qed.

Section system.
  Context {B : Type} {bk : Backend B} {bl : BackendLaws B} {cc : Bincode Command} {cp : Bincode SnapshotPayload}.
  Context {crc : Crc32} {cw : Bincode WalBatch} {ci : Bincode TableIndex} {cm : Bincode Manifest}.
  Context {ch : Bincode HardState} {ce : Bincode RaftTypes.Entry} {cs : Bincode Snapshot}.
  Context (D : nat) (V0 : list NodeId).

(** A server with the directory of its log store. [rows] are the rows that may
    have been written to it so far, one list for each outcome of its crashes; they
    say for how long the engine has room. *)
Inductive server :=
| Running (rows : list (list write)) (c : Server.Core B) (d : Dir)
| Stopped (rows : list (list write)) (d : Dir).

Record system := mkSystem {
  sys_servers : gmap NodeId server;
  sys_sent : list Message;
  sys_trace : list (NodeId * note);
}.

Definition acts (id : NodeId) (sv : server) (t : list Server.action) (ns : list note) (s : system) : system :=
  mkSystem (<[id := sv]> (sys_servers s)) (sys_sent s ++ sends t)
    (sys_trace s ++ (pair id <$> ns ++ (Did <$> visible t))).

(** The core after a queue of events, and after their output was applied. *)
Definition event_cores (c : Server.Core B) (evs : list Event) : option (Server.Core B * Server.Core B) :=
  match each handle_event evs c with
  | (Some c1, _) =>
    match apply_output (n_out (co_raft c1)) (drain c1) with (Some c2, _) => Some (c1, c2) | _ => None end
  | _ => None
  end.

(** The rows after their batch was persisted, and after the compaction. *)
Definition event_rows (c : Server.Core B) (evs : list Event) (ws : list write) : list write * list write :=
  match event_cores c evs with Some (c1, c2) => turn_rows c c1 c2 ws | None => (ws, ws) end.

Definition rows_after (c : Server.Core B) (evs : list Event) (rows : list (list write)) : list (list write) :=
  (λ ws, (event_rows c evs ws).2) <$> rows.
Definition rows_within (c : Server.Core B) (evs : list Event) (rows : list (list write)) : list (list write) :=
  rows ++ ((λ ws, (event_rows c evs ws).1) <$> rows) ++ rows_after c evs rows.

(** The queue of a turn: its batch is one that the log store can take, indices fit
    their width, and the engine has room for the rows. *)
Definition accepts (rows : list (list write)) (c : Server.Core B) (evs : list Event) : Prop :=
  whole evs ∧ ∀ c1 t0, each handle_event evs c = (Some c1, t0) →
    orderly evs c c1 ∧ RL.last_index (n_log (co_raft c1)) < 2 ^ 64
    ∧ ∀ c2 ta ws, apply_output (n_out (co_raft c1)) (drain c1) = (Some c2, ta) → ws ∈ rows →
        batch_room D (n_out (co_raft c1)) c2 ws (co_log c).

(** Messages are those that were sent to the server, at any time. *)
Definition arrives (s : system) (id : NodeId) (ev : Event) : Prop :=
  match ev with EvPeer m => m ∈ sys_sent s ∧ m_to m = id | _ => True end.

(** A server handles a queue of events; crashes while it does, or at rest; opens
    its directory; crashes while it does. Two things are left out, and each is one
    the code does not handle. The queues of a turn are those whose batch the log
    store can take ([orderly]): [group_commit_breaks_agreement] and
    [group_commit_keeps_removed_entries] show what the others do. A crash leaves a
    manifest to restart from ([manifest_kept]), as every crash does while
    [MANIFEST] is in place: [second_crash_loses_manifest] shows one that does not. *)
Inductive system_step (s : system) : system → Prop :=
| sys_turn id rows c d evs fuel c' t :
    sys_servers s !! id = Some (Running rows c d) → Forall (arrives s id) evs → accepts rows c evs →
    turn fuel evs c d = (Some c', t) →
    system_step s (acts id (Running (rows_after c evs rows) c' (apply_ops d (disk_ops t))) t (asks evs) s)
| sys_crash id rows c d evs fuel c' t t1 t2 d1 :
    sys_servers s !! id = Some (Running rows c d) → Forall (arrives s id) evs → accepts rows c evs →
    turn fuel evs c d = (Some c', t) → t = t1 ++ t2 →
    cut (apply_ops d (disk_ops t1)) d1 → manifest_kept d (apply_ops d (disk_ops t1)) d1 →
    system_step s (acts id (Stopped (rows_within c evs rows) d1) t1 (asks evs) s)
| sys_stop id rows c d d1 :
    sys_servers s !! id = Some (Running rows c d) → cut d d1 →
    system_step s (acts id (Stopped rows d1) [] [] s)
| sys_open rows d cfg every peers b fuel c fs :
    sys_servers s !! c_id cfg = Some (Stopped rows d) → b_ok b →
    core_open fuel cfg V0 every peers b d = (Ok c, fs) →
    system_step s (acts (c_id cfg) (Running rows c (apply_ops d fs)) [] [] s)
| sys_open_crash rows d cfg every peers b fuel c fs d1 :
    sys_servers s !! c_id cfg = Some (Stopped rows d) → b_ok b →
    core_open fuel cfg V0 every peers b d = (Ok c, fs) → outage d fs d1 →
    system_step s (acts (c_id cfg) (Stopped rows d1) [] [] s).

(** Servers with empty directories; nothing was sent or asked. *)
Definition fresh_system (s : system) : Prop :=
  sys_sent s = [] ∧ sys_trace s = [] ∧ ∀ id sv, sys_servers s !! id = Some sv → sv = Stopped [[]] ∅.
End system.

Arguments server B : clear implicits.
Arguments system B : clear implicits.

(** ** What the committed log explains *)

Section explanation.
  Context {B : Type} {cc : Bincode Command} {cp : Bincode SnapshotPayload}.

(** An answer without contents, the contents after a prefix of the log, or the
    result of the command of the request at its place in the log. *)
Definition explains (L : list RaftTypes.Entry) (req : Request) (r : Response) : Prop :=
  refusal r
  ∨ (∃ rr k, read_req req = Some rr ∧ (k <= length L)%nat ∧ (proper_read rr → r = read_of rr (take k L)))
  ∨ (∃ k e cmd, L !! k = Some e ∧ entry_cmd e = Some cmd ∧ write_key req = Some (cmd_session_id cmd, cmd_seq cmd)
     ∧ r = op_result_response (Kvsm.apply cmd (sm_after (take k L))).2).

(** Every answer on record is to a request that the server was asked. *)
Definition answers_explained (L : list RaftTypes.Entry) (tr : list (NodeId * note)) : Prop :=
  ∀ id tx r, (id, Did (Reply tx r)) ∈ tr → ∃ req, (id, Asked req tx) ∈ tr ∧ explains L req r.

(** The requests that wait were asked. *)
Record waits (id : NodeId) (tr : list (NodeId * note)) (c : Server.Core B) : Prop := {
  wa_writes : ∀ k w, co_pending_writes c !! k = Some w →
    ∃ req, (id, Asked req (pw_tx w)) ∈ tr ∧ write_key req = Some k;
  wa_reads : ∀ rid p, co_pending_reads c !! rid = Some p →
    ∃ req, (id, Asked req (rd_tx p)) ∈ tr ∧ read_req req = Some (rd_req p);
}.

Lemma waits_more id tr tr' c : waits id tr c → waits id (tr ++ tr') c.
Proof.
  intros [Hw Hr]. split.
  - intros k w Hk. destruct (Hw k w Hk) as (req & Hin & ?). exists req. split; [apply elem_of_app; by left|done].
  - intros rid p Hp. destruct (Hr rid p Hp) as (req & Hin & ?). exists req. split; [apply elem_of_app; by left|done].
Qed.

Lemma explains_longer L L' req r : L `prefix_of` L' → explains L req r → explains L' req r.
Proof.
  intros [x ->] [H|[(rr & k & Hr & Hk & Hx)|(k & e & cmd & Hk & Hc & Hw & Hx)]]; [by left|right; left|right; right].
  - exists rr, k. rewrite length_app, take_app_le by lia. split_and!; [done|lia|done].
  - exists k, e, cmd. apply lookup_lt_Some in Hk as Hlt.
    rewrite lookup_app_l, take_app_le by lia. done.
Qed.

(** The write command [cmd] was asked for. The servers refuse session 0. *)
Definition asked_for (tr : list (NodeId * note)) (cmd : Command) : Prop :=
  cmd_session_id cmd ≠ 0 ∧ ∃ id req tx, (id, Asked req tx) ∈ tr ∧ request_command req = Some cmd.

(** What may be in the log when [tr] is on record. *)
Definition logged (tr : list (NodeId * note)) (p : EntryPayload) : Prop :=
  match p with
  | Noop => True
  | Normal d => ∃ cmd, cmd_decode d = Some cmd ∧ asked_for tr cmd
  | ConfChangeP _ => False
  end.

(** Each answer on record is explained by commands that had been asked for by
    then, and is to a request that the server had been asked. *)
Definition answers_placed (L : list RaftTypes.Entry) (tr : list (NodeId * note)) : Prop :=
  ∀ i id tx r, tr !! i = Some (id, Did (Reply tx r)) →
    ∃ req P, (id, Asked req tx) ∈ take i tr ∧ P `prefix_of` L ∧ explains P req r
      ∧ Forall (λ e, logged (take i tr) (e_payload e)) P.

Lemma logged_ok tr p : logged tr p → payload_ok p.
Proof. destruct p; [done| |done]. intros (cmd & Hd & _). by exists cmd. Qed.

Lemma asked_more tr tr' cmd : tr ⊆ tr' → asked_for tr cmd → asked_for tr' cmd.
Proof. intros Ht (? & id & req & tx & ? & ?). split; [done|]. exists id, req, tx. auto. Qed.

Lemma logged_more tr tr' p : tr ⊆ tr' → logged tr p → logged tr' p.
Proof. intros Ht. destruct p; [done| |done]. intros (cmd & ? & ?). exists cmd. eauto using asked_more. Qed.

Lemma answers_placed_explained L tr : answers_placed L tr → answers_explained L tr.
Proof.
  intros Ha id tx r [i Hi]%list_elem_of_lookup. destruct (Ha _ _ _ _ Hi) as (req & P & Hin & HP & He & _).
  exists req. split; [by eapply subseteq_take|by eapply explains_longer].
Qed.

Lemma answers_longer L L' tr : L `prefix_of` L' → answers_placed L tr → answers_placed L' tr.
Proof. intros HL Ha i id tx r Hi. destruct (Ha _ _ _ _ Hi) as (req & P & ? & ? & ? & ?). exists req, P. split_and!; [done|by etrans|done..]. Qed.

(** What a server does next is explained if each of its answers is. *)
Lemma answers_next L P tr id evs t :
  answers_placed L tr → P `prefix_of` L → Forall (λ e, logged (tr ++ (pair id <$> asks evs)) (e_payload e)) P →
  (∀ tx r, Reply tx r ∈ t → ∃ req, (id, Asked req tx) ∈ tr ++ (pair id <$> asks evs) ∧ explains P req r) →
  answers_placed L (tr ++ (pair id <$> asks evs ++ (Did <$> visible t))).
Proof.
  intros Ha HP Hlog Ht i id' tx r. rewrite fmap_app, app_assoc. set (tr' := tr ++ _) in *.
  intros [Hi|[Hle Hi]]%lookup_app_Some.
  - rewrite take_app_le by (apply lookup_lt_Some in Hi; lia). apply lookup_app_Some in Hi as [Hi|[_ Hi]].
    + unfold tr'. rewrite take_app_le by (apply lookup_lt_Some in Hi; lia). by apply Ha.
    + apply list_elem_of_lookup_2, list_elem_of_fmap in Hi as (n & [= -> <-] & Hn).
      apply list_elem_of_omap in Hn as (ev & _ & Hev). by destruct ev.
  - apply list_elem_of_lookup_2, list_elem_of_fmap in Hi as (n & [= -> <-] & Hn).
    apply list_elem_of_fmap in Hn as (a & [= <-] & Hv). unfold visible in Hv. apply list_elem_of_filter in Hv as [_ Hv].
    destruct (Ht _ _ Hv) as (req & Hr & He). exists req, P. rewrite take_app_ge by done.
    split_and!; [apply elem_of_app; by left|done|done|]. eapply Forall_impl; [exact Hlog|].
    intros e. apply logged_more. intros x Hx. apply elem_of_app. by left.
Qed.
End explanation.

(** ** One event in the cluster *)

Section events.
  Context {B : Type} {bk : Backend B} {bl : BackendLaws B}.
  Context {cc : Bincode Command} {lc : BincodeLaws Command}.
  Context {cp : Bincode SnapshotPayload} {lp : BincodeLaws SnapshotPayload}.
  Context (V0 : list NodeId) (Hnd : NoDup V0).
  Context (pok : EntryPayload → Prop) (Hpok : ∀ p, pok p → payload_ok p) (Hnoop : pok Noop).
  Implicit Types c : Server.Core B.
  Abbreviation world := (world_inv V0 pok image_of).

Lemma pok_static p : pok p → is_conf p = false.
Proof. intros Hp. by apply payload_static, Hpok. Qed.

(** What reaches a server: messages that were sent to it, and requests whose
    commands may go into the log. *)
Definition received (S : Message → Prop) (id : NodeId) (ev : Event) : Prop :=
  match ev with
  | EvPeer m => S m ∧ m_to m = id
  | EvClient req _ => ∀ cmd, request_command req = Some cmd → cmd_session_id cmd ≠ 0 → pok (Normal (cmd_encode cmd))
  | EvTick => True
  end.

(** The operation of an event succeeds and is a sequence of protocol moves. *)
Lemma event_moves S h cs F id c ev :
  world cs S h F → core (co_raft c) = cs id → node_id (co_raft c) = id → received S id ev →
  wf_event ev ∧ ∃ n1, run_event c ev = Some n1 ∧ by_moves pok S (co_raft c) n1.
Proof.
  intros [Hok Hns HS] Hc Hid Hrec. specialize (Hns id). rewrite <-Hc in Hns.
  unfold run_event. destruct ev as [|m|req tx]; simpl.
  - split; [done|]. eexists. split; [done|by apply tick_by].
  - destruct Hrec as [Hm Hto]. split; [eapply (msg_inv_wf V0 pok image_of h); [done|by apply HS]|].
    destruct (step_total V0 pok image_of Hnd pok_static h id (co_raft c) (F id) S m) as [n1 Hn1]; try done.
    exists n1. split; [done|]. eapply step_by; [done|done|by rewrite Hto|done].
  - split; [done|]. destruct req as [s q k v|s q k|s q k e n|k []|st en li []|]; simpl;
      try (destruct (N.eqb_spec s 0)); simpl; eexists; (split; [done|]);
      first [by apply propose_by, Hrec|by apply read_index_by|done].
Qed.

(** A queue of events that was handled: the protocol moved on, and the committed
    entries of the output continue the committed log unless a snapshot came. *)
Record events_out S h cs F id evs c c1 t0 ms h' L' (P : list RaftTypes.Entry) : Prop := {
  es_events : each handle_event evs c = (Some c1, t0);
  es_wf : Forall wf_event evs;
  es_id : node_id (co_raft c1) = id;
  es_ext : extends h h';
  es_world : world (update cs id (core (co_raft c1))) (λ m, S m ∨ m ∈ ms) h' (update F id L');
  es_msgs : o_messages (n_out (co_raft c1)) = o_messages (n_out (co_raft c)) ++ ms;
  es_waits : event_waits P evs c c1 t0;
  es_same : co_sm c1 = co_sm c ∧ co_applied c1 = co_applied c;
  es_commits : o_snapshot (n_out (co_raft c1)) = None →
    o_snapshot (n_out (co_raft c)) = None ∧ ∃ es, o_committed (n_out (co_raft c1)) = o_committed (n_out (co_raft c)) ++ es
    ∧ upto (n_commit (co_raft c1)) L' = upto (n_commit (co_raft c)) (F id) ++ es;
}.

(** Nothing happens to the protocol. *)
Lemma world_idle cs S h F id k : world cs S h F → k = cs id → world (update cs id k) (λ m, S m ∨ m ∈ []) h (update F id (F id)).
Proof.
  intros Hw ->. eapply world_inv_ext; [..|exact Hw].
  - intros u. unfold update. by destruct (decide _) as [->|].
  - intros m [?|?%elem_of_nil]; done.
  - intros u. unfold update. by destruct (decide _) as [->|].
Qed.

Lemma one_event S h cs F id c ev P :
  world cs S h F → core (co_raft c) = cs id → node_id (co_raft c) = id → replica P c → received S id ev →
  ∃ c1 t0 ms h' L', events_out S h cs F id [ev] c c1 t0 ms h' L' P.
Proof.
  intros Hw Hc Hid Hrep Hrec. destruct (event_moves _ _ _ _ _ _ _ Hw Hc Hid Hrec) as (Hwf & n1 & Hrun & Hby).
  destruct (handle_event_runs _ _ _ Hrun) as (c1 & t0 & Hev & Hd). pose proof Hd as [Hr1 _ Hsm Ha _].
  pose proof (handle_event_waits _ _ _ _ _ Hrep Hev) as Hwaits.
  assert (each handle_event [ev] c = (Some c1, t0)) as He by (simpl; unfold and_then; by rewrite Hev, app_nil_r).
  assert (node_id n1 = id) as Hid1 by (destruct Hby as [Hcfg _]; unfold node_id in *; by rewrite Hcfg).
  unfold run_event in Hrun. destruct (event_op c ev) as [op|] eqn:Hop.
  - destruct Hby as [_ (ms & Hms & Hmv)]. rewrite Hid, Hc in Hmv. destruct (event_op_wf _ _ _ Hwf Hop) as [Hwo Hb].
    destruct (world_moves V0 pok image_of Hnd pok_static _ _ _ _ _ _ _ Hw Hmv) as (h' & L' & Hext & Hw').
    pose proof (wi_nodes _ _ _ _ _ _ _ Hw id) as Hni. pose proof (wi_nodes _ _ _ _ _ _ _ Hw' id) as Hni'.
    rewrite !update_same in Hni'. rewrite <-Hc in Hni. pose proof (wi_history _ _ _ _ _ _ _ Hw') as Hok'.
    exists c1, t0, ms, h', L'. split; rewrite ?Hr1; try done; [by apply Forall_singleton|].
    by apply (delivered_step V0 Hnd pok _ _ _ _ _ _ _ _ Hok' Hext Hni Hni' Hrun).
  - injection Hrun as <-. exists c1, t0, [], h, (F id). split; rewrite ?Hr1; try done.
    + by apply Forall_singleton.
    + apply extends_refl.
    + by apply world_idle.
    + by rewrite app_nil_r.
    + intros Hs. split; [done|]. exists []. by rewrite !app_nil_r.
Qed.

Lemma events_world S h cs F id evs c P :
  world cs S h F → core (co_raft c) = cs id → node_id (co_raft c) = id → replica P c → Forall (received S id) evs →
  ∃ c1 t0 ms h' L', events_out S h cs F id evs c c1 t0 ms h' L' P.
Proof.
  revert S h cs F c. induction evs as [|ev evs IH]; intros S h cs F c Hw Hc Hid Hrep Hrec.
  { exists c, [], [], h, (F id). split; try done.
    - apply extends_refl.
    - by apply world_idle.
    - by rewrite app_nil_r.
    - split; auto. by intros tx r ?%elem_of_nil.
    - intros Hs. split; [done|]. exists []. by rewrite !app_nil_r. }
  apply Forall_cons in Hrec as [Hr1 Hrec].
  destruct (one_event _ _ _ _ _ _ _ _ Hw Hc Hid Hrep Hr1) as (c1 & t1 & ms1 & h1 & L1 & [E1 W1 I1 X1 Hw1 M1 A1 [S1 P1] C1]).
  assert (replica P c1) as Hrep1 by (destruct Hrep; split; congruence).
  destruct (IH _ _ _ _ c1 Hw1) as (c2 & t2 & ms2 & h2 & L2 & [E2 W2 I2 X2 Hw2 M2 A2 [S2 P2] C2]);
    [by rewrite update_same|done|done| |].
  { eapply Forall_impl; [exact Hrec|]. intros [|m|] Hm; try done. destruct Hm. split; [by left|done]. }
  exists c2, (t1 ++ t2), (ms1 ++ ms2), h2, L2. split; try done.
  - simpl in *. unfold and_then in *. destruct (handle_event ev c) as [[c1'|] t1']; [|done].
    rewrite app_nil_r in E1. injection E1 as -> ->. by rewrite E2.
  - apply Forall_cons. split; [by apply Forall_cons in W1 as [? _]|done].
  - by eapply extends_trans.
  - eapply world_inv_ext; [..|exact Hw2].
    + intros u. unfold update. by destruct (decide _).
    + intros m. rewrite elem_of_app. tauto.
    + intros u. unfold update. by destruct (decide _).
  - by rewrite M2, M1, app_assoc.
  - by eapply (event_waits_app _ [ev]).
  - split; congruence.
  - intros Hs. destruct (C2 Hs) as (Hs1 & es2 & Hc2 & Hu2). destruct (C1 Hs1) as (Hs0 & es1 & Hc1 & Hu1).
    split; [done|]. exists (es1 ++ es2). rewrite Hc2, Hc1, Hu2, update_same, Hu1. by rewrite !app_assoc.
Qed.

(** Events that were handled and whose output was applied: the protocol moved
    on, the committed log of the server went from [P] to [P'], and the server
    applied it and answered the writes that waited. *)
Record event_out S h cs F id c evs c1 t0 c2 ta h' L' (P P' : list RaftTypes.Entry) : Prop := {
  eo_event : each handle_event evs c = (Some c1, t0);
  eo_wf : Forall wf_event evs;
  eo_apply : apply_output (n_out (co_raft c1)) (drain c1) = (Some c2, ta);
  eo_id : node_id (co_raft c1) = id;
  eo_ext : extends h h';
  eo_world : world (update cs id (core (co_raft c1))) (λ m, S m ∨ m ∈ o_messages (n_out (co_raft c1))) h'
    (update F id L');
  eo_before : P = upto (k_commit (cs id)) (F id);
  eo_after : P' = upto (n_commit (co_raft c1)) L';
  eo_grows : P `prefix_of` P';
  eo_replica : replica P' c2;
  eo_waits : event_waits P evs c c1 t0;
  eo_writes : writes_explained (co_pending_writes c1) [] P' ta;
  eo_pending : co_pending_writes c2 ⊆ co_pending_writes c1;
  eo_same : same_reads (drain c1) c2;
}.

Lemma writes_explained_from W Q es t : writes_explained W Q es t → writes_explained W [] (Q ++ es) t.
Proof.
  intros He a Ha. destruct (He a Ha) as (k & e & cmd & w & Hk & Hc & Hw & ->).
  exists (length Q + k)%nat, e, cmd, w. rewrite lookup_app_r by lia. replace (length Q + k - length Q)%nat with k by lia.
  rewrite take_app_add. done.
Qed.

Lemma upto_consecutive h a b L :
  log_ok pok h L → a ≤ b →
  consecutive (a + 1) (drop (N.to_nat a) (upto b L)) ∧ Forall (λ e, payload_ok (e_payload e)) (upto b L).
Proof.
  intros HL Hab. split.
  - intros k e Hk. rewrite lookup_drop in Hk. apply lookup_take_Some in Hk as [Hk _].
    destruct (HL _ _ Hk) as (-> & _). lia.
  - apply Forall_forall. intros e (k & Hk)%list_elem_of_lookup. apply lookup_take_Some in Hk as [Hk _].
    destruct (HL _ _ Hk) as (_ & ? & _). by apply Hpok.
Qed.

(** What an operation hands over is a batch that continues the committed log. *)
Lemma operation_batch h h' id k L L' r r' op :
  history_ok V0 pok h' → extends h h' →
  node_inv V0 pok image_of h id k L → core r = k →
  node_inv V0 pok image_of h' id (core r') L' → n_out r = default_out →
  run_op op r = Some r' → batched op = true → wf_op op →
  let P := upto (k_commit k) L in let P' := upto (n_commit r') L' in
  P `prefix_of` P' ∧ ∃ Q es, batch_of P Q es (n_out r') ∧ Q ++ es = P'.
Proof.
  intros Hok' Hext Hn Hc Hn' Ho Hrun Hb Hwf P P'.
  destruct (delivered_loaded V0 Hnd pok _ _ _ _ _ _ _ _ _ Hok' Hext Hn Hc Hn' Ho Hrun Hb Hwf) as [_ Hcase].
  pose proof Hn' as [_ [_ Hlok _ _ _] _ (_ & Hlen & Hcp') _]. simpl in Hlen, Hcp'.
  pose proof Hn as [_ _ _ (_ & Hlen0 & Hcp) _]. apply (committed_prefix_ext V0 _ _ Hext) in Hcp.
  assert (k_commit k ≤ n_commit r') as Hle.
  { rewrite <-Hc. apply (g_commit r r'). apply (run_op_guarantee op); [by destruct op| |done|done].
    eapply node_inv_ok. by rewrite Hc. }
  assert (length P' = N.to_nat (n_commit r')) as HlP' by (unfold P'; rewrite length_take; lia).
  assert (length P = N.to_nat (k_commit k)) as HlP by (unfold P; rewrite length_take; lia).
  assert (P `prefix_of` P') as Hpre.
  { destruct (committed_prefixes_agree V0 pok h' Hnd Hok' _ _ _ _ Hcp Hcp') as [?|[x Hx]]; [done|].
    fold P P' in Hx. assert (x = []) as -> by (apply nil_length_inv; apply (f_equal length) in Hx; rewrite length_app in Hx; lia).
    rewrite app_nil_r in Hx. by rewrite Hx. }
  destruct (upto_consecutive h' (k_commit k) (n_commit r') L' Hlok Hle) as [Hcons Hpay].
  split; [done|]. destruct (o_snapshot (n_out r')) as [s|] eqn:Hs.
  - destruct Hcase as (Hcm & Hsi & Him). exists P', []. rewrite app_nil_r. split; [|done].
    split; [done|rewrite Hs; split; [done|lia]|by intros ? ? ?|done].
  - destruct Hcase as (Heq & _ & Hup). exists P, (o_committed (n_out r')). rewrite Heq in Hup. fold P P' in Hup.
    split; [|done]. fold P' in Hpay. rewrite Hup in Hpay. split; [done|by rewrite Hs| |by apply Forall_app in Hpay as [_ ?]].
    fold P' in Hcons. rewrite Hup, drop_app_length' in Hcons by done. rewrite HlP. by rewrite N2Nat.id.
Qed.

(** The batch of a queue that the log store can take. *)
Lemma events_batch S h cs F id evs c c1 t0 ms h' L' P :
  world cs S h F → core (co_raft c) = cs id → n_out (co_raft c) = default_out →
  events_out S h cs F id evs c c1 t0 ms h' L' P → orderly evs c c1 →
  P = upto (k_commit (cs id)) (F id) → let P' := upto (n_commit (co_raft c1)) L' in
  P `prefix_of` P' ∧ ∃ Q es, batch_of P Q es (n_out (co_raft c1)) ∧ Q ++ es = P'.
Proof.
  intros Hw Hc Ho [He Hwf _ Hext Hw' _ _ _ Hcom] Hord HP P'.
  pose proof (wi_nodes _ _ _ _ _ _ _ Hw id) as Hni. pose proof (wi_nodes _ _ _ _ _ _ _ Hw' id) as Hni'.
  rewrite !update_same in Hni'. pose proof (wi_history _ _ _ _ _ _ _ Hw') as Hok'. subst P.
  destruct (o_snapshot (n_out (co_raft c1))) as [s|] eqn:Hs.
  - destruct Hord as [Hlen|[? _]]; [|congruence].
    destruct (handle_events_ops _ _ _ _ Hwf He) as (_ & ops & Hrun & Hwo & Hb & Hlo).
    destruct ops as [|op [|]]; [|clear Hlo|simpl in Hlo; lia].
    { injection Hrun as Hr. rewrite <-Hr, Ho in Hs. done. }
    simpl in Hrun. apply bind_Some in Hrun as (n1 & Hrun & [= Hr]). rewrite Hr in Hrun.
    apply Forall_cons in Hwo as [Hwo _]. apply Forall_cons in Hb as [Hb _].
    by apply (operation_batch _ _ _ _ _ _ _ _ _ Hok' Hext Hni Hc Hni' Ho Hrun).
  - destruct (Hcom eq_refl) as (_ & es & Hes & Hup). rewrite Ho in Hes. simpl in Hes.
    replace (n_commit (co_raft c)) with (k_commit (cs id)) in Hup by (by rewrite <-Hc). fold P' in Hup.
    split; [rewrite Hup; by eexists|]. exists (upto (k_commit (cs id)) (F id)), es. split; [|done].
    destruct Hni' as [_ [_ Hlok _ _ _] _ _ _]. destruct Hni as [_ _ _ (_ & Hlen & _) _].
    assert (length (upto (k_commit (cs id)) (F id)) = N.to_nat (k_commit (cs id))) as Hl by (rewrite length_take; lia).
    assert (k_commit (cs id) ≤ n_commit (co_raft c1)) as Hle.
    { apply (f_equal length) in Hup. unfold P' in Hup. rewrite length_app, Hl, length_take in Hup. lia. }
    destruct (upto_consecutive h' (k_commit (cs id)) (n_commit (co_raft c1)) L' Hlok Hle) as [Hcons Hpay].
    fold P' in Hcons, Hpay. rewrite Hup in Hcons, Hpay. rewrite drop_app_length' in Hcons by done.
    split; [done|by rewrite Hs|by rewrite Hl, N2Nat.id|by apply Forall_app in Hpay as [_ ?]].
Qed.

Lemma event_world S h cs F id c evs :
  world cs S h F → core (co_raft c) = cs id → node_id (co_raft c) = id → n_out (co_raft c) = default_out →
  replica (upto (k_commit (cs id)) (F id)) c → Forall (received S id) evs →
  (∀ c1 t0, each handle_event evs c = (Some c1, t0) → orderly evs c c1) →
  ∃ c1 t0 c2 ta h' L' P P', event_out S h cs F id c evs c1 t0 c2 ta h' L' P P'.
Proof.
  intros Hw Hc Hid Ho Hrep Hrec Hord.
  destruct (events_world _ _ _ _ _ _ _ _ Hw Hc Hid Hrep Hrec) as (c1 & t0 & ms & h' & L' & Heo).
  pose proof Heo as [He Hwf Hid1 Hext Hw' Hms Hwaits [Hsm Ha] _].
  destruct (events_batch _ _ _ _ _ _ _ _ _ _ _ _ _ Hw Hc Ho Heo (Hord _ _ He) eq_refl) as (Hgrow & Q & es & Hbatch & HP').
  assert (replica (upto (k_commit (cs id)) (F id)) (drain c1)) as Hrep1.
  { destruct Hrep as [H1 H2]. split; simpl; congruence. }
  destruct (apply_output_replica _ _ _ _ _ Hrep1 Hbatch) as (c2 & ta & Hap & Hrep2 & Hex & Hsub & Hsame).
  exists c1, t0, c2, ta, h', L', (upto (k_commit (cs id)) (F id)), (upto (n_commit (co_raft c1)) L').
  rewrite Ho in Hms. simpl in Hms. split; try done.
  - by rewrite Hms.
  - by rewrite HP' in Hrep2.
  - rewrite <-HP'. by apply writes_explained_from.
Qed.

(** ** The rest of the turn *)

Lemma world_again cs S h F id k k' :
  world (update cs id k) S h F → node_inv V0 pok image_of h id k' (F id) → world (update cs id k') S h F.
Proof.
  intros Hw Hn. eapply world_inv_ext; [..|by apply (world_local _ _ _ _ _ _ _ id k' Hw)]; [|done|done].
  intros u. unfold update. by destruct (decide _).
Qed.

(** Compaction keeps the snapshot an image of the committed log. *)
Lemma compaction_world cs S h F id k c :
  world (update cs id k) S h F → core (co_raft c) = k → replica (upto (n_commit (co_raft c)) (F id)) c →
  world (update cs id (core (compaction c).1)) S h F ∧ n_commit (compaction c).1 = n_commit (co_raft c)
  ∧ node_id (compaction c).1 = node_id (co_raft c).
Proof.
  intros Hw Hk [Hsm Ha]. pose proof (wi_nodes _ _ _ _ _ _ _ Hw id) as Hn. rewrite update_same, <-Hk in Hn.
  unfold compaction. destruct (_ <=? _); [|by subst k]. split.
  - apply (world_again _ _ _ _ _ k); [done|]. apply compact_core_inv; [apply pok_static|done|].
    unfold image_of. pose proof Hn as [_ _ _ (_ & Hlen & _) _]. simpl in Hlen.
    rewrite Ha, length_take, Nat.min_l, N2Nat.id by lia. by apply sm_snapshot_sim.
  - unfold node_compact. destruct (_ || _); [done|]. by destruct (RL.term _ _).
Qed.

Lemma immediate_explained P P' req r : P `prefix_of` P' → immediate req P r → explains P' req r.
Proof.
  intros [x ->] [?|(rr & Hr & Hx)]; [by left|right; left]. exists rr, (length P).
  rewrite length_app, take_app_length. split_and!; [done|lia|done].
Qed.

Lemma asked_next req tx evs id (tr : list (NodeId * note)) :
  EvClient req tx ∈ evs → (id, Asked req tx) ∈ tr ++ (pair id <$> asks evs).
Proof. intros Hin. apply elem_of_app. right. by apply list_elem_of_fmap_2, elem_of_asks. Qed.

Lemma event_waits_next P evs id tr c c1 t :
  event_waits P evs c c1 t → waits id tr c → waits id (tr ++ (pair id <$> asks evs)) c1.
Proof.
  intros [_ Hw Hr _ _] Hwt. apply (waits_more _ _ (pair id <$> asks evs)) in Hwt as [Hw0 Hr0]. split.
  - intros k w [Hk|(req & Hin & Hk)]%Hw; [by apply (Hw0 k)|]. exists req. split; [by apply asked_next|done].
  - intros rid p [Hk|(req & Hin & Hk)]%Hr; [by apply (Hr0 rid)|]. exists req. split; [by apply asked_next|done].
Qed.

Lemma waits_fewer id tr c c' :
  waits id tr c → co_pending_writes c' ⊆ co_pending_writes c → co_pending_reads c' ⊆ co_pending_reads c →
  waits id tr c'.
Proof.
  intros [Hw Hr] Hsw Hsr. split.
  - intros k w Hk. apply (Hw k). by eapply lookup_weaken.
  - intros rid q Hq. apply (Hr rid). by eapply lookup_weaken.
Qed.

(** The answers to reads at the end of a batch. *)
Lemma finished_replica P out c c' tr ts id n :
  finished out c c' tr ts → replica P c → waits id n c →
  replica P c' ∧ waits id n c'
  ∧ ∀ tx r, Reply tx r ∈ tr → ∃ req, (id, Asked req tx) ∈ n ∧ explains P req r.
Proof.
  intros [(c0 & [H1 H2 H3 H4 H5 H6] & Hs) _] Hrep Hwt. unfold serve_reads in Hs.
  assert (replica P (set_co_ready_reads [] c0)) as Hrep0 by (destruct Hrep; split; simpl; congruence).
  destruct (serve_each_replica _ _ _ _ _ Hrep0 Hs) as (Hrep' & Hw' & Hr' & _ & Hex). simpl in *.
  split; [done|]. split.
  { eapply waits_fewer; [exact Hwt|by rewrite Hw', H3|by rewrite <-H4]. }
  intros tx r Hin. destruct (Hex _ Hin) as (rid & idx & p & r' & _ & _ & Hp & [= -> ->] & Hpr).
  rewrite H4 in Hp. destruct (wa_reads _ _ _ Hwt _ _ Hp) as (req & Hreq & Hrr). exists req. split; [done|].
  right. left. exists (rd_req p), (length P). rewrite firstn_all. done.
Qed.
End events.

(** ** Turns and openings in the cluster *)

Section turns.
  Context {B : Type} {bk : Backend B} {bl : BackendLaws B}.
  Context {cc : Bincode Command} {lc : BincodeLaws Command}.
  Context {cp : Bincode SnapshotPayload} {lp : BincodeLaws SnapshotPayload}.
  Context {crc : Crc32} {cw : Bincode WalBatch} {ci : Bincode TableIndex} {cm : Bincode Manifest}.
  Context {lw : BincodeLaws WalBatch} {li : BincodeLaws TableIndex} {lm : BincodeLaws Manifest}.
  Context {ch : Bincode HardState} {ce : Bincode RaftTypes.Entry} {csn : Bincode Snapshot}.
  Context {lh : BincodeLaws HardState} {le : BincodeLaws RaftTypes.Entry} {lsn : BincodeLaws Snapshot}.
  Context (D : nat) (V0 : list NodeId) (Hnd : NoDup V0).
  Context (pok : EntryPayload → Prop) (Hpok : ∀ p, pok p → payload_ok p) (Hnoop : pok Noop).
  Implicit Types c : Server.Core B.
  Abbreviation world := (world_inv V0 pok image_of).

(** A server that runs: its log store holds the state of its node, its node is
    the one of the protocol, and its state machine the committed log. *)
Record running_inv (id : NodeId) (tr : list (NodeId * note)) (k : RaftProtocol.Core) (L : list RaftTypes.Entry)
    (rows : list (list write)) (c : Server.Core B) (d : Dir) : Prop := {
  ru_disk : ∃ ws, ws ∈ rows ∧ core_ok D ws c d ∧ room log_options D ws;
  ru_core : core (co_raft c) = k;
  ru_id : node_id (co_raft c) = id;
  ru_replica : replica (upto (k_commit k) L) c;
  ru_waits : waits id tr c;
}.

(** A server that is down: its directory opens to a node of the protocol. *)
Definition stopped_inv (id : NodeId) (k : RaftProtocol.Core) (rows : list (list write)) (d : Dir) : Prop :=
  ∃ ws p, ws ∈ rows ∧ log_recovers D ws p d ∧ room log_options D ws
    ∧ k = core (node_new (config_new id 0) V0 p).

(** What the rest of a turn does after its event. *)
Lemma turn_out S h cs F id c evs c1 t0 c2 ta h' L' P P' tr c' t :
  event_out V0 pok S h cs F id c evs c1 t0 c2 ta h' L' P P' → waits id tr c → turn_done c c1 c2 c' t0 ta t →
  world (update cs id (core (co_raft c'))) (λ m, S m ∨ m ∈ o_messages (n_out (co_raft c1))) h' (update F id L')
  ∧ node_id (co_raft c') = id ∧ n_commit (co_raft c') = n_commit (co_raft c1) ∧ replica P' c'
  ∧ waits id (tr ++ (pair id <$> asks evs)) c' ∧ (∀ m, m ∈ sends t → m ∈ o_messages (n_out (co_raft c1)))
  ∧ ∀ tx r, Reply tx r ∈ t → ∃ req, (id, Asked req tx) ∈ tr ++ (pair id <$> asks evs) ∧ explains P' req r.
Proof.
  intros [_ _ Hap Hid _ Hw _ HP' Hgr Hrep Hew Hex Hsub Hsame] Hwt [[_ _ _ _ Ha0] Hb].
  pose proof (event_waits_next _ _ _ _ _ _ _ Hew Hwt) as Hw1. set (tr' := tr ++ _) in *.
  assert (waits id tr' c2) as Hw2 by (eapply waits_fewer; [exact Hw1|done|by rewrite (sr_pending _ _ Hsame)]).
  assert (∀ tx r, Reply tx r ∈ t0 → ∃ req, (id, Asked req tx) ∈ tr' ∧ explains P' req r) as Ht0.
  { intros tx r (req & Hin & Him)%(ew_answers _ _ _ _ _ Hew). exists req.
    split; [by apply asked_next|by eapply immediate_explained]. }
  destruct (out_is_empty _) eqn:He.
  - destruct Hb as [-> ->]. apply empty_output in He as Ho. rewrite Ho in Hap. injection Hap as <- <-.
    split_and!; try done. rewrite (answers_sends _ Ha0). by intros m ?%elem_of_nil.
  - destruct Hb as (fs1 & fs2 & tra & ts & -> & Hfin & Hrc).
    destruct (finished_replica _ _ _ _ _ _ _ _ Hfin Hrep Hw2) as (Hrep' & Hw' & Htr).
    pose proof (sr_raft _ _ Hsame) as Hr2. rewrite HP' in Hrep.
    destruct (compaction_world V0 pok Hpok _ _ _ _ _ _ c2 Hw) as (Hw3 & Hcm & Hid'); [by rewrite Hr2|by rewrite update_same, Hr2|].
    rewrite Hrc. split_and!; try done; [by rewrite Hid', Hr2|by rewrite Hcm, Hr2|..].
    + intros m Hm. destruct (finished_answers _ _ _ _ _ Hfin) as [Hans _].
      rewrite !sends_app, !disk_sends, (answers_sends _ Ha0), (answers_sends _ Hans) in Hm.
      rewrite (answers_sends ta) in Hm by by eapply apply_output_aside. simpl in Hm.
      rewrite (fi_sent _ _ _ _ _ Hfin), sends_sent in Hm. by apply list_elem_of_filter in Hm as [_ ?].
    + intros tx r. rewrite !elem_of_app. intros [H|[H|[H|[H|[H|H]]]]]; [by apply Ht0|..|by apply Htr|].
      * by apply list_elem_of_fmap in H as (? & ? & _).
      * destruct (Hex _ H) as (j & e & cmd & w & Hj & Hc & Hwj & [= -> ->]).
        destruct (wa_writes _ _ _ Hw1 _ _ Hwj) as (req & Hreq & Hk). exists req. split; [done|].
        right. right. by exists j, e, cmd.
      * by apply list_elem_of_fmap in H as (? & ? & _).
      * rewrite (fi_sent _ _ _ _ _ Hfin) in H. by apply list_elem_of_fmap in H as (? & ? & _).
Qed.
(** ** Steps of one server *)

(** What only the immediate answers show. *)
Lemma turn_visible_sends t0 t1 :
  Forall answer t0 → visible t1 `prefix_of` t0 → sends t1 = [] ∧ ∀ tx r, Reply tx r ∈ t1 → Reply tx r ∈ t0.
Proof.
  intros Ha [x ->]. apply Forall_app in Ha as [Ha _]. split.
  - induction t1 as [|a t1 IH]; [done|]. unfold visible in Ha. rewrite filter_cons in Ha.
    destruct a; simpl in *; try (by apply IH); try (apply Forall_cons in Ha as [? Ha]); try done; by apply IH.
  - intros tx r Hin. apply elem_of_app. left. unfold visible. by apply list_elem_of_filter.
Qed.

Definition server_inv (tr : list (NodeId * note)) (id : NodeId) (k : RaftProtocol.Core) (L : list RaftTypes.Entry)
    (sv : server B) : Prop :=
  match sv with
  | Running rows c d => running_inv id tr k L rows c d
  | Stopped rows d => stopped_inv id k rows d
  end.

(** Server [id] went on to [k'], did [t] after the requests [ns], and [P'] is
    committed, which explains what it answered. *)
Record advanced (S : Message → Prop) h cs F (id : NodeId) (tr : list (NodeId * note)) (ns : list note)
    (t : list Server.action) k' h' F' (P' : list RaftTypes.Entry) : Prop := {
  ad_ext : extends h h';
  ad_world : world (update cs id k') (λ m, S m ∨ m ∈ sends t) h' F';
  ad_others : ∀ u, u ≠ id → F' u = F u;
  ad_committed : ∃ T, committed_prefix V0 h' T P';
  ad_commit : upto (k_commit k') (F' id) `prefix_of` P';
  ad_answers : ∀ tx r, Reply tx r ∈ t → ∃ req, (id, Asked req tx) ∈ tr ++ (pair id <$> ns) ∧ explains P' req r;
}.

(** A node that restarts from its disk. *)
Lemma restarted cs S h F id n ws rows d :
  world (update cs id (core n)) S h F → ws ∈ rows → log_recovers D ws (disk_of n) d → room log_options D ws →
  ∃ k, stopped_inv id k rows d ∧ world (update cs id k) S h F
    ∧ upto (k_commit k) (F id) `prefix_of` upto (n_commit n) (F id).
Proof.
  intros Hw Hin Hrec Hroom. pose proof (wi_nodes _ _ _ _ _ _ _ Hw id) as Hn. rewrite update_same in Hn.
  eexists. split; [by exists ws, (disk_of n)|]. rewrite (restart_core _ _ _ _ _ _ _ _ Hn). split.
  - eapply world_again; [exact Hw|]. by apply (restart_inv _ _ _ _ _ (core n)).
  - simpl. destruct Hn as [_ _ _ (Hle & _ & _) _]. simpl in Hle. apply prefix_take_mono. lia.
Qed.

Lemma committed_upto S h cs F id :
  world cs S h F → ∃ T, committed_prefix V0 h T (upto (k_commit (cs id)) (F id)).
Proof. intros Hw. destruct (wi_nodes _ _ _ _ _ _ _ Hw id) as [_ _ _ (_ & _ & Hc) _]. eauto. Qed.

Lemma event_cores_out S h cs F id c evs c1 t0 c2 ta h' L' P P' :
  event_out V0 pok S h cs F id c evs c1 t0 c2 ta h' L' P P' → event_cores c evs = Some (c1, c2).
Proof. intros He. unfold event_cores. by rewrite (eo_event _ _ _ _ _ _ _ _ _ _ _ _ _ _ _ _ _ He), (eo_apply _ _ _ _ _ _ _ _ _ _ _ _ _ _ _ _ _ He). Qed.

(** A crash within a turn. *)
Lemma crashed S h cs F id c evs c1 t0 c2 ta h' L' P P' tr rows ws ws1 ws2 c' t t1 t2 d1 wsd p :
  world cs S h F → core (co_raft c) = cs id → waits id tr c →
  event_out V0 pok S h cs F id c evs c1 t0 c2 ta h' L' P P' → turn_done c c1 c2 c' t0 ta t →
  ws ∈ rows → ws1 ∈ rows → ws2 ∈ rows →
  room log_options D ws → room log_options D ws1 → room log_options D ws2 →
  t = t1 ++ t2 → log_recovers D wsd p d1 →
  staged ws ws1 ws2 (co_raft c) (co_raft c1) (co_raft c') t0 t1 wsd p →
  ∃ k' h'' F'' P'', stopped_inv id k' rows d1 ∧ advanced S h cs F id tr (asks evs) t1 k' h'' F'' P''.
Proof.
  intros Hw Hc Hwt Heo Htd Hi0 Hi1 Hi2 Hr0 Hr1 Hr2 -> Hrec Hst.
  destruct (turn_out _ _ _ _ _ _ _ _ _ _ _ _ _ _ _ _ _ _ Heo Hwt Htd) as (Hw' & _ & Hcm & _ & _ & Hsend & Hans).
  pose proof Heo as [_ _ _ _ Hext Hw1 HP HP' Hgr _ Hew _ _ _].
  assert (∀ tx r, Reply tx r ∈ t1 → Reply tx r ∈ t1 ++ t2) as Hsub by (intros; apply elem_of_app; by left).
  assert (∀ u, u ≠ id → update F id L' u = F u) as Hoth by (intros u Hu; by rewrite update_other).
  assert (∃ T, committed_prefix V0 h' T P') as Hcom.
  { destruct (committed_upto _ _ _ _ id Hw1) as [T HT]. rewrite !update_same in HT. exists T. by rewrite HP'. }
  destruct Hst as [[[-> ->] Hv]|[[[-> ->] Hu]|[-> ->]]].
  - assert (world (update cs id (core (co_raft c))) S h F) as Hw0.
    { eapply world_inv_ext; [..|exact Hw]; [|done|done]. intros u. unfold update. by destruct (decide _) as [->|]. }
    destruct (restarted _ _ _ _ _ _ _ _ _ Hw0 Hi0 Hrec Hr0) as (k & Hk & Hwk & Hpre).
    exists k, h, F, P. split; [done|]. destruct (turn_visible_sends _ _ (ed_answers _ _ _ _ (td_event _ _ _ _ _ _ _ Htd)) Hv) as [Hs Hans0].
    split; [apply extends_refl| |done| | |].
    + eapply world_inv_ext; [..|exact Hwk]; [done| |done]. rewrite Hs. intros m [?|?%elem_of_nil]; done.
    + rewrite HP. by eapply committed_upto.
    + rewrite HP, <-Hc. done.
    + intros tx r Hin%Hans0. destruct (ew_answers _ _ _ _ _ Hew _ _ Hin) as (req & Hev & Him). exists req.
      split; [by apply asked_next|by eapply immediate_explained].
  - destruct (restarted _ _ _ _ _ _ _ _ _ Hw1 Hi1 Hrec Hr1) as (k & Hk & Hwk & Hpre).
    exists k, h', (update F id L'), P'. split; [done|]. rewrite update_same in Hpre.
    split; [done| |done|done|by rewrite update_same, HP'|auto].
    eapply world_inv_ext; [..|exact Hwk]; [done| |done]. rewrite (unsent_sends _ Hu). intros m [?|?%elem_of_nil]; [by left|done].
  - destruct (restarted _ _ _ _ _ _ _ _ _ Hw' Hi2 Hrec Hr2) as (k & Hk & Hwk & Hpre).
    exists k, h', (update F id L'), P'. split; [done|]. rewrite update_same, Hcm in Hpre.
    split; [done| |done|done|by rewrite update_same, HP'|auto].
    eapply world_inv_ext; [..|exact Hwk]; [done| |done]. intros m [?|Hm]; [by left|right]. apply Hsend.
    rewrite sends_app. apply elem_of_app. by left.
Qed.
(** A turn ends, and leaves the server in order; a crash within it leaves a
    directory to open. *)
Lemma turn_world S h cs F id tr rows c d evs :
  world cs S h F → running_inv id tr (cs id) (F id) rows c d → Forall (received pok S id) evs → accepts D rows c evs →
  ∃ n c' t, (∀ fuel, (n <= fuel)%nat → turn fuel evs c d = (Some c', t))
    ∧ (∃ h' F' P', running_inv id (tr ++ (pair id <$> asks evs)) (core (co_raft c')) (F' id)
           (rows_after c evs rows) c' (apply_ops d (disk_ops t))
         ∧ advanced S h cs F id tr (asks evs) t (core (co_raft c')) h' F' P')
    ∧ (∀ t1 t2 d1, t = t1 ++ t2 → let dv := apply_ops d (disk_ops t1) in cut dv d1 → manifest_kept d dv d1 →
       ∃ k' h' F' P', stopped_inv id k' (rows_within c evs rows) d1
         ∧ advanced S h cs F id tr (asks evs) t1 k' h' F' P').
Proof.
  intros Hw [(ws & Hin & Hok & Hroom) Hc Hid Hrep Hwt] Hrec [Hq Hsp].
  destruct (event_world V0 Hnd pok Hpok Hnoop _ _ _ _ _ _ _ Hw Hc Hid ltac:(apply Hok) Hrep Hrec)
    as (c1 & t0 & c2 & ta & h' & L' & P & P' & Heo); [by intros c1 t0 (? & _)%Hsp|].
  pose proof (event_cores_out _ _ _ _ _ _ _ _ _ _ _ _ _ _ _ Heo) as Hev.
  destruct (Hsp _ _ (eo_event _ _ _ _ _ _ _ _ _ _ _ _ _ _ _ _ _ Heo)) as (Hord & Hlast & Hbr).
  destruct (turn_runs D ws c d evs c1 t0 c2 ta) as (n & c' & t & Hx); try done; try apply Heo.
  { eapply Hbr; [apply Heo|done]. }
  assert (event_rows c evs ws = turn_rows c c1 c2 ws) as Her by (unfold event_rows; by rewrite Hev).
  destruct (turn_rows c c1 c2 ws) as [ws1 ws2].
  destruct Hx as (Hrun & Htd & Hok' & Hr1 & Hr2 & _ & Hsv).
  destruct (turn_out _ _ _ _ _ _ _ _ _ _ _ _ _ _ _ _ _ _ Heo Hwt Htd) as (Hw' & Hid' & Hcm & Hrep' & Hwt' & Hsend & Hans).
  assert (ws2 ∈ rows_after c evs rows) as Hin2 by (apply list_elem_of_fmap; exists ws; by rewrite Her).
  exists n, c', t. split; [done|]. split.
  - exists h', (update F id L'), P'. pose proof (eo_after _ _ _ _ _ _ _ _ _ _ _ _ _ _ _ _ _ Heo) as HP'.
    split; [split; [by exists ws2|done|done| |done]|].
    + simpl. by rewrite update_same, Hcm, <-HP'.
    + split; [apply Heo| | | | |done].
      * eapply world_inv_ext; [..|exact Hw']; [done| |done]. intros m [?|?]; [by left|right; by apply Hsend].
      * intros u Hu. by rewrite update_other.
      * destruct (committed_upto _ _ _ _ id Hw') as [T HT]. rewrite !update_same in HT. simpl in HT.
        exists T. by rewrite HP', <-Hcm.
      * simpl. by rewrite update_same, Hcm, <-HP'.
  - intros t1 t2 d1 Heq dv Hcut Hkp. destruct (Hsv t1 t2 d1 Heq Hcut Hkp) as (wsd & p & Hrcv & Hst).
    eapply (crashed S h cs F id c evs c1 t0 c2 ta h' L' P P' tr (rows_within c evs rows) ws ws1 ws2); try done;
      unfold rows_within; rewrite !elem_of_app; [by left| |by right; right].
    right. left. apply list_elem_of_fmap. exists ws. by rewrite Her.
Qed.

(** ** Opening *)

Lemma log_open_mono fuel fuel' d ls p fs :
  log_open fuel d = (Ok (ls, p), fs) → (fuel <= fuel')%nat → log_open fuel' d = (Ok (ls, p), fs).
Proof.
  unfold log_open. intros (db & fs1 & fs2 & H1 & H2 & ->)%io_bind_inv Hle.
  eapply io_bind_intro; [by eapply db_open_mono|exact H2].
Qed.

Lemma node_new_same cfg cfg' p : core (node_new cfg V0 p) = core (node_new cfg' V0 p).
Proof. by destruct (node_new_core V0 cfg p) as [-> _], (node_new_core V0 cfg' p) as [-> _]. Qed.

(** The state machine is restored from the snapshot, or emptied. *)
Lemma restored h id cfg p L (b : B) :
  node_inv V0 pok image_of h id (core (node_new cfg V0 p)) L → b_ok b →
  let '(data, applied) := match p_snapshot p with
    | Some snap => (s_data snap, s_last_index snap)
    | None => (sm_snapshot (sm_new (mkMem ∅)), 0)
    end in
  n_commit (node_new cfg V0 p) = applied ∧ N.of_nat (length (upto applied L)) = applied
  ∧ ∃ sm, sm_restore data (sm_new b) = Some sm ∧ sm_sim sm (sm_after (upto applied L)).
Proof.
  intros [_ _ _ (_ & Hlen & _) [_ Hsn]] Hb. destruct (node_new_core V0 cfg p) as (Hk & _). rewrite Hk in Hlen, Hsn.
  destruct (node_new_durable cfg V0 p) as (_ & _ & _ & Hcm). rewrite Hcm. simpl in *.
  assert (∀ a, image_of (upto a L) (sm_snapshot (sm_after (upto a L)))
    ∧ ∃ sm, sm_restore (sm_snapshot (sm_after (upto a L))) (sm_new b) = Some sm ∧ sm_sim sm (sm_after (upto a L))) as Hre.
  { intros a. split; [done|]. destruct (restore_snapshot_sim (sm_after (upto a L)) (sm_new b)) as (sm & Hr & Hs); [apply mem_ok|done|].
    exists sm. split; [done|]. destruct Hs as (? & ? & ? & ?). by split_and!. }
  destruct (p_snapshot p) as [s|]; simpl in *.
  - destruct Hsn as (_ & _ & _ & ->). split; [done|]. split; [rewrite length_take; lia|apply Hre].
  - split; [done|]. split; [done|]. exact (proj2 (Hre 0)).
Qed.

(** Opening succeeds, given enough turns. *)
Lemma opens ws p h id cfg L every peers b d :
  log_recovers D ws p d → room log_options D ws →
  node_inv V0 pok image_of h id (core (node_new cfg V0 p)) L → b_ok b →
  ∃ n, ∀ fuel, (n <= fuel)%nat → ∃ c fs, core_open fuel cfg V0 every peers b d = (Ok c, fs).
Proof.
  intros Hrec Hroom Hn0 Hb. destruct (log_open_spec D _ _ _ Hrec Hroom) as [n Hn]. exists n. intros fuel Hf.
  destruct (Hn fuel Hf) as (ls & fs & Hlo & _). unfold core_open.
  pose proof (restored _ _ _ _ _ _ Hn0 Hb) as Hre.
  assert (∀ f : LogStore * Persisted → IO (Server.Core B), (∃ c, f (ls, p) (apply_ops d fs) = (Ok c, [])) →
    ∃ c fs, (log_open fuel ≫= f) d = (Ok c, fs)) as Hbind.
  { intros f [c Hc]. exists c, (fs ++ []). by eapply io_bind_intro. }
  apply Hbind. destruct (match p_snapshot p with Some _ => _ | None => _ end) as [data applied].
  destruct Hre as (_ & _ & sm & -> & _). by eexists.
Qed.

(** Opening its directory puts a server back in order. *)
Lemma opened S h cs F tr rows d cfg every peers b fuel c fs :
  world cs S h F → stopped_inv (c_id cfg) (cs (c_id cfg)) rows d → b_ok b →
  core_open fuel cfg V0 every peers b d = (Ok c, fs) →
  running_inv (c_id cfg) tr (cs (c_id cfg)) (F (c_id cfg)) rows c (apply_ops d fs)
  ∧ core (co_raft c) = cs (c_id cfg)
  ∧ (∀ d1, outage d fs d1 → stopped_inv (c_id cfg) (cs (c_id cfg)) rows d1).
Proof.
  intros Hw (ws & p & Hin & Hrec & Hroom & Hk) Hb. unfold core_open.
  intros ([ls p'] & fs1 & fs2 & Hlo & Hrest & ->)%io_bind_inv.
  destruct (log_open_spec D _ _ _ Hrec Hroom) as [n Hn].
  destruct (Hn (Nat.max n fuel) ltac:(lia)) as (ls0 & fs0 & Hlo' & Hh & _ & Hcs).
  apply (log_open_mono _ (Nat.max n fuel)) in Hlo; [|lia]. rewrite Hlo' in Hlo. injection Hlo as <- <- <-.
  pose proof (wi_nodes _ _ _ _ _ _ _ Hw (c_id cfg)) as Hn0. rewrite Hk, (node_new_same _ cfg) in Hn0.
  pose proof (restored _ _ _ _ _ _ Hn0 Hb) as Hre.
  destruct (match p_snapshot p with Some _ => _ | None => _ end) as [data applied].
  destruct Hre as (Hcm & Hlen & sm & Hres & Hsim). rewrite Hres in Hrest. injection Hrest as <- <-.
  rewrite app_nil_r. destruct (node_new_durable cfg V0 p) as (Hd & Ho & _ & _).
  rewrite (node_new_same _ cfg) in Hk. split_and!.
  - split; simpl; [|done|by destruct (node_new_core V0 cfg p) as (_ & ? & _)| |].
    + exists ws. split; [done|]. split; [|done]. split; [by eapply node_inv_ok|]. simpl. by rewrite Hd.
    + rewrite Hk. simpl. rewrite Hcm. by split.
    + split; simpl; by intros ? ? ?%lookup_empty_Some.
  - done.
  - intros d1 Hd1. exists ws, p. split; [done|].
    split; [|by rewrite Hk, (node_new_same _ (config_new (c_id cfg) 0))].
    split; [by apply Hcs|by destruct Hrec as [_ ?]].
Qed.
End turns.

(** ** The invariant *)

Section invariant.
  Context {B : Type} {bk : Backend B} {bl : BackendLaws B}.
  Context {cc : Bincode Command} {lc : BincodeLaws Command}.
  Context {cp : Bincode SnapshotPayload} {lp : BincodeLaws SnapshotPayload}.
  Context {crc : Crc32} {cw : Bincode WalBatch} {ci : Bincode TableIndex} {cm : Bincode Manifest}.
  Context {lw : BincodeLaws WalBatch} {li : BincodeLaws TableIndex} {lm : BincodeLaws Manifest}.
  Context {ch : Bincode HardState} {ce : Bincode RaftTypes.Entry} {csn : Bincode Snapshot}.
  Context {lh : BincodeLaws HardState} {le : BincodeLaws RaftTypes.Entry} {lsn : BincodeLaws Snapshot}.
  Context (D : nat) (V0 : list NodeId) (Hnd : NoDup V0).
  Implicit Types c : Server.Core B.

Record system_inv (s : system B) h cs F (top : list RaftTypes.Entry) : Prop := {
  si_world : world_inv V0 (logged (sys_trace s)) image_of cs (λ m, m ∈ sys_sent s) h F;
  si_servers : ∀ id sv, sys_servers s !! id = Some sv → server_inv D V0 (sys_trace s) id (cs id) (F id) sv;
  si_top : ∃ T, committed_prefix V0 h T top;
  si_commit : ∀ id, upto (k_commit (cs id)) (F id) `prefix_of` top;
  si_answers : answers_placed top (sys_trace s);
}.

(** The payloads that may be in the log once the requests [ns] have reached
    server [id]. *)
Definition logged_with (s : system B) (id : NodeId) (ns : list note) : EntryPayload → Prop :=
  logged (sys_trace s ++ (pair id <$> ns)).

Lemma committed_logged pok h T P :
  history_ok V0 pok h → committed_prefix V0 h T P → Forall (λ e, pok (e_payload e)) P.
Proof.
  intros Hok [->|(t & k & o & l & _ & _ & Hl & HP)]; [constructor|].
  destruct (ho_leader_log _ _ _ Hok _ _ _ Hl) as (Hlok & _). apply Forall_forall. intros e [i Hi]%list_elem_of_lookup.
  eapply prefix_lookup_Some in Hi; [|exact HP]. apply lookup_take_Some in Hi as [Hi _].
  by destruct (Hlok _ _ Hi) as (_ & ? & _).
Qed.

(** Commands of the requests of a queue may be in the log once it is there. *)
Lemma arrives_received s id evs :
  Forall (arrives s id) evs → Forall (received (logged_with s id (asks evs)) (λ m, m ∈ sys_sent s) id) evs.
Proof.
  rewrite !Forall_forall. intros Har ev Hin. specialize (Har ev Hin). destruct ev as [|m|req tx]; [done|done|].
  intros cmd Hc Hs. exists cmd. split; [apply deserialize_serialize|]. split; [done|]. exists id, req, tx.
  split; [by apply asked_next|done].
Qed.

Lemma server_inv_more tr tr' id k L sv : server_inv D V0 tr id k L sv → server_inv D V0 (tr ++ tr') id k L sv.
Proof. destruct sv as [rows c d|]; [|done]. intros [? ? ? ? Hw]. split; try done. by apply waits_more. Qed.

(** When one server advances, the others stay as they were. *)
Lemma advance_inv s h cs F top id sv evs ns t k' h' F' P' :
  system_inv s h cs F top → ns = asks evs →
  advanced V0 (logged_with s id ns) (λ m, m ∈ sys_sent s) h cs F id (sys_trace s) ns t k' h' F' P' →
  server_inv D V0 (sys_trace s ++ (pair id <$> ns)) id k' (F' id) sv →
  ∃ top', top `prefix_of` top' ∧ system_inv (acts id sv t ns s) h' (update cs id k') F' top'.
Proof.
  intros [Hw Hsv [T HT] Hcm Ha] Hns [Hext Hw' Hoth [T' HT'] Hcm' Hans] Hsv'.
  apply (committed_prefix_ext V0 _ _ Hext) in HT.
  pose proof (wi_history _ _ _ _ _ _ _ Hw') as Hok'.
  assert (∃ top', top `prefix_of` top' ∧ P' `prefix_of` top' ∧ ∃ T, committed_prefix V0 h' T top') as (top' & H1 & H2 & H3).
  { destruct (committed_prefixes_agree V0 _ h' Hnd Hok' _ _ _ _ HT HT'); [exists P'|exists top]; eauto. }
  exists top'. split; [done|]. split; simpl; [| |done| |].
  - eapply world_inv_ext; [..|eapply world_inv_wider; [|exact Hw']]; [done| |done|].
    + by intros m [?|?]%elem_of_app; [left|right].
    + intros p. apply logged_more. rewrite fmap_app, app_assoc. intros x Hx. apply elem_of_app. by left.
  - intros u su. rewrite lookup_insert_Some, fmap_app, app_assoc. intros [[<- <-]|[Hne Hu]].
    + rewrite update_same. by apply server_inv_more.
    + rewrite update_other, Hoth by done. do 2 apply server_inv_more. by apply Hsv.
  - intros u. destruct (decide (u = id)) as [->|Hne].
    + rewrite update_same. by etrans.
    + rewrite update_other, Hoth by done. etrans; [apply Hcm|done].
  - subst ns. eapply answers_next; [by apply (answers_longer top)|exact H2|by eapply committed_logged|done].
Qed.

(** A step of one server that leaves the history alone. *)
Lemma rest_inv s h cs F top id sv :
  system_inv s h cs F top → server_inv D V0 (sys_trace s) id (cs id) (F id) sv →
  system_inv (acts id sv [] [] s) h cs F top.
Proof.
  intros [Hw Hsv HT Hcm Ha] Hsv'. split; simpl; rewrite ?app_nil_r; try done.
  intros u su. rewrite lookup_insert_Some. intros [[<- <-]|[_ Hu]]; [done|by apply Hsv].
Qed.
Lemma turn_same q fuel n c d c1 t1 c2 t2 :
  turn fuel q c d = (Some c1, t1) → (∀ fuel, (n <= fuel)%nat → turn fuel q c d = (Some c2, t2)) → c1 = c2 ∧ t1 = t2.
Proof.
  intros H1 H2. specialize (H2 (Nat.max fuel n) ltac:(lia)).
  apply (turn_steady q _ (Nat.max fuel n)) in H1; [|lia]. rewrite H1 in H2. by injection H2.
Qed.

(** The protocol at the start of a turn, with the requests on record. *)
Lemma asked_world s h cs F id ns :
  world_inv V0 (logged (sys_trace s)) image_of cs (λ m, m ∈ sys_sent s) h F →
  world_inv V0 (logged_with s id ns) image_of cs (λ m, m ∈ sys_sent s) h F.
Proof. apply world_inv_wider. intros p. apply logged_more. intros x Hx. apply elem_of_app. by left. Qed.

Lemma system_turn s h cs F top id rows c d evs :
  system_inv s h cs F top → sys_servers s !! id = Some (Running rows c d) → Forall (arrives s id) evs →
  accepts D rows c evs →
  ∃ n c' t, (∀ fuel, (n <= fuel)%nat → turn fuel evs c d = (Some c', t))
    ∧ (∃ h' cs' F' top', top `prefix_of` top'
        ∧ system_inv (acts id (Running (rows_after c evs rows) c' (apply_ops d (disk_ops t))) t (asks evs) s) h' cs' F' top')
    ∧ (∀ t1 t2 d1, t = t1 ++ t2 → let dv := apply_ops d (disk_ops t1) in cut dv d1 → manifest_kept d dv d1 →
       ∃ h' cs' F' top', top `prefix_of` top'
        ∧ system_inv (acts id (Stopped (rows_within c evs rows) d1) t1 (asks evs) s) h' cs' F' top').
Proof.
  intros Hinv Hs Har%arrives_received Hsp. pose proof Hinv as [Hw Hsv _ _ _].
  apply (asked_world _ _ _ _ id (asks evs)) in Hw.
  destruct (turn_world D V0 Hnd _ (logged_ok _) I _ _ _ _ _ _ _ _ _ _ Hw (Hsv _ _ Hs) Har Hsp)
    as (n & c' & t & Hrun & (h' & F' & P' & Hr & Had) & Hcr). exists n, c', t. split; [done|]. split.
  - destruct (advance_inv _ _ _ _ _ _ (Running (rows_after c evs rows) c' _) evs _ _ _ _ _ _ Hinv eq_refl Had Hr) as (top' & ? & ?).
    eauto 10.
  - intros t1 t2 d1 Heq dv Hcut Hkp. destruct (Hcr _ _ _ Heq Hcut Hkp) as (k1 & h1 & F1 & P1 & Hst & Had1).
    destruct (advance_inv _ _ _ _ _ _ (Stopped (rows_within c evs rows) d1) evs _ _ _ _ _ _ Hinv eq_refl Had1 Hst) as (top' & ? & ?).
    eauto 10.
Qed.

Lemma system_step_inv s h cs F top s' :
  system_inv s h cs F top → system_step D V0 s s' →
  ∃ h' cs' F' top', top `prefix_of` top' ∧ system_inv s' h' cs' F' top'.
Proof.
  intros Hinv Hstep. pose proof Hinv as [Hw Hsv _ _ _].
  destruct Hstep as [id rows c d evs fuel c' t Hs Har Hsp Hrun|id rows c d evs fuel c' t t1 t2 d1 Hs Har Hsp Hrun Heq Hcut Hkp
    |id rows c d d1 Hs Hcut|rows d cfg every peers b fuel c fs Hs Hb Ho|rows d cfg every peers b fuel c fs d1 Hs Hb Ho Hd1];
    pose proof (Hsv _ _ Hs) as Hi; simpl in Hi.
  - destruct (system_turn _ _ _ _ _ _ _ _ _ _ Hinv Hs Har Hsp) as (n & c2 & t' & Hrun' & Hend & _).
    destruct (turn_same _ _ _ _ _ _ _ _ _ Hrun Hrun') as [<- <-]. done.
  - destruct (system_turn _ _ _ _ _ _ _ _ _ _ Hinv Hs Har Hsp) as (n & c2 & t' & Hrun' & _ & Hcr).
    destruct (turn_same _ _ _ _ _ _ _ _ _ Hrun Hrun') as [<- <-]. by apply (Hcr _ t2).
  - destruct Hi as [(ws & Hin & (_ & _ & Hh) & Hroom) Hc _ _ _]. apply (asked_world _ _ _ _ id []) in Hw.
    assert (world_inv V0 (logged_with s id []) image_of (update cs id (core (co_raft c))) (λ m, m ∈ sys_sent s) h F) as Hw0.
    { eapply world_inv_ext; [..|exact Hw]; [|done|done]. intros u. unfold update. by destruct (decide _) as [->|]. }
    destruct (restarted _ _ _ _ _ _ _ _ _ _ _ d1 Hw0 Hin (log_rest D _ _ _ _ _ Hh Hcut) Hroom) as (k & Hk & Hwk & Hpre).
    destruct (advance_inv s h cs F top id (Stopped rows d1) [] [] [] k h F (upto (k_commit (cs id)) (F id)))
      as (top' & ? & ?); [done|done| |done|eauto 10].
    split; [apply extends_refl| |done|by eapply committed_upto|by rewrite <-Hc|by intros tx r ?%elem_of_nil].
    eapply world_inv_ext; [..|exact Hwk]; [done| |done]. intros m [?|?%elem_of_nil]; done.
  - destruct (opened _ _ _ _ _ _ _ (sys_trace s) _ _ _ _ _ _ _ _ _ Hw Hi Hb Ho) as (Hr & _ & _).
    exists h, cs, F, top. split; [done|]. by apply rest_inv.
  - destruct (opened _ _ _ _ _ _ _ (sys_trace s) _ _ _ _ _ _ _ _ _ Hw Hi Hb Ho) as (_ & _ & Hst).
    exists h, cs, F, top. split; [done|]. apply rest_inv; [done|]. by apply Hst.
Qed.

Lemma system_run_inv s h cs F top s' :
  system_inv s h cs F top → rtc (system_step D V0) s s' →
  ∃ h' cs' F' top', top `prefix_of` top' ∧ system_inv s' h' cs' F' top'.
Proof.
  intros Hinv Hr. revert h cs F top Hinv. induction Hr as [s|s s1 s2 Hs _ IH]; intros h cs F top Hinv; [eauto 10|].
  destruct (system_step_inv _ _ _ _ _ _ Hinv Hs) as (h1 & cs1 & F1 & top1 & Hp1 & Hinv1).
  destruct (IH _ _ _ _ Hinv1) as (h2 & cs2 & F2 & top2 & Hp2 & Hinv2).
  exists h2, cs2, F2, top2. split; [by trans top1|done].
Qed.

Lemma fresh_system_inv s :
  (1 <= D)%nat → fresh_system s → system_inv s init_history (λ _, init_core V0) (λ _, []) [].
Proof.
  intros HD (Hs & Ht & Hsv). split; [| |exists 0; by left|done|rewrite Ht; by intros i id tx r ?].
  - eapply world_inv_ext; [..|apply init_world]; [done| |done]. intros m. rewrite Hs. apply not_elem_of_nil.
  - intros id sv Hid. rewrite (Hsv _ _ Hid). exists [], default_persisted. split_and!; [by left| | |].
    + apply empty_log_recovers.
    + by apply room_nil.
    + by destruct (node_new_core V0 (config_new id 0) default_persisted) as [-> _].
Qed.

(** ** The theorems *)

(** The log [L] explains every state machine and every answer. *)
Definition explained_system (L : list RaftTypes.Entry) (s : system B) : Prop :=
  (∀ id rows c d, sys_servers s !! id = Some (Running rows c d) →
     co_applied c ≤ N.of_nat (length L) ∧ replica (upto (co_applied c) L) c)
  ∧ answers_explained L (sys_trace s).

Lemma system_inv_explained s h cs F top : system_inv s h cs F top → explained_system top s.
Proof.
  intros [_ Hsv _ Hcm Ha%answers_placed_explained]. split; [|done]. intros id rows c d Hs.
  destruct (Hsv _ _ Hs) as [_ _ _ Hrep _]. pose proof Hrep as [_ Happ]. destruct (Hcm id) as [x Hx].
  rewrite Hx, length_app. split; [lia|]. rewrite take_app_le by lia. rewrite take_ge by lia. done.
Qed.


End invariant.

(** ** A concrete run *)

Section concrete_cluster.
  #[local] Existing Instances end_crc demo_wal_codec demo_table_codec demo_catalog_codec.
  #[local] Existing Instances demo_wal_laws demo_table_laws demo_catalog_laws.
  #[local] Existing Instances demo_hs_codec demo_entry_codec demo_snap_codec.
  #[local] Existing Instances demo_hs_laws demo_entry_laws demo_snap_laws demo_cmd_codec demo_payload_codec.
#[local] Instance demo_cmd_laws : BincodeLaws Command := countable_bincode_laws Command.
#[local] Instance demo_image_laws : BincodeLaws SnapshotPayload := countable_bincode_laws SnapshotPayload.

(** A cluster of one server with a short election timeout: its first tick elects
    it, then a client writes and another one reads what is there. *)
Definition solo_cfg : Config := mkConfig 1 1 2 1 64 10 true 7.
Definition solo : system MemBackend := mkSystem {[1 := Stopped [[]] ∅]} [] [].
Definition solo_queue : list Event := [EvClient (ReqPut 5 1 [x61] [x62]) 0; EvClient (ReqGet [x61] Stale) 1].

(** The rows of the election and of the write. *)
Definition elected_rows : list write :=
  [(KEY_HS, Some (serialize (mkHS 1 (Some 1)))); (entry_key 1, Some (serialize (mkEntry 1 1 Noop)))].
Definition solo_entry : RaftTypes.Entry := mkEntry 1 2 (Normal (cmd_encode (mkCmd 5 1 (Put [x61] [x62])))).
Definition put_row : write := (entry_key 2, Some (serialize solo_entry)).

(** Their versions, in key order. *)
Definition solo_versions : list Memtable.Entry :=
  [(entry_key 1, 2, Some (serialize (mkEntry 1 1 Noop))); (put_row.1, 3, put_row.2);
   (KEY_HS, 1, Some (serialize (mkHS 1 (Some 1))))].

Lemma versions_of_three (a b c : write) e :
  version [a; b; c] e → e = (a.1, 1, a.2) ∨ e = (b.1, 2, b.2) ∨ e = (c.1, 3, c.2).
Proof. destruct e as [[k s] v]. intros ([|[|[|i]]] & Hi & Hs); simplify_eq/=; auto. Qed.

Lemma solo_room : room log_options 1 (elected_rows ++ [put_row]).
Proof.
  apply (room_listing _ _ _ solo_versions 100000); try (vm_compute; done).
  - repeat constructor; vm_compute; reflexivity.
  - intros e [->|[->| ->]]%versions_of_three; [do 2 right; left|left|right; left].
Qed.

(** Time then passes. *)
Definition solo_later : list Event := replicate 50 EvTick.

(** What the run does, step by step. *)
Definition solo_core : IO (Server.Core MemBackend) := core_open 10 solo_cfg [1] 100 ∅ (mkMem ∅).

Definition one_batch (c : Server.Core MemBackend) (evs : list Event) (new : list RaftTypes.Entry) (rows : list write)
    : Prop :=
  match each handle_event evs c with
  | (Some c1, _) =>
    let out := n_out (co_raft c1) in
    (RL.last_index (n_log (co_raft c1)) <? 2 ^ 64) = true
    ∧ o_snapshot out = None ∧ o_append out = new
    ∧ persist_write out = Some (Persist out) ∧ (rows_of (Persist out) (co_log c)).1.1 = rows
    ∧ match apply_output out (drain c1) with (Some c2, _) => compact_write c2 = None | _ => False end
  | _ => False
  end.

(** A queue that gives the log store nothing to do. *)
Definition no_batch (c : Server.Core MemBackend) (evs : list Event) : Prop :=
  match each handle_event evs c with
  | (Some c1, _) =>
    let out := n_out (co_raft c1) in
    (RL.last_index (n_log (co_raft c1)) <? 2 ^ 64) = true ∧ out_is_empty out = true
    ∧ match apply_output out (drain c1) with (Some c2, _) => compact_write c2 = None | _ => False end
  | _ => False
  end.

Lemma solo_computes :
  match solo_core ∅ with
  | (Ok c0, fs) =>
    let d0 := apply_ops ∅ fs in
    entries (n_log (co_raft c0)) = [] ∧ one_batch c0 [EvTick] [mkEntry 1 1 Noop] elected_rows ∧
    match turn 10 [EvTick] c0 d0 with
    | (Some c1, t1) =>
      entries (n_log (co_raft c1)) = [mkEntry 1 1 Noop] ∧ waiting c1 = []
      ∧ one_batch c1 solo_queue [solo_entry] [put_row] ∧
      match turn 10 solo_queue c1 (apply_ops d0 (disk_ops t1)) with
      | (Some c2, t2) => visible t1 = [] ∧ visible t2 = [Reply 1 (RespValue None); Reply 0 RespOk]
        ∧ entries (n_log (co_raft c2)) = [mkEntry 1 1 Noop; solo_entry] ∧ no_batch c2 solo_later
      | _ => False
      end
    | _ => False
    end
  | _ => False
  end.
Proof. vm_compute. split_and!; reflexivity. Qed.

Lemma one_batch_takes c evs new rows ws :
  one_batch c evs new rows → whole evs → continues (entries (n_log (co_raft c))) new →
  room log_options 1 (ws ++ rows) → fits (mkBatch (N.of_nat (length ws) + 1) rows) →
  accepts 1 [ws] c evs ∧ rows_after c evs [ws] = [ws ++ rows].
Proof.
  unfold one_batch, accepts, rows_after, event_rows, event_cores. intros Hb Hq Hcont Hroom Hfits.
  destruct (each handle_event evs c) as [[c1|] t0]; [|done]. cbv zeta in Hb.
  destruct Hb as (Hl & Hs & Hn & Hp & Hr & Hc).
  destruct (apply_output (n_out (co_raft c1)) (drain c1)) as [[c2|] ta] eqn:Hap; [|done]. split; [split; [done|]|].
  - intros c1' t0' [= <- <-]. split; [right; split; [done|]; unfold single_run; by rewrite Hs, Hn|].
    split; [by apply N.ltb_lt|]. rewrite Hap. intros c2' ta' ws' [= <- <-] ->%list_elem_of_singleton.
    unfold batch_room. rewrite Hc, Hp. split; [|by destruct (rows_opt _ _ _)]. unfold spacious. by rewrite Hr.
  - csimpl. unfold turn_rows, batch_rows. rewrite Hp, Hc. unfold rows_opt.
    destruct (rows_of _ _) as [[ops f] l] eqn:Ho. simpl in Hr. subst ops.
    destruct (out_is_empty _) eqn:He; [|done]. apply empty_output in He. by rewrite He in Hp.
Qed.

Lemma no_batch_takes c evs ws :
  no_batch c evs → whole evs → continues (entries (n_log (co_raft c))) [] → accepts 1 [ws] c evs.
Proof.
  unfold no_batch, accepts. intros Hb Hq Hcont. destruct (each handle_event evs c) as [[c1|] t0]; [|done].
  destruct Hb as (Hl & He%empty_output & Hc). rewrite He in Hc. split; [done|].
  intros c1' t0' [= <- <-]. rewrite He. destruct (apply_output default_out (drain c1)) as [[c2|] ta]; [|done].
  split; [right; unfold single_run; by rewrite He|]. split; [by apply N.ltb_lt|]. intros c2' ta' ws' [= <- <-] ->%list_elem_of_singleton. unfold batch_room. by rewrite Hc.
Qed.

(** What is then on record. *)
Definition solo_trace : list (NodeId * note) :=
  [(1, Asked (ReqPut 5 1 [x61] [x62]) 0); (1, Asked (ReqGet [x61] Stale) 1);
   (1, Did (Reply 1 (RespValue None))); (1, Did (Reply 0 RespOk))].

(** The server opens and is elected; the write and the read are then taken
    together, and answered; it can then take the ticks that follow. *)
Lemma solo_runs :
  ∃ s1 c d c' t, let sv := Running [elected_rows ++ [put_row]] c' (apply_ops d (disk_ops t)) in
    rtc (system_step 1 [1]) solo s1 ∧ sys_servers s1 !! 1 = Some (Running [elected_rows] c d)
    ∧ accepts 1 [elected_rows] c solo_queue ∧ turn 10 solo_queue c d = (Some c', t)
    ∧ rows_after c solo_queue [elected_rows] = [elected_rows ++ [put_row]]
    ∧ sys_trace (acts 1 sv t (asks solo_queue) s1) = solo_trace
    ∧ waiting c = [] ∧ accepts 1 [elected_rows ++ [put_row]] c' solo_later.
Proof.
  pose proof solo_computes as Hrun. destruct (solo_core ∅) as [[c0|] fs] eqn:Ho; [|done]. cbv zeta in Hrun.
  destruct Hrun as (He1 & Hb1 & Hrun). destruct (turn 10 [EvTick] c0 _) as [[c1|] t1] eqn:H1; [|done].
  destruct Hrun as (He2 & Hwt & Hb2 & Hrun). destruct (turn 10 solo_queue c1 _) as [[c2|] t2] eqn:H2; [|done].
  destruct (one_batch_takes _ _ _ _ [] Hb1) as [Hr1 Ha1]; [split; [done|simpl; lia]| |eapply room_app, solo_room|vm_compute; done|].
  { rewrite He1. exists 1, 1. split_and!; [by intros ? ? ?| |done|done].
    apply consecutive_cons. split; [done|by intros ? ? ?]. }
  destruct (one_batch_takes _ _ _ _ elected_rows Hb2) as [Hr2 Ha2]; [split; [done|simpl; lia]| |exact solo_room|vm_compute; done|].
  { rewrite He2. exists 1, 2. split_and!; [| |done|done]; (apply consecutive_cons; split; [done|by intros ? ? ?]). }
  set (s0' := acts 1 (Running [[]] c0 (apply_ops ∅ fs)) [] [] solo).
  assert (system_step 1 [1] solo s0') as Hs0.
  { apply (sys_open 1 [1] solo [[]] ∅ solo_cfg 100 ∅ (mkMem ∅) 10 c0 fs); [done|done|exact Ho]. }
  assert (sys_servers s0' !! 1 = Some (Running [[]] c0 (apply_ops ∅ fs))) as Hl0 by apply lookup_insert_eq.
  pose proof (sys_turn 1 [1] s0' 1 _ _ _ [EvTick] 10 c1 t1 Hl0 ltac:(by repeat constructor) Hr1 H1) as Hs1.
  rewrite Ha1 in Hs1. set (s1 := acts 1 (Running _ c1 _) t1 _ s0') in Hs1.
  assert (sys_servers s1 !! 1 = Some (Running [elected_rows] c1 (apply_ops (apply_ops ∅ fs) (disk_ops t1)))) as Hl1
    by apply lookup_insert_eq.
  destruct Hrun as (Hv1 & Hv2 & He3 & Hno).
  exists s1, c1, (apply_ops (apply_ops ∅ fs) (disk_ops t1)), c2, t2.
  split_and!; [|exact Hl1|exact Hr2|exact H2|exact Ha2| |exact Hwt|].
  - eapply rtc_l; [exact Hs0|]. eapply rtc_l; [exact Hs1|]. done.
  - simpl. by rewrite Hv1, Hv2.
  - apply no_batch_takes; [exact Hno|split; [discriminate|simpl; lia]|]. rewrite He3. exists 1, 3.
    clear Hno. split_and!; [|by intros ? ? ?|done|done]. do 2 (apply consecutive_cons; split; [done|]). by intros ? ? ?.
Qed.

Lemma solo_served :
  ∃ s1 s2 c d, rtc (system_step 1 [1]) solo s1 ∧ system_step 1 [1] s1 s2
    ∧ sys_servers s1 !! 1 = Some (Running [elected_rows] c d) ∧ accepts 1 [elected_rows] c solo_queue
    ∧ sys_trace s2 = solo_trace.
Proof.
  destruct solo_runs as (s1 & c & d & c' & t & H1 & Hl & Hr & Ht & Ha & Htr & _).
  pose proof (sys_turn 1 [1] s1 1 _ _ _ solo_queue 10 c' t Hl ltac:(by repeat constructor) Hr Ht) as Hs.
  rewrite Ha in Hs. by eexists s1, _, c, d.
Qed.

Lemma solo_fresh : fresh_system solo.
Proof. split_and!; [done..|]. intros id sv. simpl. by intros [_ <-]%lookup_singleton_Some. Qed.


End concrete_cluster.
