(* ===== verification/ServerLive.v ===== *)
(** * No client request is lost

    The event loop of crates/server/src/core.rs in the cluster of servers: while a
    server is up, its loop goes on with every queue of events that it can take, and
    each client request is answered, dropped (the connection task then tells the
    client to retry) or still waiting, and waits for at most
    [PENDING_TIMEOUT_TICKS] ticks. *)

From stdpp Require Import strings.
From S2P Require Import Prelude Order Codec Fs Wal Bloom Memtable SsTable SsTableFacts.
From S2P Require Import MergeIter Manifest Db LsmSpec DbRead DbCompact DbInv DbOps DbEngine DbProps.
From S2P Require Import RaftTypes RaftLog RaftLogFacts RaftNode RaftNodeFacts RaftNodeInv RaftProps RaftHistory.
From S2P Require Import RaftProtocol ProtocolSafety RaftRefine NodeSafety Kvsm SimCluster Durability Cluster.
From S2P Require Import LogStore Proto Client Replica Server ServerRequests ServerDurable ServerReplica ServerCluster.
Local Open Scope N_scope.

Section live.
  Context {B : Type} {bk : Backend B} {bl : BackendLaws B}.
  Context {cc : Bincode Command} {lc : BincodeLaws Command}.
  Context {cp : Bincode SnapshotPayload} {lp : BincodeLaws SnapshotPayload}.
  Context {crc : Crc32} {cw : Bincode WalBatch} {ci : Bincode TableIndex} {cm : Bincode Manifest}.
  Context {lw : BincodeLaws WalBatch} {li : BincodeLaws TableIndex} {lm : BincodeLaws Manifest}.
  Context {ch : Bincode HardState} {ce : Bincode RaftTypes.Entry} {csn : Bincode Snapshot}.
  Context {lh : BincodeLaws HardState} {le : BincodeLaws RaftTypes.Entry} {lsn : BincodeLaws Snapshot}.
  Context (D : nat) (V0 : list NodeId) (Hnd : NoDup V0).
  Implicit Types s : system B.

(** A step of the others: server [id] stays as it is, and nothing is on record of it. *)
Definition apart (id : NodeId) s s' : Prop :=
  sys_servers s' !! id = sys_servers s !! id
  ∧ ∃ tr, sys_trace s' = sys_trace s ++ tr ∧ Forall (λ n, n.1 ≠ id) tr.

(** The part of a run in which server [id] stays up, takes the queues [qs] one
    after the other and does [t], while the others do what they like. *)
Inductive serving (id : NodeId) : list (list Event) → list Server.action → system B → system B → Prop :=
| serving_nil s : serving id [] [] s s
| serving_turn s rows c d evs fuel c' t qs t' s' :
    sys_servers s !! id = Some (Running rows c d) → Forall (arrives s id) evs → accepts D rows c evs →
    turn fuel evs c d = (Some c', t) →
    serving id qs t' (acts id (Running (rows_after c evs rows) c' (apply_ops d (disk_ops t))) t (asks evs) s) s' →
    serving id (evs :: qs) (t ++ t') s s'
| serving_other s s1 qs t s' :
    system_step D V0 s s1 → apart id s s1 → serving id qs t s1 s' → serving id qs t s s'.

Lemma serving_app id qs1 qs2 t1 t2 s s1 s2 :
  serving id qs1 t1 s s1 → serving id qs2 t2 s1 s2 → serving id (qs1 ++ qs2) (t1 ++ t2) s s2.
Proof.
  induction 1 as [s|s rows c d evs fuel c' t qs t' s' H1 H2 H3 H4 _ IH|s s1 qs t s' H1 H2 _ IH]; intros Hnext; [done|..].
  - rewrite <-app_assoc. simpl. eapply serving_turn; [done..|]. by apply IH.
  - eapply serving_other; [done..|]. by apply IH.
Qed.

Lemma serving_steps id qs t s s' : serving id qs t s s' → rtc (system_step D V0) s s'.
Proof.
  induction 1 as [s|s rows c d evs fuel c' t qs t' s' H1 H2 H3 H4 _ IH|s s1 qs t s' H1 H2 _ IH]; [done|..].
  - eapply rtc_l; [by eapply sys_turn|done].
  - by eapply rtc_l.
Qed.

Lemma batch_whole evs : whole evs → batch evs = evs.
Proof. intros [_ Hl]. unfold batch. apply take_ge. lia. Qed.

(** The server is up at the end, its loop has run over the queues, and the
    accounts of its requests are balanced. *)
Lemma serving_runs id qs t s s' rows c d :
  serving id qs t s s' → sys_servers s !! id = Some (Running rows c d) →
  ∃ n rows' c' d', sys_servers s' !! id = Some (Running rows' c' d')
    ∧ (∀ fuel, (n <= fuel)%nat → run fuel qs c d = (Some c', t))
    ∧ accounts (asked (concat qs)) (ticks (concat qs)) c c' t.
Proof.
  intros Hsv. revert rows c d.
  induction Hsv as [s|s rows c d evs fuel c1 t qs t' s' H1 H2 [Hwh H3] H4 _ IH|s s1 qs t s' _ [Hsame _] _ IH];
    intros rows0 c0 d0 Hs.
  - exists 0%nat, rows0, c0, d0. split_and!; [done|done|]. by apply accounts_same.
  - rewrite H1 in Hs. injection Hs as <- <- <-.
    destruct (IH _ _ _ (lookup_insert_eq _ _ _)) as (n & rows' & c' & d' & Hs' & Hrun & Hac).
    exists (Nat.max n fuel), rows', c', d'. split_and!; [done| |].
    + intros f Hf. cbn [run]. eapply seq_act_intro; [eapply turn_steady; [|exact H4]; lia|]. apply Hrun. lia.
    + simpl. rewrite asked_app, ticks_app. eapply accounts_trans; [|exact Hac].
      pose proof (turn_accounted fuel evs c d c1 t H4) as Ha. by rewrite batch_whole in Ha.
  - by apply IH with rows0; rewrite Hsame.
Qed.

(** C14: every client request gets one outcome, in time. Take a server of a cluster
    that the runs of [system_step] reach from empty directories, without waiting
    requests, as it is when it opens. While it stays up it takes in the queues [qs1]
    and then [qs2], each one that its log store can take, the requests having
    distinct senders, and the other servers do what they like. Its loop runs over
    these queues to their end, given enough turns for the engine. Nothing is lost:
    the requests taken in are exactly those answered or dropped together with those
    that still wait. Once the queues [qs2] have carried 50 ticks, every request of
    [qs1] has been answered or dropped, exactly once. And whatever it has taken in,
    its loop goes on with every further queue that can reach it and that its log
    store can take: the turn ends. *)
Theorem requests_settled_in_time s0 s id rows c d qs1 qs2 t1 t2 s1 s2 :
  (1 <= D)%nat → fresh_system s0 → rtc (system_step D V0) s0 s →
  sys_servers s !! id = Some (Running rows c d) → waiting c = [] →
  serving id qs1 t1 s s1 → serving id qs2 t2 s1 s2 → NoDup (asked (concat (qs1 ++ qs2))) →
  ∃ n rows' c' d', sys_servers s2 !! id = Some (Running rows' c' d')
    ∧ (∀ fuel, (n <= fuel)%nat → run fuel (qs1 ++ qs2) c d = (Some c', t1 ++ t2))
    ∧ asked (concat (qs1 ++ qs2)) ≡ₚ settled (t1 ++ t2) ++ waiting c'
    ∧ (PENDING_TIMEOUT_TICKS ≤ ticks (concat qs2) → ∀ tx, tx ∈ asked (concat qs1) → settled_once (t1 ++ t2) tx)
    ∧ ∀ evs, Forall (arrives s2 id) evs → accepts D rows' c' evs →
        ∃ m c'' t, (∀ fuel, (m <= fuel)%nat → turn fuel evs c' d' = (Some c'', t))
          ∧ ∃ s3, serving id [evs] t s2 s3.
Proof.
  intros HD Hf Hr Hs Hw H1 H2 Hdis.
  destruct (serving_runs _ _ _ _ _ _ _ _ H1 Hs) as (n1 & rows1 & c1 & d1 & Hs1 & _ & Ha1).
  destruct (serving_runs _ _ _ _ _ _ _ _ H2 Hs1) as (n2 & rows2 & c2 & d2 & Hs2 & _ & Ha2).
  pose proof (serving_app _ _ _ _ _ _ _ _ H1 H2) as H12.
  destruct (serving_runs _ _ _ _ _ _ _ _ H12 Hs) as (n & rows3 & c3 & d3 & Hs3 & Hrun & _).
  rewrite Hs2 in Hs3. injection Hs3 as <- <- <-. rewrite concat_app, asked_app in *.
  destruct (accounts_settled _ _ _ _ _ _ _ _ _ Hw Ha1 Ha2 Hdis) as [Hbal Hset].
  exists n, rows2, c2, d2. split_and!; [done..|]. intros evs Har Hacc.
  assert (rtc (system_step D V0) s0 s2) as Hreach by (etrans; [exact Hr|exact (serving_steps _ _ _ _ _ H12)]).
  destruct (system_run_inv _ _ Hnd _ _ _ _ _ _ (fresh_system_inv _ V0 _ HD Hf) Hreach) as (h & cs & F & L & _ & Hi).
  destruct (system_turn _ _ Hnd _ _ _ _ _ _ _ _ _ _ Hi Hs2 Har Hacc) as (m & c' & t & Ht & _).
  exists m, c', t. split; [done|].
  pose proof (serving_turn _ _ _ _ _ evs m c' t [] [] _ Hs2 Har Hacc (Ht m (le_n m)) (serving_nil _ _)) as Hnext.
  rewrite app_nil_r in Hnext. by eexists.
Qed.
End live.

(** ** A concrete server *)

Section concrete_live.
  #[local] Existing Instances end_crc demo_wal_codec demo_table_codec demo_catalog_codec.
  #[local] Existing Instances demo_wal_laws demo_table_laws demo_catalog_laws.
  #[local] Existing Instances demo_hs_codec demo_entry_codec demo_snap_codec.
  #[local] Existing Instances demo_hs_laws demo_entry_laws demo_snap_laws demo_cmd_codec demo_payload_codec.
  #[local] Existing Instances demo_cmd_laws demo_image_laws.

(** The server of [solo_runs] takes a write and a read, and then 50 ticks. *)
Lemma requests_settled_in_time_witness :
  ∃ (c : Server.Core MemBackend) d n c' t,
    (∀ fuel, (n <= fuel)%nat → run fuel [solo_queue; solo_later] c d = (Some c', t))
    ∧ settled_once t 0 ∧ settled_once t 1.
Proof.
  destruct solo_runs as (s1 & c & d & c1 & t & H1 & Hl & Hr & Ht & Ha & _ & Hw & Hr2).
  set (sv := Running [elected_rows ++ [put_row]] c1 (apply_ops d (disk_ops t))). set (s2 := acts 1 sv t (asks solo_queue) s1).
  assert (serving 1 [1] 1 [solo_queue] (t ++ []) s1 s2) as Hsv.
  { eapply serving_turn; [exact Hl|by repeat constructor|exact Hr|exact Ht|]. rewrite Ha. apply serving_nil. }
  assert (NoDup (asked (concat ([solo_queue] ++ [])))) as Hd by (apply (bool_decide_unpack _); vm_compute; exact I).
  assert (∃ t2 s3, serving 1 [1] 1 [solo_later] t2 s2 s3) as (t2 & s3 & Hsv2).
  { destruct (requests_settled_in_time 1 [1] (NoDup_singleton 1) solo s1 1 _ c d [solo_queue] [] _ _ s2 s2
      (le_n 1) solo_fresh H1 Hl Hw Hsv (serving_nil _ _ _ _) Hd) as (_ & rows & c2 & d2 & Hs2 & _ & _ & _ & Hgo).
    unfold s2 in Hs2. simpl in Hs2. rewrite lookup_insert_eq in Hs2. injection Hs2 as <- <- <-.
    destruct (Hgo solo_later) as (_ & _ & t' & _ & s3 & Hs3); [|exact Hr2|by exists t', s3].
    by apply Forall_replicate. }
  destruct (requests_settled_in_time 1 [1] (NoDup_singleton 1) solo s1 1 _ c d [solo_queue] [solo_later] _ _ s2 s3
    (le_n 1) solo_fresh H1 Hl Hw Hsv Hsv2) as (n & rows & c2 & d2 & _ & Hrun & _ & Hset & _).
  { apply (bool_decide_unpack _). vm_compute. exact I. }
  exists c, d, n, c2, ((t ++ []) ++ t2). split; [exact Hrun|].
  split; (apply Hset; [vm_compute; discriminate|]); apply list_elem_of_In; simpl; auto.
Defined.
End concrete_live.
