(* ===== verification/Linear.v ===== *)
(** * Writes of the cluster are linearizable

    The commands of the committed log that take effect are a sequential execution
    of the writes that clients asked for: each is there at most once, the commands
    of a session in its order, each answered write at a place where its answer is
    that of the sequential execution, and after everything that was answered
    before it was asked for. The composition of crates/kvsm/src/lib.rs, the event
    loop of crates/server/src/core.rs, the raft core and the log store, over every
    run of the cluster of servers. *)

From stdpp Require Import strings.
From S2P Require Import Prelude Order Codec Fs Wal Bloom Memtable SsTable SsTableFacts.
From S2P Require Import MergeIter Manifest Db LsmSpec DbRead DbCompact DbInv DbOps DbEngine DbProps.
From S2P Require Import RaftTypes RaftLog RaftLogFacts RaftNode RaftNodeFacts RaftNodeInv RaftProps RaftHistory.
From S2P Require Import RaftProtocol ProtocolSafety RaftRefine NodeSafety Kvsm SimCluster Durability Cluster.
From S2P Require Import LogStore Proto Client Replica Server ServerRequests ServerDurable ServerReplica ServerCluster.
Local Open Scope N_scope.

(** ** Sequential executions *)

(** The contents after the first [k] commands. *)
Definition contents (W : list Command) (k : nat) : gmap bytes bytes := foldl kv_exec ∅ (cmd_op <$> take k W).

(** The answer that the command at [k] deserves. *)
Definition answer_at (W : list Command) (k : nat) (cmd : Command) : OpResult := kv_answer (contents W k) (cmd_op cmd).

Definition read_answer (rr : ReadReq) (m : gmap bytes bytes) : Response :=
  match rr with
  | ReadGet key => RespValue (m !! key)
  | ReadScan start end_ limit => RespKvs (take (N.to_nat limit) (kv_range m start end_))
  end.

Definition cmd_key (c : Command) : N * N := (cmd_session_id c, cmd_seq c).

Lemma contents_app W W' k : (k <= length W)%nat → contents (W ++ W') k = contents W k.
Proof. intros Hk. unfold contents. by rewrite take_app_le. Qed.

Lemma answer_at_app W W' k c cmd : W !! k = Some c → answer_at (W ++ W') k cmd = answer_at W k cmd.
Proof. intros Hk%lookup_lt_Some. unfold answer_at. by rewrite contents_app by lia. Qed.

(** ** The answers of the state machine *)

Section answers.
  Implicit Types cmds : list Command.

Lemma effective_app seen l1 l2 :
  effective seen (l1 ++ l2) = effective seen l1 ++ effective (foldl see seen l1) l2.
Proof. revert seen. induction l1 as [|c l1 IH]; intros seen; simpl; [done|]. by rewrite IH, app_assoc. Qed.

(** The state machine after [cmds]. *)
Definition ran cmds : StateMachine MemBackend := (apply_log cmds new_sm).1.

Lemma ran_snoc cmds c : ran (cmds ++ [c]) = (apply c (ran cmds)).1.
Proof. unfold ran. rewrite apply_log_app. simpl. by destruct (apply c _). Qed.

Lemma ran_seen cmds : seen_of (ran cmds) = foldl see ∅ cmds.
Proof.
  induction cmds as [|c cmds IH] using rev_ind; [apply fmap_empty|].
  rewrite ran_snoc, foldl_app. simpl. rewrite <-IH. by apply apply_spec, mem_ok.
Qed.

Lemma ran_contents cmds : b_map (sm_backend (ran cmds)) = contents (effective ∅ cmds) (length (effective ∅ cmds)).
Proof.
  unfold ran, contents. destruct (apply_log_effective cmds new_sm (mem_ok _)) as [_ ->].
  rewrite firstn_all. unfold seen_of. simpl. by rewrite fmap_empty.
Qed.

Lemma effective_snoc cmds c :
  effective ∅ (cmds ++ [c]) = effective ∅ cmds ++ (if fresh (seen_of (ran cmds)) c then [c] else []).
Proof. rewrite effective_app, ran_seen. simpl. by rewrite app_nil_r. Qed.

(** What the session table caches is the answer to the last command of the
    session that took effect. *)
Lemma session_recorded cmds sid s :
  sm_sessions (ran cmds) !! sid = Some s →
  ∃ k d, effective ∅ cmds !! k = Some d ∧ cmd_key d = (sid, ss_last_seq s)
    ∧ ss_last_result s = answer_at (effective ∅ cmds) k d.
Proof.
  revert sid s. induction cmds as [|c cmds IH] using rev_ind; intros sid s; [done|].
  rewrite ran_snoc, effective_snoc. destruct (apply_spec c (ran cmds) (mem_ok _)) as (_ & _ & Hcase).
  assert (∀ e, sm_sessions (ran cmds) !! sid = Some s →
    ∃ k d, (effective ∅ cmds ++ e) !! k = Some d ∧ cmd_key d = (sid, ss_last_seq s)
      ∧ ss_last_result s = answer_at (effective ∅ cmds ++ e) k d) as Hold.
  { intros e (k & d & Hk & Hd & Hr)%IH. exists k, d. rewrite (answer_at_app _ _ _ _ _ Hk).
    split_and!; [by apply lookup_app_l_Some|done..]. }
  destruct (fresh (seen_of (ran cmds)) c); [|rewrite Hcase; apply Hold].
  destruct Hcase as (_ & _ & ->). destruct (cmd_session_id c =? 0); [apply Hold|].
  rewrite lookup_insert_Some. intros [[<- <-]|[_ Hs]]; [|by apply Hold].
  exists (length (effective ∅ cmds)), c. rewrite lookup_app_r, Nat.sub_diag by lia. split_and!; [done..|]. simpl.
  rewrite ran_contents. unfold answer_at. by rewrite contents_app.
Qed.

(** A command that is not stale is answered as at the place where its key took
    effect. *)
Lemma answer_recorded cmds c :
  cmd_session_id c ≠ 0 → (apply c (ran cmds)).2 ≠ RStale →
  ∃ k d, effective ∅ (cmds ++ [c]) !! k = Some d ∧ cmd_key d = cmd_key c
    ∧ (apply c (ran cmds)).2 = answer_at (effective ∅ (cmds ++ [c])) k d.
Proof.
  intros Hsid Hst. rewrite effective_snoc. destruct (apply_spec c (ran cmds) (mem_ok _)) as (_ & _ & Hcase).
  destruct (fresh (seen_of (ran cmds)) c) eqn:Hf.
  - destruct Hcase as (_ & -> & _). exists (length (effective ∅ cmds)), c.
    rewrite lookup_app_r, Nat.sub_diag by lia. split_and!; [done..|].
    rewrite ran_contents. unfold answer_at. by rewrite contents_app.
  - rewrite app_nil_r. unfold apply in Hst |- *. unfold fresh, seen_of in Hf. rewrite lookup_fmap in Hf.
    destruct (N.eqb_spec (cmd_session_id c) 0); [done|]. simpl in Hf.
    destruct (sm_sessions (ran cmds) !! cmd_session_id c) as [s|] eqn:Hs; [|done]. simpl in Hf.
    destruct (N.eqb_spec (cmd_seq c) (ss_last_seq s)) as [Hq|Hq].
    + destruct (session_recorded _ _ _ Hs) as (k & d & Hk & Hd & Hr). exists k, d.
      split_and!; [done| |done]. by rewrite Hd, <-Hq.
    + apply N.ltb_ge in Hf. destruct (N.ltb_spec (cmd_seq c) (ss_last_seq s)); [done|lia].
Qed.
End answers.

(** ** The writes of a log *)

Section log_writes.
  Context {cc : Bincode Command}.

(** The commands of a log that take effect. *)
Definition writes_of (L : list RaftTypes.Entry) : list Command := effective ∅ (omap entry_cmd L).

Lemma writes_prefix L L' : L `prefix_of` L' → writes_of L `prefix_of` writes_of L'.
Proof. intros [x ->]. unfold writes_of. rewrite omap_app, effective_app. by eexists. Qed.

Lemma writes_logged L tr d : Forall (λ e, logged tr (e_payload e)) L → d ∈ writes_of L → asked_for tr d.
Proof.
  intros HL (e & He & Hd)%effective_elem%list_elem_of_omap. rewrite Forall_forall in HL. specialize (HL e He).
  unfold entry_cmd in Hd. destruct (e_payload e) as [|x|]; [done| |done]. destruct HL as (cmd & Hx & ?). by simplify_eq.
Qed.

(** An answer with contents that a log explains is the one of its write at a
    place in the log. *)
Lemma explained_write P req r tr :
  Forall (λ e, logged tr (e_payload e)) P → explains P req r → ¬ refusal r →
  (∃ rr k, read_req req = Some rr ∧ (k <= length P)%nat ∧ (proper_read rr → r = read_of rr (take k P)))
  ∨ ∃ k d, writes_of P !! k = Some d ∧ write_key req = Some (cmd_key d) ∧ r = op_result_response (answer_at (writes_of P) k d).
Proof.
  intros HP [?|[?|(k & e & cmd & Hk & Hc & Hw & Hr)]] Hnr; [done|by left|right].
  assert (omap entry_cmd (take k P) ++ [cmd] = omap entry_cmd (take (S k) P)) as Hsnoc.
  { rewrite (take_S_r _ _ _ Hk), omap_app. csimpl. by rewrite Hc. }
  assert (asked_for tr cmd) as [Hsid _].
  { apply list_elem_of_lookup_2 in Hk as He. rewrite Forall_forall in HP. specialize (HP e He).
    unfold entry_cmd in Hc. destruct (e_payload e) as [|x|]; [done| |done]. destruct HP as (? & ? & ?). by simplify_eq. }
  destruct (answer_recorded (omap entry_cmd (take k P)) cmd Hsid) as (j & d & Hj & Hd & Ha).
  { intros Hst. apply Hnr. unfold sm_after in Hr. unfold ran in Hst. by rewrite Hr, Hst. }
  rewrite Hsnoc in Hj, Ha. destruct (writes_prefix (take (S k) P) P) as [x Hx]; [apply prefix_take|].
  exists j, d. rewrite Hx, (answer_at_app _ _ _ _ _ Hj). split_and!.
  - by apply lookup_app_l_Some.
  - by rewrite Hw, Hd.
  - by rewrite Hr, <-Ha.
Qed.

Lemma sm_after_contents P : b_map (sm_backend (sm_after P)) = contents (writes_of P) (length (writes_of P)).
Proof. apply ran_contents. Qed.

Lemma prefix_contents P L : P `prefix_of` L → contents (writes_of P) (length (writes_of P)) = contents (writes_of L) (length (writes_of P)).
Proof. intros [x ->]%writes_prefix. by rewrite contents_app. Qed.

Lemma read_of_answer rr P : proper_read rr → read_of rr P = read_answer rr (contents (writes_of P) (length (writes_of P))).
Proof.
  intros Hp. rewrite <-sm_after_contents. destruct rr as [key|start end_ limit]; [done|].
  unfold read_of, read_answer, sm_read_range. simpl in Hp. by rewrite b_scan_map by (apply mem_ok || lia).
Qed.
End log_writes.

(** ** The cluster *)

Section cluster.
  Context {B : Type} {bk : Backend B} {bl : BackendLaws B}.
  Context {cc : Bincode Command} {lc : BincodeLaws Command}.
  Context {cp : Bincode SnapshotPayload} {lp : BincodeLaws SnapshotPayload}.
  Context {crc : Crc32} {cw : Bincode WalBatch} {ci : Bincode TableIndex} {cm : Bincode Manifest}.
  Context {lw : BincodeLaws WalBatch} {li : BincodeLaws TableIndex} {lm : BincodeLaws Manifest}.
  Context {ch : Bincode HardState} {ce : Bincode RaftTypes.Entry} {csn : Bincode Snapshot}.
  Context {lh : BincodeLaws HardState} {le : BincodeLaws RaftTypes.Entry} {lsn : BincodeLaws Snapshot}.
  Context (D : nat) (V0 : list NodeId) (Hnd : NoDup V0).
  Implicit Types tr : list (NodeId * note).

(** A session uses a sequence number for one command. *)
Definition disciplined tr : Prop :=
  ∀ cmd cmd', asked_for tr cmd → asked_for tr cmd' → cmd_key cmd = cmd_key cmd' → cmd = cmd'.

(** An answer at [i] in the record: a write took effect at the place of its
    answer, before the writes that nobody had asked for by then; a read shows the
    contents at some place. *)
Definition linearized (W : list Command) tr (i : nat) (req : Request) (r : Response) : Prop :=
  match request_command req with
  | Some cmd => ∃ k, W !! k = Some cmd ∧ r = op_result_response (answer_at W k cmd)
      ∧ ∀ k' cmd', W !! k' = Some cmd' → ¬ asked_for (take i tr) cmd' → (k < k')%nat
  | None => ∃ rr k, read_req req = Some rr ∧ (k <= length W)%nat ∧ (proper_read rr → r = read_answer rr (contents W k))
  end.

Record linearization (W : list Command) (s : system B) : Prop := {
  ln_asked : ∀ cmd, cmd ∈ W → asked_for (sys_trace s) cmd;
  ln_sessions : ∀ i j c d, W !! i = Some c → W !! j = Some d → (i < j)%nat →
    cmd_session_id c = cmd_session_id d → cmd_seq c < cmd_seq d;
  ln_answers : ∀ i id tx r, sys_trace s !! i = Some (id, Did (Reply tx r)) → ¬ refusal r →
    ∃ req, (id, Asked req tx) ∈ take i (sys_trace s) ∧ linearized W (sys_trace s) i req r;
  ln_servers : ∀ id rows c d, sys_servers s !! id = Some (Running rows c d) →
    ∃ k, (k <= length W)%nat ∧ b_map (sm_backend (co_sm c)) = contents W k;
}.

(** What is on record stays. *)
Lemma system_trace_grows s s' : rtc (system_step D V0) s s' → sys_trace s `prefix_of` sys_trace s'.
Proof.
  induction 1 as [s|s s1 s2 Hs _ IH]; [done|]. etrans; [|exact IH]. destruct Hs; simpl; by eexists.
Qed.

Lemma disciplined_before tr tr' : tr `prefix_of` tr' → disciplined tr' → disciplined tr.
Proof.
  intros [x ->] Hd cmd cmd' H1 H2. apply Hd; (eapply asked_more; [|done]); intros y Hy; apply elem_of_app; by left.
Qed.

Lemma write_key_command req key :
  write_key req = Some key → ∃ cmd, request_command req = Some cmd ∧ cmd_key cmd = key.
Proof. destruct req; intros [= <-]; by eexists. Qed.

Lemma placed_linearized L tr i id tx r :
  disciplined tr → answers_placed L tr → tr !! i = Some (id, Did (Reply tx r)) → ¬ refusal r →
  ∃ req, (id, Asked req tx) ∈ take i tr ∧ linearized (writes_of L) tr i req r.
Proof.
  intros Hd Ha Hi Hnr. destruct (Ha _ _ _ _ Hi) as (req & P & Hin & HP & Hex & Hlog). exists req. split; [done|].
  destruct (writes_prefix _ _ HP) as [x Hx]. unfold linearized.
  destruct (explained_write _ _ _ _ Hlog Hex Hnr) as [(rr & k & Hrr & Hk & Hr)|(k & d & Hk & Hw & Hr)].
  - assert (request_command req = None) as -> by (by destruct req).
    exists rr, (length (writes_of (take k P))). assert (take k P `prefix_of` L) as Hpre by (etrans; [apply prefix_take|done]).
    split_and!; [done|by apply prefix_length, writes_prefix|]. intros Hp. rewrite (Hr Hp), read_of_answer by done.
    by rewrite (prefix_contents _ _ Hpre).
  - assert (∀ d, d ∈ writes_of P → asked_for (take i tr) d) as Hwr by (intros; by eapply writes_logged).
    destruct (write_key_command _ _ Hw) as (cmd & Hcmd & Hkey). rewrite Hcmd.
    pose proof (Hwr d (list_elem_of_lookup_2 _ _ _ Hk)) as Had.
    assert (cmd = d) as ->.
    { apply Hd; [|eapply asked_more; [apply subseteq_take|done]|done]. split.
      - destruct Had as [Hs _]. injection Hkey as Hs' _. by rewrite Hs'.
      - exists id, req, tx. split; [by eapply subseteq_take|done]. }
    exists k. rewrite Hx, (answer_at_app _ _ _ _ _ Hk). split_and!; [by apply lookup_app_l_Some|done|].
    intros k' cmd' Hk' Hna. apply lookup_lt_Some in Hk as Hlt.
    apply lookup_app_Some in Hk' as [Hk'|[Hge _]]; [|lia]. by destruct Hna; apply Hwr, (list_elem_of_lookup_2 _ k').
Qed.

Lemma inv_linearization s h cs F top :
  system_inv D V0 s h cs F top → disciplined (sys_trace s) → linearization (writes_of top) s.
Proof.
  intros Hi Hd. pose proof Hi as [Hw _ [T HT] _ Ha].
  assert (∀ d, d ∈ writes_of top → asked_for (sys_trace s) d) as Hwr.
  { intros d. apply writes_logged. eapply committed_logged; [apply Hw|exact HT]. }
  split.
  - done.
  - intros i j c d Hi' Hj Hij He. apply (effective_increasing (omap entry_cmd top) ∅ i j c d Hi' Hj Hij He).
    by destruct (Hwr c (list_elem_of_lookup_2 _ _ _ Hi')) as [? _].
  - intros i id tx r. by apply placed_linearized.
  - intros id rows c d Hs. destruct (system_inv_explained _ _ _ _ _ _ _ Hi) as [Hsv _].
    destruct (Hsv _ _ _ _ Hs) as [_ [(_ & _ & Hm & _) _]]. set (P := upto _ _) in Hm.
    assert (P `prefix_of` top) as Hpre by apply prefix_take. exists (length (writes_of P)).
    split; [by apply prefix_length, writes_prefix|]. by rewrite Hm, sm_after_contents, (prefix_contents _ _ Hpre).
Qed.

(** ** The theorems *)


(** ** What clients learn *)

(** Clients with sessions of their own, with the operations each has run and what
    its attempts sent. *)
Record session_run := mkRun { sr_client : KvClient; sr_ops : list (client_op * network); sr_sent : list sent }.

Definition proper_run (x : session_run) : Prop :=
  routed (sr_client x) ∧ ∃ c', run_client (sr_ops x) (sr_client x) = Some (c', sr_sent x).

(** Whatever was asked for in writing is an attempt of one of them. *)
Definition asked_by (xs : list session_run) tr : Prop :=
  ∀ cmd, asked_for tr cmd → ∃ x s, x ∈ xs ∧ s ∈ sr_sent x ∧ request_command s.2 = Some cmd.

Lemma issued_session session seq ops cmd : cmd ∈ issued session seq ops → cmd_session_id cmd = session.
Proof.
  revert seq. induction ops as [|op ops IH]; intros seq Hc; simpl in Hc; [by apply elem_of_nil in Hc|].
  destruct op; simpl in Hc; try (by eapply IH); (apply elem_of_cons in Hc as [->|Hc%IH]; done).
Qed.

(** Clients of crates/client never use a sequence number for two commands. *)
Lemma clients_disciplined xs tr :
  Forall proper_run xs → NoDup (kc_session_id ∘ sr_client <$> xs) → asked_by xs tr → disciplined tr.
Proof.
  intros Hx Hnd' Hby cmd cmd' (x & s & Hin & Hs & Hc)%Hby (x' & s' & Hin' & Hs' & Hc')%Hby [= Hsid Hseq].
  rewrite Forall_forall in Hx. destruct (Hx _ Hin) as (Hr & c1 & Hrun), (Hx _ Hin') as (Hr' & c1' & Hrun').
  pose proof (run_client_sends _ _ _ _ Hr Hrun _ _ Hs Hc) as Hi.
  pose proof (run_client_sends _ _ _ _ Hr' Hrun' _ _ Hs' Hc') as Hi'.
  apply issued_session in Hi as Hid, Hi' as Hid'.
  assert (x' = x) as ->.
  { apply list_elem_of_lookup in Hin as [i Hl], Hin' as [j Hl'].
    assert (j = i) as ->; [|congruence]. eapply (NoDup_lookup _ _ _ _ Hnd'); rewrite list_lookup_fmap.
    - by rewrite Hl'.
    - rewrite Hl. simpl. congruence. }
  apply list_elem_of_lookup in Hi as [i Hl], Hi' as [j Hl'].
  pose proof (issued_sorted (kc_session_id (sr_client x)) (kc_seq (sr_client x)) (sr_ops x).*1) as Hsort.
  destruct (lt_eq_lt_dec i j) as [[Hij|Hij]|Hij]; [|congruence|].
  - pose proof (sorted_lookup _ _ _ _ _ _ Hsort Hl Hl' Hij) as Hlt. simpl in Hlt. lia.
  - pose proof (sorted_lookup _ _ _ _ _ _ Hsort Hl' Hl Hij) as Hlt. simpl in Hlt. lia.
Qed.

(** Where the answers with contents that the attempts of a call met came from: a
    server gave each of them on a channel of this request. *)
Definition answered_by (s : system B) (req : Request) (net : network) : Prop :=
  ∀ i r, net i = Answer r → ¬ refusal r →
    ∃ id tx, (id, Did (Reply tx r)) ∈ sys_trace s ∧ ∀ req', (id, Asked req' tx) ∈ sys_trace s → req' = req.

(** The verdict of a call. *)
Lemma call_linearized W s req net c r c' ss :
  linearization W s → routed c → answered_by s req net → call req net c = Some (Ok r, c', ss) → ¬ refusal r →
  ∃ i, linearized W (sys_trace s) i req r.
Proof.
  intros Hlin Hr Hby Hcall Hnr.
  pose proof (λ todo err, call_loop_spec todo 0 req err net c Hr) as Hspec. unfold call in Hcall.
  edestruct Hspec as (v & c1 & ss1 & Hc & _ & _ & _ & _ & Hend). rewrite Hcall in Hc. simplify_eq. destruct Hend as [(k & _ & Hd & _)|(_ & [e He] & _)]; [|done].
  assert (net k = Answer r) as Hk.
  { unfold definitive in Hd. simpl in Hd. destruct (net k) as [[]|]; try done; by simplify_eq. }
  destruct (Hby _ _ Hk Hnr) as (id & tx & [i Hi]%list_elem_of_lookup & Huniq).
  destruct (ln_answers _ _ Hlin _ _ _ _ Hi Hnr) as (req' & Hin & Hl). exists i.
  by rewrite <-(Huniq req') by (by eapply subseteq_take).
Qed.

(** What an operation of a client that succeeded tells: a write took effect, a
    compare-and-swap met the value it reports and succeeded if that was the one
    expected, and a value that was read was there. *)
Definition reports (W : list Command) (s : system B) (c : KvClient) : Prop :=
  let cmd := mkCmd (kc_session_id c) (kc_seq c + 1) in
  (∀ key v net c' ss, answered_by s (ReqPut (kc_session_id c) (kc_seq c + 1) key v) net →
     put key v net c = Some (Ok tt, c', ss) → cmd (Put key v) ∈ W)
  ∧ (∀ key net c' ss, answered_by s (ReqDelete (kc_session_id c) (kc_seq c + 1) key) net →
     delete key net c = Some (Ok tt, c', ss) → cmd (Kvsm.Delete key) ∈ W)
  ∧ (∀ key e n net c' ss b actual, answered_by s (ReqCas (kc_session_id c) (kc_seq c + 1) key e n) net →
     cas key e n net c = Some (Ok (b, actual), c', ss) →
     ∃ k, W !! k = Some (cmd (Cas key e n)) ∧ contents W k !! key = actual ∧ b = bool_decide (actual = e))
  ∧ (∀ key mode net c' ss v, answered_by s (ReqGet key mode) net →
     get key mode net c = Some (Ok v, c', ss) → ∃ k, (k <= length W)%nat ∧ contents W k !! key = v).

Lemma linearization_reports W s c : linearization W s → routed c → reports W s c.
Proof.
  intros Hlin Hr. assert (routed (set_seq (kc_seq c + 1) c)) as Hr1 by done. split_and!.
  - intros key v net c' ss Hby ([[[r|] c1] ss1] & Hc & Hx)%bind_Some; [|done]. destruct r; simplify_eq/=.
    destruct (call_linearized _ _ _ _ _ _ _ _ Hlin Hr1 Hby Hc) as (i & k & Hk & _); [by intros []|].
    by apply list_elem_of_lookup_2 in Hk.
  - intros key net c' ss Hby ([[[r|] c1] ss1] & Hc & Hx)%bind_Some; [|done]. destruct r; simplify_eq/=.
    destruct (call_linearized _ _ _ _ _ _ _ _ Hlin Hr1 Hby Hc) as (i & k & Hk & _); [by intros []|].
    by apply list_elem_of_lookup_2 in Hk.
  - intros key e n net c' ss b a Hby ([[[r|] c1] ss1] & Hc & Hx)%bind_Some; [|done]. destruct r; simplify_eq/=.
    destruct (call_linearized _ _ _ _ _ _ _ _ Hlin Hr1 Hby Hc) as (i & k & Hk & Ha & _); [by intros []|].
    exists k. simpl in Ha. injection Ha as -> ->. done.
  - intros key mode net c' ss v Hby ([[[r|] c1] ss1] & Hc & Hx)%bind_Some; [|done]. destruct r; simplify_eq/=.
    destruct (call_linearized _ _ _ _ _ _ _ _ Hlin Hr Hby Hc) as (i & rr & k & Hrr & Hle & Hv); [by intros []|].
    injection Hrr as <-. injection (Hv I) as ->. by exists k.
Qed.

End cluster.

(** ** A concrete run *)

Section concrete_writes.
  #[local] Existing Instances end_crc demo_wal_codec demo_table_codec demo_catalog_codec.
  #[local] Existing Instances demo_wal_laws demo_table_laws demo_catalog_laws.
  #[local] Existing Instances demo_hs_codec demo_entry_codec demo_snap_codec.
  #[local] Existing Instances demo_hs_laws demo_entry_laws demo_snap_laws demo_cmd_codec demo_payload_codec.
  #[local] Existing Instances demo_cmd_laws demo_image_laws.

(** A client whose put is answered at once by the server of [solo_served]. *)
Definition solo_client : KvClient := mkClient (client_config_new (λ _, None) ["a"%string]) 5 0 0 None 1.
Definition solo_net : network := λ _, Answer RespOk.
Definition solo_run : session_run :=
  mkRun solo_client [(OpPut [x61] [x62], solo_net)] [("a"%string, ReqPut 5 1 [x61] [x62])].

Lemma solo_asked cmd : asked_for solo_trace cmd → cmd = mkCmd 5 1 (Put [x61] [x62]).
Proof.
  intros (_ & id & req & tx & Hin & Hc). unfold solo_trace in Hin.
  repeat (apply elem_of_cons in Hin as [[= -> -> ->]|Hin]; [by simplify_eq/=|]).
  repeat (apply elem_of_cons in Hin as [?|Hin]; [done|]). by apply elem_of_nil in Hin.
Qed.


End concrete_writes.
