(* ===== verification/Kvd.v ===== *)
(** * The server process

    crates/server/src/bin/kvd.rs: the command line of a node and what it opens the
    event loop with; and the page that crates/server/src/metrics.rs serves. *)

From S2P Require Import Prelude Order Text Codec Fs Wal Bloom Memtable SsTable SsTableFacts.
From S2P Require Import MergeIter Manifest Db LsmSpec DbRead DbCompact DbInv DbOps DbEngine DbProps.
From S2P Require Import RaftTypes RaftLog RaftLogFacts RaftNode RaftNodeFacts RaftNodeInv.
From S2P Require Import Kvsm SimCluster Durability LogStore Proto Net Server.
From stdpp Require Import strings.
From Stdlib Require Import Strings.Ascii.
Local Open Scope string_scope.
Local Open Scope N_scope.

(** ** The command line *)

Record KvdArgs := mkKvdArgs {
  ka_id : NodeId;
  ka_peers : gmap NodeId string;
  ka_client_listen : string;
  ka_data_dir : string;
  ka_metrics : option string;
  ka_snapshot_every : N;
  ka_tick_ms : N;
}.

(** The variables of [parse_args]. *)
Record flags := mkFlags {
  fl_id : option NodeId;
  fl_peers : gmap NodeId string;
  fl_client_listen : option string;
  fl_data_dir : option string;
  fl_metrics : option string;
  fl_snapshot_every : N;
  fl_tick_ms : N;
}.

Definition flags_new : flags := mkFlags None ∅ None None None 8192 100.

Definition ok_or {A} (o : option A) (e : string) : Result A string :=
  match o with Some a => Ok a | None => Err e end.

#[local] Notation "x ←? r ; k" := (match r with Ok x => k | Err e => Err e end)
  (at level 100, r at level 200, k at level 200).

Fixpoint parse_peers (parts : list string) (peers : gmap NodeId string) : Result (gmap NodeId string) string :=
  match parts with
  | [] => Ok peers
  | part :: parts =>
    kv ←? ok_or (split_once "=" part) "--peers format: 1=host:port,2=host:port";
    pid ←? ok_or (parse_uint 64 kv.1) "peer id must be a number";
    parse_peers parts (<[pid := kv.2]> peers)
  end.

Definition parse_flag (flag val : string) (f : flags) : Result flags string :=
  if bool_decide (flag = "--id") then
    id ←? ok_or (parse_uint 64 val) "--id must be a number";
    Ok (mkFlags (Some id) (fl_peers f) (fl_client_listen f) (fl_data_dir f) (fl_metrics f)
          (fl_snapshot_every f) (fl_tick_ms f))
  else if bool_decide (flag = "--peers") then
    peers ←? parse_peers (split_on "," val) (fl_peers f);
    Ok (mkFlags (fl_id f) peers (fl_client_listen f) (fl_data_dir f) (fl_metrics f)
          (fl_snapshot_every f) (fl_tick_ms f))
  else if bool_decide (flag = "--client-listen") then
    Ok (mkFlags (fl_id f) (fl_peers f) (Some val) (fl_data_dir f) (fl_metrics f)
          (fl_snapshot_every f) (fl_tick_ms f))
  else if bool_decide (flag = "--data-dir") then
    Ok (mkFlags (fl_id f) (fl_peers f) (fl_client_listen f) (Some val) (fl_metrics f)
          (fl_snapshot_every f) (fl_tick_ms f))
  else if bool_decide (flag = "--metrics") then
    Ok (mkFlags (fl_id f) (fl_peers f) (fl_client_listen f) (fl_data_dir f) (Some val)
          (fl_snapshot_every f) (fl_tick_ms f))
  else if bool_decide (flag = "--snapshot-every") then
    n ←? ok_or (parse_uint 64 val) "--snapshot-every must be a number";
    Ok (mkFlags (fl_id f) (fl_peers f) (fl_client_listen f) (fl_data_dir f) (fl_metrics f) n (fl_tick_ms f))
  else if bool_decide (flag = "--tick-ms") then
    n ←? ok_or (parse_uint 64 val) "--tick-ms must be a number";
    Ok (mkFlags (fl_id f) (fl_peers f) (fl_client_listen f) (fl_data_dir f) (fl_metrics f) (fl_snapshot_every f) n)
  else Err ("unknown flag " +:+ flag).

Fixpoint parse_flags (argv : list string) (f : flags) : Result flags string :=
  match argv with
  | [] => Ok f
  | [flag] => Err (flag +:+ " requires a value")
  | flag :: val :: argv => f ←? parse_flag flag val f; parse_flags argv f
  end.

Definition kvd_parse_args (argv : list string) : Result KvdArgs string :=
  f ←? parse_flags argv flags_new;
  id ←? ok_or (fl_id f) "--id is required";
  if bool_decide (fl_peers f = ∅) then Err "--peers is required"
  else
    client_listen ←? ok_or (fl_client_listen f) "--client-listen is required";
    data_dir ←? ok_or (fl_data_dir f) "--data-dir is required";
    Ok (mkKvdArgs id (fl_peers f) client_listen data_dir (fl_metrics f) (fl_snapshot_every f) (fl_tick_ms f)).

(** ** Start-up *)

(** The arguments that [main] goes on with; an error ends the process. *)
Definition kvd_args (argv : list string) : Result KvdArgs string :=
  a ←? kvd_parse_args argv;
  match ka_peers a !! ka_id a with
  | Some _ => Ok a
  | None => Err "--peers must include this node's own id/address"
  end.

Definition kvd_voters (a : KvdArgs) : list NodeId := btree_keys (ka_peers a).

Definition kvd_seed (a : KvdArgs) (nanos : N) : N := N.lxor nanos (wrap 64 (N.shiftl (ka_id a) 32)).

(** A node that starts is one of its peers. *)
Lemma kvd_args_own_id argv a : kvd_args argv = Ok a → is_Some (ka_peers a !! ka_id a).
Proof.
  unfold kvd_args. destruct (kvd_parse_args argv) as [a'|]; [|done].
  destruct (ka_peers a' !! ka_id a') eqn:Hp; [|done]. intros [= <-]. by eexists.
Qed.

Section start.
  Context {B : Type} {bk : Backend B} {cc : Bincode Command} {cp : Bincode SnapshotPayload}.
  Context {crc : Crc32} {cw : Bincode WalBatch} {ci : Bincode TableIndex} {cm : Bincode Manifest}.
  Context {ch : Bincode HardState} {ce : Bincode RaftTypes.Entry} {cs : Bincode Snapshot}.

(** What [main] opens the event loop with, given the clock and the backend. *)
Definition kvd_open (fuel : nat) (a : KvdArgs) (nanos : N) (backend : B) : IO (Server.Core B) :=
  core_open fuel (config_new (ka_id a) (kvd_seed a nanos)) (kvd_voters a) (ka_snapshot_every a)
    (spawn_peer_senders (ka_id a) (ka_peers a)) backend.

(** The members that a node starts with. A command line that is accepted opens
    the event loop of its own id, with the ids of [--peers] in increasing order as
    the voters, this node among them, and with one outbound pipe to each of the
    others. Nodes that are given the same peers agree on the voters. *)
Theorem kvd_members fuel argv a nanos backend d c ops :
  kvd_args argv = Ok a → kvd_open fuel a nanos backend d = (Ok c, ops) →
  StronglySorted N.lt (kvd_voters a) ∧ (∀ i, i ∈ kvd_voters a ↔ is_Some (ka_peers a !! i)) ∧
  ka_id a ∈ kvd_voters a ∧ c_id (n_cfg (co_raft c)) = ka_id a ∧
  (∀ i, i ∈ co_peer_tx c ↔ i ∈ kvd_voters a ∧ i ≠ ka_id a).
Proof.
  intros Ha Ho. assert (is_Some (ka_peers a !! ka_id a)) as Hself by (by eapply kvd_args_own_id).
  assert (∀ i, i ∈ kvd_voters a ↔ is_Some (ka_peers a !! i)) as Hv by apply elem_of_btree_keys.
  assert (c_id (n_cfg (co_raft c)) = ka_id a ∧ co_peer_tx c = spawn_peer_senders (ka_id a) (ka_peers a)) as [Hid Hp].
  { unfold kvd_open, core_open in Ho. apply io_bind_inv in Ho as ([l p] & d1 & ops2 & _ & Ho & _).
    destruct (match p_snapshot p with Some _ => _ | None => _ end) as [data applied].
    destruct (sm_restore data (sm_new backend)); [|done]. injection Ho as <- _. split; [|done].
    cbn [co_raft]. unfold node_new. by destruct (p_snapshot p). }
  split_and!; [|done|by apply Hv|done|].
  - apply btree_keys_sorted.
  - intros i. rewrite Hp, Hv. unfold spawn_peer_senders. rewrite elem_of_dom. unfold is_Some.
    setoid_rewrite map_lookup_filter_Some. naive_solver.
Qed.
End start.

(** ** The command line of a node *)

(** A value that the command line can carry. *)
Definition expressible (a : KvdArgs) : Prop :=
  ka_id a < 2 ^ 64 ∧ ka_peers a ≠ ∅ ∧ ka_snapshot_every a < 2 ^ 64 ∧ ka_tick_ms a < 2 ^ 64 ∧
  ∀ i addr, ka_peers a !! i = Some addr → i < 2 ^ 64 ∧ has_char "," addr = false.

Definition peer_part (p : NodeId * string) : string := show p.1 +:+ "=" +:+ p.2.

(** The flags and values that express [a], as the head of kvd.rs documents them. *)
Inductive flag_of (a : KvdArgs) : string * string → Prop :=
| flag_id : flag_of a ("--id", show (ka_id a))
| flag_peers l : l ≡ₚ map_to_list (ka_peers a) → flag_of a ("--peers", join_with "," (peer_part <$> l))
| flag_client_listen : flag_of a ("--client-listen", ka_client_listen a)
| flag_data_dir : flag_of a ("--data-dir", ka_data_dir a)
| flag_metrics m : ka_metrics a = Some m → flag_of a ("--metrics", m)
| flag_snapshot_every : flag_of a ("--snapshot-every", show (ka_snapshot_every a))
| flag_tick_ms : flag_of a ("--tick-ms", show (ka_tick_ms a)).

Definition words (fs : list (string * string)) : list string := concat ((λ p, [p.1; p.2]) <$> fs).

(** The variables once the flags [seen] were read. *)
Definition read_so_far (a : KvdArgs) (seen : list string) : flags :=
  mkFlags
    (if bool_decide ("--id" ∈ seen) then Some (ka_id a) else None)
    (if bool_decide ("--peers" ∈ seen) then ka_peers a else ∅)
    (if bool_decide ("--client-listen" ∈ seen) then Some (ka_client_listen a) else None)
    (if bool_decide ("--data-dir" ∈ seen) then Some (ka_data_dir a) else None)
    (if bool_decide ("--metrics" ∈ seen) then ka_metrics a else None)
    (if bool_decide ("--snapshot-every" ∈ seen) then ka_snapshot_every a else 8192)
    (if bool_decide ("--tick-ms" ∈ seen) then ka_tick_ms a else 100).

Lemma parse_peers_parts m m0 l :
  (∀ i addr, (i, addr) ∈ l → m !! i = Some addr ∧ i < 2 ^ 64) → m0 ⊆ m →
  ∃ m1, parse_peers (peer_part <$> l) m0 = Ok m1 ∧ m1 ⊆ m ∧ m0 ⊆ m1 ∧ (∀ i addr, (i, addr) ∈ l → m1 !! i = Some addr).
Proof.
  revert m0. induction l as [|[i addr] l IH]; intros m0 Hl Hm; csimpl.
  { exists m0. split_and!; [done..|]. by intros i addr ?%elem_of_nil. }
  destruct (Hl i addr ltac:(left)) as [Hi Hlt]. change (peer_part (i, addr)) with (show i +:+ String "=" addr).
  rewrite split_once_app by (by apply show_plain). cbn [ok_or fst snd]. rewrite parse_show by done. cbn [ok_or].
  destruct (IH (<[i := addr]> m0)) as (m1 & Hp & Hm1 & H01 & Hin).
  - intros j b Hj. apply Hl. by right.
  - by apply insert_subseteq_l.
  - exists m1. split_and!; [done..| |].
    + apply map_subseteq_spec. intros j b Hj. apply (lookup_weaken m0 m j b Hj) in Hm as Hmj.
      assert (is_Some (<[i := addr]> m0 !! j)) as [b' Hb'].
      { destruct (decide (i = j)) as [->|]; [by rewrite lookup_insert_eq|rewrite lookup_insert_ne by done; by eexists]. }
      pose proof (lookup_weaken _ _ _ _ Hb' H01) as H1. pose proof (lookup_weaken _ _ _ _ H1 Hm1). congruence.
    + intros j b [?|Hj]%elem_of_cons; [simplify_eq|by apply Hin].
      apply (lookup_weaken _ _ _ _ (lookup_insert_eq m0 i addr) H01).
Qed.

Lemma peers_value a l m0 :
  expressible a → l ≡ₚ map_to_list (ka_peers a) → m0 ⊆ ka_peers a →
  parse_peers (split_on "," (join_with "," (peer_part <$> l))) m0 = Ok (ka_peers a).
Proof.
  intros (_ & Hne & _ & _ & Hp) Hl Hm0.
  assert (∀ i addr, (i, addr) ∈ l ↔ ka_peers a !! i = Some addr) as Hin.
  { intros i addr. rewrite Hl. apply elem_of_map_to_list. }
  rewrite split_join_with.
  - destruct (parse_peers_parts (ka_peers a) m0 l) as (m1 & -> & H1 & _ & Hall); [|done|].
    + intros i addr Hi%Hin. split; [done|]. by eapply Hp.
    + f_equal. apply (anti_symm (⊆)); [done|]. apply map_subseteq_spec. intros i addr Hi. by apply Hall, Hin.
  - intros ->%fmap_nil_inv. apply Hne, map_eq. intros i. rewrite lookup_empty.
    destruct (ka_peers a !! i) eqn:Hi; [|done]. by apply Hin, elem_of_nil in Hi.
  - apply Forall_fmap, Forall_forall. intros [i addr] Hi%Hin. unfold compose, peer_part. simpl.
    rewrite has_char_app, show_plain by done. simpl. by eapply Hp.
Qed.

Lemma read_so_far_flag a seen flag val :
  expressible a → flag_of a (flag, val) →
  parse_flag flag val (read_so_far a seen) = Ok (read_so_far a (flag :: seen)).
Proof.
  intros Ha Hf. pose proof (λ l m0, peers_value a l m0 Ha) as Hpeers. destruct Ha as (Hid & _ & Hse & Htm & _).
  assert (∀ (f g : string) (l : list string), f ≠ g → bool_decide (f ∈ g :: l) = bool_decide (f ∈ l)) as Hother.
  { intros f g l Hfg. apply bool_decide_ext. set_solver. }
  assert (∀ (f : string) (l : list string), bool_decide (f ∈ f :: l) = true) as Hsame.
  { intros f l. apply bool_decide_eq_true_2. left. }
  inversion Hf as [|l Hl| | |m Hm| |]; subst flag val; unfold parse_flag, read_so_far;
    cbn [fl_id fl_peers fl_client_listen fl_data_dir fl_metrics fl_snapshot_every fl_tick_ms];
    repeat (rewrite bool_decide_eq_false_2 by done); rewrite bool_decide_eq_true_2 by done;
    rewrite ?Hsame, ?parse_show by done; cbn [ok_or]; rewrite ?Hm; repeat (rewrite Hother by done); try done.
  rewrite Hpeers; [done|done|]. case_bool_decide; [done|apply map_empty_subseteq].
Qed.

(** Every flag without a default is there, and so is every flag whose value is not
    its default. *)
Definition complete (a : KvdArgs) (seen : list string) : Prop :=
  "--id" ∈ seen ∧ "--peers" ∈ seen ∧ "--client-listen" ∈ seen ∧ "--data-dir" ∈ seen ∧
  ("--metrics" ∈ seen ∨ ka_metrics a = None) ∧
  ("--snapshot-every" ∈ seen ∨ ka_snapshot_every a = 8192) ∧ ("--tick-ms" ∈ seen ∨ ka_tick_ms a = 100).

Lemma parse_flags_words a fs seen :
  expressible a → Forall (flag_of a) fs →
  parse_flags (words fs) (read_so_far a seen) = Ok (read_so_far a (reverse fs.*1 ++ seen)).
Proof.
  intros Ha Hfs. revert seen. induction Hfs as [|[flag val] fs Hin Hfs IH]; intros seen; [done|].
  change (words ((flag, val) :: fs)) with (flag :: val :: words fs). cbn [parse_flags].
  rewrite read_so_far_flag by done. rewrite IH. csimpl. by rewrite reverse_cons, <-app_assoc.
Qed.

(** The command line of a node reads back. Whatever the order of the flags, and
    whether flags are repeated or left to their defaults, the documented command
    line of a configuration is parsed to that configuration. *)
Theorem kvd_command_line a fs :
  expressible a → Forall (flag_of a) fs → complete a fs.*1 →
  kvd_parse_args (words fs) = Ok a.
Proof.
  intros Ha Hfs Hc. unfold kvd_parse_args. change flags_new with (read_so_far a []).
  rewrite parse_flags_words by done. rewrite app_nil_r.
  assert (∀ f, bool_decide (f ∈ reverse fs.*1) = bool_decide (f ∈ fs.*1)) as Hrev.
  { intros f. apply bool_decide_ext. by rewrite elem_of_reverse. }
  unfold read_so_far. rewrite !Hrev. cbn [fl_id fl_peers fl_client_listen fl_data_dir fl_metrics fl_snapshot_every fl_tick_ms].
  destruct Hc as (H1 & H2 & H3 & H4 & Hm & Hs & Ht), Ha as (_ & Hne & _).
  rewrite !(bool_decide_eq_true_2 (_ ∈ _)) by done. cbn [ok_or]. rewrite bool_decide_eq_false_2 by done.
  f_equal. destruct a. cbn in *. f_equal; case_bool_decide; naive_solver.
Qed.

(** ** The metrics page *)

Definition newline : ascii := "010".
Definition quote : ascii := "034".
Definition crlf : string := String "013" (String newline "").

Definition quoted (s : string) : string := String quote (s +:+ String quote "").

(** The labels of a node's series, and those of its reads. *)
Definition node_label (node_id : NodeId) : string := "{node=" +:+ quoted (show node_id) +:+ "}".
Definition read_label (node_id : NodeId) (mode : string) : string :=
  "{node=" +:+ quoted (show node_id) +:+ ",mode=" +:+ quoted mode +:+ "}".

Definition type_line (name kind : string) : string := "# TYPE " +:+ name +:+ " " +:+ kind.
Definition sample_line (name label : string) (v : N) : string := name +:+ label +:+ " " +:+ show v.

(** The lines of [Metrics::render]. *)
Definition page_lines (m : Metrics) (node_id : NodeId) : list string :=
  let l := node_label node_id in
  [type_line "raftkv_proposals_total" "counter"; sample_line "raftkv_proposals_total" l (m proposals_total);
   type_line "raftkv_applied_total" "counter"; sample_line "raftkv_applied_total" l (m applied_total);
   type_line "raftkv_reads_total" "counter";
   sample_line "raftkv_reads_total" (read_label node_id "linearizable") (m reads_linearizable_total);
   sample_line "raftkv_reads_total" (read_label node_id "lease") (m reads_lease_total);
   sample_line "raftkv_reads_total" (read_label node_id "stale") (m reads_stale_total);
   type_line "raftkv_not_leader_total" "counter"; sample_line "raftkv_not_leader_total" l (m not_leader_total);
   type_line "raftkv_retries_total" "counter"; sample_line "raftkv_retries_total" l (m retries_total);
   type_line "raftkv_term" "gauge"; sample_line "raftkv_term" l (m term_gauge);
   type_line "raftkv_commit_index" "gauge"; sample_line "raftkv_commit_index" l (m commit_index_gauge);
   type_line "raftkv_applied_index" "gauge"; sample_line "raftkv_applied_index" l (m applied_index_gauge);
   type_line "raftkv_apply_lag" "gauge";
   sample_line "raftkv_apply_lag" l (m commit_index_gauge - m applied_index_gauge);
   type_line "raftkv_is_leader" "gauge"; sample_line "raftkv_is_leader" l (m is_leader_gauge);
   type_line "raftkv_snapshots_taken_total" "counter";
   sample_line "raftkv_snapshots_taken_total" l (m snapshots_taken_total)].

Definition text_of (lines : list string) : string := foldr (λ l s, l +:+ String newline s) "" lines.

Definition render (m : Metrics) (node_id : NodeId) : string := text_of (page_lines m node_id).

(** The response of [serve]. *)
Definition metrics_head (len : nat) : string :=
  "HTTP/1.0 200 OK" +:+ crlf +:+ "Content-Type: text/plain; version=0.0.4" +:+ crlf
  +:+ "Content-Length: " +:+ show (N.of_nat len) +:+ crlf +:+ "Connection: close" +:+ crlf +:+ crlf.

Definition metrics_response (m : Metrics) (node_id : NodeId) : string :=
  let body := render m node_id in metrics_head (String.length body) +:+ body.

(** What a scraper reads: the samples of the lines that are not comments. *)
Definition scrape_line (line : string) : list (string * N) :=
  match line with
  | String "#" _ => []
  | _ =>
    match split_once " " line with
    | Some (series, v) => match parse_uint 64 v with Some n => [(series, n)] | None => [] end
    | None => []
    end
  end.

Definition scrape (text : string) : list (string * N) := concat (scrape_line <$> split_on newline text).

Lemma split_text lines :
  Forall (λ l, has_char newline l = false) lines → split_on newline (text_of lines) = (lines ++ [""])%list.
Proof.
  induction 1 as [|l lines Hl Hls IH]; [done|]. cbn [text_of foldr]. rewrite split_on_app by done.
  fold (text_of lines). by rewrite IH.
Qed.

Lemma string_app_assoc (a b c : string) : (a +:+ b) +:+ c = a +:+ (b +:+ c).
Proof.
  induction a as [|x a IH]; [done|]. change (String x ((a +:+ b) +:+ c) = String x (a +:+ (b +:+ c))). by rewrite IH.
Qed.

Lemma scrape_sample name label v c r :
  name +:+ label = String c r → c ≠ "#"%char → has_char " " (name +:+ label) = false → v < 2 ^ 64 →
  scrape_line (sample_line name label v) = [(name +:+ label, v)].
Proof.
  intros Hs Hc Hp Hv. unfold sample_line. rewrite <-string_app_assoc.
  assert (scrape_line ((name +:+ label) +:+ " " +:+ show v) =
    match split_once " " ((name +:+ label) +:+ String " " (show v)) with
    | Some (series, v) => match parse_uint 64 v with Some n => [(series, n)] | None => [] end
    | None => []
    end) as ->.
  { rewrite Hs. simpl. destruct (decide (c = "#"%char)); [done|]. by destruct c as [[] [] [] [] [] [] [] []]. }
  rewrite split_once_app by done. by rewrite parse_show.
Qed.

(** The readings of a node. *)
Definition readings (m : Metrics) (node_id : NodeId) : list (string * N) :=
  let l := node_label node_id in
  [("raftkv_proposals_total" +:+ l, m proposals_total); ("raftkv_applied_total" +:+ l, m applied_total);
   ("raftkv_reads_total" +:+ read_label node_id "linearizable", m reads_linearizable_total);
   ("raftkv_reads_total" +:+ read_label node_id "lease", m reads_lease_total);
   ("raftkv_reads_total" +:+ read_label node_id "stale", m reads_stale_total);
   ("raftkv_not_leader_total" +:+ l, m not_leader_total); ("raftkv_retries_total" +:+ l, m retries_total);
   ("raftkv_term" +:+ l, m term_gauge); ("raftkv_commit_index" +:+ l, m commit_index_gauge);
   ("raftkv_applied_index" +:+ l, m applied_index_gauge);
   ("raftkv_apply_lag" +:+ l, m commit_index_gauge - m applied_index_gauge);
   ("raftkv_is_leader" +:+ l, m is_leader_gauge);
   ("raftkv_snapshots_taken_total" +:+ l, m snapshots_taken_total)].

Lemma labels_plain c node_id :
  digit c = None → has_char c (node_label node_id) = has_char c (node_label 0) ∧
  ∀ mode, has_char c (read_label node_id mode) = has_char c (read_label 0 mode).
Proof.
  intros Hc. pose proof (show_plain c node_id Hc) as H1. pose proof (show_plain c 0 Hc) as H2.
  unfold node_label, read_label, quoted. revert H1 H2. generalize (show node_id) (show 0). intros s s' Hs Hs'.
  split; [|intros mode]; by rewrite !has_char_app, !has_char_cons, !has_char_app, Hs, Hs'.
Qed.

(** The metrics page reads back: a response announces the length of its body, and
    a scraper that skips the comments of the body finds each counter and gauge of
    the node under its own series, the apply lag being the committed entries that
    are not applied yet. *)
Theorem metrics_page_reads_back m node_id :
  (∀ f, m f < 2 ^ 64) →
  ∃ body, metrics_response m node_id = metrics_head (String.length body) +:+ body ∧
    scrape body = readings m node_id.
Proof.
  intros Hm. exists (render m node_id). split; [done|]. unfold scrape, render.
  destruct (labels_plain newline node_id eq_refl) as [Hl1 Hr1], (labels_plain " " node_id eq_refl) as [Hl2 Hr2].
  rewrite split_text.
  - unfold page_lines. cbn [app fmap list_fmap].
    repeat (erewrite scrape_sample; [|reflexivity|done|by rewrite has_char_app, ?Hl2, ?Hr2|try apply Hm]);
      [done|]. specialize (Hm commit_index_gauge). lia.
  - unfold page_lines, sample_line. repeat constructor; repeat (rewrite has_char_app);
      rewrite ?Hl1, ?Hr1, ?show_plain by done; done.
Qed.

(** ** A concrete node *)

Section concrete_node.
  #[local] Existing Instances end_crc demo_wal_codec demo_table_codec demo_catalog_codec.
  #[local] Existing Instances demo_hs_codec demo_entry_codec demo_snap_codec.
#[local] Instance node_cmd_codec : Bincode Command := countable_bincode Command.
#[local] Instance node_image_codec : Bincode SnapshotPayload := countable_bincode SnapshotPayload.

Definition demo_node : KvdArgs :=
  mkKvdArgs 2 {[1 := "a:7001"; 2 := "b:7002"; 3 := "c:7003"]} "b:6001" "./data/node2" None 8192 50.

(** The flags in another order, without the defaults. *)
Definition demo_flags : list (string * string) :=
  [("--tick-ms", "50"); ("--data-dir", "./data/node2"); ("--client-listen", "b:6001");
   ("--peers", "1=a:7001,2=b:7002,3=c:7003"); ("--id", "2")].

Lemma demo_expressible : expressible demo_node.
Proof.
  split_and!; [done|done|done|done|]. intros i addr Hi. unfold demo_node in Hi. cbn [ka_peers] in Hi.
  apply lookup_insert_Some in Hi as [[<- <-]|[_ Hi]]; [done|].
  apply lookup_insert_Some in Hi as [[<- <-]|[_ Hi]]; [done|].
  apply lookup_singleton_Some in Hi as [<- <-]. done.
Qed.

Lemma kvd_command_line_witness : kvd_parse_args (words demo_flags) = Ok demo_node.
Proof.
  apply (kvd_command_line demo_node demo_flags); [exact demo_expressible| |].
  - repeat (apply Forall_cons; split); [..|constructor].
    + exact (flag_tick_ms demo_node).
    + exact (flag_data_dir demo_node).
    + exact (flag_client_listen demo_node).
    + apply (flag_peers demo_node [(1, "a:7001"); (2, "b:7002"); (3, "c:7003")]).
      apply NoDup_Permutation; [repeat (constructor; [set_solver|]); constructor|apply NoDup_map_to_list|].
      intros [i addr]. rewrite elem_of_map_to_list. unfold demo_node. cbn [ka_peers].
      rewrite !elem_of_cons, elem_of_nil, !lookup_insert_Some, lookup_singleton_Some. naive_solver.
    + exact (flag_id demo_node).
  - unfold complete. split_and!; [set_solver..|by right|by right|left; set_solver].
Defined.

Lemma kvd_members_witness :
  ∃ c ops, kvd_open 10 demo_node 42 (mkMem ∅) ∅ = (Ok c, ops) ∧
  StronglySorted N.lt (kvd_voters demo_node) ∧ (∀ i, i ∈ kvd_voters demo_node ↔ is_Some (ka_peers demo_node !! i)) ∧
  ka_id demo_node ∈ kvd_voters demo_node ∧ c_id (n_cfg (co_raft c)) = ka_id demo_node ∧
  (∀ i, i ∈ co_peer_tx c ↔ i ∈ kvd_voters demo_node ∧ i ≠ ka_id demo_node).
Proof.
  destruct (kvd_open 10 demo_node 42 (mkMem ∅) ∅) as [[c|e] ops] eqn:Ho.
  - exists c, ops. split; [reflexivity|].
    refine (kvd_members 10 (words demo_flags) demo_node 42 (mkMem ∅) ∅ c ops _ Ho). vm_compute. reflexivity.
  - exfalso. apply (f_equal (λ r, match r.1 with Ok _ => true | Err _ => false end)) in Ho. vm_compute in Ho. discriminate.
Defined.

Lemma metrics_page_reads_back_witness :
  ∃ body, metrics_response (λ _, 7) 1 = metrics_head (String.length body) +:+ body ∧
    scrape body = readings (λ _, 7) 1.
Proof. apply (metrics_page_reads_back (λ _, 7) 1). intros f. reflexivity. Defined.
End concrete_node.
