(* ===== verification/SimLogic.v ===== *)
(** * Reasoning about the simulator

    Triples for computations of the simulator, and computations that do not
    touch what safety depends on: the nodes, the tables of leaders and applied
    entries, and the messages under way. *)

From S2P Require Import Prelude SimBase RaftTypes RaftLog RaftNode Kvsm Wgl SimCluster.
Local Open Scope N_scope.

(** The failed checks of the cluster itself: two leaders of a term, two entries
    applied at an index, logs or state machines that differ, panics of the code, and
    a loop that does not end. The others, for which this is false, are the limits of
    the run (budget, sizes, time to heal) and a history that the search finds not
    linearizable: on that the theorems about runs are silent, and
    [read_misses_committed_write] shows reads of the nodes that are not. *)
Definition violation (p : SimPanic) : bool :=
  match p with
  | ElectionSafetyViolation _ | StateMachineSafetyViolation _ | LogMatchingViolation _ _
  | RaftPanic | DecodeCommand | DecodeSnapshot | UnwrapNone | Diverged _ | LoopFuel => true
  | _ => false
  end.

Definition triple {A} (P : Sim → Prop) (m : M A) (Q : A → Sim → Prop) : Prop :=
  ∀ s, P s → match m s with Ok (a, s') => Q a s' | Err p => violation p = false end.

Section rules.
  Implicit Types P : Sim → Prop.

Lemma triple_ret {A} P (a : A) : triple P (mret a) (λ b s, b = a ∧ P s).
Proof. by intros s Hs. Qed.

Lemma triple_ret' {A} P (Q : A → Sim → Prop) a : (∀ s, P s → Q a s) → triple P (mret a) Q.
Proof. intros HQ s Hs. by apply HQ. Qed.

Lemma triple_bind {A B} P (m : M A) (k : A → M B) R Q :
  triple P m R → (∀ a, triple (R a) (k a) Q) → triple P (m ≫= k) Q.
Proof.
  intros Hm Hk s Hs. specialize (Hm s Hs). unfold mbind, M_bind.
  destruct (m s) as [[a s1]|p]; [|done]. by apply Hk.
Qed.

Lemma triple_assoc {A B C} P (m : M A) (k : A → M B) (l : B → M C) Q :
  triple P ((m ≫= k) ≫= l) Q → triple P (m ≫= λ a, k a ≫= l) Q.
Proof.
  intros Ht s Hs. specialize (Ht s Hs). unfold mbind, M_bind in *. by destruct (m s) as [[a s1]|].
Qed.

Lemma triple_conseq {A} P P' (m : M A) (Q Q' : A → Sim → Prop) :
  triple P' m Q' → (∀ s, P s → P' s) → (∀ a s, Q' a s → Q a s) → triple P m Q.
Proof.
  intros Hm HP HQ s Hs. specialize (Hm s (HP s Hs)). destruct (m s) as [[a s1]|]; [by apply HQ|done].
Qed.

Lemma triple_pure {A} (φ : Prop) P (m : M A) Q :
  (φ → triple P m Q) → triple (λ s, φ ∧ P s) m Q.
Proof. intros Hm s [Hφ Hs]. by apply Hm. Qed.

Lemma triple_assume {A} (φ : Prop) P (m : M A) Q :
  (∀ s, P s → φ) → (φ → triple P m Q) → triple P m Q.
Proof. intros Hφ Hm s Hs. apply Hm; [by eapply Hφ|done]. Qed.

Lemma triple_exists {A X} (P : X → Sim → Prop) (m : M A) Q :
  (∀ x, triple (P x) m Q) → triple (λ s, ∃ x, P x s) m Q.
Proof. intros Hm s [x Hs]. by apply (Hm x). Qed.

Lemma triple_panic {A} P Q p : violation p = false → triple P (panic (A := A) p) Q.
Proof. by intros Hp s _. Qed.

Lemma triple_gets {A} P (f : Sim → A) : triple P (gets f) (λ a s, a = f s ∧ P s).
Proof. by intros s Hs. Qed.

Lemma triple_modify P (f : Sim → Sim) (Q : unit → Sim → Prop) :
  (∀ s, P s → Q tt (f s)) → triple P (modify f) Q.
Proof. intros HQ s Hs. by apply HQ. Qed.

Lemma triple_unwrap {A} P (x : option A) a : x = Some a → triple P (unwrap x) (λ b s, b = a ∧ P s).
Proof. intros -> s Hs. done. Qed.

Lemma triple_for_each {A} P (f : A → M unit) l :
  (∀ x, x ∈ l → triple P (f x) (λ _, P)) → triple P (for_each f l) (λ _, P).
Proof.
  induction l as [|x l IH]; intros Hf; simpl; [by apply triple_ret'|].
  eapply triple_bind; [apply Hf; left|]. intros ?. apply IH. intros y Hy. apply Hf. by right.
Qed.
End rules.

(** ** Quiet computations *)

Section quiet.
  (** The messages that may be put on the network. *)
  Context (S : Message → Prop).

Record calm (s s' : Sim) : Prop := {
  calm_cfg : sim_cfg s' = sim_cfg s;
  calm_voters : sim_voters s' = sim_voters s;
  calm_nodes : sim_nodes s' = sim_nodes s;
  calm_leaders : sim_leaders_by_term s' = sim_leaders_by_term s;
  calm_applied : sim_applied_global s' = sim_applied_global s;
  calm_heap : ∀ q m, q ∈ sim_heap s' → qe_ev q = RaftMsg m →
    (∃ q', q' ∈ sim_heap s ∧ qe_ev q' = RaftMsg m) ∨ S m;
}.

#[global] Instance calm_preorder : PreOrder calm.
Proof.
  split.
  - intros s. split; try done. intros q m Hq Hm. left. eauto.
  - intros s1 s2 s3 [H1 H2 H3 H4 H5 H6] [G1 G2 G3 G4 G5 G6]. split; try congruence.
    intros q m Hq Hm. destruct (G6 _ _ Hq Hm) as [(q' & Hq' & Hm')|]; [|by right].
    by apply (H6 q').
Qed.

Definition quietly {A} (m : M A) : Prop :=
  ∀ s, match m s with Ok (_, s') => calm s s' | Err p => violation p = false end.

Lemma triple_quiet {A} (P : Sim → Prop) (m : M A) :
  quietly m → (∀ s s', calm s s' → P s → P s') → triple P m (λ _, P).
Proof. intros Hm HP s Hs. specialize (Hm s). destruct (m s) as [[a s']|]; [by eapply HP|done]. Qed.

Lemma quietly_ret {A} (a : A) : quietly (mret a).
Proof. intros s. apply (reflexivity (R := calm)). Qed.

Lemma quietly_bind {A B} (m : M A) (k : A → M B) :
  quietly m → (∀ a, quietly (k a)) → quietly (m ≫= k).
Proof.
  intros Hm Hk s. specialize (Hm s). unfold mbind, M_bind. destruct (m s) as [[a s1]|]; [|done].
  specialize (Hk a s1). destruct (k a s1) as [[b s2]|]; [by trans s1|done].
Qed.

Lemma quietly_gets {A} (f : Sim → A) : quietly (gets f).
Proof. intros s. apply (reflexivity (R := calm)). Qed.

Lemma quietly_panic {A} p : violation p = false → quietly (panic (A := A) p).
Proof. by intros Hp s. Qed.

Lemma quietly_modify f : (∀ s, calm s (f s)) → quietly (modify f).
Proof. intros Hf s. apply Hf. Qed.

Lemma quietly_draw {A} (f : N → option (N * A)) : quietly (draw f).
Proof.
  intros s. unfold draw. destruct (f _) as [[r x]|]; [|done]. split; try done.
  intros q m Hq Hm. left. eauto.
Qed.

Lemma quietly_index {A} (l : list A) i : quietly (index l i).
Proof. unfold index. destruct (l !! i); [apply quietly_ret|by apply quietly_panic]. Qed.

Lemma quietly_for_each {A} (f : A → M unit) l :
  (∀ x, x ∈ l → quietly (f x)) → quietly (for_each f l).
Proof.
  induction l as [|x l IH]; intros Hf; simpl; [apply quietly_ret|].
  apply quietly_bind; [apply Hf; left|]. intros _. apply IH. intros y Hy. apply Hf. by right.
Qed.

Lemma elem_of_heap_push q q' heap : q' ∈ heap_push q heap ↔ q' = q ∨ q' ∈ heap.
Proof.
  induction heap as [|x heap IH]; simpl; [by rewrite list_elem_of_singleton, elem_of_nil; tauto|].
  destruct (queued_lt q x); rewrite !elem_of_cons, ?IH; tauto.
Qed.

Definition allowed (ev : Event) : Prop := match ev with RaftMsg m => S m | _ => True end.

Lemma quietly_push t ev : allowed ev → quietly (push t ev).
Proof.
  intros Hev s. split; try done. intros q m Hq Hm. simpl in Hq.
  apply elem_of_heap_push in Hq as [->|Hq]; [|left; eauto]. simpl in Hm. subst ev. by right.
Qed.

(** A change of the parts of the state that safety does not look at. *)
Lemma calm_same s s' :
  sim_cfg s' = sim_cfg s → sim_voters s' = sim_voters s → sim_nodes s' = sim_nodes s →
  sim_leaders_by_term s' = sim_leaders_by_term s →
  sim_applied_global s' = sim_applied_global s → sim_heap s' = sim_heap s → calm s s'.
Proof. intros ????? Hh. split; try done. intros q m Hq Hm. rewrite Hh in Hq. left. eauto. Qed.

Lemma quietly_bump f : quietly (bump f).
Proof. apply quietly_modify. intros s. by apply calm_same. Qed.
End quiet.

Create HintDb quiet discriminated.
#[export] Hint Resolve quietly_ret quietly_gets quietly_draw quietly_index quietly_bump : quiet.
#[export] Hint Extern 1 (quietly _ (panic _)) => apply quietly_panic; reflexivity : quiet.
#[export] Hint Extern 1 (quietly _ (push _ _)) => apply quietly_push; simpl; auto : quiet.
#[export] Hint Extern 2 (quietly _ (modify _)) =>
  apply quietly_modify; intros; apply calm_same; reflexivity : quiet.

(** Walks through a computation, case by case. *)
Ltac quiet_step :=
  match goal with
  | |- quietly _ (_ ≫= _) => apply quietly_bind; [|intros ?]
  | |- quietly _ (for_each _ _) => apply quietly_for_each; intros ? ?
  | |- quietly _ (let '(_, _) := ?x in _) => destruct x
  | |- quietly _ (if ?b then _ else _) => destruct b
  | |- quietly _ (match ?x with _ => _ end) => destruct x
  | |- quietly _ _ => solve [eauto with quiet]
  end.
Ltac quiet := repeat quiet_step.

Section operations.
  Context (S : Message → Prop).

Lemma node_index_quiet id : quietly S (node_index id).
Proof. unfold node_index. quiet. Qed.
Lemma get_node_quiet i : quietly S (get_node i).
Proof. unfold get_node. quiet. Qed.
Lemma get_client_quiet c : quietly S (get_client c).
Proof. unfold get_client. quiet. Qed.
Lemma put_client_quiet c cl : quietly S (put_client c cl).
Proof. unfold put_client. quiet. Qed.
Lemma stamp_quiet : quietly S stamp.
Proof. unfold stamp. quiet. Qed.
Lemma push_after_quiet lo hi ev : allowed S ev → quietly S (push_after lo hi ev).
Proof. intros Hev. unfold push_after, draw_range. quiet. Qed.
End operations.

#[export] Hint Resolve node_index_quiet get_node_quiet get_client_quiet put_client_quiet
  stamp_quiet : quiet.
#[export] Hint Extern 1 (quietly _ (push_after _ _ _)) =>
  apply push_after_quiet; simpl; auto : quiet.
#[export] Hint Extern 1 (quietly _ (draw_range _ _)) => apply quietly_draw : quiet.
#[export] Hint Extern 1 (quietly _ (draw_below _)) => apply quietly_draw : quiet.
#[export] Hint Extern 1 (quietly _ (draw_chance _)) => apply quietly_draw : quiet.

Section clients.
  Context (S : Message → Prop).

Lemma send_client_resp_quiet c r : quietly S (send_client_resp c r).
Proof. unfold send_client_resp. quiet. Qed.

Lemma send_raft_msg_quiet m : S m → quietly S (send_raft_msg m).
Proof. intros Hm. unfold send_raft_msg. quiet. Qed.

Lemma random_node_quiet : quietly S random_node.
Proof. unfold random_node. quiet. Qed.
Hint Resolve random_node_quiet : quiet.

Lemma send_request_quiet c t : quietly S (send_request c t).
Proof. unfold send_request. quiet. Qed.
Hint Resolve send_request_quiet : quiet.

Lemma on_client_wake_quiet c : quietly S (on_client_wake c).
Proof. unfold on_client_wake. quiet. Qed.

Lemma on_client_timeout_quiet c t : quietly S (on_client_timeout c t).
Proof. unfold on_client_timeout. quiet. Qed.

Lemma note_seen_quiet c k v : quietly S (note_seen c k v).
Proof. unfold note_seen. quiet. Qed.
Hint Resolve note_seen_quiet : quiet.

Lemma bind_ok {A B} (m : M A) (k : A → M B) s a s' :
  m s = Ok (a, s') → (m ≫= k) s = k a s'.
Proof. intros Hm. unfold mbind, M_bind. by rewrite Hm. Qed.

Lemma bind_inv {A B} (m : M A) (k : A → M B) s b s' :
  (m ≫= k) s = Ok (b, s') → ∃ a s1, m s = Ok (a, s1) ∧ k a s1 = Ok (b, s').
Proof. unfold mbind, M_bind. destruct (m s) as [[a s1]|]; [eauto|done]. Qed.

Lemma get_client_ok c cl s : sim_clients s !! c = Some cl → get_client c s = Ok (cl, s).
Proof. intros Hc. unfold get_client. rewrite (bind_ok _ _ s (sim_clients s) s) by done. unfold index. by rewrite Hc. Qed.

(** [complete_op] runs only while the client has an operation. *)
Lemma complete_op_quiet c res s cl cur :
  sim_clients s !! c = Some cl → cl_cur cl = Some cur →
  match complete_op c res s with Ok (_, s') => calm S s s' | Err p => violation p = false end.
Proof.
  intros Hc Hcur. unfold complete_op. set (s1 := set_sim_stamp (sim_stamp s + 1) s).
  assert (calm S s s1) as H1 by (by apply calm_same).
  rewrite (bind_ok stamp _ s (sim_stamp s + 1) s1) by done.
  rewrite (bind_ok (get_client c) _ s1 cl s1) by by apply get_client_ok.
  rewrite Hcur, (bind_ok (unwrap (Some cur)) _ s1 cur s1) by done.
  match goal with |- match ?m s1 with _ => _ end => assert (quietly S m) as Hq by quiet end.
  specialize (Hq s1). match type of Hq with match ?x with _ => _ end => destruct x as [[? s']|] end;
    [by trans s1|done].
Qed.

Lemma on_client_resp_quiet c r : quietly S (on_client_resp c r).
Proof.
  intros s. unfold on_client_resp. destruct (sim_clients s !! c) as [cl|] eqn:Hc.
  2: { unfold mbind, M_bind, get_client, gets, index. simpl. unfold mbind, M_bind. by rewrite Hc. }
  rewrite (bind_ok (get_client c) _ s cl s) by by apply get_client_ok.
  destruct (cl_cur cl) as [cur|] eqn:Hcur; [|apply quietly_ret].
  assert (∀ res key v, match (complete_op c res;; note_seen c key v) s with
    | Ok (_, s') => calm S s s' | Err p => violation p = false end) as Hco.
  { intros res key v. pose proof (complete_op_quiet c res s cl cur Hc Hcur) as Hq.
    unfold mbind, M_bind. destruct (complete_op c res s) as [[? s1]|]; [|done].
    pose proof (note_seen_quiet c key v s1) as Hn. destruct (note_seen c key v s1) as [[? s2]|];
      [by trans s1|done]. }
  destruct r as [op_ref hint|seq result|op_ts value].
  - match goal with |- match ?m s with _ => _ end => assert (quietly S m) as Hq by quiet end.
    apply Hq.
  - destruct (accept_write _ _ _) as [[res [key v]]|]; [apply Hco|apply quietly_ret].
  - destruct (co_kind cur); [|apply quietly_ret..].
    destruct (_ =? _); [apply Hco|apply quietly_ret].
Qed.

Lemma shuffle_quiet i ids : quietly S (shuffle i ids).
Proof. revert ids. induction i as [|i IH]; intros ids; simpl; quiet. Qed.
Hint Resolve shuffle_quiet : quiet.

Lemma start_partition_quiet : quietly S start_partition.
Proof. unfold start_partition. quiet. Qed.
End clients.
