(* ===== verification/SimSafety.v ===== *)
(** * No run of the simulator violates safety

    For every configuration, seed and schedule of faults, the assertions of the
    simulator on elections, logs, applied entries and converged state machines
    hold, and the cluster never panics. The invariant ties every simulated node
    to the protocol: its core satisfies [world_inv], its disk is the durable
    state of its raft node, and its state machine is the result of applying the
    committed prefix of its log. *)

From S2P Require Import Prelude Order Codec SimBase RaftTypes RaftLog RaftLogFacts.
From S2P Require Import RaftNode RaftNodeFacts RaftNodeInv RaftProps RaftHistory.
From S2P Require Import RaftProtocol ProtocolSafety RaftRefine NodeSafety Kvsm Wgl.
From S2P Require Import SimCluster Durability Cluster Replica SimLogic.
Local Open Scope N_scope.

Local Infix "⪯" := prefix (at level 70).

(** ** The invariant *)

Section safety.
  Context `{BincodeLaws Command} `{BincodeLaws SnapshotPayload} (nodes : N).
  (** How many nodes have been booted. *)
  Context (booted : nat).
  Abbreviation V0 := (range_incl 1 nodes).
  Abbreviation world := (world_inv V0 payload_ok image_of).
  Abbreviation ninv := (node_inv V0 payload_ok image_of).

Lemma voters_nodup : NoDup V0.
Proof.
  unfold range_incl, range. apply NoDup_fmap_2; [|apply NoDup_seq]. intros x y. lia.
Qed.

(** A node between two events. *)
Definition settled (id : NodeId) (c : Core) (L : list Entry) (n : SimNode) : Prop :=
  sn_id n = id ∧
  if sn_up n then
    ∃ r, sn_raft n = Some r ∧ node_id r = id ∧ core r = c ∧ n_out r = default_out
      ∧ sn_disk n = disk_of r ∧ sn_applied n = k_commit c
      ∧ sn_sm n = sm_after (upto (k_commit c) L)
  else sn_raft n = None ∧ c = core (node_new (config_new 0 0) V0 (sn_disk n))
      ∧ sn_sm n = new_sm ∧ sn_applied n = 0.

Record shared_inv (S : Message → Prop) (h : history) (cs : NodeId → Core)
    (F : NodeId → list Entry) (s : Sim) : Prop := {
  si_world : world cs S h F;
  si_cfg : sc_nodes (sim_cfg s) = nodes;
  si_voters : sim_voters s = V0;
  si_soup : ∀ q m, q ∈ sim_heap s → qe_ev q = RaftMsg m → S m;
  si_leaders : ∀ t id, sim_leaders_by_term s !! t = Some id →
    ∃ l, h_leaders h !! t = Some (id, l);
  si_applied : ∀ i e, sim_applied_global s !! i = Some e →
    0 < i ∧ ∃ T P, committed_prefix V0 h T P ∧ P !! (N.to_nat i - 1)%nat = Some e;
  si_booted : length (sim_nodes s) = booted;
  si_fresh : ∀ id, N.of_nat booted < id → cs id = init_core V0 ∧ F id = [];
}.

Definition id_of (i : nat) : NodeId := N.of_nat i + 1.

(** Every node but the [i]-th is between events; the [i]-th satisfies [P]. *)
Definition busy (S : Message → Prop) (h : history) (cs : NodeId → Core) (F : NodeId → list Entry)
    (i : nat) (P : SimNode → Prop) (s : Sim) : Prop :=
  shared_inv S h cs F s
  ∧ (∀ j n, sim_nodes s !! j = Some n → j ≠ i → settled (id_of j) (cs (id_of j)) (F (id_of j)) n)
  ∧ ∃ n, sim_nodes s !! i = Some n ∧ P n.

Definition idle (S : Message → Prop) (h : history) (cs : NodeId → Core) (F : NodeId → list Entry)
    (s : Sim) : Prop :=
  shared_inv S h cs F s
  ∧ ∀ j n, sim_nodes s !! j = Some n → settled (id_of j) (cs (id_of j)) (F (id_of j)) n.

Definition sim_ok (s : Sim) : Prop := ∃ S h cs F, idle S h cs F s.

Lemma busy_idle S h cs F i s :
  busy S h cs F i (settled (id_of i) (cs (id_of i)) (F (id_of i))) s → idle S h cs F s.
Proof.
  intros (Hs & Hoth & n & Hn & Hset). split; [done|]. intros j n' Hj.
  destruct (decide (j = i)) as [->|Hne]; [|by apply Hoth]. by simplify_eq.
Qed.

Lemma idle_busy S h cs F i n s :
  idle S h cs F s → sim_nodes s !! i = Some n → busy S h cs F i (eq n) s.
Proof. intros [Hs Hall] Hn. split_and!; [done|by intros; apply Hall|eauto]. Qed.

Lemma busy_weaken S h cs F i (P Q : SimNode → Prop) s :
  (∀ n, P n → Q n) → busy S h cs F i P s → busy S h cs F i Q s.
Proof. intros HPQ (H1' & H2' & n & Hn & HP). split_and!; [done|done|eauto]. Qed.

(** Quiet computations keep everything. *)
Lemma calm_shared S h cs F s s' : calm S s s' → shared_inv S h cs F s → shared_inv S h cs F s'.
Proof.
  intros [Hc Hv Hn Hl Ha Hh] [I1 I2 I3 I4 I5 I6 I7 I8]. split; try congruence.
  - intros q m Hq Hm. destruct (Hh _ _ Hq Hm) as [(q' & ? & ?)|]; [by eapply I4|done].
  - by rewrite Hl.
  - by rewrite Ha.
  - done.
Qed.

Lemma calm_busy S h cs F i P s s' : calm S s s' → busy S h cs F i P s → busy S h cs F i P s'.
Proof.
  intros Hcalm (Hs & Hr). split; [by eapply calm_shared|]. by rewrite (calm_nodes _ _ _ Hcalm).
Qed.

Lemma calm_idle S h cs F s s' : calm S s s' → idle S h cs F s → idle S h cs F s'.
Proof.
  intros Hcalm (Hs & Hr). split; [by eapply calm_shared|]. by rewrite (calm_nodes _ _ _ Hcalm).
Qed.

Lemma get_node_ok i n s : sim_nodes s !! i = Some n → get_node i s = Ok (n, s).
Proof.
  intros Hn. unfold get_node. rewrite (bind_ok _ _ s (sim_nodes s) s) by done.
  unfold index. by rewrite Hn.
Qed.

Section one_node.
  Context (S : Message → Prop) (h : history) (F : NodeId → list Entry) (i : nat).

Lemma get_node_triple cs P :
  triple (busy S h cs F i P) (get_node i) (λ n s, P n ∧ busy S h cs F i (eq n) s).
Proof.
  intros s (Hs & Ho & n & Hn & HP). rewrite (get_node_ok _ _ _ Hn). split; [done|].
  split_and!; [done|done|eauto].
Qed.

Lemma put_node_triple cs P (Q : SimNode → Prop) n :
  Q n → triple (busy S h cs F i P) (put_node i n) (λ _, busy S h cs F i Q).
Proof.
  intros HQ s (Hs & Ho & n0 & Hn0 & _). unfold put_node. simpl. split_and!.
  - destruct Hs as [I1 I2 I3 I4 I5 I6 I7 I8]. split; try done. simpl. by rewrite length_insert.
  - intros j n' Hj Hne. simpl in Hj. rewrite list_lookup_insert_ne in Hj by done. by apply Ho.
  - exists n. simpl. apply lookup_lt_Some in Hn0. by rewrite list_lookup_insert_eq.
Qed.

Abbreviation me := (id_of i).

(** A node whose raft node has just run one operation. *)
Definition loaded (c : Core) (L : list Entry) (n : SimNode) : Prop :=
  sn_id n = me ∧ sn_up n = true ∧ ∃ r, sn_raft n = Some r ∧ node_id r = me ∧ core r = c
  ∧ store_output (n_out r) (sn_disk n) = disk_of r
  ∧ Forall S (o_messages (n_out r))
  ∧ match o_snapshot (n_out r) with
    | Some s => o_committed (n_out r) = [] ∧ s_last_index s = k_commit c
        ∧ image_of (upto (k_commit c) L) (s_data s)
    | None => sn_sm n = sm_after (upto (sn_applied n) L) ∧ sn_applied n ≤ k_commit c
        ∧ upto (k_commit c) L = upto (sn_applied n) L ++ o_committed (n_out r)
    end.

(** The node while it applies the entries [es], its disk already written. *)
Definition applying (c : Core) (L : list Entry) (r : RaftNode) (es : list Entry) (n : SimNode)
    : Prop :=
  (sn_id n = me ∧ sn_up n = true ∧ sn_raft n = Some r)
  ∧ (node_id r = me ∧ core r = c ∧ n_out r = default_out ∧ sn_disk n = disk_of r)
  ∧ sn_sm n = sm_after (upto (sn_applied n) L) ∧ sn_applied n ≤ k_commit c
  ∧ upto (k_commit c) L = upto (sn_applied n) L ++ es.

Lemma persist_triple P c L n r :
  loaded c L n → sn_raft n = Some r →
  triple P (persist_output (n_out r) (set_sn_raft (Some (take_output r).1) n))
    (λ n' s, applying c L (take_output r).1 (o_committed (n_out r)) n' ∧ P s).
Proof.
  intros (Hid & Hup & r' & Hr' & Hrid & Hc & Hd & _ & Hcase) Hr. simplify_eq.
  unfold persist_output. simpl. destruct (o_snapshot (n_out r')) as [s|].
  - destruct Hcase as (-> & Hl & Him). rewrite (restore_image _ _ _ Him). apply triple_ret'.
    intros st Hst. split; [|done]. split_and!; try done; simpl; rewrite Hl; [done|apply N.le_refl|].
    by rewrite app_nil_r.
  - apply triple_ret'. intros st Hst. split; [|done]. by destruct Hcase as (? & ? & ?).
Qed.

(** The entry a node is about to apply. *)
Lemma next_entry cs s r e es n :
  shared_inv S h cs F s → applying (cs me) (F me) r (e :: es) n →
  (N.to_nat (k_commit (cs me)) <= length (F me))%nat
  ∧ upto (k_commit (cs me)) (F me) !! N.to_nat (sn_applied n) = Some e
  ∧ e_index e = sn_applied n + 1 ∧ payload_ok (e_payload e)
  ∧ committed_prefix V0 h (k_term (cs me)) (upto (k_commit (cs me)) (F me)).
Proof.
  intros [[_ Hns _] _ _ _ _ _ _ _] (_ & _ & _ & Hle & Heq).
  destruct (Hns me) as [_ [_ Hlok _ _ _] _ (_ & Hlen & Hcp) _].
  assert (upto (k_commit (cs me)) (F me) !! N.to_nat (sn_applied n) = Some e) as Hl.
  { rewrite Heq, lookup_app_r by (rewrite length_take; lia).
    rewrite length_take. replace (_ - _)%nat with 0%nat by lia. done. }
  split_and!; [done|done| | |done];
    apply lookup_take_Some in Hl as [Hl _]; destruct (Hlok _ _ Hl) as (? & ? & _); [lia|done].
Qed.

Lemma check_applied_triple cs P T Q e :
  committed_prefix V0 h T Q → 0 < e_index e → Q !! (N.to_nat (e_index e) - 1)%nat = Some e →
  triple (busy S h cs F i P) (check_applied e) (λ _, busy S h cs F i P).
Proof.
  intros Hcp Hpos HQ s Hb. pose proof Hb as ([I1 I2 I3 I4 I5 I6 I7 I8] & Ho & Hn).
  unfold check_applied. rewrite (bind_ok _ _ s (sim_applied_global s !! e_index e) s) by done.
  destruct (sim_applied_global s !! e_index e) as [prev|] eqn:Hg.
  - destruct (I6 _ _ Hg) as (_ & T' & Q' & Hcp' & HQ').
    assert (prev = e) as ->; [|by rewrite decide_True].
    destruct I1 as [Hok _ _].
    destruct (committed_prefixes_agree V0 payload_ok h voters_nodup Hok _ _ _ _ Hcp Hcp') as [Hp|Hp];
      [pose proof (prefix_lookup_Some _ _ _ _ HQ Hp)|pose proof (prefix_lookup_Some _ _ _ _ HQ' Hp)];
      congruence.
  - simpl. split; [|done]. split; try done. simpl. intros j e'. rewrite lookup_insert_Some.
    intros [[<- <-]|[_ ?]]; [|by apply I6]. split; [done|]. by exists T, Q.
Qed.

Lemma apply_command_triple P cmd n :
  triple P (apply_command cmd n) (λ nr s, P s ∧ ∃ W,
    nr.1 = set_sn_waiting_writes W (set_sn_sm (apply cmd (sn_sm n)).1 n)).
Proof.
  unfold apply_command. destruct (apply cmd (sn_sm n)) as [sm res]. simpl.
  assert (∀ x : SimNode, x = set_sn_waiting_writes (sn_waiting_writes x) x) as Heta by by intros [].
  destruct (_ && _); [destruct (_ <? _); [by apply triple_panic|]|]; apply triple_ret'; intros s Hs;
    (split; [done|]); simpl; [by eexists|]. eexists. apply Heta.
Qed.

Lemma apply_entry_triple cs r e es :
  triple (busy S h cs F i (applying (cs me) (F me) r (e :: es))) (apply_entry i e)
    (λ _, busy S h cs F i (applying (cs me) (F me) r es)).
Proof.
  eapply triple_assume.
  { intros s (Hs & _ & n & _ & Happ). exact (ex_intro _ n (next_entry _ _ _ _ _ _ Hs Happ)). }
  intros (n0 & _ & Hl0 & Hi0 & _ & Hcp0). unfold apply_entry. eapply triple_bind.
  { eapply check_applied_triple; [exact Hcp0|lia|]. rewrite <-Hl0. f_equal. lia. }
  intros ?. eapply triple_bind; [apply get_node_triple|]. intros n. apply triple_pure. intros Happ.
  eapply triple_assume; [intros s (Hs & _); exact (next_entry _ _ _ _ _ _ Hs Happ)|].
  intros (Hlen & Hl & Hidx & Hpok & _). destruct Happ as (Hn1 & Hn2 & Hsm & Hle & Heq).
  assert (upto (k_commit (cs me)) (F me) = upto (sn_applied n + 1) (F me) ++ es
    ∧ upto (sn_applied n + 1) (F me) = upto (sn_applied n) (F me) ++ [e]
    ∧ sn_applied n + 1 ≤ k_commit (cs me)) as (Heq1 & Heq2 & Hle1).
  { apply lookup_take_Some in Hl as [Hl Hlt]. split_and!; [|  |lia];
      replace (N.to_nat (sn_applied n + 1)) with (Datatypes.S (N.to_nat (sn_applied n))) by lia;
      rewrite (take_S_r _ _ _ Hl); [by rewrite <-app_assoc|done]. }
  eapply (triple_bind _ _ _ (λ nr s, (∃ W sm, nr.1 = set_sn_waiting_writes W (set_sn_sm sm n)
    ∧ sm = sm_after (upto (sn_applied n + 1) (F me))) ∧ busy S h cs F i (eq n) s)).
  { assert (∀ x : SimNode, x = set_sn_waiting_writes (sn_waiting_writes x) (set_sn_sm (sn_sm x) x))
      as Heta by by intros [].
    rewrite Heq2, sm_after_snoc. unfold entry_cmd.
    destruct (e_payload e) as [|d|]; [|destruct Hpok as [cmd Hcmd]; rewrite Hcmd|done].
    - apply triple_ret'. intros s Hs. split; [|done]. do 2 eexists. split; [apply Heta|done].
    - eapply triple_conseq; [apply apply_command_triple|done|]. intros [n1 rs] s [Hs [W HW]].
      split; [|done]. do 2 eexists. split; [exact HW|]. by rewrite Hsm. }
  intros [n1 rs]. apply triple_pure. intros (W & sm & Hn1' & Hsm'). simpl in Hn1'. subst n1.
  eapply triple_bind; [|intros ?; apply triple_ret'; intros s Hs; exact Hs].
  apply put_node_triple. rewrite Hidx. split_and!; simpl; try done; apply Hn1 || apply Hn2.
Qed.

Lemma apply_committed_triple cs r es :
  triple (busy S h cs F i (applying (cs me) (F me) r es)) (apply_committed i es)
    (λ _, busy S h cs F i (applying (cs me) (F me) r [])).
Proof.
  induction es as [|e es IH]; simpl; [by apply triple_ret'|].
  eapply triple_bind; [apply apply_entry_triple|]. intros ?.
  eapply triple_bind; [apply IH|]. intros ?. by apply triple_ret'.
Qed.

(** Once everything committed is applied, the node is settled. *)
Lemma applying_done cs s r n :
  shared_inv S h cs F s → applying (cs me) (F me) r [] n → settled me (cs me) (F me) n.
Proof.
  intros [[_ Hns _] _ _ _ _ _ _ _] ((Hid & Hup & Hr) & (Hrid & Hc & Ho & Hd) & Hsm & Hle & Heq).
  destruct (Hns me) as [_ _ _ (_ & Hlen & _) _]. rewrite app_nil_r in Heq.
  assert (sn_applied n = k_commit (cs me)) as Ha.
  { apply (f_equal length) in Heq. rewrite !length_take in Heq. lia. }
  split; [done|]. rewrite Hup. exists r. split_and!; [done..|]. by rewrite Hsm, Ha.
Qed.

Definition live (c : Core) (L : list Entry) (n : SimNode) : Prop :=
  settled me c L n ∧ sn_up n = true.

(** A change of the bookkeeping around the raft node. *)
Lemma live_same c L n n' :
  sn_id n' = sn_id n → sn_up n' = sn_up n → sn_raft n' = sn_raft n → sn_disk n' = sn_disk n →
  sn_applied n' = sn_applied n → sn_sm n' = sn_sm n → live c L n → live c L n'.
Proof.
  intros E1 E2 E3 E4 E5 E6 [[Hid Hset] Hup]. split; [|congruence]. split; [congruence|].
  rewrite E2. rewrite Hup in *. by rewrite E3, E4, E5, E6.
Qed.

(** The node replaced by one whose core changed locally. *)
Lemma busy_local cs P (Q : SimNode → Prop) c' n s :
  busy S h cs F i P s → ninv h me c' (F me) → Q n →
  busy S h (update cs me c') F i Q (set_sim_nodes (<[i := n]> (sim_nodes s)) s).
Proof.
  intros (Hs & Ho & n0 & Hn0 & _) Hn' HQ. apply lookup_lt_Some in Hn0 as Hlt. split_and!.
  - destruct Hs as [I1 I2 I3 I4 I5 I6 I7 I8]. split; try done; simpl.
    + by apply world_local.
    + by rewrite length_insert.
    + intros id Hid. rewrite update_other; [by apply I8|]. unfold id_of. lia.
  - intros j n' Hj Hne. simpl in Hj. rewrite list_lookup_insert_ne in Hj by done.
    rewrite update_other by (unfold id_of; lia). by apply Ho.
  - exists n. simpl. by rewrite list_lookup_insert_eq.
Qed.

Lemma compact_live cs s n r r' snap data :
  shared_inv S h cs F s → live (cs me) (F me) n → sn_raft n = Some r →
  data = sm_snapshot (sn_sm n) → node_compact (sn_applied n) data r = (r', Some snap) →
  ninv h me (core r') (F me)
  ∧ live (core r') (F me) (set_sn_disk (store_snapshot snap (sn_disk n))
      (set_sn_applied_since_snap 0 (set_sn_raft (Some r') n))).
Proof.
  intros [[_ Hns _] _ _ _ _ _ _ _] [[Hid Hset] Hup] Hr -> Hcmp. rewrite Hup in Hset.
  destruct Hset as (r0 & Hr0 & Hrid & Hc & Ho & Hd & Ha & Hsm). simplify_eq.
  pose proof (Hns me) as Hn. rewrite <-Hc in Hn.
  assert (ninv h me (core r') (F me)) as Hn'.
  { replace r' with (node_compact (sn_applied n) (sm_snapshot (sn_sm n)) r0).1 by (by rewrite Hcmp).
    apply compact_core_inv; [apply payload_static|done|]. unfold image_of. by rewrite Hsm, Ha. }
  pose proof (compact_durable _ _ _ _ _ (node_inv_ok _ _ _ _ _ _ _ Hn) Hcmp) as Hdisk.
  unfold node_compact in Hcmp. destruct (_ || _); [done|]. destruct (RL.term _ _); [|done].
  injection Hcmp as Hr' _. split; [done|]. split; [|done]. split; [done|]. simpl. rewrite Hup.
  exists r'. rewrite Hd, Hdisk. subst r'. simpl in *.
  split_and!; try done; [by rewrite Ha, <-Hc|by rewrite Hsm, <-Hc].
Qed.

Lemma compact_log_triple cs :
  triple (busy S h cs F i (live (cs me) (F me))) (compact_log i)
    (λ _ s, ∃ cs', busy S h cs' F i (live (cs' me) (F me)) s).
Proof.
  unfold compact_log. eapply triple_bind; [apply get_node_triple|]. intros n. apply triple_pure.
  intros Hlive. eapply triple_bind;
    [apply (triple_quiet S); [apply (quietly_gets S)|by intros; eapply calm_busy]|]. intros cfg.
  assert (∀ n', live (cs me) (F me) n' → ∀ s, busy S h cs F i (eq n') s →
    ∃ cs', busy S h cs' F i (live (cs' me) (F me)) s) as Hsame.
  { intros n' Hn' s Hs. exists cs. eapply busy_weaken; [|exact Hs]. by intros ? <-. }
  destruct (_ <=? _); [|apply triple_ret'; by apply Hsame].
  pose proof Hlive as [[_ Hset] Hup]. rewrite Hup in Hset. destruct Hset as (r & Hr & _).
  eapply triple_bind; [by apply triple_unwrap|]. intros r1. apply triple_pure. intros ->.
  destruct (node_compact (sn_applied n) (sm_snapshot (sn_sm n)) r) as [r' snap] eqn:Hcmp.
  destruct snap as [snap|].
  - intros s Hs. pose proof Hs as (Hsh & _).
    destruct (compact_live _ _ _ _ _ _ _ Hsh Hlive Hr eq_refl Hcmp) as [Hn' Hl'].
    simpl. exists (update cs me (core r')). rewrite update_same.
    eapply (calm_busy S h _ F i _ (set_sim_nodes _ s)); [by apply calm_same|].
    by eapply busy_local.
  - assert (r' = r) as ->.
    { unfold node_compact in Hcmp. destruct (_ || _); [by injection Hcmp|].
      destruct (RL.term _ _); [done|by injection Hcmp]. }
    eapply triple_conseq; [apply put_node_triple with (Q := live (cs me) (F me))|done|].
    + eapply live_same; [..|exact Hlive]; done.
    + intros ? s Hs. by exists cs.
Qed.

Lemma serve_read_same acc r :
  let n := acc.1.1 in let n' := (serve_read acc r).1.1 in
  n' = set_sn_pending_reads (sn_pending_reads n') n.
Proof.
  destruct acc as [[n w] rs]. unfold serve_read. simpl.
  destruct (_ <=? _); [destruct (sn_pending_reads n !! _) as [[[c o] k]|]|]; by destruct n.
Qed.

Lemma serve_reads_triple cs c L rs :
  triple (busy S h cs F i (live c L)) (serve_reads i rs) (λ _, busy S h cs F i (live c L)).
Proof.
  unfold serve_reads. eapply triple_bind; [apply get_node_triple|]. intros n. apply triple_pure.
  intros Hlive.
  assert (∀ l acc, ∃ P, (foldl serve_read acc l).1.1 = set_sn_pending_reads P acc.1.1) as Hf.
  { induction l as [|x l IH]; intros acc; simpl.
    - exists (sn_pending_reads acc.1.1). by destruct acc as [[[] ?] ?].
    - destruct (IH (serve_read acc x)) as [P HP]. exists P. rewrite HP, serve_read_same. done. }
  destruct (Hf (sn_ready_reads n ++ rs) (n, [], [])) as [P HP].
  destruct (foldl serve_read _ _) as [[n' w] resps]. simpl in HP. subst n'.
  eapply triple_bind; [|intros ?; apply triple_ret'; intros s Hs; exact Hs].
  apply put_node_triple. by eapply live_same; [..|exact Hlive].
Qed.

Lemma check_election_triple cs :
  triple (busy S h cs F i (live (cs me) (F me))) (check_election i)
    (λ _, busy S h cs F i (live (cs me) (F me))).
Proof.
  unfold check_election. eapply triple_bind; [apply get_node_triple|]. intros n.
  apply triple_pure. intros Hlive. pose proof Hlive as [[_ Hset] Hup]. rewrite Hup in Hset.
  destruct Hset as (r & Hr & Hid & Hc & _).
  eapply triple_bind; [by apply triple_unwrap|]. intros r1. apply triple_pure. intros ->.
  eapply (triple_conseq _ (busy S h cs F i (eq n)) _ _ (λ _, busy S h cs F i (eq n)));
    [|done|by intros ? s Hs; eapply busy_weaken; [|exact Hs]; intros ? <-].
  eapply triple_bind; [apply (triple_quiet S); [apply (quietly_bump S)|by intros; eapply calm_busy]|].
  intros ?. destruct (is_leader r) eqn:Hlead; [|by apply triple_ret'].
  apply bool_decide_eq_true in Hlead. intros s Hs.
  pose proof Hs as ([I1 I2 I3 I4 I5 I6 I7 I8] & Ho & Hn). pose proof I1 as [_ Hns _].
  destruct (Hns me) as [_ _ Hrole _ _]. rewrite <-Hc in Hrole. simpl in Hrole.
  rewrite Hlead in Hrole. destruct Hrole as [Hrole _].
  rewrite (bind_ok _ _ s (sim_leaders_by_term s !! node_term r) s) by done.
  destruct (sim_leaders_by_term s !! node_term r) as [other|] eqn:Hl.
  - destruct (I5 _ _ Hl) as [l Hl']. unfold node_term, k_term in *. simpl in *.
    rewrite Hrole in Hl'. injection Hl' as <- _. rewrite Hid, N.eqb_refl. done.
  - simpl. split; [|done]. split; try done. simpl. intros t id. rewrite lookup_insert_Some.
    intros [[<- <-]|[_ ?]]; [|by apply I5]. rewrite Hid. eexists. exact Hrole.
Qed.

(** Draining the output of one operation settles the node. *)
Lemma process_output_triple cs :
  triple (busy S h cs F i (loaded (cs me) (F me))) (process_output i) (λ _, sim_ok).
Proof.
  unfold process_output. eapply triple_bind; [apply get_node_triple|]. intros n.
  apply triple_pure. intros Hload. pose proof Hload as (_ & _ & r & Hr & _ & _ & _ & Hms & _).
  eapply triple_bind; [by apply triple_unwrap|]. intros r1. apply triple_pure. intros ->.
  eapply triple_bind; [by apply (persist_triple _ (cs me) (F me))|]. intros n1.
  apply triple_pure. intros Happ.
  eapply triple_bind; [apply (put_node_triple _ _ _ _ Happ)|]. intros ?.
  eapply triple_bind; [apply apply_committed_triple|]. intros writes.
  eapply triple_bind.
  { eapply triple_conseq; [apply compact_log_triple| |intros ? s Hs; exact Hs].
    intros s Hs. pose proof Hs as (Hsh & _). eapply busy_weaken; [|exact Hs].
    intros n2 Hn2. split; [by eapply applying_done|]. by destruct Hn2 as ((_ & ? & _) & _). }
  intros ?. apply triple_exists. intros cs'.
  eapply triple_bind; [apply serve_reads_triple|]. intros reads.
  eapply triple_bind.
  { apply triple_for_each. intros x _. apply (triple_quiet S); [apply send_client_resp_quiet|].
    intros; by eapply calm_busy. }
  intros ?. eapply triple_bind.
  { apply triple_for_each. intros m Hm. apply (triple_quiet S).
    - apply send_raft_msg_quiet. rewrite Forall_forall in Hms. by apply Hms.
    - intros; by eapply calm_busy. }
  intros ?. eapply triple_conseq; [apply check_election_triple|done|].
  intros ? s Hs. exists S, h, cs', F. apply (busy_idle S h cs' F i).
  eapply busy_weaken; [|exact Hs]. by intros ? [? _].
Qed.
End one_node.
End safety.
