(* ===== verification/SimRuns.v ===== *)
(** * Every event keeps the simulator safe

    One triple per event handler, then the loop, the checks at the end, and the
    theorem about whole runs. *)

From S2P Require Import Prelude Order Codec SimBase RaftTypes RaftLog RaftLogFacts.
From S2P Require Import RaftNode RaftNodeFacts RaftNodeInv RaftProps RaftHistory.
From S2P Require Import RaftProtocol ProtocolSafety RaftRefine NodeSafety Kvsm Wgl.
From S2P Require Import SimCluster Durability Cluster Replica SimLogic SimSafety.
Local Open Scope N_scope.

Section events.
  Context `{BincodeLaws Command} `{BincodeLaws SnapshotPayload} (nodes : N) (booted : nat).
  Abbreviation V0 := (range_incl 1 nodes).
  Abbreviation idle := (idle nodes booted).
  Abbreviation busy := (busy nodes booted).
  Abbreviation ok := (sim_ok nodes booted).
  Abbreviation settled := (settled nodes).

(** ** One operation of a raft node *)

(** [n'] is [n] with another raft node. *)
Record same_host (n n' : SimNode) : Prop := {
  sh_id : sn_id n' = sn_id n;
  sh_up : sn_up n' = sn_up n;
  sh_disk : sn_disk n' = sn_disk n;
  sh_applied : sn_applied n' = sn_applied n;
  sh_sm : sn_sm n' = sn_sm n;
}.

(** After an operation and before its output is drained. *)
Lemma after_op S h cs F i s n n' op r r' :
  idle S h cs F s → sim_nodes s !! i = Some n → sn_up n = true → sn_raft n = Some r →
  run_op op r = Some r' → batched op = true → wf_op op → by_moves payload_ok S r r' →
  same_host n n' → sn_raft n' = Some r' →
  ∃ S' h' cs' F', busy S' h' cs' F' i (loaded S' i (cs' (id_of i)) (F' (id_of i)))
    (set_sim_nodes (<[i := n']> (sim_nodes s)) s).
Proof.
  intros [[I1 I2 I3 I4 I5 I6 I7 I8] Hall] Hn Hup Hr Hrun Hb Hwf [_ (ms & Hms & Hmv)] [E1 E2 E3 E4 E5] Hr'.
  pose proof (Hall _ _ Hn) as [Hid Hset]. rewrite Hup in Hset.
  destruct Hset as (r0 & Hr0 & Hrid & Hc & Ho & Hd & Ha & Hsm). rewrite Hr in Hr0. injection Hr0 as <-.
  rewrite Ho in Hms. simpl in Hms. rewrite Hrid, Hc in Hmv.
  destruct (world_moves V0 payload_ok image_of (voters_nodup nodes) payload_static _ _ _ _ _ _ _ I1 Hmv)
    as (h' & L' & Hext & Hw').
  pose proof I1 as [_ Hns _]. pose proof Hw' as [Hok' Hns' _].
  pose proof (Hns (id_of i)) as Hni. pose proof (Hns' (id_of i)) as Hni'. rewrite !update_same in Hni'.
  destruct (delivered_loaded V0 (voters_nodup nodes) payload_ok h h' (id_of i) (cs (id_of i)) (F (id_of i)) L' r r' op)
    as [Hdisk Hcase]; [done..|].
  apply lookup_lt_Some in Hn as Hlt.
  exists (λ m, S m ∨ m ∈ ms), h', (update cs (id_of i) (core r')), (update F (id_of i) L').
  split_and!.
  - split; try done; simpl.
    + intros q m Hq Hm. left. by eapply I4.
    + intros t id Ht. destruct (I5 _ _ Ht) as [l Hl].
      destruct (ext_leaders _ _ Hext _ _ _ Hl) as (x & Hx & _). eauto.
    + intros j e Hj. destruct (I6 _ _ Hj) as (? & T & P & Hcp & HP). split; [done|].
      exists T, P. split; [by eapply committed_prefix_ext|done].
    + by rewrite length_insert.
    + intros id Hgt. rewrite !update_other by (unfold id_of; lia). by apply I8.
  - intros j nj Hj Hne. simpl in Hj. rewrite list_lookup_insert_ne in Hj by done.
    rewrite !update_other by (unfold id_of; lia). by apply Hall.
  - exists n'. simpl. rewrite list_lookup_insert_eq, !update_same by done. split; [done|].
    split; [congruence|]. split; [congruence|]. exists r'. split; [done|].
    split. { destruct (run_op_guarantee op r r') as [_ _ Hcfg _ _ _ _ _ _];
      [by destruct op|by eapply node_inv_ok; rewrite Hc|done..|]. unfold node_id in *. by rewrite Hcfg. }
    split; [done|]. split; [by rewrite E3, Hd|]. split; [rewrite Hms; apply Forall_forall; by right|].
    rewrite E4, E5, Ha, Hsm. destruct (o_snapshot _); [done|]. destruct Hcase as (Heq & ? & ?).
    split; [by f_equal|done].
Qed.

(** ** Handlers *)

Definition at_node (S : Message → Prop) h cs F (i : nat) (n : SimNode) (s : Sim) : Prop :=
  idle S h cs F s ∧ sim_nodes s !! i = Some n.

Lemma get_node_idle S h cs F i :
  triple (idle S h cs F) (get_node i) (λ n, at_node S h cs F i n).
Proof.
  intros s Hs. unfold get_node. rewrite (bind_ok _ _ s (sim_nodes s) s) by done. unfold index.
  destruct (sim_nodes s !! i) as [n|] eqn:Hn; [|done]. by split.
Qed.

Lemma node_index_triple P id : triple P (node_index id) (λ i s, id = id_of i ∧ P s).
Proof.
  unfold node_index. destruct (N.eqb_spec id 0); [by apply triple_panic|]. apply triple_ret'.
  intros s Hs. split; [|done]. unfold id_of. lia.
Qed.

Lemma at_node_calm S h cs F i n s s' :
  calm S s s' → at_node S h cs F i n s → at_node S h cs F i n s'.
Proof.
  intros Hc [Hi Hn]. split; [by eapply calm_idle|]. by rewrite (calm_nodes _ _ _ Hc).
Qed.

Lemma ok_quiet {A} (m : M A) : (∀ S, quietly S m) → triple ok m (λ _, ok).
Proof.
  intros Hm s (S & h & cs & F & Hi). specialize (Hm S s). destruct (m s) as [[a s']|]; [|done].
  exists S, h, cs, F. by eapply calm_idle.
Qed.

(** Run an operation, then drain it. *)
Lemma run_node_triple S h cs F i n n' op r r' :
  sn_up n = true → sn_raft n = Some r → run_op op r = Some r' → batched op = true →
  (history_ok V0 payload_ok h → wf_op op) → by_moves payload_ok S r r' → same_host n n' →
  sn_raft n' = Some r' →
  triple (at_node S h cs F i n) (put_node i n';; process_output i) (λ _, ok).
Proof.
  intros Hup Hr Hrun Hb Hwf Hmv Hh Hr' s [Hi Hn].
  assert (history_ok V0 payload_ok h) as Hok by (by destruct Hi as [[[? _ _]] _]).
  destruct (after_op _ _ _ _ _ _ _ _ _ _ _ Hi Hn Hup Hr Hrun Hb (Hwf Hok) Hmv Hh Hr')
    as (S' & h' & cs' & F' & Hbusy).
  rewrite (bind_ok _ _ s tt (set_sim_nodes (<[i := n']> (sim_nodes s)) s)) by done.
  by apply (process_output_triple nodes booted S' h' F' i cs').
Qed.

(** What is known of a running node. *)
Lemma at_node_live S h cs F i n s :
  at_node S h cs F i n s → sn_up n = true →
  ∃ r, sn_raft n = Some r ∧ node_id r = id_of i
    ∧ node_inv V0 payload_ok image_of h (id_of i) (core r) (F (id_of i)).
Proof.
  intros [[[[_ Hns _] _ _ _ _ _ _ _] Hall] Hn] Hup. destruct (Hall _ _ Hn) as [_ Hset].
  rewrite Hup in Hset. destruct Hset as (r & Hr & Hid & Hc & _). exists r. rewrite Hc. done.
Qed.

Lemma on_node_tick_triple id : triple ok (on_node_tick id) (λ _, ok).
Proof.
  apply triple_exists. intros S. apply triple_exists. intros h. apply triple_exists. intros cs.
  apply triple_exists. intros F. unfold on_node_tick.
  eapply triple_bind; [apply node_index_triple|]. intros i. apply triple_pure. intros ->.
  eapply triple_bind; [apply get_node_idle|]. intros n.
  eapply triple_bind; [|intros ?; apply ok_quiet; intros S'; quiet].
  destruct (sn_up n) eqn:Hup.
  - eapply triple_assume; [intros s Hs; exact (at_node_live _ _ _ _ _ _ _ Hs Hup)|].
    intros (r & Hr & Hid & Hn).
    eapply triple_bind; [by apply triple_unwrap|]. intros r1. apply triple_pure. intros ->.
    by eapply (run_node_triple _ _ _ _ _ _ _ OpTick); [..|by apply tick_by| |].
  - apply triple_ret'. intros s [Hs _]. by exists S, h, cs, F.
Qed.

Lemma on_raft_msg_triple S h cs F m :
  S m → triple (idle S h cs F) (on_raft_msg m) (λ _, ok).
Proof.
  intros HSm. unfold on_raft_msg.
  assert (∀ f, triple (idle S h cs F) (bump f) (λ _, ok)) as Hdrop.
  { intros f s Hs. exists S, h, cs, F. by eapply calm_idle; [apply (quietly_bump S f s)|]. }
  eapply triple_bind; [apply (triple_quiet S); [apply quietly_gets|by intros; eapply calm_idle]|].
  intros blocked. destruct (decide _) as [_|_]; [apply Hdrop|].
  eapply triple_bind; [apply node_index_triple|]. intros i. apply triple_pure. intros Hto.
  eapply triple_bind; [apply get_node_idle|]. intros n.
  destruct (sn_up n) eqn:Hup; simpl; [|eapply triple_conseq; [apply Hdrop|by intros s []|done]].
  eapply triple_assume.
  { intros s Hs. pose proof (at_node_live _ _ _ _ _ _ _ Hs Hup) as Hl.
    destruct Hs as [[[[Hok _ HS] _ _ _ _ _ _ _] _] _]. exact (conj Hok (conj HS Hl)). }
  intros (Hok & HS & r & Hr & Hid & Hn).
  eapply triple_bind; [by apply triple_unwrap|]. intros r1. apply triple_pure. intros ->.
  destruct (step_total V0 payload_ok image_of (voters_nodup nodes) payload_static h (id_of i) r
    (F (id_of i)) S m Hok Hn Hid HS HSm) as [r' Hr']. rewrite Hr'.
  eapply (run_node_triple _ _ _ _ _ _ _ (OpStep m)); [done|done|done|done| | |done|done].
  - intros _. by eapply msg_inv_wf; [|apply HS].
  - eapply step_by; [done|done|by rewrite Hid|done].
Qed.

(** A change of a node's bookkeeping. *)
Lemma put_same_triple S h cs F i n n' :
  same_host n n' → sn_raft n' = sn_raft n →
  triple (at_node S h cs F i n) (put_node i n') (λ _, ok).
Proof.
  intros [E1 E2 E3 E4 E5] Er s [[[I1 I2 I3 I4 I5 I6 I7 I8] Hall] Hn]. simpl.
  exists S, h, cs, F. apply lookup_lt_Some in Hn as Hlt. split.
  - split; try done. simpl. by rewrite length_insert.
  - intros j nj Hj. simpl in Hj. destruct (decide (j = i)) as [->|Hne].
    + rewrite list_lookup_insert_eq in Hj by done. injection Hj as <-.
      destruct (Hall _ _ Hn) as [Hid Hset]. split; [congruence|].
      rewrite E2, Er, E3, E4, E5. done.
    + rewrite list_lookup_insert_ne in Hj by done. by apply Hall.
Qed.

Lemma get_node_again S h cs F i n :
  triple (at_node S h cs F i n) (get_node i) (λ n' s, n' = n ∧ at_node S h cs F i n s).
Proof. intros s Hs. rewrite (get_node_ok _ n) by apply Hs. done. Qed.

Lemma try_propose_triple S h cs F i n session seq cmd :
  sn_up n = true →
  triple (at_node S h cs F i n) (try_propose i session seq cmd) (λ _, ok).
Proof.
  intros Hup. unfold try_propose.
  eapply triple_bind; [apply get_node_again|]. intros n1. apply triple_pure. intros ->.
  eapply triple_assume; [intros s Hs; exact (at_node_live _ _ _ _ _ _ _ Hs Hup)|].
  intros (r & Hr & Hid & _).
  eapply triple_bind; [by apply triple_unwrap|]. intros r1. apply triple_pure. intros ->.
  destruct (propose (cmd_encode cmd) r) as [r' res] eqn:Hp.
  assert (by_moves payload_ok S r (propose (cmd_encode cmd) r).1) as Hmv.
  { apply propose_by. simpl. unfold cmd_decode, cmd_encode.
    rewrite deserialize_serialize. eauto. }
  destruct res as [idx|e].
  - apply triple_assoc. apply (triple_bind _ _ _ (λ _, ok)); [|by intros ?; apply triple_ret'].
    eapply (run_node_triple _ _ _ _ _ _ _ (OpPropose (cmd_encode cmd)) r r');
      [done|done|by simpl; rewrite Hp|done|done|by rewrite Hp in Hmv|done|done].
  - assert (r' = r) as ->.
    { unfold propose in Hp. destruct (decide _); [by injection Hp|]. by destruct (append_local _ _). }
    destruct e; (apply (triple_bind _ _ _ (λ _, ok)); [|by intros ?; apply triple_ret']);
      by apply put_same_triple.
Qed.

Lemma try_read_triple S h cs F i n node c op_ts key :
  sn_up n = true →
  triple (at_node S h cs F i n) (try_read i node c op_ts key) (λ _, ok).
Proof.
  intros Hup. unfold try_read.
  eapply triple_bind; [apply get_node_again|]. intros n1. apply triple_pure. intros ->.
  eapply triple_assume; [intros s Hs; exact (at_node_live _ _ _ _ _ _ _ Hs Hup)|].
  intros (r & Hr & Hid & _).
  eapply triple_bind; [by apply triple_unwrap|]. intros r1. apply triple_pure. intros ->.
  destruct (read_index (sn_next_read_id n) r) as [r' res] eqn:Hp.
  pose proof (read_index_by payload_ok S (sn_next_read_id n) r) as Hmv. rewrite Hp in Hmv.
  destruct res as [[]|e].
  - apply triple_assoc. apply (triple_bind _ _ _ (λ _, ok)); [|by intros ?; apply triple_ret'].
    eapply (run_node_triple _ _ _ _ _ _ _ (OpReadIndex (sn_next_read_id n)) r r');
      [done|done|by simpl; rewrite Hp|done|done|done|done|done].
  - assert (r' = r) as ->.
    { unfold read_index in Hp. destruct (decide _); [by injection Hp|].
      destruct (decide _); [by injection Hp|]. by destruct (decide _). }
    destruct e; (apply (triple_bind _ _ _ (λ _, ok)); [|by intros ?; apply triple_ret']);
      by apply put_same_triple.
Qed.

Lemma on_client_req_triple c node req : triple ok (on_client_req c node req) (λ _, ok).
Proof.
  apply triple_exists. intros S. apply triple_exists. intros h. apply triple_exists. intros cs.
  apply triple_exists. intros F. unfold on_client_req.
  eapply triple_bind; [apply node_index_triple|]. intros i. apply triple_pure. intros ->.
  eapply triple_bind; [apply get_node_idle|]. intros n.
  destruct (sn_up n) eqn:Hup; simpl.
  2: { apply triple_ret'. intros s [Hs _]. by exists S, h, cs, F. }
  eapply triple_bind.
  { apply (triple_quiet S); [apply get_client_quiet|by intros; eapply at_node_calm]. }
  intros cl. apply (triple_bind _ _ _ (λ _, ok)).
  - destruct req; [by apply try_propose_triple..|by apply try_read_triple].
  - intros [resp|]; [|by apply triple_ret']. apply ok_quiet. intros. apply send_client_resp_quiet.
Qed.

(** ** Crashes and restarts *)

Lemma crash_triple id : triple ok (crash id) (λ _, ok).
Proof.
  apply triple_exists. intros S. apply triple_exists. intros h. apply triple_exists. intros cs.
  apply triple_exists. intros F. unfold crash.
  eapply triple_bind; [apply node_index_triple|]. intros i. apply triple_pure. intros ->.
  eapply triple_bind; [apply get_node_idle|]. intros n.
  destruct (sn_up n) eqn:Hup; simpl.
  2: { apply triple_ret'. intros s [Hs _]. by exists S, h, cs, F. }
  eapply triple_bind.
  { apply (triple_quiet S); [apply quietly_bump|by intros; eapply at_node_calm]. }
  intros ?. apply (triple_bind _ _ _ (λ _, ok)); [|intros ?; apply ok_quiet; intros; quiet].
  intros s [Hi Hn]. pose proof (idle_busy _ _ _ _ _ _ _ _ _ Hi Hn) as Hb.
  destruct Hi as [[[_ Hns _] _ _ _ _ _ _ _] Hall]. destruct (Hall _ _ Hn) as [Hid Hset].
  rewrite Hup in Hset. destruct Hset as (r & Hr & _ & Hc & _ & Hd & _).
  pose proof (Hns (id_of i)) as Hni. rewrite <-Hc in Hni.
  pose proof (restart_core V0 image_of payload_ok (config_new 0 0) _ _ _ _ Hni) as Hrc.
  pose proof (restart_inv V0 payload_ok image_of h (id_of i) (core r) _ Hni) as Hri.
  simpl in Hri. rewrite <-Hrc, <-Hd in Hri. simpl.
  exists S, h, (update cs (id_of i) (core (node_new (config_new 0 0) V0 (sn_disk n)))), F.
  apply (busy_idle nodes booted S h _ F i). eapply busy_local; [exact Hb|exact Hri|].
  rewrite update_same. by split.
Qed.

(** A restarted node recovers its state machine from its snapshot. *)
Lemma restart_loaded S h cs F i n s cfg sm applied :
  at_node S h cs F i n s → sn_up n = false → c_id cfg = id_of i →
  (match p_snapshot (sn_disk n) with
   | Some s => sm = sm_after (upto (s_last_index s) (F (id_of i))) ∧ applied = s_last_index s
   | None => sm = sn_sm n ∧ applied = sn_applied n
   end) →
  ∀ k pr rr ww as_ nr, loaded S i (cs (id_of i)) (F (id_of i))
    (mkSimNode (sn_id n) true (Some (node_new cfg V0 (sn_disk n))) sm applied as_ nr pr rr ww
       (sn_disk n) k).
Proof.
  intros [[[[_ Hns _] _ _ _ _ _ _ _] Hall] Hn] Hup Hcfg Hsm k pr rr ww as_ nr.
  destruct (Hall _ _ Hn) as [Hid Hset]. rewrite Hup in Hset.
  destruct Hset as (_ & Hc & Hsm0 & Ha0). pose proof (Hns (id_of i)) as Hni.
  destruct (node_new_core V0 cfg (sn_disk n)) as (Hcore & Hrid & Hout).
  destruct (node_new_core V0 (config_new 0 0) (sn_disk n)) as (Hcore0 & _ & _).
  split; [done|]. split; [done|]. eexists. split; [done|]. rewrite Hrid, Hcore, Hout. simpl.
  rewrite Hc, Hcore0 in *. split; [done|]. split; [done|]. simpl in *.
  split; [by destruct (sn_disk n) as [hs es [sp|]]; unfold node_new; simpl;
    match goal with |- context [reset_election_timer ?x] =>
      destruct (reset_timer_eq x) as (T & R & ->) end|].
  split; [done|]. rewrite app_nil_r. destruct (p_snapshot (sn_disk n)) as [sp|]; simpl in *.
  - by destruct Hsm as [-> ->].
  - destruct Hsm as [-> ->]. rewrite Hsm0, Ha0. done.
Qed.

Lemma restart_image S h cs F i n s sp :
  at_node S h cs F i n s → sn_up n = false → p_snapshot (sn_disk n) = Some sp →
  image_of (upto (s_last_index sp) (F (id_of i))) (s_data sp).
Proof.
  intros [[[[_ Hns _] _ _ _ _ _ _ _] Hall] Hn] Hup Hsp.
  destruct (Hall _ _ Hn) as [_ Hset]. rewrite Hup in Hset. destruct Hset as (_ & Hc & _).
  destruct (Hns (id_of i)) as [_ _ _ _ [_ Hs]].
  destruct (node_new_core V0 (config_new 0 0) (sn_disk n)) as (Hcore & _ & _).
  rewrite Hc, Hcore, Hsp in Hs. simpl in Hs. by destruct Hs as (_ & _ & _ & Him).
Qed.

Lemma on_restart_triple id : triple ok (on_restart id) (λ _, ok).
Proof.
  apply triple_exists. intros S. apply triple_exists. intros h. apply triple_exists. intros cs.
  apply triple_exists. intros F. unfold on_restart.
  eapply triple_bind; [apply node_index_triple|]. intros i. apply triple_pure. intros ->.
  eapply triple_bind; [apply get_node_idle|]. intros n.
  destruct (sn_up n) eqn:Hup.
  { apply triple_ret'. intros s [Hs _]. by exists S, h, cs, F. }
  eapply triple_bind.
  { apply (triple_quiet S); [apply quietly_bump|by intros; eapply at_node_calm]. }
  intros ?. eapply triple_bind.
  { apply (triple_quiet S); [apply quietly_gets|by intros; eapply at_node_calm]. }
  intros cfg. eapply (triple_bind _ _ _ (λ vs s, vs = V0 ∧ at_node S h cs F i n s)).
  { intros s Hs. split; [|done]. by destruct Hs as [[[_ _ Hv _ _ _ _ _] _] _]. }
  intros vs. apply triple_pure. intros ->.
  eapply (triple_bind _ _ _ (λ sa s, at_node S h cs F i n s ∧
    match p_snapshot (sn_disk n) with
    | Some s => sa.1 = sm_after (upto (s_last_index s) (F (id_of i))) ∧ sa.2 = s_last_index s
    | None => sa.1 = sn_sm n ∧ sa.2 = sn_applied n
    end)).
  { intros s Hs. destruct (p_snapshot (sn_disk n)) as [sp|] eqn:Hsp; [|done].
    rewrite (restore_image _ _ _ (restart_image _ _ _ _ _ _ _ _ Hs Hup Hsp)). done. }
  intros [sm applied] s [Hs Hsm]. simpl in Hsm.
  pose proof (restart_loaded _ _ _ _ _ _ _ (node_cfg cfg (id_of i) (sn_restarts n + 1)) _ _
    Hs Hup eq_refl Hsm) as Hload.
  match goal with |- context [put_node i ?x] => set (n' := x) end.
  rewrite (bind_ok _ _ s tt (set_sim_nodes (<[i := n']> (sim_nodes s)) s)) by done.
  apply (process_output_triple nodes booted S h F i cs).
  destruct Hs as [Hi Hn]. pose proof (idle_busy _ _ _ _ _ _ _ _ _ Hi Hn) as Hb.
  apply (put_node_triple nodes booted S h F i cs _ (loaded S i (cs (id_of i)) (F (id_of i))) n'
    (Hload _ _ _ _ _ _) s Hb).
Qed.

Lemma on_fault_tick_triple : triple ok on_fault_tick (λ _, ok).
Proof.
  unfold on_fault_tick.
  eapply triple_bind; [by apply ok_quiet; intros; apply quietly_gets|]. intros now.
  eapply triple_bind; [by apply ok_quiet; intros; apply quietly_gets|]. intros fault_end.
  eapply triple_bind; [by apply ok_quiet; intros; apply quietly_gets|]. intros cfg.
  destruct (_ <=? _); [apply ok_quiet; intros; quiet|].
  eapply triple_bind; [apply ok_quiet; intros; quiet|]. intros p.
  eapply triple_bind.
  { destruct p; apply ok_quiet; intros; [apply start_partition_quiet|quiet]. }
  intros ?. eapply triple_bind; [apply ok_quiet; intros; quiet|]. intros cr.
  eapply (triple_bind _ _ _ (λ _, ok)); [|intros ?; apply ok_quiet; intros; quiet].
  destruct cr; [|by apply triple_ret'].
  eapply triple_bind; [apply ok_quiet; intros; apply random_node_quiet|]. intros id.
  apply crash_triple.
Qed.

(** ** Log matching *)

(** Entries already seen belong to logs of the protocol. *)
Definition seen_ok (h : history) (F : NodeId → list Entry) (seen : gmap (Index * Term) Entry)
    : Prop :=
  ∀ idx t e, seen !! (idx, t) = Some e → e_term e = t ∧ 0 < idx
    ∧ ∃ id, log_ok payload_ok h (F id) ∧ F id !! (N.to_nat idx - 1)%nat = Some e.

Lemma check_log_ok h id c F seen l idxs :
  node_inv V0 payload_ok image_of h id c (F id) → k_log c = l → seen_ok h F seen →
  match check_log l seen idxs with Ok seen' => seen_ok h F seen' | Err _ => False end.
Proof.
  intros Hn Hl. destruct Hn as [_ [Hrep Hlok _ _ _] _ _ _]. rewrite Hl in Hrep.
  revert seen. induction idxs as [|idx idxs IH]; intros seen Hseen; simpl; [done|].
  destruct (RL.get l idx) as [e|] eqn:Hg; [|by apply IH].
  apply get_Some in Hg as Hb. rewrite (rep_get (F id)) in Hg by (done || lia).
  unfold check_entry. destruct (seen !! (idx, e_term e)) as [prev|] eqn:Hp.
  - destruct (Hseen _ _ _ Hp) as (Ht & _ & id' & Hlok' & Hg').
    pose proof (log_matching payload_ok h _ _ _ _ _ Hlok' Hlok Hg' Hg Ht) as Hm.
    apply (f_equal (λ x, x !! (N.to_nat idx - 1)%nat)) in Hm.
    rewrite !lookup_take_lt in Hm by lia. rewrite decide_True by congruence. by apply IH.
  - apply IH. intros idx' t' e'. rewrite lookup_insert_Some.
    intros [[[= <- <-] <-]|[_ ?]]; [|by apply Hseen]. split_and!; [done|lia|]. by exists id.
Qed.

Lemma check_logs_ok h cs F seen ns k :
  (∀ id, node_inv V0 payload_ok image_of h id (cs id) (F id)) →
  (∀ j n, ns !! j = Some n → settled (id_of (k + j)) (cs (id_of (k + j))) (F (id_of (k + j))) n) →
  seen_ok h F seen → check_logs seen ns = Ok tt.
Proof.
  intros Hns. revert k seen. induction ns as [|n ns IH]; intros k seen Hset Hseen; simpl; [done|].
  assert (∀ seen', seen_ok h F seen' → check_logs seen' ns = Ok tt) as IH'.
  { intros seen' Hs'. apply (IH (S k)); [|done]. intros j n' Hj.
    replace (S k + j)%nat with (k + S j)%nat by lia. by apply Hset. }
  destruct (sn_raft n) as [r|] eqn:Hr; [|by apply IH'].
  destruct (sn_up n) eqn:Hup; [|by apply IH'].
  destruct (Hset 0%nat n eq_refl) as [_ Hn]. rewrite Hup in Hn. destruct Hn as (r' & Hr' & _ & Hc & _).
  rewrite Hr in Hr'. injection Hr' as <-.
  pose proof (check_log_ok h _ _ F seen (n_log r)
    (range_incl (RL.first_index (n_log r)) (RL.last_index (n_log r))) (Hns (id_of (k + 0)))) as Hcl.
  rewrite <-Hc in Hcl. specialize (Hcl eq_refl Hseen).
  destruct (check_log _ _ _) as [seen'|]; [by apply IH'|done].
Qed.

Lemma check_log_matching_triple S h cs F :
  triple (idle S h cs F) check_log_matching (λ _, idle S h cs F).
Proof.
  intros s Hs. unfold check_log_matching. pose proof Hs as [[[_ Hns _] _ _ _ _ _ _ _] Hall].
  rewrite (check_logs_ok h cs F ∅ (sim_nodes s) 0 Hns); [done|done|].
  intros idx t e. by rewrite lookup_empty.
Qed.

(** ** The event loop *)

Definition ready (ev : Event) (s : Sim) : Prop :=
  ∃ S h cs F, idle S h cs F s ∧ allowed S ev.

Lemma ready_ok ev s : ready ev s → ok s.
Proof. intros (S & h & cs & F & Hi & _). by exists S, h, cs, F. Qed.

Lemma ready_quiet ev {A} (m : M A) : (∀ S, quietly S m) → triple (ready ev) m (λ _, ready ev).
Proof.
  intros Hm s (S & h & cs & F & Hi & Hev). specialize (Hm S s).
  destruct (m s) as [[a s']|]; [|done]. exists S, h, cs, F. split; [by eapply calm_idle|done].
Qed.

Lemma dispatch_event_triple draining ev : triple (ready ev) (dispatch_event draining ev) (λ _, ok).
Proof.
  assert (∀ m : M unit, triple ok m (λ _, ok) → triple (ready ev) m (λ _, ok)) as Hok.
  { intros m Hm. eapply triple_conseq; [exact Hm|apply ready_ok|done]. }
  assert (∀ m : M unit, triple ok m (λ _, ok) →
    triple (ready ev) (if draining then mret tt else m) (λ _, ok)) as Hdr.
  { intros m Hm. destruct draining; [|by apply Hok]. apply Hok. by apply triple_ret'. }
  destruct ev as [id|m|c node req|c resp|c|c invoke| | |id]; simpl.
  - apply Hok, on_node_tick_triple.
  - intros s (S & h & cs & F & Hi & Hm). by apply (on_raft_msg_triple S h cs F m Hm).
  - apply Hdr, on_client_req_triple.
  - apply Hdr, ok_quiet. intros. apply on_client_resp_quiet.
  - apply Hdr, ok_quiet. intros. apply on_client_wake_quiet.
  - apply Hdr, ok_quiet. intros. apply on_client_timeout_quiet.
  - apply Hdr, on_fault_tick_triple.
  - apply Hok, ok_quiet. intros; quiet.
  - apply Hok, on_restart_triple.
Qed.

Lemma handle_event_triple qe : triple (ready (qe_ev qe)) (handle_event qe) (λ _, ok).
Proof.
  unfold handle_event. eapply triple_bind; [apply ready_quiet; intros; quiet|]. intros ?.
  eapply triple_bind; [apply ready_quiet; intros; quiet|]. intros ?.
  eapply triple_bind; [apply ready_quiet; intros; quiet|]. intros events.
  eapply triple_bind; [apply ready_quiet; intros; quiet|]. intros ?.
  eapply triple_bind; [apply ready_quiet; intros; quiet|]. intros cfg.
  eapply triple_bind; [apply dispatch_event_triple|]. intros ?.
  eapply triple_bind; [apply ok_quiet; intros; quiet|]. intros events'.
  destruct (_ =? 0); [|by apply triple_ret']. intros s (S & h & cs & F & Hi).
  pose proof (check_log_matching_triple S h cs F s Hi) as Hc.
  destruct (check_log_matching s) as [[? s']|]; [by exists S, h, cs, F|done].
Qed.

Lemma event_step_ok s :
  ok s →
  match event_step s with
  | inl s' | inr (Ok s') => ok s'
  | inr (Err p) => violation p = false
  end.
Proof.
  intros (S & h & cs & F & Hi). unfold event_step.
  destruct (sim_heap s) as [|qe heap] eqn:Hh; [by exists S, h, cs, F|].
  set (s1 := set_sim_heap heap s).
  assert (ready (qe_ev qe) s1) as Hr.
  { exists S, h, cs, F. pose proof Hi as [[I1 I2 I3 I4 I5 I6 I7 I8] Hall]. split.
    - split; [|done]. split; try done. intros q m Hq. apply I4. rewrite Hh. by right.
    - unfold allowed. destruct (qe_ev qe) eqn:Hev; try done. apply (I4 qe); [|done].
      rewrite Hh. left. }
  destruct (_ <? _); [by eapply ready_ok|].
  pose proof (handle_event_triple qe s1 Hr) as He. by destruct (handle_event qe s1) as [[? s']|].
Qed.

(** ** The checks at the end *)

Lemma for_each_require (b : SimNode → bool) (p : SimNode → SimPanic) l s :
  match for_each (λ n, require (b n) (p n) (mret tt)) l s with
  | Ok (_, s') => s' = s ∧ ∀ n, n ∈ l → b n = true
  | Err e => ∃ n, n ∈ l ∧ b n = false ∧ e = p n
  end.
Proof.
  induction l as [|n l IH]; simpl; [split; [done|by intros n ?%elem_of_nil]|].
  unfold mbind, M_bind, require. destruct (b n) eqn:Hb; simpl.
  - destruct (for_each _ l s) as [[? s']|e].
    + destruct IH as [-> IH]. split; [done|]. intros n' [->|?]%elem_of_cons; auto.
    + destruct IH as (n' & ? & ?). exists n'. split; [by right|done].
  - exists n. split; [by left|done].
Qed.

Lemma converged_equal S h cs F s i j n n' :
  idle S h cs F s → sim_nodes s !! i = Some n → sim_nodes s !! j = Some n' →
  sn_up n = true → sn_up n' = true → sn_applied n = sn_applied n' → sn_sm n = sn_sm n'.
Proof.
  intros [[[Hok Hns _] _ _ _ _ _ _ _] Hall] Hn Hn' Hup Hup' Ha.
  destruct (Hall _ _ Hn) as [_ Hs]. destruct (Hall _ _ Hn') as [_ Hs'].
  rewrite Hup in Hs. rewrite Hup' in Hs'.
  destruct Hs as (_ & _ & _ & _ & _ & _ & Hc & ->). destruct Hs' as (_ & _ & _ & _ & _ & _ & Hc' & ->).
  destruct (Hns (id_of i)) as [_ _ _ (_ & Hl & Hcp) _].
  destruct (Hns (id_of j)) as [_ _ _ (_ & Hl' & Hcp') _]. f_equal.
  apply prefix_length_eq; [|rewrite !length_take; lia].
  eapply (committed_longer V0 payload_ok (voters_nodup nodes)); [done..|]. rewrite !length_take. lia.
Qed.

Lemma any_leader_ok ns s :
  (∀ n, n ∈ ns → is_Some (sn_raft n)) → ∃ b, any_leader ns s = Ok (b, s).
Proof.
  induction ns as [|n ns IH]; intros Hr; simpl; [by eexists|].
  destruct (Hr n ltac:(left)) as [r Hr']. rewrite Hr'. unfold unwrap, mbind, M_bind, mret, M_ret.
  destruct (is_leader r); [by eexists|]. apply IH. intros n' ?. apply Hr. by right.
Qed.

Lemma finalize_triple : (0 < booted)%nat → triple ok finalize (λ _ _, True).
Proof.
  intros Hpos s (S & h & cs & F & Hi). unfold finalize.
  pose proof (check_log_matching_triple S h cs F s Hi) as Hc.
  unfold mbind at 1, M_bind at 1.
  destruct (check_log_matching s) as [[? s']|] eqn:Hcl; [|done].
  assert (s' = s) as ->.
  { unfold check_log_matching in Hcl. destruct (check_logs _ _); [by injection Hcl|done]. }
  rewrite (bind_ok _ _ s (sim_nodes s) s) by done.
  pose proof (for_each_require sn_up (λ n, StillDown (sn_id n)) (sim_nodes s) s) as Hup.
  unfold mbind at 1, M_bind at 1. destruct (for_each _ (sim_nodes s) s) as [[? s1]|e];
    [|by destruct Hup as (? & _ & _ & ->)]. destruct Hup as [-> Hup].
  destruct (sim_nodes s) as [|n0 ns] eqn:Hns.
  { destruct Hi as [[_ _ _ _ _ _ Hlen _] _]. rewrite Hns in Hlen. simpl in Hlen. lia. }
  rewrite (bind_ok _ _ s (foldl N.max (sn_applied n0) (sn_applied <$> ns)) s) by done.
  set (mx := foldl N.max _ _).
  pose proof (for_each_require (λ n, sn_applied n =? mx) (λ n, NotConverged (sn_id n)) (n0 :: ns) s) as Hcv.
  unfold mbind at 1, M_bind at 1. destruct (for_each _ (n0 :: ns) s) as [[? s1]|e];
    [|by destruct Hcv as (? & _ & _ & ->)]. destruct Hcv as [-> Hcv].
  rewrite (bind_ok _ _ s n0 s) by done. simpl.
  pose proof (for_each_require (λ n, bool_decide (sm_snapshot (sn_sm n) = sm_snapshot (sn_sm n0)))
    (λ n, Diverged (sn_id n)) ns s) as Hdv.
  unfold mbind at 1, M_bind at 1. destruct (for_each _ ns s) as [[? s1]|e].
  2: { destruct Hdv as (n & Hn & Hf & _). exfalso. apply bool_decide_eq_false in Hf. apply Hf. f_equal.
    apply list_elem_of_lookup in Hn as [j Hj].
    assert (n ∈ n0 :: ns) as Hin by (right; by eapply list_elem_of_lookup_2).
    apply (converged_equal S h cs F s (Datatypes.S j) 0); [done|by rewrite Hns..| | |].
    - by apply Hup.
    - apply Hup. left.
    - apply Hcv in Hin. specialize (Hcv n0 ltac:(left)). simpl in *. lia. }
  destruct Hdv as [-> _]. destruct (any_leader_ok (n0 :: ns) s) as [b Hb].
  { intros n Hn. pose proof (Hup n Hn) as Hu. apply list_elem_of_lookup in Hn as [j Hj].
    destruct Hi as [_ Hall]. rewrite Hns in Hall. destruct (Hall _ _ Hj) as [_ Hset]. rewrite Hu in Hset.
    destruct Hset as (r & -> & _). eauto. }
  rewrite (bind_ok _ _ s b s) by done. unfold require. destruct b; [|done].
  rewrite (bind_ok _ _ s (sim_history s) s) by done.
  by destruct (check_history _) as [?|[key e]].
Qed.
End events.

(** ** The loop ends *)

(** Only the loop itself counts events. *)
Definition uncounted {A} (m : M A) : Prop :=
  ∀ s a s', m s = Ok (a, s') → st_events (sim_stats s') = st_events (sim_stats s).

Section uncounted.
  Context `{Bincode Command} `{Bincode SnapshotPayload}.

Lemma uncounted_ret {A} (a : A) : uncounted (mret a).
Proof. by intros s b s' [= <- <-]. Qed.
Lemma uncounted_panic {A} p : uncounted (panic (A := A) p).
Proof. done. Qed.
Lemma uncounted_bind {A B} (m : M A) (k : A → M B) :
  uncounted m → (∀ a, uncounted (k a)) → uncounted (m ≫= k).
Proof.
  intros Hm Hk s b s'. unfold mbind, M_bind. destruct (m s) as [[a s1]|] eqn:Hs; [|done].
  intros Hb. rewrite (Hk a s1 b s' Hb). by apply (Hm s a).
Qed.
Lemma uncounted_gets {A} (f : Sim → A) : uncounted (gets f).
Proof. by intros s b s' [= <- <-]. Qed.
Lemma uncounted_modify f :
  (∀ s, st_events (sim_stats (f s)) = st_events (sim_stats s)) → uncounted (modify f).
Proof. intros Hf s b s' [= <- <-]. apply Hf. Qed.
Lemma uncounted_draw {A} (f : N → option (N * A)) : uncounted (draw f).
Proof. intros s b s'. unfold draw. destruct (f _) as [[r x]|]; [|done]. by intros [= <- <-]. Qed.
Lemma uncounted_for_each {A} (f : A → M unit) l : (∀ x, uncounted (f x)) → uncounted (for_each f l).
Proof.
  intros Hf. induction l as [|x l IH]; simpl; [apply uncounted_ret|]. by apply uncounted_bind.
Qed.
End uncounted.

Create HintDb uncounted discriminated.

Ltac head_of m := lazymatch m with ?f _ => head_of f | _ => m end.
Ltac uncounted_step :=
  match goal with
  | |- uncounted (_ ≫= _) => apply uncounted_bind; [|intros ?]
  | |- uncounted (mret _) => apply uncounted_ret
  | |- uncounted (panic _) => apply uncounted_panic
  | |- uncounted (gets _) => apply uncounted_gets
  | |- uncounted (draw _) => apply uncounted_draw
  | |- uncounted (modify _) => apply uncounted_modify; reflexivity
  | |- uncounted (for_each _ _) => apply uncounted_for_each; intros ?
  | |- uncounted (let '(_, _) := ?x in _) => destruct x
  | |- uncounted (if ?b then _ else _) => destruct b
  | |- uncounted (match ?x with _ => _ end) => destruct x
  | |- uncounted _ => solve [eauto with uncounted]
  | |- uncounted ?m => let h := head_of m in unfold h
  end.
Ltac uncounted := repeat uncounted_step.

Section handlers_uncounted.
  Context `{Bincode Command} `{Bincode SnapshotPayload}.

Lemma apply_committed_uncounted i es : uncounted (apply_committed i es).
Proof. induction es as [|e es IH]; simpl; uncounted. Qed.
Hint Resolve apply_committed_uncounted : uncounted.

Lemma process_output_uncounted i : uncounted (process_output i).
Proof. unfold process_output. uncounted. Qed.
Hint Resolve process_output_uncounted : uncounted.

Lemma shuffle_uncounted i ids : uncounted (shuffle i ids).
Proof. revert ids. induction i as [|i IH]; intros ids; simpl; uncounted. Qed.
Hint Resolve shuffle_uncounted : uncounted.

Lemma check_log_matching_uncounted : uncounted check_log_matching.
Proof. intros s a s'. unfold check_log_matching. destruct (check_logs _ _); [|done]. by intros [= <- <-]. Qed.

Lemma dispatch_event_uncounted draining ev : uncounted (dispatch_event draining ev).
Proof. destruct ev, draining; simpl; uncounted. Qed.

(** Every iteration of the loop counts one event and stays below the budget. *)
Lemma event_step_counts s s' :
  event_step s = inl s' →
  st_events (sim_stats s') = st_events (sim_stats s) + 1
  ∧ st_events (sim_stats s') < EVENT_BUDGET.
Proof.
  unfold event_step. destruct (sim_heap s) as [|qe heap]; [done|]. destruct (_ <? _); [done|].
  destruct (handle_event qe (set_sim_heap heap s)) as [[u s1]|] eqn:He; [|done]. intros [= <-].
  unfold handle_event in He. revert He.
  do 3 (rewrite (bind_ok _ _ _ _ _ eq_refl); simpl).
  set (s2 := set_sim_stats _ _). set (ev := st_events (sim_stats s) + 1).
  destruct (N.ltb_spec ev EVENT_BUDGET) as [Hlt|]; [|done].
  rewrite (bind_ok _ _ s2 tt s2) by done. intros He.
  assert (uncounted (cfg ← gets sim_cfg;
    dispatch_event (sc_run_ms cfg <? qe_time qe) (qe_ev qe);;
    events ← gets (λ s, st_events (sim_stats s));
    if events mod 2000 =? 0 then check_log_matching else mret tt)) as Hu.
  { apply uncounted_bind; [apply uncounted_gets|]. intros cfg.
    apply uncounted_bind; [apply dispatch_event_uncounted|]. intros ?.
    apply uncounted_bind; [apply uncounted_gets|]. intros events.
    destruct (_ =? _); [apply check_log_matching_uncounted|apply uncounted_ret]. }
  apply Hu in He. rewrite He. simpl. done.
Qed.

(** The budget of the simulator bounds its loop: the fuel is never used up. *)
Lemma event_loop_ends s : ∃ r, loop loop_fuel event_step s = inr r.
Proof.
  apply (loop_enough (λ _, True) (λ s, EVENT_BUDGET - st_events (sim_stats s))); [|done|].
  - intros s1 _. destruct (event_step s1) as [s2|] eqn:Hs; [|done]. split; [done|].
    apply event_step_counts in Hs as [-> Hlt]. lia.
  - unfold EVENT_BUDGET, loop_fuel. lia.
Qed.
End handlers_uncounted.

(** ** Whole runs *)

Section runs.
  Context `{BincodeLaws Command} `{BincodeLaws SnapshotPayload}.

Lemma boot_node_triple nodes k :
  triple (sim_ok nodes k) (boot_node (id_of k)) (λ _, sim_ok nodes (S k)).
Proof.
  apply triple_exists. intros S. apply triple_exists. intros h. apply triple_exists. intros cs.
  apply triple_exists. intros F. unfold boot_node.
  eapply triple_bind.
  { apply (triple_quiet S); [apply quietly_gets|by intros; eapply calm_idle]. }
  intros cfg. eapply (triple_bind _ _ _ (λ vs s, vs = range_incl 1 nodes ∧ idle nodes k S h cs F s)).
  { intros s Hs. split; [|done]. by destruct Hs as [[_ _ Hv _ _ _ _ _] _]. }
  intros vs. apply triple_pure. intros ->.
  eapply (triple_bind _ _ _ (λ _, sim_ok nodes (Datatypes.S k)));
    [|intros ?; apply ok_quiet; intros; quiet].
  apply triple_modify. intros s [[I1 I2 I3 I4 I5 I6 I7 I8] Hall]. exists S, h, cs, F.
  destruct (I8 (id_of k)) as [Hcs HF]; [unfold id_of; lia|]. split.
  - split; try done; simpl.
    + rewrite length_app. simpl. lia.
    + intros id Hid. apply I8. lia.
  - intros j n Hj. simpl in Hj. destruct (decide (j = k)) as [->|Hne].
    + rewrite lookup_app_r, I7, Nat.sub_diag in Hj by lia. injection Hj as <-.
      destruct (node_new_core (range_incl 1 nodes) (node_cfg cfg (id_of k) 0) default_persisted)
        as (Hc & Hid & Ho). split; [done|]. simpl. eexists. split; [done|]. rewrite Hcs, HF.
      split_and!; [done|by rewrite Hc|done| |done|done].
      unfold node_new. simpl. match goal with |- context [reset_election_timer ?x] =>
        destruct (reset_timer_eq x) as (T & R & ->) end. done.
    + apply Hall. apply lookup_app_Some in Hj as [|[? Hj]]; [done|].
      apply list_lookup_singleton_Some in Hj as [? _]. lia.
Qed.

Lemma boot_nodes_triple nodes m k :
  triple (sim_ok nodes k) (for_each boot_node (range (id_of k) (id_of (k + m))))
    (λ _, sim_ok nodes (k + m)%nat).
Proof.
  revert k. induction m as [|m IH]; intros k.
  - rewrite Nat.add_0_r, range_nil by lia. by apply triple_ret'.
  - rewrite range_cons by (unfold id_of; lia). simpl.
    eapply triple_bind; [apply boot_node_triple|]. intros ?.
    replace (id_of k + 1) with (id_of (S k)) by (unfold id_of; lia).
    replace (k + S m)%nat with (S k + m)%nat by lia. apply IH.
Qed.

Lemma boot_triple nodes :
  triple (λ s, sim_ok nodes 0 s ∧ sc_nodes (sim_cfg s) = nodes) boot
    (λ _, sim_ok nodes (N.to_nat nodes)).
Proof.
  unfold boot. eapply (triple_bind _ _ _ (λ cfg s, sc_nodes cfg = nodes ∧ sim_ok nodes 0 s)).
  { by intros s [Hs Hc]. }
  intros cfg. apply triple_pure. intros Hn. eapply triple_bind.
  { pose proof (boot_nodes_triple nodes (N.to_nat nodes) 0) as Hb. unfold range_incl. rewrite Hn.
    replace (id_of (0 + N.to_nat nodes)) with (nodes + 1) in Hb by (unfold id_of; lia). exact Hb. }
  intros ?. eapply triple_bind.
  { apply triple_for_each. intros c _. apply ok_quiet. intros S. unfold boot_client. quiet. }
  intros ?. apply ok_quiet. intros; quiet.
Qed.

Lemma event_loop_triple nodes k : triple (sim_ok nodes k) event_loop (λ _, sim_ok nodes k).
Proof.
  intros s Hs. unfold event_loop. destruct (event_loop_ends s) as [r Hr].
  opose proof (loop_inv (sim_ok nodes k)
    (λ r, match r with Ok s' => sim_ok nodes k s' | Err p => violation p = false end)
    event_step _ loop_fuel s Hs) as Hl.
  { intros s1 Hs1. pose proof (event_step_ok nodes k s1 Hs1) as He. by destruct (event_step s1) as [|[]]. }
  rewrite Hr in *. by destruct r.
Qed.

Lemma sim_new_ok cfg s : sim_new cfg = Some s → sim_ok (sc_nodes cfg) 0 s ∧ sim_cfg s = cfg.
Proof.
  unfold sim_new. destruct (_ || _); [done|]. intros [= <-]. split; [|done].
  exists (λ _, False), init_history, (λ _, init_core (range_incl 1 (sc_nodes cfg))), (λ _, []).
  split; [|done]. split; try done; simpl.
  - apply init_world.
  - by intros q m ?%elem_of_nil.
Qed.

(** A run that reports, or fails otherwise than by a [violation]. *)
Definition safe_outcome (r : Result RunReport SimPanic) : Prop :=
  match r with Ok _ => True | Err p => violation p = false end.

Lemma run_safe cfg : 0 < sc_nodes cfg → safe_outcome (run cfg).
Proof.
  intros Hpos. unfold run. destruct (sim_new cfg) as [s|] eqn:Hnew; [|done].
  destruct (sim_new_ok cfg s Hnew) as [Hs Hcfg].
  assert (triple (λ s, sim_ok (sc_nodes cfg) 0 s ∧ sc_nodes (sim_cfg s) = sc_nodes cfg)
    (boot;; event_loop;; finalize) (λ _ _, True)) as Ht.
  { eapply triple_bind; [apply boot_triple|]. intros ?.
    eapply triple_bind; [apply event_loop_triple|]. intros ?.
    apply finalize_triple. lia. }
  specialize (Ht s (conj Hs (f_equal sc_nodes Hcfg))).
  by destruct ((boot;; event_loop;; finalize) s) as [[]|].
Qed.

(** C8: no run of the simulator, whatever its seed, cluster size, delays,
    losses, duplications, partitions and crashes, ever shows a second leader in
    a term, two nodes applying different entries at an index, two logs that
    disagree, a converged cluster with different state machines, a panic of the
    raft core, or a command or snapshot that fails to decode; and the event
    loop ends. *)
Theorem simulator_never_violates_safety cfg :
  0 < sc_nodes cfg → safe_outcome (run cfg).
Proof. apply run_safe. Qed.

Lemma finalize_linearizable s report s' :
  finalize s = Ok (report, s') → check_history (rr_history report) = Ok tt.
Proof.
  intros Hf. unfold finalize in Hf.
  do 8 (apply bind_inv in Hf as (? & ? & _ & Hf)).
  unfold require in Hf. match type of Hf with (if ?b then _ else _) ?x = _ =>
    destruct b; [|done]; rewrite (bind_ok _ _ x (sim_history x) x) in Hf by done end.
  destruct (check_history _) as [[]|[]] eqn:Hc; [|done]. by injection Hf as <- <-.
Qed.

Lemma run_linearizable cfg report r :
  run cfg = Ok report → r ∈ rr_history report →
  history_linearizable (on_key (rr_history report) (hop_key (hr_op r))).
Proof.
  unfold run. destruct (sim_new cfg) as [s|]; [|done].
  destruct ((boot;; event_loop;; finalize) s) as [[rep s']|] eqn:Hrun; [|done]. intros [= <-].
  apply check_history_sound. apply bind_inv in Hrun as (? & s1 & _ & Hrun).
  apply bind_inv in Hrun as (? & s2 & _ & Hrun). by apply finalize_linearizable in Hrun.
Qed.

(** C16: a run that the simulator accepts really is linearizable: the operations
    its clients recorded on each key have a sequential explanation in real-time
    order. *)
Theorem accepted_run_is_linearizable cfg report r :
  run cfg = Ok report → r ∈ rr_history report →
  history_linearizable (on_key (rr_history report) (hop_key (hr_op r))).
Proof. apply run_linearizable. Qed.
End runs.

(** ** Concrete runs *)

#[local] Instance demo_command_codec : Bincode Command := countable_bincode Command.
#[local] Instance demo_command_laws : BincodeLaws Command := countable_bincode_laws Command.
#[local] Instance demo_payload_codec : Bincode SnapshotPayload := countable_bincode SnapshotPayload.
#[local] Instance demo_payload_laws : BincodeLaws SnapshotPayload :=
  countable_bincode_laws SnapshotPayload.

(** Three nodes under loss, duplication, partitions and crashes. *)
Definition stormy : SimConfig :=
  mkSimConfig 7 3 2 2 4500 1500 p_002 p_005 1 12 p_030 p_020 5.

Lemma simulator_never_violates_safety_witness :
  0 < sc_nodes stormy ∧ safe_outcome (run stormy).
Proof. split; [reflexivity|]. apply (simulator_never_violates_safety stormy). reflexivity. Defined.

(** A one-node cluster with one client, whose run is short. *)
Definition tiny : SimConfig := mkSimConfig 1 1 1 1 3300 3300 p_0 p_0 1 2 p_0 p_0 4.

Definition report_of (r : Result RunReport SimPanic) : RunReport :=
  match r with Ok r => r | Err _ => mkReport default_stats [] [] end.

Definition tiny_report : RunReport := report_of (run tiny).

Definition tiny_record : HRecord :=
  default (mkHRecord 0 0 None (HRead 0) None) (rr_history tiny_report !! 0%nat).

Lemma accepted_run_is_linearizable_witness :
  history_linearizable (on_key (rr_history tiny_report) (hop_key (hr_op tiny_record))).
Proof.
  apply (accepted_run_is_linearizable tiny tiny_report tiny_record).
  - vm_compute. reflexivity.
  - apply (list_elem_of_lookup_2 _ 0). vm_compute. reflexivity.
Defined.
