(* ===== verification/Simulate.v ===== *)
(** * The seed sweep

    crates/sim/src/bin/simulate.rs: the command line of the sweep, the runs of its
    seeds, and its report. *)

From S2P Require Import Prelude Order Text Codec SimBase RaftTypes Kvsm Wgl SimCluster SimLogic SimSafety SimRuns.
From stdpp Require Import strings.
Local Open Scope string_scope.
Local Open Scope N_scope.

(** ** The command line *)

Record SweepArgs := mkSweepArgs { sw_seeds : N; sw_start : N; sw_verbose : bool }.

(** [None]: a flag without its value, a value that is no number, or an unknown
    argument, which all panic. *)
Fixpoint sweep_args (args : list string) (a : SweepArgs) : option SweepArgs :=
  match args with
  | [] => Some a
  | flag :: args =>
    if bool_decide (flag = "--seeds") then
      match args with
      | [] => None
      | v :: args => n ← parse_uint 64 v; sweep_args args (mkSweepArgs n (sw_start a) (sw_verbose a))
      end
    else if bool_decide (flag = "--start") then
      match args with
      | [] => None
      | v :: args => n ← parse_uint 64 v; sweep_args args (mkSweepArgs (sw_seeds a) n (sw_verbose a))
      end
    else if bool_decide (flag = "--verbose") then sweep_args args (mkSweepArgs (sw_seeds a) (sw_start a) true)
    else None
  end.

Definition sweep_default : SweepArgs := mkSweepArgs 100 0 false.

(** ** The sweep *)

Section sweep.
  Context {cc : Bincode Command} {cp : Bincode SnapshotPayload}.

(** What [catch_unwind] sees of one seed. *)
Definition run_seed (seed : N) : Result RunReport SimPanic :=
  match from_seed seed with
  | Some cfg => run cfg
  | None => Err ArithmeticPanic
  end.

Record sweep_report := mkSweep {
  sr_failures : list (N * SimPanic);
  sr_total_ops : N;
  sr_total_events : N;
}.

Definition sweep_seed (r : sweep_report) (seed : N) : sweep_report :=
  match run_seed seed with
  | Ok report =>
    mkSweep (sr_failures r) (sr_total_ops r + st_ops_completed (rr_stats report))
      (sr_total_events r + st_events (rr_stats report))
  | Err p => mkSweep (sr_failures r ++ [(seed, p)]) (sr_total_ops r) (sr_total_events r)
  end.

(** The loop over [start..start + seeds]; the end of the range wraps. *)
Definition sweep (a : SweepArgs) : sweep_report :=
  foldl sweep_seed (mkSweep [] 0 0) (range (sw_start a) (wrap 64 (sw_start a + sw_seeds a))).

Definition sweep_code (r : sweep_report) : N := match sr_failures r with [] => 0 | _ => 1 end.

(** ** Seeds always give a configuration *)

Lemma rng_pick_some {A} (items : list A) r :
  items ≠ [] → ∃ r' x, rng_pick items r = Some (r', x) ∧ x ∈ items.
Proof.
  intros Hne. unfold rng_pick, rng_below. destruct (N.eqb_spec (N.of_nat (length items)) 0) as [H0|H0].
  { destruct items; [done|simpl in H0; lia]. }
  destruct (next_u64 r) as [r' z]. simpl.
  destruct (items !! N.to_nat (z mod N.of_nat (length items))) as [x|] eqn:Hx.
  - exists r', x. split; [done|]. by eapply list_elem_of_lookup_2.
  - apply lookup_ge_None in Hx. pose proof (N.mod_lt z (N.of_nat (length items)) H0). lia.
Qed.

Lemma from_seed_some seed : ∃ cfg, from_seed seed = Some cfg ∧ 0 < sc_nodes cfg ∧ sc_seed cfg = seed.
Proof.
  unfold from_seed.
  destruct (rng_pick_some [3; 3; 3; 5] (rng_new (N.lxor seed 0xC0FFEE00D15EA5E5)) ltac:(done)) as (r1 & nodes & -> & Hn).
  cbn [mbind option_bind]. destruct (rng_pick_some [p_0; p_002; p_010; p_020] r1 ltac:(done)) as (r2 & d & -> & _). cbn [mbind option_bind].
  destruct (rng_pick_some [p_0; p_005] r2 ltac:(done)) as (r3 & du & -> & _). cbn [mbind option_bind].
  assert (∃ r4 x, rng_range 3 25 r3 = Some (r4, x)) as (r4 & x & ->).
  { unfold rng_range, rng_below. simpl. destruct (next_u64 r3) as [r4 z]. simpl. eauto. }
  cbn [mbind option_bind]. destruct (rng_pick_some [p_0; p_015; p_030] r4 ltac:(done)) as (r5 & pp & -> & _). cbn [mbind option_bind].
  destruct (rng_pick_some [p_0; p_010; p_020] r5 ltac:(done)) as (r6 & pc & -> & _). cbn [mbind option_bind].
  eexists. split; [done|]. split; [|done]. simpl. rewrite !elem_of_cons, elem_of_nil in Hn. lia.
Qed.

(** ** The report *)

Lemma sweep_failures l r s p :
  (s, p) ∈ sr_failures (foldl sweep_seed r l) ↔ (s, p) ∈ sr_failures r ∨ (s ∈ l ∧ run_seed s = Err p).
Proof.
  revert r. induction l as [|seed l IH]; intros r; simpl; [set_solver|]. rewrite IH. unfold sweep_seed.
  destruct (run_seed seed) as [report|q] eqn:Hr; simpl.
  - rewrite elem_of_cons. naive_solver congruence.
  - rewrite elem_of_app, list_elem_of_singleton, elem_of_cons. naive_solver congruence.
Qed.

  Context {lc : BincodeLaws Command} {lp : BincodeLaws SnapshotPayload}.

Lemma run_seed_safe seed : safe_outcome (run_seed seed).
Proof. unfold run_seed. destruct (from_seed_some seed) as (cfg & -> & Hn & _). by apply run_safe. Qed.

Lemma run_seed_linearizable seed report r :
  run_seed seed = Ok report → r ∈ rr_history report →
  history_linearizable (on_key (rr_history report) (hop_key (hr_op r))).
Proof. unfold run_seed. destruct (from_seed seed) as [cfg|]; [apply run_linearizable|done]. Qed.

(** What a sweep reports. The failures of a sweep are exactly the seeds of its
    range whose runs panic, with their panics, and it exits with 0 exactly when there
    are none. No panic is one of the failed checks that [violation] lists; each
    failing seed fails in the same way when it is swept alone; and every run that
    does not fail has a linearizable history. *)
Theorem sweep_reports_seeds a :
  sw_start a + sw_seeds a < 2 ^ 64 →
  let swept s := (sw_start a ≤ s ∧ s < sw_start a + sw_seeds a)%N in
  (∀ s p, (s, p) ∈ sr_failures (sweep a) ↔ swept s ∧ run_seed s = Err p) ∧
  (sweep_code (sweep a) = 0 ↔ ∀ s, swept s → ∃ report, run_seed s = Ok report) ∧
  (∀ s p, (s, p) ∈ sr_failures (sweep a) →
     violation p = false ∧ sr_failures (sweep (mkSweepArgs 1 s (sw_verbose a))) = [(s, p)]) ∧
  (∀ s report r, swept s → run_seed s = Ok report → r ∈ rr_history report →
     history_linearizable (on_key (rr_history report) (hop_key (hr_op r)))).
Proof.
  intros Hb swept.
  assert (∀ s p, (s, p) ∈ sr_failures (sweep a) ↔ swept s ∧ run_seed s = Err p) as Hf.
  { intros s p. unfold sweep. rewrite sweep_failures, wrap_small, elem_of_range by done. simpl. set_solver. }
  split_and!; [done| | |].
  - unfold sweep_code. split.
    + intros Hc s Hs. destruct (run_seed s) as [report|p] eqn:Hr; [by eexists|].
      assert ((s, p) ∈ sr_failures (sweep a)) as Hin by (by apply Hf).
      destruct (sr_failures (sweep a)); [by apply elem_of_nil in Hin|done].
    + intros Hok. destruct (sr_failures (sweep a)) as [|[s p] l] eqn:Hl; [done|].
      destruct (proj1 (Hf s p)) as [Hs Hr]; [left|]. destruct (Hok s Hs). congruence.
  - intros s p [Hs Hr]%Hf. pose proof (run_seed_safe s) as Hsafe. rewrite Hr in Hsafe. split; [done|].
    unfold sweep. cbn [sw_start sw_seeds]. destruct Hs. rewrite wrap_small by lia.
    rewrite range_cons, range_nil by lia. simpl. unfold sweep_seed. by rewrite Hr.
  - intros s report r _. apply run_seed_linearizable.
Qed.
End sweep.

(** ** A concrete sweep *)

#[local] Instance sweep_cmd_codec : Bincode Command := countable_bincode Command.
#[local] Instance sweep_cmd_laws : BincodeLaws Command := countable_bincode_laws Command.
#[local] Instance sweep_image_codec : Bincode SnapshotPayload := countable_bincode SnapshotPayload.
#[local] Instance sweep_image_laws : BincodeLaws SnapshotPayload := countable_bincode_laws SnapshotPayload.

Definition demo_sweep : option SweepArgs := sweep_args ["--start"; "7"; "--seeds"; "3"] sweep_default.

Lemma sweep_reports_seeds_witness :
  demo_sweep = Some (mkSweepArgs 3 7 false) ∧
  (∀ s p, (s, p) ∈ sr_failures (sweep (mkSweepArgs 3 7 false)) →
     violation p = false ∧ sr_failures (sweep (mkSweepArgs 1 s false)) = [(s, p)]).
Proof.
  split; [vm_compute; reflexivity|].
  destruct (sweep_reports_seeds (mkSweepArgs 3 7 false)) as (_ & _ & H & _); [reflexivity|exact H].
Defined.
